(* ===== verification/_CoqProject ===== *)
-Q . S2P
Prelude.v
PyLib.v
JsonLib.v
Sha256.v
ProcessIdentity.v
CoordinationJournal.v
CrossProcessStorage.v
StorageGovernor.v
StorageStack.v
ProjectionAudit.v
GeneratedBytes.v
PythonRows.v
HiveUris.v
HivePlan.v
Uris.v
ModifiedTime.v
LogicalSchema.v
SchemaEvolution.v
FieldNames.v
SchemaRegistry.v
BoundedGeneration.v
DiagnosticEpoch.v
AtomicEpoch.v
TerminalOwnership.v
StaticControlPlane.v
ForkSafety.v
ForkManager.v
ControlPlane.v
TemporaryStorage.v
StreamingStorage.v
