(* ===== verification/Prelude.v ===== *)
(** * schema-sanitizer: a verification development

    schema-sanitizer turns loosely typed JSON, XML, CSV and Python rows into
    analytical tables.  A C++ engine ([cpp/src]) infers logical schemas, evolves them
    against contracts, keeps a registry of canonical schemas and sanitizes field
    names; a Python package ([src/schema_sanitizer]) feeds it, plans partitioned
    runs, audits Parquet projections, and carries a runtime core ([core_impl]) of
    ledgers, pools and journals that must survive crashes, forks and
    asynchronous exceptions.  This library models parts of both sides as
    executable definitions and proves what makes them correct.  File names below
    are relative to [src/src/schema_sanitizer] for Python and to [src/cpp/src] for C++.

    ** Foundations

    - [Prelude] (this file): exceptions and results; the state monad [M] in which
      every attribute store is a point where an asynchronous exception can land;
      its weakest precondition [wp] with a budget of interruptions; shared lemmas
      on lists, index sets and circular buffers; the hint database [sanitizer].
    - [PyLib], [JsonLib], [Sha256]: the parts of Python's standard library that the
      modelled code calls ([str] and [re] on code points 0 to 255, [datetime],
      [sorted], [bisect], [json], UTF-8, [hashlib.sha256]).

    ** Schemas (C++)

    - [LogicalSchema]: [sanitize/core/logical_schema.hh], [core/logical_schema.cc].
    - [SchemaEvolution]: [planning/schema_evolution.cc].  Additive evolution never
      fails, keeps every contract field, and is idempotent; strict evolution
      reports exactly the incompatible fields; field orders are permutations.
    - [FieldNames]: [planning/field_name_sanitizer.cc],
      [internal/planning/variant_field_names.cc].  Sibling names come out distinct and
      independent of their order; sanitizing changes names only.
    - [SchemaRegistry]: [schema_registry/*.cc].  A merge keeps the history of canonical
      fields, is silent when repeated, and reports drift exactly when it
      changes the schema; numeric families settle; version names round-trip.

    ** Planning (Python)

    - [HiveUris], [HivePlan]: [core_impl/hive_uris.py], [pipeline/hive.py].  A range gives
      one run per partition in order; dates and hours are recovered from the
      URIs generated for them; rolling and calendar limits.
    - [Uris], [ModifiedTime]: [core_impl/uris.py], [sources/models.py],
      [pipeline/modified_time.py].  Daily plans partition a remote listing, and the
      single-pass grouping equals the selection of every window.
    - [ProjectionAudit]: [adapters/parquet/projection/audits].  Each of the four audits
      is stable exactly for projections that keep the recursive contracts.

    ** Streams (Python and C++)

    - [GeneratedBytes], [PythonRows]: [core_impl/generated_bytes.py],
      [core_impl/python_rows.py], [api/python_abi3/json/_core_abi3_python_rows.cc].  The
      reader is proved against an interface of its source; the row source with its
      replay spool implements it, so that reads and rewinds refine a cursor over
      the encoded rows.

    ** Runtime core (Python)

    - [CoordinationJournal]: [core_impl/coordination_journal.py].  Every disk state that
      a commit passes through, whatever fails, is settled by recovery on the
      image before or after; outcomes and restarts of recovery agree with it.
    - [ProcessIdentity], [CrossProcessStorage]: [core_impl/process_identity.py],
      [core_impl/cross_process_storage.py] on top of the journal.  A step relation runs
      the processes of a host, killed and interrupted at any points: the live ones
      never hold more of a device than its capacity, and every document recovers
      to records that cover them.  Reservations and repairs without faults are
      exact; a recorded process is told apart from a later one with its id.
    - [StorageGovernor]: [core_impl/temporary_storage_governor.py], against an interface
      [HostAccounts] of the host with its laws.  The ledger of a device is exact after
      any requests, a capability that holds something stays registered wherever
      exceptions land, and reservations have the stated outcomes.
    - [StorageStack]: the instance of that interface by [CrossProcessStorage].  What the
      capabilities of a process hold is on record in the documents of the host.
    - [TemporaryStorage], [StreamingStorage]: [core_impl/temporary_storage.py].  A step
      relation interleaves the critical sections of any threads on a pool of
      storage permits, with the governor's answers between them: the counters are
      exact, and bounded by twice the limit, which is reached.  Resizes and releases
      have the stated outcomes, a lease agrees with its entry, and streams take
      from a shared lease exactly what they cover.
    - [ControlPlane]: [core_impl/control_plane_budget.py].  The budget refines a book of
      tickets: its counters are those of the live owners, whatever is cut short.
    - [BoundedGeneration], [TerminalOwnership], [DiagnosticEpoch], [AtomicEpoch],
      [StaticControlPlane]: the files of the same names in [core_impl], and the
      native counter in [api/python_abi3/options/prepare.cc].  Invariants, commit
      points and exact accounting under exceptions between any two stores; the
      interleavings of the native compare-and-exchange loops.
    - [ForkSafety], [ForkManager]: [core_impl/fork_safety.py], [core_impl/fork_manager.py].
      Registry and quarantine are well formed, a fork runs exactly the prepared
      handlers, and with the lock bank of [StaticControlPlane] as a handler no process
      uses a lock that its line of ancestors has quarantined.

    ** Conventions

    State is a record, an operation a function from state to result and state, a
    raised exception the [Err] side of [result].  Machine-width integers are [Z] with
    their bounds written out.  Loops that are not structural run on fuel that is
    computed from their input (the length of a text, the days of a range, the
    size of a pool, the bytes asked for), and the theorems show that it is enough,
    so that results are returned and not only right when returned.  What is outside
    the sources (the file system, clocks, callbacks of other modules, the answers
    of native pools) is an argument; where a theorem assumes something of it, the
    assumption is a hypothesis and an example in the file satisfies it.

    ** Not modelled

    - The thread-based schedulers and permits ([process_resources], [retry_scheduler],
      [memory_budget], [cleanup_dispatcher], finalizer and shutdown code): their parts
      that matter here enter as arguments.
    - The finalizer tickets of temporary-storage leases and the waiting of their pool.
    - The memory ledger of [core_impl/cross_process_memory.py], the janitor of temporary
      files, path identity, and most fork handlers of the modelled ledgers.
    - Remote providers, BigQuery and pyarrow adapters: clients of services and
      of third-party packages.
    - Parsers, inference, materialization and the ABI glue of the C++ engine, but
      for the functions named above.
    - Asynchronous exceptions inside the fork dispatcher and inside the stream
      readers; text outside the code points 0 to 255. *)

From stdpp Require Export base list list_numbers gmap strings numbers sorting.
From Stdlib Require Export ZArith Lia.

#[global] Set Default Goal Selector "!".

#[export] Set Warnings "-clear-no-such-hyp".

Declare Scope py_scope.
Delimit Scope py_scope with py.

(** Lemmas that close the routine side conditions of the components. *)
Create HintDb sanitizer discriminated.

(** ** Exceptions and results *)

(** The exception classes the modelled code raises.  [AsyncInterrupt] stands for
    a [BaseException] delivered asynchronously between two bytecodes (a signal,
    [KeyboardInterrupt], an injected [MemoryError]). *)
Inductive exn : Type :=
| AsyncInterrupt
| TypeError
| ValueError
| RuntimeError
| AssertionError
| OSError
| TimeoutError
| OverflowError
| IndexError
| KeyError
| ResourceError (limit_name : string) (limit_bytes actual_bytes : Z).

#[export] Instance exn_eq_dec : EqDecision exn.
Proof. solve_decision. Defined.

Inductive result (A : Type) : Type :=
| Ok (a : A)
| Err (e : exn).
Arguments Ok {A} a.
Arguments Err {A} e.

#[export] Instance result_eq_dec `{EqDecision A} : EqDecision (result A).
Proof. solve_decision. Defined.

#[export] Instance result_ret : MRet result := fun A a => Ok a.
#[export] Instance result_bind : MBind result := fun A B f r =>
  match r with Ok a => f a | Err e => Err e end.

Definition is_ok {A} (r : result A) : bool :=
  match r with Ok _ => true | Err _ => false end.

Lemma is_ok_true {A} (r : result A) : is_ok r = true -> exists a, r = Ok a.
Proof. destruct r; [eauto|done]. Qed.

(** ** Python statements as a state monad with asynchronous interruption

    A computation runs on a state [S] and on a schedule of asynchronous
    exceptions.  The head of the schedule counts the interruption points that
    still pass before the next exception is delivered; the empty schedule is an
    uninterrupted run.  Every attribute store is preceded by one point, so an
    exception can land between any two stores, and [tick] adds a point where
    the source can be interrupted without storing (before a [return]). *)
Definition sched : Type := list nat.

Definition M (S A : Type) : Type := sched -> S -> result A * sched * S.

Section Monad.
Context {S : Type}.

Definition ret {A} (a : A) : M S A := fun k s => (Ok a, k, s).

Definition bind {A B} (m : M S A) (f : A -> M S B) : M S B := fun k s =>
  match m k s with
  | (Ok a, k', s') => f a k' s'
  | (Err e, k', s') => (Err e, k', s')
  end.

Definition raise {A} (e : exn) : M S A := fun k s => (Err e, k, s).

(** One interruption point. *)
Definition tick : M S unit := fun k s =>
  match k with
  | [] => (Ok tt, [], s)
  | O :: k' => (Err AsyncInterrupt, k', s)
  | n :: k' => (Ok tt, Nat.pred n :: k', s)
  end.

Definition reads {A} (f : S -> A) : M S A := fun k s => (Ok (f s), k, s).

Definition modify (f : S -> S) : M S unit := fun k s => (Ok tt, k, f s).

(** An attribute store: a point, then the assignment. *)
Definition store (f : S -> S) : M S unit := bind tick (fun _ => modify f).

(** [try: m except BaseException as e: h e] *)
Definition try_except {A} (m : M S A) (h : exn -> M S A) : M S A := fun k s =>
  match m k s with
  | (Ok a, k', s') => (Ok a, k', s')
  | (Err e, k', s') => h e k' s'
  end.

(** [try: m except BaseException: pass] *)
Definition suppress (m : M S unit) : M S unit := try_except m (fun _ => ret tt).

(** [try: m finally: exit], and a [with] statement: [exit] runs on both paths. *)
Definition with_exit {A} (m : M S A) (exit : M S unit) : M S A :=
  bind (try_except m (fun e => bind exit (fun _ => raise e))) (fun v => bind exit (fun _ => ret v)).

Definition liftR {A} (r : result A) : M S A := fun k s => (r, k, s).

Definition whenM (b : bool) (m : M S unit) : M S unit := if b then m else ret tt.

(** Uninterrupted execution. *)
Definition run {A} (m : M S A) (s : S) : result A * S :=
  match m [] s with (r, _, s') => (r, s') end.
End Monad.

(** Run a computation of a component on its part of a larger state. *)
Definition zoom {S T A} (get : S -> T) (put : T -> S -> S) (m : M T A) : M S A :=
  fun k s => match m k (get s) with (r, k', t) => (r, k', put t s) end.

(** A block with local variables [l]: the block sees the pair of the state and
    its locals, and the locals are dropped when it ends. *)
Definition with_local {S L A} (l : L) (m : M (S * L) A) : M S A := fun k s =>
  match m k (s, l) with (r, k', (s', _)) => (r, k', s') end.

Definition onS {S L A} (m : M S A) : M (S * L) A := zoom fst (fun s p => (s, snd p)) m.

#[export] Instance M_ret S : MRet (M S) := fun A => ret.
#[export] Instance M_bind S : MBind (M S) := fun A B f m => bind m f.

(** ** A weakest precondition with an interruption budget

    [wp n m Q s] says that [m], started in [s] under any schedule of at most
    [n] asynchronous exceptions, ends with a result and a state that satisfy
    [Q], which also sees the budget that is left.  [wp 0] is the specification
    of an uninterrupted run; a statement for every [n] covers interruption at
    any points, any number of times. *)
Definition wp {S A} (n : nat) (m : M S A) (Q : result A -> nat -> S -> Prop) (s : S) : Prop :=
  forall k, length k <= n ->
    match m k s with
    | (r, k', s') => exists n', length k' <= n' /\ n' <= n /\ Q r n' s'
    end.

Section WpRules.
Context {S : Type}.

Lemma wp_ret {A} n (a : A) (Q : result A -> nat -> S -> Prop) s :
  Q (Ok a) n s -> wp n (ret a) Q s.
Proof. intros H k Hk. exists n. auto. Qed.

Lemma wp_liftR {A} n (r : result A) (Q : result A -> nat -> S -> Prop) s :
  Q r n s -> wp n (liftR r) Q s.
Proof. intros H k Hk. exists n. auto. Qed.

Lemma wp_raise {A} n e (Q : result A -> nat -> S -> Prop) s :
  Q (Err e) n s -> wp n (raise e) Q s.
Proof. intros H k Hk. exists n. auto. Qed.

Lemma wp_reads {A} n (f : S -> A) (Q : result A -> nat -> S -> Prop) s :
  Q (Ok (f s)) n s -> wp n (reads f) Q s.
Proof. intros H k Hk. exists n. auto. Qed.

Lemma wp_modify n (f : S -> S) (Q : result unit -> nat -> S -> Prop) s :
  Q (Ok tt) n (f s) -> wp n (modify f) Q s.
Proof. intros H k Hk. exists n. auto. Qed.

Lemma wp_tick n (Q : result unit -> nat -> S -> Prop) s :
  Q (Ok tt) n s ->
  (forall n', n = Datatypes.S n' -> Q (Err AsyncInterrupt) n' s) ->
  wp n tick Q s.
Proof.
  intros Hok Herr [|[|i] k] Hk; simpl in *; [exists n; auto| |exists n; auto].
  destruct n as [|n]; [lia|]. exists n. split_and!; [lia|lia|auto].
Qed.

Lemma wp_bind {A B} n (m : M S A) (f : A -> M S B) (Q : result B -> nat -> S -> Prop) s :
  wp n m (fun r n' s' => match r with
                        | Ok a => wp n' (f a) Q s'
                        | Err e => Q (Err e) n' s'
                        end) s ->
  wp n (bind m f) Q s.
Proof.
  intros H k Hk. specialize (H k Hk). unfold bind.
  destruct (m k s) as [[[a|e] k'] s'], H as (n' & ? & ? & H); [|eauto].
  specialize (H k' ltac:(lia)). destruct (f a k' s') as [[r k''] s''].
  destruct H as (n'' & ? & ? & ?). exists n''. split_and!; auto; lia.
Qed.

Lemma wp_try {A} n (m : M S A) (h : exn -> M S A) (Q : result A -> nat -> S -> Prop) s :
  wp n m (fun r n' s' => match r with
                        | Ok a => Q (Ok a) n' s'
                        | Err e => wp n' (h e) Q s'
                        end) s ->
  wp n (try_except m h) Q s.
Proof.
  intros H k Hk. specialize (H k Hk). unfold try_except.
  destruct (m k s) as [[[a|e] k'] s'], H as (n' & ? & ? & H); [eauto|].
  specialize (H k' ltac:(lia)). destruct (h e k' s') as [[r k''] s''].
  destruct H as (n'' & ? & ? & ?). exists n''. split_and!; auto; lia.
Qed.

Lemma wp_mono {A} n (m : M S A) (P Q : result A -> nat -> S -> Prop) s :
  wp n m P s -> (forall r n' s', n' <= n -> P r n' s' -> Q r n' s') -> wp n m Q s.
Proof.
  intros H HPQ k Hk. specialize (H k Hk). destruct (m k s) as [[r k'] s'].
  destruct H as (n' & ? & ? & ?). eauto 6.
Qed.

(** Without a budget none is left. *)
Lemma wp0_mono {A} (m : M S A) (P : result A -> S -> Prop) (Q : result A -> nat -> S -> Prop) s :
  wp 0 m (fun r _ s' => P r s') s -> (forall r s', P r s' -> Q r 0 s') -> wp 0 m Q s.
Proof.
  intros H HPQ. eapply wp_mono; [exact H|]. intros r n' s' Hn HP.
  assert (n' = 0) as -> by lia. by apply HPQ.
Qed.

Lemma wp_store n (f : S -> S) (Q : result unit -> nat -> S -> Prop) s :
  Q (Ok tt) n (f s) ->
  (forall n', n = Datatypes.S n' -> Q (Err AsyncInterrupt) n' s) ->
  wp n (store f) Q s.
Proof. intros. apply wp_bind, wp_tick; [apply wp_modify|]; auto. Qed.

Lemma wp_suppress n (m : M S unit) (Q : result unit -> nat -> S -> Prop) s :
  wp n m (fun _ n' s' => Q (Ok tt) n' s') s -> wp n (suppress m) Q s.
Proof.
  intros H. apply wp_try. eapply wp_mono; [exact H|].
  intros [[]|e] n' s' _ HQ; [exact HQ|]. by apply wp_ret.
Qed.

Lemma wp_whenM n (b : bool) m (Q : result unit -> nat -> S -> Prop) s :
  (b = true -> wp n m Q s) -> (b = false -> Q (Ok tt) n s) -> wp n (whenM b m) Q s.
Proof. destruct b; intros H1 H2; simpl; [auto|apply wp_ret; auto]. Qed.

Lemma wp_zoom {T A} n (get : S -> T) put (m : M T A) (Q : result A -> nat -> S -> Prop) s :
  wp n m (fun r n' t => Q r n' (put t s)) (get s) -> wp n (zoom get put m) Q s.
Proof.
  intros H k Hk. specialize (H k Hk). unfold zoom. by destruct (m k (get s)) as [[r k'] t].
Qed.

Lemma wp_with_local {L A} n (l : L) (m : M (S * L) A) (Q : result A -> nat -> S -> Prop) s :
  wp n m (fun r n' p => Q r n' p.1) (s, l) -> wp n (with_local l m) Q s.
Proof.
  intros H k Hk. specialize (H k Hk). unfold with_local.
  by destruct (m k (s, l)) as [[r k'] [s' l']].
Qed.

Lemma wp_onS {L A} n (m : M S A) (Q : result A -> nat -> S * L -> Prop) s l :
  wp n m (fun r n' s' => Q r n' (s', l)) s -> wp n (onS m) Q (s, l).
Proof.
  intros H k Hk. specialize (H k Hk). unfold onS, zoom. simpl.
  by destruct (m k s) as [[r k'] s'].
Qed.

(** What a [wp] says of one run. *)
Lemma wp_elim {A} n (m : M S A) Q s k r k' s' :
  wp n m Q s -> (length k <= n) -> m k s = (r, k', s') ->
  exists n', (length k' <= n' <= n) /\ Q r n' s'.
Proof. intros H Hk E. specialize (H k Hk). rewrite E in H. destruct H as (n' & ? & ? & ?). eauto. Qed.

(** What a [wp] without budget says of the uninterrupted run. *)
Lemma wp_run {A} (m : M S A) (Q : result A -> S -> Prop) s :
  wp 0 m (fun r _ s' => Q r s') s -> Q (fst (run m s)) (snd (run m s)).
Proof.
  intros H. specialize (H [] (Nat.le_0_l 0)). unfold run.
  destruct (m [] s) as [[r k'] s']. by destruct H as (n' & _ & _ & ?).
Qed.

Lemma run_eq {A} (m : M S A) s r s' :
  wp 0 m (fun r' _ s'' => r' = r /\ s'' = s') s -> run m s = (r, s').
Proof.
  intros H. specialize (H [] (Nat.le_0_l 0)). unfold run. destruct (m [] s) as [[r' k'] s''].
  by destruct H as (n' & _ & _ & -> & ->).
Qed.

(** What a [wp] for every budget says of any interrupted run. *)
Lemma wp_any {A} (m : M S A) (Q : result A -> S -> Prop) s k :
  (forall n, wp n m (fun r _ s' => Q r s') s) -> Q (fst (fst (m k s))) (snd (m k s)).
Proof.
  intros H. specialize (H (length k) k (Nat.le_refl _)).
  destruct (m k s) as [[r k'] s']. by destruct H as (n' & _ & _ & ?).
Qed.
End WpRules.

(** One step of symbolic execution under [wp]. *)
Ltac wp_step :=
  lazymatch goal with
  | |- wp _ (mbind _ _) _ _ => apply wp_bind
  | |- wp _ (bind _ _) _ _ => apply wp_bind
  | |- wp _ (mret _) _ _ => apply wp_ret
  | |- wp _ (ret _) _ _ => apply wp_ret
  | |- wp _ (raise _) _ _ => apply wp_raise
  | |- wp _ (liftR _) _ _ => apply wp_liftR
  | |- wp _ (reads _) _ _ => apply wp_reads
  | |- wp _ (modify _) _ _ => apply wp_modify
  | |- wp _ tick _ _ => apply wp_tick; [|first [discriminate | intros ? -> | intros ? [= <-]]]
  | |- wp _ (store _) _ _ => apply wp_store; [|first [discriminate | intros ? -> | intros ? [= <-]]]
  | |- wp _ (try_except _ _) _ _ => apply wp_try
  | |- wp _ (suppress _) _ _ => apply wp_suppress
  | |- wp _ (with_local _ _) _ _ => apply wp_with_local
  | |- wp _ (onS _) _ _ => apply wp_onS
  | |- wp _ (whenM _ _) _ _ => apply wp_whenM; intros ?
  end; cbv beta iota.

Ltac wp_steps := repeat wp_step.

(** A run without budget cannot be interrupted. *)
Ltac no_budget :=
  match goal with H : 0 = Datatypes.S _ |- _ => discriminate H end.

(** ** Any schedule

    [always m Q s]: whatever the schedule, [m] started in [s] ends with a result and
    a state that satisfy [Q].  Unlike [wp] it asks nothing of the schedule that is
    left, so that it also covers calls of which nothing is known. *)
Definition always {S A} (m : M S A) (Q : result A -> S -> Prop) (s : S) : Prop :=
  forall k, match m k s with (r, _, s') => Q r s' end.

Section AlwaysRules.
Context {S : Type}.

Lemma al_mono {A} (m : M S A) (P Q : result A -> S -> Prop) s : always m P s -> (forall r s', P r s' -> Q r s') -> always m Q s.
Proof. intros H HPQ k. specialize (H k). destruct (m k s) as [[r k'] s']. auto. Qed.

Lemma al_liftR {A} (r : result A) (Q : result A -> S -> Prop) s : Q r s -> always (liftR r) Q s.
Proof. by intros H k. Qed.

Lemma al_reads {A} (f : S -> A) (Q : result A -> S -> Prop) s : Q (Ok (f s)) s -> always (reads f) Q s.
Proof. by intros H k. Qed.

Lemma al_modify (f : S -> S) (Q : result unit -> S -> Prop) s : Q (Ok tt) (f s) -> always (modify f) Q s.
Proof. by intros H k. Qed.

Lemma al_tick (Q : result unit -> S -> Prop) s : Q (Ok tt) s -> Q (Err AsyncInterrupt) s -> always tick Q s.
Proof. intros H1 H2 [|[|n] k]; done. Qed.

Lemma al_bind {A B} (m : M S A) (f : A -> M S B) (Q : result B -> S -> Prop) s :
  always m (fun r s' => match r with Ok a => always (f a) Q s' | Err e => Q (Err e) s' end) s -> always (bind m f) Q s.
Proof. intros H k. specialize (H k). unfold bind. destruct (m k s) as [[[a|e] k'] s']; [apply H|done]. Qed.

Lemma al_store (f : S -> S) (Q : result unit -> S -> Prop) s : Q (Ok tt) (f s) -> Q (Err AsyncInterrupt) s -> always (store f) Q s.
Proof. intros H1 H2. apply al_bind, al_tick; [by apply al_modify|done]. Qed.

Lemma al_try {A} (m : M S A) (h : exn -> M S A) (Q : result A -> S -> Prop) s :
  always m (fun r s' => match r with Ok a => Q (Ok a) s' | Err e => always (h e) Q s' end) s -> always (try_except m h) Q s.
Proof. intros H k. specialize (H k). unfold try_except. destruct (m k s) as [[[a|e] k'] s']; [done|apply H]. Qed.

Lemma al_with_exit {A} (m : M S A) (exit : M S unit) (Q : result A -> S -> Prop) s :
  always m (fun r s' => always exit (fun r' s'' => match r' with Ok _ => Q r s'' | Err e => Q (Err e) s'' end) s') s -> always (with_exit m exit) Q s.
Proof.
  intros H. apply al_bind, al_try. eapply al_mono; [exact H|]. intros [a|e] s' Hx; apply al_bind; (eapply al_mono; [exact Hx|]); intros [[]|e'] s'' H'; first [exact H'|intros k; exact H'].
Qed.

Lemma al_whenM (b : bool) m (Q : result unit -> S -> Prop) s : (b = true -> always m Q s) -> (b = false -> Q (Ok tt) s) -> always (whenM b m) Q s.
Proof. intros H1 H2. destruct b; [by apply H1|]. intros k. by apply H2. Qed.

Lemma al_zoom {T A} (get : S -> T) put (m : M T A) (Q : result A -> S -> Prop) s : always m (fun r t => Q r (put t s)) (get s) -> always (zoom get put m) Q s.
Proof. intros H k. specialize (H k). unfold zoom. by destruct (m k (get s)) as [[r k'] t]. Qed.

Lemma al_with_local {L A} (l : L) (m : M (S * L) A) (Q : result A -> S -> Prop) s : always m (fun r p => Q r (fst p)) (s, l) -> always (with_local l m) Q s.
Proof. intros H k. specialize (H k). unfold with_local. by destruct (m k (s, l)) as [[r k'] [s' l']]. Qed.

Lemma al_onS {L A} (m : M S A) (Q : result A -> S * L -> Prop) s l : always m (fun r s' => Q r (s', l)) s -> always (onS m) Q (s, l).
Proof. intros H k. specialize (H k). unfold onS, zoom. cbn [fst snd]. by destruct (m k s) as [[r k'] s']. Qed.

(** Nothing is known of the call. *)
Lemma al_any {A} (m : M S A) (Q : result A -> S -> Prop) s : (forall r s', Q r s') -> always m Q s.
Proof. intros H k. destruct (m k s) as [[r k'] s']. apply H. Qed.
End AlwaysRules.

Ltac al_step :=
  lazymatch goal with
  | |- always (mbind _ _) _ _ => apply al_bind
  | |- always (bind _ _) _ _ => apply al_bind
  | |- always (mret _) _ _ => apply al_liftR
  | |- always (ret _) _ _ => apply (al_liftR (Ok _))
  | |- always (raise _) _ _ => apply (al_liftR (Err _))
  | |- always (liftR _) _ _ => apply al_liftR
  | |- always (reads _) _ _ => apply al_reads
  | |- always (modify _) _ _ => apply al_modify
  | |- always tick _ _ => apply al_tick
  | |- always (store _) _ _ => apply al_store
  | |- always (try_except _ _) _ _ => apply al_try
  | |- always (with_exit _ _) _ _ => apply al_with_exit
  | |- always (with_local _ _) _ _ => apply al_with_local
  | |- always (onS _) _ (_, _) => apply al_onS
  | |- always (zoom _ _ _) _ _ => apply al_zoom
  | |- always (whenM _ _) _ _ => apply al_whenM; intros ?
  end; cbv beta iota.

(** ** Computations with no interruption *)

(** Nothing is claimed of the result, only that no schedule is made up. *)
Definition uncut {S A} (m : M S A) : Prop := forall s, wp 0 m (fun _ _ _ => True) s.

Lemma uncut_wp {S A} (m : M S A) (Q : result A -> nat -> S -> Prop) s : uncut m -> (forall r s', Q r 0%nat s') -> wp 0 m Q s.
Proof. intros Hm HQ. eapply wp0_mono; [apply Hm|]. intros r s' _. apply HQ. Qed.

Lemma uncut_bind {S A B} (m : M S A) (f : A -> M S B) : uncut m -> (forall x, uncut (f x)) -> uncut (x ← m; f x).
Proof. intros Hm Hf s. wp_step. apply uncut_wp; [done|]. intros [x|err] s'; [apply Hf|done]. Qed.

Lemma uncut_try {S A} (m : M S A) f : uncut m -> (forall x, uncut (f x)) -> uncut (try_except m f).
Proof. intros Hm Hf s. wp_step. apply uncut_wp; [done|]. intros [x|err] s'; [done|apply Hf]. Qed.

Lemma uncut_when {S} b (m : M S unit) : uncut m -> uncut (whenM b m).
Proof. intros Hm s. destruct b; cbn [whenM]; [apply Hm|]. by wp_step. Qed.

Lemma uncut_store {S} (f : S -> S) : uncut (store f).
Proof. intros s. by apply wp_store; [|lia]. Qed.

Lemma uncut_modify {S} (f : S -> S) : uncut (modify f).
Proof. intros s. by wp_step. Qed.

Lemma uncut_reads {S A} (f : S -> A) : uncut (reads f).
Proof. intros s. by wp_step. Qed.

Lemma uncut_lift {S A} (r : result A) : uncut (liftR (S := S) r).
Proof. intros s. by wp_step. Qed.

Lemma uncut_ret {S A} (x : A) : uncut (ret (S := S) x).
Proof. intros s. by wp_step. Qed.

Lemma uncut_raise {S A} err : uncut (@raise S A err).
Proof. intros s. by wp_step. Qed.

Ltac stay_uncut := repeat first [simple apply uncut_store|apply uncut_bind; [|intros ?]|apply uncut_try; [|intros ?]|apply uncut_when|apply uncut_modify|apply uncut_reads|apply uncut_lift|apply uncut_ret|apply uncut_raise
  |match goal with |- uncut (match ?x with _ => _ end) => destruct x end|progress cbv zeta].

(** ** Shared lemmas on lists *)

Lemma filter_ext_elem {A} (P Q : A -> Prop) `{!forall x, Decision (P x)} `{!forall x, Decision (Q x)} (l : list A) :
  (forall x, x ∈ l -> P x <-> Q x) -> filter P l = filter Q l.
Proof.
  induction l as [|x l IH]; intros Hext; [done|].
  assert (filter P l = filter Q l) as E by (apply IH; intros; apply Hext; by right).
  specialize (Hext x ltac:(left)). destruct (decide (P x)) as [HP|HP].
  - rewrite !filter_cons_True by tauto. by rewrite E.
  - rewrite !filter_cons_False by tauto. done.
Qed.

Lemma elem_of_concat_fmap {A B} (f : A -> list B) (l : list A) x :
  x ∈ concat (f <$> l) <-> exists a, a ∈ l /\ x ∈ f a.
Proof.
  rewrite list_elem_of_In, in_concat. split.
  - intros (k & Hk & Hx). apply list_elem_of_In, list_elem_of_fmap in Hk as (a & -> & Ha).
    exists a. by split; [|apply list_elem_of_In].
  - intros (a & Ha & Hx). exists (f a). rewrite <-!list_elem_of_In. split; [by apply list_elem_of_fmap_2|done].
Qed.

Lemma filter_none {A} (P : A -> Prop) `{!forall x, Decision (P x)} (l : list A) :
  (forall x, x ∈ l -> ~ P x) -> filter P l = [].
Proof.
  induction l as [|x l IH]; intros Hno; [done|].
  rewrite filter_cons_False by (apply Hno; left). apply IH. intros y Hy. apply Hno. by right.
Qed.

Lemma filter_all {A} (P : A -> Prop) `{!forall x, Decision (P x)} (l : list A) :
  (forall x, x ∈ l -> P x) -> filter P l = l.
Proof.
  induction l as [|x l IH]; intros Hall; [done|].
  rewrite filter_cons_True by (apply Hall; left). f_equal. apply IH. intros y Hy. apply Hall. by right.
Qed.

(** ** Shared lemmas on index sets and rings *)

(** Slots of [0..n-1] that satisfy a predicate; counters and free rings are
    specified with it. *)
Definition slots (P : nat -> Prop) `{forall i, Decision (P i)} (n : nat) : list nat :=
  filter P (seq 0 n).

Section Slots.
Context (P P' : nat -> Prop) `{!forall i, Decision (P i)} `{!forall i, Decision (P' i)}.

Lemma elem_of_slots n i : i ∈ slots P n <-> P i /\ i < n.
Proof. unfold slots. rewrite list_elem_of_filter, elem_of_seq. split; intros; destruct_and?; split_and?; auto; lia. Qed.

Lemma length_slots_le n : length (slots P n) <= n.
Proof. unfold slots. etrans; [apply length_filter|]. by rewrite length_seq. Qed.

Lemma NoDup_slots n : NoDup (slots P n).
Proof. apply NoDup_filter, NoDup_seq. Qed.

Lemma slots_S n : slots P (S n) = slots P n ++ (if decide (P n) then [n] else []).
Proof.
  unfold slots. by rewrite seq_S, filter_app.
Qed.
End Slots.

Lemma slots_ext P P' `{!forall i, Decision (P i)} `{!forall i, Decision (P' i)} n :
  (forall i, i < n -> P i <-> P' i) -> slots P n = slots P' n.
Proof.
  induction n as [|n IH]; intros Hext; [done|].
  rewrite !slots_S, IH by (intros; apply Hext; lia).
  f_equal. specialize (Hext n ltac:(lia)). repeat case_decide; tauto.
Qed.

Lemma slots_add P P' `{!forall i, Decision (P i)} `{!forall i, Decision (P' i)} n i :
  i < n -> P' i -> ~ P i -> (forall j, j < n -> j <> i -> P j <-> P' j) ->
  slots P' n ≡ₚ i :: slots P n.
Proof.
  intros Hi HP' HP Hext. apply NoDup_Permutation.
  - apply NoDup_slots.
  - constructor; [rewrite elem_of_slots; tauto|apply NoDup_slots].
  - intros j. rewrite elem_of_cons, !elem_of_slots.
    destruct (decide (j = i)) as [->|Hj]; [tauto|].
    split.
    + intros [? ?]. right. split; [apply Hext|]; auto.
    + intros [?|[? ?]]; [done|]. split; [apply Hext|]; auto.
Qed.

Lemma length_slots_add P P' `{!forall i, Decision (P i)} `{!forall i, Decision (P' i)} n i :
  i < n -> P' i -> ~ P i -> (forall j, j < n -> j <> i -> P j <-> P' j) ->
  length (slots P' n) = S (length (slots P n)).
Proof. intros. change (S (length (slots P n))) with (length (i :: slots P n)). by apply Permutation_length, slots_add. Qed.

Lemma slots_nil P `{!forall i, Decision (P i)} n :
  slots P n = [] <-> forall i, i < n -> ~ P i.
Proof.
  split.
  - intros Hnil i Hi HP. assert (i ∈ slots P n) as Hin by (apply elem_of_slots; auto).
    rewrite Hnil in Hin. by apply elem_of_nil in Hin.
  - intros Hno. apply elem_of_nil_inv. intros i [? ?]%elem_of_slots. by apply (Hno i).
Qed.

Lemma slots_all P `{!forall i, Decision (P i)} n :
  (forall i, i < n -> P i) -> slots P n = seq 0 n.
Proof.
  induction n as [|n IH]; intros Hall; [done|].
  rewrite slots_S, seq_S, IH by auto. by rewrite decide_True by auto.
Qed.

(** A circular buffer stored in a list of [cap] cells: the [count] entries that
    start at [head]. *)
Definition ring_next (cap i : nat) : nat := if S i =? cap then 0 else S i.

Definition ring_view {A} `{Inhabited A} (ring : list A) (cap head count : nat) : list A :=
  (fun j => ring !!! ((head + j) mod cap)) <$> seq 0 count.

Section Ring.
Context {A : Type} `{Inhabited A}.
Implicit Types ring : list A.

Lemma ring_next_mod cap i : i < cap -> ring_next cap i = (i + 1) mod cap.
Proof.
  intros Hi. unfold ring_next. destruct (Nat.eqb_spec (S i) cap) as [E|E].
  - rewrite <- E. replace (i + 1) with (S i) by lia. by rewrite Nat.Div0.mod_same.
  - rewrite Nat.mod_small; lia.
Qed.

Lemma ring_next_lt cap i : i < cap -> ring_next cap i < cap.
Proof. intros Hi. unfold ring_next. destruct (Nat.eqb_spec (S i) cap); lia. Qed.

Lemma length_ring_view ring cap head count : length (ring_view ring cap head count) = count.
Proof. unfold ring_view. by rewrite length_fmap, length_seq. Qed.

Lemma ring_view_pop ring cap head count :
  head < cap -> 0 < count ->
  ring_view ring cap head count
  = ring !!! head :: ring_view ring cap (ring_next cap head) (Nat.pred count).
Proof.
  intros Hh Hc. destruct count as [|count]; [lia|]. unfold ring_view. simpl. f_equal.
  - by rewrite Nat.add_0_r, Nat.mod_small by lia.
  - rewrite ring_next_mod by done. rewrite <- fmap_S_seq, <- list_fmap_compose.
    apply list_fmap_ext. intros i j _. simpl. f_equal.
    rewrite Nat.Div0.add_mod_idemp_l. f_equal. lia.
Qed.

Lemma ring_index_neq cap head i j :
  head < cap -> i < cap -> j < cap -> i <> j -> (head + i) mod cap <> (head + j) mod cap.
Proof.
  intros Hh Hi Hj Hne E.
  assert (forall x, x < cap -> (head + x) mod cap = head + x \/ (head + x) mod cap = head + x - cap
          /\ cap <= head + x) as Hm.
  { intros x Hx. destruct (decide (head + x < cap)) as [?|?].
    - left. by apply Nat.mod_small.
    - right. split; [|lia]. symmetry. apply (Nat.mod_unique _ _ 1); lia. }
  destruct (Hm i Hi) as [?|[? ?]], (Hm j Hj) as [?|[? ?]]; lia.
Qed.

Lemma ring_view_push ring cap head count x :
  length ring = cap -> head < cap -> count < cap ->
  ring_view (<[(head + count) mod cap := x]> ring) cap head (S count)
  = ring_view ring cap head count ++ [x].
Proof.
  intros Hl Hh Hc. unfold ring_view. rewrite seq_S, fmap_app. simpl. f_equal.
  - apply list_fmap_ext. intros i j Hij.
    apply lookup_seq in Hij as [-> Hij].
    apply list_lookup_total_insert_ne. apply ring_index_neq; lia.
  - f_equal. apply list_lookup_total_insert_eq. rewrite Hl. apply Nat.mod_upper_bound. lia.
Qed.
End Ring.
