(* ===== verification/PyLib.v ===== *)
(** * PyLib: the parts of Python's standard library the planning code uses

    [Text] models [str] restricted to the code points 0 to 255 (one [ascii] per
    code point): the methods the planners call ([strip], [lstrip], [rstrip],
    [split], [lower], [startswith], [replace], [in]), [re.sub] and [re.search]
    for the patterns they compile, and the [format] specifications [02d] and
    [04d].  On these code points the decimal digits of [\d] are exactly 0-9.

    [Calendar] models [datetime.date] as its three fields with the arithmetic of
    one-day steps, the comparison and ISO text, and [datetime.datetime] as a
    date, the microseconds of the day and a UTC offset. *)

From Stdlib Require Import Ascii String.
From S2P Require Import Prelude.

#[local] Open Scope Z_scope.

Definition text : Type := list ascii.

Definition lit (s : string) : text := String.list_ascii_of_string s.

Definition code (c : ascii) : Z := Z.of_N (N_of_ascii c).

Module Text.

Definition is_digit (c : ascii) : bool := (48 <=? code c) && (code c <=? 57).

(** [str.isspace] on one code point below 256. *)
Definition is_space (c : ascii) : bool :=
  ((9 <=? code c) && (code c <=? 13)) || ((28 <=? code c) && (code c <=? 32))
  || (code c =? 133) || (code c =? 160).

Definition lower_char (c : ascii) : ascii :=
  if ((65 <=? code c) && (code c <=? 90))
     || ((192 <=? code c) && (code c <=? 222) && negb (code c =? 215))
  then ascii_of_N (Z.to_N (code c + 32)) else c.

Definition lower (s : text) : text := lower_char <$> s.

Fixpoint drop_while (p : ascii -> bool) (s : text) : text :=
  match s with
  | c :: s' => if p c then drop_while p s' else s
  | [] => []
  end.

Definition lstrip_chars (p : ascii -> bool) (s : text) : text := drop_while p s.
Definition rstrip_chars (p : ascii -> bool) (s : text) : text := rev (drop_while p (rev s)).

(** [s.strip()]. *)
Definition strip (s : text) : text := rstrip_chars is_space (lstrip_chars is_space s).

Definition is_char (c d : ascii) : bool := bool_decide (c = d).

Fixpoint startswith (p s : text) : bool :=
  match p, s with
  | [], _ => true
  | c :: p', d :: s' => is_char c d && startswith p' s'
  | _ :: _, [] => false
  end.

(** [p in s]. *)
Fixpoint contains (p s : text) : bool :=
  startswith p s || match s with [] => false | _ :: s' => contains p s' end.

(** [s.split(c, 1)] for a one-character separator: the text before the first
    occurrence and the text after it, when there is one. *)
Fixpoint split_once (sep : ascii) (s : text) : option (text * text) :=
  match s with
  | [] => None
  | c :: s' =>
    if is_char sep c then Some ([], s')
    else match split_once sep s' with Some (a, b) => Some (c :: a, b) | None => None end
  end.

(** The text after the first occurrence of a longer separator,
    [s.split(sep, 1)[1]]. *)
Fixpoint after (sep s : text) : option text :=
  if startswith sep s then Some (drop (length sep) s)
  else match s with [] => None | _ :: s' => after sep s' end.

(** [s.split(c)]. *)
Fixpoint split (sep : ascii) (s : text) : list text :=
  match s with
  | [] => [[]]
  | c :: s' =>
    if is_char sep c then [] :: split sep s'
    else match split sep s' with w :: ws => (c :: w) :: ws | [] => [[c]] end
  end.

(** Lexicographic order on code points, [s <= t]. *)
Fixpoint leb (s t : text) : bool :=
  match s, t with
  | [], _ => true
  | _ :: _, [] => false
  | c :: s', d :: t' => (code c <? code d) || ((code c =? code d) && leb s' t')
  end.

(** ** Fixed-length patterns

    The patterns the code substitutes are sequences of literal characters and
    [\d]; [str.replace] with a nonempty argument is the case without [\d]. *)
Inductive atom : Type :=
| Char (c : ascii)
| Digit.

Definition atom_ok (a : atom) (c : ascii) : bool :=
  match a with Char d => is_char d c | Digit => is_digit c end.

Fixpoint match_at (pat : list atom) (s : text) : bool :=
  match pat, s with
  | [], _ => true
  | a :: pat', c :: s' => atom_ok a c && match_at pat' s'
  | _ :: _, [] => false
  end.

(** Left-to-right substitution of the non-overlapping matches of a nonempty
    pattern; [skip] counts the characters of the last match still to pass. *)
Fixpoint sub_from (pat : list atom) (new : text) (skip : nat) (s : text) : text :=
  match s with
  | [] => []
  | c :: s' =>
    match skip with
    | S k => sub_from pat new k s'
    | O =>
      if match_at pat s then new ++ sub_from pat new (length pat - 1) s'
      else c :: sub_from pat new 0 s'
    end
  end.

Definition re_sub (pat : list atom) (new s : text) : text := sub_from pat new 0 s.

Definition replace (old new s : text) : text := re_sub (Char <$> old) new s.

Definition digits (n : nat) : list atom := replicate n Digit.

(** What [$] accepts: the end, or a final newline. *)
Definition at_end (s : text) : bool :=
  match s with [] => true | [c] => code c =? 10 | _ => false end.

(** [key group(?:/|$)] at one position; the result is the text of the group. *)
Definition path_field_here (key : text) (group : list atom) (s : text) : option text :=
  let tail := drop (length key + length group) s in
  if match_at ((Char <$> key) ++ group) s
     && (match tail with c :: _ => is_char "/"%char c | [] => false end || at_end tail)
  then Some (take (length group) (drop (length key) s)) else None.

Definition after_slash (key : text) (group : list atom) (s : text) : option text :=
  match s with
  | c :: s' => if is_char "/"%char c then path_field_here key group s' else None
  | [] => None
  end.

Fixpoint path_field_from (key : text) (group : list atom) (s : text) : option text :=
  match after_slash key group s with
  | Some g => Some g
  | None => match s with [] => None | _ :: s' => path_field_from key group s' end
  end.

(** [re.search] for [(?:^|/)key(group)(?:/|$)]. *)
Definition search_path_field (key : text) (group : list atom) (s : text) : option text :=
  match path_field_here key group s with
  | Some g => Some g
  | None => path_field_from key group s
  end.

(** [re.search] for [(?<!\d)(group)(?!\d)]; [prev] says whether the character
    before the position is a digit. *)
Fixpoint search_isolated (group : list atom) (prev : bool) (s : text) : option text :=
  let tail := drop (length group) s in
  if negb prev && match_at group s
     && negb (match tail with c :: _ => is_digit c | [] => false end)
  then Some (take (length group) s)
  else match s with
       | [] => None
       | c :: s' => search_isolated group (is_digit c) s'
       end.

(** ** Decimal numbers *)

Definition digit_char (z : Z) : ascii := ascii_of_N (Z.to_N (48 + z)).

Fixpoint decimal_loop (fuel : nat) (z : Z) (acc : text) : text :=
  match fuel with
  | O => acc
  | S fuel' =>
    let acc' := digit_char (z mod 10) :: acc in
    if z / 10 =? 0 then acc' else decimal_loop fuel' (z / 10) acc'
  end.

(** The decimal digits of a nonnegative integer; the number of binary digits
    bounds the number of decimal ones. *)
Definition decimal (z : Z) : text := decimal_loop (S (Z.to_nat (Z.log2 z))) z [].

Definition zfill (w : nat) (s : text) : text := replicate (w - length s) "0"%char ++ s.

(** [format(z, "0<w>d")]: zero padding comes after the sign. *)
Definition fmt_d (w : nat) (z : Z) : text :=
  if z <? 0 then "-"%char :: zfill (w - 1) (decimal (- z)) else zfill w (decimal z).

(** [int] of a text of decimal digits. *)
Definition int_of (s : text) : Z := foldl (fun acc c => 10 * acc + (code c - 48)) 0 s.

(** ** Substitution over concatenated segments *)

Lemma is_char_true c d : is_char c d = true <-> c = d.
Proof. unfold is_char. by rewrite bool_decide_eq_true. Qed.

Lemma is_char_false c d : is_char c d = false <-> c <> d.
Proof. unfold is_char. by rewrite bool_decide_eq_false. Qed.

Lemma sub_from_skip pat new k s : sub_from pat new k s = sub_from pat new 0 (drop k s).
Proof. revert k; induction s as [|c s IH]; intros [|k]; simpl; auto. Qed.

Lemma sub_no pat new c s : match_at pat (c :: s) = false ->
  sub_from pat new 0 (c :: s) = c :: sub_from pat new 0 s.
Proof. intros H. cbn [sub_from]. by rewrite H. Qed.

Lemma sub_yes pat new s : pat <> [] -> match_at pat s = true ->
  sub_from pat new 0 s = new ++ sub_from pat new 0 (drop (length pat) s).
Proof.
  intros Hp Hm. destruct pat as [|a pat]; [done|]. destruct s as [|c s]; [done|].
  cbn [sub_from]. rewrite Hm, sub_from_skip. simpl. by rewrite Nat.sub_0_r.
Qed.

(** The pattern matches somewhere in the text. *)
Fixpoint occurs (pat : list atom) (s : text) : bool :=
  match_at pat s || match s with [] => false | _ :: s' => occurs pat s' end.

Lemma match_at_length pat s : match_at pat s = true -> (length pat <= length s)%nat.
Proof.
  revert s; induction pat as [|a pat IH]; intros [|c s]; simpl; try (done || lia).
  intros [_ ?%IH]%andb_prop. lia.
Qed.

Lemma occurs_short pat s : (length s < length pat)%nat -> occurs pat s = false.
Proof.
  induction s as [|c s IH]; simpl; intros Hl.
  - destruct pat; simpl in *; [lia|done].
  - rewrite IH by lia. rewrite orb_false_r. apply not_true_iff_false. intros ?%match_at_length. simpl in *; lia.
Qed.

Lemma match_barrier pat x b rest : Forall (fun a => atom_ok a b = false) pat ->
  match_at pat (x ++ b :: rest) = match_at pat x.
Proof.
  intros Hb. revert x. induction Hb as [|a pat Ha Hb IH]; intros [|c x]; simpl; auto.
  - by rewrite Ha.
  - by rewrite IH.
Qed.

(** A segment without occurrence is passed over when a character that the
    pattern rejects follows it. *)
Lemma sub_skip_barrier pat new x b rest :
  occurs pat x = false -> Forall (fun a => atom_ok a b = false) pat ->
  sub_from pat new 0 (x ++ b :: rest) = x ++ sub_from pat new 0 (b :: rest).
Proof.
  intros Ho Hb. induction x as [|c x IH]; [done|].
  cbn [occurs] in Ho. apply orb_false_elim in Ho as [Hm Ho].
  rewrite <-!app_comm_cons, sub_no, IH; [done..|]. by rewrite app_comm_cons, match_barrier.
Qed.

Lemma sub_skip_end pat new x : occurs pat x = false -> sub_from pat new 0 x = x.
Proof.
  induction x as [|c x IH]; [done|]. cbn [occurs]. intros [Hm Ho]%orb_false_elim.
  rewrite sub_no, IH by done. done.
Qed.

Lemma sub_skip_head a pat new x rest : Forall (fun c => atom_ok a c = false) x ->
  sub_from (a :: pat) new 0 (x ++ rest) = x ++ sub_from (a :: pat) new 0 rest.
Proof.
  induction 1 as [|c x Hc Hx IH]; [done|].
  rewrite <-!app_comm_cons, sub_no, IH; [done|]. cbn [match_at]. by rewrite Hc.
Qed.

Lemma match_at_lookup pat s k a : match_at pat s = true -> pat !! k = Some a ->
  exists c, s !! k = Some c /\ atom_ok a c = true.
Proof.
  revert s k; induction pat as [|a' pat IH]; intros [|c s] [|k]; simpl; try done.
  - intros [Hc _]%andb_prop [= ->]. eauto.
  - intros [_ Hm]%andb_prop. by apply IH.
Qed.

(** A literal needed at offset [k] is absent from the segment and from the
    next [k] characters, so no match starts inside the segment. *)
Lemma no_match_key pat k e c x rest : pat !! k = Some (Char e) -> e ∉ c :: x -> e ∉ take k rest ->
  match_at pat (c :: x ++ rest) = false.
Proof.
  intros Hk Hx Hr. apply not_true_iff_false. intros Hm.
  destruct (match_at_lookup _ _ _ _ Hm Hk) as (d & Hd & He%is_char_true).
  subst d. rewrite app_comm_cons in Hd. apply lookup_app_Some in Hd as [Hd|[Hl Hd]].
  - by apply Hx, (list_elem_of_lookup_2 _ k).
  - apply Hr, list_elem_of_lookup. exists (k - length (c :: x))%nat.
    rewrite lookup_take_lt; [done|simpl in *; lia].
Qed.

Lemma sub_skip_key pat new k e x rest : pat !! k = Some (Char e) -> e ∉ x -> e ∉ take k rest ->
  sub_from pat new 0 (x ++ rest) = x ++ sub_from pat new 0 rest.
Proof.
  intros Hk Hx Hr. induction x as [|c x IH]; [done|]. pose proof Hx as [_ Hx']%not_elem_of_cons.
  rewrite <-!app_comm_cons, sub_no, IH; [done..|]. by eapply no_match_key.
Qed.

Lemma sub_skip_absent pat new k e x : pat !! k = Some (Char e) -> e ∉ x -> sub_from pat new 0 x = x.
Proof.
  intros Hk Hx. rewrite <-(app_nil_r x) at 1. erewrite sub_skip_key by (done || (rewrite take_nil; set_solver)).
  simpl. by rewrite app_nil_r.
Qed.

(** ** Literal patterns as instances of a shape *)

Lemma match_literal w s : match_at (Char <$> w) s = true -> take (length w) s = w.
Proof.
  revert s; induction w as [|c w IH]; intros [|d s]; simpl; try done.
  intros [->%is_char_true ?%IH]%andb_prop. by f_equal.
Qed.

Lemma match_literal_refl w s : match_at (Char <$> w) (w ++ s) = true.
Proof.
  induction w as [|c w IH]; [done|]. rewrite fmap_cons, <-app_comm_cons. cbn [match_at atom_ok].
  by rewrite IH, (proj2 (is_char_true c c)).
Qed.

Lemma match_prefix pat s : match_at pat (take (length pat) s) = match_at pat s.
Proof. revert s; induction pat as [|a pat IH]; intros [|c s]; simpl; auto. by rewrite IH. Qed.

Lemma match_instance pat w s : length w = length pat -> match_at pat w = true ->
  match_at (Char <$> w) s = true -> match_at pat s = true.
Proof. intros Hl Hw Hm. rewrite <-match_prefix, <-Hl. by rewrite (match_literal _ _ Hm). Qed.

Lemma occurs_instance pat w s : length w = length pat -> match_at pat w = true ->
  occurs pat s = false -> occurs (Char <$> w) s = false.
Proof.
  intros Hl Hw. assert (Hno : forall s, match_at pat s = false -> match_at (Char <$> w) s = false).
  { intros s' Hs'. apply not_true_iff_false. intros Hm. by rewrite (match_instance pat w s') in Hs'. }
  induction s as [|c s IH]; cbn [occurs]; intros [Hm Ho]%orb_false_elim; rewrite Hno by done; auto.
Qed.

Lemma match_app_inv p1 p2 s : match_at (p1 ++ p2) s = true -> match_at p1 s = true.
Proof.
  revert s; induction p1 as [|a p1 IH]; intros [|c s]; simpl; try done.
  intros [-> ?%IH]%andb_prop. done.
Qed.

Lemma occurs_app_false p1 p2 s : occurs p1 s = false -> occurs (p1 ++ p2) s = false.
Proof.
  induction s as [|c s IH]; cbn [occurs]; intros [Hm Ho]%orb_false_elim; apply orb_false_intro; auto;
    apply not_true_iff_false; intros ?%match_app_inv; congruence.
Qed.

(** The barrier for a literal pattern: the next character is not in it. *)
Lemma sub_skip_before w new x b rest : head rest = Some b -> b ∉ w -> occurs (Char <$> w) x = false ->
  sub_from (Char <$> w) new 0 (x ++ rest) = x ++ sub_from (Char <$> w) new 0 rest.
Proof.
  intros Hr Hb Ho. destruct rest as [|b' rest]; [done|]. injection Hr as ->.
  apply sub_skip_barrier; [done|]. apply Forall_fmap, Forall_forall.
  intros c Hc. apply is_char_false. by intros ->.
Qed.

(** A block of the pattern's length, followed by a rejected character, is
    replaced exactly when it is the pattern's text. *)
Lemma sub_block w new t b rest : length t = length w -> w <> [] ->
  head rest = Some b -> b ∉ w ->
  sub_from (Char <$> w) new 0 (t ++ rest)
  = (if decide (w = t) then new else t) ++ sub_from (Char <$> w) new 0 rest.
Proof.
  intros Hl Hw Hr Hb. destruct (decide (w = t)) as [->|Hne].
  - rewrite sub_yes; [|by destruct t|apply match_literal_refl]. by rewrite length_fmap, drop_app_length.
  - eapply sub_skip_before; [done..|]. destruct t as [|c t]; [by destruct w|].
    cbn [occurs]. rewrite occurs_short, orb_false_r by (rewrite length_fmap; simpl in *; lia).
    apply not_true_iff_false. intros Hm%match_literal. destruct Hne.
    rewrite <-Hm, <-Hl. by rewrite firstn_all.
Qed.

(** ** Searching a path field *)

Lemma path_field_here_match key group s :
  match_at ((Char <$> key) ++ group) s = false -> path_field_here key group s = None.
Proof. intros H. unfold path_field_here. by rewrite H. Qed.

Lemma after_slash_match key group s :
  match_at (Char "/"%char :: (Char <$> key) ++ group) s = false -> after_slash key group s = None.
Proof.
  destruct s as [|c s]; [done|]. cbn [match_at atom_ok after_slash].
  destruct (is_char _ c); [apply path_field_here_match|done].
Qed.

Lemma path_field_no key group c s :
  match_at (Char "/"%char :: (Char <$> key) ++ group) (c :: s) = false ->
  path_field_from key group (c :: s) = path_field_from key group s.
Proof. intros H%after_slash_match. cbn [path_field_from]. by rewrite H. Qed.

Lemma path_field_skip_key key group k e x rest :
  (Char "/"%char :: (Char <$> key) ++ group) !! k = Some (Char e) -> e ∉ x -> e ∉ take k rest ->
  path_field_from key group (x ++ rest) = path_field_from key group rest.
Proof.
  intros Hk Hx Hr. induction x as [|c x IH]; [done|]. pose proof Hx as [_ Hx']%not_elem_of_cons.
  rewrite <-app_comm_cons, path_field_no, IH; [done..|]. by eapply no_match_key.
Qed.

(** Characters other than a slash start no field. *)
Lemma path_field_skip key group x rest : Forall (fun c => is_char "/"%char c = false) x ->
  path_field_from key group (x ++ rest) = path_field_from key group rest.
Proof.
  induction 1 as [|c x Hc Hx IH]; [done|]. rewrite <-app_comm_cons, path_field_no, IH; [done..|].
  cbn [match_at atom_ok]. by rewrite Hc.
Qed.

Lemma match_key_block key group w rest : length w = length group -> match_at group w = true ->
  match_at ((Char <$> key) ++ group) (key ++ w ++ rest) = true.
Proof.
  intros Hl Hw. induction key as [|c key IH]; cbn [fmap list_fmap app match_at atom_ok].
  - by rewrite <-match_prefix, <-Hl, take_app_length.
  - by rewrite IH, (proj2 (is_char_true c c)).
Qed.

Lemma path_field_found key group w rest : length w = length group -> match_at group w = true ->
  path_field_from key group (lit "/" ++ key ++ w ++ lit "/" ++ rest) = Some w.
Proof.
  intros Hl Hw. cbn [path_field_from lit app String.list_ascii_of_string after_slash].
  rewrite (proj2 (is_char_true _ _)) by done. unfold path_field_here.
  rewrite match_key_block by done.
  rewrite app_assoc, drop_app_length' by (rewrite length_app; lia).
  rewrite (proj2 (is_char_true _ _)) by done. simpl. f_equal.
  rewrite <-app_assoc, drop_app_length, <-Hl, take_app_length. done.
Qed.

(** ** Fixed-width numbers *)

(** A text of exactly [n] decimal digits. *)
Definition digit_text (n : nat) (s : text) : Prop := length s = n /\ forallb is_digit s = true.

Lemma int_of_snoc s c : int_of (s ++ [c]) = 10 * int_of s + (code c - 48).
Proof. unfold int_of. by rewrite foldl_app. Qed.

Lemma int_of_zeros n s : int_of (replicate n "0"%char ++ s) = int_of s.
Proof. unfold int_of. rewrite foldl_app. f_equal. induction n as [|n IH]; [done|]. simpl. exact IH. Qed.

Lemma code_digit_char z : 0 <= z <= 9 -> code (digit_char z) = 48 + z.
Proof.
  intros Hz. unfold code, digit_char. rewrite N_ascii_embedding; [lia|].
  change 256%N with (Z.to_N 256). lia.
Qed.

Lemma is_digit_char z : 0 <= z <= 9 -> is_digit (digit_char z) = true.
Proof. intros Hz. unfold is_digit. rewrite code_digit_char by done. lia. Qed.

(** The digits the loop puts before [acc]. *)
Lemma decimal_loop_spec fuel z acc : 0 <= z < 2 ^ Z.of_nat fuel -> (0 < fuel)%nat ->
  exists ds, decimal_loop fuel z acc = ds ++ acc /\ forallb is_digit ds = true /\ int_of ds = z
    /\ forall w, (0 < w)%nat -> z < 10 ^ Z.of_nat w -> (length ds <= w)%nat.
Proof.
  revert z acc. induction fuel as [|fuel IH]; intros z acc Hz Hf; [lia|]. cbn [decimal_loop].
  pose proof (Z.mod_pos_bound z 10 ltac:(lia)) as Hm. pose proof (Z.div_mod z 10 ltac:(lia)) as Hdm.
  destruct (Z.eqb_spec (z / 10) 0) as [H0|H0].
  - exists [digit_char (z mod 10)]. split_and!; [done|cbn; by rewrite is_digit_char by lia| |intros w ? _; simpl; lia].
    unfold int_of. cbn [foldl]. rewrite code_digit_char by lia. lia.
  - assert (Hq : 0 <= z / 10 < 2 ^ Z.of_nat fuel).
    { rewrite Nat2Z.inj_succ, Z.pow_succ_r in Hz by lia. split; [lia|]. apply Z.div_lt_upper_bound; lia. }
    destruct fuel as [|fuel]; [simpl in Hq; lia|].
    destruct (IH (z / 10) (digit_char (z mod 10) :: acc) Hq ltac:(lia)) as (ds & -> & Hd & Hi & Hl).
    exists (ds ++ [digit_char (z mod 10)]). split_and!.
    + by rewrite <-app_assoc.
    + rewrite forallb_app, Hd. cbn. by rewrite is_digit_char by lia.
    + rewrite int_of_snoc, Hi, code_digit_char by lia. lia.
    + intros w Hw Hzw. destruct w as [|[|w]]; [lia|simpl in Hzw; lia|]. rewrite length_app. cbn [length].
      rewrite Nat2Z.inj_succ, Z.pow_succ_r in Hzw by lia.
      specialize (Hl (S w) ltac:(lia)). rewrite Nat.add_1_r. apply le_n_S, Hl.
      apply Z.div_lt_upper_bound; lia.
Qed.

(** A nonnegative number below [10 ^ w] is formatted with exactly [w] digits. *)
Lemma fmt_d_digits w z : (0 < w)%nat -> 0 <= z < 10 ^ Z.of_nat w ->
  digit_text w (fmt_d w z) /\ int_of (fmt_d w z) = z.
Proof.
  intros Hw Hz. unfold fmt_d, decimal. destruct (Z.ltb_spec z 0); [lia|].
  destruct (decimal_loop_spec (S (Z.to_nat (Z.log2 z))) z []) as (ds & -> & Hd & Hi & Hl); [|lia|].
  { rewrite Nat2Z.inj_succ, Z2Nat.id by apply Z.log2_nonneg. split; [lia|].
    destruct (Z.eq_dec z 0) as [->|]; [done|]. apply Z.log2_spec. lia. }
  specialize (Hl w Hw ltac:(lia)). rewrite app_nil_r. unfold zfill. split; [split|by rewrite int_of_zeros].
  - rewrite length_app, length_replicate. lia.
  - rewrite forallb_app, Hd, andb_true_r. clear. induction (w - length ds)%nat as [|n IH]; [done|]. exact IH.
Qed.

Lemma fmt_4 z : 0 <= z <= 9999 -> digit_text 4 (fmt_d 4 z) /\ int_of (fmt_d 4 z) = z.
Proof. intros. apply fmt_d_digits; [lia|]. change (10 ^ Z.of_nat 4) with 10000. lia. Qed.

Lemma fmt_2 z : 0 <= z <= 99 -> digit_text 2 (fmt_d 2 z) /\ int_of (fmt_d 2 z) = z.
Proof. intros. apply fmt_d_digits; [lia|]. change (10 ^ Z.of_nat 2) with 100. lia. Qed.

Lemma digit_text_2 s : digit_text 2 s ->
  exists a b, s = [a; b] /\ is_digit a = true /\ is_digit b = true.
Proof.
  intros [Hl Hd]. destruct s as [|a [|b [|]]]; try discriminate. simpl in Hd.
  exists a, b. apply andb_prop in Hd as [? [? ?]%andb_prop]. auto.
Qed.

Lemma digit_text_4 s : digit_text 4 s ->
  exists a b c d, s = [a; b; c; d] /\ is_digit a = true /\ is_digit b = true
    /\ is_digit c = true /\ is_digit d = true.
Proof.
  intros [Hl Hd]. destruct s as [|a [|b [|c [|d [|]]]]]; try discriminate. simpl in Hd.
  exists a, b, c, d. repeat (apply andb_prop in Hd as [? Hd]). auto.
Qed.

End Text.

Module Calendar.
Import Text.

Record date : Type := mk_date { year : Z; month : Z; day : Z }.

#[export] Instance date_eq_dec : EqDecision date.
Proof. solve_decision. Defined.

Definition MINYEAR : Z := 1.
Definition MAXYEAR : Z := 9999.

Definition is_leap (y : Z) : bool :=
  (y mod 4 =? 0) && (negb (y mod 100 =? 0) || (y mod 400 =? 0)).

Definition days_in_month (y m : Z) : Z :=
  if m =? 2 then (if is_leap y then 29 else 28)
  else if (m =? 4) || (m =? 6) || (m =? 9) || (m =? 11) then 30 else 31.

(** What the constructor [date(y, m, d)] accepts. *)
Definition date_ok (d : date) : bool :=
  (MINYEAR <=? year d) && (year d <=? MAXYEAR) && (1 <=? month d) && (month d <=? 12)
  && (1 <=? day d) && (day d <=? days_in_month (year d) (month d)).

Definition date_max : date := mk_date 9999 12 31.

(** [d <= e] and [d < e] compare year, month and day in turn. *)
Definition date_ltb (d e : date) : bool :=
  (year d <? year e)
  || ((year d =? year e)
      && ((month d <? month e) || ((month d =? month e) && (day d <? day e)))).

Definition date_leb (d e : date) : bool := negb (date_ltb e d).

(** [d + timedelta(days=1)]. *)
Definition date_succ (d : date) : result date :=
  if day d <? days_in_month (year d) (month d) then Ok (mk_date (year d) (month d) (day d + 1))
  else if month d <? 12 then Ok (mk_date (year d) (month d + 1) 1)
  else if year d <? MAXYEAR then Ok (mk_date (year d + 1) 1 1)
  else Err OverflowError.

(** [d - timedelta(days=1)]. *)
Definition date_pred (d : date) : result date :=
  if 1 <? day d then Ok (mk_date (year d) (month d) (day d - 1))
  else if 1 <? month d then Ok (mk_date (year d) (month d - 1) (days_in_month (year d) (month d - 1)))
  else if MINYEAR <? year d then Ok (mk_date (year d - 1) 12 31)
  else Err OverflowError.

(** [d.isoformat()]. *)
Definition isoformat (d : date) : text :=
  fmt_d 4 (year d) ++ lit "-" ++ fmt_d 2 (month d) ++ lit "-" ++ fmt_d 2 (day d).

(** [date.fromisoformat] on a text that matches [\d{4}-\d{2}-\d{2}]. *)
Definition fromisoformat (s : text) : result date :=
  let d := mk_date (int_of (take 4 s)) (int_of (take 2 (drop 5 s))) (int_of (take 2 (drop 8 s))) in
  if date_ok d then Ok d else Err ValueError.

(** The pattern [\d{4}-\d{2}-\d{2}]. *)
Definition iso_date : list atom :=
  digits 4 ++ [Char "-"%char] ++ digits 2 ++ [Char "-"%char] ++ digits 2.

(** ** Aware and naive datetimes *)

Definition DAY_US : Z := 86400000000.

(** Wall-clock date and microsecond of the day; [offset] is what
    [utcoffset()] returns, in microseconds, [None] for a naive value. *)
Record datetime : Type := mk_datetime { dt_date : date; dt_us : Z; offset : option Z }.

#[export] Instance datetime_eq_dec : EqDecision datetime.
Proof. solve_decision. Defined.

(** Values the constructor accepts: offsets are strictly shorter than a day. *)
Definition datetime_ok (t : datetime) : bool :=
  date_ok (dt_date t) && (0 <=? dt_us t) && (dt_us t <? DAY_US)
  && match offset t with Some o => (- DAY_US <? o) && (o <? DAY_US) | None => true end.

Definition utc (d : date) (us : Z) : datetime := mk_datetime d us (Some 0).

(** [t.astimezone(UTC)] of an aware value with offset [o]. *)
Definition astimezone_utc (t : datetime) (o : Z) : result datetime :=
  let us := dt_us t - o in
  if us <? 0 then d ← date_pred (dt_date t); Ok (utc d (us + DAY_US))
  else if DAY_US <=? us then d ← date_succ (dt_date t); Ok (utc d (us - DAY_US))
  else Ok (utc (dt_date t) us).

(** Order of two UTC values. *)
Definition utc_ltb (s t : datetime) : bool :=
  date_ltb (dt_date s) (dt_date t)
  || (bool_decide (dt_date s = dt_date t) && (dt_us s <? dt_us t)).

Definition utc_eqb (s t : datetime) : bool :=
  bool_decide (dt_date s = dt_date t) && (dt_us s =? dt_us t).

Definition utc_leb (s t : datetime) : bool := negb (utc_ltb t s).

(** [datetime.combine(d, time.min, tzinfo=UTC)] and [t + timedelta(days=1)]. *)
Definition midnight_utc (d : date) : datetime := utc d 0.

Definition datetime_succ_day (t : datetime) : result datetime :=
  d ← date_succ (dt_date t); Ok (mk_datetime d (dt_us t) (offset t)).

(** ** Order and day steps *)

Definition date_lt (d e : date) : Prop :=
  year d < year e \/ (year d = year e /\ (month d < month e \/ (month d = month e /\ day d < day e))).

Lemma date_ltb_spec d e : reflect (date_lt d e) (date_ltb d e).
Proof. apply iff_reflect. unfold date_lt, date_ltb. lia. Qed.

Lemma date_leb_le d e : date_leb d e = true <-> date_lt d e \/ d = e.
Proof.
  unfold date_leb. destruct (date_ltb_spec e d) as [H|H]; unfold date_lt in *; simpl.
  - split; [done|]. intros [?| ->]; lia.
  - split; [|done]. intros _. destruct d as [y m d], e as [y' m' d']; simpl in *.
    destruct (decide ((y, m, d) = (y', m', d'))) as [[= -> -> ->]|Hne]; [by right|left].
    assert (y <> y' \/ m <> m' \/ d <> d'); [|lia].
    destruct (decide (y = y')), (decide (m = m')), (decide (d = d')); subst; auto; done.
Qed.

Lemma date_lt_trans d e f : date_lt d e -> date_lt e f -> date_lt d f.
Proof. unfold date_lt; lia. Qed.

Lemma date_lt_irrefl d : ~ date_lt d d.
Proof. unfold date_lt; lia. Qed.

Lemma days_in_month_bounds y m : 28 <= days_in_month y m <= 31.
Proof. unfold days_in_month. repeat case_match; lia. Qed.

Lemma date_ok_spec d : date_ok d = true <->
  1 <= year d <= 9999 /\ 1 <= month d <= 12 /\ 1 <= day d <= days_in_month (year d) (month d).
Proof. unfold date_ok, MINYEAR, MAXYEAR. lia. Qed.

Lemma days_in_december y : days_in_month y 12 = 31.
Proof. reflexivity. Qed.

(** The next day is the least valid date above. *)
Lemma date_succ_spec d : date_ok d = true -> d <> date_max ->
  exists e, date_succ d = Ok e /\ date_ok e = true /\ date_lt d e
    /\ forall f, date_ok f = true -> date_lt d f -> date_lt e f \/ e = f.
Proof.
  intros Hd Hm. pose proof (proj1 (date_ok_spec d) Hd) as Hb.
  assert (Hleast : forall e, date_ok e = true -> (forall f, date_ok f = true -> date_lt d f -> ~ date_lt f e) ->
    date_lt d e -> date_ok e = true /\ date_lt d e
    /\ forall f, date_ok f = true -> date_lt d f -> date_lt e f \/ e = f).
  { intros e He Hl Hlt. do 2 (split; [done|]). intros f Hf Hdf. specialize (Hl f Hf Hdf).
    apply date_leb_le. unfold date_leb. by destruct (date_ltb_spec f e). }
  unfold date_succ. destruct (Z.ltb_spec (day d) (days_in_month (year d) (month d))).
  { eexists; split; [done|]. apply Hleast; [apply date_ok_spec; simpl; lia| |unfold date_lt; simpl; lia].
    intros f _. unfold date_lt; simpl; lia. }
  destruct (Z.ltb_spec (month d) 12).
  { eexists; split; [done|]. apply Hleast; [|intros f [? [? ?]]%date_ok_spec|unfold date_lt; simpl; lia].
    - pose proof (days_in_month_bounds (year d) (month d + 1)). apply date_ok_spec; simpl; lia.
    - unfold date_lt; simpl. intros [Hy|[Hy [Hq|[Hq1 Hq2]]]]; [lia..|].
      rewrite <-Hy, <-Hq1 in *. lia. }
  assert (Hmo : month d = 12) by lia. rewrite Hmo, days_in_december in *.
  assert (day d = 31) by lia.
  destruct (Z.ltb_spec (year d) MAXYEAR); unfold MAXYEAR in *.
  - eexists; split; [done|]. apply Hleast; [|intros f [? [? Hfd]]%date_ok_spec|unfold date_lt; simpl; lia].
    + pose proof (days_in_month_bounds (year d + 1) 1). apply date_ok_spec; simpl; lia.
    + pose proof (days_in_month_bounds (year f) (month f)). unfold date_lt; simpl; lia.
  - destruct Hm. destruct d as [y m dd]; simpl in *. unfold date_max. f_equal; lia.
Qed.

Lemma date_succ_max : date_succ date_max = Err OverflowError.
Proof. reflexivity. Qed.

Lemma date_le_max d : date_ok d = true -> date_lt d date_max \/ d = date_max.
Proof.
  intros (? & ? & ?)%date_ok_spec. destruct d as [y m d]; simpl in *. pose proof (days_in_month_bounds y m).
  destruct (decide (y = 9999 /\ m = 12 /\ d = 31)) as [(-> & -> & ->)|]; [by right|left].
  unfold date_lt; simpl. lia.
Qed.

(** *** Order of instants *)

Definition utc_lt (s t : datetime) : Prop :=
  date_lt (dt_date s) (dt_date t) \/ (dt_date s = dt_date t /\ dt_us s < dt_us t).

Lemma utc_ltb_spec s t : utc_ltb s t = true <-> utc_lt s t.
Proof.
  unfold utc_ltb, utc_lt. rewrite orb_true_iff, andb_true_iff, bool_decide_eq_true, Z.ltb_lt.
  destruct (date_ltb_spec (dt_date s) (dt_date t)); naive_solver.
Qed.

Lemma utc_lt_trans s t u : utc_lt s t -> utc_lt t u -> utc_lt s u.
Proof.
  unfold utc_lt. intros [H1|[E1 H1]] [H2|[E2 H2]].
  - left. by eapply date_lt_trans.
  - left. by rewrite <-E2.
  - left. by rewrite E1.
  - right. split; [congruence|lia].
Qed.

Lemma utc_lt_irrefl s : ~ utc_lt s s.
Proof. intros [H|[_ H]]; [by apply date_lt_irrefl in H|lia]. Qed.

Lemma utc_trichotomy s t : utc_lt s t \/ utc_eqb s t = true \/ utc_lt t s.
Proof.
  unfold utc_lt, utc_eqb. rewrite andb_true_iff, bool_decide_eq_true, Z.eqb_eq.
  destruct (date_ltb_spec (dt_date s) (dt_date t)) as [H|H]; [auto|].
  destruct (date_ltb_spec (dt_date t) (dt_date s)) as [H'|H']; [auto|].
  assert (E : dt_date s = dt_date t).
  { destruct (proj1 (date_leb_le (dt_date t) (dt_date s))) as [?|?]; [|done..|done].
    unfold date_leb. by destruct (date_ltb_spec (dt_date s) (dt_date t)). }
  rewrite E. destruct (Z.lt_trichotomy (dt_us s) (dt_us t)) as [?|[?|?]]; auto.
Qed.

Lemma utc_eqb_lt s t u : utc_eqb s t = true -> (utc_lt s u <-> utc_lt t u) /\ (utc_lt u s <-> utc_lt u t).
Proof.
  unfold utc_eqb, utc_lt. rewrite andb_true_iff, bool_decide_eq_true, Z.eqb_eq. intros [-> ->]. done.
Qed.

(** [s <= t] is the negation of [t < s]. *)
Lemma utc_leb_spec s t : utc_leb s t = true <-> ~ utc_lt t s.
Proof. unfold utc_leb. rewrite negb_true_iff, <-not_true_iff_false, utc_ltb_spec. done. Qed.

Lemma utc_le_lt_trans s t u : ~ utc_lt t s -> utc_lt t u -> utc_lt s u.
Proof.
  intros Hn Hu. destruct (utc_trichotomy s t) as [H|[H|H]]; [by eapply utc_lt_trans| |done].
  by apply (utc_eqb_lt s t u H).
Qed.

Lemma utc_lt_le_trans s t u : utc_lt s t -> ~ utc_lt u t -> utc_lt s u.
Proof.
  intros Hn Hu. destruct (utc_trichotomy t u) as [H|[H|H]]; [by eapply utc_lt_trans| |done].
  by apply (utc_eqb_lt t u s H).
Qed.

(** The day before is valid again. *)
Lemma date_pred_ok d e : date_ok d = true -> date_pred d = Ok e -> date_ok e = true.
Proof.
  intros (? & ? & ?)%date_ok_spec. unfold date_pred.
  destruct (Z.ltb_spec 1 (day d)); [|destruct (Z.ltb_spec 1 (month d)); [|destruct (Z.ltb_spec MINYEAR (year d)); [|done]]];
    intros [= <-]; apply date_ok_spec; simpl in *; unfold MINYEAR in *.
  - lia.
  - pose proof (days_in_month_bounds (year d) (month d - 1)). lia.
  - rewrite days_in_december. lia.
Qed.

Lemma date_succ_ok d e : date_ok d = true -> date_succ d = Ok e -> date_ok e = true.
Proof.
  intros Hd He. destruct (decide (d = date_max)) as [->|Hm]; [by rewrite date_succ_max in He|].
  destruct (date_succ_spec d Hd Hm) as (e' & He' & ? & _). congruence.
Qed.

(** Conversion to UTC gives a valid instant. *)
Lemma astimezone_utc_ok t o u : datetime_ok t = true -> offset t = Some o -> astimezone_utc t o = Ok u ->
  date_ok (dt_date u) = true /\ 0 <= dt_us u < DAY_US.
Proof.
  unfold datetime_ok, astimezone_utc. intros Ht Ho. rewrite Ho in Ht. rewrite !andb_true_iff in Ht.
  destruct Ht as [[[Hd H0] H1] [H2 H3]].
  apply Z.leb_le in H0. apply Z.ltb_lt in H1, H2, H3.
  destruct (Z.ltb_spec (dt_us t - o) 0); [|destruct (Z.leb_spec DAY_US (dt_us t - o))].
  - destruct (date_pred (dt_date t)) as [d|] eqn:E; [|done]. intros [= <-]. cbn. split; [by eapply date_pred_ok|lia].
  - destruct (date_succ (dt_date t)) as [d|] eqn:E; [|done]. intros [= <-]. cbn. split; [by eapply date_succ_ok|lia].
  - intros [= <-]. cbn. split; [done|lia].
Qed.

(** A number that grows with the date by at least one per day. *)
Definition date_rank (d : date) : Z := 372 * year d + 31 * month d + day d.

Lemma date_rank_lt d e : date_ok d = true -> date_ok e = true -> date_lt d e -> date_rank d < date_rank e.
Proof.
  intros [? [? ?]]%date_ok_spec [? [? ?]]%date_ok_spec.
  pose proof (days_in_month_bounds (year d) (month d)). pose proof (days_in_month_bounds (year e) (month e)).
  unfold date_lt, date_rank. lia.
Qed.

(** ** The days of a range

    The days a loop that starts at [current] and adds one day at a time visits
    up to [last_day]; the loops of the planners are compared with it. *)

Fixpoint day_list (fuel : nat) (current last_day : date) : list date :=
  match fuel with
  | O => []
  | S fuel' =>
    if date_leb current last_day then
      current :: match date_succ current with Ok next => day_list fuel' next last_day | Err _ => [] end
    else []
  end.

Definition days_fuel (first_day last_day : date) : nat :=
  S (Z.to_nat (date_rank last_day - date_rank first_day + 1)).

Definition in_range (first_day last_day d : date) : Prop :=
  date_ok d = true /\ date_leb first_day d = true /\ date_leb d last_day = true.

Lemma date_leb_trans d e f : date_leb d e = true -> date_leb e f = true -> date_leb d f = true.
Proof.
  rewrite !date_leb_le. intros [H1| ->] [H2| ->]; auto. left. by eapply date_lt_trans.
Qed.

Lemma date_leb_antisym d e : date_leb d e = true -> date_leb e d = true -> d = e.
Proof.
  rewrite !date_leb_le. intros [H1|?] [H2|?]; auto.
  destruct (date_lt_irrefl d). by eapply date_lt_trans.
Qed.

(** Fuel for the loop from [current]: one more than the days left. *)
Definition enough_fuel (fuel : nat) (current last_day : date) : Prop :=
  date_rank last_day - date_rank current + 1 < Z.of_nat fuel /\ (0 < fuel)%nat.

Lemma days_fuel_enough first_day last_day : enough_fuel (days_fuel first_day last_day) first_day last_day.
Proof. unfold enough_fuel, days_fuel. lia. Qed.

(** One turn of the loop inside the range: either the calendar ends or the next
    day is still covered by the remaining fuel. *)
Lemma day_step fuel current last_day : date_ok current = true -> date_ok last_day = true ->
  date_leb current last_day = true -> enough_fuel (S fuel) current last_day ->
  (current = date_max /\ last_day = date_max)
  \/ (current <> date_max /\ exists next, date_succ current = Ok next /\ date_ok next = true /\ date_lt current next
      /\ (forall f, date_ok f = true -> date_lt current f -> date_lt next f \/ next = f)
      /\ enough_fuel fuel next last_day).
Proof.
  intros Hc Hl Hle [Hf H0]. destruct (decide (current = date_max)) as [->|Hmax].
  { left. split; [done|]. apply date_leb_antisym; [|done]. by apply date_leb_le, date_le_max. }
  right. split; [done|]. destruct (date_succ_spec current Hc Hmax) as (next & Hs & Hn & Hlt & Hleast).
  exists next. split_and!; [done..|]. pose proof (date_rank_lt _ _ Hc Hn Hlt).
  assert (date_rank current <= date_rank last_day).
  { apply date_leb_le in Hle as [Hq| ->]; [|lia]. pose proof (date_rank_lt _ _ Hc Hl Hq). lia. }
  unfold enough_fuel. lia.
Qed.

Lemma day_list_spec fuel current last_day :
  date_ok current = true -> date_ok last_day = true -> enough_fuel fuel current last_day ->
  StronglySorted date_lt (day_list fuel current last_day)
  /\ forall d, d ∈ day_list fuel current last_day <-> in_range current last_day d.
Proof.
  revert current. induction fuel as [|fuel IH]; intros current Hc Hl Hf; [destruct Hf; lia|]. cbn [day_list].
  destruct (date_leb current last_day) eqn:Hle.
  - destruct (day_step _ _ _ Hc Hl Hle Hf) as [[-> ->]|(_ & next & -> & Hn & Hlt & Hleast & Hf')].
    { rewrite date_succ_max. split; [repeat constructor|]. intros d. rewrite list_elem_of_singleton.
      split; [by intros ->|]. intros (Hd & H1 & H2). symmetry. by apply date_leb_antisym. }
    destruct (IH next Hn Hl Hf') as [Hsort Hin]. split.
    + constructor; [done|]. apply Forall_forall. intros d (_ & Hd & _)%Hin.
      apply date_leb_le in Hd as [Hd| ->]; [by eapply date_lt_trans|done].
    + intros d. rewrite elem_of_cons, Hin. split.
      * intros [->|(Hd & H1 & H2)]; [split_and!; try done; apply date_leb_le; auto|].
        split_and!; [done| |done]. eapply date_leb_trans; [|done]. apply date_leb_le. auto.
      * intros (Hd & H1 & H2). apply date_leb_le in H1 as [H1| ->]; [right|auto].
        split_and!; [done| |done]. apply date_leb_le. auto.
  - split; [constructor|]. intros d. rewrite elem_of_nil. split; [done|]. intros (_ & H1 & H2).
    rewrite (date_leb_trans current d last_day) in Hle by done. done.
Qed.

Lemma day_past_max current last_day :
  date_ok current = true -> date_leb current last_day = false -> last_day <> date_max.
Proof. intros Hc Hle ->. apply not_true_iff_false in Hle. by apply Hle, date_leb_le, date_le_max. Qed.

End Calendar.

(** ** Sorting and searching *)

Module Seq.

(** [sorted(values, key=...)] is the stable sort for the order [le]. *)
Section Sort.
Context {A : Type} (le : A -> A -> bool).

Fixpoint insert (x : A) (l : list A) : list A :=
  match l with
  | [] => [x]
  | y :: l' => if le x y then x :: y :: l' else y :: insert x l'
  end.

Definition sorted (l : list A) : list A := foldr insert [] l.

Lemma insert_Permutation x l : insert x l ≡ₚ x :: l.
Proof. induction l as [|y l IH]; cbn; [done|]. destruct (le x y); [done|]. rewrite IH. apply Permutation_swap. Qed.

Lemma sorted_Permutation l : sorted l ≡ₚ l.
Proof. induction l as [|x l IH]; cbn; [done|]. by rewrite insert_Permutation, IH. Qed.

(** A list in order is left as it is. *)
Lemma sorted_id l : StronglySorted (fun a b => le a b = true) l -> sorted l = l.
Proof.
  induction 1 as [|x l Hs IH Hx]; [done|]. cbn. change (foldr insert [] l) with (sorted l). rewrite IH.
  destruct l as [|y l]; [done|]. cbn. apply Forall_cons in Hx as [-> _]. done.
Qed.

Lemma insert_sorted x l :
  (forall a b, le a b = true \/ le b a = true) -> (forall a b c, le a b = true -> le b c = true -> le a c = true) ->
  StronglySorted (fun a b => le a b = true) l -> StronglySorted (fun a b => le a b = true) (insert x l).
Proof.
  intros Htot Htr. induction 1 as [|y l Hs IH Hy]; cbn; [repeat constructor|].
  destruct (le x y) eqn:Hxy.
  - constructor; [by constructor|]. constructor; [done|]. eapply Forall_impl; [done|]. intros z Hz. by eapply Htr.
  - constructor; [done|]. rewrite insert_Permutation. constructor; [|done]. destruct (Htot x y); congruence.
Qed.

Lemma sorted_StronglySorted l :
  (forall a b, le a b = true \/ le b a = true) -> (forall a b c, le a b = true -> le b c = true -> le a c = true) ->
  StronglySorted (fun a b => le a b = true) (sorted l).
Proof. intros Htot Htr. induction l as [|x l IH]; cbn; [constructor|]. by apply insert_sorted. Qed.

End Sort.

(** [bisect.bisect_right(a, x)]: the loop halves the interval, so the length of
    the list bounds its iterations. *)
Section Bisect.
Context {A : Type} (lt : A -> A -> bool).

Fixpoint bisect_loop (fuel : nat) (a : list A) (x : A) (lo hi : nat) : nat :=
  match fuel with
  | O => lo
  | S fuel' =>
    if (lo <? hi)%nat then
      let mid := ((lo + hi) / 2)%nat in
      match a !! mid with
      | Some y => if lt x y then bisect_loop fuel' a x lo mid else bisect_loop fuel' a x (S mid) hi
      | None => lo
      end
    else lo
  end.

Definition bisect_right (a : list A) (x : A) : nat := bisect_loop (length a) a x 0 (length a).

(** On a list where [x < _] is monotone, the result separates the elements
    that are not above [x] from those above. *)
Lemma bisect_loop_spec fuel a x lo hi :
  (forall i j y z, a !! i = Some y -> a !! j = Some z -> (i <= j)%nat -> lt x y = true -> lt x z = true) ->
  (hi - lo <= fuel)%nat -> (lo <= hi)%nat -> (hi <= length a)%nat ->
  (forall i y, a !! i = Some y -> (i < lo)%nat -> lt x y = false) ->
  (forall i y, a !! i = Some y -> (hi <= i)%nat -> lt x y = true) ->
  let r := bisect_loop fuel a x lo hi in
  (r <= length a)%nat /\ forall i y, a !! i = Some y -> lt x y = bool_decide (r <= i)%nat.
Proof.
  intros Hmono. revert lo hi. induction fuel as [|fuel IH]; intros lo hi Hf Hle Hlen Hlo Hhi; cbn [bisect_loop].
  { assert (lo = hi) as <- by lia. split; [lia|]. intros i y Hi. case_bool_decide; [eapply Hhi|eapply Hlo]; eauto; lia. }
  destruct (Nat.ltb_spec lo hi) as [Hlt|Hge].
  - assert (Hmid : ((lo + hi) / 2 < hi)%nat) by (apply Nat.Div0.div_lt_upper_bound; lia).
    assert (Hmid' : (lo <= (lo + hi) / 2)%nat) by (apply Nat.div_le_lower_bound; lia).
    destruct (lookup_lt_is_Some_2 a ((lo + hi) / 2)%nat ltac:(lia)) as [y Hy]. rewrite Hy.
    destruct (lt x y) eqn:Hxy.
    + apply IH; [lia..|done|]. intros i z Hz Hi. by eapply Hmono; [exact Hy|exact Hz|lia|].
    + apply IH; [lia..| |done]. intros i z Hz Hi. apply not_true_iff_false. intros Ht.
      apply not_true_iff_false in Hxy. apply Hxy. by eapply Hmono; [exact Hz|exact Hy|lia|].
  - assert (lo = hi) as <- by lia. split; [lia|]. intros i y Hi. case_bool_decide; [eapply Hhi|eapply Hlo]; eauto; lia.
Qed.

Lemma bisect_right_spec a x :
  (forall i j y z, a !! i = Some y -> a !! j = Some z -> (i <= j)%nat -> lt x y = true -> lt x z = true) ->
  (bisect_right a x <= length a)%nat
  /\ forall i y, a !! i = Some y -> lt x y = bool_decide (bisect_right a x <= i)%nat.
Proof.
  intros Hmono. apply bisect_loop_spec; [done|lia..|intros; lia|].
  intros i y Hi%lookup_lt_Some. lia.
Qed.
End Bisect.

End Seq.
