(* ===== verification/JsonLib.v ===== *)
(** * JsonLib: Python's [json] module

    The encoder [json.dumps] with compact separators and ASCII output, the
    decoder [json.loads], and UTF-8 for the code points 0 to 255 (see [PyLib]).
    A number with a fraction or an exponent is kept as its literal.  The decoder
    runs on fuel bounded by the length of the text; [loads_print] shows that it
    reads back every value the encoder writes, [loads_dumps] the same for sorted
    keys. *)

From Stdlib Require Import Ascii String.
From S2P Require Import Prelude PyLib.
Import Text.

#[export] Set Warnings "-register-all".

#[local] Open Scope Z_scope.

Inductive json : Type :=
| JNull
| JBool (b : bool)
| JInt (z : Z)
| JFloat (literal : text)
| JStr (s : text)
| JList (l : list json)
| JObj (members : list (text * json)).

(** ** Encoder *)

Definition quote : ascii := ascii_of_N 34.
Definition backslash : ascii := ascii_of_N 92.

Definition hex_char (z : Z) : ascii :=
  ascii_of_N (Z.to_N (if z <? 10 then 48 + z else 87 + z)).

(** The escape of one character under [ensure_ascii]. *)
Definition escape (c : ascii) : text :=
  let z := code c in
  if z =? 34 then [backslash; quote]
  else if z =? 92 then [backslash; backslash]
  else if z =? 10 then backslash :: lit "n"
  else if z =? 13 then backslash :: lit "r"
  else if z =? 9 then backslash :: lit "t"
  else if z =? 8 then backslash :: lit "b"
  else if z =? 12 then backslash :: lit "f"
  else if (32 <=? z) && (z <=? 126) then [c]
  else backslash :: lit "u00" ++ [hex_char (z / 16); hex_char (z mod 16)].

Definition print_string (s : text) : text := quote :: concat (escape <$> s) ++ [quote].

Definition print_int (z : Z) : text := if z <? 0 then "-"%char :: decimal (- z) else decimal z.

(** [sep.join(parts)]. *)
Fixpoint join (sep : text) (parts : list text) : text :=
  match parts with
  | [] => []
  | [x] => x
  | x :: rest => x ++ sep ++ join sep rest
  end.

Fixpoint print_json (v : json) : text :=
  match v with
  | JNull => lit "null"
  | JBool true => lit "true"
  | JBool false => lit "false"
  | JInt z => print_int z
  | JFloat literal => literal
  | JStr s => print_string s
  | JList l => lit "[" ++ join (lit ",") (map print_json l) ++ lit "]"
  | JObj members =>
    lit "{" ++ join (lit ",") (map (fun '(k, x) => print_string k ++ lit ":" ++ print_json x) members) ++ lit "}"
  end.

Definition key_leb (a b : text * json) : bool := leb a.1 b.1.

(** [sort_keys=True]. *)
Fixpoint sort_keys (v : json) : json :=
  match v with
  | JList l => JList (map sort_keys l)
  | JObj members => JObj (Seq.sorted key_leb (map (fun '(k, x) => (k, sort_keys x)) members))
  | _ => v
  end.

(** [json.dumps(v, sort_keys=True, separators=(",", ":"))]. *)
Definition dumps (v : json) : text := print_json (sort_keys v).

(** ** Decoder *)

Definition is_json_space (c : ascii) : bool :=
  (code c =? 32) || (code c =? 9) || (code c =? 10) || (code c =? 13).

Definition skip_ws (s : text) : text := drop_while is_json_space s.

Definition hex_value (c : ascii) : option Z :=
  let z := code c in
  if (48 <=? z) && (z <=? 57) then Some (z - 48)
  else if (97 <=? z) && (z <=? 102) then Some (z - 87)
  else if (65 <=? z) && (z <=? 70) then Some (z - 55)
  else None.

(** A code point given by four hexadecimal digits, when it is below 256. *)
Definition hex_escape (a b c d : ascii) : option ascii :=
  a' ← hex_value a; b' ← hex_value b; c' ← hex_value c; d' ← hex_value d;
  if (a' =? 0) && (b' =? 0) then Some (ascii_of_N (Z.to_N (16 * c' + d'))) else None.

(** The character after a backslash, other than [u]. *)
Definition simple_escape (c : ascii) : option ascii :=
  let z := code c in
  if z =? 34 then Some quote
  else if z =? 92 then Some backslash
  else if z =? 47 then Some "/"%char
  else if z =? 98 then Some (ascii_of_N 8)
  else if z =? 102 then Some (ascii_of_N 12)
  else if z =? 110 then Some (ascii_of_N 10)
  else if z =? 114 then Some (ascii_of_N 13)
  else if z =? 116 then Some (ascii_of_N 9)
  else None.

Definition cons_fst (c : ascii) (r : option (text * text)) : option (text * text) :=
  '(a, b) ← r; Some (c :: a, b).

(** The text of a string literal after its opening quote, and what follows. *)
Fixpoint scan_string (s : text) : option (text * text) :=
  match s with
  | [] => None
  | c :: s' =>
    if code c =? 34 then Some ([], s')
    else if code c =? 92 then
      match s' with
      | e :: rest =>
        if code e =? 117 then
          match rest with
          | h1 :: h2 :: h3 :: h4 :: rest' =>
            match hex_escape h1 h2 h3 h4 with
            | Some x => cons_fst x (scan_string rest')
            | None => None
            end
          | _ => None
          end
        else match simple_escape e with Some x => cons_fst x (scan_string rest) | None => None end
      | [] => None
      end
    else if code c <? 32 then None
    else cons_fst c (scan_string s')
  end.

Fixpoint take_while (p : ascii -> bool) (s : text) : text :=
  match s with c :: s' => if p c then c :: take_while p s' else [] | [] => [] end.

(** The integer part [0|[1-9]\d*] of a number. *)
Definition scan_digits (s : text) : option (text * text) :=
  match s with
  | c :: s' =>
    if code c =? 48 then Some ([c], s')
    else if is_digit c then Some (take_while is_digit s, drop_while is_digit s)
    else None
  | [] => None
  end.

(** An optional fraction and exponent. *)
Definition scan_fraction (s : text) : text * text :=
  match s with
  | c :: d :: _ =>
    if (code c =? 46) && is_digit d then (c :: take_while is_digit (drop 1 s), drop_while is_digit (drop 1 s))
    else ([], s)
  | _ => ([], s)
  end.

Definition scan_exponent (s : text) : text * text :=
  match s with
  | c :: rest =>
    if (code c =? 101) || (code c =? 69) then
      let '(sign, digits) :=
        match rest with d :: rest' => if (code d =? 43) || (code d =? 45) then ([d], rest') else ([], rest) | [] => ([], rest) end in
      match digits with
      | d :: _ => if is_digit d then (c :: sign ++ take_while is_digit digits, drop_while is_digit digits) else ([], s)
      | [] => ([], s)
      end
    else ([], s)
  | [] => ([], s)
  end.

Definition scan_sign (s : text) : text * text :=
  match s with c :: s' => if code c =? 45 then ([c], s') else ([], s) | [] => ([], s) end.

Definition scan_number (s : text) : option (json * text) :=
  let '(sign, s1) := scan_sign s in
  '(digits, s2) ← scan_digits s1;
  let '(fraction, s3) := scan_fraction s2 in
  let '(exponent, s4) := scan_exponent s3 in
  match fraction, exponent with
  | [], [] => Some (JInt (if bool_decide (sign = []) then int_of digits else - int_of digits), s4)
  | _, _ => Some (JFloat (sign ++ digits ++ fraction ++ exponent), s4)
  end.

(** Literal names; [NaN] and the infinities are floats. *)
Definition scan_name (s : text) : option (json * text) :=
  if startswith (lit "null") s then Some (JNull, drop 4 s)
  else if startswith (lit "true") s then Some (JBool true, drop 4 s)
  else if startswith (lit "false") s then Some (JBool false, drop 5 s)
  else if startswith (lit "NaN") s then Some (JFloat (lit "NaN"), drop 3 s)
  else if startswith (lit "Infinity") s then Some (JFloat (lit "Infinity"), drop 8 s)
  else if startswith (lit "-Infinity") s then Some (JFloat (lit "-Infinity"), drop 9 s)
  else None.

Fixpoint parse_value (fuel : nat) (s : text) : option (json * text) :=
  match fuel with
  | O => None
  | S fuel' =>
    match s with
    | [] => None
    | c :: s' =>
      if code c =? 34 then '(t, rest) ← scan_string s'; Some (JStr t, rest)
      else if code c =? 91 then
        match skip_ws s' with
        | d :: rest => if code d =? 93 then Some (JList [], rest)
                       else '(l, rest) ← parse_elements fuel' (skip_ws s'); Some (JList l, rest)
        | [] => None
        end
      else if code c =? 123 then
        match skip_ws s' with
        | d :: rest => if code d =? 125 then Some (JObj [], rest)
                       else '(l, rest) ← parse_members fuel' (skip_ws s'); Some (JObj l, rest)
        | [] => None
        end
      else match scan_name s with
           | Some r => Some r
           | None => scan_number s
           end
    end
  end
with parse_elements (fuel : nat) (s : text) : option (list json * text) :=
  match fuel with
  | O => None
  | S fuel' =>
    '(v, rest) ← parse_value fuel' s;
    match skip_ws rest with
    | c :: rest' =>
      if code c =? 93 then Some ([v], rest')
      else if code c =? 44 then '(l, rest) ← parse_elements fuel' (skip_ws rest'); Some (v :: l, rest)
      else None
    | [] => None
    end
  end
with parse_members (fuel : nat) (s : text) : option (list (text * json) * text) :=
  match fuel with
  | O => None
  | S fuel' =>
    match s with
    | q :: s' =>
      if code q =? 34 then
        '(k, rest) ← scan_string s';
        match skip_ws rest with
        | c :: rest' =>
          if code c =? 58 then
            '(v, rest) ← parse_value fuel' (skip_ws rest');
            match skip_ws rest with
            | d :: rest' =>
              if code d =? 125 then Some ([(k, v)], rest')
              else if code d =? 44 then '(l, rest) ← parse_members fuel' (skip_ws rest'); Some ((k, v) :: l, rest)
              else None
            | [] => None
            end
          else None
        | [] => None
        end
      else None
    | [] => None
    end
  end.

(** [json.loads(s)]: [None] is [JSONDecodeError]. *)
Definition loads (s : text) : option json :=
  '(v, rest) ← parse_value (S (length s)) (skip_ws s);
  if bool_decide (skip_ws rest = []) then Some v else None.

(** [obj.get(key)]: of repeated keys the last one counts. *)
Fixpoint get (members : list (text * json)) (key : text) : option json :=
  match members with
  | [] => None
  | (k, v) :: rest =>
    match get rest key with
    | Some w => Some w
    | None => if bool_decide (k = key) then Some v else None
    end
  end.

(** ** Structural induction on values *)

Section JsonInd.
Variable P : json -> Prop.
Hypothesis Hnull : P JNull.
Hypothesis Hbool : forall b, P (JBool b).
Hypothesis Hint : forall z, P (JInt z).
Hypothesis Hfloat : forall t, P (JFloat t).
Hypothesis Hstr : forall s, P (JStr s).
Hypothesis Hlist : forall l, Forall P l -> P (JList l).
Hypothesis Hobj : forall l, Forall (fun m => P m.2) l -> P (JObj l).

Fixpoint json_nested_ind (v : json) : P v :=
  match v with
  | JNull => Hnull
  | JBool b => Hbool b
  | JInt z => Hint z
  | JFloat t => Hfloat t
  | JStr s => Hstr s
  | JList l =>
    Hlist l ((fix go l : Forall P l :=
      match l with [] => Forall_nil_2 _ | x :: l' => Forall_cons_2 _ _ _ (json_nested_ind x) (go l') end) l)
  | JObj l =>
    Hobj l ((fix go l : Forall (fun m => P m.2) l :=
      match l with
      | [] => Forall_nil_2 _
      | m :: l' => Forall_cons_2 _ m _ (match m return P m.2 with (_, x) => json_nested_ind x end) (go l')
      end) l)
  end.
End JsonInd.

(** The literals of finite floats. *)
Definition float_literal (t : text) : bool :=
  match scan_number t with Some (JFloat u, []) => bool_decide (u = t) | _ => false end.

(** Values whose floats are finite. *)
Fixpoint exact_value (v : json) : bool :=
  match v with
  | JFloat t => float_literal t
  | JList l => forallb exact_value l
  | JObj l => forallb (fun '(_, x) => exact_value x) l
  | _ => true
  end.

(** ** Strings and numbers are read back *)

Lemma scan_escape c t : scan_string (escape c ++ t) = cons_fst c (scan_string t).
Proof. destruct c as [[] [] [] [] [] [] [] []]; reflexivity. Qed.

Lemma scan_print s rest : scan_string (concat (escape <$> s) ++ quote :: rest) = Some (s, rest).
Proof.
  induction s as [|c s IH]; [done|]. cbn [fmap list_fmap concat].
  by rewrite <-app_assoc, scan_escape, IH.
Qed.

(** What may follow a value the encoder wrote. *)
Definition ends_value (rest : text) : bool :=
  match rest with [] => true | c :: _ => (code c =? 44) || (code c =? 93) || (code c =? 125) end.

Lemma ends_value_not_digit rest : ends_value rest = true -> take_while is_digit rest = [] /\ drop_while is_digit rest = rest.
Proof.
  destruct rest as [|c r]; [done|]. simpl. intros H.
  destruct (is_digit c) eqn:E; [|done]. unfold is_digit in E. lia.
Qed.

Lemma take_digits ds rest : forallb is_digit ds = true -> ends_value rest = true ->
  take_while is_digit (ds ++ rest) = ds /\ drop_while is_digit (ds ++ rest) = rest.
Proof.
  intros Hd Hr. induction ds as [|c ds IH]; [by apply ends_value_not_digit|].
  simpl in *. apply andb_prop in Hd as [Hc Hd]. rewrite Hc. destruct (IH Hd) as [-> ->]. done.
Qed.

Lemma decimal_loop_head fuel z acc : 0 < z < 2 ^ Z.of_nat fuel ->
  exists c ds, decimal_loop fuel z acc = c :: ds /\ is_digit c = true /\ code c <> 48.
Proof.
  revert z acc. induction fuel as [|fuel IH]; intros z acc Hz; [simpl in Hz; lia|]. cbn [decimal_loop].
  pose proof (Z.mod_pos_bound z 10 ltac:(lia)) as Hm. pose proof (Z.div_mod z 10 ltac:(lia)) as Hdm.
  destruct (Z.eqb_spec (z / 10) 0) as [H0|H0].
  - exists (digit_char (z mod 10)), acc. split_and!; [done|apply is_digit_char; lia|].
    rewrite code_digit_char by lia. lia.
  - apply IH. rewrite Nat2Z.inj_succ, Z.pow_succ_r in Hz by lia. split; [lia|].
    apply Z.div_lt_upper_bound; lia.
Qed.

Lemma log2_fuel z : 0 <= z -> 0 <= z < 2 ^ Z.of_nat (S (Z.to_nat (Z.log2 z))).
Proof.
  intros Hz. rewrite Nat2Z.inj_succ, Z2Nat.id by apply Z.log2_nonneg. split; [lia|].
  destruct (Z.eq_dec z 0) as [->|]; [done|]. apply Z.log2_spec. lia.
Qed.

(** The decimal numeral of a natural number: digits that denote it. *)
Lemma decimal_digits z : 0 <= z -> forallb is_digit (decimal z) = true /\ int_of (decimal z) = z.
Proof.
  intros Hz. unfold decimal.
  destruct (decimal_loop_spec _ z [] (log2_fuel z Hz) ltac:(lia)) as (ds & -> & Hd & Hi & _).
  by rewrite app_nil_r.
Qed.

Lemma decimal_head z : 0 <= z -> exists c ds, decimal z = c :: ds /\ is_digit c = true /\ (z = 0 \/ code c <> 48).
Proof.
  intros Hz. destruct (Z.eq_dec z 0) as [->|Hne]; [exists "0"%char, []; split_and!; auto|].
  destruct (decimal_loop_head (S (Z.to_nat (Z.log2 z))) z []) as (c & ds & E & Hc & H0).
  { pose proof (log2_fuel z Hz). lia. }
  exists c, ds. unfold decimal. auto.
Qed.

Lemma scan_digits_decimal z rest : 0 <= z -> ends_value rest = true ->
  scan_digits (decimal z ++ rest) = Some (decimal z, rest).
Proof.
  intros Hz Hr. destruct (decimal_head z Hz) as (c & ds & E & Hc & H0).
  destruct (decimal_digits z Hz) as [Hd _].
  destruct (take_digits (decimal z) rest Hd Hr) as [Ht Hdr].
  destruct H0 as [->|H0]; [done|]. rewrite E in Ht, Hdr |- *. cbn [app scan_digits] in *.
  rewrite (proj2 (Z.eqb_neq _ _) H0), Hc, Ht, Hdr. done.
Qed.

Lemma no_fraction rest : ends_value rest = true -> scan_fraction rest = ([], rest) /\ scan_exponent rest = ([], rest).
Proof.
  destruct rest as [|c r]; [done|]. simpl. intros H.
  rewrite (proj2 (Z.eqb_neq (code c) 101)), (proj2 (Z.eqb_neq (code c) 69)) by lia.
  rewrite (proj2 (Z.eqb_neq (code c) 46)) by lia. by destruct r.
Qed.

Lemma scan_print_int z rest : ends_value rest = true -> scan_number (print_int z ++ rest) = Some (JInt z, rest).
Proof.
  intros Hr. destruct (no_fraction rest Hr) as [Hf He].
  unfold print_int, scan_number. destruct (Z.ltb_spec z 0) as [Hz|Hz].
  - change (scan_sign (("-"%char :: decimal (- z)) ++ rest)) with (["-"%char], decimal (- z) ++ rest).
    cbv beta iota. rewrite scan_digits_decimal by (lia || done). cbn [mbind option_bind]. rewrite Hf, He.
    destruct (decimal_digits (- z) ltac:(lia)) as [_ ->]. simpl. do 3 f_equal. lia.
  - destruct (decimal_head z Hz) as (c & ds & E & Hc & _).
    assert (scan_sign (decimal z ++ rest) = ([], decimal z ++ rest)) as ->.
    { rewrite E. simpl. unfold is_digit in Hc. destruct (Z.eqb_spec (code c) 45); [lia|done]. }
    rewrite scan_digits_decimal by (lia || done). cbn [mbind option_bind]. rewrite Hf, He.
    by destruct (decimal_digits z Hz) as [_ ->].
Qed.

(** ** Float literals are read back *)

Lemma while_app s rest : ends_value rest = true ->
  take_while is_digit (s ++ rest) = take_while is_digit s /\ drop_while is_digit (s ++ rest) = drop_while is_digit s ++ rest.
Proof.
  intros Hr. induction s as [|c s IH]; [by apply ends_value_not_digit|]. simpl. destruct (is_digit c); [|done].
  destruct IH as [-> ->]. done.
Qed.

Lemma scan_sign_app c s rest : scan_sign ((c :: s) ++ rest) = (fst (scan_sign (c :: s)), snd (scan_sign (c :: s)) ++ rest).
Proof. simpl. by destruct (code c =? 45). Qed.

Lemma scan_digits_app s ds s' rest : ends_value rest = true -> scan_digits s = Some (ds, s') ->
  scan_digits (s ++ rest) = Some (ds, s' ++ rest).
Proof.
  intros Hr. destruct s as [|c s]; [done|]. cbn [app scan_digits]. destruct (code c =? 48); [by intros [= <- <-]|].
  destruct (is_digit c) eqn:Hc; [|done]. intros [= <- <-].
  destruct (while_app (c :: s) rest Hr) as [E1 E2]. cbn [app] in E1, E2. by rewrite E1, E2.
Qed.

Lemma ends_value_head c rest : ends_value (c :: rest) = true -> is_digit c = false /\ code c <> 43 /\ code c <> 45.
Proof. simpl. intros H. unfold is_digit. lia. Qed.

Lemma scan_fraction_app s rest : ends_value rest = true ->
  scan_fraction (s ++ rest) = (fst (scan_fraction s), snd (scan_fraction s) ++ rest).
Proof.
  intros Hr. destruct s as [|c [|d s]]; cbn [app]; [by destruct (no_fraction rest Hr) as [-> _]| |].
  - destruct rest as [|d rest]; [done|]. cbn [scan_fraction]. destruct (ends_value_head d rest Hr) as [-> _]. by rewrite andb_false_r.
  - cbn [scan_fraction]. destruct ((code c =? 46) && is_digit d) eqn:E; [|done]. cbn [drop].
    destruct (while_app (d :: s) rest Hr) as [E1 E2]. cbn [app] in E1, E2. rewrite E1, E2. done.
Qed.

Lemma scan_exponent_app s rest : ends_value rest = true ->
  scan_exponent (s ++ rest) = (fst (scan_exponent s), snd (scan_exponent s) ++ rest).
Proof.
  intros Hr. destruct s as [|c s]; cbn [app]; [by destruct (no_fraction rest Hr) as [_ ->]|].
  assert (Hdigits : forall u, match u ++ rest with d :: _ => is_digit d | [] => false end = match u with d :: _ => is_digit d | [] => false end).
  { intros [|d u]; [|done]. destruct rest as [|d r]; [done|]. simpl. by destruct (ends_value_head d r Hr). }
  cbn [scan_exponent]. destruct ((code c =? 101) || (code c =? 69)); [|done].
  assert (Hsign : exists sign u, match s with d :: rest' => if (code d =? 43) || (code d =? 45) then ([d], rest') else ([], s) | [] => ([], s) end = (sign, u)
    /\ match s ++ rest with d :: rest' => if (code d =? 43) || (code d =? 45) then ([d], rest') else ([], s ++ rest) | [] => ([], s ++ rest) end = (sign, u ++ rest)).
  { destruct s as [|d s]; cbn [app]; [|destruct ((code d =? 43) || (code d =? 45)); eauto]. exists [], []. split; [done|].
    destruct rest as [|d r]; [done|]. destruct (ends_value_head d r Hr) as (_ & H1 & H2).
    by rewrite (proj2 (Z.eqb_neq _ _) H1), (proj2 (Z.eqb_neq _ _) H2). }
  destruct Hsign as (sign & u & -> & ->). specialize (Hdigits u). destruct (while_app u rest Hr) as [E1 E2].
  destruct u as [|d u]; cbn [app] in *; [|rewrite E1, E2; by destruct (is_digit d)].
  destruct rest as [|d r]; [done|]. by rewrite Hdigits.
Qed.

Lemma scan_number_app t v rest : ends_value rest = true -> scan_number t = Some (v, []) -> scan_number (t ++ rest) = Some (v, rest).
Proof.
  intros Hr. destruct t as [|c t]; [done|]. unfold scan_number. rewrite scan_sign_app. destruct (scan_sign (c :: t)) as [sign s1]. cbn [fst snd].
  destruct (scan_digits s1) as [[ds s2]|] eqn:Ed; [|done]. rewrite (scan_digits_app _ _ _ _ Hr Ed). cbn [mbind option_bind].
  rewrite scan_fraction_app by done. destruct (scan_fraction s2) as [fr s3]. cbn [fst snd].
  rewrite scan_exponent_app by done. destruct (scan_exponent s3) as [ex s4]. cbn [fst snd].
  destruct fr, ex; by intros [= <- ->].
Qed.

Lemma float_literal_scan t rest : float_literal t = true -> ends_value rest = true -> scan_number (t ++ rest) = Some (JFloat t, rest).
Proof.
  unfold float_literal. intros Ht Hr. destruct (scan_number t) as [[v u]|] eqn:E; [|done].
  destruct v; try done. destruct u; [|done]. apply bool_decide_eq_true in Ht as ->. by apply scan_number_app.
Qed.

(** A literal starts with a digit, or with a sign and a digit. *)
Lemma float_literal_head t : float_literal t = true ->
  exists c u, t = c :: u /\ (is_digit c = true \/ code c = 45 /\ exists d u', u = d :: u' /\ is_digit d = true).
Proof.
  unfold float_literal, scan_number. destruct t as [|c t]; [done|]. simpl. intros Ht. exists c, t. split; [done|].
  assert (Hd : forall s, scan_digits s <> None -> exists d u, s = d :: u /\ is_digit d = true).
  { intros [|d u]; [done|]. intros Hs. exists d, u. split; [done|]. cbn [scan_digits] in Hs. unfold is_digit in *.
    destruct (Z.eqb_spec (code d) 48); [lia|]. by destruct (_ && _). }
  destruct (Z.eqb_spec (code c) 45); [right|left].
  - split; [done|]. destruct (scan_digits t) eqn:E; [|done]. apply Hd. by rewrite E.
  - destruct (scan_digits (c :: t)) as [[]|] eqn:E; [|done]. destruct (Hd (c :: t)) as (d & u & [= -> ->] & ?); [|done]. by rewrite E.
Qed.

(** ** Values are read back *)

Lemma startswith_head p q c t : code p <> code c -> startswith (p :: q) (c :: t) = false.
Proof. intros H. simpl. destruct (is_char p c) eqn:E; [|done]. apply is_char_true in E. by subst. Qed.

Lemma scan_name_int z rest : scan_name (print_int z ++ rest) = None.
Proof.
  unfold print_int. destruct (Z.ltb_spec z 0) as [Hz|Hz].
  - destruct (decimal_head (- z) ltac:(lia)) as (c & ds & -> & Hc & _). unfold is_digit in Hc.
    unfold scan_name. cbn [app]. change (startswith (lit "-Infinity") ("-"%char :: c :: ds ++ rest))
      with (startswith ("I"%char :: lit "nfinity") (c :: ds ++ rest)).
    rewrite (startswith_head "I"%char _ c) by (intros E; rewrite <-E in Hc; discriminate). done.
  - destruct (decimal_head z Hz) as (c & ds & -> & Hc & _). unfold is_digit in Hc.
    unfold scan_name, lit. cbn [app String.list_ascii_of_string].
    rewrite !startswith_head; [done| | | | | |]; intros E; rewrite <-E in Hc; discriminate.
Qed.

Lemma scan_name_float t rest : float_literal t = true -> scan_name (t ++ rest) = None.
Proof.
  intros (c & u & -> & Hc)%float_literal_head. unfold scan_name, lit. cbn [app String.list_ascii_of_string].
  destruct Hc as [Hc|[Hc (d & u' & -> & Hd)]]; unfold is_digit in *; rewrite !(startswith_head _ _ c) by (intros E; rewrite <-E in Hc; (discriminate || lia)).
  - done.
  - cbn [startswith app]. destruct (is_char "-" c); [|done]. cbn [andb].
    destruct (is_char "I" d) eqn:Ei; [|done]. apply is_char_true in Ei as <-. discriminate.
Qed.

(** The first character of a printed value. *)
Definition opens_value (c : ascii) : bool :=
  negb (is_json_space c) && negb (code c =? 93) && negb (code c =? 125).

Lemma print_int_head z : exists c t, print_int z = c :: t /\ (code c = 45 \/ is_digit c = true).
Proof.
  unfold print_int. destruct (Z.ltb_spec z 0) as [Hz|Hz]; [exists "-"%char; eauto|].
  destruct (decimal_head z Hz) as (c & ds & -> & Hc & _). eauto.
Qed.

Lemma print_head v : exact_value v = true -> exists c t, print_json v = c :: t /\ opens_value c = true.
Proof.
  destruct v as [|[]|z|f|s|l|l]; intros Hv; try discriminate; try (eexists _, _; split; [reflexivity|done]).
  - destruct (print_int_head z) as (c & t & E & Hc). exists c, t. split; [exact E|].
    unfold opens_value, is_json_space. unfold is_digit in Hc. lia.
  - destruct (float_literal_head f Hv) as (c & t & -> & Hc). exists c, t. split; [done|].
    unfold opens_value, is_json_space. unfold is_digit in Hc. lia.
Qed.

Lemma skip_ws_print v rest : exact_value v = true -> skip_ws (print_json v ++ rest) = print_json v ++ rest.
Proof.
  intros (c & t & -> & Hc)%print_head. unfold opens_value in Hc. cbn [app skip_ws drop_while].
  unfold skip_ws. cbn [drop_while]. by destruct (is_json_space c).
Qed.

(** [v] is read back from its text whenever the fuel exceeds its length. *)
Definition reads_back (v : json) : Prop := forall fuel rest,
  (length (print_json v) < fuel)%nat -> ends_value rest = true ->
  parse_value fuel (print_json v ++ rest) = Some (v, rest).

Lemma join_cons2 sep x y l : join sep (x :: y :: l) = x ++ sep ++ join sep (y :: l).
Proof. done. Qed.

Lemma join_one sep x : join sep [x] = x.
Proof. done. Qed.

Lemma join_head (x : text) (l : list text) c t : x = c :: t -> exists u, join (lit ",") (x :: l) = c :: u.
Proof. intros ->. destruct l; simpl; eauto. Qed.

Lemma elements_head x l t : exact_value x = true ->
  skip_ws (join (lit ",") (map print_json (x :: l)) ++ t) = join (lit ",") (map print_json (x :: l)) ++ t.
Proof. intros Hx. cbn [map]. destruct (map print_json l); simpl; rewrite <-?app_assoc; by apply skip_ws_print. Qed.

Lemma elements_back x l : Forall (fun v => exact_value v = true /\ reads_back v) (x :: l) -> forall fuel rest,
  (length (join (lit ",") (map print_json (x :: l))) + 1 < fuel)%nat ->
  parse_elements fuel (join (lit ",") (map print_json (x :: l)) ++ lit "]" ++ rest) = Some (x :: l, rest).
Proof.
  revert x. induction l as [|y l IH]; intros x Hall fuel rest Hf; inversion_clear Hall as [|?? [Hx Rx] Hl];
    (destruct fuel as [|fuel]; [lia|]); cbn [parse_elements].
  - rewrite Rx by (simpl in Hf |- *; done || lia). done.
  - cbn [map] in Hf |- *. rewrite join_cons2 in Hf |- *. rewrite !length_app in Hf. change (length (lit ",")) with 1%nat in Hf.
    rewrite <-!app_assoc, Rx by (done || lia). cbn [mbind option_bind].
    change (skip_ws (lit "," ++ ?r)) with (","%char :: r). cbv iota.
    change (code "," =? 93) with false. change (code "," =? 44) with true. cbv iota.
    assert (exact_value y = true) as Hy by (by inversion_clear Hl as [|?? []]).
    change (print_json y :: map print_json l) with (map print_json (y :: l)) in *.
    rewrite elements_head, (IH y Hl) by (done || lia). done.
Qed.

Definition print_member (m : text * json) : text := print_string m.1 ++ lit ":" ++ print_json m.2.

Lemma print_members l :
  map (fun '(k, x) => print_string k ++ lit ":" ++ print_json x) l = map print_member l.
Proof. apply map_ext. by intros []. Qed.

Lemma print_string_app k t : print_string k ++ t = quote :: concat (escape <$> k) ++ quote :: t.
Proof. unfold print_string. simpl. by rewrite <-app_assoc. Qed.

Lemma members_head m l t :
  skip_ws (join (lit ",") (map print_member (m :: l)) ++ t) = join (lit ",") (map print_member (m :: l)) ++ t.
Proof. cbn [map]. by destruct (map print_member l). Qed.

Lemma members_back m l :
  Forall (fun m => exact_value m.2 = true /\ reads_back m.2) (m :: l) -> forall fuel rest,
  (length (join (lit ",") (map print_member (m :: l))) + 1 < fuel)%nat ->
  parse_members fuel (join (lit ",") (map print_member (m :: l)) ++ lit "}" ++ rest) = Some (m :: l, rest).
Proof.
  revert m. induction l as [|y l IH]; intros [k v] Hall fuel rest Hf; inversion_clear Hall as [|?? [Hx Rx] Hl];
    (destruct fuel as [|fuel]; [lia|]); cbn [map] in Hf |- *; rewrite ?join_cons2, ?join_one in Hf |- *;
    unfold print_member at 1 in Hf; unfold print_member at 1; cbn [fst snd] in *;
    rewrite !length_app in Hf; change (length (lit ":")) with 1%nat in Hf; rewrite <-!app_assoc, print_string_app;
    cbn [parse_members]; rewrite scan_print; change (code quote =? 34) with true; cbn [mbind option_bind];
    change (skip_ws (lit ":" ++ ?r)) with (":"%char :: r); change (code ":" =? 58) with true; cbv iota;
    rewrite skip_ws_print by done.
  - rewrite Rx by (done || lia). done.
  - change (length (lit ",")) with 1%nat in Hf. rewrite Rx by (done || lia). cbn [mbind option_bind].
    change (skip_ws (lit "," ++ ?r)) with (","%char :: r). cbv iota.
    change (code "," =? 125) with false. change (code "," =? 44) with true. cbv iota.
    change (print_member y :: map print_member l) with (map print_member (y :: l)) in *.
    rewrite members_head, (IH y Hl) by lia. done.
Qed.

Lemma forallb_Forall_and {A} (f : A -> bool) (P : A -> Prop) l :
  Forall (fun x => f x = true -> P x) l -> forallb f l = true -> Forall (fun x => f x = true /\ P x) l.
Proof. induction 1; simpl; intros Hf; [done|]. apply andb_prop in Hf as [? ?]. auto. Qed.

Lemma exact_members (l : list (text * json)) : forallb (fun '(_, x) => exact_value x) l = forallb (fun m => exact_value m.2) l.
Proof. induction l as [|[] l IH]; simpl; congruence. Qed.

Lemma print_back v : exact_value v = true -> reads_back v.
Proof.
  induction v as [|b|z|f|s|l IH|l IH] using json_nested_ind; intros Hv fuel rest Hf Hr; try discriminate;
    (destruct fuel as [|fuel]; [lia|]).
  - done.
  - by destruct b.
  - destruct (print_int_head z) as (c & t & E & Hc). unfold is_digit in Hc. cbn [print_json].
    pose proof (scan_name_int z rest) as Hn. pose proof (scan_print_int z rest Hr) as Hs.
    rewrite E in Hn, Hs |- *. cbn [app parse_value] in *.
    rewrite (proj2 (Z.eqb_neq (code c) 34)), (proj2 (Z.eqb_neq (code c) 91)), (proj2 (Z.eqb_neq (code c) 123)) by lia.
    by rewrite Hn, Hs.
  - cbn [print_json]. pose proof (scan_name_float f rest Hv) as Hn. pose proof (float_literal_scan f rest Hv Hr) as Hs.
    destruct (float_literal_head f Hv) as (c & t & E & Hc). unfold is_digit in Hc. rewrite E in Hn, Hs |- *. cbn [app parse_value] in *.
    rewrite (proj2 (Z.eqb_neq (code c) 34)), (proj2 (Z.eqb_neq (code c) 91)), (proj2 (Z.eqb_neq (code c) 123)) by lia.
    by rewrite Hn, Hs.
  - cbn [print_json]. rewrite print_string_app. cbn [parse_value]. change (code quote =? 34) with true. cbv iota.
    by rewrite scan_print.
  - destruct l as [|x l]; [done|]. apply (forallb_Forall_and _ _ _ IH) in Hv as Hall.
    assert (exact_value x = true) as Hx by (by inversion_clear Hall as [|?? []]).
    cbn [print_json] in *. rewrite !length_app in Hf. change (length (lit "[")) with 1%nat in Hf.
    change (length (lit "]")) with 1%nat in Hf.
    rewrite <-!app_assoc. change (lit "[" ++ ?r) with ("["%char :: r). cbn [parse_value].
    change (code "[" =? 34) with false. change (code "[" =? 91) with true. cbv iota.
    rewrite elements_head by done. rewrite (elements_back x l Hall) by lia.
    destruct (print_head x Hx) as (c & t & E & Hc).
    destruct (join_head (print_json x) (map print_json l) c t E) as [u Hu].
    cbn [map]. rewrite Hu. cbn [app]. unfold opens_value in Hc.
    by rewrite (proj2 (Z.eqb_neq (code c) 93)) by lia.
  - destruct l as [|m l]; [done|]. cbn [exact_value] in Hv. rewrite exact_members in Hv.
    apply (forallb_Forall_and _ _ _ IH) in Hv as Hall.
    cbn [print_json] in *. rewrite print_members in *. rewrite !length_app in Hf.
    change (length (lit "{")) with 1%nat in Hf. change (length (lit "}")) with 1%nat in Hf.
    rewrite <-!app_assoc. change (lit "{" ++ ?r) with ("{"%char :: r). cbn [parse_value].
    change (code "{" =? 34) with false. change (code "{" =? 91) with false. change (code "{" =? 123) with true. cbv iota.
    rewrite members_head. rewrite (members_back m l Hall) by lia.
    destruct (join_head (print_member m) (map print_member l) quote _ eq_refl) as [u Hu].
    cbn [map]. rewrite Hu. done.
Qed.

(** [json.loads] reads back the value [json.dumps] wrote, keys in the written order. *)
Lemma loads_print v : exact_value v = true -> loads (print_json v) = Some v.
Proof.
  intros Hv. unfold loads. rewrite <-(app_nil_r (print_json v)) at 2.
  rewrite skip_ws_print, print_back by (done || lia). done.
Qed.

(** ** UTF-8 *)

Definition encode_char (c : ascii) : text :=
  if code c <? 128 then [c]
  else [ascii_of_N (Z.to_N (192 + code c / 64)); ascii_of_N (Z.to_N (128 + code c mod 64))].

(** [t.encode("utf-8")] of code points below 256. *)
Definition encode_utf8 (t : text) : text := concat (encode_char <$> t).

(** [raw.decode("utf-8")], for the two-byte sequences of the code points 128 to 255;
    any other lead byte is an error here. *)
Fixpoint decode_utf8 (raw : text) : option text :=
  match raw with
  | [] => Some []
  | a :: rest =>
    if code a <? 128 then t ← decode_utf8 rest; Some (a :: t)
    else if (194 <=? code a) && (code a <=? 195) then
      match rest with
      | b :: rest' =>
        if (128 <=? code b) && (code b <=? 191) then
          t ← decode_utf8 rest'; Some (ascii_of_N (Z.to_N (64 * (code a - 192) + (code b - 128))) :: t)
        else None
      | [] => None
      end
    else None
  end.

Lemma decode_encode_utf8 t : decode_utf8 (encode_utf8 t) = Some t.
Proof.
  unfold encode_utf8. induction t as [|c t IH]; [done|]. cbn [fmap list_fmap concat].
  assert (forall r, decode_utf8 (encode_char c ++ r) = (t ← decode_utf8 r; Some (c :: t))) as ->; [|by rewrite IH].
  intros r. destruct c as [[] [] [] [] [] [] [] []]; reflexivity.
Qed.

(** Printable ASCII, the only characters the encoder writes. *)
Definition printable (c : ascii) : bool := (32 <=? code c) && (code c <=? 126).

Lemma encode_utf8_ascii t : forallb printable t = true -> encode_utf8 t = t.
Proof.
  unfold encode_utf8. induction t as [|c t IH]; [done|]. cbn [forallb fmap list_fmap concat].
  intros [Hc Ht]%andb_prop. unfold printable in Hc. unfold encode_char at 1.
  rewrite (proj2 (Z.ltb_lt (code c) 128)) by lia. cbn [app]. f_equal. by apply IH.
Qed.

Lemma escape_printable c : forallb printable (escape c) = true.
Proof. destruct c as [[] [] [] [] [] [] [] []]; reflexivity. Qed.

Lemma print_string_printable s : forallb printable (print_string s) = true.
Proof.
  unfold print_string. simpl. rewrite forallb_app. apply andb_true_intro. split; [|done].
  induction s as [|c s IH]; [done|]. simpl. by rewrite forallb_app, escape_printable.
Qed.

Lemma digits_printable ds : forallb is_digit ds = true -> forallb printable ds = true.
Proof.
  induction ds as [|c ds IH]; [done|]. simpl. intros [Hc Hd]%andb_prop. rewrite IH by done.
  unfold is_digit in Hc. unfold printable. lia.
Qed.

Lemma print_int_printable z : forallb printable (print_int z) = true.
Proof.
  unfold print_int. destruct (Z.ltb_spec z 0) as [Hz|Hz]; simpl;
    apply digits_printable, decimal_digits; lia.
Qed.

Lemma take_while_printable s : forallb printable (take_while is_digit s) = true.
Proof. apply digits_printable. induction s as [|c s IH]; [done|]. simpl. destruct (is_digit c) eqn:E; [|done]. simpl. by rewrite E. Qed.

Lemma printable_code c z : code c = z -> 32 <= z <= 126 -> printable c = true.
Proof. unfold printable. lia. Qed.

Lemma scan_parts_printable s :
  forallb printable (fst (scan_sign s)) = true /\ forallb printable (fst (scan_fraction s)) = true
  /\ forallb printable (fst (scan_exponent s)) = true /\ forall ds s', scan_digits s = Some (ds, s') -> forallb printable ds = true.
Proof.
  split_and!.
  - destruct s as [|c s]; [done|]. simpl. destruct (Z.eqb_spec (code c) 45) as [E|]; [|done]. simpl. by rewrite (printable_code c _ E).
  - destruct s as [|c [|d s]]; [done..|]. cbn [scan_fraction]. destruct (Z.eqb_spec (code c) 46) as [E|]; [|done]. destruct (is_digit d); [|done].
    cbn [andb fst forallb]. by rewrite (printable_code c _ E), take_while_printable.
  - destruct s as [|c s]; [done|]. cbn [scan_exponent]. destruct ((code c =? 101) || (code c =? 69)) eqn:E; [|done].
    assert (printable c = true) as Hc by (unfold printable; lia).
    destruct s as [|d s]; [done|]. destruct ((code d =? 43) || (code d =? 45)) eqn:Ed.
    + assert (printable d = true) as Hd by (unfold printable; lia). destruct s as [|x s]; [done|]. destruct (is_digit x); [|done].
      cbn [fst forallb app]. by rewrite Hc, Hd, take_while_printable.
    + destruct (is_digit d); [|done]. cbn [fst forallb app]. by rewrite Hc, take_while_printable.
  - destruct s as [|c s]; [done|]. cbn [scan_digits]. destruct (Z.eqb_spec (code c) 48) as [E|].
    + intros ? ? [= <- <-]. simpl. by rewrite (printable_code c _ E).
    + pose proof (take_while_printable (c :: s)) as Ht. destruct (is_digit c); [|done]. intros ? ? [= <- <-]. exact Ht.
Qed.

Lemma float_literal_printable t : float_literal t = true -> forallb printable t = true.
Proof.
  unfold float_literal, scan_number. destruct (scan_parts_printable t) as (Hs & _). destruct (scan_sign t) as [sign s1]. cbn [fst] in Hs.
  destruct (scan_parts_printable s1) as (_ & _ & _ & Hd). destruct (scan_digits s1) as [[ds s2]|]; [|done]. specialize (Hd _ _ eq_refl). cbn [mbind option_bind].
  destruct (scan_parts_printable s2) as (_ & Hf & _). destruct (scan_fraction s2) as [fr s3]. cbn [fst] in Hf.
  destruct (scan_parts_printable s3) as (_ & _ & He & _). destruct (scan_exponent s3) as [ex s4]. cbn [fst] in He.
  destruct fr, ex; try done; (destruct s4; [|done]); intros <-%bool_decide_eq_true; by rewrite !forallb_app, Hs, Hd, ?Hf, ?He.
Qed.

Lemma join_printable l : Forall (fun t => forallb printable t = true) l ->
  forallb printable (join (lit ",") l) = true.
Proof.
  induction l as [|x l IH]; intros Hl; [done|]. inversion_clear Hl as [|?? Hx Hr].
  destruct l as [|y l]; [done|]. rewrite join_cons2, !forallb_app, Hx. exact (IH Hr).
Qed.

Lemma print_json_printable v : exact_value v = true -> forallb printable (print_json v) = true.
Proof.
  induction v as [|b|z|f|s|l IH|l IH] using json_nested_ind; intros Hv; try discriminate.
  - done.
  - by destruct b.
  - apply print_int_printable.
  - by apply float_literal_printable.
  - apply print_string_printable.
  - cbn [print_json]. rewrite !forallb_app. rewrite join_printable; [done|].
    apply (forallb_Forall_and _ _ _ IH) in Hv. apply Forall_map. eapply Forall_impl; [exact Hv|]. by intros x [_ ?].
  - cbn [print_json exact_value] in *. rewrite exact_members in Hv. rewrite print_members, !forallb_app.
    rewrite join_printable; [done|]. apply (forallb_Forall_and _ _ _ IH) in Hv. apply Forall_map.
    eapply Forall_impl; [exact Hv|]. intros [k x] [_ Hx]. unfold print_member.
    rewrite !forallb_app, print_string_printable. exact Hx.
Qed.

(** A value written as UTF-8 bytes is read back. *)
Lemma loads_encoded v : exact_value v = true -> decode_utf8 (encode_utf8 (print_json v)) ≫= loads = Some v.
Proof. intros Hv. rewrite decode_encode_utf8. by apply loads_print. Qed.

(** ** Values as Python objects

    A decoded value is a Python object: [None], a [bool], an [int], a [float]
    given by its [repr], a [str], a [list] or a [dict] with [str] keys. *)

Definition single_quote : ascii := ascii_of_N 39.

(** Characters below 256 that [str.isprintable] rejects. *)
Definition unprintable (z : Z) : bool := (z <? 32) || ((127 <=? z) && (z <=? 160)) || (z =? 173).

Definition repr_char (delimiter c : ascii) : text :=
  let z := code c in
  if bool_decide (c = delimiter) || (z =? 92) then [backslash; c]
  else if z =? 9 then backslash :: lit "t"
  else if z =? 10 then backslash :: lit "n"
  else if z =? 13 then backslash :: lit "r"
  else if unprintable z then backslash :: lit "x" ++ [hex_char (z / 16); hex_char (z mod 16)]
  else [c].

(** [repr] of a string: double quotes only when that avoids escapes. *)
Definition repr_str (s : text) : text :=
  let delimiter := if bool_decide (single_quote ∈ s /\ quote ∉ s) then quote else single_quote in
  delimiter :: concat (repr_char delimiter <$> s) ++ [delimiter].

Fixpoint py_repr (v : json) : text :=
  match v with
  | JNull => lit "None"
  | JBool true => lit "True"
  | JBool false => lit "False"
  | JInt z => print_int z
  | JFloat t => t
  | JStr s => repr_str s
  | JList l => lit "[" ++ join (lit ", ") (map py_repr l) ++ lit "]"
  | JObj members => lit "{" ++ join (lit ", ") (map (fun '(k, x) => repr_str k ++ lit ": " ++ py_repr x) members) ++ lit "}"
  end.

(** [str(value)]. *)
Definition str_of (v : json) : text := match v with JStr s => s | _ => py_repr v end.

(** [bool(value)]; the zeros are the only false floats. *)
Definition py_truthy (v : json) : bool :=
  match v with
  | JNull => false
  | JBool b => b
  | JInt z => negb (z =? 0)
  | JFloat t => negb (bool_decide (t = lit "0.0" \/ t = lit "-0.0"))
  | JStr s => negb (bool_decide (s = []))
  | JList l => match l with [] => false | _ => true end
  | JObj members => match members with [] => false | _ => true end
  end.

(** [value or default]. *)
Definition py_or (v : option json) (default : json) : json :=
  match v with Some x => if py_truthy x then x else default | None => default end.

(** [list(value)]: a dict gives its keys, a string its characters. *)
Definition py_list (v : json) : result (list json) :=
  match v with
  | JList l => Ok l
  | JObj members => Ok ((fun m => JStr m.1) <$> members)
  | JStr s => Ok ((fun c => JStr [c]) <$> s)
  | JNull | JBool _ | JInt _ | JFloat _ => Err TypeError
  end.

Definition is_dict (v : json) : bool := match v with JObj _ => true | _ => false end.

(** [value.get(key)] of a dict. *)
Definition dict_get (v : json) (key : text) : option json :=
  match v with JObj members => get members key | _ => None end.

(** ** Sorted keys *)

Lemma exact_sorted l : forallb (fun m => exact_value m.2) (Seq.sorted key_leb l) = forallb (fun m => exact_value m.2) l.
Proof.
  apply eq_true_iff_eq. rewrite !forallb_forall. pose proof (Seq.sorted_Permutation key_leb l) as Hp.
  split; intros H m Hm; apply H; rewrite <-list_elem_of_In in *; by rewrite Hp in *.
Qed.

Lemma exact_sort_keys v : exact_value (sort_keys v) = exact_value v.
Proof.
  induction v as [|b|z|f|s|l IH|l IH] using json_nested_ind; [done..| |]; cbn [sort_keys exact_value].
  - induction IH as [|x l Hx _ IHl]; [done|]. simpl. by rewrite Hx, IHl.
  - rewrite !exact_members, exact_sorted. induction IH as [|[k x] l Hx _ IHl]; [done|]. simpl in *. by rewrite Hx, IHl.
Qed.

(** [json.loads(json.dumps(v, sort_keys=True))]. *)
Lemma loads_dumps v : exact_value v = true -> loads (dumps v) = Some (sort_keys v).
Proof. intros Hv. unfold dumps. apply loads_print. by rewrite exact_sort_keys. Qed.

(** ** Members of a dict *)

(** [d[key] = value]: an existing key keeps its place. *)
Fixpoint member_set (key : text) (v : json) (l : list (text * json)) : list (text * json) :=
  match l with
  | [] => [(key, v)]
  | (k, x) :: l' => if bool_decide (k = key) then (k, v) :: l' else (k, x) :: member_set key v l'
  end.

(** [d.pop(key, None)]. *)
Definition member_pop (key : text) (l : list (text * json)) : list (text * json) :=
  List.filter (fun m => negb (bool_decide (m.1 = key))) l.

(** The dict that [json.loads] makes of the members it meets. *)
Definition dict_of (l : list (text * json)) : list (text * json) := foldl (fun d m => member_set m.1 m.2 d) [] l.

(** Every object of a decoded value becomes a dict. *)
Fixpoint as_dicts (v : json) : json :=
  match v with
  | JList l => JList (map as_dicts l)
  | JObj l => JObj (dict_of (map (fun '(k, x) => (k, as_dicts x)) l))
  | _ => v
  end.

(** Keys are distinct in every dict. *)
Fixpoint distinct_keys (v : json) : Prop :=
  match v with
  | JList l => foldr (fun x P => distinct_keys x /\ P) True l
  | JObj l => NoDup l.*1 /\ foldr (fun m P => distinct_keys m.2 /\ P) True l
  | _ => True
  end.

Lemma get_elem l k v : NoDup l.*1 -> (k, v) ∈ l <-> get l k = Some v.
Proof.
  revert v. induction l as [|[k' v'] l IH]; intros v; simpl; [by split; [intros ?%elem_of_nil|]|]. rewrite NoDup_cons. intros [Hn Hl].
  rewrite elem_of_cons, IH by done. split.
  - intros [[= -> ->]|E]; [|by rewrite E]. case_eq (get l k'); [intros w E|by rewrite bool_decide_eq_true_2].
    exfalso. apply Hn. apply (IH w Hl) in E. by apply (list_elem_of_fmap_2 fst) in E.
  - case_eq (get l k); [by right|intros E]. case_bool_decide; [|done]. intros [= <-]. subst. by left.
Qed.

Lemma get_None l k : get l k = None <-> k ∉ l.*1.
Proof.
  induction l as [|[k' v'] l IH]; simpl; [split; [intros _; apply not_elem_of_nil|done]|].
  rewrite not_elem_of_cons. destruct (get l k); [split; [done|]; intros [_ H]; by apply IH in H|].
  case_bool_decide; [split; [done|]; intros []; congruence|]. split; [intros _; split; [congruence|by apply IH]|done].
Qed.

Lemma get_Permutation l l' k : NoDup l.*1 -> l ≡ₚ l' -> get l k = get l' k.
Proof.
  intros Hl Hp. assert (NoDup l'.*1) as Hl' by (by rewrite <-Hp).
  destruct (get l' k) as [v|] eqn:E; [apply get_elem; [done|]; rewrite Hp; by apply get_elem|].
  apply get_None. rewrite Hp. by apply get_None.
Qed.

Lemma keys_member_set k v l : (member_set k v l).*1 = if bool_decide (k ∈ l.*1) then l.*1 else l.*1 ++ [k].
Proof.
  induction l as [|[k' x] l IH]; [done|]. cbn [member_set]. rewrite fmap_cons. cbn [fst]. destruct (decide (k' = k)) as [->|Hne].
  - rewrite !bool_decide_eq_true_2; [done|by left|done].
  - rewrite (bool_decide_eq_false_2 (k' = k)) by done. rewrite fmap_cons, IH. cbn [fst].
    rewrite (bool_decide_ext (k ∈ k' :: l.*1) (k ∈ l.*1)) by (rewrite elem_of_cons; naive_solver). by case_bool_decide.
Qed.

Lemma NoDup_member_set k v l : NoDup l.*1 -> NoDup (member_set k v l).*1.
Proof.
  rewrite keys_member_set. case_bool_decide; [done|]. intros Hl. apply NoDup_app. split_and!; [done| |apply NoDup_singleton].
  by intros x Hx ->%list_elem_of_singleton.
Qed.

Lemma NoDup_dict_of l : NoDup (dict_of l).*1.
Proof.
  unfold dict_of. assert (forall d, NoDup d.*1 -> NoDup (foldl (fun d m => member_set m.1 m.2 d) d l).*1) as H; [|apply H; constructor].
  induction l as [|m l IH]; intros d Hd; [done|]. simpl. apply IH. by apply NoDup_member_set.
Qed.

Lemma get_member_set k v l k' : NoDup l.*1 -> get (member_set k v l) k' = if bool_decide (k = k') then Some v else get l k'.
Proof.
  induction l as [|[j x] l IH]; cbn [member_set get]; [done|]. rewrite fmap_cons, NoDup_cons. cbn [fst]. intros [Hn Hl].
  destruct (decide (j = k)) as [->|Hne].
  - rewrite (bool_decide_eq_true_2 (k = k)) by done. cbn [get]. destruct (decide (k = k')) as [->|]; [|by rewrite (bool_decide_eq_false_2 (k = k'))].
    by rewrite (proj2 (get_None l k') Hn), !bool_decide_eq_true_2.
  - rewrite (bool_decide_eq_false_2 (j = k)) by done. cbn [get]. rewrite (IH Hl). by case_bool_decide.
Qed.

Lemma get_member_pop k l k' : get (member_pop k l) k' = if bool_decide (k = k') then None else get l k'.
Proof.
  unfold member_pop. induction l as [|[j x] l IH]; simpl; [by case_bool_decide|]. destruct (decide (j = k)) as [->|Hne].
  - rewrite (bool_decide_eq_true_2 (k = k)) by done. cbn [negb]. rewrite IH. case_bool_decide; [done|]. by destruct (get l k').
  - rewrite (bool_decide_eq_false_2 (j = k)) by done. cbn [negb get]. rewrite IH. case_bool_decide as E; [|done]. subst k'.
    by rewrite bool_decide_eq_false_2.
Qed.

Lemma member_pop_elem k l m : m ∈ member_pop k l <-> m ∈ l /\ m.1 <> k.
Proof. unfold member_pop. by rewrite list_elem_of_In, filter_In, <-list_elem_of_In, negb_true_iff, bool_decide_eq_false. Qed.

Lemma NoDup_member_pop k l : NoDup l.*1 -> NoDup (member_pop k l).*1.
Proof.
  unfold member_pop. induction l as [|[j x] l IH]; [done|]. rewrite fmap_cons, NoDup_cons. cbn [fst List.filter]. intros [Hn Hl].
  case_bool_decide; [by apply IH|]. cbn [negb]. rewrite fmap_cons, NoDup_cons. split; [|by apply IH].
  cbn [fst]. intros (m & E & Hm)%list_elem_of_fmap. apply Hn. rewrite E. apply list_elem_of_fmap_2.
  by apply (member_pop_elem k l m) in Hm as [? _].
Qed.

Lemma member_set_elem k v l m : m ∈ member_set k v l -> m = (k, v) \/ m ∈ l.
Proof.
  induction l as [|[j x] l IH]; cbn [member_set]; [intros ->%list_elem_of_singleton; by left|].
  case_bool_decide as E; intros [->|Hm]%elem_of_cons; [subst; by left|right; by right|right; by left|].
  destruct (IH Hm) as [->|?]; [by left|right; by right].
Qed.

Lemma member_set_fresh k v l : k ∉ l.*1 -> member_set k v l = l ++ [(k, v)].
Proof.
  induction l as [|[j x] l IH]; [done|]. rewrite fmap_cons, not_elem_of_cons. cbn [fst member_set]. intros [Hne Hl].
  rewrite bool_decide_eq_false_2 by congruence. by rewrite IH.
Qed.

Lemma dict_of_id l : NoDup l.*1 -> dict_of l = l.
Proof.
  unfold dict_of. enough (forall d, NoDup (d ++ l).*1 -> foldl (fun d m => member_set m.1 m.2 d) d l = d ++ l) as H by (intros ?; by apply (H [])).
  induction l as [|[k v] l IH]; intros d Hd; [by rewrite app_nil_r|]. simpl. rewrite member_set_fresh.
  - rewrite IH, <-(assoc_L app); [done|]. by rewrite <-(assoc_L app).
  - rewrite fmap_app in Hd. apply NoDup_app in Hd as (_ & Hd & _). intros Hk. apply (Hd k Hk). by left.
Qed.

Lemma foldr_and {A} (P : A -> Prop) l : foldr (fun x Q => P x /\ Q) True l <-> Forall P l.
Proof. induction l as [|x l IH]; simpl; [done|]. by rewrite Forall_cons, IH. Qed.

Lemma as_dicts_keys (l : list (text * json)) : (map (fun '(k, x) => (k, as_dicts x)) l).*1 = l.*1.
Proof. induction l as [|[k x] l IH]; [done|]. simpl. f_equal. exact IH. Qed.

Lemma as_dicts_id v : distinct_keys v -> as_dicts v = v.
Proof.
  induction v as [|b|z|f|s|l IH|l IH] using json_nested_ind; [done..| |]; cbn [distinct_keys as_dicts]; rewrite foldr_and.
  - intros Hl. f_equal. induction IH as [|x l Hx _ IHl]; [done|]. apply Forall_cons in Hl as [? ?]. simpl. f_equal; auto.
  - intros [Hn Hl]. assert (map (fun '(k, x) => (k, as_dicts x)) l = l) as ->; [|by rewrite dict_of_id].
    clear Hn. induction IH as [|[k x] l Hx _ IHl]; [done|]. apply Forall_cons in Hl as [? ?]. simpl in *. f_equal; [f_equal|]; auto.
Qed.

Lemma sort_keys_keys (l : list (text * json)) : (map (fun '(k, x) => (k, sort_keys x)) l).*1 = l.*1.
Proof. induction l as [|[k x] l IH]; [done|]. simpl. f_equal. exact IH. Qed.

Lemma distinct_sort_keys v : distinct_keys v -> distinct_keys (sort_keys v).
Proof.
  induction v as [|b|z|f|s|l IH|l IH] using json_nested_ind; [done..| |]; cbn [distinct_keys sort_keys]; rewrite !foldr_and.
  - intros Hl. apply Forall_map. induction IH as [|x l Hx _ IHl]; [done|]. apply Forall_cons in Hl as [? ?]. constructor; auto.
  - intros [Hn Hl]. split; [by rewrite Seq.sorted_Permutation, sort_keys_keys|]. rewrite Seq.sorted_Permutation. apply Forall_map.
    clear Hn. induction IH as [|[k x] l Hx _ IHl]; [done|]. apply Forall_cons in Hl as [? ?]. constructor; auto.
Qed.

Lemma distinct_as_dicts v : distinct_keys (as_dicts v).
Proof.
  induction v as [|b|z|f|s|l IH|l IH] using json_nested_ind; [done..| |]; cbn [distinct_keys as_dicts]; rewrite foldr_and.
  - by apply Forall_map.
  - split; [apply NoDup_dict_of|]. unfold dict_of.
    enough (forall d, Forall (fun m => distinct_keys m.2) d ->
      Forall (fun m => distinct_keys m.2) (foldl (fun d m => member_set m.1 m.2 d) d (map (fun '(k, x) => (k, as_dicts x)) l))) as H by (by apply H).
    induction IH as [|[k x] l Hx _ IHl]; intros d Hd; [done|]. apply IHl. rewrite Forall_forall in *. simpl in *.
    intros m [->|Hm]%member_set_elem; [done|]. by apply Hd.
Qed.

(** [json.loads], objects as dicts. *)
Definition loads_dicts (s : text) : option json := as_dicts <$> loads s.

Lemma loads_dicts_dumps v : exact_value v = true -> distinct_keys v -> loads_dicts (dumps v) = Some (sort_keys v).
Proof. intros Hv Hd. unfold loads_dicts. rewrite loads_dumps by done. simpl. by rewrite as_dicts_id by (by apply distinct_sort_keys). Qed.
