(* ===== verification/Sha256.v ===== *)
(** * Sha256: [hashlib.sha256(payload).hexdigest()]

    The digest of the standard library, on the byte strings of [PyLib].  The
    words are 32 bits wide and every addition is taken modulo [2 ^ 32]. *)

From Stdlib Require Import Ascii String.
From S2P Require Import Prelude PyLib.
Import Text.

#[local] Open Scope Z_scope.

Module Sha256.

Definition w32 (z : Z) : Z := z mod 2 ^ 32.

Definition rotr (n x : Z) : Z := Z.lor (Z.shiftr x n) (w32 (Z.shiftl x (32 - n))).

Definition K : list Z :=
  [1116352408; 1899447441; 3049323471; 3921009573; 961987163; 1508970993;
   2453635748; 2870763221; 3624381080; 310598401; 607225278; 1426881987;
   1925078388; 2162078206; 2614888103; 3248222580; 3835390401; 4022224774;
   264347078; 604807628; 770255983; 1249150122; 1555081692; 1996064986;
   2554220882; 2821834349; 2952996808; 3210313671; 3336571891; 3584528711;
   113926993; 338241895; 666307205; 773529912; 1294757372; 1396182291;
   1695183700; 1986661051; 2177026350; 2456956037; 2730485921; 2820302411;
   3259730800; 3345764771; 3516065817; 3600352804; 4094571909; 275423344;
   430227734; 506948616; 659060556; 883997877; 958139571; 1322822218;
   1537002063; 1747873779; 1955562222; 2024104815; 2227730452; 2361852424;
   2428436474; 2756734187; 3204031479; 3329325298].

Definition H0 : list Z := [1779033703; 3144134277; 1013904242; 2773480762; 1359893119; 2600822924; 528734635; 1541459225].

(** Big-endian bytes of the [n]-byte number [z]. *)
Fixpoint be_bytes (n : nat) (z : Z) : list Z :=
  match n with O => [] | S n' => be_bytes n' (Z.shiftr z 8) ++ [Z.land z 255] end.

(** The message, a one bit, zeros, and the bit length on eight bytes. *)
Definition pad (message : list Z) : list Z :=
  let len := Z.of_nat (length message) in
  message ++ [128] ++ replicate (Z.to_nat ((55 - len) mod 64)) 0 ++ be_bytes 8 (8 * len).

Fixpoint words (bytes : list Z) : list Z :=
  match bytes with
  | a :: b :: c :: d :: rest => Z.lor (Z.shiftl a 24) (Z.lor (Z.shiftl b 16) (Z.lor (Z.shiftl c 8) d)) :: words rest
  | _ => []
  end.

(** The message schedule, newest word first. *)
Fixpoint extend (n : nat) (w : list Z) : list Z :=
  match n with
  | O => w
  | S n' =>
    let x := nth 14 w 0 in let y := nth 1 w 0 in
    let s0 := Z.lxor (rotr 7 x) (Z.lxor (rotr 18 x) (Z.shiftr x 3)) in
    let s1 := Z.lxor (rotr 17 y) (Z.lxor (rotr 19 y) (Z.shiftr y 10)) in
    extend n' (w32 (nth 15 w 0 + s0 + nth 6 w 0 + s1) :: w)
  end.

Definition schedule (block : list Z) : list Z := rev (extend 48 (rev block)).

Definition round (h : list Z) (kw : Z * Z) : list Z :=
  match h with
  | [a; b; c; d; e; f; g; hh] =>
    let s1 := Z.lxor (rotr 6 e) (Z.lxor (rotr 11 e) (rotr 25 e)) in
    let ch := Z.lxor (Z.land e f) (Z.land (w32 (Z.lnot e)) g) in
    let t1 := w32 (hh + s1 + ch + kw.1 + kw.2) in
    let s0 := Z.lxor (rotr 2 a) (Z.lxor (rotr 13 a) (rotr 22 a)) in
    let maj := Z.lxor (Z.land a b) (Z.lxor (Z.land a c) (Z.land b c)) in
    [w32 (t1 + s0 + maj); a; b; c; w32 (d + t1); e; f; g]
  | _ => h
  end.

Definition compress (h block : list Z) : list Z :=
  zip_with (fun x y => w32 (x + y)) h (foldl round h (zip K (schedule block))).

Fixpoint blocks (n : nat) (h w : list Z) : list Z :=
  match n with O => h | S n' => blocks n' (compress h (take 16 w)) (drop 16 w) end.

Definition hex_digit (z : Z) : ascii := ascii_of_N (Z.to_N (if z <? 10 then 48 + z else 87 + z)).

(** [f"{word:08x}"]. *)
Definition hex_word (z : Z) : text :=
  (fun i => hex_digit (Z.land (Z.shiftr z (4 * (7 - i))) 15)) <$> [0; 1; 2; 3; 4; 5; 6; 7].

Definition hexdigest (payload : text) : text :=
  let w := words (pad (code <$> payload)) in
  concat (hex_word <$> blocks (length w / 16) H0 w).

(** ** The shape of a digest *)

Lemma length_round h kw : length (round h kw) = length h.
Proof. unfold round. by repeat case_match. Qed.

Lemma length_compress h block : length (compress h block) = length h.
Proof.
  unfold compress. rewrite length_zip_with.
  assert (forall l, length (foldl round h l) = length h) as ->; [|lia].
  intros l. revert h. induction l as [|x l IH]; intros h; [done|]. simpl. by rewrite IH, length_round.
Qed.

Lemma length_blocks n h w : length (blocks n h w) = length h.
Proof. revert h w. induction n as [|n IH]; intros h w; [done|]. simpl. by rewrite IH, length_compress. Qed.

(** A digest has 64 characters. *)
Lemma length_hexdigest payload : length (hexdigest payload) = 64%nat.
Proof.
  unfold hexdigest. generalize (length_blocks (length (words (pad (code <$> payload))) / 16) H0 (words (pad (code <$> payload)))).
  generalize (blocks (length (words (pad (code <$> payload))) / 16) H0 (words (pad (code <$> payload)))).
  intros h Hl. do 9 (destruct h as [|? h]; [try discriminate Hl|]); [reflexivity|discriminate Hl].
Qed.

(** The characters of a digest are hexadecimal digits. *)
Lemma hexdigest_hex payload c : c ∈ hexdigest payload -> exists z, 0 <= z < 16 /\ c = hex_digit z.
Proof.
  intros (w & _ & Hc)%elem_of_concat_fmap. apply list_elem_of_fmap in Hc as (i & -> & _).
  eexists. split; [|done].
  change 15 with (Z.ones 4). rewrite Z.land_ones by lia. apply Z.mod_pos_bound. lia.
Qed.

(** The published test vectors. *)
Example sha256_empty :
  hexdigest [] = lit "e3b0c44298fc1c149afbf4c8996fb92427ae41e4649b934ca495991b7852b855".
Proof. vm_compute. reflexivity. Qed.

Example sha256_abc :
  hexdigest (lit "abc") = lit "ba7816bf8f01cfea414140de5dae2223b00361a396177a9cb410ff61f20015ad".
Proof. vm_compute. reflexivity. Qed.

End Sha256.
