(* ===== verification/ProcessIdentity.v ===== *)
(** * ProcessIdentity: who a process id belongs to

    [core_impl/process_identity.py].  What the operating system answers is an
    argument: the outcome of [os.kill(pid, 0)], of reading [/proc/<pid>/stat] and
    of reading the boot id, as ASCII text or as the exception raised. *)

From Stdlib Require Import Ascii String.
From S2P Require Import Prelude PyLib.
Import Text.

#[local] Open Scope Z_scope.

Definition _UNKNOWN_START_TOKEN : text := lit "unknown".

(** [s[s.rfind(c) + 1:]], or nothing when [c] does not occur. *)
Fixpoint after_last (c : ascii) (s : text) : option text :=
  match s with
  | [] => None
  | x :: s' => match after_last c s' with Some r => Some r | None => if is_char c x then Some s' else None end
  end.

Definition flush (word : text) : list text := match word with [] => [] | _ => [word] end.

(** [s.split()]: the runs of characters that are not white space. *)
Fixpoint words (word s : text) : list text :=
  match s with
  | [] => flush word
  | c :: s' => if is_space c then flush word ++ words [] s' else words (word ++ [c]) s'
  end.

(** [str.isdecimal] of ASCII text. *)
Definition isdecimal (s : text) : bool := match s with [] => false | _ => forallb is_digit s end.

Definition parse_linux_proc_start_token (raw_stat : text) : text :=
  match after_last ")" raw_stat with
  | None => _UNKNOWN_START_TOKEN
  | Some rest =>
    match words [] (strip rest) !! 19%nat with
    | Some token => if isdecimal token then token else _UNKNOWN_START_TOKEN
    | None => _UNKNOWN_START_TOKEN
    end
  end.

Definition boot_char (c : ascii) : bool := is_digit c || ((97 <=? code c) && (code c <=? 102)) || (code c =? 45).

(** Only [OSError], here with its subclass [TimeoutError], is caught around the read. *)
Definition linux_boot_id (boot : result text) : result text :=
  match boot with
  | Err OSError | Err TimeoutError => Ok _UNKNOWN_START_TOKEN
  | Err e => Err e
  | Ok raw =>
    let value := lower (strip raw) in
    if bool_decide (value = []) || (128 <? Z.of_nat (length value)) then Ok _UNKNOWN_START_TOKEN
    else if negb (forallb boot_char value) then Ok _UNKNOWN_START_TOKEN
    else Ok value
  end.

Definition process_start_token (stat boot : result text) : result text :=
  match stat with
  | Err OSError | Err TimeoutError | Err ValueError | Err OverflowError => Ok _UNKNOWN_START_TOKEN
  | Err e => Err e
  | Ok raw =>
    let start := parse_linux_proc_start_token raw in
    if bool_decide (start = _UNKNOWN_START_TOKEN) then Ok start
    else
      boot ← linux_boot_id boot;
      Ok (if bool_decide (boot = _UNKNOWN_START_TOKEN) then start else boot ++ lit ":" ++ start)
  end.

Definition process_identity_matches (recorded current : text) : bool :=
  if bool_decide (recorded = _UNKNOWN_START_TOKEN) || bool_decide (current = _UNKNOWN_START_TOKEN) then true
  else bool_decide (recorded = current).

(** What [os.kill(pid, 0)] answers. *)
Inductive kill_answer : Type := Delivered | NoSuchProcess | NotPermitted | KillRaised (e : exn).

Definition process_is_alive (kill : kill_answer) (stat boot : result text) (pid : Z) (start_token : text) : result bool :=
  if pid <=? 0 then Ok false
  else match kill with
       | NoSuchProcess => Ok false
       | NotPermitted => Ok true
       | KillRaised e => Err e
       | Delivered => current ← process_start_token stat boot; Ok (process_identity_matches start_token current)
       end.

(** ** The start token of a stat line *)

Lemma after_last_app c s t : c ∉ t -> after_last c (s ++ c :: t) = Some t.
Proof.
  intros Ht. assert (after_last c t = None) as En.
  { induction t as [|x t IH]; [done|]. apply not_elem_of_cons in Ht as [Hx Ht]. simpl. rewrite (IH Ht).
    by rewrite (proj2 (is_char_false c x)). }
  induction s as [|x s IH]; simpl; [by rewrite En, (proj2 (is_char_true c c))|by rewrite IH].
Qed.

Lemma words_spaces w s : forallb is_space s = true -> words w s = flush w.
Proof.
  revert w. induction s as [|c s IH]; intros w; [done|]. simpl. intros [-> Hs]%andb_prop. rewrite IH by done. simpl. by rewrite app_nil_r.
Qed.

Lemma words_trail w s t : forallb is_space t = true -> words w (s ++ t) = words w s.
Proof.
  intros Ht. revert w. induction s as [|c s IH]; intros w; [by apply words_spaces|]. simpl. by rewrite !IH.
Qed.

Lemma drop_while_split p s : exists u, s = u ++ drop_while p s /\ forallb p u = true.
Proof.
  induction s as [|c s (u & E & Hu)]; [by exists []|]. simpl. destruct (p c) eqn:Hc; [|by exists []].
  exists (c :: u). simpl. rewrite Hc. split; [by f_equal|done].
Qed.

Lemma words_lead s t : forallb is_space s = true -> words [] (s ++ t) = words [] t.
Proof. induction s as [|c s IH]; [done|]. simpl. intros [-> Hs]%andb_prop. simpl. by apply IH. Qed.

Lemma words_strip s : words [] (strip s) = words [] s.
Proof.
  unfold strip, lstrip_chars, rstrip_chars. set (s1 := drop_while is_space s).
  transitivity (words [] s1).
  - destruct (drop_while_split is_space (rev s1)) as (u & E & Hu). apply (f_equal (@rev _)) in E. rewrite rev_involutive, rev_app_distr in E.
    rewrite E at 2. rewrite words_trail; [done|]. rewrite forallb_forall in *. intros c Hc%in_rev. auto.
  - destruct (drop_while_split is_space s) as (u & E & Hu). rewrite E. by rewrite words_lead.
Qed.

Definition solid (s : text) : bool := match s with [] => false | _ => forallb (fun c => negb (is_space c)) s end.

(** The fields of a stat line after the command name. *)
Definition render (fields : list text) : text := concat ((fun f => " "%char :: f) <$> fields) ++ [ascii_of_N 10].

Lemma words_solid w f s : forallb (fun c => negb (is_space c)) f = true -> words w (f ++ s) = words (w ++ f) s.
Proof.
  revert w. induction f as [|c f IH]; intros w; [by rewrite app_nil_r|]. simpl. intros [Hc%negb_true_iff Hf]%andb_prop.
  rewrite Hc, IH by done. by rewrite <-(assoc_L app).
Qed.

Lemma words_render fields : forallb solid fields = true -> words [] (render fields) = fields.
Proof.
  unfold render. induction fields as [|f fields IH]; [done|]. cbn [forallb fmap list_fmap concat]. intros [Hf Hr]%andb_prop.
  cbn [app words]. change (is_space " ") with true. cbn [flush app]. rewrite <-(assoc_L app). destruct f as [|c f]; [done|].
  rewrite words_solid by done. cbn [app].
  destruct (concat _ ++ _) as [|d rest] eqn:E; [by destruct fields|].
  assert (is_space d = true) as Hd by (destruct fields; injection E as <- _; done).
  specialize (IH Hr). cbn [words] in IH |- *. rewrite Hd in *. cbn [flush app] in *. by rewrite IH.
Qed.

(** [/proc/<pid>/stat] of a process: the command name may hold any characters. *)
Definition stat_line (head comm : text) (fields : list text) : text := head ++ lit "(" ++ comm ++ ")"%char :: render fields.

(** The fields after the command name, with the start time in the twentieth. *)
Definition started_at (fields : list text) (start : text) : Prop :=
  forallb solid fields = true /\ Forall (fun f => ")"%char ∉ f) fields /\ fields !! 19%nat = Some start /\ isdecimal start = true.

Lemma parse_stat_line head comm fields start : started_at fields start ->
  parse_linux_proc_start_token (stat_line head comm fields) = start.
Proof.
  intros (Hs & Hp & Hf & Hd). unfold parse_linux_proc_start_token, stat_line. rewrite !(assoc_L app). rewrite after_last_app.
  - by rewrite words_strip, words_render, Hf, Hd.
  - unfold render. intros [Hin|Hin%list_elem_of_singleton]%elem_of_app; [|discriminate Hin].
    apply list_elem_of_In, in_concat in Hin as (f & Hg & Hc). apply list_elem_of_In in Hg, Hc. apply list_elem_of_fmap in Hg as (g & -> & Hg). apply elem_of_cons in Hc as [Hc|Hc]; [discriminate Hc|].
    rewrite Forall_forall in Hp. by apply (Hp g).
Qed.

Lemma decimal_known d : isdecimal d = true -> d <> _UNKNOWN_START_TOKEN /\ ":"%char ∉ d.
Proof.
  intros Hd. split; [by intros ->|]. destruct d as [|c d]; [done|]. unfold isdecimal in Hd. rewrite forallb_forall in Hd.
  intros Hin%list_elem_of_In%Hd. discriminate.
Qed.

Lemma boot_known raw v : linux_boot_id (Ok raw) = Ok v -> v = _UNKNOWN_START_TOKEN \/ v <> _UNKNOWN_START_TOKEN /\ ":"%char ∉ v.
Proof.
  unfold linux_boot_id. do 2 (case_match; [intros [= <-]; by left|]). intros [= <-]. right.
  apply negb_false_iff in H0. split; [intros E; by rewrite E in H0|].
  rewrite forallb_forall in H0. intros Hin%list_elem_of_In%H0. discriminate.
Qed.

Lemma colon_inj (a a' b b' : text) : ":"%char ∉ a -> ":"%char ∉ a' -> a ++ lit ":" ++ b = a' ++ lit ":" ++ b' -> a = a' /\ b = b'.
Proof.
  revert a'. induction a as [|c a IH]; intros [|c' a'] Ha Ha' E; simpl in E.
  - by injection E.
  - injection E as <- _. by apply not_elem_of_cons in Ha' as [].
  - injection E as -> _. by apply not_elem_of_cons in Ha as [].
  - injection E as <- E. apply not_elem_of_cons in Ha as [_ Ha], Ha' as [_ Ha']. by destruct (IH a' Ha Ha' E) as [-> ->].
Qed.

Lemma start_token head comm fields d boot v : started_at fields d -> linux_boot_id boot = Ok v ->
  process_start_token (Ok (stat_line head comm fields)) boot = Ok (if bool_decide (v = _UNKNOWN_START_TOKEN) then d else v ++ lit ":" ++ d).
Proof.
  intros Hf Hv. unfold process_start_token. rewrite (parse_stat_line _ _ _ d) by done.
  destruct (decimal_known d) as [Hd _]; [apply Hf|]. rewrite bool_decide_eq_false_2 by done. by rewrite Hv.
Qed.

(** Whatever characters the command name holds, a recorded process is taken
    for alive exactly when the process that now has its id was started at the same
    tick of the same boot. *)
Theorem pid_instances_told_apart pid head comm fields d boot v head' comm' fields' d' boot' v' :
  0 < pid -> started_at fields d -> started_at fields' d' ->
  linux_boot_id (Ok boot) = Ok v -> v <> _UNKNOWN_START_TOKEN -> linux_boot_id (Ok boot') = Ok v' -> v' <> _UNKNOWN_START_TOKEN ->
  exists recorded, process_start_token (Ok (stat_line head comm fields)) (Ok boot) = Ok recorded
    /\ process_is_alive Delivered (Ok (stat_line head' comm' fields')) (Ok boot') pid recorded = Ok (bool_decide (d = d' /\ v = v')).
Proof.
  intros Hpid Hf Hf' Hv Hnv Hv' Hnv'. eexists. split; [by apply start_token|].
  unfold process_is_alive. rewrite (proj2 (Z.leb_gt _ _)) by lia. rewrite (start_token _ _ _ d' (Ok boot') v') by done.
  rewrite !bool_decide_eq_false_2 by done. cbn [mbind result_bind]. f_equal.
  destruct (boot_known _ _ Hv) as [?|[_ Hc]]; [done|]. destruct (boot_known _ _ Hv') as [?|[_ Hc']]; [done|].
  assert (Hun : forall a b, (":"%char ∉ a) -> a ++ lit ":" ++ b <> _UNKNOWN_START_TOKEN).
  { intros a b Ha E. assert (":"%char ∈ _UNKNOWN_START_TOKEN) as Hin by (rewrite <-E; apply elem_of_app; right; left).
    apply list_elem_of_In in Hin. simpl in Hin. intuition discriminate. }
  unfold process_identity_matches. rewrite !(bool_decide_eq_false_2 (_ = _UNKNOWN_START_TOKEN)) by auto. cbn [orb].
  apply bool_decide_ext. split; [intros [-> ->]%colon_inj; auto|by intros [-> ->]].
Qed.

(** A start token recorded while the boot id could not be read is the bare
    start time.  Once it can be read, by the same process or by another one, the
    token of the same live process differs, and its owner is taken for dead. *)
Theorem unreadable_boot_id_disowns_live_process pid head comm fields d boot v :
  0 < pid -> started_at fields d -> linux_boot_id (Ok boot) = Ok v -> v <> _UNKNOWN_START_TOKEN ->
  process_start_token (Ok (stat_line head comm fields)) (Err OSError) = Ok d
  /\ process_is_alive Delivered (Ok (stat_line head comm fields)) (Ok boot) pid d = Ok false.
Proof.
  intros Hpid Hf Hv Hnv. split; [by apply (start_token head comm fields d (Err OSError) _UNKNOWN_START_TOKEN)|].
  unfold process_is_alive. rewrite (proj2 (Z.leb_gt _ _)) by lia. rewrite (start_token _ _ _ d (Ok boot) v) by done.
  rewrite bool_decide_eq_false_2 by done. cbn [mbind result_bind]. f_equal. destruct (decimal_known d) as [Hd Hc]; [apply Hf|].
  assert (Hcolon : ":"%char ∈ v ++ lit ":" ++ d) by (apply elem_of_app; right; left).
  unfold process_identity_matches. rewrite (bool_decide_eq_false_2 (d = _UNKNOWN_START_TOKEN)), (bool_decide_eq_false_2 (d = _)); [|by intros E; rewrite E in Hc at 1|done].
  rewrite bool_decide_eq_false_2; [done|]. intros E.
  rewrite E in Hcolon. apply list_elem_of_In in Hcolon. simpl in Hcolon. intuition discriminate.
Qed.

Module IdentityExample.
Definition fields (start : string) : list text :=
  (lit <$> ["S"; "1"; "4242"; "4242"; "0"; "-1"; "4194560"; "1"; "0"; "0"; "0"; "3"; "1"; "0"; "0"; "20"; "0"; "1"; "0"]%string) ++ [lit start; lit "123904"].

Definition boot : text := lit "3F1c0f5e-7a52-4f0e-9c51-0a5b8a7b8c9d" ++ [ascii_of_N 10].

Lemma fields_ok start : forallb solid [lit start] = true -> ")"%char ∉ lit start -> isdecimal (lit start) = true -> started_at (fields start) (lit start).
Proof.
  intros Hs Hp Hd. split_and!; [|apply Forall_app; split; [|constructor; [done|]]| |done].
  - unfold fields. rewrite forallb_app. simpl in *. by rewrite andb_true_r in Hs; rewrite Hs.
  - apply (bool_decide_unpack _). vm_compute. exact I.
  - apply (bool_decide_unpack _). vm_compute. exact I.
  - done.
Qed.
End IdentityExample.

Lemma pid_instances_told_apart_witness :
  exists recorded, process_start_token (Ok (stat_line (lit "4242 ") (lit "a) R 1 (b") (IdentityExample.fields "777"))) (Ok IdentityExample.boot) = Ok recorded
    /\ process_is_alive Delivered (Ok (stat_line (lit "4242 ") (lit "sh") (IdentityExample.fields "778"))) (Ok IdentityExample.boot) 4242 recorded = Ok false.
Proof.
  apply (pid_instances_told_apart 4242 _ _ _ (lit "777") _ (lit "3f1c0f5e-7a52-4f0e-9c51-0a5b8a7b8c9d") _ _ _ (lit "778") _ (lit "3f1c0f5e-7a52-4f0e-9c51-0a5b8a7b8c9d"));
    [lia|apply IdentityExample.fields_ok; [done| |done]|apply IdentityExample.fields_ok; [done| |done]|done..];
    apply (bool_decide_unpack _); vm_compute; exact I.
Defined.

Lemma unreadable_boot_id_disowns_live_process_witness :
  process_start_token (Ok (stat_line (lit "4242 ") (lit "sh") (IdentityExample.fields "777"))) (Err OSError) = Ok (lit "777")
  /\ process_is_alive Delivered (Ok (stat_line (lit "4242 ") (lit "sh") (IdentityExample.fields "777"))) (Ok IdentityExample.boot) 4242 (lit "777") = Ok false.
Proof.
  apply (unreadable_boot_id_disowns_live_process 4242 _ _ _ (lit "777") _ (lit "3f1c0f5e-7a52-4f0e-9c51-0a5b8a7b8c9d"));
    [lia|apply IdentityExample.fields_ok; [done| |done]|done..]. apply (bool_decide_unpack _); vm_compute; exact I.
Defined.
