(* ===== verification/CoordinationJournal.v ===== *)
(** * CoordinationJournal: in-place updates that survive a crash

    [core_impl/coordination_journal.py].  The disk holds the locked main
    document, the sidecar journal and its staging file.  Every system call
    consults a fault plan, and every state the disk passes through is recorded,
    so that the states a killed process can leave behind are exactly the
    recorded ones. *)

From Stdlib Require Import Ascii String.
From S2P Require Import Prelude PyLib JsonLib Sha256.
Import Text.

#[local] Open Scope Z_scope.

(** ** The disk and its faults *)

Module Disk.

(** What [fstat] tells of a file, and its bytes. *)
Record inode : Type := mk_inode { regular : bool; st_nlink : Z; st_uid : Z; contents : text }.

(** The main document is held open and locked; the two others are found by name. *)
Record files : Type := mk_files { main : text; journal : option inode; temporary : option inode }.

(** A fault is an exception with the number of bytes a write got out before it. *)
Definition fault : Type := exn * nat.

(** The state of a run: the disk, the faults of the coming system calls, and the
    states the disk went through, the last one first. *)
Record world : Type := mk_world { disk : files; plan : list (option fault); trace : list files }.

Definition start_world (d : files) (p : list (option fault)) : world := mk_world d p [d].

Definition next_fault : M world (option fault) :=
  tick;;
  p ← reads plan;
  modify (fun w => mk_world (disk w) (tail p) (trace w));;
  ret (default None (head p)).

(** A system call with an effect on the disk, or a fault without one. *)
Definition sys (f : files -> files) : M world unit :=
  o ← next_fault;
  match o with
  | Some (e, _) => raise e
  | None => modify (fun w => mk_world (f (disk w)) (plan w) (f (disk w) :: trace w))
  end.

(** A system call without effect: admission, [fsync], [close], [fchmod]. *)
Definition call : M world unit := sys (fun d => d).

Definition sys_read {A} (f : files -> A) : M world A := call;; reads (fun w => f (disk w)).

(** The first [k] bytes of [payload] reach the file one after the other. *)
Definition written (put : text -> files -> files) (payload : text) (k : nat) (w : world) : world :=
  mk_world (put (take k payload) (disk w)) (plan w)
           (rev ((fun i => put (take i payload) (disk w)) <$> seq 0 (S k)) ++ trace w).

(** Buffered [write] calls and the [flush] that ends them. *)
Definition sys_write (put : text -> files -> files) (payload : text) : M world unit :=
  o ← next_fault;
  match o with
  | Some (e, k) => modify (written put payload k);; raise e
  | None => modify (written put payload (length payload))
  end.

Definition put_main (t : text) (d : files) : files := mk_files t (journal d) (temporary d).
Definition put_journal (j : option inode) (d : files) : files := mk_files (main d) j (temporary d).
Definition put_temporary (t : option inode) (d : files) : files := mk_files (main d) (journal d) t.

Definition set_contents (t : text) (i : inode) : inode := mk_inode (regular i) (st_nlink i) (st_uid i) t.
Definition write_temporary (t : text) (d : files) : files := put_temporary (set_contents t <$> temporary d) d.

(** [os.replace(temporary, journal)]. *)
Definition replace_journal (d : files) : files := mk_files (main d) (temporary d) None.

(** [TimeoutError] is a subclass of [OSError]. *)
Definition is_oserror (e : exn) : bool := bool_decide (e = OSError \/ e = TimeoutError).

(** [try: m except OSError as e: h]. *)
Definition except_os {A} (m h : M world A) : M world A :=
  try_except m (fun e => if is_oserror e then h else raise e).

(** [try: m finally: f]. *)
Definition try_finally (m f : M world unit) : M world unit :=
  try_except m (fun e => f;; raise e);; f.

(** ** A program logic for disk states

    [triple P E d m Q]: started on disk [d], under any faults whose exceptions
    satisfy [E], the computation [m] keeps every disk state within [P] and ends
    with a result and a disk that satisfy [Q]. *)

Definition fault_in (E : exn -> Prop) (o : option fault) : Prop :=
  match o with Some (e, _) => E e | None => True end.

Section Logic.
Variable P : files -> Prop.
Variable E : exn -> Prop.

(** The disks a run added to the trace. *)
Definition grown (w w' : world) : Prop := exists new, trace w' = new ++ trace w /\ Forall P new.

(** A run from [w] to [w'] stays within the disks [P] and the faults [E]. *)
Definition within (w w' : world) : Prop := P (disk w') /\ grown w w' /\ Forall (fault_in E) (plan w').

Definition triple {A} (d : files) (m : M world A) (Q : result A -> files -> Prop) : Prop :=
  forall n w, disk w = d -> P d -> Forall (fault_in E) (plan w) -> ((0 < n)%nat -> E AsyncInterrupt) ->
    wp n m (fun r _ w' => Q r (disk w') /\ within w w') w.

Lemma grown_refl w : grown w w.
Proof. by exists []. Qed.

Lemma within_refl w : P (disk w) -> Forall (fault_in E) (plan w) -> within w w.
Proof. intros HP HE. split; [done|split; [apply grown_refl|done]]. Qed.

Lemma within_trans w w1 w2 : within w w1 -> within w1 w2 -> within w w2.
Proof.
  intros (_ & (n1 & E1 & H1) & _) (HP & (n2 & E2 & H2) & HE). split; [done|split; [|done]].
  exists (n2 ++ n1). rewrite E2, E1, (assoc_L app). split; [done|by apply Forall_app].
Qed.

Lemma t_ret {A} d (a : A) (Q : result A -> files -> Prop) : Q (Ok a) d -> triple d (ret a) Q.
Proof. intros HQ n w <- HP HE _. apply wp_ret. split; [done|by apply within_refl]. Qed.

Lemma t_raise {A} d e (Q : result A -> files -> Prop) : Q (Err e) d -> triple d (raise e) Q.
Proof. intros HQ n w <- HP HE _. apply wp_raise. split; [done|by apply within_refl]. Qed.

Lemma t_liftR {A} d (r : result A) (Q : result A -> files -> Prop) : Q r d -> triple d (liftR r) Q.
Proof. intros HQ n w <- HP HE _. apply wp_liftR. split; [done|by apply within_refl]. Qed.

(** Go on from a state within the bounds. *)
Lemma t_continue {A} n n' w w' (m : M world A) (Q : result A -> files -> Prop) : within w w' -> (n' <= n)%nat ->
  ((0 < n)%nat -> E AsyncInterrupt) -> triple (disk w') m Q -> wp n' m (fun r _ w'' => Q r (disk w'') /\ within w w'') w'.
Proof.
  intros Hw Hn' Hn Hm. eapply wp_mono; [apply Hm; [done|apply Hw|apply Hw|]|]; [intros ?; apply Hn; lia|].
  intros r n'' w'' _ [HQ Hw']. split; [done|by eapply within_trans].
Qed.

Lemma t_bind {A B} d (m : M world A) (f : A -> M world B) Q :
  triple d m (fun r d' => match r with Ok a => triple d' (f a) Q | Err e => Q (Err e) d' end) ->
  triple d (bind m f) Q.
Proof.
  intros H n w Hd HP HE Hn. apply wp_bind. eapply wp_mono; [by apply H|].
  intros [a|e] n' w' Hn' [HQ Hw']; [|done]. by apply (t_continue n).
Qed.

Lemma t_try {A} d (m : M world A) (h : exn -> M world A) Q :
  triple d m (fun r d' => match r with Ok a => Q (Ok a) d' | Err e => triple d' (h e) Q end) ->
  triple d (try_except m h) Q.
Proof.
  intros H n w Hd HP HE Hn. apply wp_try. eapply wp_mono; [by apply H|].
  intros [a|e] n' w' Hn' [HQ Hw']; [done|]. by apply (t_continue n).
Qed.

Lemma t_mono {A} d (m : M world A) (Q Q' : result A -> files -> Prop) :
  triple d m Q -> (forall r d', Q r d' -> Q' r d') -> triple d m Q'.
Proof.
  intros H HQ n w Hd HP HE Hn. eapply wp_mono; [by apply H|]. intros r n' w' _ [? ?]. auto.
Qed.

(** The disk a computation ends on is one it passed through. *)
Lemma t_final {A} d (m : M world A) (Q : result A -> files -> Prop) :
  triple d m (fun r d' => P d' -> Q r d') -> triple d m Q.
Proof. intros H n w Hd HP HE Hn. eapply wp_mono; [by apply H|]. intros r n' w' _ [HQ Hw']. split; [apply HQ, Hw'|done]. Qed.

Lemma t_start {A} d (m : M world A) (Q : result A -> files -> Prop) : (P d -> triple d m Q) -> triple d m Q.
Proof. intros H n w Hd HP HE Hn. by apply H. Qed.

Lemma t_whenM d b m (Q : result unit -> files -> Prop) :
  (b = true -> triple d m Q) -> (b = false -> Q (Ok tt) d) -> triple d (whenM b m) Q.
Proof. destruct b; intros H1 H2; simpl; [auto|apply t_ret; auto]. Qed.

Lemma t_tick d (Q : result unit -> files -> Prop) : Q (Ok tt) d -> (forall e, E e -> Q (Err e) d) -> triple d tick Q.
Proof.
  intros Hok Herr n w <- HP HE Hn. apply wp_tick; [split; [done|by apply within_refl]|].
  intros n' ->. split; [apply Herr, Hn; lia|by apply within_refl].
Qed.

(** The next fault is a member of the plan, unless an exception comes first. *)
Lemma t_next_fault d (Q : result (option fault) -> files -> Prop) :
  (forall o, fault_in E o -> Q (Ok o) d) -> (forall e, E e -> Q (Err e) d) -> triple d next_fault Q.
Proof.
  intros Hok Herr n w <- HP HE Hn. unfold next_fault. wp_steps; cbn [disk plan trace].
  - destruct (plan w) as [|o p]; inversion_clear HE; simpl.
    + split; [by apply Hok|]. split; [done|split; [by exists []|constructor]].
    + split; [by apply Hok|]. split; [done|split; [by exists []|done]].
  - split; [apply Herr, Hn; lia|by apply within_refl].
Qed.

Lemma t_modify d (f : world -> world) (Q : result unit -> files -> Prop) :
  (forall w, disk w = d -> P d -> Forall (fault_in E) (plan w) -> Q (Ok tt) (disk (f w)) /\ within w (f w)) -> triple d (modify f) Q.
Proof. intros H n w Hd HP HE _. apply wp_modify. auto. Qed.

Lemma t_sys d f (Q : result unit -> files -> Prop) :
  P (f d) -> Q (Ok tt) (f d) -> (forall e, E e -> Q (Err e) d) -> triple d (sys f) Q.
Proof.
  intros HP Hok Herr. apply t_bind, t_next_fault; [|done].
  intros [[e k]|] Ho; [by apply t_raise, Herr|]. apply t_modify. intros w <- _ HE. split; [done|].
  split; [done|split; [|done]]. exists [f (disk w)]. split; [done|by constructor].
Qed.

Lemma t_call d (Q : result unit -> files -> Prop) :
  P d -> Q (Ok tt) d -> (forall e, E e -> Q (Err e) d) -> triple d call Q.
Proof. intros. by apply t_sys. Qed.

Lemma t_sys_read {A} d (f : files -> A) (Q : result A -> files -> Prop) :
  P d -> Q (Ok (f d)) d -> (forall e, E e -> Q (Err e) d) -> triple d (sys_read f) Q.
Proof.
  intros HP Hok Herr. apply t_bind, t_call; [done| |done].
  intros n w <- HP' HE _. apply wp_reads. split; [done|by apply within_refl].
Qed.

Lemma t_sys_write d put payload (Q : result unit -> files -> Prop) :
  (forall t, P (put t d)) -> Q (Ok tt) (put payload d) ->
  (forall e, E e -> Q (Err e) d) -> (forall e t, E e -> Q (Err e) (put t d)) ->
  triple d (sys_write put payload) Q.
Proof.
  intros HP Hok Herr Hpart.
  assert (forall w k, disk w = d -> Forall (fault_in E) (plan w) -> within w (written put payload k w)) as Hgood.
  { intros w k <- HE. split; [apply HP|split; [|done]]. eexists. split; [done|].
    apply Forall_rev, Forall_fmap, Forall_forall. intros i _. apply HP. }
  apply t_bind, t_next_fault; [|done]. intros [[e k]|] Ho.
  - apply t_bind, t_modify. intros w Hd _ HE. split; [|by apply Hgood].
    apply t_raise. cbn [written disk]. rewrite Hd. by apply Hpart.
  - apply t_modify. intros w Hd _ HE. split; [|by apply Hgood]. cbn [written disk]. by rewrite Hd, firstn_all.
Qed.

Lemma t_except_os {A} d (m h : M world A) Q :
  triple d m (fun r d' => match r with
    | Ok a => Q (Ok a) d'
    | Err e => if is_oserror e then triple d' h Q else Q (Err e) d'
    end) -> triple d (except_os m h) Q.
Proof.
  intros H. apply t_try. eapply t_mono; [exact H|]. intros [a|e] d' HQ; [done|].
  destruct (is_oserror e); [done|]. by apply t_raise.
Qed.

Lemma t_finally d m f Q :
  triple d m (fun r d' => match r with
    | Ok _ => triple d' f Q
    | Err e => triple d' f (fun r' d'' => match r' with Ok _ => Q (Err e) d'' | Err e' => Q (Err e') d'' end)
    end) -> triple d (try_finally m f) Q.
Proof.
  intros H. apply t_bind, t_try. eapply t_mono; [exact H|]. intros [[]|e] d' HQ; [done|].
  apply t_bind. eapply t_mono; [exact HQ|]. intros [[]|e'] d'' HQ'; [by apply t_raise|done].
Qed.
End Logic.

(** One step of symbolic execution on disk states. *)
Ltac t_step :=
  lazymatch goal with
  | |- triple _ _ _ (mbind _ _) _ => apply t_bind
  | |- triple _ _ _ (bind _ _) _ => apply t_bind
  | |- triple _ _ _ (ret _) _ => apply t_ret
  | |- triple _ _ _ (raise _) _ => apply t_raise
  | |- triple _ _ _ (liftR _) _ => apply t_liftR
  | |- triple _ _ _ (try_except _ _) _ => apply t_try
  | |- triple _ _ _ (except_os _ _) _ => apply t_except_os
  | |- triple _ _ _ (try_finally _ _) _ => apply t_finally
  | |- triple _ _ _ tick _ => apply t_tick; [|intros ??]
  | |- triple _ _ _ call _ => apply t_call; [|..|intros ??]
  | |- triple _ _ _ (sys _) _ => apply t_sys; [|..|intros ??]
  | |- triple _ _ _ (sys_read _) _ => apply t_sys_read; [|..|intros ??]
  | |- triple _ _ _ (sys_write _ _) _ => apply t_sys_write; [intros ?|..|intros ??|intros ???]
  | |- triple _ _ _ (whenM _ _) _ => apply t_whenM; intros ?
  end; cbv beta iota.

(** A triple for fewer disks is one for more. *)
Lemma t_weaken {A} (P P' : files -> Prop) (E : exn -> Prop) d (m : M world A) (Q : result A -> files -> Prop) : P' d -> (forall d', P' d' -> P d') ->
  triple P' E d m (fun r d' => P' d' -> Q r d') -> triple P E d m Q.
Proof.
  intros HP' Hsub H n w Hd _ HE Hn. eapply wp_mono; [by apply H|]. intros r n' w' _ [HQ (HPd & (new & Et & Hnew) & Hp)].
  split; [auto|]. split; [auto|split; [|done]]. exists new. split; [done|]. eapply Forall_impl; [exact Hnew|]. auto.
Qed.

(** What a triple says of one run from a fresh trace. *)
Lemma triple_run {A} (P : files -> Prop) (E : exn -> Prop) d (m : M world A) Q k p :
  triple P E d m Q -> P d -> Forall (fault_in E) p -> (k = [] \/ E AsyncInterrupt) ->
  match m k (start_world d p) with
  | (r, _, w) => Q r (disk w) /\ Forall P (trace w)
  end.
Proof.
  intros H HP Hp Hk. specialize (H (length k) (start_world d p) eq_refl HP Hp).
  destruct (m k (start_world d p)) as [[r k'] w'] eqn:Em.
  assert ((0 < length k)%nat -> E AsyncInterrupt) as Hn by (destruct Hk as [->|?]; [simpl; lia|done]).
  destruct (wp_elim _ _ _ _ _ _ _ _ (H Hn) (Nat.le_refl _) Em) as (n' & _ & HQ & _ & (new & -> & Hnew) & _). split; [done|].
  apply Forall_app. split; [done|by constructor].
Qed.

End Disk.
Import Disk.

(** ** Journal records *)

Definition _JOURNAL_VERSION : Z := 1.
Definition _PHASE_PREPARED : text := lit "prepared".
Definition _PHASE_COMMITTED : text := lit "committed".
Definition _MAX_HEADER_BYTES : Z := 4096.

Record _JournalRecord : Type := mk_record {
  phase : text;
  pid : Z;
  start : text;
  before : text;
  after : text;
}.

Definition len (t : text) : Z := Z.of_nat (length t).

Definition _digest (payload : text) : text := Sha256.hexdigest payload.

(** What Python's conversions do with a float, and [str] with a value that is not a string. *)
Record conversions : Type := mk_conversions {
  float_int : text -> result Z;
  float_is_one : text -> bool;
  show : json -> text;
}.

Section Journal.

Variable conv : conversions.
Variable euid : Z.
Variable max_payload_bytes : Z.

Definition _validate_owned_regular (metadata : inode) : result unit :=
  if negb (regular metadata) then Err OSError
  else if negb (st_nlink metadata =? 1) then Err OSError
  else if negb (st_uid metadata =? euid) then Err OSError
  else Ok tt.

Definition header_json (record : _JournalRecord) : json :=
  JObj [(lit "version", JInt _JOURNAL_VERSION);
        (lit "phase", JStr (phase record));
        (lit "pid", JInt (pid record));
        (lit "start", JStr (take 128 (start record)));
        (lit "before_length", JInt (len (before record)));
        (lit "after_length", JInt (len (after record)));
        (lit "before_sha256", JStr (_digest (before record)));
        (lit "after_sha256", JStr (_digest (after record)))].

Definition _encode_header (record : _JournalRecord) : result text :=
  if (max_payload_bytes <? len (before record)) || (max_payload_bytes <? len (after record)) then Err OSError
  else
    let encoded := encode_utf8 (dumps (header_json record)) in
    if _MAX_HEADER_BYTES <? len encoded then Err OSError else Ok encoded.

Definition newline : ascii := ascii_of_N 10.

(** [handle.readline(size)]. *)
Fixpoint readline (size : nat) (s : text) : text :=
  match size, s with
  | S n, c :: s' => if code c =? 10 then [c] else c :: readline n s'
  | _, _ => []
  end.

(** [int(text)]: surrounding blanks, a sign, digits with single underscores. *)
Fixpoint digit_groups (s : text) (acc : Z) (seen : bool) : option Z :=
  match s with
  | [] => if seen then Some acc else None
  | c :: s' =>
    if is_digit c then digit_groups s' (10 * acc + (code c - 48)) true
    else if (code c =? 95) && seen then
      match s' with d :: _ => if is_digit d then digit_groups s' acc false else None | [] => None end
    else None
  end.

Definition int_of_str (s : text) : result Z :=
  let '(negative, digits) :=
    match strip s with
    | c :: rest => if code c =? 45 then (true, rest) else if code c =? 43 then (false, rest) else (false, c :: rest)
    | [] => (false, [])
    end in
  match digit_groups digits 0 false with
  | Some z => Ok (if negative then - z else z)
  | None => Err ValueError
  end.

(** [int(value)]. *)
Definition py_int (v : json) : result Z :=
  match v with
  | JInt z => Ok z
  | JBool b => Ok (if b then 1 else 0)
  | JFloat t => float_int conv t
  | JStr s => int_of_str s
  | JNull | JList _ | JObj _ => Err TypeError
  end.

(** [str(value)]. *)
Definition py_str (v : json) : text := match v with JStr s => s | _ => show conv v end.

(** [value != 1] is false of [1], [True] and [1.0]. *)
Definition equals_one (v : option json) : bool :=
  match v with
  | Some (JInt z) => z =? 1
  | Some (JBool b) => b
  | Some (JFloat t) => float_is_one conv t
  | _ => false
  end.

(** [phase not in {...}] hashes the value first. *)
Definition phase_of (v : option json) : result text :=
  match v with
  | Some (JStr p) => if bool_decide (p = _PHASE_PREPARED \/ p = _PHASE_COMMITTED) then Ok p else Err OSError
  | Some (JList _) | Some (JObj _) => Err TypeError
  | _ => Err OSError
  end.

(** [except (TypeError, ValueError): raise OSError]. *)
Definition corrupt_on_conversion {A} (r : result A) : result A :=
  match r with
  | Err TypeError | Err ValueError => Err OSError
  | _ => r
  end.

Definition is_str (v : option json) (s : text) : bool :=
  match v with Some (JStr t) => bool_decide (t = s) | _ => false end.

Definition int_member (header : list (text * json)) (key : text) : result Z :=
  corrupt_on_conversion (py_int (default (JInt (-1)) (get header key))).

(** The part of [_read_record] after the file is open: [raw] is its contents. *)
Definition decode_record (raw : text) : result _JournalRecord :=
  let header_line := readline (Z.to_nat (_MAX_HEADER_BYTES + 2)) raw in
  if negb (bool_decide (last header_line = Some newline)) || (_MAX_HEADER_BYTES + 1 <? len header_line) then Err OSError
  else
    let header_raw := take (length header_line - 1) header_line in
    match decode_utf8 header_raw ≫= loads with
    | Some (JObj header) =>
      if negb (equals_one (get header (lit "version"))) then Err OSError
      else
        ph ← phase_of (get header (lit "phase"));
        p ← int_member header (lit "pid");
        let st := py_str (default (JStr (lit "unknown")) (get header (lit "start"))) in
        before_length ← int_member header (lit "before_length");
        after_length ← int_member header (lit "after_length");
        if (p <=? 0) || (before_length <? 0) || (after_length <? 0)
           || (max_payload_bytes <? before_length) || (max_payload_bytes <? after_length)
           || negb (len raw =? len header_line + before_length + after_length) then Err OSError
        else
          let rest := drop (length header_line) raw in
          let b := take (Z.to_nat before_length) rest in
          let a := take (Z.to_nat after_length) (drop (Z.to_nat before_length) rest) in
          let more := drop (Z.to_nat after_length) (drop (Z.to_nat before_length) rest) in
          if negb (len b =? before_length) || negb (len a =? after_length) || negb (bool_decide (more = [])) then Err OSError
          else if negb (is_str (get header (lit "before_sha256")) (_digest b))
               || negb (is_str (get header (lit "after_sha256")) (_digest a)) then Err OSError
          else Ok (mk_record ph p st b a)
    | _ => Err OSError
    end.

(** ** Reading and publishing the sidecar *)

(** A failure to open the journal safely is an [OSError]; an absent journal is
    [None]. The governor admits the descriptor before the file is opened. *)
Definition _read_record : M world (option _JournalRecord) :=
  opened ← except_os
    (call;;
     j ← sys_read journal;
     match j with
     | None => ret None
     | Some metadata =>
       liftR (_validate_owned_regular metadata);;
       (if _MAX_HEADER_BYTES + 1 + 2 * max_payload_bytes <? len (contents metadata) then raise OSError
        else call;; ret (Some (contents metadata)))
     end)
    (raise OSError);
  match opened with
  | None => ret None
  | Some raw =>
    record ← try_except (call;; liftR (decode_record raw)) (fun e => call;; raise e);
    call;;
    ret (Some record)
  end.

(** Open, validate and empty the staging file. *)
Definition open_temporary : M world unit :=
  except_os
    (sys (fun d => match temporary d with
                   | None => put_temporary (Some (mk_inode true 1 euid [])) d
                   | Some _ => d
                   end);;
     t ← sys_read temporary;
     match t with
     | None => raise OSError
     | Some metadata => liftR (_validate_owned_regular metadata)
     end;;
     call;;
     sys (write_temporary []);;
     call)
    (raise OSError).

Definition _directory_fsync : M world unit := call;; call;; call;; call.

(** The [with] block that fills the staging file. *)
Definition write_staging (header : text) (record : _JournalRecord) (durable : bool) : M world unit :=
  call;;
  open_temporary;;
  try_except
    (sys_write write_temporary (header ++ [newline] ++ before record ++ after record);;
     whenM durable call)
    (fun e => call;; raise e);;
  call.

Definition _publish_record_mode (record : _JournalRecord) (durable require_directory_sync : bool) : M world unit :=
  header ← liftR (_encode_header record);
  try_finally
    (write_staging header record durable;;
     sys replace_journal;;
     whenM durable
       (try_except _directory_fsync
          (fun e => if is_oserror e && negb require_directory_sync then ret tt else raise e)))
    (except_os (sys (put_temporary None)) (ret tt)).

Definition _publish_record (record : _JournalRecord) (require_directory_sync : bool) : M world unit :=
  _publish_record_mode record true require_directory_sync.

Definition _publish_record_relaxed (record : _JournalRecord) (require_directory_sync : bool) : M world unit :=
  _publish_record_mode record false require_directory_sync.

(** ** The main document *)

Definition _write_main_relaxed (payload : text) : M world unit :=
  sys (put_main []);;
  sys_write put_main payload.

Definition _write_main (payload : text) : M world unit :=
  sys (put_main []);;
  sys_write put_main payload;;
  call.

Definition _remove_journal : M world unit :=
  except_os (sys (put_journal None);; _directory_fsync) (ret tt).

Definition _remove_journal_relaxed : M world unit :=
  except_os (sys (put_journal None)) (ret tt).

(** ** Recovery and commit *)

Definition target_of (process_alive : Z -> text -> bool) (record : _JournalRecord) : text :=
  if bool_decide (phase record = _PHASE_COMMITTED) || negb (process_alive (pid record) (start record))
  then after record
  else before record.

Definition recover_locked_payload (process_alive : Z -> text -> bool) : M world text :=
  current ← sys_read (fun d => take (Z.to_nat (max_payload_bytes + 1)) (main d));
  record ← _read_record;
  match record with
  | None => ret current
  | Some record =>
    let target := target_of process_alive record in
    whenM (negb (bool_decide (current = target))) (_write_main target);;
    _remove_journal;;
    ret target
  end.

Section Commit.
Variables (getpid : Z) (process_start before_image after_image : text).

Definition prepared : _JournalRecord :=
  mk_record _PHASE_PREPARED getpid process_start before_image after_image.

Definition committed : _JournalRecord :=
  mk_record _PHASE_COMMITTED getpid process_start before_image after_image.

Definition commit_locked_payload : M world unit :=
  if bool_decide (before_image = after_image) then ret tt
  else if max_payload_bytes <? len after_image then raise OSError
  else
    _publish_record prepared true;;
    _write_main after_image;;
    try_except (_publish_record committed false)
      (fun e => _write_main before_image;; _remove_journal;; raise e);;
    _remove_journal.

Definition commit_locked_payload_relaxed : M world unit :=
  if bool_decide (before_image = after_image) then ret tt
  else if max_payload_bytes <? len after_image then raise OSError
  else
    _publish_record_relaxed prepared true;;
    _write_main_relaxed after_image;;
    try_except (_publish_record_relaxed committed false)
      (fun e => _write_main_relaxed before_image;; _remove_journal_relaxed;; raise e);;
    _remove_journal_relaxed.
End Commit.

(** ** Waiting for the lock

    [coordination_file_lock]: times are whole nanoseconds.  An attempt carries the
    answer of [flock], the time that passed before the clock is read, and how much
    longer than asked [sleep] took. *)

Inductive answer : Type := Acquired | Blocked | Interrupted | Refused.

Record attempt : Type := mk_attempt { flock : answer; elapsed : Z; oversleep : Z }.

Definition _COORDINATION_LOCK_POLL : Z := 50000000.

(** [None]: the attempts ran out while the loop was still waiting. *)
Fixpoint lock_loop (deadline now : Z) (attempts : list attempt) : option (result unit) :=
  match attempts with
  | [] => None
  | a :: rest =>
    match flock a with
    | Acquired => Some (Ok tt)
    | Refused => Some (Err OSError)
    | Blocked =>
      let now' := now + elapsed a in
      let remaining := deadline - now' in
      if remaining <=? 0 then Some (Err TimeoutError)
      else lock_loop deadline (now' + Z.min _COORDINATION_LOCK_POLL remaining + oversleep a) rest
    | Interrupted =>
      let now' := now + elapsed a in
      if deadline <=? now' then Some (Err TimeoutError) else lock_loop deadline now' rest
    end
  end.

Definition acquire_lock (timeout now : Z) (attempts : list attempt) : option (result unit) :=
  lock_loop (now + timeout) now attempts.

(** ** Records are read back *)

Definition stored (r : _JournalRecord) : _JournalRecord :=
  mk_record (phase r) (pid r) (take 128 (start r)) (before r) (after r).

Definition sorted_header (r : _JournalRecord) : list (text * json) :=
  [(lit "after_length", JInt (len (after r)));
   (lit "after_sha256", JStr (_digest (after r)));
   (lit "before_length", JInt (len (before r)));
   (lit "before_sha256", JStr (_digest (before r)));
   (lit "phase", JStr (phase r));
   (lit "pid", JInt (pid r));
   (lit "start", JStr (take 128 (start r)));
   (lit "version", JInt _JOURNAL_VERSION)].

Lemma dumps_header r : dumps (header_json r) = print_json (JObj (sorted_header r)).
Proof. reflexivity. Qed.

Lemma header_printable r : forallb printable (dumps (header_json r)) = true.
Proof. rewrite dumps_header. by apply print_json_printable. Qed.

Lemma readline_app n h rest : forallb printable h = true -> (length h < n)%nat ->
  readline n (h ++ newline :: rest) = h ++ [newline].
Proof.
  revert n. induction h as [|c h IH]; intros [|n] Hp Hn; simpl in *; try lia; [done|].
  apply andb_prop in Hp as [Hc Hp]. unfold printable in Hc.
  rewrite (proj2 (Z.eqb_neq (code c) 10)) by lia. by rewrite IH by (done || lia).
Qed.

Lemma encode_header_ok r h : _encode_header r = Ok h ->
  h = dumps (header_json r) /\ len h <= _MAX_HEADER_BYTES
  /\ len (before r) <= max_payload_bytes /\ len (after r) <= max_payload_bytes.
Proof.
  unfold _encode_header. destruct (_ || _) eqn:E; [done|]. rewrite encode_utf8_ascii by apply header_printable.
  destruct (Z.ltb_spec _MAX_HEADER_BYTES (len (dumps (header_json r)))); [done|]. intros [= <-].
  apply orb_false_elim in E. repeat split; try done; lia.
Qed.

Definition valid_phase (p : text) : Prop := p = _PHASE_PREPARED \/ p = _PHASE_COMMITTED.

(** The bytes of a published record. *)
Definition image (h : text) (r : _JournalRecord) : text := h ++ [newline] ++ before r ++ after r.

Lemma get_header r :
  get (sorted_header r) (lit "version") = Some (JInt 1)
  /\ get (sorted_header r) (lit "phase") = Some (JStr (phase r))
  /\ int_member (sorted_header r) (lit "pid") = Ok (pid r)
  /\ get (sorted_header r) (lit "start") = Some (JStr (take 128 (start r)))
  /\ int_member (sorted_header r) (lit "before_length") = Ok (len (before r))
  /\ int_member (sorted_header r) (lit "after_length") = Ok (len (after r))
  /\ get (sorted_header r) (lit "before_sha256") = Some (JStr (_digest (before r)))
  /\ get (sorted_header r) (lit "after_sha256") = Some (JStr (_digest (after r))).
Proof. by split_and!. Qed.

Lemma decode_encoded r h : _encode_header r = Ok h -> 0 < pid r -> valid_phase (phase r) ->
  decode_record (image h r) = Ok (stored r).
Proof.
  intros (Hh & Hl & Hb & Ha)%encode_header_ok Hpid Hphase.
  assert (forallb printable h = true) as Hp by (subst h; apply header_printable).
  unfold decode_record, image. cbn [app]. unfold len, _MAX_HEADER_BYTES in Hl.
  rewrite readline_app by (done || unfold _MAX_HEADER_BYTES; lia).
  rewrite last_snoc, bool_decide_true by done. unfold len at 1. rewrite !length_app. cbn [length].
  rewrite (proj2 (Z.ltb_ge _ _)) by (unfold _MAX_HEADER_BYTES; lia). cbn [negb orb].
  rewrite (Nat.add_sub (length h) 1), take_app_length.
  assert (decode_utf8 h ≫= loads = Some (JObj (sorted_header r))) as ->.
  { rewrite <-(encode_utf8_ascii h Hp), Hh, dumps_header. by apply loads_encoded. }
  destruct (get_header r) as (-> & -> & -> & -> & -> & -> & -> & ->).
  cbn [equals_one phase_of default from_option py_str mbind result_bind is_str].
  rewrite (bool_decide_true (phase r = _ \/ _)) by exact Hphase. cbv zeta.
  change (newline :: before r ++ after r) with ([newline] ++ before r ++ after r).
  rewrite (app_assoc h [newline]).
  replace (drop (length h + 1) _) with (before r ++ after r)
    by (symmetry; apply drop_app_length'; rewrite length_app; simpl; lia).
  unfold len in *. rewrite !Nat2Z.id, take_app_length, drop_app_length, take_ge, drop_ge by lia.
  rewrite !length_app. cbn [length].
  rewrite !bool_decide_true by done. cbn [negb Z.eqb Pos.eqb mbind result_bind].
  rewrite (proj2 (Z.leb_gt (pid r) 0)) by lia. rewrite !(proj2 (Z.ltb_ge _ _)) by lia.
  rewrite !(proj2 (Z.eqb_eq _ _)) by lia. done.
Qed.

(** ** What each step does to the disk *)

(** A file this process created. *)
Definition own (raw : text) : inode := mk_inode true 1 euid raw.

Lemma validate_own i : _validate_owned_regular i = Ok tt -> i = own (contents i).
Proof.
  destruct i as [[] l u c]; unfold _validate_owned_regular; simpl; [|done].
  destruct (Z.eqb_spec l 1), (Z.eqb_spec u euid); simpl; try done. by subst.
Qed.

Section Steps.
Variable P : files -> Prop.
Variable E : exn -> Prop.

Lemma open_temporary_spec m j t : (forall t', P (mk_files m j t')) ->
  triple P E (mk_files m j t) open_temporary
    (fun r d => exists t', d = mk_files m j t' /\ (r = Ok tt -> t' = Some (own []))).
Proof.
  intros HP. unfold open_temporary.
  assert (forall (e : exn) t', if is_oserror e
    then triple P E (mk_files m j t') (raise OSError) (fun r d => exists t', d = mk_files m j t' /\ (r = Ok tt -> t' = Some (own [])))
    else exists t'', mk_files m j t' = mk_files m j t'' /\ (@Err unit e = Ok tt -> t'' = Some (own []))) as Hexit.
  { intros e t'. destruct (is_oserror e); [apply t_raise|]; by exists t'. }
  t_step. t_step. t_step; [by case_match; apply HP| |apply Hexit].
  set (i := match t with Some i => i | None => own [] end).
  replace (match temporary (mk_files m j t) with None => _ | Some _ => _ end) with (mk_files m j (Some i))
    by (unfold i; by destruct t).
  clearbody i. clear t. t_step. t_step; [apply HP| |apply Hexit]. cbn [temporary]. t_step. t_step.
  destruct (_validate_owned_regular i) as [[]|e] eqn:Hi; [|apply Hexit]. apply validate_own in Hi.
  t_step. t_step; [apply HP| |apply Hexit]. t_step. t_step; [apply HP| |apply Hexit].
  t_step; [apply HP| |apply Hexit]. eexists. split; [done|]. intros _. by rewrite Hi.
Qed.

Lemma directory_fsync_spec d (Q : result unit -> files -> Prop) :
  P d -> Q (Ok tt) d -> (forall e, E e -> Q (Err e) d) -> triple P E d _directory_fsync Q.
Proof. intros HP Hok Herr. unfold _directory_fsync. repeat (t_step; try done; auto). Qed.

Lemma write_staging_spec m j t h r durable : (forall t', P (mk_files m j t')) ->
  triple P E (mk_files m j t) (write_staging h r durable)
    (fun res d => exists t', d = mk_files m j t' /\ (res = Ok tt -> t' = Some (own (image h r)))).
Proof.
  intros HP. unfold write_staging.
  t_step. t_step; [apply HP| |by eexists].
  t_step. eapply t_mono; [by apply open_temporary_spec|]. intros [[]|e] d (t' & -> & Ht'); [|by eexists].
  rewrite Ht' by done. clear t' Ht'. fold (image h r).
  assert (forall e t', triple P E (mk_files m j t') (call;; raise (A:=unit) e)
     (fun r0 d' => match r0 with
       | Ok _ => triple P E d' call (fun res d => exists t', d = mk_files m j t' /\ (res = Ok tt -> t' = Some (own (image h r))))
       | Err e' => exists t', d' = mk_files m j t' /\ (@Err unit e' = Ok tt -> t' = Some (own (image h r)))
       end)) as Hclose.
  { intros e t'. t_step. t_step; [apply HP|t_step; by eexists|by eexists]. }
  t_step. t_step. t_step. t_step; [apply HP| |apply Hclose|apply Hclose].
  t_step; [t_step; [apply HP| |apply Hclose]|];
    (t_step; [apply HP| |by eexists]; eexists; split; [done|by intros]).
Qed.

(** Removal of a file whose absence the invariant allows. *)
Lemma best_effort_spec d f (Q : result unit -> files -> Prop) :
  P (f d) -> Q (Ok tt) (f d) -> Q (Ok tt) d -> (forall e, E e -> is_oserror e = false -> Q (Err e) d) ->
  triple P E d (except_os (sys f) (ret tt)) Q.
Proof.
  intros HP Q1 Q2 Q3. t_step. t_step; [done..|].
  destruct (is_oserror e) eqn:He; [by apply t_ret|by apply Q3].
Qed.

(** Publication replaces the journal by one [rename]; after the replacement it
    fails only on a directory that must be synced, or on an exception other than
    an [OSError]. *)
Lemma journal_publish_spec m j t r durable require : (forall t', P (mk_files m j t')) ->
  (forall h t', _encode_header r = Ok h -> P (mk_files m (Some (own (image h r))) t')) ->
  triple P E (mk_files m j t) (_publish_record_mode r durable require)
    (fun res d => main d = m /\ match res with
       | Ok _ => exists h, _encode_header r = Ok h /\ journal d = Some (own (image h r))
       | Err _ => journal d = j
           \/ ((durable = true /\ require = true \/ exists e, E e /\ is_oserror e = false)
               /\ exists h, _encode_header r = Ok h /\ journal d = Some (own (image h r)))
       end).
Proof.
  intros HP HP'. unfold _publish_record_mode. t_step. t_step.
  destruct (_encode_header r) as [h|e] eqn:Hh; [|by auto].
  assert (forall t', P (mk_files m (Some (own (image h r))) t')) as HPh by (intros; by apply HP').
  t_step. t_step. eapply t_mono; [by apply write_staging_spec|]. intros [[]|e] d (t' & -> & Ht').
  2:{ apply best_effort_spec; [apply HP|by auto..]. }
  rewrite Ht' by done. t_step. t_step; [apply HPh| |].
  2:{ apply best_effort_spec; [apply HP|by auto..]. }
  t_step.
  - t_step. apply directory_fsync_spec; [apply HPh| |intros e He].
    + apply best_effort_spec; [apply HPh|..]; try (split; [done|by eauto]).
      intros e He Hos. split; [done|]. right. split; [|by eauto]. right. by eauto.
    + destruct (is_oserror e && negb require) eqn:Hc.
      * t_step. apply best_effort_spec; [apply HPh|..]; try (split; [done|by eauto]).
        intros e' He' Hos. split; [done|]. right. split; [|by eauto]. right. by eauto.
      * t_step. assert (durable = true /\ require = true \/ exists e, E e /\ is_oserror e = false).
        { destruct require; [by left|]. right. exists e. split; [done|]. by destruct (is_oserror e). }
        apply best_effort_spec; [apply HPh|..]; try (intros e' He' Hos); (split; [done|]; right; split; [done|]; by eauto).
  - apply best_effort_spec; [apply HPh|..]; try (split; [done|by eauto]).
    intros e He Hos. split; [done|]. right. split; [|by eauto]. right. by eauto.
Qed.

Lemma write_main_spec d payload (Q : result unit -> files -> Prop) : (forall t, P (put_main t d)) ->
  (forall e t, E e -> Q (Err e) (put_main t d)) -> (forall e, E e -> Q (Err e) d) -> Q (Ok tt) (put_main payload d) ->
  triple P E d (_write_main payload) Q /\ triple P E d (_write_main_relaxed payload) Q.
Proof.
  intros HP Herr H0 Hok. unfold _write_main, _write_main_relaxed. split.
  - t_step. t_step; [apply HP| |by auto]. t_step.
    t_step; [apply (HP _)| |by apply (Herr _ [])|by apply (Herr _ _)].
    t_step; [apply (HP _)|done|by apply (Herr _ _)].
  - t_step. t_step; [apply HP| |by auto].
    t_step; [apply (HP _)|done|by apply (Herr _ [])|by apply (Herr _ _)].
Qed.

Lemma remove_journal_spec d (Q : result unit -> files -> Prop) :
  P d -> P (put_journal None d) -> Q (Ok tt) d -> Q (Ok tt) (put_journal None d) ->
  (forall e, E e -> is_oserror e = false -> Q (Err e) d /\ Q (Err e) (put_journal None d)) ->
  triple P E d _remove_journal Q /\ triple P E d _remove_journal_relaxed Q.
Proof.
  intros HP HPn Q1 Q2 Q3. unfold _remove_journal, _remove_journal_relaxed. split.
  - t_step. t_step. t_step; [done| |destruct (is_oserror e) eqn:He; [by t_step|by apply Q3]].
    apply directory_fsync_spec; [done..|]. intros e HE. destruct (is_oserror e) eqn:He; [by t_step|by apply Q3].
  - apply best_effort_spec; [done..|]. intros e HE He. by apply Q3.
Qed.
End Steps.

(** ** Recovery

    What recovery makes of a disk, without faults. *)

Definition read_journal (i : inode) : result _JournalRecord :=
  _validate_owned_regular i;;
  (if _MAX_HEADER_BYTES + 1 + 2 * max_payload_bytes <? len (contents i) then Err OSError
   else decode_record (contents i)).

Definition recovered (process_alive : Z -> text -> bool) (d : files) : result text * files :=
  match journal d with
  | None => (Ok (take (Z.to_nat (max_payload_bytes + 1)) (main d)), d)
  | Some i =>
    match read_journal i with
    | Err e => (Err e, d)
    | Ok r => let target := target_of process_alive r in (Ok target, mk_files target None (temporary d))
    end
  end.

Definition no_exn (e : exn) : Prop := False.
Definition any_exn (e : exn) : Prop := True.
Definition any_disk (d : files) : Prop := True.

Lemma read_record_spec d :
  triple any_disk no_exn d _read_record (fun r d' => d' = d /\
    r = match journal d with None => Ok None | Some i => r ← read_journal i; Ok (Some r) end).
Proof.
  unfold _read_record, read_journal. t_step. t_step. t_step. t_step; [done| |done]. t_step.
  t_step; [done| |done]. destruct (journal d) as [i|]; [|by repeat t_step].
  t_step. t_step. destruct (_validate_owned_regular i) as [[]|e] eqn:Hv.
  2:{ assert (e = OSError) as -> by (unfold _validate_owned_regular in Hv; repeat case_match; congruence). change (is_oserror OSError) with true. cbv iota. by t_step. }
  cbn [mbind result_bind].
  destruct (_ <? _); [t_step; change (is_oserror OSError) with true; cbv iota; by t_step|].
  t_step. t_step; [done| |done]. t_step. t_step. t_step. t_step. t_step; [done| |done]. t_step. destruct (decode_record (contents i)) as [r|e].
  - t_step. t_step; [done| |done]. by t_step.
  - t_step. t_step; [done| |done]. by t_step.
Qed.

Lemma decode_record_bounds raw r : decode_record raw = Ok r ->
  len (before r) <= max_payload_bytes /\ len (after r) <= max_payload_bytes.
Proof.
  unfold decode_record. case_match; [done|]. case_match; [|done]. case_match; try done. case_match; [done|].
  destruct (phase_of _) as [ph|]; [|done]. cbn [mbind result_bind].
  destruct (int_member _ (lit "pid")) as [p|]; [|done]. cbn [mbind result_bind].
  destruct (int_member _ (lit "before_length")) as [bl|]; [|done]. cbn [mbind result_bind].
  destruct (int_member _ (lit "after_length")) as [al|]; [|done]. cbn [mbind result_bind].
  do 3 (case_match; [done|]). intros [= <-]. cbn [before after].
  repeat match goal with
  | H : _ || _ = false |- _ => apply orb_false_elim in H as [? ?]
  | H : negb (_ =? _) = false |- _ => apply negb_false_iff, Z.eqb_eq in H
  | H : (_ <? _) = false |- _ => apply Z.ltb_ge in H
  end. split; congruence || (etrans; [apply Z.eq_le_incl; eassumption|eassumption]).
Qed.

Lemma read_journal_bounds process_alive i r : read_journal i = Ok r ->
  len (target_of process_alive r) <= max_payload_bytes.
Proof.
  unfold read_journal. destruct (_validate_owned_regular i) as [[]|]; [|done]. cbn [mbind result_bind].
  case_match; [done|]. intros [? ?]%decode_record_bounds. unfold target_of. by case_match.
Qed.

Lemma journal_recover_spec process_alive d :
  triple any_disk no_exn d (recover_locked_payload process_alive)
    (fun r d' => (r, d') = recovered process_alive d).
Proof.
  unfold recover_locked_payload, recovered. t_step. t_step; [done| |done]. t_step.
  eapply t_mono; [apply read_record_spec|]. intros res d' [-> ->].
  destruct (journal d) as [i|]; [|by t_step].
  destruct (read_journal i) as [r|e] eqn:Hr; cbn [mbind result_bind]; [|done].
  assert (len (target_of process_alive r) <= max_payload_bytes) as Hlen by (by apply (read_journal_bounds process_alive i)).
  set (target := target_of process_alive r) in *.
  assert (triple any_disk no_exn (put_main target d) (_remove_journal;; ret target)
    (fun r d' => (r, d') = (Ok target, mk_files target None (temporary d)))) as Hremove.
  { unfold _remove_journal. t_step. t_step. t_step. t_step; [done| |done].
    apply directory_fsync_spec; [done| |done]. by t_step. }
  t_step. t_step; [|].
  - apply write_main_spec; [done..|]. exact Hremove.
  - apply negb_false_iff, bool_decide_eq_true in H. unfold len in Hlen.
    assert (put_main target d = d) as <-; [|exact Hremove].
    destruct d as [m j t]. unfold put_main. cbn [main journal temporary] in *. f_equal.
    clear Hremove Hr. rewrite <-H in Hlen |- *. rewrite length_take in Hlen. apply take_ge. lia.
Qed.

(** Recovery settles [d] on [x]: it returns [x], leaves [x] in the main document
    and no journal. *)
Definition recovers_to (process_alive : Z -> text -> bool) (d : files) (x : text) : Prop :=
  exists w, run (recover_locked_payload process_alive) (start_world d []) = (Ok x, w)
    /\ main (disk w) = x /\ journal (disk w) = None.

Lemma recover_run process_alive d : exists w,
  run (recover_locked_payload process_alive) (start_world d []) = ((recovered process_alive d).1, w)
  /\ disk w = (recovered process_alive d).2.
Proof.
  pose proof (triple_run _ _ _ _ _ [] [] (journal_recover_spec process_alive d) I (Forall_nil_2 _) (or_introl eq_refl)) as H.
  unfold run. destruct (recover_locked_payload process_alive [] (start_world d [])) as [[r k] w].
  destruct H as [<- _]. by exists w.
Qed.

(** The disk states recovery settles on [x]. *)
Lemma recovers_iff process_alive d x : recovers_to process_alive d x <->
  match journal d with
  | None => main d = x /\ take (Z.to_nat (max_payload_bytes + 1)) x = x
  | Some i => exists r, read_journal i = Ok r /\ target_of process_alive r = x
  end.
Proof.
  unfold recovers_to. destruct (recover_run process_alive d) as (w & -> & Hw). unfold recovered in *.
  destruct (journal d) as [i|] eqn:Hj.
  - destruct (read_journal i) as [r|e]; simpl in *.
    + split; [intros (w' & [= <- <-] & _); by eauto|]. intros (r' & [= <-] & <-). exists w. by rewrite Hw.
    + split; [by intros (w' & ? & _)|]. by intros (r' & ? & _).
  - simpl in *. split.
    + intros (w' & [= <- <-] & Hm & _). rewrite Hw in Hm. by rewrite <-Hm at 2 3.
    + intros [<- Ht]. exists w. by rewrite Hw, Ht.
Qed.

(** Recovery under faults: it may stop anywhere, and what it leaves is still
    settled on the same document. *)

Lemma read_record_faulty (P : files -> Prop) (E : exn -> Prop) d : P d ->
  triple P E d _read_record (fun r d' => d' = d /\
    match r with
    | Ok None => journal d = None
    | Ok (Some r) => exists i, journal d = Some i /\ read_journal i = Ok r
    | Err _ => True
    end).
Proof.
  intros HP. unfold _read_record, read_journal.
  t_step. apply t_mono with (Q := fun r d' => d' = d /\ match r with
    | Ok None => journal d = None
    | Ok (Some raw) => exists i, journal d = Some i /\ raw = contents i
        /\ forall r, decode_record raw = Ok r -> read_journal i = Ok r
    | Err _ => True end).
  { t_step. t_step. t_step; [done| |destruct (is_oserror e); [by t_step|done]]. t_step.
    t_step; [done| |destruct (is_oserror e); [by t_step|done]].
    destruct (journal d) as [i|] eqn:Hj; [|by t_step]. t_step. t_step.
    destruct (_validate_owned_regular i) as [[]|e] eqn:Hv; [|destruct (is_oserror e); [by t_step|done]].
    destruct (_ <? _) eqn:Hlt; [t_step; destruct (is_oserror OSError); [by t_step|done]|].
    t_step. t_step; [done| |destruct (is_oserror e); [by t_step|done]]. t_step.
    split; [done|]. exists i. split_and!; [done..|]. intros r Hr. unfold read_journal. rewrite Hv. cbn [mbind result_bind].
    by rewrite Hlt. }
  intros [[raw|]|e] d' [-> H]; [|by t_step|done]. destruct H as (i & Hj & -> & Hi).
  t_step. t_step. t_step. t_step; [done| |t_step; t_step; [done|by t_step|done]].
  t_step. destruct (decode_record (contents i)) as [r|e]; [|t_step; t_step; [done|by t_step|done]].
  t_step. t_step; [done| |done]. t_step. split; [done|]. exists i. auto.
Qed.

(** Recovery keeps every disk it passes through within [P], if [P] does not look at
    the main document while there is a journal, and holds of the settled disk. *)
Lemma recover_frame_spec process_alive d x (P : files -> Prop) (E : exn -> Prop) : recovers_to process_alive d x -> P d ->
  (forall m, journal d <> None -> P (mk_files m (journal d) (temporary d))) -> P (mk_files x None (temporary d)) ->
  triple P E d (recover_locked_payload process_alive)
    (fun r d' => match r with Ok y => y = x /\ main d' = x /\ (journal d' = None \/ journal d' = journal d) | Err _ => True end).
Proof.
  intros Hx HP Hany Hnone. pose proof Hx as Hs. rewrite recovers_iff in Hs. unfold recover_locked_payload.
  t_step. t_step; [done| |done]. t_step. eapply t_mono; [by apply read_record_faulty|].
  intros [[r|]|e] d' [-> H]; [|rewrite H in Hs; destruct Hs as [<- Ht]; t_step; rewrite Ht; split_and!; auto|done].
  destruct H as (i & Hj & Hr). rewrite Hj in Hs. destruct Hs as (r' & Hr' & <-). rewrite Hr in Hr'. injection Hr' as <-.
  set (x := target_of process_alive r) in *.
  assert (Z.of_nat (length x) <= max_payload_bytes) as Hlen by (by apply (read_journal_bounds process_alive i)).
  assert (forall m, P (mk_files m (journal d) (temporary d))) as HP' by (intros m; apply Hany; by rewrite Hj).
  assert (triple P E (mk_files x (journal d) (temporary d)) (_remove_journal;; ret x)
    (fun r d' => match r with Ok y => y = x /\ main d' = x /\ (journal d' = None \/ journal d' = journal d) | Err _ => True end)) as Hrem.
  { t_step. apply remove_journal_spec; [apply HP'|exact Hnone|t_step; by auto|t_step; by auto|done]. }
  t_step. t_step.
  - apply write_main_spec; [apply HP'|done|done|exact Hrem].
  - apply negb_false_iff, bool_decide_eq_true in H. destruct d as [m j t]. cbn [main journal temporary] in *.
    assert (m = x) as ->; [|exact Hrem]. rewrite <-H. symmetry. apply take_ge. rewrite <-H, length_take in Hlen. lia.
Qed.

Lemma recover_restart_spec process_alive d x (E : exn -> Prop) : recovers_to process_alive d x ->
  triple (fun d' => recovers_to process_alive d' x) E d (recover_locked_payload process_alive)
    (fun r d' => recovers_to process_alive d' x /\ match r with Ok y => y = x /\ main d' = x | Err _ => True end).
Proof.
  intros Hx. pose proof Hx as Hs. rewrite recovers_iff in Hs. apply t_final. eapply t_mono; [apply (recover_frame_spec _ _ x); [done..| |]|].
  - intros m Hj. rewrite recovers_iff. cbn [journal]. by destruct (journal d).
  - rewrite recovers_iff. simpl. split; [done|]. destruct (journal d) as [i|]; [|by destruct Hs].
    destruct Hs as (r & Hr & <-). apply take_ge. pose proof (read_journal_bounds process_alive i r Hr). unfold len in *. lia.
  - intros [y|e] d' H ?; split; try done. tauto.
Qed.

Lemma read_published r h : _encode_header r = Ok h -> 0 < pid r -> valid_phase (phase r) ->
  read_journal (own (image h r)) = Ok (stored r).
Proof.
  intros Hh Hpid Hphase. unfold read_journal, _validate_owned_regular, own. cbn [regular st_nlink st_uid contents].
  rewrite !Z.eqb_refl. cbn [negb mbind result_bind Z.eqb Pos.eqb].
  rewrite (proj2 (Z.ltb_ge _ _)); [by apply decode_encoded|].
  apply encode_header_ok in Hh as (_ & Hl & Hb & Ha). unfold image, len in *. rewrite !length_app. simpl. lia.
Qed.

(** ** Commits

    Both commit functions have this shape; they differ in what they sync. *)

Section Transaction.
Variables (getpid : Z) (process_start before_image after_image : text).
Hypothesis pid_positive : 0 < getpid.

Abbreviation prep := (prepared getpid process_start before_image after_image).
Abbreviation comm := (committed getpid process_start before_image after_image).

Definition commit_with (durable : bool) (write : text -> M world unit) (remove : M world unit) : M world unit :=
  if bool_decide (before_image = after_image) then ret tt
  else if max_payload_bytes <? len after_image then raise OSError
  else
    _publish_record_mode prep durable true;;
    write after_image;;
    try_except (_publish_record_mode comm durable false) (fun e => write before_image;; remove;; raise e);;
    remove.

Section CommitSpec.
Variables (process_alive : Z -> text -> bool) (j0 : option inode) (t0 : option inode).
Hypothesis settled : recovers_to process_alive (mk_files before_image j0 t0) before_image.

Abbreviation to := (recovers_to process_alive).

(** The disk settles on one of the two images. *)
Definition atomic_disk (d : files) : Prop := to d before_image \/ to d after_image.

Lemma settled_before t : to (mk_files before_image j0 t) before_image.
Proof. pose proof settled as H. rewrite recovers_iff in *. exact H. Qed.

Lemma settled_prepared h m t : _encode_header prep = Ok h ->
  to (mk_files m (Some (own (image h prep))) t)
     (if process_alive getpid (take 128 process_start) then before_image else after_image).
Proof.
  intros Hh. rewrite recovers_iff. exists (stored prep). split; [apply read_published; [done..|by left]|].
  unfold target_of. simpl. by destruct (process_alive _ _).
Qed.

Lemma settled_committed h m t : _encode_header comm = Ok h ->
  to (mk_files m (Some (own (image h comm))) t) after_image.
Proof.
  intros Hh. rewrite recovers_iff. exists (stored comm). split; [apply read_published; [done..|by right]|done].
Qed.

Lemma settled_none h t : _encode_header prep = Ok h ->
  to (mk_files before_image None t) before_image /\ to (mk_files after_image None t) after_image.
Proof.
  intros (_ & _ & Hb & Ha)%encode_header_ok. unfold len in *. simpl in Hb, Ha.
  rewrite !recovers_iff. simpl. split; (split; [done|apply take_ge; lia]).
Qed.

Lemma atomic_prepared h m t : _encode_header prep = Ok h -> atomic_disk (mk_files m (Some (own (image h prep))) t).
Proof.
  intros Hh. pose proof (settled_prepared h m t Hh) as H. unfold atomic_disk.
  destruct (process_alive _ _); [by left|by right].
Qed.

Variable E : exn -> Prop.

(** What a commit promises when it returns, and when it raises. *)
Definition commit_post (r : result unit) (d : files) : Prop :=
  match r with
  | Ok _ => main d = after_image /\ to d after_image
  | Err _ => (forall e, E e -> is_oserror e = true) -> process_alive getpid (take 128 process_start) = true ->
             to d before_image
  end.

Lemma post_prepared h m t e : _encode_header prep = Ok h ->
  commit_post (Err e) (mk_files m (Some (own (image h prep))) t).
Proof. intros Hh _ Ha. pose proof (settled_prepared h m t Hh) as H. by rewrite Ha in H. Qed.

Lemma post_not_os e d : (exists e', E e' /\ is_oserror e' = false) -> commit_post (Err e) d.
Proof. intros (e' & He & Hos) Hall. by rewrite Hall in Hos. Qed.

Variables (durable : bool) (write : text -> M world unit) (remove : M world unit).

Hypothesis write_spec : forall d payload (Q : result unit -> files -> Prop), (forall t, atomic_disk (put_main t d)) ->
  (forall e t, E e -> Q (Err e) (put_main t d)) -> (forall e, E e -> Q (Err e) d) -> Q (Ok tt) (put_main payload d) ->
  triple atomic_disk E d (write payload) Q.

Hypothesis remove_spec : forall d (Q : result unit -> files -> Prop),
  atomic_disk d -> atomic_disk (put_journal None d) -> Q (Ok tt) d -> Q (Ok tt) (put_journal None d) ->
  (forall e, E e -> is_oserror e = false -> Q (Err e) d /\ Q (Err e) (put_journal None d)) ->
  triple atomic_disk E d remove Q.

(** Rolling back to the before image, from a prepared or a committed journal. *)
Lemma journal_rollback_spec h e i t : _encode_header prep = Ok h ->
  (forall m, atomic_disk (mk_files m (Some i) t)) ->
  (forall e m, commit_post (Err e) (mk_files m (Some i) t)) ->
  triple atomic_disk E (mk_files after_image (Some i) t) (write before_image;; remove;; raise (A:=unit) e)
    (fun r d => match r with Ok a => triple atomic_disk E d remove commit_post | Err e => commit_post (Err e) d end).
Proof.
  intros Hh HP Hpost. destruct (settled_none h t Hh) as [Hnb _].
  assert (forall e, commit_post (Err e) (mk_files before_image None t)) as Hnone by (intros ? _ _; exact Hnb).
  t_step. apply write_spec; [intros m; apply HP|intros; apply Hpost..|]. unfold put_main. cbn [journal temporary].
  t_step. apply remove_spec; [apply HP|by left|t_step; apply Hpost|t_step; apply Hnone|].
  intros e' _ _. split; [apply Hpost|apply Hnone].
Qed.

Lemma commit_with_spec :
  triple atomic_disk E (mk_files before_image j0 t0) (commit_with durable write remove) commit_post.
Proof.
  unfold commit_with. destruct (bool_decide_reflect (before_image = after_image)) as [Heq|Hne].
  { t_step. simpl. rewrite <-Heq. split; [done|exact settled]. }
  destruct (Z.ltb_spec max_payload_bytes (len after_image)); [t_step; intros _ _; exact settled|].
  t_step. eapply t_mono; [apply journal_publish_spec|].
  { intros t'. left. apply settled_before. }
  { intros h t' Hh. by apply atomic_prepared. }
  intros [[]|e] [m1 j1 t1]; cbn [main journal].
  2:{ intros [-> [->|[_ (h & Hh & ->)]]]; [intros _ _; apply settled_before|by apply post_prepared]. }
  intros [-> (h & Hh & ->)]. destruct (settled_none h t1 Hh) as [_ Hna].
  t_step. apply write_spec; [intros; by apply atomic_prepared|intros; by apply post_prepared..|].
  unfold put_main. cbn [journal temporary]. t_step. t_step.
  eapply t_mono; [apply journal_publish_spec|].
  { intros t'. by apply atomic_prepared. }
  { intros h' t' Hh'. right. by apply settled_committed. }
  intros [[]|e] [m2 j2 t2]; cbn [main journal].
  - intros [-> (h' & Hh' & ->)]. destruct (settled_none h t2 Hh) as [_ Hna2].
    apply remove_spec; [right; by apply settled_committed|by right|..].
    + split; [done|]. by apply settled_committed.
    + split; [done|exact Hna2].
    + intros e He Hos. split; apply post_not_os; eauto.
  - intros [-> [->|[Hx (h' & Hh' & ->)]]].
    + apply (journal_rollback_spec h); [done|intros; by apply atomic_prepared|intros; by apply post_prepared].
    + apply (journal_rollback_spec h); [done|intros; right; by apply settled_committed|].
      intros e' m. apply post_not_os. destruct Hx as [[_ ?]|?]; done.
Qed.
End CommitSpec.

(** A commit keeps every disk it passes through within [P], when [P] holds of the
    old disk, of the disks with either record, and of the two settled disks. *)
Lemma commit_frame_spec (P : files -> Prop) (E : exn -> Prop) j0 t0 : (forall t, P (mk_files before_image j0 t)) ->
  (forall h m t, _encode_header prep = Ok h -> P (mk_files m (Some (own (image h prep))) t)) ->
  (forall h m t, _encode_header comm = Ok h -> P (mk_files m (Some (own (image h comm))) t)) ->
  (forall h t, _encode_header prep = Ok h -> P (mk_files before_image None t) /\ P (mk_files after_image None t)) ->
  triple P E (mk_files before_image j0 t0) (commit_locked_payload getpid process_start before_image after_image)
    (fun r d => match r with
       | Ok _ => before_image = after_image \/ forall process_alive, recovers_to process_alive d after_image
       | Err _ => True
       end).
Proof.
  intros H0 Hprep Hcomm Hnone. unfold commit_locked_payload. destruct (bool_decide_reflect (before_image = after_image)) as [Heq|Hne]; [t_step; by left|].
  destruct (Z.ltb_spec max_payload_bytes (len after_image)); [by t_step|].
  t_step. eapply t_mono; [apply journal_publish_spec; [exact H0|intros; by apply Hprep]|].
  intros [[]|e] [m1 j1 t1]; cbn [main journal]; [|done]. intros [-> (h & Hh & ->)].
  t_step. apply write_main_spec; [intros; by apply Hprep|done..|]. unfold put_main. cbn [journal temporary]. t_step. t_step.
  eapply t_mono; [apply journal_publish_spec; [intros; by apply Hprep|intros; by apply Hcomm]|].
  intros [[]|e] [m2 j2 t2]; cbn [main journal].
  - intros [-> (h' & Hh' & ->)]. pose proof (fun a => settled_committed a h' after_image t2 Hh') as Hsc.
    apply remove_journal_spec; [by apply Hcomm|by apply (Hnone h)|by right| |done].
    right. intros a. unfold put_journal. cbn [main temporary]. by destruct (settled_none a h t2 Hh).
  - assert (Hroll : forall i, (forall m, P (mk_files m (Some i) t2)) ->
      triple P E (mk_files after_image (Some i) t2) (_write_main before_image;; _remove_journal;; raise (A:=unit) e)
        (fun r d => match r with Ok a => triple P E d _remove_journal (fun r d => match r with
           | Ok _ => before_image = after_image \/ forall process_alive, recovers_to process_alive d after_image | Err _ => True end) | Err e => True end)).
    { intros i HP. t_step. apply write_main_spec; [intros; by apply HP|done..|]. unfold put_main. cbn [journal temporary].
      t_step. apply remove_journal_spec; [apply HP|by apply (Hnone h)|by t_step|by t_step|done]. }
    intros [-> [->|[_ (h' & Hh' & ->)]]]; apply Hroll; intros; [by apply Hprep|by apply Hcomm].
Qed.
End Transaction.

(** ** Headers fit *)

Lemma length_escape c : (length (escape c) <= 6)%nat.
Proof. destruct c as [[] [] [] [] [] [] [] []]; simpl; lia. Qed.

Lemma length_print_string s : (length (print_string s) <= 6 * length s + 2)%nat.
Proof.
  unfold print_string. simpl. rewrite length_app. simpl.
  assert (length (concat (escape <$> s)) <= 6 * length s)%nat; [|lia].
  induction s as [|c s IH]; [done|]. rewrite fmap_cons. cbn [concat]. rewrite length_app.
  pose proof (length_escape c). cbn [length]. lia.
Qed.

Lemma length_print_int z : 0 <= z < 10 ^ 20 -> (length (print_int z) <= 20)%nat.
Proof.
  intros Hz. unfold print_int. destruct (Z.ltb_spec z 0); [lia|]. unfold decimal.
  destruct (decimal_loop_spec _ z [] (log2_fuel z (proj1 Hz)) ltac:(lia)) as (ds & -> & _ & _ & Hl).
  rewrite app_nil_r. apply Hl; [lia|]. change (Z.of_nat 20) with 20. lia.
Qed.

Lemma header_length r : length (phase r) = 8%nat \/ length (phase r) = 9%nat ->
  0 <= pid r < 10 ^ 20 -> len (before r) < 10 ^ 20 -> len (after r) < 10 ^ 20 ->
  len (dumps (header_json r)) <= _MAX_HEADER_BYTES.
Proof.
  intros Hp Hpid Hb Ha. rewrite dumps_header. unfold sorted_header, len, _JOURNAL_VERSION in *. cbn [print_json map join].
  repeat (rewrite length_app || rewrite length_cons).
  pose proof (length_print_int (Z.of_nat (length (before r))) ltac:(lia)).
  pose proof (length_print_int (Z.of_nat (length (after r))) ltac:(lia)).
  pose proof (length_print_int (pid r) ltac:(lia)).
  pose proof (length_print_string (phase r)). pose proof (length_print_string (take 128 (start r))).
  pose proof (length_print_string (_digest (before r))). pose proof (length_print_string (_digest (after r))).
  unfold _digest in *. rewrite !Sha256.length_hexdigest in *. rewrite length_take in *.
  repeat match goal with
  | |- context [length (print_string (lit ?s))] =>
    let v := eval vm_compute in (length (print_string (lit s))) in change (length (print_string (lit s))) with v
  | |- context [length (lit ?s)] => let v := eval vm_compute in (length (lit s)) in change (length (lit s)) with v
  end.
  change (length (print_int 1)) with 1%nat. unfold _MAX_HEADER_BYTES. lia.
Qed.

(** A header of a process on this machine always fits its bound. *)
Lemma encode_header_fits r : valid_phase (phase r) -> 0 <= pid r < 10 ^ 20 -> max_payload_bytes < 10 ^ 20 ->
  len (before r) <= max_payload_bytes -> len (after r) <= max_payload_bytes ->
  _encode_header r = Ok (dumps (header_json r)).
Proof.
  intros Hp Hpid Hm Hb Ha. unfold _encode_header. rewrite !(proj2 (Z.ltb_ge max_payload_bytes _)) by lia.
  rewrite encode_utf8_ascii by apply header_printable. cbn [orb].
  rewrite (proj2 (Z.ltb_ge _ _)); [done|]. apply header_length; [|lia..].
  destruct Hp as [-> | ->]; [by left|by right].
Qed.

(** ** Commits without faults succeed *)

Definition exactly (d' : files) (r : result unit) (d : files) : Prop := r = Ok tt /\ d = d'.

Lemma publish_total m j r h durable require : _encode_header r = Ok h ->
  triple any_disk no_exn (mk_files m j None) (_publish_record_mode r durable require)
    (exactly (mk_files m (Some (own (image h r))) None)).
Proof.
  intros Hh. unfold _publish_record_mode. rewrite Hh. t_step. t_step. t_step. t_step.
  assert (triple any_disk no_exn (mk_files m j None) (write_staging h r durable)
    (exactly (mk_files m j (Some (own (image h r)))))) as Hstage.
  { unfold write_staging, open_temporary. t_step. t_step; [done| |done]. t_step. t_step. t_step. t_step; [done| |done].
    t_step. t_step; [done| |done]. cbn [temporary put_temporary]. t_step. t_step.
    unfold _validate_owned_regular. cbn [regular st_nlink st_uid]. rewrite !Z.eqb_refl. cbv iota beta delta [negb].
    t_step. t_step; [done| |done]. t_step. t_step; [done| |done]. t_step; [done| |done].
    t_step. t_step. t_step. t_step; [done| |done..]. t_step; [t_step; [done| |done]|]; (t_step; [done|done|done]). }
  eapply t_mono; [exact Hstage|]. intros res d [-> ->]. t_step. t_step; [done| |done].
  assert (forall d, triple any_disk no_exn d (except_os (sys (put_temporary None)) (ret tt))
    (exactly (put_temporary None d))) as Hc by (intros; t_step; by t_step).
  t_step; [t_step; apply directory_fsync_spec; [done| |done]|]; apply Hc.
Qed.

Lemma commit_total getpid process_start before_image after_image durable write remove j :
  0 < getpid < 10 ^ 20 -> max_payload_bytes < 10 ^ 20 ->
  len before_image <= max_payload_bytes -> len after_image <= max_payload_bytes ->
  before_image <> after_image ->
  (forall d payload, triple any_disk no_exn d (write payload) (exactly (put_main payload d))) ->
  (forall d, triple any_disk no_exn d remove (exactly (put_journal None d))) ->
  triple any_disk no_exn (mk_files before_image j None)
    (commit_with getpid process_start before_image after_image durable write remove)
    (exactly (mk_files after_image None None)).
Proof.
  intros Hpid Hm Hb Ha Hne Hw Hr. unfold commit_with. rewrite bool_decide_false by done.
  rewrite (proj2 (Z.ltb_ge max_payload_bytes _)) by done.
  t_step. eapply t_mono; [apply publish_total, encode_header_fits; try done; [by left|simpl; lia]|].
  intros res d [-> ->]. t_step. eapply t_mono; [apply Hw|]. intros res d [-> ->]. t_step. t_step.
  eapply t_mono; [apply publish_total, encode_header_fits; try done; [by right|simpl; lia]|].
  intros res d [-> ->]. eapply t_mono; [apply Hr|]. by intros res d [-> ->].
Qed.
End Journal.

(** ** Main theorems *)

(** Either commit function. *)
Definition commit (relaxed : bool) (euid max_payload_bytes getpid : Z) (process_start before_image after_image : text) : M world unit :=
  if relaxed then commit_locked_payload_relaxed euid max_payload_bytes getpid process_start before_image after_image
  else commit_locked_payload euid max_payload_bytes getpid process_start before_image after_image.

Lemma commit_triple conv euid max_payload_bytes getpid process_start before_image after_image relaxed process_alive E j t :
  0 < getpid ->
  recovers_to conv euid max_payload_bytes process_alive (mk_files before_image j t) before_image ->
  triple (atomic_disk conv euid max_payload_bytes before_image after_image process_alive) E (mk_files before_image j t)
    (commit relaxed euid max_payload_bytes getpid process_start before_image after_image)
    (commit_post conv euid max_payload_bytes getpid process_start before_image after_image process_alive E).
Proof.
  intros Hpid Hs. destruct relaxed.
  - apply (commit_with_spec conv euid max_payload_bytes getpid process_start before_image after_image Hpid process_alive j t Hs E
      false _write_main_relaxed _remove_journal_relaxed); intros; [by apply write_main_spec|by apply remove_journal_spec].
  - apply (commit_with_spec conv euid max_payload_bytes getpid process_start before_image after_image Hpid process_alive j t Hs E
      true _write_main _remove_journal); intros; [by apply write_main_spec|by apply remove_journal_spec].
Qed.

(** C4: a commit is atomic under crashes.  Whatever faults and asynchronous
    exceptions it meets, every disk state it passes through is settled by
    recovery on the before image or on the after image, whether or not the
    owner of the journal is still alive. *)
Theorem commit_crash_atomic conv euid max_payload_bytes getpid process_start before_image after_image relaxed
    process_alive j t k plan :
  0 < getpid ->
  recovers_to conv euid max_payload_bytes process_alive (mk_files before_image j t) before_image ->
  forall d, d ∈ trace (commit relaxed euid max_payload_bytes getpid process_start before_image after_image k
                         (start_world (mk_files before_image j t) plan)).2 ->
  recovers_to conv euid max_payload_bytes process_alive d before_image
  \/ recovers_to conv euid max_payload_bytes process_alive d after_image.
Proof.
  intros Hpid Hs d Hd.
  pose proof (triple_run _ _ _ _ _ k plan
    (commit_triple conv euid max_payload_bytes getpid process_start before_image after_image relaxed process_alive any_exn j t Hpid Hs)
    (or_introl Hs)) as H.
  destruct (commit _ _ _ _ _ _ _ k _) as [[r k'] w]. simpl in Hd.
  destruct H as [_ Ht]; [|by right|by apply (proj1 (Forall_forall _ _) Ht)].
  apply Forall_forall. by intros [[]|] _.
Qed.

(** The faults of an operating system that reports errors. *)
Definition os_faults (plan : list (option fault)) : Prop := Forall (fault_in (fun e => is_oserror e = true)) plan.

(** C5: a commit that returns has written the after image, and recovery keeps
    it.  A commit that raises because of operating-system errors is undone by the
    recovery that the live process runs next. *)
Theorem commit_outcome conv euid max_payload_bytes getpid process_start before_image after_image relaxed
    process_alive j t k plan :
  0 < getpid ->
  recovers_to conv euid max_payload_bytes process_alive (mk_files before_image j t) before_image ->
  match commit relaxed euid max_payload_bytes getpid process_start before_image after_image k
          (start_world (mk_files before_image j t) plan) with
  | (Ok _, _, w) =>
    main (disk w) = after_image /\ recovers_to conv euid max_payload_bytes process_alive (disk w) after_image
  | (Err _, _, w) =>
    k = [] -> os_faults plan -> process_alive getpid (take 128 process_start) = true ->
    recovers_to conv euid max_payload_bytes process_alive (disk w) before_image
  end.
Proof.
  intros Hpid Hs.
  pose proof (fun E => triple_run _ E _ _ _ k plan
    (commit_triple conv euid max_payload_bytes getpid process_start before_image after_image relaxed process_alive E j t Hpid Hs)
    (or_introl Hs)) as H.
  destruct (commit _ _ _ _ _ _ _ k _) as [[[[]|e] k'] w].
  - destruct (H any_exn) as [[Hm Hr] _]; [|by right|done]. apply Forall_forall. by intros [[]|] _.
  - intros -> Hos Ha. destruct (H (fun e => is_oserror e = true)) as [Hp _]; [done|by left|]. by apply Hp.
Qed.

(** A commit of images within the bound, without faults. *)
Lemma commit_exact euid max_payload_bytes getpid process_start before_image after_image relaxed j :
  0 < getpid < 10 ^ 20 -> max_payload_bytes < 10 ^ 20 ->
  len before_image <= max_payload_bytes -> len after_image <= max_payload_bytes ->
  before_image <> after_image ->
  triple any_disk no_exn (mk_files before_image j None)
    (commit relaxed euid max_payload_bytes getpid process_start before_image after_image)
    (exactly (mk_files after_image None None)).
Proof.
  intros Hpid Hm Hb Ha Hne.
  destruct relaxed; [apply (commit_total euid max_payload_bytes getpid process_start before_image after_image false _write_main_relaxed _remove_journal_relaxed)
                    |apply (commit_total euid max_payload_bytes getpid process_start before_image after_image true _write_main _remove_journal)];
    try done; intros; [by apply write_main_spec|unfold _remove_journal_relaxed; t_step; by t_step|by apply write_main_spec|].
  unfold _remove_journal. t_step. t_step. t_step; [done| |done]. by apply directory_fsync_spec.
Qed.

(** Without faults a commit of images within the bound returns, with the
    after image in the main document and no journal left behind. *)
Theorem commit_succeeds euid max_payload_bytes getpid process_start before_image after_image relaxed j :
  0 < getpid < 10 ^ 20 -> max_payload_bytes < 10 ^ 20 ->
  len before_image <= max_payload_bytes -> len after_image <= max_payload_bytes ->
  before_image <> after_image ->
  exists w, run (commit relaxed euid max_payload_bytes getpid process_start before_image after_image)
              (start_world (mk_files before_image j None) []) = (Ok tt, w)
    /\ disk w = mk_files after_image None None.
Proof.
  intros Hpid Hm Hb Ha Hne. pose proof (commit_exact euid max_payload_bytes getpid process_start before_image after_image relaxed j Hpid Hm Hb Ha Hne) as H.
  pose proof (triple_run _ _ _ _ _ [] [] H I (Forall_nil_2 _) (or_introl eq_refl)) as Hrun. unfold run.
  destruct (commit _ _ _ _ _ _ _ [] _) as [[r k] w]. destruct Hrun as [[-> Hd] _]. by exists w.
Qed.

(** What [_publish_record] writes, [_read_record] reads back, with the start
    token cut to 128 characters; the header always fits its bound. *)
Theorem journal_record_roundtrip conv max_payload_bytes r :
  valid_phase (phase r) -> 0 < pid r < 10 ^ 20 -> max_payload_bytes < 10 ^ 20 ->
  len (before r) <= max_payload_bytes -> len (after r) <= max_payload_bytes ->
  exists h, _encode_header max_payload_bytes r = Ok h
    /\ decode_record conv max_payload_bytes (h ++ [newline] ++ before r ++ after r)
       = Ok (mk_record (phase r) (pid r) (take 128 (start r)) (before r) (after r)).
Proof.
  intros Hp Hpid Hm Hb Ha.
  assert (_encode_header max_payload_bytes r = Ok (dumps (header_json r))) as Hh by (apply encode_header_fits; done || lia).
  eexists. split; [exact Hh|]. apply (decode_encoded conv max_payload_bytes r _ Hh); [lia|done].
Qed.

(** Recovery is restartable: whatever faults cut it, every disk state it
    passes through still settles on the same document, and when it returns it
    returns that document, which the main file then holds. *)
Theorem recovery_restartable conv euid max_payload_bytes process_alive d x k plan :
  recovers_to conv euid max_payload_bytes process_alive d x ->
  match recover_locked_payload conv euid max_payload_bytes process_alive k (start_world d plan) with
  | (r, _, w) =>
    (forall d', d' ∈ trace w -> recovers_to conv euid max_payload_bytes process_alive d' x)
    /\ (forall y, r = Ok y -> y = x /\ main (disk w) = x)
  end.
Proof.
  intros Hx. pose proof (triple_run _ any_exn _ _ _ k plan (recover_restart_spec conv euid max_payload_bytes process_alive d x any_exn Hx) Hx) as H.
  destruct (recover_locked_payload _ _ _ _ _ _) as [[r k'] w]. destruct H as [[_ Hr] Ht]; [|by right|].
  { apply Forall_forall. by intros [[]|] _. }
  split; [by apply Forall_forall|]. intros y ->. exact Hr.
Qed.

Lemma lock_loop_bounded attempts deadline now : attempts <> [] ->
  Forall (fun a => flock a <> Interrupted /\ 0 <= elapsed a /\ 0 <= oversleep a) attempts ->
  deadline - now <= _COORDINATION_LOCK_POLL * (Z.of_nat (length attempts) - 1) ->
  exists r, lock_loop deadline now attempts = Some r.
Proof.
  revert now. induction attempts as [|a rest IH]; intros now Hne Hall Hle; [done|].
  inversion_clear Hall as [|?? (Hi & He & Ho) Hrest]. cbn [lock_loop]. destruct (flock a); eauto; [|done].
  destruct (Z.leb_spec (deadline - (now + elapsed a)) 0); [by eauto|].
  rewrite length_cons, Nat2Z.inj_succ in Hle. unfold _COORDINATION_LOCK_POLL in *.
  apply IH; [|done|lia]. intros ->. simpl in Hle. lia.
Qed.

(** The wait for the lock is bounded: polling every 50 ms, at most
    [timeout / 50 ms + 1] attempts are made before the lock is granted, refused
    or timed out, however long each call takes. *)
Theorem lock_wait_bounded timeout now attempts :
  Forall (fun a => flock a <> Interrupted /\ 0 <= elapsed a /\ 0 <= oversleep a) attempts ->
  0 <= timeout <= _COORDINATION_LOCK_POLL * (Z.of_nat (length attempts) - 1) ->
  exists r, acquire_lock timeout now attempts = Some r.
Proof.
  intros Hall Ht. apply lock_loop_bounded; [|done|lia]. intros ->. unfold _COORDINATION_LOCK_POLL in Ht. simpl in Ht. lia.
Qed.

(** ** Witnesses *)

Module Example.

Definition conv : conversions :=
  mk_conversions (fun _ => Err ValueError) (fun _ => false) (fun _ => lit "?").

Definition alive (p : Z) (s : text) : bool := p =? 7.

(** The write of the main document fails after one byte. *)
Definition plan : list (option fault) :=
  replicate 16 None ++ [Some (OSError, 1%nat)].

Lemma clean_start : recovers_to conv 1000 64 alive (mk_files (lit "a") None None) (lit "a").
Proof. by apply recovers_iff. Qed.

Lemma commit_crash_atomic_witness :
  Forall (fun d => recovers_to conv 1000 64 alive d (lit "a") \/ recovers_to conv 1000 64 alive d (lit "bcd"))
    (trace (commit false 1000 64 7 (lit "boot") (lit "a") (lit "bcd") [13%nat]
              (start_world (mk_files (lit "a") None None) plan)).2).
Proof. apply Forall_forall; apply commit_crash_atomic; [lia|exact clean_start]. Defined.

Lemma commit_outcome_witness :
  match commit false 1000 64 7 (lit "boot") (lit "a") (lit "bcd") [] (start_world (mk_files (lit "a") None None) plan) with
  | (Ok _, _, w) => main (disk w) = lit "bcd" /\ recovers_to conv 1000 64 alive (disk w) (lit "bcd")
  | (Err _, _, w) =>
    @nil nat = [] -> os_faults plan -> alive 7 (take 128 (lit "boot")) = true ->
    recovers_to conv 1000 64 alive (disk w) (lit "a")
  end.
Proof. apply commit_outcome; [lia|exact clean_start]. Defined.

Lemma commit_succeeds_witness :
  exists w, run (commit true 1000 64 7 (lit "boot") (lit "a") (lit "bcd"))
              (start_world (mk_files (lit "a") None None) []) = (Ok tt, w)
    /\ disk w = mk_files (lit "bcd") None None.
Proof. apply commit_succeeds; [lia|lia|vm_compute; discriminate|vm_compute; discriminate|discriminate]. Defined.

Lemma journal_record_roundtrip_witness :
  exists h, _encode_header 64 (mk_record _PHASE_PREPARED 7 (lit "boot") (lit "a") (lit "bcd")) = Ok h
    /\ decode_record conv 64 (h ++ [newline] ++ lit "a" ++ lit "bcd")
       = Ok (mk_record _PHASE_PREPARED 7 (take 128 (lit "boot")) (lit "a") (lit "bcd")).
Proof.
  apply (journal_record_roundtrip conv 64 (mk_record _PHASE_PREPARED 7 (lit "boot") (lit "a") (lit "bcd")));
    [by left|simpl; lia|lia|vm_compute; discriminate|vm_compute; discriminate].
Defined.

(** The state a commit leaves when its write of the main document fails. *)
Definition torn : files :=
  disk (commit false 1000 64 7 (lit "boot") (lit "a") (lit "bcd") [] (start_world (mk_files (lit "a") None None) plan)).2.

Lemma recovery_restartable_witness :
  match recover_locked_payload conv 1000 64 alive [2%nat] (start_world torn [None; Some (OSError, 0%nat)]) with
  | (r, _, w) =>
    (forall d', d' ∈ trace w -> recovers_to conv 1000 64 alive d' (lit "a"))
    /\ (forall y, r = Ok y -> y = lit "a" /\ main (disk w) = lit "a")
  end.
Proof.
  apply recovery_restartable. apply recovers_iff. vm_compute. eexists. split; reflexivity.
Defined.

Lemma lock_wait_bounded_witness :
  exists r, acquire_lock 100000000 0 (replicate 3 (mk_attempt Blocked 0 0)) = Some r.
Proof.
  apply lock_wait_bounded; [|split; vm_compute; discriminate].
  repeat constructor; simpl; discriminate || lia.
Defined.

End Example.
