(* ===== verification/CrossProcessStorage.v ===== *)
(** * CrossProcessStorage: temporary storage shared by processes

    [core_impl/cross_process_storage.py] over the journal of
    [CoordinationJournal].  The world of a computation is the coordination
    document of one device with its journal; a process adds its registry of
    accounts.  Opening and locking the document are system calls that may fail;
    the lock makes transactions of different processes follow one another.
    [json.loads] and [json.dumps] are those of [JsonLib].  The fork handlers are
    not modelled. *)

From Stdlib Require Import Ascii String.
From S2P Require Import Prelude PyLib JsonLib CoordinationJournal ProcessIdentity.
Import Text Disk.

#[local] Open Scope Z_scope.
#[local] Arguments lit : simpl never.

Definition _MAX_STATE_BYTES : Z := Z.shiftl 1 20.
Definition _MAX_PROCESS_RECORDS : Z := 4096.
Definition _MAX_LIVENESS_CHECKS_PER_TRANSACTION : Z := 256.
Definition _MAX_LOCAL_ACCOUNTS : Z := 4096.

(** [fcntl] could be imported, and the switch is set in the environment. *)
Definition cross_process_storage_enabled (has_fcntl : bool) (switch : option text) : bool :=
  let value := lower (strip (default [] switch)) in
  has_fcntl && bool_decide (value ∈ [lit "1"; lit "true"; lit "yes"; lit "on"]).

(** ** The document *)

(** The process records, keyed by ["pid:start"]. *)
Definition dict : Type := list (text * json).

Definition _nonnegative_int (v : option json) : Z := match v with Some (JInt z) => Z.max 0 z | _ => 0 end.

(** [set(decoded) != {"version", "processes"}], negated. *)
Definition known_fields (m : dict) : bool :=
  forallb (fun x => bool_decide (x.1 = lit "version") || bool_decide (x.1 = lit "processes")) m
  && bool_decide (is_Some (get m (lit "version"))) && bool_decide (is_Some (get m (lit "processes"))).

Definition _decode_state (raw : text) : result dict :=
  if bool_decide (raw = []) then Ok []
  else if _MAX_STATE_BYTES <? len raw then Err OSError
  else match decode_utf8 raw ≫= loads_dicts with
       | Some (JObj m) =>
         if negb (known_fields m) then Err OSError
         else match get m (lit "version"), get m (lit "processes") with
              | Some (JInt 1), Some (JObj processes) => Ok processes
              | _, _ => Err OSError
              end
       | _ => Err OSError
       end.

Definition state_json (processes : dict) : json := JObj [(lit "version", JInt 1); (lit "processes", JObj processes)].

Definition _encode_state (processes : dict) : text := encode_utf8 (dumps (state_json processes)).

(** [f"{pid}:{start}"]. *)
Definition owner_key (pid : Z) (start : text) : text := print_int pid ++ lit ":" ++ start.

Record process_entry : Type := mk_process { entry_pid : Z; entry_start : text; entry_reserved : Z; entry_inodes : Z }.

(** The checks of one record in the scan: values, then types. *)
Definition check_entry (key : text) (pid : Z) (token : text) (reserved inodes : Z) : result process_entry :=
  if (pid <=? 0) || (reserved <? 0) || (inodes <? 0) then Err OSError
  else if negb (bool_decide (key = owner_key pid token)) then Err OSError
  else Ok (mk_process pid token reserved inodes).

Definition read_entry (key : text) (value : json) : result process_entry :=
  match value with
  | JObj m =>
    match default (JInt (-1)) (get m (lit "pid")), default (JStr (lit "unknown")) (get m (lit "start")),
          default (JInt 0) (get m (lit "reserved")), default (JInt 0) (get m (lit "inodes")),
          default (JFloat (lit "0.0")) (get m (lit "updated")) with
    | JInt pid, JStr token, JInt reserved, JInt inodes, (JInt _ | JFloat _) => check_entry key pid token reserved inodes
    | _, _, _, _, _ => Err OSError
    end
  | _ => Err OSError
  end.

Definition charged (e : process_entry) : bool := negb (entry_reserved e =? 0) || negb (entry_inodes e =? 0).

Section Clean.
Variable process_alive : Z -> text -> bool.

(** The scan: the keys of uncharged and dead records; after the bounded number of
    probes a record counts as alive. *)
Fixpoint scan_stale (liveness_checks : Z) (l : dict) : result (list text) :=
  match l with
  | [] => Ok []
  | (key, value) :: l' =>
    e ← read_entry key value;
    let probe := charged e && (liveness_checks <? _MAX_LIVENESS_CHECKS_PER_TRANSACTION) in
    let alive := if probe then process_alive (entry_pid e) (entry_start e) else true in
    stale ← scan_stale (if probe then liveness_checks + 1 else liveness_checks) l';
    Ok (if negb (charged e) || negb alive then key :: stale else stale)
  end.

Definition _clean_processes (processes : dict) : result dict :=
  if _MAX_PROCESS_RECORDS <? Z.of_nat (length processes) then Err OSError
  else stale ← scan_stale 0 processes; Ok (foldl (fun d key => member_pop key d) processes stale).
End Clean.

Definition item_int (key : text) (value : json) : Z := _nonnegative_int (dict_get value key).

Definition sum_of (key : text) (processes : dict) : Z := foldr (fun m z => item_int key m.2 + z) 0 processes.

(** ** Transactions *)

Section Process.
Variables (conv : conversions) (euid : Z).
(** The calling process: its id and start token, what it can tell about other
    processes, the clock as a float literal, [fcntl] and the environment switch. *)
Variables (getpid : Z) (start : text) (process_alive : Z -> text -> bool) (now : text) (has_fcntl : bool) (switch : option text).

Definition transact {A} (body : dict -> result (A * dict)) : M world A :=
  raw ← recover_locked_payload conv euid _MAX_STATE_BYTES process_alive;
  state ← liftR (_decode_state raw);
  tick;;
  done ← liftR (body state);
  let payload := _encode_state (snd done) in
  if _MAX_STATE_BYTES <? len payload then raise OSError
  else
    whenM (negb (bool_decide (payload = _encode_state state)))
      (commit_locked_payload euid _MAX_STATE_BYTES getpid start raw payload);;
    ret (fst done).

(** [_locked_state] around a body: open, lock, transact, unlock, close. *)
Definition _locked_state {A} (body : dict -> result (A * dict)) : M world A :=
  call;;
  with_exit (call;; with_exit (transact body) (except_os call (ret tt))) call.

Definition coordinated (enabled : option bool) : bool :=
  match enabled with
  | None => cross_process_storage_enabled has_fcntl switch
  | Some b => b && has_fcntl
  end.

Definition owner : text := owner_key getpid start.

(** The record a process writes for itself. *)
Definition own_record (reserved inodes : Z) : json :=
  JObj [(lit "pid", JInt getpid); (lit "start", JStr start); (lit "reserved", JInt reserved);
        (lit "inodes", JInt inodes); (lit "updated", JFloat now)].

(** The record a reservation starts from when the process has none. *)
Definition fresh_record : json :=
  JObj [(lit "pid", JInt getpid); (lit "start", JStr start); (lit "reserved", JInt 0); (lit "inodes", JInt 0)].

Definition exceeds (limit : option Z) (n : Z) : bool := match limit with Some limit => limit <? n | None => false end.

Definition reserve_body (requested capacity_bytes requested_inodes : Z) (inode_capacity : option Z) (state : dict) : result (Z * dict) :=
  processes ← _clean_processes process_alive state;
  let next_total := sum_of (lit "reserved") processes + requested in
  let next_inodes := sum_of (lit "inodes") processes + requested_inodes in
  if capacity_bytes <? next_total then Err OSError
  else if exceeds inode_capacity next_inodes then Err OSError
  else if negb (bool_decide (is_Some (get processes owner))) && (_MAX_PROCESS_RECORDS <=? Z.of_nat (length processes)) then Err OSError
  else
    let current := default fresh_record (get processes owner) in
    Ok (next_total, member_set owner (own_record (item_int (lit "reserved") current + requested)
                                                 (item_int (lit "inodes") current + requested_inodes)) processes).

Definition _reserve_cross_process_raw (size_bytes capacity_bytes inode_count : Z) (inode_capacity : option Z) (enabled : option bool) : M world Z :=
  if (size_bytes <? 0) || (capacity_bytes <? 0) || (inode_count <? 0) || match inode_capacity with Some c => c <? 0 | None => false end
  then raise ValueError
  else if negb (coordinated enabled) || ((size_bytes =? 0) && (inode_count =? 0)) then ret 0
  else _locked_state (reserve_body size_bytes capacity_bytes inode_count inode_capacity).

Definition release_body (amount amount_inodes : Z) (state : dict) : result (Z * dict) :=
  processes ← _clean_processes process_alive state;
  let processes' :=
    match get processes owner with
    | Some (JObj current) =>
      let remaining := Z.max 0 (_nonnegative_int (get current (lit "reserved")) - amount) in
      let remaining_inodes := Z.max 0 (_nonnegative_int (get current (lit "inodes")) - amount_inodes) in
      if negb (remaining =? 0) || negb (remaining_inodes =? 0)
      then member_set owner (JObj (member_set (lit "updated") (JFloat now)
             (member_set (lit "inodes") (JInt remaining_inodes) (member_set (lit "reserved") (JInt remaining) current)))) processes
      else member_pop owner processes
    | _ => processes
    end in
  Ok (sum_of (lit "reserved") processes', processes').

Definition _release_cross_process_raw (size_bytes inode_count : Z) (enabled : option bool) : M world Z :=
  if (size_bytes <? 0) || (inode_count <? 0) then raise ValueError
  else if negb (coordinated enabled) || ((size_bytes =? 0) && (inode_count =? 0)) then ret 0
  else _locked_state (release_body size_bytes inode_count).

Definition reconcile_body (target_bytes target_inodes : Z) (state : dict) : result (Z * dict) :=
  processes ← _clean_processes process_alive state;
  let current key := match get processes owner with Some v => item_int key v | None => 0 end in
  if (current (lit "reserved") <? target_bytes) || (current (lit "inodes") <? target_inodes) then Err RuntimeError
  else
    let processes' := if negb (target_bytes =? 0) || negb (target_inodes =? 0)
                      then member_set owner (own_record target_bytes target_inodes) processes
                      else member_pop owner processes in
    Ok (sum_of (lit "reserved") processes', processes').

Definition _reconcile_cross_process_account_raw (target_bytes target_inodes : Z) (enabled : option bool) : M world Z :=
  if negb (coordinated enabled) then ret 0 else _locked_state (reconcile_body target_bytes target_inodes).

Definition cross_process_reserved_bytes : M world Z :=
  if negb (coordinated None) then ret 0
  else _locked_state (fun state => processes ← _clean_processes process_alive state; Ok (sum_of (lit "reserved") processes, processes)).
End Process.

(** ** Accounts of one process *)

(** [CrossProcessStorageAccount]; accounts are objects, named by their index.  The
    capability object of an account is never reassigned, so the index stands for
    it as well. *)
Record account : Type := mk_account {
  device : Z;
  account_pid : Z;
  reserved_bytes : Z;
  reserved_inodes : Z;
  closed : bool;
  account_token : Z;
  reconciliation_pending : bool;
  reconciliation_failures : Z;
}.

(** The objects, [_ACCOUNTS] and [_ACCOUNT_SEQUENCE]. *)
Record registry : Type := mk_registry { objects : list account; accounts : list (Z * (nat * Z)); account_sequence : Z }.

Definition new_registry : registry := mk_registry [] [] 0.

Definition with_bytes v (a : account) : account :=
  mk_account (device a) (account_pid a) v (reserved_inodes a) (closed a) (account_token a) (reconciliation_pending a) (reconciliation_failures a).
Definition with_inodes v (a : account) : account :=
  mk_account (device a) (account_pid a) (reserved_bytes a) v (closed a) (account_token a) (reconciliation_pending a) (reconciliation_failures a).
Definition with_closed v (a : account) : account :=
  mk_account (device a) (account_pid a) (reserved_bytes a) (reserved_inodes a) v (account_token a) (reconciliation_pending a) (reconciliation_failures a).
Definition with_account_token v (a : account) : account :=
  mk_account (device a) (account_pid a) (reserved_bytes a) (reserved_inodes a) (closed a) v (reconciliation_pending a) (reconciliation_failures a).
Definition with_pending v (a : account) : account :=
  mk_account (device a) (account_pid a) (reserved_bytes a) (reserved_inodes a) (closed a) (account_token a) v (reconciliation_failures a).
Definition count_failure (a : account) : account :=
  mk_account (device a) (account_pid a) (reserved_bytes a) (reserved_inodes a) (closed a) (account_token a) (reconciliation_pending a) (reconciliation_failures a + 1).

Definition change (i : nat) (f : account -> account) (r : registry) : registry := mk_registry (alter f i (objects r)) (accounts r) (account_sequence r).

Fixpoint token_get (token : Z) (l : list (Z * (nat * Z))) : option (nat * Z) :=
  match l with
  | [] => None
  | (t, v) :: l' => if t =? token then Some v else token_get token l'
  end.

Definition token_pop (token : Z) (l : list (Z * (nat * Z))) : list (Z * (nat * Z)) := List.filter (fun x => negb (x.1 =? token)) l.

(** The loop over candidate tokens. *)
Fixpoint free_token (turns : nat) (token : Z) (l : list (Z * (nat * Z))) : option Z :=
  match turns with
  | O => None
  | S turns' =>
    let next := if _MAX_LOCAL_ACCOUNTS <? token + 1 then 1 else token + 1 in
    match token_get next l with None => Some next | Some _ => free_token turns' next l end
  end.

Definition open_cross_process_storage_account (getpid dev : Z) : M registry nat :=
  i ← reads (fun r => length (objects r));
  modify (fun r => mk_registry (objects r ++ [mk_account dev getpid 0 0 false 0 false 0]) (accounts r) (account_sequence r));;
  live ← reads accounts;
  if _MAX_LOCAL_ACCOUNTS <=? Z.of_nat (length live) then raise RuntimeError
  else
    last ← reads account_sequence;
    match free_token (Z.to_nat _MAX_LOCAL_ACCOUNTS) last live with
    | None => raise RuntimeError
    | Some token =>
      store (fun r => mk_registry (objects r) (accounts r ++ [(token, (i, dev))]) (account_sequence r));;
      store (fun r => mk_registry (objects r) (accounts r) token);;
      store (change i (with_account_token token));;
      ret i
    end.

(** The entry names this account and its device. *)
Definition authoritative (i : nat) (r : registry) : bool :=
  match objects r !! i with
  | Some a => match token_get (account_token a) (accounts r) with Some (j, d) => (j =? i)%nat && (d =? device a) | None => false end
  | None => false
  end.

(** [_device_authority_unlocked]: one registered account's share. *)
Definition share (getpid dev : Z) (l : list account) (x : Z * (nat * Z)) : Z * Z :=
  match l !! fst (snd x) with
  | Some a => if negb (snd (snd x) =? dev) || closed a || negb (account_pid a =? getpid) then (0, 0) else (reserved_bytes a, reserved_inodes a)
  | None => (0, 0)
  end.

Definition _device_authority_unlocked (getpid dev : Z) (r : registry) : Z * Z :=
  foldr (fun x z => (fst (share getpid dev (objects r) x) + fst z, snd (share getpid dev (objects r) x) + snd z)) (0, 0) (accounts r).

(** A computation on the registry of a process that also works on a document. *)
Definition onR {A} (m : M registry A) : M (world * registry) A := zoom snd (fun r p => (fst p, r)) m.

Section Accounts.
Variables (conv : conversions) (euid getpid : Z) (start : text) (process_alive : Z -> text -> bool) (now : text) (has_fcntl : bool) (switch : option text).

Definition _authenticate_account_registry_unlocked (i : nat) : M registry unit :=
  valid ← reads (authoritative i);
  if valid : bool then ret tt else raise RuntimeError.

Definition _authenticate_account_locked (i : nat) : M registry unit :=
  found ← reads (fun r => objects r !! i);
  match found with
  | None => raise TypeError
  | Some a =>
    if negb (account_pid a =? getpid) || closed a || (account_token a <=? 0) then raise RuntimeError
    else _authenticate_account_registry_unlocked i
  end.

(** [_reconcile_account_locked]; the account's fields are read as it runs. *)
Definition _reconcile_account_locked (i : nat) (enabled : option bool) : M (world * registry) unit :=
  pending ← reads (fun p => match objects (snd p) !! i with Some a => reconciliation_pending a | None => false end);
  whenM pending (
    onR (_authenticate_account_registry_unlocked i);;
    dev ← reads (fun p => match objects (snd p) !! i with Some a => device a | None => 0 end);
    target ← reads (fun p => _device_authority_unlocked getpid dev (snd p));
    try_except (onS (_reconcile_cross_process_account_raw conv euid getpid start process_alive now has_fcntl switch (fst target) (snd target) enabled);; ret tt)
               (fun e => onR (store (change i count_failure));; raise e);;
    onR (store (change i (with_pending false)))).

(** The part of [reserve_cross_process_account] after the reconciliation. *)
Definition grow_account (i : nat) (size_bytes capacity_bytes inode_count : Z) (inode_capacity : option Z) (enabled : option bool) : M (world * registry) Z :=
  found ← reads (fun p => objects (snd p) !! i);
  match found with
  | None => raise TypeError
  | Some a =>
    let next_bytes := reserved_bytes a + size_bytes in
    let next_inodes := reserved_inodes a + inode_count in
    onR (_authenticate_account_registry_unlocked i);;
    try_except
      (total ← onS (_reserve_cross_process_raw conv euid getpid start process_alive now has_fcntl switch size_bytes capacity_bytes inode_count inode_capacity enabled);
       onR (store (change i (with_bytes next_bytes)));;
       onR (store (change i (with_inodes next_inodes)));;
       tick;;
       ret total)
      (fun e => onR (store (change i (with_pending true)));; raise e)
  end.

(** The checks both operations make before they lock the account. *)
Definition check_request (i : nat) (size_bytes inode_count : Z) : M registry unit :=
  found ← reads (fun r => objects r !! i);
  match found with
  | None => raise TypeError
  | Some a =>
    if negb (account_pid a =? getpid) then raise RuntimeError
    else if (size_bytes <? 0) || (inode_count <? 0) then raise ValueError
    else _authenticate_account_locked i
  end.

Definition reserve_cross_process_account (i : nat) (size_bytes capacity_bytes inode_count : Z) (inode_capacity : option Z) (enabled : option bool) : M (world * registry) Z :=
  onR (check_request i size_bytes inode_count);;
  _reconcile_account_locked i enabled;;
  grow_account i size_bytes capacity_bytes inode_count inode_capacity enabled.

(** The part of [release_cross_process_account] after the reconciliation. *)
Definition shrink_account (i : nat) (size_bytes inode_count : Z) (enabled : option bool) : M (world * registry) Z :=
  found ← reads (fun p => objects (snd p) !! i);
  match found with
  | None => raise TypeError
  | Some a =>
    if (reserved_bytes a <? size_bytes) || (reserved_inodes a <? inode_count) then raise RuntimeError
    else
      let next_bytes := reserved_bytes a - size_bytes in
      let next_inodes := reserved_inodes a - inode_count in
      onR (_authenticate_account_registry_unlocked i);;
      onR (store (change i (with_bytes next_bytes)));;
      onR (store (change i (with_inodes next_inodes)));;
      onR (store (change i (with_pending true)));;
      total ← try_except (onS (_release_cross_process_raw conv euid getpid start process_alive now has_fcntl switch size_bytes inode_count enabled))
                         (fun e => onR (store (change i count_failure));; raise e);
      onR (store (change i (with_pending false)));;
      ret total
  end.

Definition release_cross_process_account (i : nat) (size_bytes inode_count : Z) (enabled : option bool) : M (world * registry) Z :=
  onR (check_request i size_bytes inode_count);;
  _reconcile_account_locked i enabled;;
  shrink_account i size_bytes inode_count enabled.

(** The part of [close_cross_process_storage_account] after the reconciliation. *)
Definition retire_account (i : nat) : M registry unit :=
  found ← reads (fun r => objects r !! i);
  match found with
  | None => raise TypeError
  | Some a =>
    if negb (reserved_bytes a =? 0) || negb (reserved_inodes a =? 0) then raise RuntimeError
    else
      _authenticate_account_registry_unlocked i;;
      store (fun r => mk_registry (objects r) (token_pop (account_token a) (accounts r)) (account_sequence r));;
      store (change i (with_closed true))
  end.

Definition close_cross_process_storage_account (i : nat) : M (world * registry) unit :=
  onR (check_request i 0 0);;
  _reconcile_account_locked i None;;
  onR (retire_account i).
End Accounts.

(** ** Records *)

(** What the document holds for a key. *)
Definition held (field : text) (D : dict) (key : text) : Z := match get D key with Some v => item_int field v | None => 0 end.

Record doc_ok (D : dict) : Prop := {
  dk_keys : NoDup D.*1;
  dk_values : Forall (fun m => exact_value m.2 = true /\ distinct_keys m.2) D;
  dk_entries : Forall (fun m => exists e, read_entry m.1 m.2 = Ok e) D;
}.

Lemma decimal_inj z z' : 0 <= z -> 0 <= z' -> decimal z = decimal z' -> z = z'.
Proof. intros Hz Hz' E. rewrite <- (proj2 (decimal_digits z Hz)), <- (proj2 (decimal_digits z' Hz')). by rewrite E. Qed.

Lemma owner_key_inj pid start pid' start' : 0 < pid -> 0 < pid' -> owner_key pid start = owner_key pid' start' -> pid = pid' /\ start = start'.
Proof.
  intros Hp Hp' E. unfold owner_key, print_int in E. rewrite !(proj2 (Z.ltb_ge _ _)) in E by lia.
  assert (Hc : forall z, 0 <= z -> ":"%char ∉ decimal z).
  { intros z Hz Hin. destruct (decimal_digits z Hz) as [Hd _]. rewrite forallb_forall in Hd. apply list_elem_of_In, Hd in Hin. discriminate. }
  apply colon_inj in E as [E ->]; [|apply Hc; lia..]. split; [|done]. apply decimal_inj; [lia..|done].
Qed.

Lemma check_entry_spec key pid token reserved inodes e : check_entry key pid token reserved inodes = Ok e ->
  e = mk_process pid token reserved inodes /\ key = owner_key pid token /\ 0 < pid /\ 0 <= reserved /\ 0 <= inodes.
Proof.
  unfold check_entry. destruct (_ || _) eqn:Hb; [done|]. destruct (negb _) eqn:Hk; [done|]. intros [= <-].
  apply negb_false_iff, bool_decide_eq_true in Hk. split; [done|split; [done|lia]].
Qed.

Lemma check_entry_ok key pid token reserved inodes : key = owner_key pid token -> 0 < pid -> 0 <= reserved -> 0 <= inodes ->
  check_entry key pid token reserved inodes = Ok (mk_process pid token reserved inodes).
Proof.
  intros -> Hp Hr Hi. unfold check_entry. rewrite (proj2 (Z.leb_gt pid 0)), (proj2 (Z.ltb_ge reserved 0)), (proj2 (Z.ltb_ge inodes 0)) by lia.
  by rewrite bool_decide_eq_true_2.
Qed.

Lemma read_entry_spec key v e : read_entry key v = Ok e ->
  key = owner_key (entry_pid e) (entry_start e) /\ 0 < entry_pid e /\ item_int (lit "reserved") v = entry_reserved e
  /\ item_int (lit "inodes") v = entry_inodes e /\ exists m, v = JObj m.
Proof.
  unfold read_entry, item_int, dict_get. destruct v as [| | | | | |m]; try done.
  assert (Hint : forall k z, default (JInt 0) (get m k) = JInt z -> 0 <= z -> _nonnegative_int (get m k) = z).
  { intros k z. destruct (get m k) as [v|]; simpl; [intros ->|intros [= <-]]; simpl; lia. }
  destruct (default _ (get m (lit "pid"))) as [| |p| | | |]; try done. destruct (default _ (get m (lit "start"))) as [| | | |t| |]; try done.
  destruct (default _ (get m (lit "reserved"))) as [| |r| | | |] eqn:Er; try done. destruct (default _ (get m (lit "inodes"))) as [| |n| | | |] eqn:Ei; try done.
  intros H. assert (check_entry key p t r n = Ok e) as (-> & -> & Hp & Hr & Hi)%check_entry_spec by (by destruct (default _ (get m (lit "updated")))).
  split; [done|split; [done|split; [by apply Hint|split; [by apply Hint|by eexists]]]].
Qed.

Lemma item_int_nonneg f v : 0 <= item_int f v.
Proof. unfold item_int, _nonnegative_int. repeat case_match; lia. Qed.

Lemma held_nonneg f D k : 0 <= held f D k.
Proof. unfold held. case_match; [apply item_int_nonneg|lia]. Qed.

(** ** Encoding and decoding *)

Definition sorted_doc (D : dict) : dict := Seq.sorted key_leb (map (fun '(k, x) => (k, sort_keys x)) D).

Lemma get_mapped (f : json -> json) D k : get (map (fun '(k, x) => (k, f x)) D) k = f <$> get D k.
Proof. induction D as [|[j x] D IH]; [done|]. cbn [map get]. rewrite IH. destruct (get D k); [done|]. simpl. by case_bool_decide. Qed.

Lemma get_sorted D k : NoDup D.*1 -> get (sorted_doc D) k = sort_keys <$> get D k.
Proof.
  intros Hn. unfold sorted_doc. rewrite <- get_mapped. symmetry. apply get_Permutation; [by rewrite sort_keys_keys|]. by rewrite Seq.sorted_Permutation.
Qed.

Lemma dict_get_sorted v k : distinct_keys v -> dict_get (sort_keys v) k = sort_keys <$> dict_get v k.
Proof. destruct v; try done. intros [Hn _]. exact (get_sorted members k Hn). Qed.

Lemma item_int_sorted f v : distinct_keys v -> item_int f (sort_keys v) = item_int f v.
Proof. intros Hv. unfold item_int. rewrite dict_get_sorted by done. by destruct (dict_get v f) as [[]|]. Qed.

Lemma read_entry_sorted k v : distinct_keys v -> read_entry k (sort_keys v) = read_entry k v.
Proof.
  destruct v as [| | | | | |m]; try done. intros [Hn _]. unfold read_entry. cbn [sort_keys]. change (Seq.sorted _ _) with (sorted_doc m).
  rewrite !get_sorted by done. assert (forall d x, (forall y, d <> JList y) -> (forall y, d <> JObj y) -> default d (sort_keys <$> x) = sort_keys (default d x)) as Hd.
  { intros d [x|] H1 H2; [done|]. destruct d; try done; [by destruct (H1 l)|by destruct (H2 members)]. }
  rewrite !Hd by done. destruct (default _ (get m (lit "pid"))); try done. destruct (default _ (get m (lit "start"))); try done.
  destruct (default _ (get m (lit "reserved"))); try done. destruct (default _ (get m (lit "inodes"))); try done. by destruct (default _ (get m (lit "updated"))).
Qed.

Lemma sorted_doc_elem D m : m ∈ sorted_doc D -> exists v, (m.1, v) ∈ D /\ m.2 = sort_keys v.
Proof.
  unfold sorted_doc. rewrite Seq.sorted_Permutation. intros ([k v] & <- & Hin)%list_elem_of_In%in_map_iff. exists v. split; [by apply list_elem_of_In|done].
Qed.

Lemma doc_ok_sorted D : doc_ok D -> doc_ok (sorted_doc D).
Proof.
  intros [Hn Hv He]. rewrite Forall_forall in Hv, He. split.
  - unfold sorted_doc. by rewrite Seq.sorted_Permutation, sort_keys_keys.
  - apply Forall_forall. intros m (v & Hin & ->)%sorted_doc_elem. destruct (Hv _ Hin). split; [by rewrite exact_sort_keys|by apply distinct_sort_keys].
  - apply Forall_forall. intros [k x] (v & Hin & E)%sorted_doc_elem. cbn [fst snd] in *. subst x. destruct (Hv _ Hin), (He _ Hin) as [e Hr].
    exists e. by rewrite read_entry_sorted.
Qed.

Lemma held_sorted f D k : doc_ok D -> held f (sorted_doc D) k = held f D k.
Proof.
  intros [Hn Hv _]. unfold held. rewrite get_sorted by done. destruct (get D k) as [v|] eqn:E; [|done]. simpl.
  apply item_int_sorted. rewrite Forall_forall in Hv. by apply get_elem, Hv in E as [].
Qed.

Lemma sort_state_json D : sort_keys (state_json D) = JObj [(lit "processes", JObj (sorted_doc D)); (lit "version", JInt 1)].
Proof. reflexivity. Qed.

Lemma state_json_ok D : doc_ok D -> exact_value (state_json D) = true /\ distinct_keys (state_json D).
Proof.
  intros [Hn Hv _]. split.
  - unfold state_json. cbn [exact_value forallb]. rewrite andb_true_r. cbn [andb]. rewrite exact_members. apply forallb_forall.
    intros m Hm%list_elem_of_In. rewrite Forall_forall in Hv. by apply Hv.
  - unfold state_json. cbn [distinct_keys foldr fst snd]. split; [apply (bool_decide_unpack _); vm_compute; exact I|].
    split; [done|]. split; [|done]. split; [done|]. apply foldr_and. eapply Forall_impl; [exact Hv|]. by intros m [].
Qed.

Lemma encode_state_nonempty D : _encode_state D <> [].
Proof. unfold _encode_state, dumps. rewrite sort_state_json. done. Qed.

(** What is written is read back, keys in order. *)
Lemma decode_encode_state D : doc_ok D -> len (_encode_state D) <= _MAX_STATE_BYTES -> _decode_state (_encode_state D) = Ok (sorted_doc D).
Proof.
  intros HD Hl. destruct (state_json_ok D HD) as [Hx Hd]. unfold _decode_state. rewrite bool_decide_eq_false_2 by apply encode_state_nonempty.
  rewrite (proj2 (Z.ltb_ge _ _)) by done. unfold _encode_state. rewrite decode_encode_utf8. cbn [mbind option_bind].
  rewrite loads_dicts_dumps by done. rewrite sort_state_json. reflexivity.
Qed.

(** Equal encodings hold the same records. *)
Lemma encode_state_inj D D' : doc_ok D -> doc_ok D' -> _encode_state D = _encode_state D' -> sorted_doc D = sorted_doc D'.
Proof.
  intros HD HD' E. apply (f_equal decode_utf8) in E. unfold _encode_state in E. rewrite !decode_encode_utf8 in E. apply (inj Some) in E.
  apply (f_equal loads_dicts) in E. destruct (state_json_ok D HD), (state_json_ok D' HD').
  rewrite !loads_dicts_dumps, !sort_state_json in E by done. by injection E.
Qed.

(** ** Cleaning *)

Section CleanFacts.
Variable process_alive : Z -> text -> bool.

Lemma scan_stale_spec n l stale k : scan_stale process_alive n l = Ok stale -> k ∈ stale ->
  exists v e, (k, v) ∈ l /\ read_entry k v = Ok e /\ (charged e = false \/ process_alive (entry_pid e) (entry_start e) = false).
Proof.
  revert n stale. induction l as [|[j v] l IH]; intros n stale; cbn [scan_stale]; [by intros [= <-] ?%elem_of_nil|].
  destruct (read_entry j v) as [e|] eqn:Er; [|done]. cbn [mbind result_bind]. set (n' := if _ : bool then _ else n).
  destruct (scan_stale process_alive n' l) as [st|] eqn:Es; [|done]. cbn [mbind result_bind]. intros [= <-] Hk.
  assert (Hrec : k ∈ st -> exists v0 e0, (k, v0) ∈ (j, v) :: l /\ read_entry k v0 = Ok e0 /\ (charged e0 = false \/ process_alive (entry_pid e0) (entry_start e0) = false)).
  { intros H. destruct (IH _ _ Es H) as (v0 & e0 & ? & ?). exists v0, e0. split; [by right|done]. }
  destruct (negb (charged e) || _) eqn:Hd; [|auto]. apply elem_of_cons in Hk as [->|?]; [|auto]. exists v, e. split; [by left|]. split; [done|].
  destruct (charged e); [|by left]. right. simpl in Hd. destruct (n <? _); [by apply negb_true_iff|done].
Qed.

Lemma get_pops stale D k : get (foldl (fun d key => member_pop key d) D stale) k = if bool_decide (k ∈ stale) then None else get D k.
Proof.
  revert D. induction stale as [|j stale IH]; intros D; [done|]. simpl. rewrite IH, get_member_pop.
  rewrite (bool_decide_ext (k ∈ j :: stale) (k ∈ stale \/ j = k)) by (rewrite elem_of_cons; naive_solver).
  destruct (decide (k ∈ stale)); [by rewrite !bool_decide_eq_true_2 by auto|]. rewrite (bool_decide_eq_false_2 (k ∈ stale)) by done.
  by rewrite (bool_decide_ext (j = k) (k ∈ stale \/ j = k)) by naive_solver.
Qed.

Lemma pops_elem stale D m : m ∈ foldl (fun d key => member_pop key d) D stale -> m ∈ D.
Proof. revert D. induction stale as [|j stale IH]; intros D; [done|]. simpl. by intros [? _]%IH%member_pop_elem. Qed.

Lemma NoDup_pops stale D : NoDup D.*1 -> NoDup (foldl (fun d key => member_pop key d) D stale).*1.
Proof. revert D. induction stale as [|j stale IH]; intros D Hn; [done|]. simpl. by apply IH, NoDup_member_pop. Qed.

(** Cleaning keeps the records of processes that are reported alive. *)
Lemma clean_spec D D' : doc_ok D -> _clean_processes process_alive D = Ok D' ->
  doc_ok D' /\ forall f pid start, f = lit "reserved" \/ f = lit "inodes" -> 0 < pid -> process_alive pid start = true ->
    held f D' (owner_key pid start) = held f D (owner_key pid start).
Proof.
  intros [Hn Hv He]. unfold _clean_processes. destruct (_ <? _); [done|]. destruct (scan_stale _ 0 D) as [stale|] eqn:Es; [|done]. intros [= <-]. split.
  - split; [by apply NoDup_pops|apply Forall_forall; intros m Hm%pops_elem; rewrite Forall_forall in Hv; auto|].
    apply Forall_forall; intros m Hm%pops_elem; rewrite Forall_forall in He; auto.
  - intros f pid start Hf Hpid Ha. unfold held. rewrite get_pops. case_bool_decide as Hs; [|done].
    destruct (scan_stale_spec _ _ _ _ Es Hs) as (v & e & Hin & Hr & Hd). apply get_elem in Hin as ->; [|done].
    destruct (read_entry_spec _ _ _ Hr) as (Ek & Hp & Hb & Hi & _). apply owner_key_inj in Ek as [-> ->]; [|done..].
    destruct Hd as [Hc|]; [|congruence]. unfold charged in Hc. destruct Hf as [->| ->]; [rewrite Hb|rewrite Hi]; lia.
Qed.

(** Readable records can always be cleaned. *)
Lemma clean_total D : doc_ok D -> Z.of_nat (length D) <= _MAX_PROCESS_RECORDS -> exists D', _clean_processes process_alive D = Ok D'.
Proof.
  intros [_ _ He] Hl. unfold _clean_processes. rewrite (proj2 (Z.ltb_ge _ _)) by done.
  enough (exists stale, scan_stale process_alive 0 D = Ok stale) as [stale ->] by (by eexists). clear Hl. generalize 0 as n.
  induction He as [|[k v] l [e Hr] _ IH]; intros n; cbn [scan_stale]; [by eexists|]. cbn [fst snd] in Hr. rewrite Hr. cbn [mbind result_bind].
  set (n' := if _ : bool then _ else n). destruct (IH n') as [stale ->]. by eexists.
Qed.
End CleanFacts.

(** ** The bodies of the transactions *)

Lemma held_set f k v D k' : NoDup D.*1 -> held f (member_set k v D) k' = if bool_decide (k = k') then item_int f v else held f D k'.
Proof. intros Hn. unfold held. rewrite get_member_set by done. by case_bool_decide. Qed.

Lemma held_pop f k D k' : held f (member_pop k D) k' = if bool_decide (k = k') then 0 else held f D k'.
Proof. unfold held. rewrite get_member_pop. by case_bool_decide. Qed.

Lemma sum_set f k v D : NoDup D.*1 -> sum_of f (member_set k v D) = sum_of f D - held f D k + item_int f v.
Proof.
  induction D as [|[j x] D IH]; [intros _; cbn; unfold held; simpl; lia|]. rewrite fmap_cons, NoDup_cons. cbn [fst]. intros [Hn Hl].
  cbn [member_set]. unfold held. cbn [get]. destruct (decide (j = k)) as [->|Hne].
  - rewrite (bool_decide_eq_true_2 (k = k)) by done. rewrite (proj2 (get_None D k) Hn). cbn. lia.
  - rewrite (bool_decide_eq_false_2 (j = k)) by done. unfold sum_of in *. cbn [foldr snd]. rewrite IH by done. unfold held. destruct (get D k); lia.
Qed.

Lemma doc_ok_set k v D e : doc_ok D -> exact_value v = true -> distinct_keys v -> read_entry k v = Ok e -> doc_ok (member_set k v D).
Proof.
  intros [Hn Hv He] Hx Hd Hr. rewrite Forall_forall in Hv, He. split; [by apply NoDup_member_set|apply Forall_forall; intros m [->|Hm]%member_set_elem; auto|].
  apply Forall_forall; intros m [->|Hm]%member_set_elem; [by exists e|auto].
Qed.

Lemma doc_ok_pop k D : doc_ok D -> doc_ok (member_pop k D).
Proof.
  intros [Hn Hv He]. rewrite Forall_forall in Hv, He. split; [by apply NoDup_member_pop|apply Forall_forall; intros m [Hm _]%member_pop_elem; auto..].
Qed.

Lemma held_entry k v D e : doc_ok D -> get D k = Some v -> read_entry k v = Ok e ->
  held (lit "reserved") D k = entry_reserved e /\ held (lit "inodes") D k = entry_inodes e.
Proof. intros HD E Hr. unfold held. rewrite E. by destruct (read_entry_spec _ _ _ Hr) as (_ & _ & -> & -> & _). Qed.

Section Bodies.
Variables (getpid : Z) (start : text) (process_alive : Z -> text -> bool) (now : text).
Hypothesis getpid_pos : 0 < getpid.
Hypothesis self_alive : process_alive getpid start = true.
Hypothesis now_float : float_literal now = true.

#[local] Abbreviation self := (owner_key getpid start).

Lemma own_record_ok r i : 0 <= r -> 0 <= i ->
  exact_value (own_record getpid start now r i) = true /\ distinct_keys (own_record getpid start now r i)
  /\ read_entry self (own_record getpid start now r i) = Ok (mk_process getpid start r i)
  /\ item_int (lit "reserved") (own_record getpid start now r i) = r /\ item_int (lit "inodes") (own_record getpid start now r i) = i.
Proof.
  intros Hr Hi. split; [cbn; by rewrite now_float|]. split; [split; [apply (bool_decide_unpack _); vm_compute; exact I|done]|].
  assert (read_entry self (own_record getpid start now r i) = Ok (mk_process getpid start r i)) as E.
  { change (check_entry self getpid start r i = Ok (mk_process getpid start r i)). by apply check_entry_ok. }
  split; [done|]. by destruct (read_entry_spec _ _ _ E) as (_ & _ & ? & ? & _).
Qed.

(** What a transaction did to the records: its own record holds [b] and [n], the
    records of the other live processes are as they were. *)
Definition moved (D D2 : dict) (b n : Z) : Prop :=
  doc_ok D2 /\ held (lit "reserved") D2 self = b /\ held (lit "inodes") D2 self = n
  /\ forall f pid st, f = lit "reserved" \/ f = lit "inodes" -> 0 < pid -> process_alive pid st = true -> owner_key pid st <> self ->
       held f D2 (owner_key pid st) = held f D (owner_key pid st).

(** Writing or removing the own record of a cleaned document. *)
Lemma moved_set D D' v e : doc_ok D -> _clean_processes process_alive D = Ok D' -> exact_value v = true -> distinct_keys v ->
  read_entry self v = Ok e -> moved D (member_set self v D') (entry_reserved e) (entry_inodes e).
Proof.
  intros HD Hc Hx Hd Hr. destruct (clean_spec _ _ _ HD Hc) as [HD' Hk]. destruct (read_entry_spec _ _ _ Hr) as (_ & _ & Hb & Hi & _).
  split; [by eapply doc_ok_set|]. rewrite !held_set, !(bool_decide_eq_true_2 (self = self)) by (done || apply HD').
  split; [done|split; [done|]]. intros f pid st Hf Hp Ha Hne. rewrite held_set, bool_decide_eq_false_2 by (congruence || apply HD'). by apply Hk.
Qed.

Lemma moved_pop D D' : doc_ok D -> _clean_processes process_alive D = Ok D' -> moved D (member_pop self D') 0 0.
Proof.
  intros HD Hc. destruct (clean_spec _ _ _ HD Hc) as [HD' Hk]. split; [by apply doc_ok_pop|].
  rewrite !held_pop, !(bool_decide_eq_true_2 (self = self)) by done. split; [done|split; [done|]].
  intros f pid st Hf Hp Ha Hne. rewrite held_pop, bool_decide_eq_false_2 by congruence. by apply Hk.
Qed.

Lemma clean_self f D D' : doc_ok D -> _clean_processes process_alive D = Ok D' -> f = lit "reserved" \/ f = lit "inodes" -> held f D' self = held f D self.
Proof. intros HD Hc Hf. by apply (clean_spec _ _ _ HD Hc). Qed.

Lemma reserve_body_spec size cap count inode_cap D v D2 : 0 <= size -> 0 <= count -> doc_ok D ->
  reserve_body getpid start process_alive now size cap count inode_cap D = Ok (v, D2) ->
  moved D D2 (held (lit "reserved") D self + size) (held (lit "inodes") D self + count)
  /\ v = sum_of (lit "reserved") D2 /\ v <= cap /\ (forall c, inode_cap = Some c -> sum_of (lit "inodes") D2 <= c).
Proof.
  intros Hs Hn HD. unfold reserve_body. destruct (_clean_processes process_alive D) as [D'|] eqn:Hc; [|done]. cbn [mbind result_bind].
  destruct (Z.ltb_spec cap (sum_of (lit "reserved") D' + size)) as [|Hcap]; [done|]. destruct (exceeds _ _) eqn:Hex; [done|]. destruct (_ && _); [done|].
  change (owner getpid start) with self. set (cur := default _ _). intros [= <- <-]. destruct (clean_spec _ _ _ HD Hc) as [HD' _].
  assert (Hcur : forall f, f = lit "reserved" \/ f = lit "inodes" -> item_int f cur = held f D self).
  { intros f Hf. rewrite <- (clean_self f D D' HD Hc Hf). unfold held, cur. destruct (get D' self); [done|]. by destruct Hf as [->| ->]. }
  rewrite !Hcur by auto. pose proof (held_nonneg (lit "reserved") D self). pose proof (held_nonneg (lit "inodes") D self).
  set (r := held (lit "reserved") D self + size). set (i := held (lit "inodes") D self + count).
  destruct (own_record_ok r i) as (Hx & Hd & Hr & Hb & Hi); [lia..|]. split; [exact (moved_set D D' _ _ HD Hc Hx Hd Hr)|].
  rewrite !sum_set, Hb, Hi, !(clean_self _ D D' HD Hc) by (auto || apply HD'). split; [unfold r; lia|split; [done|]].
  intros c ->. apply Z.ltb_ge in Hex. unfold i. lia.
Qed.

(** The record with its amounts replaced in place. *)
Definition amended (r i : Z) (m : dict) : json :=
  JObj (member_set (lit "updated") (JFloat now) (member_set (lit "inodes") (JInt i) (member_set (lit "reserved") (JInt r) m))).

Lemma amended_ok m e r i : exact_value (JObj m) = true -> distinct_keys (JObj m) -> read_entry self (JObj m) = Ok e -> 0 <= r -> 0 <= i ->
  exact_value (amended r i m) = true /\ distinct_keys (amended r i m) /\ read_entry self (amended r i m) = Ok (mk_process (entry_pid e) (entry_start e) r i).
Proof.
  intros Hx [Hn Hd] Hr Hr0 Hi0. cbn [exact_value] in Hx. rewrite exact_members in Hx. rewrite forallb_forall in Hx. rewrite foldr_and, Forall_forall in Hd.
  assert (Hn1 := NoDup_member_set (lit "reserved") (JInt r) m Hn). assert (Hn2 := NoDup_member_set (lit "inodes") (JInt i) _ Hn1).
  assert (Hall : forall x, x ∈ member_set (lit "updated") (JFloat now) (member_set (lit "inodes") (JInt i) (member_set (lit "reserved") (JInt r) m)) ->
                 exact_value x.2 = true /\ distinct_keys x.2).
  { intros x [->|[->|[->|Hm]%member_set_elem]%member_set_elem]%member_set_elem; [by simpl|done|done|]. split; [by apply Hx, list_elem_of_In|by apply Hd]. }
  split; [|split].
  - cbn [exact_value amended]. rewrite exact_members. apply forallb_forall. intros x Hin%list_elem_of_In. by apply Hall.
  - split; [by apply NoDup_member_set|]. apply foldr_and, Forall_forall. intros x Hin. by apply Hall.
  - unfold read_entry, amended in *. rewrite !get_member_set by done. rewrite !(bool_decide_eq_false_2 (lit _ = lit _)), !(bool_decide_eq_true_2 (lit _ = lit _)) by done.
    cbn [default]. destruct (default _ (get m (lit "pid"))); try done. destruct (default _ (get m (lit "start"))); try done.
    destruct (default _ (get m (lit "reserved"))); try done. destruct (default _ (get m (lit "inodes"))); try done.
    assert (check_entry self z s z0 z1 = Ok e) as (-> & Hk & Hp & _)%check_entry_spec by (by destruct (default _ (get m (lit "updated")))).
    change (check_entry self z s r i = Ok (mk_process z s r i)). by apply check_entry_ok.
Qed.

Lemma release_body_spec amount count D v D2 : 0 <= amount -> 0 <= count -> doc_ok D ->
  release_body getpid start process_alive now amount count D = Ok (v, D2) ->
  moved D D2 (Z.max 0 (held (lit "reserved") D self - amount)) (Z.max 0 (held (lit "inodes") D self - count)).
Proof.
  intros Ha Hc0 HD. unfold release_body. destruct (_clean_processes process_alive D) as [D'|] eqn:Hc; [|done]. cbn [mbind result_bind].
  change (owner getpid start) with self. intros [= _ <-]. destruct (clean_spec _ _ _ HD Hc) as [HD' Hk].
  rewrite <- !(clean_self _ D D' HD Hc) by auto. destruct (get D' self) as [w|] eqn:E.
  - pose proof HD' as [Hn Hv He]. rewrite Forall_forall in Hv, He. apply get_elem in E as Hin; [|done]. destruct (Hv _ Hin) as [Hx Hd], (He _ Hin) as [e Hr].
    cbn [fst snd] in *. destruct (read_entry_spec _ _ _ Hr) as (_ & _ & Hb & Hi & m & ->). unfold held. rewrite E.
    change (_nonnegative_int (get m ?f)) with (item_int f (JObj m)). set (r := Z.max 0 _). set (n := Z.max 0 _).
    destruct (negb (r =? 0) || negb (n =? 0)) eqn:Hz.
    + destruct (amended_ok m e r n Hx Hd Hr) as (Hx' & Hd' & Hr'); [lia..|]. exact (moved_set D D' _ _ HD Hc Hx' Hd' Hr').
    + apply orb_false_iff in Hz as [->%negb_false_iff%Z.eqb_eq ->%negb_false_iff%Z.eqb_eq]. by apply moved_pop.
  - unfold held. rewrite E. rewrite !Z.max_l by lia. split; [done|]. unfold held. rewrite E. split; [done|split; [done|]].
    intros f pid st Hf Hp Ha' Hne. by apply Hk.
Qed.

Lemma reconcile_body_spec b n D v D2 : 0 <= b -> 0 <= n -> doc_ok D ->
  reconcile_body getpid start process_alive now b n D = Ok (v, D2) ->
  moved D D2 b n /\ b <= held (lit "reserved") D self /\ n <= held (lit "inodes") D self.
Proof.
  intros Hb Hn0 HD. unfold reconcile_body. destruct (_clean_processes process_alive D) as [D'|] eqn:Hc; [|done]. cbn [mbind result_bind].
  change (owner getpid start) with self. destruct (_ || _) eqn:Hlt; [done|]. intros [= _ <-]. apply orb_false_iff in Hlt as [Hlb%Z.ltb_ge Hln%Z.ltb_ge].
  change (match get D' self with Some v => item_int ?f v | None => 0 end) with (held f D' self) in *. rewrite !(clean_self _ D D' HD Hc) in * by auto.
  split; [|done]. destruct (negb (b =? 0) || negb (n =? 0)) eqn:Hz.
  - destruct (own_record_ok b n) as (Hx & Hd & Hr & _); [lia..|]. exact (moved_set D D' _ _ HD Hc Hx Hd Hr).
  - apply orb_false_iff in Hz as [->%negb_false_iff%Z.eqb_eq ->%negb_false_iff%Z.eqb_eq]. by apply moved_pop.
Qed.

(** Records of a live process never shrink below a target that they cover. *)
Lemma reconcile_body_covers b n D : doc_ok D -> b <= held (lit "reserved") D self -> n <= held (lit "inodes") D self ->
  reconcile_body getpid start process_alive now b n D <> Err RuntimeError.
Proof.
  intros HD Hb Hn. unfold reconcile_body. destruct (_clean_processes process_alive D) as [D'|e] eqn:Hc; cbn [mbind result_bind].
  - change (owner getpid start) with self. change (match get D' self with Some v => item_int ?f v | None => 0 end) with (held f D' self) in *.
    rewrite !(clean_self _ D D' HD Hc) by auto. by rewrite !(proj2 (Z.ltb_ge _ _)) by done.
  - intros [= ->]. revert Hc. unfold _clean_processes. destruct (_ <? _); [done|]. destruct (scan_stale _ _ _) eqn:Es; [done|]. intros [= ->].
    clear -Es. revert Es. generalize 0 as n. induction D as [|[k v] D IH]; intros n; cbn [scan_stale]; [done|].
    assert (read_entry k v <> Err RuntimeError) as Hne by (unfold read_entry, check_entry; repeat case_match; congruence).
    destruct (read_entry k v); cbn [mbind result_bind]; [|congruence]. set (n' := if _ : bool then _ else n). specialize (IH n').
    destruct (scan_stale _ n' D); cbn [mbind result_bind]; [done|]. congruence.
Qed.
End Bodies.

(** ** Claims on a document

    The live processes with the bytes and inodes they hold; a document is sound
    when, whichever processes turn out to be alive, recovery settles it on records
    that cover the claims of the live ones. *)

Record claim : Type := mk_claim { claim_pid : Z; claim_start : text; claim_bytes : Z; claim_inodes : Z }.

Definition claim_key (c : claim) : text := owner_key (claim_pid c) (claim_start c).

Definition met (D : dict) (c : claim) : Prop :=
  claim_bytes c <= held (lit "reserved") D (claim_key c) /\ claim_inodes c <= held (lit "inodes") D (claim_key c).

Definition lives (process_alive : Z -> text -> bool) (c : claim) : Prop := 0 < claim_pid c /\ process_alive (claim_pid c) (claim_start c) = true.

Section Sound.
Variables (conv : conversions) (euid : Z).

#[local] Abbreviation settles := (recovers_to conv euid _MAX_STATE_BYTES).

Definition sound (claims : list claim) (d : files) : Prop := forall process_alive, exists x D,
  settles process_alive d x /\ _decode_state x = Ok D /\ doc_ok D /\ Forall (fun c => lives process_alive c -> met D c) claims.

(** Recovery settles the disk on these records, whoever is alive. *)
Definition settled_on (D : dict) (d : files) : Prop := forall process_alive, exists x D',
  settles process_alive d x /\ _decode_state x = Ok D' /\ doc_ok D' /\ forall f k, held f D' k = held f D k.

Definition same_records (D D' : dict) : Prop := forall f k, held f D' k = held f D k.

Lemma settled_sound D claims d : settled_on D d -> Forall (met D) claims -> sound claims d.
Proof.
  intros Hs Hc a. destruct (Hs a) as (x & D' & ? & ? & ? & Hh). exists x, D'. split_and!; try done.
  eapply Forall_impl; [exact Hc|]. intros c [Hb Hi] _. unfold met. by rewrite !Hh.
Qed.

Lemma sound_weaken claims claims' d : sound claims d ->
  (forall c', c' ∈ claims' -> exists c, c ∈ claims /\ claim_pid c = claim_pid c' /\ claim_start c = claim_start c' /\ claim_bytes c' <= claim_bytes c /\ claim_inodes c' <= claim_inodes c) ->
  sound claims' d.
Proof.
  intros Hs Hc a. destruct (Hs a) as (x & D & ? & ? & ? & Hm). exists x, D. split_and!; try done. apply Forall_forall. intros c' Hc' Hl.
  destruct (Hc c' Hc') as (c & Hin & Ep & Es & Hb & Hi). rewrite Forall_forall in Hm. unfold lives, met, claim_key in *. rewrite <- Ep, <- Es in *.
  destruct (Hm c Hin Hl). lia.
Qed.

Lemma decode_short x D : _decode_state x = Ok D -> len x <= _MAX_STATE_BYTES.
Proof.
  unfold _decode_state. case_bool_decide as E; [intros _; by rewrite E|]. destruct (Z.ltb_spec _MAX_STATE_BYTES (len x)); [done|lia].
Qed.

Lemma sound_plain claims x D t : _decode_state x = Ok D -> doc_ok D -> Forall (met D) claims -> sound claims (mk_files x None t).
Proof.
  intros Hx HD Hm a. exists x, D. split; [|split; [done|split; [done|]]].
  - apply recovers_iff. cbn [journal main]. split; [done|]. apply take_ge. pose proof (decode_short x D Hx) as Hl. unfold len in Hl. lia.
  - eapply Forall_impl; [exact Hm|]. auto.
Qed.

Lemma sound_journal claims m t d : sound claims d -> journal d <> None -> sound claims (mk_files m (journal d) t).
Proof.
  intros Hs Hj a. destruct (Hs a) as (x & D & Hx & Hr). exists x, D. split; [|done]. rewrite recovers_iff in *. cbn [journal]. by destruct (journal d).
Qed.

Section Transact.
Variables (getpid : Z) (start : text) (process_alive : Z -> text -> bool) (E : exn -> Prop).
Hypothesis getpid_pos : 0 < getpid.

(** The outcome of a transaction: the disk is settled on the records the body
    made, or the body changed none. *)
Definition transacted {A} (claims : list claim) (body : dict -> result (A * dict)) (r : result A) (d : files) : Prop :=
  match r with
  | Ok v => exists D D2, doc_ok D /\ Forall (met D) claims /\ body D = Ok (v, D2) /\ doc_ok D2 /\ (settled_on D2 d \/ same_records D D2)
  | Err _ => True
  end.

Lemma transact_spec {A} claims0 claims (body : dict -> result (A * dict)) d : sound claims0 d -> Forall (lives process_alive) claims0 ->
  (forall D, Forall (met D) claims0 -> Forall (met D) claims) ->
  (forall D v D2, doc_ok D -> Forall (met D) claims0 -> body D = Ok (v, D2) -> doc_ok D2 /\ Forall (met D2) claims) ->
  triple (sound claims) E d (transact conv euid getpid start process_alive body) (transacted claims0 body).
Proof.
  intros Hs Hl Hw Hbody. apply t_start. intros Hsd. destruct (Hs process_alive) as (x & D & Hx & HxD & HD & Hm0).
  assert (Hmm : Forall (met D) claims0) by (apply Forall_forall; intros c Hc; rewrite Forall_forall in *; auto). pose proof (Hw D Hmm) as Hm.
  unfold transact. t_step. eapply t_mono; [apply (recover_frame_spec conv euid _MAX_STATE_BYTES process_alive d x); [done|done| |by apply (sound_plain claims x D)]|].
  { intros m Hj. by apply sound_journal. }
  intros [y|e] d' H; [|done]. destruct H as (-> & Hmain & _). apply t_start. intros Hs'. t_step. t_step. rewrite HxD.
  t_step. t_step; [|done]. t_step. t_step. destruct (body D) as [[v D2]|e] eqn:Hb; [|done]. cbn [fst snd].
  destruct (Hbody D v D2 HD Hmm Hb) as [HD2 Hm2]. set (payload := _encode_state D2). destruct (Z.ltb_spec _MAX_STATE_BYTES (len payload)) as [|Hlen]; [by t_step|].
  pose proof (decode_encode_state D2 HD2 Hlen) as Hdec. fold payload in Hdec. pose proof (doc_ok_sorted D2 HD2) as HD2'.
  assert (Hm2' : Forall (met (sorted_doc D2)) claims) by (eapply Forall_impl; [exact Hm2|]; intros c; unfold met; by rewrite !held_sorted).
  t_step. t_step.
  - destruct d' as [m' j' t']. cbn [main] in Hmain. subst m'. eapply t_mono; [apply commit_frame_spec|]; [done|..].
    + intros t. destruct j' as [i|]; [by apply (sound_journal claims x t _ Hs')|by apply (sound_plain claims x D)].
    + intros h m t Hh a. pose proof (settled_prepared conv euid _MAX_STATE_BYTES getpid start x payload getpid_pos a h m t Hh) as Hp.
      destruct (a getpid (take 128 start)); [exists x, D|exists payload, (sorted_doc D2)]; (split; [done|split; [done|split; [done|]]]); eapply Forall_impl; [exact Hm| |exact Hm2'|]; auto.
    + intros h m t Hh a. exists payload, (sorted_doc D2). split; [by apply settled_committed|split; [done|split; [done|]]]. eapply Forall_impl; [exact Hm2'|]; auto.
    + intros h t Hh. split; [by apply (sound_plain claims x D)|by apply (sound_plain claims payload (sorted_doc D2))].
    + intros [[]|e] d1 Hr; [|done]. t_step. exists D, D2. split; [done|split; [done|split; [done|split; [done|]]]]. destruct Hr as [Heq|Hset].
      * right. intros f k. rewrite <- (held_sorted f D2 k HD2). rewrite Heq, Hdec in HxD. by injection HxD as <-.
      * left. intros a. exists payload, (sorted_doc D2). split; [done|split; [done|split; [done|]]]. intros f k. by apply held_sorted.
  - t_step. exists D, D2. split; [done|split; [done|split; [done|split; [done|right]]]]. intros f k.
    apply negb_false_iff, bool_decide_eq_true, encode_state_inj in H; [|done..]. rewrite <- (held_sorted f D2 k HD2), <- (held_sorted f D k HD). by rewrite H.
Qed.

(** An exit that only makes calls leaves the outcome as it is, or turns it into an error. *)
Lemma t_with_exit {A} P d (m : M world A) (exit : M world unit) (Q : result A -> files -> Prop) : (forall e d', P d' -> Q (Err e) d') ->
  (forall d' (R : result unit -> files -> Prop), P d' -> R (Ok tt) d' -> (forall e, R (Err e) d') -> triple P E d' exit R) ->
  triple P E d m Q -> triple P E d (with_exit m exit) Q.
Proof.
  intros Herr Hexit Hm. unfold with_exit. t_step. t_step. eapply t_mono; [exact Hm|]. intros [v|e] d' HQ.
  - apply t_start. intros HP. t_step. apply Hexit; [done|by t_step|]. intros e. by apply Herr.
  - apply t_start. intros HP. t_step. apply Hexit; [done|by t_step|]. intros e'. by apply Herr.
Qed.

Lemma locked_state_spec {A} claims0 claims (body : dict -> result (A * dict)) d : sound claims0 d -> Forall (lives process_alive) claims0 ->
  (forall D, Forall (met D) claims0 -> Forall (met D) claims) ->
  (forall D v D2, doc_ok D -> Forall (met D) claims0 -> body D = Ok (v, D2) -> doc_ok D2 /\ Forall (met D2) claims) ->
  triple (sound claims) E d (_locked_state conv euid getpid start process_alive body) (transacted claims0 body).
Proof.
  intros Hs Hl Hw Hbody. apply t_start. intros Hsd. unfold _locked_state. t_step. t_step; [done| |done]. apply t_with_exit; [done| |].
  { intros d' R HP Hok Herr. t_step; [done|done|by apply Herr]. }
  t_step. t_step; [done| |done]. apply t_with_exit; [done| |by apply transact_spec].
  intros d' R HP Hok Herr. t_step. t_step; [done|done|]. destruct (is_oserror e); [by t_step|by apply Herr].
Qed.
End Transact.
End Sound.

(** ** Registries *)

Record registered (getpid : Z) (r : registry) (x : Z * (nat * Z)) (a : account) : Prop := {
  rg_object : objects r !! fst (snd x) = Some a;
  rg_device : device a = snd (snd x);
  rg_pid : account_pid a = getpid;
  rg_closed : closed a = false;
  rg_bytes : 0 <= reserved_bytes a;
  rg_inodes : 0 <= reserved_inodes a;
}.

Record registry_ok (getpid : Z) (r : registry) : Prop := {
  ry_tokens : NoDup (accounts r).*1;
  ry_indices : NoDup ((fun x => fst (snd x)) <$> accounts r);
  ry_accounts : Forall (fun x => exists a, registered getpid r x a) (accounts r);
}.

Section Registry.
Variable getpid : Z.

#[local] Abbreviation authority := (_device_authority_unlocked getpid).

Definition add2 (p q : Z * Z) : Z * Z := (fst p + fst q, snd p + snd q).

Definition shares (dev : Z) (objs : list account) (l : list (Z * (nat * Z))) : Z * Z :=
  foldr (fun x z => add2 (share getpid dev objs x) z) (0, 0) l.

Lemma authority_shares dev r : authority dev r = shares dev (objects r) (accounts r).
Proof. done. Qed.

Lemma share_registered dev r x a : registered getpid r x a ->
  share getpid dev (objects r) x = if dev =? snd (snd x) then (reserved_bytes a, reserved_inodes a) else (0, 0).
Proof. intros [Ho Hd Hp Hc _ _]. unfold share. rewrite Ho, Hc, Hp, Z.eqb_refl, (Z.eqb_sym dev). by destruct (snd (snd x) =? dev). Qed.

Lemma shares_ext dev objs objs' l : (forall x, x ∈ l -> share getpid dev objs' x = share getpid dev objs x) -> shares dev objs' l = shares dev objs l.
Proof. induction l as [|x l IH]; intros H; [done|]. unfold shares in *. cbn [foldr]. rewrite IH, H; [done|by left|]. intros y Hy. apply H. by right. Qed.

Lemma shares_app dev objs l k : shares dev objs (l ++ k) = add2 (shares dev objs l) (shares dev objs k).
Proof.
  induction l as [|x l IH]; [simpl; destruct (shares dev objs k); done|]. unfold shares in *. cbn [app foldr]. rewrite IH. unfold add2. simpl. f_equal; lia.
Qed.

Lemma authority_nonneg dev r : registry_ok getpid r -> 0 <= fst (authority dev r) /\ 0 <= snd (authority dev r).
Proof.
  intros [_ _ Hr]. rewrite authority_shares. induction Hr as [|x l (a & Ha) _ IH]; [done|]. unfold shares in *. cbn [foldr add2].
  rewrite (share_registered dev r x a Ha). pose proof (rg_bytes _ _ _ _ Ha). pose proof (rg_inodes _ _ _ _ Ha). destruct (dev =? _); simpl; lia.
Qed.

Lemma token_get_elem t v l : token_get t l = Some v -> (t, v) ∈ l.
Proof. induction l as [|[t' v'] l IH]; simpl; [done|]. destruct (Z.eqb_spec t' t); [intros [= ->]; subst; left|intros; right; auto]. Qed.

(** The entry an authenticated account has. *)
Lemma authoritative_spec i r : registry_ok getpid r -> authoritative i r = true ->
  exists a l1 l2, accounts r = l1 ++ (account_token a, (i, device a)) :: l2 /\ registered getpid r (account_token a, (i, device a)) a
    /\ Forall (fun x => fst (snd x) <> i) (l1 ++ l2).
Proof.
  intros [Ht Hi Hr] Ha. unfold authoritative in Ha. destruct (objects r !! i) as [a|] eqn:Eo; [|done].
  destruct (token_get (account_token a) (accounts r)) as [[j d]|] eqn:Eg; [|done]. apply andb_prop in Ha as [->%Nat.eqb_eq ->%Z.eqb_eq].
  apply token_get_elem in Eg as Hin. apply list_elem_of_split in Hin as (l1 & l2 & E). exists a, l1, l2. split; [done|]. rewrite E in Hr, Hi.
  apply Forall_app in Hr as [_ [[a' Ha'] _]%Forall_cons]. split.
  - destruct Ha' as [Ho' ? ? ? ? ?]. cbn [fst snd] in *. rewrite Eo in Ho'. injection Ho' as <-. by split.
  - rewrite fmap_app, fmap_cons in Hi. cbn [fst snd] in Hi. apply NoDup_app in Hi as (_ & H1 & [H2 _]%NoDup_cons). apply Forall_app. split; apply Forall_forall; intros x Hx E'.
    + apply (H1 i); [rewrite <- E'; by apply (list_elem_of_fmap_2 (fun x => fst (snd x)))|left].
    + apply H2. rewrite <- E'. by apply (list_elem_of_fmap_2 (fun x => fst (snd x))).
Qed.

(** A change that keeps what identifies an account. *)
Definition keeps_identity (f : account -> account) : Prop := forall a,
  device (f a) = device a /\ account_pid (f a) = account_pid a /\ closed (f a) = closed a /\ account_token (f a) = account_token a.

Lemma share_change dev i f r x : fst (snd x) <> i -> share getpid dev (objects (change i f r)) x = share getpid dev (objects r) x.
Proof. intros Hne. unfold share, change. cbn [objects]. by rewrite list_lookup_alter_ne. Qed.

Lemma registered_change i f r x a : registered getpid r x a -> fst (snd x) <> i -> registered getpid (change i f r) x a.
Proof. intros [] Hne. split; try done. unfold change. cbn [objects]. by rewrite list_lookup_alter_ne. Qed.

Lemma change_spec i f r a : registry_ok getpid r -> authoritative i r = true -> objects r !! i = Some a -> keeps_identity f ->
  0 <= reserved_bytes (f a) -> 0 <= reserved_inodes (f a) ->
  registry_ok getpid (change i f r) /\ authoritative i (change i f r) = true /\ objects (change i f r) !! i = Some (f a)
  /\ forall dev, authority dev (change i f r) = if dev =? device a
       then (fst (authority dev r) + (reserved_bytes (f a) - reserved_bytes a), snd (authority dev r) + (reserved_inodes (f a) - reserved_inodes a))
       else authority dev r.
Proof.
  intros Hok Hauth Ho Hf Hb Hn. destruct (authoritative_spec i r Hok Hauth) as (a' & l1 & l2 & E & Hreg & Hoth).
  assert (a' = a) as -> by (pose proof (rg_object _ _ _ _ Hreg) as Ho'; cbn [fst snd] in Ho'; congruence).
  destruct (Hf a) as (Fd & Fp & Fc & Ft). assert (Ho' : objects (change i f r) !! i = Some (f a)) by (unfold change; cbn [objects]; by rewrite list_lookup_alter_eq, Ho).
  assert (Hreg' : registered getpid (change i f r) (account_token a, (i, device a)) (f a)).
  { destruct Hreg as [_ ? ? ? ? ?]. split; cbn [fst snd] in *; congruence || done. }
  split; [|split; [|split; [done|]]].
  - destruct Hok as [Ht Hi Hr]. split; [done|done|]. change (accounts (change i f r)) with (accounts r). rewrite E in *.
    apply Forall_app in Hr as [H1 [_ H2]%Forall_cons]. apply Forall_app in Hoth as [O1 O2]. rewrite Forall_forall in H1, H2, O1, O2.
    apply Forall_app. split; [|constructor; [by exists (f a)|]]; apply Forall_forall; intros x Hx.
    + destruct (H1 x Hx) as [b Hb']. exists b. apply registered_change; auto.
    + destruct (H2 x Hx) as [b Hb']. exists b. apply registered_change; auto.
  - unfold authoritative in *. rewrite Ho', Ft, Fd. by rewrite Ho in Hauth.
  - intros dev. rewrite !authority_shares. change (accounts (change i f r)) with (accounts r). rewrite E.
    rewrite (cons_middle (account_token a, (i, device a)) l1 l2), !shares_app. apply Forall_app in Hoth as [O1 O2]. rewrite Forall_forall in O1, O2.
    rewrite (shares_ext dev (objects r) (objects (change i f r)) l1), (shares_ext dev (objects r) (objects (change i f r)) l2) by (intros; apply share_change; auto).
    set (s1 := shares dev _ l1). set (s2 := shares dev _ l2). unfold shares. cbn [foldr].
    rewrite (share_registered dev _ _ _ Hreg), (share_registered dev _ _ _ Hreg'). cbn [fst snd].
    destruct (dev =? device a); unfold add2; cbn [fst snd]; f_equal; lia.
Qed.

(** The accounts that count are the same. *)
Definition similar (a b : account) : Prop :=
  device b = device a /\ account_pid b = account_pid a /\ closed b = closed a /\ reserved_bytes b = reserved_bytes a /\ reserved_inodes b = reserved_inodes a.

Definition unmoved (r r' : registry) : Prop := registry_ok getpid r' /\ forall dev, authority dev r' = authority dev r.

Lemma unmoved_trans r r' r'' : unmoved r r' -> unmoved r' r'' -> unmoved r r''.
Proof. intros [_ E] [Hok E']. split; [done|]. intros dev. by rewrite E', E. Qed.

Lemma unmoved_sub r r' : registry_ok getpid r -> (exists l, accounts r ≡ₚ accounts r' ++ l /\ forall dev, shares dev (objects r) l = (0, 0)) ->
  (forall x a, x ∈ accounts r' -> objects r !! fst (snd x) = Some a -> exists b, objects r' !! fst (snd x) = Some b /\ similar a b) -> unmoved r r'.
Proof.
  intros [Ht Hi Hr] (l & Hp & Hl) Hsim. assert (Hsub : forall x, x ∈ accounts r' -> x ∈ accounts r) by (intros x Hx; rewrite Hp; apply elem_of_app; by left).
  rewrite Forall_forall in Hr. split; [split|].
  - rewrite Hp, fmap_app in Ht. by apply NoDup_app in Ht as (? & _ & _).
  - rewrite Hp, fmap_app in Hi. by apply NoDup_app in Hi as (? & _ & _).
  - apply Forall_forall. intros x Hx. destruct (Hr x (Hsub x Hx)) as (a & [Ho ? ? ? ? ?]). destruct (Hsim x a Hx Ho) as (b & Hb & Ed & Ep & Ec & Eb & En).
    exists b. split; congruence || lia.
  - intros dev. rewrite !authority_shares.
    assert (shares dev (objects r) (accounts r) = shares dev (objects r) (accounts r' ++ l)) as ->.
    { apply (foldr_permutation_proper eq); [solve_proper| |done]. intros x y z. unfold add2. cbn [fst snd]. f_equal; lia. }
    rewrite shares_app, Hl. unfold add2. cbn [fst snd]. rewrite !Z.add_0_r, <- surjective_pairing. apply shares_ext. intros x Hx.
    destruct (Hr x (Hsub x Hx)) as (a & [Ho ? ? ? ? ?]). destruct (Hsim x a Hx Ho) as (b & Hb & Ed & Ep & Ec & Eb & En).
    unfold share. by rewrite Ho, Hb, Ep, Ec, Eb, En.
Qed.

Lemma unmoved_objects r r' : registry_ok getpid r -> accounts r' = accounts r ->
  (forall j a, objects r !! j = Some a -> exists b, objects r' !! j = Some b /\ similar a b) -> unmoved r r'.
Proof. intros Hok E Hsim. apply unmoved_sub; [done|exists []; by rewrite E, app_nil_r|]. intros x a _. apply Hsim. Qed.

Lemma unmoved_entry r token i a n : registry_ok getpid r -> objects r !! i = Some a -> account_pid a = getpid -> closed a = false ->
  reserved_bytes a = 0 -> reserved_inodes a = 0 -> token ∉ (accounts r).*1 -> i ∉ (fun x => fst (snd x)) <$> accounts r ->
  unmoved r (mk_registry (objects r) (accounts r ++ [(token, (i, device a))]) n).
Proof.
  intros [Ht Hi Hr] Ho Hp Hc Hb Hn Hft Hfi. split; [split; cbn [accounts objects]|].
  - rewrite fmap_app. apply NoDup_app. split; [done|split; [|apply NoDup_singleton]]. by intros x Hx ->%list_elem_of_singleton.
  - rewrite fmap_app. apply NoDup_app. split; [done|split; [|apply NoDup_singleton]]. by intros x Hx ->%list_elem_of_singleton.
  - apply Forall_app. split; [eapply Forall_impl; [exact Hr|]; intros x [b []]; by exists b|]. constructor; [|constructor]. exists a. split; cbn [fst snd objects]; done || lia.
  - intros dev. rewrite !authority_shares. cbn [accounts objects]. rewrite shares_app. unfold shares at 2. cbn [foldr]. unfold share. cbn [fst snd]. rewrite Ho, Hb, Hn.
    destruct (_ || _); unfold add2; cbn [fst snd]; rewrite !Z.add_0_r; by rewrite <- surjective_pairing.
Qed.

Lemma free_token_fresh turns t l t' : free_token turns t l = Some t' -> t' ∉ l.*1.
Proof.
  revert t. induction turns as [|turns IH]; intros t; cbn [free_token]; [done|]. set (next := if _ : bool then _ else _).
  destruct (token_get next l) eqn:E; [apply IH|]. intros [= <-]. clear IH. induction l as [|[k v] l IHl]; [apply not_elem_of_nil|].
  cbn [token_get] in E. destruct (Z.eqb_spec k next); [done|]. rewrite fmap_cons. cbn [fst]. apply not_elem_of_cons. split; [congruence|auto].
Qed.

Lemma open_phase n dev r : registry_ok getpid r -> wp n (open_cross_process_storage_account getpid dev) (fun _ _ r' => unmoved r r') r.
Proof.
  intros Hok. unfold open_cross_process_storage_account. wp_step. wp_step. wp_step. wp_step. set (a := mk_account _ _ _ _ _ _ _ _).
  set (r1 := mk_registry _ _ _). assert (H1 : unmoved r r1).
  { apply unmoved_objects; [done|done|]. intros j b Hj. exists b. split; [by apply lookup_app_l_Some|by repeat split]. }
  wp_step. wp_step. destruct (_ <=? _); [by wp_step|]. wp_step. wp_step. destruct (free_token _ _ _) as [token|] eqn:Ef; [|by wp_step]. apply free_token_fresh in Ef.
  assert (Ho : objects r1 !! length (objects r) = Some a) by (cbn [r1 objects]; by rewrite lookup_app_r, Nat.sub_diag).
  assert (Hi : length (objects r) ∉ (fun x => fst (snd x)) <$> accounts r1).
  { intros ([t [j d]] & E & Hin)%list_elem_of_fmap. cbn [fst snd] in E. subst j. destruct Hok as [_ _ Hr]. rewrite Forall_forall in Hr.
    destruct (Hr _ Hin) as (b & [Hb _ _ _ _ _]). cbn [fst snd] in Hb. apply lookup_lt_Some in Hb. lia. }
  pose proof (fun s => unmoved_entry r1 token _ a s (proj1 H1) Ho eq_refl eq_refl eq_refl eq_refl Ef Hi) as H2.
  wp_step. wp_step; [|done]. wp_step. wp_step; [|by eapply unmoved_trans]. wp_step. wp_step; [|by eapply unmoved_trans]. wp_step.
  eapply unmoved_trans; [exact (unmoved_trans _ _ _ H1 (H2 token))|]. apply unmoved_objects; [apply H2|done|]. intros j b Hj. cbn [change objects] in *.
  destruct (decide (j = length (objects r))) as [->|Hne]; [|exists b; rewrite list_lookup_alter_ne by done; split; [done|by repeat split]].
  exists (with_account_token token b). by rewrite list_lookup_alter_eq, Hj.
Qed.

Lemma retire_phase n i r : registry_ok getpid r -> wp n (retire_account i) (fun _ _ r' => unmoved r r') r.
Proof.
  intros Hok. assert (Hsame : unmoved r r) by done. unfold retire_account. wp_step. wp_step. destruct (objects r !! i) as [a|] eqn:Ho; [|by wp_step].
  destruct (_ || _) eqn:Hz; [by wp_step|]. apply orb_false_iff in Hz as [Hb%negb_false_iff%Z.eqb_eq Hn%negb_false_iff%Z.eqb_eq].
  wp_step. unfold _authenticate_account_registry_unlocked. wp_step. wp_step. destruct (authoritative i r) eqn:Hv; [|by wp_step].
  destruct (authoritative_spec i r Hok Hv) as (a' & l1 & l2 & E & Hreg & Hoth). assert (a' = a) as -> by (pose proof (rg_object _ _ _ _ Hreg) as Ho'; cbn [fst snd] in Ho'; congruence).
  assert (Epop : token_pop (account_token a) (accounts r) = l1 ++ l2).
  { pose proof (ry_tokens _ _ Hok) as Ht. rewrite E, fmap_app, fmap_cons in Ht. cbn [fst] in Ht. apply NoDup_app in Ht as (_ & H1 & [H2 _]%NoDup_cons).
    assert (forall l, account_token a ∉ l.*1 -> token_pop (account_token a) l = l) as Hno.
    { induction l as [|[t v] l IH]; [done|]. rewrite fmap_cons. cbn [fst]. intros [Hne Hl]%not_elem_of_cons. unfold token_pop in *. cbn [List.filter fst].
      rewrite (proj2 (Z.eqb_neq t (account_token a))) by congruence. cbn [negb]. by rewrite IH. }
    rewrite E. unfold token_pop in *. rewrite List.filter_app. cbn [List.filter fst]. rewrite Z.eqb_refl. cbn [negb]. rewrite !Hno; [done|done|].
    intros Hin. apply (H1 _ Hin). left. }
  assert (Hzero : forall dev, shares dev (objects r) [(account_token a, (i, device a))] = (0, 0)).
  { intros dev. unfold shares. cbn [foldr]. rewrite (share_registered dev _ _ _ Hreg), Hb, Hn. by destruct (dev =? _). }
  assert (Hperm : accounts r ≡ₚ (l1 ++ l2) ++ [(account_token a, (i, device a))]) by (rewrite E, <- app_assoc; apply Permutation_app_head; rewrite Permutation_cons_append; done).
  wp_step. wp_step. wp_step; [|done]. wp_step; [|].
  - apply unmoved_sub; [done|exists [(account_token a, (i, device a))]; cbn [change accounts]; by rewrite Epop|]. cbn [change accounts objects]. rewrite Epop.
    intros x b Hx Hxb. rewrite Forall_forall in Hoth. exists b. rewrite list_lookup_alter_ne by (intros ?; by apply (Hoth x Hx)). split; [done|by repeat split].
  - apply unmoved_sub; [done|exists [(account_token a, (i, device a))]; cbn [accounts]; by rewrite Epop|]. cbn [accounts objects]. intros x b _ Hb'. exists b. split; [done|by repeat split].
Qed.
End Registry.

(** ** Calls of one process among others *)

Lemma sum_covers f D keys : NoDup D.*1 -> NoDup keys -> foldr (fun k z => held f D k + z) 0 keys <= sum_of f D.
Proof.
  revert keys. induction D as [|[k v] D IH]; intros keys Hn Hk.
  - assert (forall l, foldr (fun k z => held f [] k + z) 0 l = 0) as -> by (induction l as [|x l IHl]; [done|exact IHl]). done.
  - rewrite fmap_cons, NoDup_cons in Hn. destruct Hn as [Hnew Hn]. cbn [fst] in Hnew. unfold sum_of. cbn [foldr snd]. fold (sum_of f D).
    assert (Hoth : forall x, x <> k -> held f ((k, v) :: D) x = held f D x) by (intros x Hx; unfold held; cbn [get]; destruct (get D x); [done|]; by rewrite bool_decide_eq_false_2).
    assert (Hrest : forall l, k ∉ l -> foldr (fun k0 z => held f ((k, v) :: D) k0 + z) 0 l = foldr (fun k0 z => held f D k0 + z) 0 l).
    { induction l as [|x l IHl]; [done|]. intros [Hx Hl]%not_elem_of_cons. cbn [foldr]. by rewrite IHl, Hoth. }
    destruct (decide (k ∈ keys)) as [Hin|Hout]; [|rewrite Hrest by done; pose proof (item_int_nonneg f v); pose proof (IH keys Hn Hk); lia].
    apply list_elem_of_split in Hin as (l1 & l2 & ->). assert (Hp : l1 ++ k :: l2 ≡ₚ k :: l1 ++ l2) by (symmetry; apply Permutation_middle).
    rewrite Hp in Hk. apply NoDup_cons in Hk as [Hkk Hk].
    assert (Hsum : foldr (fun k0 z => held f ((k, v) :: D) k0 + z) 0 (l1 ++ k :: l2) = foldr (fun k0 z => held f ((k, v) :: D) k0 + z) 0 (k :: l1 ++ l2)).
    { apply (foldr_permutation_proper eq); [solve_proper|intros; lia|done]. }
    rewrite Hsum. cbn [foldr]. rewrite Hrest by done. pose proof (IH (l1 ++ l2) Hn Hk).
    assert (held f ((k, v) :: D) k = item_int f v) as -> by (unfold held; cbn [get]; rewrite (proj2 (get_None D k) Hnew); by rewrite bool_decide_eq_true_2). lia.
Qed.

Definition total (g : claim -> Z) (claims : list claim) : Z := foldr (fun c z => g c + z) 0 claims.

(** Claims that a document meets fit under its sums. *)
Lemma claims_covered D claims : doc_ok D -> NoDup (claim_key <$> claims) -> Forall (met D) claims ->
  total claim_bytes claims <= sum_of (lit "reserved") D /\ total claim_inodes claims <= sum_of (lit "inodes") D.
Proof.
  intros HD Hn Hm. pose proof (sum_covers (lit "reserved") D _ (dk_keys _ HD) Hn). pose proof (sum_covers (lit "inodes") D _ (dk_keys _ HD) Hn).
  assert (total claim_bytes claims <= foldr (fun k z => held (lit "reserved") D k + z) 0 (claim_key <$> claims)
    /\ total claim_inodes claims <= foldr (fun k z => held (lit "inodes") D k + z) 0 (claim_key <$> claims)) by (clear -Hm; unfold total; induction Hm as [|c l [] _ []]; [done|rewrite fmap_cons; cbn [foldr]; lia]).
  lia.
Qed.

Section Calls.
Variables (conv : conversions) (euid getpid : Z) (start : text) (process_alive : Z -> text -> bool) (now : text) (has_fcntl : bool) (switch : option text).
Hypothesis getpid_pos : 0 < getpid.
Hypothesis self_alive : process_alive getpid start = true.
Hypothesis now_float : float_literal now = true.
Variable others : list claim.
Hypothesis others_live : Forall (lives process_alive) others.
Hypothesis keys_distinct : NoDup (claim_key <$> (mk_claim getpid start 0 0 :: others)).

#[local] Abbreviation own b n := (mk_claim getpid start b n).
#[local] Abbreviation anything := (fun _ : exn => True).

Lemma others_differ c : c ∈ others -> claim_key c <> owner_key getpid start.
Proof. intros Hc E. rewrite fmap_cons, NoDup_cons in keys_distinct. apply (proj1 keys_distinct). change (claim_key (own 0 0)) with (owner_key getpid start). rewrite <- E. by apply (list_elem_of_fmap_2 claim_key). Qed.

Lemma met_moved D D2 b n b' n' : moved getpid start process_alive D D2 b n -> Forall (met D) others -> b' <= b -> n' <= n -> Forall (met D2) (own b' n' :: others).
Proof.
  intros (_ & Hb & Hn & Hmv) Hm Hb' Hn'. constructor; [unfold met, claim_key; cbn [claim_pid claim_start claim_bytes claim_inodes]; by rewrite Hb, Hn|].
  apply Forall_forall. intros c Hc. rewrite Forall_forall in Hm, others_live. destruct (Hm c Hc), (others_live c Hc). pose proof (others_differ c Hc).
  unfold met, claim_key in *. by rewrite !Hmv by auto.
Qed.

Lemma all_live b n : Forall (lives process_alive) (own b n :: others).
Proof. by constructor. Qed.

Lemma reconcile_raw_spec b n enabled d : 0 <= b -> 0 <= n -> sound conv euid (own b n :: others) d ->
  triple (sound conv euid (own b n :: others)) anything d
    (_reconcile_cross_process_account_raw conv euid getpid start process_alive now has_fcntl switch b n enabled) (fun _ _ => True).
Proof.
  intros Hb Hn Hs. unfold _reconcile_cross_process_account_raw. destruct (negb _); [by t_step|].
  eapply t_mono; [apply (locked_state_spec conv euid getpid start process_alive anything getpid_pos (own b n :: others)); [done|apply all_live|done|]|done].
  intros D v D2 HD [_ Hm]%Forall_cons E. destruct (reconcile_body_spec getpid start process_alive now getpid_pos self_alive now_float _ _ _ _ _ Hb Hn HD E) as [Hmv _].
  split; [apply Hmv|by eapply met_moved].
Qed.

Lemma release_raw_spec b n size count enabled d : 0 <= size -> 0 <= count -> sound conv euid (own b n :: others) d ->
  triple (sound conv euid (own (b - size) (n - count) :: others)) anything d
    (_release_cross_process_raw conv euid getpid start process_alive now has_fcntl switch size count enabled) (fun _ _ => True).
Proof.
  intros Hsz Hct Hs. unfold _release_cross_process_raw. destruct (_ || _); [by t_step|]. destruct (_ || _); [by t_step|].
  eapply t_mono; [apply (locked_state_spec conv euid getpid start process_alive anything getpid_pos (own b n :: others)); [done|apply all_live| |]|done].
  - intros D [[Hb Hn] Hm]%Forall_cons. constructor; [|done]. unfold met, claim_key in *. cbn [claim_pid claim_start claim_bytes claim_inodes] in *. lia.
  - intros D v D2 HD [[Hb Hn] Hm]%Forall_cons E. unfold claim_key in *. cbn [claim_pid claim_start claim_bytes claim_inodes] in *.
    pose proof (release_body_spec getpid start process_alive now getpid_pos self_alive now_float _ _ _ _ _ Hsz Hct HD E) as Hmv.
    split; [apply Hmv|eapply met_moved; [exact Hmv|done|lia..]].
Qed.

(** What a reservation that returned has established. *)
Definition granted (b n size count cap : Z) (inode_cap : option Z) (d : files) : Prop :=
  sound conv euid (own (b + size) (n + count) :: others) d
  /\ (0 < size \/ 0 < count -> total claim_bytes (own (b + size) (n + count) :: others) <= cap
      /\ forall c, inode_cap = Some c -> total claim_inodes (own (b + size) (n + count) :: others) <= c).

Lemma reserve_raw_spec b n size cap count inode_cap enabled d : coordinated has_fcntl switch enabled = true -> sound conv euid (own b n :: others) d ->
  triple (sound conv euid (own b n :: others)) anything d
    (_reserve_cross_process_raw conv euid getpid start process_alive now has_fcntl switch size cap count inode_cap enabled)
    (fun r d' => match r with Ok _ => 0 <= size /\ 0 <= count /\ granted b n size count cap inode_cap d' | Err _ => True end).
Proof.
  intros Hco Hs. unfold _reserve_cross_process_raw. destruct (_ || _) eqn:Hneg; [by t_step|].
  rewrite !orb_false_iff, !Z.ltb_ge in Hneg. destruct Hneg as [[[Hsz _] Hct] _]. rewrite Hco. cbn [negb orb]. destruct (_ && _) eqn:Hzero.
  - apply andb_prop in Hzero as [->%Z.eqb_eq ->%Z.eqb_eq]. t_step. split; [done|split; [done|]]. split; [by rewrite !Z.add_0_r|lia].
  - assert (0 < size \/ 0 < count) as Hpos by lia.
    eapply t_mono; [apply (locked_state_spec conv euid getpid start process_alive anything getpid_pos (own b n :: others)); [done|apply all_live|done|]|].
    + intros D v D2 HD [[Hb Hn] Hm]%Forall_cons E. unfold claim_key in *. cbn [claim_pid claim_start claim_bytes claim_inodes] in *.
      destruct (reserve_body_spec getpid start process_alive now getpid_pos self_alive now_float _ _ _ _ _ _ _ Hsz Hct HD E) as (Hmv & _).
      split; [apply Hmv|eapply met_moved; [exact Hmv|done|lia..]].
    + intros [v|e] d'; [|done]. intros (D & D2 & HD & [[Hb Hn] Hm]%Forall_cons & E & HD2 & Hset). split; [done|split; [done|]].
      unfold claim_key in *. cbn [claim_pid claim_start claim_bytes claim_inodes] in *.
      destruct (reserve_body_spec getpid start process_alive now getpid_pos self_alive now_float _ _ _ _ _ _ _ Hsz Hct HD E) as (Hmv & -> & Hcap & Hicap).
      assert (Hm2 : Forall (met D2) (own (b + size) (n + count) :: others)) by (eapply met_moved; [exact Hmv|done|lia..]).
      destruct Hset as [Hset|Hsame]; [|destruct Hmv as (_ & H1 & H2 & _); rewrite Hsame in H1, H2; lia].
      split; [by apply (settled_sound conv euid D2)|]. intros _. destruct (claims_covered D2 (own (b + size) (n + count) :: others) HD2 keys_distinct Hm2) as [Tb Ti].
      split; [lia|]. intros c Hc. specialize (Hicap c Hc). lia.
Qed.

(** *** The critical sections of an account *)

#[local] Abbreviation authority := (_device_authority_unlocked getpid).

Definition me (dev : Z) (r : registry) : claim := own (fst (authority dev r)) (snd (authority dev r)).

(** A critical section for a device keeps the document sound for what the process
    now holds and for the others, also where it is cut short, and leaves the
    other devices alone. *)
Record kept (dev : Z) (w : world) (r : registry) (w' : world) (r' : registry) : Prop := {
  kp_registry : registry_ok getpid r';
  kp_sound : sound conv euid (me dev r' :: others) (disk w');
  kp_passed : grown (sound conv euid others) w w';
  kp_others : forall dev', dev' <> dev -> authority dev' r' = authority dev' r;
}.

Definition no_more (dev : Z) (r r' : registry) : Prop :=
  fst (authority dev r') <= fst (authority dev r) /\ snd (authority dev r') <= snd (authority dev r).

(** The account at work, while the registry changes from [r] to [r']. *)
Record active (i : nat) (dev : Z) (a : account) (r r' : registry) : Prop := {
  ac_registry : registry_ok getpid r';
  ac_valid : authoritative i r' = true;
  ac_object : objects r' !! i = Some a;
  ac_device : device a = dev;
  ac_others : forall dev', dev' <> dev -> authority dev' r' = authority dev' r;
}.

Lemma active_refl i a r : registry_ok getpid r -> authoritative i r = true -> objects r !! i = Some a -> active i (device a) a r r.
Proof. by split. Qed.

Lemma active_change i dev a r r' f : active i dev a r r' -> keeps_identity f -> 0 <= reserved_bytes (f a) -> 0 <= reserved_inodes (f a) ->
  active i dev (f a) r (change i f r')
  /\ authority dev (change i f r') = (fst (authority dev r') + (reserved_bytes (f a) - reserved_bytes a), snd (authority dev r') + (reserved_inodes (f a) - reserved_inodes a)).
Proof.
  intros [Hok Hv Ho Hd Hoth] Hf Hb Hn. destruct (change_spec getpid i f r' a Hok Hv Ho Hf Hb Hn) as (Hok' & Hv' & Ho' & Ha). destruct (Hf a) as (Fd & _).
  split; [split; [done..|congruence|]|].
  - intros dev' Hne. rewrite Ha, (proj2 (Z.eqb_neq dev' (device a))) by congruence. by apply Hoth.
  - rewrite Ha, (proj2 (Z.eqb_eq dev (device a))) by congruence. done.
Qed.

Lemma active_nonneg i dev a r r' : active i dev a r r' -> 0 <= reserved_bytes a /\ 0 <= reserved_inodes a.
Proof.
  intros [Hok Hv Ho _ _]. destruct (authoritative_spec getpid i r' Hok Hv) as (a' & l1 & l2 & _ & Hreg & _). destruct Hreg as [Ho' _ _ _ ? ?]. cbn [fst snd] in Ho'.
  assert (a' = a) as <- by congruence. done.
Qed.

(** A change of the flags only. *)
Lemma active_flag i dev a r r' f : active i dev a r r' -> keeps_identity f -> reserved_bytes (f a) = reserved_bytes a -> reserved_inodes (f a) = reserved_inodes a ->
  active i dev (f a) r (change i f r') /\ authority dev (change i f r') = authority dev r'.
Proof.
  intros Ha Hf Hb Hn. destruct (active_nonneg _ _ _ _ _ Ha). destruct (active_change _ _ _ _ _ f Ha Hf) as [Ha' E]; [lia..|]. split; [done|].
  rewrite E, Hb, Hn, !Z.sub_diag, !Z.add_0_r. by destruct (authority dev r').
Qed.

Lemma active_kept i dev a w r w' r' : active i dev a r r' -> sound conv euid (me dev r' :: others) (disk w') -> grown (sound conv euid others) w w' -> kept dev w r w' r'.
Proof. intros [] ? ?. by split. Qed.

(** What is claimed by the process and the others is claimed by the others. *)
Lemma sound_others c d : sound conv euid (c :: others) d -> sound conv euid others d.
Proof. intros Hs. eapply sound_weaken; [exact Hs|]. intros c' Hc'. exists c'. split; [by right|split_and!; done || lia]. Qed.

Lemma sound_less b n b' n' d : sound conv euid (own b n :: others) d -> b' <= b -> n' <= n -> sound conv euid (own b' n' :: others) d.
Proof.
  intros Hs Hb Hn. eapply sound_weaken; [exact Hs|]. intros c' [->|Hc']%elem_of_cons; [exists (own b n); split; [by left|done]|exists c'; split; [by right|split_and!; done || lia]].
Qed.

Lemma grown_others c w w' : grown (sound conv euid (c :: others)) w w' -> grown (sound conv euid others) w w'.
Proof. intros (new & E & H). exists new. split; [done|]. eapply Forall_impl; [exact H|]. intros d. apply sound_others. Qed.

Lemma wp_onR_store n f (Q : result unit -> nat -> world * registry -> Prop) w r :
  Q (Ok tt) n (w, f r) -> (forall n', Q (Err AsyncInterrupt) n' (w, r)) -> wp n (onR (store f)) Q (w, r).
Proof. intros Hok Herr. apply wp_zoom, wp_store; [done|]. intros n' _. apply Herr. Qed.

(** A transaction inside a critical section. *)
Lemma wp_onS_triple {A} n c (m : M world A) (R : result A -> files -> Prop) (Q : result A -> nat -> world * registry -> Prop) w r :
  triple (sound conv euid (c :: others)) anything (disk w) m R -> sound conv euid (c :: others) (disk w) ->
  (forall res n' w', R res (disk w') -> sound conv euid (c :: others) (disk w') -> grown (sound conv euid others) w w' -> Q res n' (w', r)) ->
  wp n (onS m) Q (w, r).
Proof.
  intros Hm Hs HQ. wp_step. eapply wp_mono; [apply Hm; [done|done| |done]|].
  - apply Forall_forall. by intros [[]|] _.
  - intros res n' w' _ (HR & Hs' & Hg & _). apply HQ; [done|done|by eapply grown_others].
Qed.

Lemma kept_refl dev w r : registry_ok getpid r -> sound conv euid (me dev r :: others) (disk w) -> kept dev w r w r.
Proof. intros. split; [done|done|apply grown_refl|done]. Qed.

Ltac keeps := by (intros x; repeat split).

Lemma flag_kept i dev a w r w' r' f : active i dev a r r' -> sound conv euid (me dev r' :: others) (disk w') -> grown (sound conv euid others) w w' ->
  keeps_identity f -> reserved_bytes (f a) = reserved_bytes a -> reserved_inodes (f a) = reserved_inodes a ->
  kept dev w r w' (change i f r') /\ authority dev (change i f r') = authority dev r'.
Proof.
  intros Hact Hs Hg Hf Hb Hn. destruct (active_flag _ _ _ _ _ f Hact) as [Hact' E]; [done..|]. split; [|done].
  eapply active_kept; [exact Hact'| |done]. unfold me. by rewrite E.
Qed.

Lemma reconcile_phase n i a enabled w r : registry_ok getpid r -> objects r !! i = Some a -> sound conv euid (me (device a) r :: others) (disk w) ->
  wp n (_reconcile_account_locked conv euid getpid start process_alive now has_fcntl switch i enabled)
    (fun _ _ p => kept (device a) w r (fst p) (snd p) /\ authority (device a) (snd p) = authority (device a) r) (w, r).
Proof.
  intros Hok Ho Hs. assert (Hsame : kept (device a) w r w r /\ authority (device a) r = authority (device a) r) by (split; [by apply kept_refl|done]).
  unfold _reconcile_account_locked. wp_step. wp_step. wp_step; [|done]. wp_step. apply wp_zoom. cbn [snd fst]. unfold _authenticate_account_registry_unlocked.
  wp_step. wp_step. destruct (authoritative i r) eqn:Hv; [|by wp_step]. wp_step. wp_step. wp_step. cbn [snd fst]. rewrite Ho. wp_step. wp_step.
  pose proof (active_refl i a r Hok Hv Ho) as Hact. destruct (authority_nonneg getpid (device a) r Hok) as [Hb Hn].
  wp_step. wp_step. wp_step. eapply wp_onS_triple; [by apply reconcile_raw_spec|done|]. intros [v|e] n' w' _ Hs' Hg.
  - wp_step. apply wp_onR_store; cbn [fst snd]; [|intros n1; split; [by eapply active_kept|done]]. eapply flag_kept; [done..|keeps|done|done].
  - wp_step. apply wp_onR_store; cbn [fst snd]; [|intros n1; split; [by eapply active_kept|done]]. wp_step. eapply flag_kept; [done..|keeps|done|done].
Qed.

(** What the process holds grew within a capacity, if it grew. *)
Definition bounded (dev cap : Z) (inode_cap : option Z) (r r' : registry) : Prop :=
  no_more dev r r' \/ total claim_bytes (me dev r' :: others) <= cap /\ forall c, inode_cap = Some c -> total claim_inodes (me dev r' :: others) <= c.

Lemma cut_kept {A} k i dev a cap inode_cap e w r w' r' : active i dev a r r' -> sound conv euid (me dev r' :: others) (disk w') ->
  grown (sound conv euid others) w w' -> bounded dev cap inode_cap r r' ->
  wp k (onR (store (change i (with_pending true)));; raise e) (fun (_ : result A) _ p => kept dev w r (fst p) (snd p) /\ bounded dev cap inode_cap r (snd p)) (w', r').
Proof.
  intros Ha Hs Hg Hlim. wp_step. apply wp_onR_store; [|intros _; split; [by eapply active_kept|done]]. wp_step.
  destruct (flag_kept _ _ _ _ _ _ _ (with_pending true) Ha Hs Hg) as [Hk E]; [keeps|done|done|]. split; [done|]. cbn [snd]. unfold bounded, no_more, me. by rewrite E.
Qed.

(** Any part of what was granted may be taken. *)
Lemma granted_part dev r r' size count cap inode_cap d : granted (fst (authority dev r)) (snd (authority dev r)) size count cap inode_cap d ->
  fst (authority dev r') <= fst (authority dev r) + size -> snd (authority dev r') <= snd (authority dev r) + count ->
  sound conv euid (me dev r' :: others) d /\ bounded dev cap inode_cap r r'.
Proof.
  intros [Hs Hlim] Hb Hn. split; [by eapply sound_less|]. unfold bounded, no_more. destruct (decide (0 < size \/ 0 < count)) as [Hp|]; [right|left; lia].
  destruct (Hlim Hp) as [Tb Ti]. unfold total, me in *. cbn [foldr claim_bytes claim_inodes] in *. split; [lia|]. intros c Hc. specialize (Ti c Hc). lia.
Qed.

Lemma grow_phase n i a size cap count inode_cap enabled w r : coordinated has_fcntl switch enabled = true ->
  registry_ok getpid r -> objects r !! i = Some a -> sound conv euid (me (device a) r :: others) (disk w) ->
  wp n (grow_account conv euid getpid start process_alive now has_fcntl switch i size cap count inode_cap enabled)
    (fun _ _ p => kept (device a) w r (fst p) (snd p) /\ bounded (device a) cap inode_cap r (snd p)) (w, r).
Proof.
  intros Hco Hok Ho Hs. assert (Hsame : bounded (device a) cap inode_cap r r) by (left; done). pose proof (kept_refl _ _ _ Hok Hs).
  unfold grow_account. wp_step. wp_step. cbn [snd]. rewrite Ho. wp_step. apply wp_zoom. cbn [snd fst]. unfold _authenticate_account_registry_unlocked.
  wp_step. wp_step. destruct (authoritative i r) eqn:Hv; [|by wp_step]. wp_step.
  pose proof (active_refl i a r Hok Hv Ho) as Hact. destruct (active_nonneg _ _ _ _ _ Hact) as [Hab Han].
  wp_step. wp_step. eapply wp_onS_triple; [by apply reserve_raw_spec|done|]. intros [v|e] n1 w1 HR Hs1 Hg1; [|by eapply cut_kept].
  destruct HR as (Hsz & Hct & Hgr). wp_step. apply wp_onR_store; [|intros n2; by eapply cut_kept].
  destruct (active_change _ _ _ _ _ (with_bytes (reserved_bytes a + size)) Hact) as [Hact1 E1]; [keeps|cbn; lia|done|].
  set (r1 := change i _ r) in *. cbn [with_bytes reserved_bytes reserved_inodes] in E1.
  destruct (granted_part (device a) r r1 size count cap inode_cap (disk w1) Hgr) as [Hs2 Hl2]; [rewrite E1; cbn; lia..|].
  wp_step. apply wp_onR_store; [|intros n2; by eapply cut_kept].
  destruct (active_change _ _ _ _ _ (with_inodes (reserved_inodes a + count)) Hact1) as [Hact2 E2]; [keeps|cbn; lia..|].
  set (r2 := change i _ r1) in *. cbn [with_bytes with_inodes reserved_bytes reserved_inodes] in E2. rewrite E1 in E2. cbn [fst snd] in E2.
  destruct (granted_part (device a) r r2 size count cap inode_cap (disk w1) Hgr) as [Hs3 Hl3]; [rewrite E2; cbn; lia..|].
  wp_step. wp_step; [|by eapply cut_kept]. wp_step. split; [by eapply active_kept|done].
Qed.

(** Giving up part of what the process holds keeps the document sound. *)
Lemma lowered_kept i dev b size k w r r' : 0 <= size -> 0 <= k -> sound conv euid (me dev r :: others) (disk w) -> active i dev b r r' ->
  authority dev r' = (fst (authority dev r) - size, snd (authority dev r) - k) -> kept dev w r w r' /\ no_more dev r r'.
Proof.
  intros Hsz Hk Hs Hb E. unfold no_more. rewrite E. cbn [fst snd]. split; [|lia]. eapply active_kept; [exact Hb| |apply grown_refl]. unfold me. rewrite E.
  eapply sound_less; [exact Hs|cbn; lia..].
Qed.

Lemma shrink_phase n i a size count enabled w r : 0 <= size -> 0 <= count ->
  registry_ok getpid r -> objects r !! i = Some a -> sound conv euid (me (device a) r :: others) (disk w) ->
  wp n (shrink_account conv euid getpid start process_alive now has_fcntl switch i size count enabled)
    (fun _ _ p => kept (device a) w r (fst p) (snd p) /\ no_more (device a) r (snd p)) (w, r).
Proof.
  intros Hsz Hct Hok Ho Hs. assert (Hsame : no_more (device a) r r) by (split; lia). pose proof (kept_refl _ _ _ Hok Hs).
  unfold shrink_account. wp_step. wp_step. cbn [snd]. rewrite Ho. destruct (_ || _) eqn:Hlt; [by wp_step|]. apply orb_false_iff in Hlt as [Hlb%Z.ltb_ge Hln%Z.ltb_ge].
  wp_step. apply wp_zoom. cbn [snd fst]. unfold _authenticate_account_registry_unlocked. wp_step. wp_step. destruct (authoritative i r) eqn:Hv; [|by wp_step]. wp_step.
  pose proof (active_refl i a r Hok Hv Ho) as Hact. wp_step. apply wp_onR_store; [|intros n2; by split].
  destruct (active_change _ _ _ _ _ (with_bytes (reserved_bytes a - size)) Hact) as [Hact1 E1]; [keeps|cbn; lia|by apply (active_nonneg _ _ _ _ _ Hact)|].
  set (r1 := change i _ r) in *. cbn [with_bytes reserved_bytes reserved_inodes] in E1.
  wp_step. apply wp_onR_store; [|intros n2; apply (lowered_kept i _ _ size 0 _ _ _ Hsz (Z.le_refl 0) Hs Hact1); rewrite E1; f_equal; lia].
  destruct (active_change _ _ _ _ _ (with_inodes (reserved_inodes a - count)) Hact1) as [Hact2 E2]; [keeps|cbn; lia..|].
  set (r2 := change i _ r1) in *. cbn [with_bytes with_inodes reserved_bytes reserved_inodes] in E2. rewrite E1 in E2. cbn [fst snd] in E2.
  assert (E2' : authority (device a) r2 = (fst (authority (device a) r) - size, snd (authority (device a) r) - count)) by (rewrite E2; f_equal; lia).
  wp_step. apply wp_onR_store; [|intros n2; by apply (lowered_kept i _ _ size count _ _ _ Hsz Hct Hs Hact2)].
  destruct (active_flag _ _ _ _ _ (with_pending true) Hact2) as [Hact3 E3]; [keeps|done|done|]. set (r3 := change i _ r2) in *. rewrite E2' in E3.
  destruct (lowered_kept i _ _ size count _ _ _ Hsz Hct Hs Hact3 E3) as [Hk3 Hno3]. pose proof (kp_sound _ _ _ _ _ Hk3) as Hs3.
  assert (Hme : me (device a) r3 = own (fst (authority (device a) r) - size) (snd (authority (device a) r) - count)) by (unfold me; by rewrite E3). rewrite Hme in Hs3.
  assert (Hend : forall f w1, sound conv euid (me (device a) r3 :: others) (disk w1) -> grown (sound conv euid others) w w1 -> keeps_identity f ->
    reserved_bytes (f (with_pending true (with_inodes (reserved_inodes a - count) (with_bytes (reserved_bytes a - size) a)))) = reserved_bytes a - size ->
    reserved_inodes (f (with_pending true (with_inodes (reserved_inodes a - count) (with_bytes (reserved_bytes a - size) a)))) = reserved_inodes a - count ->
    kept (device a) w r w1 (change i f r3) /\ no_more (device a) r (change i f r3)).
  { intros f w1 Hs4 Hg Hf Fb Fn. destruct (flag_kept _ _ _ _ _ _ _ f Hact3 Hs4 Hg) as [Hk E]; [done..|]. split; [done|]. unfold no_more. by rewrite E. }
  wp_step. wp_step. eapply wp_onS_triple; [apply release_raw_spec; [done|done|exact Hs]|done|]. rewrite <- Hme. intros [v|e] n1 w1 _ Hs4 Hg4.
  - wp_step. apply wp_onR_store; [|intros n2; split; [by eapply active_kept|done]]. wp_step. by apply Hend; [..|keeps| |].
  - wp_step. apply wp_onR_store; [|intros n2; split; [by eapply active_kept|done]]. wp_step. by apply Hend; [..|keeps| |].
Qed.
End Calls.

(** ** The processes of a host

    One coordination document per device, and the live processes with their
    registries.  [_ACCOUNT_LOCK] and the lock on the document make the critical
    sections of an operation the units of interleaving: the reconciliation that an
    operation starts with, the growth or the shrinking that follows it, and the
    retirement of an account.  A critical section may meet asynchronous exceptions
    and faults of its system calls at any points, and its process may be killed at
    any state its disk passes through. *)

Record process : Type := mk_live { process_pid : Z; process_start : text; process_registry : registry }.

Record host : Type := mk_host { documents : Z -> files; processes : list process }.

Inductive section : Type :=
| Reconcile (enabled : option bool)
| Grow (size_bytes capacity_bytes inode_count : Z) (inode_capacity : option Z) (enabled : option bool)
| Shrink (size_bytes inode_count : Z) (enabled : option bool).

(** What a process finds when it enters a critical section. *)
Record surroundings : Type := mk_surroundings { probe : Z -> text -> bool; clock : text; fcntl_imported : bool; environment : option text }.

Definition claim_of (dev : Z) (p : process) : claim := me (process_pid p) (process_start p) dev (process_registry p).

Definition claims (dev : Z) (h : host) : list claim := claim_of dev <$> processes h.

Section Host.
Variables (conv : conversions) (euid : Z) (capacity : Z -> Z) (inode_limit : Z -> option Z).

Definition critical (s : surroundings) (p : process) (i : nat) (c : section) : M (world * registry) unit :=
  match c with
  | Reconcile enabled => _reconcile_account_locked conv euid (process_pid p) (process_start p) (probe s) (clock s) (fcntl_imported s) (environment s) i enabled
  | Grow size cap count inode_cap enabled =>
    grow_account conv euid (process_pid p) (process_start p) (probe s) (clock s) (fcntl_imported s) (environment s) i size cap count inode_cap enabled;; ret tt
  | Shrink size count enabled =>
    shrink_account conv euid (process_pid p) (process_start p) (probe s) (clock s) (fcntl_imported s) (environment s) i size count enabled;; ret tt
  end.

(** The probe reports the live processes, reservations are coordinated and ask for
    no more than the capacity of the device, and requests are not negative. *)
Record admissible (h : host) (dev : Z) (s : surroundings) (c : section) : Prop := {
  ad_probe : Forall (fun q => probe s (process_pid q) (process_start q) = true) (processes h);
  ad_clock : float_literal (clock s) = true;
  ad_request : match c with
    | Reconcile _ => True
    | Grow _ cap _ inode_cap enabled =>
      coordinated (fcntl_imported s) (environment s) enabled = true /\ cap <= capacity dev
      /\ forall l, inode_limit dev = Some l -> exists c, inode_cap = Some c /\ c <= l
    | Shrink size count _ => 0 <= size /\ 0 <= count
    end;
}.

Definition put_document (dev : Z) (d : files) (docs : Z -> files) (dev' : Z) : files := if dev' =? dev then d else docs dev'.

Definition with_registry (r : registry) (p : process) : process := mk_live (process_pid p) (process_start p) r.

Inductive step : host -> host -> Prop :=
| step_section docs l1 p l2 i a c s faults k res k' w r :
    objects (process_registry p) !! i = Some a -> admissible (mk_host docs (l1 ++ p :: l2)) (device a) s c ->
    critical s p i c k (start_world (docs (device a)) faults, process_registry p) = (res, k', (w, r)) ->
    step (mk_host docs (l1 ++ p :: l2)) (mk_host (put_document (device a) (disk w) docs) (l1 ++ with_registry r p :: l2))
| step_killed docs l1 p l2 i a c s faults k res k' w r d :
    objects (process_registry p) !! i = Some a -> admissible (mk_host docs (l1 ++ p :: l2)) (device a) s c ->
    critical s p i c k (start_world (docs (device a)) faults, process_registry p) = (res, k', (w, r)) -> d ∈ trace w ->
    step (mk_host docs (l1 ++ p :: l2)) (mk_host (put_document (device a) d docs) (l1 ++ l2))
| step_open docs l1 p l2 dev k res k' r :
    open_cross_process_storage_account (process_pid p) dev k (process_registry p) = (res, k', r) ->
    step (mk_host docs (l1 ++ p :: l2)) (mk_host docs (l1 ++ with_registry r p :: l2))
| step_retire docs l1 p l2 i k res k' r :
    retire_account i k (process_registry p) = (res, k', r) ->
    step (mk_host docs (l1 ++ p :: l2)) (mk_host docs (l1 ++ with_registry r p :: l2))
| step_exit docs l1 p l2 : step (mk_host docs (l1 ++ p :: l2)) (mk_host docs (l1 ++ l2))
| step_spawn docs l pid start : 0 < pid -> Forall (fun q => process_pid q <> pid \/ process_start q <> start) l ->
    step (mk_host docs l) (mk_host docs (mk_live pid start new_registry :: l)).

(** No process lives, and every document recovers to records. *)
Definition initial (h : host) : Prop := processes h = [] /\ forall dev, sound conv euid [] (documents h dev).

(** What the live processes hold on a device is recorded in its document and fits
    the capacity of the device. *)
Record host_ok (h : host) : Prop := {
  ho_pids : Forall (fun p => 0 < process_pid p) (processes h);
  ho_keys : NoDup ((fun p => owner_key (process_pid p) (process_start p)) <$> processes h);
  ho_registries : Forall (fun p => registry_ok (process_pid p) (process_registry p)) (processes h);
  ho_sound : forall dev, sound conv euid (claims dev h) (documents h dev);
  ho_bytes : forall dev, total claim_bytes (claims dev h) <= capacity dev;
  ho_inodes : forall dev l, inode_limit dev = Some l -> total claim_inodes (claims dev h) <= l;
}.

Lemma sound_perm l l' d : l ≡ₚ l' -> sound conv euid l d -> sound conv euid l' d.
Proof. intros Hp Hs. eapply sound_weaken; [exact Hs|]. intros c Hc. exists c. rewrite Hp. split; [done|]. split_and!; done || lia. Qed.

Lemma claims_total_perm g l l' : l ≡ₚ l' -> total g l = total g l'.
Proof. intros Hp. unfold total. apply (foldr_permutation_proper eq); [solve_proper|intros; lia|done]. Qed.

Lemma host_ok_perm docs l l' : l ≡ₚ l' -> host_ok (mk_host docs l) -> host_ok (mk_host docs l').
Proof.
  intros Hp [H1 H2 H3 H4 H5 H6]. unfold claims in *. cbn [processes documents] in *.
  assert (Hc : forall dev, claim_of dev <$> l ≡ₚ claim_of dev <$> l') by (intros dev; by rewrite Hp).
  split; unfold claims; cbn [processes documents]; [by rewrite <- Hp..| | |].
  - intros dev. exact (sound_perm _ _ _ (Hc dev) (H4 dev)).
  - intros dev. by rewrite <- (claims_total_perm _ _ _ (Hc dev)).
  - intros dev lim E. rewrite <- (claims_total_perm _ _ _ (Hc dev)). by apply H6.
Qed.

Lemma host_ok_tail docs p l : host_ok (mk_host docs (p :: l)) -> host_ok (mk_host docs l).
Proof.
  intros [H1 H2 H3 H4 H5 H6]. unfold claims in *. cbn [processes documents] in *. rewrite !fmap_cons in *.
  apply Forall_cons in H1 as [_ H1], H3 as [Hr H3]. apply NoDup_cons in H2 as [_ H2]. assert (forall dev, 0 <= fst (_device_authority_unlocked (process_pid p) dev (process_registry p)) /\ 0 <= snd (_device_authority_unlocked (process_pid p) dev (process_registry p))) as Ha by (intros dev; by apply authority_nonneg).
  split; unfold claims; cbn [processes documents]; [done..| | |].
  - intros dev. exact (sound_others conv euid _ _ _ (H4 dev)).
  - intros dev. specialize (H5 dev). rewrite fmap_cons in H5. unfold total in *. cbn [foldr] in H5. specialize (Ha dev). unfold claim_of at 1, me in H5. cbn [claim_bytes] in H5. lia.
  - intros dev lim E. specialize (H6 dev lim E). rewrite fmap_cons in H6. unfold total in *. cbn [foldr] in H6. specialize (Ha dev). unfold claim_of at 1, me in H6. cbn [claim_inodes] in H6. lia.
Qed.

Lemma critical_kept docs p l i a c s faults n : host_ok (mk_host docs (p :: l)) -> objects (process_registry p) !! i = Some a ->
  admissible (mk_host docs (p :: l)) (device a) s c ->
  wp n (critical s p i c) (fun _ _ x =>
    kept conv euid (process_pid p) (process_start p) (claim_of (device a) <$> l) (device a) (start_world (docs (device a)) faults) (process_registry p) (fst x) (snd x)
    /\ bounded (process_pid p) (process_start p) (claim_of (device a) <$> l) (device a) (capacity (device a)) (inode_limit (device a)) (process_registry p) (snd x))
  (start_world (docs (device a)) faults, process_registry p).
Proof.
  intros [H1 H2 H3 H4 _ _] Ho [Hp Hc Hreq]. cbn [processes documents] in *. apply Forall_cons in H1 as [Hpid H1], H3 as [Hreg H3], Hp as [Hself Hp].
  pose proof (H4 (device a)) as Hs. unfold claims in Hs. cbn [processes] in Hs. rewrite fmap_cons in Hs.
  assert (Hlive : Forall (lives (probe s)) (claim_of (device a) <$> l)).
  { apply Forall_fmap, Forall_forall. intros q Hq. rewrite Forall_forall in H1, Hp. split; [by apply H1|by apply Hp]. }
  assert (Hkeys : NoDup (claim_key <$> (mk_claim (process_pid p) (process_start p) 0 0 :: (claim_of (device a) <$> l)))).
  { rewrite fmap_cons, <- list_fmap_compose. exact H2. }
  destruct c as [enabled|size cap count inode_cap enabled|size count enabled]; cbn [critical].
  - eapply wp_mono; [by apply reconcile_phase|]. intros r n' x _ [Hk E]. split; [done|]. left. unfold no_more. rewrite E. lia.
  - destruct Hreq as (Hco & Hcap & Hlim). wp_step. eapply wp_mono; [by apply grow_phase|]. intros [v|e] n' x _ [Hk Hb]; [wp_step|]; (split; [done|]).
    + destruct Hb as [Hb|[Tb Ti]]; [by left|right; split; [lia|]]. intros lim Hlim'. destruct (Hlim lim Hlim') as (c & -> & Hc'). specialize (Ti c eq_refl). lia.
    + destruct Hb as [Hb|[Tb Ti]]; [by left|right; split; [lia|]]. intros lim Hlim'. destruct (Hlim lim Hlim') as (c & -> & Hc'). specialize (Ti c eq_refl). lia.
  - destruct Hreq as [Hsz Hct]. wp_step. eapply wp_mono; [by apply shrink_phase|]. intros [v|e] n' x _ [Hk Hb]; [wp_step|]; (split; [done|by left]).
Qed.

(** The host after one of its processes has changed its registry and one document. *)
Lemma host_ok_change docs p l dev d r : host_ok (mk_host docs (p :: l)) -> registry_ok (process_pid p) r ->
  sound conv euid (claim_of dev (with_registry r p) :: (claim_of dev <$> l)) d ->
  (forall dev', dev' <> dev -> claim_of dev' (with_registry r p) = claim_of dev' p) ->
  bounded (process_pid p) (process_start p) (claim_of dev <$> l) dev (capacity dev) (inode_limit dev) (process_registry p) r ->
  host_ok (mk_host (put_document dev d docs) (with_registry r p :: l)).
Proof.
  intros [H1 H2 H3 H4 H5 H6] Hreg Hs Hoth Hb. unfold claims in *. cbn [processes documents] in *. apply Forall_cons in H3 as [_ H3].
  assert (Hcl : forall dev', dev' <> dev -> claim_of dev' <$> with_registry r p :: l = claim_of dev' <$> p :: l) by (intros dev' Hne; rewrite !fmap_cons; by rewrite Hoth).
  split; unfold claims; cbn [processes documents]; [by apply Forall_cons in H1 as [? ?]; constructor|done|by constructor| | |].
  - intros dev'. unfold put_document. destruct (Z.eqb_spec dev' dev) as [->|Hne]; [done|]. rewrite Hcl by done. apply H4.
  - intros dev'. destruct (decide (dev' = dev)) as [->|Hne]; [|rewrite Hcl by done; apply H5]. destruct Hb as [[Hb _]|[Hb _]]; [|exact Hb].
    specialize (H5 dev). rewrite fmap_cons in *. unfold total in *. cbn [foldr] in *. unfold claim_of at 1 in H5. unfold claim_of at 1. unfold me in *.
    cbn [claim_bytes with_registry process_registry process_pid] in *. lia.
  - intros dev' lim El. destruct (decide (dev' = dev)) as [->|Hne]; [|rewrite Hcl by done; by apply H6]. destruct Hb as [[_ Hb]|[_ Hb]]; [|by apply Hb].
    specialize (H6 dev lim El). rewrite fmap_cons in *. unfold total in *. cbn [foldr] in *. unfold claim_of at 1 in H6. unfold claim_of at 1. unfold me in *.
    cbn [claim_inodes with_registry process_registry process_pid] in *. lia.
Qed.

Lemma host_ok_document docs l dev d : host_ok (mk_host docs l) -> sound conv euid (claim_of dev <$> l) d -> host_ok (mk_host (put_document dev d docs) l).
Proof.
  intros [H1 H2 H3 H4 H5 H6] Hs. split; unfold claims in *; cbn [processes documents] in *; [done..| |done|done].
  intros dev'. unfold put_document. destruct (Z.eqb_spec dev' dev) as [->|]; [done|apply H4].
Qed.

Lemma host_ok_local docs p l r : host_ok (mk_host docs (p :: l)) -> unmoved (process_pid p) (process_registry p) r -> host_ok (mk_host docs (with_registry r p :: l)).
Proof.
  intros [H1 H2 H3 H4 H5 H6] [Hreg E]. unfold claims in *. cbn [processes documents] in *. apply Forall_cons in H3 as [_ H3].
  assert (Hcl : forall dev, claim_of dev <$> with_registry r p :: l = claim_of dev <$> p :: l).
  { intros dev. rewrite !fmap_cons. f_equal. unfold claim_of, me. cbn [with_registry process_pid process_start process_registry]. by rewrite E. }
  split; unfold claims; cbn [processes documents]; [by apply Forall_cons in H1 as [? ?]; constructor|done|by constructor|intros dev; rewrite Hcl; auto..].
Qed.

(** A process that starts holds nothing. *)
Lemma host_ok_spawn docs l pid start : 0 < pid -> Forall (fun q => process_pid q <> pid \/ process_start q <> start) l ->
  host_ok (mk_host docs l) -> host_ok (mk_host docs (mk_live pid start new_registry :: l)).
Proof.
  intros Hpid Hd [H1 H2 H3 H4 H5 H6]. unfold claims in *. cbn [processes documents] in *. rewrite Forall_forall in Hd, H1.
  split; unfold claims; cbn [processes documents]; [constructor; [done|by apply Forall_forall]|..].
  - rewrite fmap_cons. apply NoDup_cons. split; [|done]. intros (q & E & Hq)%list_elem_of_fmap. cbn [process_pid process_start] in E.
    apply owner_key_inj in E as [-> ->]; [|done|by apply H1]. by destruct (Hd q Hq).
  - constructor; [|done]. split; cbn; [apply NoDup_nil_2..|constructor].
  - intros dev a. destruct (H4 dev a) as (x & D & Hx & HxD & HD & Hm). exists x, D. split; [done|split; [done|split; [done|]]]. rewrite fmap_cons. constructor; [|done].
    intros _. split; apply held_nonneg.
  - intros dev. apply H5.
  - intros dev. apply H6.
Qed.

Lemma step_ok h h' : host_ok h -> step h h' -> host_ok h'.
Proof.
  assert (Hfront : forall (p : process) l1 l2, l1 ++ p :: l2 ≡ₚ p :: l1 ++ l2) by (intros; symmetry; apply Permutation_middle).
  assert (Had : forall docs p l1 l2 dev s c, admissible (mk_host docs (l1 ++ p :: l2)) dev s c -> admissible (mk_host docs (p :: l1 ++ l2)) dev s c).
  { intros docs p l1 l2 dev s c [Hp ? ?]. split; [|done..]. cbn [processes] in *. by rewrite <- Hfront. }
  intros Hok Hstep. destruct Hstep as [docs l1 p l2 i a c s faults k res k' w r Ho Hadm Hrun|docs l1 p l2 i a c s faults k res k' w r d Ho Hadm Hrun Hd
    |docs l1 p l2 dev k res k' r Hrun|docs l1 p l2 i k res k' r Hrun|docs l1 p l2|docs l pid start Hpid Hd].
  6: by apply host_ok_spawn.
  all: pose proof (host_ok_perm _ _ _ (Hfront p l1 l2) Hok) as Hok'.
  - apply (host_ok_perm _ (with_registry r p :: l1 ++ l2)); [by rewrite Hfront|].
    destruct (wp_elim _ _ _ _ _ _ _ _ (critical_kept docs p (l1 ++ l2) i a c s faults _ Hok' Ho (Had _ _ _ _ _ _ _ Hadm)) (Nat.le_refl _) Hrun) as (_ & _ & [Hreg Hs _ Hoth] & Hb).
    apply host_ok_change; [done|done|done| |done]. intros dev' Hne. unfold claim_of, me. cbn [with_registry process_pid process_start process_registry]. cbn [snd] in Hoth. by rewrite Hoth.
  - destruct (wp_elim _ _ _ _ _ _ _ _ (critical_kept docs p (l1 ++ l2) i a c s faults _ Hok' Ho (Had _ _ _ _ _ _ _ Hadm)) (Nat.le_refl _) Hrun) as (_ & _ & [_ _ (new & Et & Hnew) _] & _).
    apply host_ok_tail in Hok' as Hok2. apply host_ok_document; [done|]. cbn [fst] in Et. rewrite Et in Hd. apply elem_of_app in Hd as [Hd|Hd]; [rewrite Forall_forall in Hnew; auto|].
    apply list_elem_of_singleton in Hd as ->. apply (ho_sound _ Hok2).
  - apply (host_ok_perm _ (with_registry r p :: l1 ++ l2)); [by rewrite Hfront|]. apply host_ok_local; [done|].
    pose proof (ho_registries _ Hok') as [Hreg _]%Forall_cons. by destruct (wp_elim _ _ _ _ _ _ _ _ (open_phase _ _ dev _ Hreg) (Nat.le_refl _) Hrun) as (_ & _ & ?).
  - apply (host_ok_perm _ (with_registry r p :: l1 ++ l2)); [by rewrite Hfront|]. apply host_ok_local; [done|].
    pose proof (ho_registries _ Hok') as [Hreg _]%Forall_cons. by destruct (wp_elim _ _ _ _ _ _ _ _ (retire_phase _ _ i _ Hreg) (Nat.le_refl _) Hrun) as (_ & _ & ?).
  - by eapply host_ok_tail.
Qed.

End Host.

(** ** Operations that meet no fault *)

Section Exact.
Variables (conv : conversions) (euid getpid : Z) (start : text) (process_alive : Z -> text -> bool) (now : text) (has_fcntl : bool) (switch : option text).
Hypothesis getpid_range : 0 < getpid < 10 ^ 20.
Hypothesis self_alive : process_alive getpid start = true.
Hypothesis now_float : float_literal now = true.

#[local] Abbreviation self := (owner_key getpid start).

(** Recovery finds these records on the disk. *)
Record at_rest (D : dict) (x : text) (d : files) : Prop := {
  ar_recovers : recovers_to conv euid _MAX_STATE_BYTES process_alive d x;
  ar_temporary : temporary d = None;
  ar_decodes : _decode_state x = Ok D;
  ar_ok : doc_ok D;
}.

(** What a transaction does, given what its body does. *)
Definition outcome {A} (D : dict) (b : result (A * dict)) (r : result A) (d : files) : Prop :=
  match b with
  | Ok (v, D2) => if _MAX_STATE_BYTES <? len (_encode_state D2) then r = Err OSError /\ settled_on conv euid D d else r = Ok v /\ settled_on conv euid D2 d
  | Err e => r = Err e /\ settled_on conv euid D d
  end.

Lemma settled_plain D x : _decode_state x = Ok D -> doc_ok D -> settled_on conv euid D (mk_files x None None).
Proof.
  intros Hx HD a. exists x, D. split; [|done]. apply recovers_iff. cbn [journal main]. split; [done|].
  apply take_ge. pose proof (decode_short x D Hx) as Hl. unfold len in Hl. lia.
Qed.

Lemma settled_same D D2 d : same_records D D2 -> settled_on conv euid D d -> settled_on conv euid D2 d.
Proof.
  intros Hsame Hs a. destruct (Hs a) as (x & D' & ? & ? & ? & Hh). exists x, D'. split; [done|split; [done|split; [done|]]]. intros f k. by rewrite Hh, Hsame.
Qed.

Lemma transact_exact {A} (body : dict -> result (A * dict)) D x d : at_rest D x d -> (forall v D2, body D = Ok (v, D2) -> doc_ok D2) ->
  triple any_disk no_exn d (transact conv euid getpid start process_alive body) (outcome D (body D)).
Proof.
  intros [Hx Ht HxD HD] Hbody. pose proof (settled_plain D x HxD HD) as Hplain. unfold transact. t_step.
  eapply t_mono; [apply journal_recover_spec|]. intros r d' Hr.
  assert (r = Ok x /\ d' = mk_files x None None) as [-> ->].
  { apply recovers_iff in Hx. unfold recovered in Hr. destruct d as [m j t]. cbn [journal main temporary] in *. subst t. destruct j as [i|].
    - destruct Hx as (rec & Ej & <-). rewrite Ej in Hr. by injection Hr as -> ->.
    - destruct Hx as [-> Hx]. rewrite Hx in Hr. by injection Hr as -> ->. }
  t_step. t_step. rewrite HxD. t_step. t_step; [|done]. t_step. t_step. unfold outcome. destruct (body D) as [[v D2]|e] eqn:Hb; [|done]. cbn [fst snd].
  pose proof (Hbody v D2 eq_refl) as HD2. destruct (Z.ltb_spec _MAX_STATE_BYTES (len (_encode_state D2))) as [|Hlen]; [by t_step|].
  pose proof (settled_plain _ _ (decode_encode_state D2 HD2 Hlen) (doc_ok_sorted D2 HD2)) as Hnew.
  apply (settled_same _ D2) in Hnew; [|intros f k; symmetry; by apply held_sorted]. t_step. t_step.
  - destruct (decide (x = _encode_state D2)) as [Heq|Hne].
    + unfold commit_locked_payload. rewrite bool_decide_eq_true_2 by done. t_step. t_step. rewrite Heq. done.
    + eapply t_mono; [apply (commit_exact euid _MAX_STATE_BYTES getpid start x (_encode_state D2) false None); [done|done|by eapply decode_short|done|done]|].
      intros r d1 [-> ->]. by t_step.
  - t_step. split; [done|]. apply negb_false_iff, bool_decide_eq_true in H. apply encode_state_inj in H; [|done..].
    eapply settled_same; [|exact Hplain]. intros f k. rewrite <- (held_sorted f D2 k HD2), <- (held_sorted f D k HD). by rewrite H.
Qed.

Lemma locked_state_exact {A} (body : dict -> result (A * dict)) D x d : at_rest D x d -> (forall v D2, body D = Ok (v, D2) -> doc_ok D2) ->
  triple any_disk no_exn d (_locked_state conv euid getpid start process_alive body) (outcome D (body D)).
Proof.
  intros Hr Hbody. unfold _locked_state. t_step. t_step; [done| |done]. unfold with_exit. t_step. t_step. t_step. t_step; [done| |done].
  t_step. t_step. eapply t_mono; [by eapply transact_exact|]. intros [v|e] d' Ho.
  - t_step. t_step. t_step; [done| |done]. t_step. t_step. t_step; [done| |done]. by t_step.
  - t_step. t_step. t_step; [done| |done]. t_step. t_step. t_step; [done| |done]. by t_step.
Qed.

(** The records after a reservation, and whether it fits. *)
Definition reserved_doc (size count : Z) (D D' : dict) : dict :=
  member_set self (own_record getpid start now (held (lit "reserved") D self + size) (held (lit "inodes") D self + count)) D'.

Definition fits (size cap count : Z) (inode_cap : option Z) (D D' : dict) : bool :=
  (sum_of (lit "reserved") D' + size <=? cap) && negb (exceeds inode_cap (sum_of (lit "inodes") D' + count))
  && (bool_decide (is_Some (get D' self)) || (Z.of_nat (length D') <? _MAX_PROCESS_RECORDS))
  && (len (_encode_state (reserved_doc size count D D')) <=? _MAX_STATE_BYTES).

Lemma reserve_outcome size cap count inode_cap D D' r d : doc_ok D -> _clean_processes process_alive D = Ok D' ->
  outcome D (reserve_body getpid start process_alive now size cap count inode_cap D) r d ->
  if fits size cap count inode_cap D D' then r = Ok (sum_of (lit "reserved") D' + size) /\ settled_on conv euid (reserved_doc size count D D') d
  else r = Err OSError /\ settled_on conv euid D d.
Proof.
  intros HD Hc. unfold reserve_body, fits. rewrite Hc. cbn [mbind result_bind]. change (owner getpid start) with self.
  set (cur := default _ _). assert (Hcur : forall f, f = lit "reserved" \/ f = lit "inodes" -> item_int f cur = held f D self).
  { intros f Hf. rewrite <- (clean_self getpid start process_alive (proj1 getpid_range) self_alive f D D' HD Hc Hf). unfold held, cur. destruct (get D' self); [done|]. by destruct Hf as [->| ->]. }
  rewrite !Hcur by auto. fold (reserved_doc size count D D'). rewrite (Z.ltb_antisym _ cap), (Z.leb_antisym _ (len _)), (Z.ltb_antisym _ (Z.of_nat _)).
  destruct (_ <=? cap); cbn [negb andb outcome]; [|done]. destruct (exceeds _ _); cbn [negb andb outcome]; [done|].
  destruct (bool_decide _); cbn [negb andb orb outcome]; [by destruct (_ <? _)|]. destruct (_ <=? _); cbn [negb andb outcome]; [done|by destruct (_ <? _)].
Qed.

Lemma wp_onS_exact {A} (m : M world A) (R : result A -> files -> Prop) (Q : result A -> nat -> world * registry -> Prop) d r :
  triple any_disk no_exn d m R -> (forall res w, R res (disk w) -> Q res 0%nat (w, r)) -> wp 0 (onS m) Q (start_world d [], r).
Proof.
  intros Hm HQ. wp_step. eapply wp0_mono; [eapply wp_mono; [apply Hm; [done|done|constructor|lia]|]|].
  - intros res n' w' _ [HR _]. exact HR.
  - intros res w' HR. by apply HQ.
Qed.

(** The account of an operation passes the checks. *)
Record usable (i : nat) (a : account) (r : registry) : Prop := {
  us_registry : registry_ok getpid r;
  us_object : objects r !! i = Some a;
  us_valid : authoritative i r = true;
  us_token : 0 < account_token a;
}.

Lemma usable_fields i a r : usable i a r -> account_pid a = getpid /\ closed a = false /\ 0 <= reserved_bytes a /\ 0 <= reserved_inodes a.
Proof.
  intros [Hok Ho Hv _]. destruct (authoritative_spec getpid i r Hok Hv) as (a' & l1 & l2 & _ & [Ho' _ ? ? ? ?] & _). cbn [fst snd] in Ho'.
  assert (a' = a) as <- by congruence. done.
Qed.

Lemma check_request_ok i a r size count (Q : result unit -> nat -> registry -> Prop) : usable i a r -> 0 <= size -> 0 <= count -> Q (Ok tt) 0%nat r -> wp 0 (check_request getpid i size count) Q r.
Proof.
  intros Hu Hs Hc HQ. destruct (usable_fields i a r Hu) as (Hp & Hcl & _), Hu as [_ Ho Hv Ht]. unfold check_request. wp_step. wp_step. rewrite Ho, Hp, Z.eqb_refl.
  rewrite !(proj2 (Z.ltb_ge _ _)) by done. cbn [negb orb]. unfold _authenticate_account_locked. wp_step. wp_step. rewrite Ho, Hp, Z.eqb_refl, Hcl, (proj2 (Z.leb_gt _ _)) by done.
  cbn [negb orb]. unfold _authenticate_account_registry_unlocked. wp_step. wp_step. rewrite Hv. by wp_step.
Qed.



(** Closing an account reconciles with the present switch of the environment,
    not with the one its reservations were made with: with the switch off, an empty
    account whose release did not reach the host is closed, its mark is cleared and
    no system call is made, so that the document keeps the released bytes. *)
Theorem close_skips_repair i a w r : coordinated has_fcntl switch None = false -> usable i a r -> reconciliation_pending a = true ->
  reserved_bytes a = 0 -> reserved_inodes a = 0 ->
  exists r', run (close_cross_process_storage_account conv euid getpid start process_alive now has_fcntl switch i) (w, r) = (Ok tt, (w, r'))
    /\ objects r' !! i = Some (with_closed true (with_pending false a)) /\ token_get (account_token a) (accounts r') = None.
Proof.
  intros Hco Hu Hp Hb Hn. pose proof Hu as [Hok Ho Hv _]. set (m := close_cross_process_storage_account _ _ _ _ _ _ _ _ _).
  set (r1 := change i (with_pending false) r). set (r2 := mk_registry (objects r1) (token_pop (account_token a) (accounts r1)) (account_sequence r1)).
  assert (Ho1 : objects r1 !! i = Some (with_pending false a)) by (cbn [r1 change objects]; by rewrite list_lookup_alter_eq, Ho).
  exists (change i (with_closed true) r2). split; [|split].
  - apply run_eq. unfold m, close_cross_process_storage_account. wp_step. apply wp_zoom, (check_request_ok i a); [done..|]. cbn [fst snd]. wp_step. unfold _reconcile_account_locked.
    wp_step. wp_step. cbn [snd]. rewrite Ho, Hp. cbn [whenM]. wp_step. apply wp_zoom. cbn [fst snd]. unfold _authenticate_account_registry_unlocked. wp_step. wp_step. rewrite Hv. wp_step.
    cbn [fst snd]. wp_step. wp_step. wp_step. wp_step. wp_step. wp_step. wp_step. wp_step. unfold _reconcile_cross_process_account_raw. rewrite Hco. cbn [negb]. wp_step. wp_step.
    apply wp_zoom, wp_store; [|lia]. cbn [fst snd]. apply wp_zoom. cbn [fst snd]. fold r1. unfold retire_account. wp_step. wp_step. rewrite Ho1.
    cbn [with_pending reserved_bytes reserved_inodes account_token]. rewrite Hb, Hn. cbn [Z.eqb negb orb]. wp_step. unfold _authenticate_account_registry_unlocked. wp_step. wp_step.
    assert (authoritative i r1 = true) as ->. { unfold authoritative in *. rewrite Ho1. rewrite Ho in Hv. exact Hv. }
    wp_step. wp_step. wp_step. wp_step. done.
  - cbn [change objects]. rewrite list_lookup_alter_eq. cbn [r2 objects]. by rewrite Ho1.
  - cbn [change accounts r2]. unfold token_pop. clear. generalize (accounts r1) as l. induction l as [|[t v] l IH]; [done|]. cbn [List.filter fst].
    destruct (Z.eqb_spec t (account_token a)); cbn [negb]; [done|]. cbn [token_get]. by rewrite (proj2 (Z.eqb_neq _ _)).
Qed.
End Exact.

(** ** Witnesses *)

Module StorageExample.
#[local] Abbreviation conv := CoordinationJournal.Example.conv.

Definition everyone (pid : Z) (start : text) : bool := true.
Definition on : surroundings := mk_surroundings everyone (lit "1.5") true (Some (lit "1")).
Definition first : process := mk_live 10 (lit "boot:1") new_registry.
Definition opened : process := with_registry (snd (run (open_cross_process_storage_account 10 7) new_registry)) first.
Definition blank (dev : Z) : files := mk_files [] None None.
Definition grow : section := Grow 60 100 1 (Some 10) None.
Definition grown_world : world * registry := snd (critical conv 1000 on opened 0 grow [] (start_world (blank 7) [], process_registry opened)).
Definition grown_host : host := mk_host (put_document 7 (disk (fst grown_world)) blank) [with_registry (snd grown_world) opened].

Lemma blank_sound : sound conv 1000 [] (blank 7).
Proof. apply (sound_plain conv 1000 [] [] []); [done|split; constructor|done]. Qed.


Lemma rests D x : _decode_state x = Ok D -> doc_ok D -> at_rest conv 1000 everyone D x (mk_files x None None).
Proof.
  intros Hx HD. split; [|done..]. apply recovers_iff. cbn [journal main]. split; [done|]. apply take_ge. pose proof (decode_short x D Hx) as Hl. unfold len in Hl. lia.
Qed.

(** A registry with one account. *)
Definition sole (bytes inodes : Z) (pending : bool) : registry := mk_registry [mk_account 7 10 bytes inodes false 1 pending 0] [(1, (0%nat, 7))] 1.

Lemma sole_usable bytes inodes pending : 0 <= bytes -> 0 <= inodes -> usable 10 0 (mk_account 7 10 bytes inodes false 1 pending 0) (sole bytes inodes pending).
Proof.
  intros Hb Hn. split; [split|done..|]; cbn; [apply NoDup_singleton..|constructor; [|constructor]|lia]. eexists. split; [reflexivity|done..].
Qed.


(** The record of 60 bytes, of which the accounts hold 20. *)
Definition stale_doc : dict := member_set (owner_key 10 (lit "boot:1")) (own_record 10 (lit "boot:1") (lit "1.5") 60 1) [].

Lemma stale_doc_ok : doc_ok stale_doc.
Proof.
  destruct (own_record_ok 10 (lit "boot:1") (lit "1.5") ltac:(lia) eq_refl 60 1) as (Hx & Hd & Hr & _); [lia..|].
  eapply doc_ok_set; [split; constructor|exact Hx|exact Hd|exact Hr].
Qed.


Lemma close_skips_repair_witness : exists r',
  run (close_cross_process_storage_account conv 1000 10 (lit "boot:1") everyone (lit "1.5") true None 0) (start_world (mk_files (_encode_state stale_doc) None None) [], sole 0 0 true)
    = (Ok tt, (start_world (mk_files (_encode_state stale_doc) None None) [], r')).
Proof.
  destruct (close_skips_repair conv 1000 10 (lit "boot:1") everyone (lit "1.5") true None 0 _ (start_world (mk_files (_encode_state stale_doc) None None) []) _
    eq_refl (sole_usable 0 0 true ltac:(lia) ltac:(lia)) eq_refl eq_refl eq_refl) as (r' & E & _). by exists r'.
Defined.

(** An exception that arrives after the account is raised, before the call returns:
    the caller sees a failure, the account keeps the bytes and the inode. *)
Example interrupted_reservation_keeps_bytes :
  match reserve_cross_process_account conv 1000 10 (lit "boot:1") everyone (lit "1.5") true (Some (lit "1")) 0 60 100 1 (Some 10) None [48%nat] (start_world (blank 7) [], sole 0 0 false) with
  | (res, _, (_, r)) => res = Err AsyncInterrupt /\ reserved_bytes <$> objects r = [60] /\ reserved_inodes <$> objects r = [1]
  end.
Proof. vm_compute. done. Qed.

(** An exception between the stores of the lowered amounts and the mark: the host
    record keeps what the account has given up, and no reconciliation is due. *)
Example interrupted_release_unmarked :
  match release_cross_process_account conv 1000 10 (lit "boot:1") everyone (lit "1.5") true (Some (lit "1")) 0 60 1 None [2%nat] (start_world (mk_files (_encode_state stale_doc) None None) [], sole 60 1 false) with
  | (res, _, (w, r)) => res = Err AsyncInterrupt /\ r = sole 0 0 false /\ disk w = mk_files (_encode_state stale_doc) None None
  end.
Proof. vm_compute. done. Qed.
End StorageExample.
