(* ===== verification/StorageGovernor.v ===== *)
(** * StorageGovernor: temporary storage of one process

    [core_impl/temporary_storage_governor.py].  The governor keeps a state per
    file system and exact capabilities for what has been reserved; where host-wide
    coordination is on, a state also holds an account of the host.  The host is an
    interface, [HostAccounts]; the theorems are proved against its laws.  What the
    operating system answers about the file system, the switch of the environment
    and the outcome of telemetry are arguments.  Locks serialize the operations on
    a device, so that they run one after the other; asynchronous exceptions can
    land at any store.  There is one governor; the fork methods are not modelled. *)

From Stdlib Require Import String.
From S2P Require Import Prelude CoordinationJournal.

#[local] Open Scope Z_scope.

(** ** The accounts of the host *)

(** The operations on the accounts of the host, which are named by numbers, and
    what can be read of them. *)
Class HostAccounts (H : Type) : Type := {
  open_account : Z -> M H nat;
  reserve_account : nat -> Z -> Z -> Z -> Z -> M H Z;
  release_account : nat -> Z -> Z -> M H Z;
  close_account : nat -> M H unit;
  account_bytes : H -> nat -> Z;
  account_inodes : H -> nat -> Z;
  account_pending : H -> nat -> bool;
  account_closed : H -> nat -> bool;
}.

(** ** The governor *)

Definition _MINIMUM_FREE_BYTES : Z := 64 * 1024 * 1024.
Definition _CROSS_PROCESS_SHRINK_QUANTUM_BYTES : Z := 4 * 1024 * 1024.
Definition _CROSS_PROCESS_SHRINK_QUANTUM_INODES : Z := 64.
Definition _MAX_PROCESS_TEMPORARY_STORAGE_CAPABILITIES : Z := 16384.

(** [_FilesystemReservationState]. *)
Record filesystem_state : Type := mk_state {
  capacity_bytes : Z;
  capacity_inodes : Z;
  reserved_bytes : Z;
  peak_reserved_bytes : Z;
  reserved_inodes : Z;
  peak_reserved_inodes : Z;
  cross_reserved_bytes : Z;
  cross_reserved_inodes : Z;
  cross_process_enabled : bool;
  cross_account : option nat;
  users : Z;
  corrupted : bool;
}.

(** [ProcessTemporaryStorageCapability]; objects are named by their index. *)
Record capability : Type := mk_capability {
  token : Z;
  cap_device : Z;
  cap_bytes : Z;
  cap_inodes : Z;
  active : bool;
  inflight : bool;
  pending_replacement : option nat;
  orphaned : bool;
}.

(** The state objects and the capability objects, [_states] and [_capabilities] in
    the order of insertion, [_next_capability], [_protocol_violations] and
    [_orphaned_capability_hint]. *)
Record governor : Type := mk_governor {
  state_objects : list filesystem_state;
  capability_objects : list capability;
  states : list (Z * nat);
  capabilities : list (Z * nat);
  next_capability : Z;
  protocol_violations : Z;
  orphaned_capability_hint : bool;
}.

Definition new_governor : governor := mk_governor [] [] [] [] 1 0 false.

(** *** Attribute stores *)

Definition with_reserved v (s : filesystem_state) : filesystem_state :=
  mk_state (capacity_bytes s) (capacity_inodes s) v (peak_reserved_bytes s) (reserved_inodes s) (peak_reserved_inodes s)
           (cross_reserved_bytes s) (cross_reserved_inodes s) (cross_process_enabled s) (cross_account s) (users s) (corrupted s).
Definition with_peak v (s : filesystem_state) : filesystem_state :=
  mk_state (capacity_bytes s) (capacity_inodes s) (reserved_bytes s) v (reserved_inodes s) (peak_reserved_inodes s)
           (cross_reserved_bytes s) (cross_reserved_inodes s) (cross_process_enabled s) (cross_account s) (users s) (corrupted s).
Definition with_reserved_inodes v (s : filesystem_state) : filesystem_state :=
  mk_state (capacity_bytes s) (capacity_inodes s) (reserved_bytes s) (peak_reserved_bytes s) v (peak_reserved_inodes s)
           (cross_reserved_bytes s) (cross_reserved_inodes s) (cross_process_enabled s) (cross_account s) (users s) (corrupted s).
Definition with_peak_inodes v (s : filesystem_state) : filesystem_state :=
  mk_state (capacity_bytes s) (capacity_inodes s) (reserved_bytes s) (peak_reserved_bytes s) (reserved_inodes s) v
           (cross_reserved_bytes s) (cross_reserved_inodes s) (cross_process_enabled s) (cross_account s) (users s) (corrupted s).
Definition with_cross v (s : filesystem_state) : filesystem_state :=
  mk_state (capacity_bytes s) (capacity_inodes s) (reserved_bytes s) (peak_reserved_bytes s) (reserved_inodes s) (peak_reserved_inodes s)
           v (cross_reserved_inodes s) (cross_process_enabled s) (cross_account s) (users s) (corrupted s).
Definition with_cross_inodes v (s : filesystem_state) : filesystem_state :=
  mk_state (capacity_bytes s) (capacity_inodes s) (reserved_bytes s) (peak_reserved_bytes s) (reserved_inodes s) (peak_reserved_inodes s)
           (cross_reserved_bytes s) v (cross_process_enabled s) (cross_account s) (users s) (corrupted s).
Definition with_users v (s : filesystem_state) : filesystem_state :=
  mk_state (capacity_bytes s) (capacity_inodes s) (reserved_bytes s) (peak_reserved_bytes s) (reserved_inodes s) (peak_reserved_inodes s)
           (cross_reserved_bytes s) (cross_reserved_inodes s) (cross_process_enabled s) (cross_account s) v (corrupted s).
Definition with_corrupted v (s : filesystem_state) : filesystem_state :=
  mk_state (capacity_bytes s) (capacity_inodes s) (reserved_bytes s) (peak_reserved_bytes s) (reserved_inodes s) (peak_reserved_inodes s)
           (cross_reserved_bytes s) (cross_reserved_inodes s) (cross_process_enabled s) (cross_account s) (users s) v.

Definition with_token v (c : capability) : capability :=
  mk_capability v (cap_device c) (cap_bytes c) (cap_inodes c) (active c) (inflight c) (pending_replacement c) (orphaned c).
Definition with_device v (c : capability) : capability :=
  mk_capability (token c) v (cap_bytes c) (cap_inodes c) (active c) (inflight c) (pending_replacement c) (orphaned c).
Definition with_cap_bytes v (c : capability) : capability :=
  mk_capability (token c) (cap_device c) v (cap_inodes c) (active c) (inflight c) (pending_replacement c) (orphaned c).
Definition with_cap_inodes v (c : capability) : capability :=
  mk_capability (token c) (cap_device c) (cap_bytes c) v (active c) (inflight c) (pending_replacement c) (orphaned c).
Definition with_active v (c : capability) : capability :=
  mk_capability (token c) (cap_device c) (cap_bytes c) (cap_inodes c) v (inflight c) (pending_replacement c) (orphaned c).
Definition with_inflight v (c : capability) : capability :=
  mk_capability (token c) (cap_device c) (cap_bytes c) (cap_inodes c) (active c) v (pending_replacement c) (orphaned c).
Definition with_replacement v (c : capability) : capability :=
  mk_capability (token c) (cap_device c) (cap_bytes c) (cap_inodes c) (active c) (inflight c) v (orphaned c).
Definition with_orphaned v (c : capability) : capability :=
  mk_capability (token c) (cap_device c) (cap_bytes c) (cap_inodes c) (active c) (inflight c) (pending_replacement c) v.

Definition set_state_objects v (g : governor) : governor :=
  mk_governor v (capability_objects g) (states g) (capabilities g) (next_capability g) (protocol_violations g) (orphaned_capability_hint g).
Definition set_capability_objects v (g : governor) : governor :=
  mk_governor (state_objects g) v (states g) (capabilities g) (next_capability g) (protocol_violations g) (orphaned_capability_hint g).
Definition set_states v (g : governor) : governor :=
  mk_governor (state_objects g) (capability_objects g) v (capabilities g) (next_capability g) (protocol_violations g) (orphaned_capability_hint g).
Definition set_capabilities v (g : governor) : governor :=
  mk_governor (state_objects g) (capability_objects g) (states g) v (next_capability g) (protocol_violations g) (orphaned_capability_hint g).
Definition set_next v (g : governor) : governor :=
  mk_governor (state_objects g) (capability_objects g) (states g) (capabilities g) v (protocol_violations g) (orphaned_capability_hint g).
Definition violate (g : governor) : governor :=
  mk_governor (state_objects g) (capability_objects g) (states g) (capabilities g) (next_capability g) (protocol_violations g + 1) (orphaned_capability_hint g).
Definition set_hint v (g : governor) : governor :=
  mk_governor (state_objects g) (capability_objects g) (states g) (capabilities g) (next_capability g) (protocol_violations g) v.

Definition blank_state : filesystem_state := mk_state 0 0 0 0 0 0 0 0 false None 0 false.

(** [ProcessTemporaryStorageCapability.__init__]. *)
Definition blank_capability : capability := mk_capability 0 (-1) 0 0 false false None false.

Definition state_at (s : nat) (g : governor) : filesystem_state := default blank_state (state_objects g !! s).
Definition cap_at (c : nat) (g : governor) : capability := default blank_capability (capability_objects g !! c).

Definition on_state (s : nat) (f : filesystem_state -> filesystem_state) (g : governor) : governor := set_state_objects (alter f s (state_objects g)) g.
Definition on_cap (c : nat) (f : capability -> capability) (g : governor) : governor := set_capability_objects (alter f c (capability_objects g)) g.

(** [dict.get] and [dict.pop]. *)
Fixpoint zget (k : Z) (l : list (Z * nat)) : option nat :=
  match l with
  | [] => None
  | (j, v) :: l' => if j =? k then Some v else zget k l'
  end.

Definition zpop (k : Z) (l : list (Z * nat)) : list (Z * nat) := List.filter (fun x => negb (x.1 =? k)) l.

(** [self._capabilities.get(capability.token) is capability]. *)
Definition registered (c : nat) (g : governor) : bool :=
  match zget (token (cap_at c g)) (capabilities g) with Some c' => (c' =? c)%nat | None => false end.

(** ** The file system *)

(** What the operating system answers during an operation: the device of the path
    with its free bytes, and the available inodes where [statvfs] works; the tuned
    free-space floor where it is read, for a new state and for the headroom; the
    switch of the environment and the making of the coordination directory; whether
    the text of a host error mentions inodes; the outcome of telemetry. *)
Record view : Type := mk_view {
  located : result (Z * Z);
  statvfs : option Z;
  floor_new : Z;
  floor_now : Z;
  switch_on : bool;
  directory : result unit;
  mentions_inode : bool;
  telemetry : result unit;
}.

Definition free_inodes (answer : option Z) : Z :=
  match answer with
  | Some available => if 0 <? available then available else Z.shiftl 1 30
  | None => Z.shiftl 1 30
  end.

Definition byte_headroom (free_bytes minimum : Z) : Z := Z.max 0 (free_bytes - minimum).

Definition inode_headroom (free : Z) : Z := Z.max 0 (free - Z.min 1024 (Z.max 32 (free / 100))).

(** The state that is made for a device, with [n] users. *)
Definition fresh_state (v : view) (free_bytes : Z) (account : option nat) (n : Z) : filesystem_state :=
  mk_state (byte_headroom free_bytes (floor_new v)) (inode_headroom (free_inodes (statvfs v))) 0 0 0 0 0 0 (switch_on v) account n false.

Section Governor.
Context {H : Type} {HA : HostAccounts H}.

Definition onG {A} (m : M governor A) : M (H * governor) A := zoom snd (fun g p => (fst p, g)) m.

Definition _borrow_state (device : Z) (create : option nat) : M governor (option nat) :=
  found ← reads (fun g => zget device (states g));
  state ← match found, create with
          | None, Some s => store (fun g => set_states (states g ++ [(device, s)]) g);; ret (Some s)
          | _, _ => ret found
          end;
  match state with
  | Some s => store (fun g => on_state s (with_users (users (state_at s g) + 1)) g);; tick
  | None => ret tt
  end;;
  ret state.

(** The device is idle: nothing is reserved and nobody uses its state. *)
Definition idle (device : Z) (s : nat) (g : governor) : bool :=
  let st := state_at s g in
  (users st =? 0) && (reserved_bytes st =? 0) && (reserved_inodes st =? 0) && (cross_reserved_bytes st =? 0) && (cross_reserved_inodes st =? 0)
  && match zget device (states g) with Some s' => (s' =? s)%nat | None => false end.

Definition _return_state (device : Z) (s : nat) : M (H * governor) unit :=
  n ← reads (fun p => users (state_at s (snd p)));
  if n <=? 0 then onG (store violate)
  else
    onG (store (on_state s (with_users (n - 1))));;
    retire ← reads (fun p => idle device s (snd p));
    whenM retire (
      account ← reads (fun p => cross_account (state_at s (snd p)));
      closed ← match account with
               | None => ret true
               | Some a =>
                 already ← reads (fun p => account_closed (fst p) a);
                 if already : bool then ret true
                 else try_except (onS (close_account a);; ret true) (fun _ => ret false)
               end;
      whenM closed (onG (store (fun g => set_states (zpop device (states g)) g)))).

(** The loop over the capabilities of a device. *)
Fixpoint exact_authority (device : Z) (s : nat) (l : list (Z * nat)) (bytes inodes : Z) : M governor (Z * Z) :=
  match l with
  | [] => ret (bytes, inodes)
  | (_, c) :: l' =>
    cp ← reads (cap_at c);
    if active cp && (cap_device cp =? device) then
      if (cap_bytes cp <? 0) || (cap_inodes cp <? 0)
      then store (on_state s (with_corrupted true));; store violate;; exact_authority device s l' bytes inodes
      else exact_authority device s l' (bytes + cap_bytes cp) (inodes + cap_inodes cp)
    else exact_authority device s l' bytes inodes
  end.

Definition _reconcile_state_authority_locked (device : Z) (s : nat) : M (H * governor) bool :=
  registry ← reads (fun p => capabilities (snd p));
  exact ← onG (exact_authority device s registry 0 0);
  st ← reads (fun p => state_at s (snd p));
  cross ← reads (fun p => match cross_account st with
                          | Some a => if cross_process_enabled st then (account_bytes (fst p) a, account_inodes (fst p) a)
                                      else (cross_reserved_bytes st, cross_reserved_inodes st)
                          | None => (cross_reserved_bytes st, cross_reserved_inodes st)
                          end);
  let mismatch := negb (reserved_bytes st =? fst exact) || negb (reserved_inodes st =? snd exact)
                  || negb (cross_reserved_bytes st =? fst cross) || negb (cross_reserved_inodes st =? snd cross) in
  onG (whenM mismatch (
    store (on_state s (with_corrupted true));;
    store violate;;
    store (on_state s (with_reserved (fst exact)));;
    store (on_state s (with_reserved_inodes (snd exact)));;
    store (on_state s (with_cross (fst cross)));;
    store (on_state s (with_cross_inodes (snd cross)))));;
  reads (fun p => negb (corrupted (state_at s (snd p)))).

(** *** Growth *)

(** Publish a state for a device that has none. *)
Definition create_state (v : view) (device free_bytes : Z) : M (H * governor) (option nat) :=
  whenM (switch_on v) (liftR (directory v));;
  account ← (if switch_on v then a ← onS (open_account device); ret (Some a) else ret None);
  candidate ← reads (fun p => length (state_objects (snd p)));
  onG (modify (fun g => set_state_objects (state_objects g ++ [fresh_state v free_bytes account 0]) g));;
  state ← onG (_borrow_state device (Some candidate));
  match account with
  | Some a => whenM (negb (bool_decide (state = Some candidate))) (onS (close_account a))
  | None => ret tt
  end;;
  ret state.

Definition _raise_quarantined {A} : M (H * governor) A := raise (ResourceError "temporary_storage_corruption_quarantine" 0 1).

(** The host's answer to growth, with its errors turned into resource errors. *)
Definition grow_host (v : view) (s : nat) (growth inode_growth next_reserved capacity next_inodes inode_capacity : Z) : M (H * governor) unit :=
  st ← reads (fun p => state_at s (snd p));
  try_except
    (whenM (cross_process_enabled st)
       (match cross_account st with
        | None => raise RuntimeError
        | Some a => onS (reserve_account a growth capacity inode_growth inode_capacity);; ret tt
        end))
    (fun e => if Disk.is_oserror e
              then raise (if mentions_inode v then ResourceError "cross_process_temporary_storage_inodes" inode_capacity next_inodes
                          else ResourceError "cross_process_temporary_storage_bytes" capacity next_reserved)
              else raise e).

(** The critical section of [_reserve_capability_growth]. *)
Definition commit_growth (v : view) (c s : nat) (device free_bytes requested requested_inodes target_bytes target_inodes : Z) : M (H * governor) unit :=
  sound ← _reconcile_state_authority_locked device s;
  if negb sound then _raise_quarantined
  else
    st ← reads (fun p => state_at s (snd p));
    let effective_capacity := Z.min (capacity_bytes st) (reserved_bytes st + byte_headroom free_bytes (floor_now v)) in
    let next_reserved := reserved_bytes st + requested in
    let effective_inode_capacity := Z.min (capacity_inodes st) (reserved_inodes st + inode_headroom (free_inodes (statvfs v))) in
    let next_inodes := reserved_inodes st + requested_inodes in
    if effective_capacity <? next_reserved then raise (ResourceError "process_temporary_storage_bytes" effective_capacity next_reserved)
    else if effective_inode_capacity <? next_inodes then raise (ResourceError "filesystem_free_inodes" effective_inode_capacity next_inodes)
    else
      let cross_growth := Z.max 0 (next_reserved - cross_reserved_bytes st) in
      let cross_inode_growth := Z.max 0 (next_inodes - cross_reserved_inodes st) in
      grow_host v s cross_growth cross_inode_growth next_reserved effective_capacity next_inodes effective_inode_capacity;;
      onG (
        store (fun g => on_state s (with_cross (cross_reserved_bytes (state_at s g) + cross_growth)) g);;
        store (fun g => on_state s (with_cross_inodes (cross_reserved_inodes (state_at s g) + cross_inode_growth)) g);;
        store (on_state s (with_reserved next_reserved));;
        store (fun g => on_state s (with_peak (Z.max (peak_reserved_bytes (state_at s g)) next_reserved)) g);;
        store (on_state s (with_reserved_inodes next_inodes));;
        store (fun g => on_state s (with_peak_inodes (Z.max (peak_reserved_inodes (state_at s g)) next_inodes)) g);;
        store (on_cap c (with_device device));;
        store (on_cap c (with_cap_bytes target_bytes));;
        store (on_cap c (with_cap_inodes target_inodes));;
        store (on_cap c (with_active true));;
        store (on_cap c (with_orphaned false))).

Definition _reserve_capability_growth (v : view) (c : nat) (requested requested_inodes : Z) : M (H * governor) unit :=
  if (requested <? 0) || (requested_inodes <? 0) then raise ValueError
  else
    place ← liftR (located v);
    let device := fst place in
    cp ← reads (fun p => cap_at c (snd p));
    if active cp && negb (cap_device cp =? device) then raise RuntimeError
    else
      let target_bytes := if active cp then cap_bytes cp + requested else requested in
      let target_inodes := if active cp then cap_inodes cp + requested_inodes else requested_inodes in
      if (requested =? 0) && (requested_inodes =? 0) then
        onG (store (on_cap c (with_device device));; store (on_cap c (with_active true));; store (on_cap c (with_orphaned false)))
      else
        borrowed ← onG (_borrow_state device None);
        state ← match borrowed with None => create_state v device (snd place) | Some _ => ret borrowed end;
        match state with
        | None => raise AssertionError
        | Some s =>
          with_exit (commit_growth v c s device (snd place) requested requested_inodes target_bytes target_inodes) (_return_state device s);;
          liftR (telemetry v)
        end.

(** *** Capabilities *)

(** The loop over candidate tokens. *)
Fixpoint token_search (turns : nat) (candidate : Z) (l : list (Z * nat)) : option Z :=
  match turns with
  | O => None
  | S turns' =>
    match zget candidate l with
    | None => Some candidate
    | Some _ => token_search turns' (if Z.shiftl 1 63 <=? candidate + 1 then 1 else candidate + 1) l
    end
  end.

Definition _prepublish_capability : M governor nat :=
  c ← reads (fun g => length (capability_objects g));
  modify (fun g => set_capability_objects (capability_objects g ++ [blank_capability]) g);;
  live ← reads capabilities;
  if _MAX_PROCESS_TEMPORARY_STORAGE_CAPABILITIES <=? Z.of_nat (length live) then raise RuntimeError
  else
    next ← reads next_capability;
    match token_search (S (length live)) (Z.max 1 next) live with
    | None => raise AssertionError
    | Some t =>
      store (fun g => set_capabilities (capabilities g ++ [(t, c)]) g);;
      store (set_next (t + 1));;
      store (on_cap c (with_token t));;
      tick;;
      ret c
    end.

Definition _begin_capability_mutation (c : nat) : M governor bool :=
  claimed ← reads (fun g => active (cap_at c g) && negb (inflight (cap_at c g)) && registered c g);
  if claimed : bool then store (on_cap c (with_inflight true));; ret true else ret false.

Definition pop_capability (c : nat) : M governor unit :=
  mine ← reads (registered c);
  whenM mine (store (fun g => set_capabilities (zpop (token (cap_at c g)) (capabilities g)) g)).

Definition _finish_capability_mutation (c : nat) (retire : bool) : M governor unit :=
  whenM retire (
    pop_capability c;;
    store (on_cap c (with_active false));;
    store (on_cap c (with_orphaned false));;
    store (on_cap c (with_token 0)));;
  store (on_cap c (with_inflight false)).

Definition _mark_orphaned_capability (c : nat) : M governor unit :=
  rooted ← reads (fun g => registered c g && active (cap_at c g));
  whenM rooted (store (on_cap c (with_orphaned true));; store (set_hint true)).

(** The lower layer has committed although its tail failed. *)
Definition _cross_release_committed (h : H) (a : nat) (target_bytes target_inodes : Z) : bool :=
  (account_bytes h a =? target_bytes) && (account_inodes h a =? target_inodes) && account_pending h a.

(** What to give back to the host: the slack, once it is worth it or nothing is left. *)
Definition host_release (quantum next cross : Z) : Z :=
  let slack := Z.max 0 (cross - next) in
  if (next =? 0) || (quantum <=? slack) then slack else 0.

(** The host's part of a release; a failure after its commit point is returned. *)
Definition shrink_host (s : nat) (release_bytes release_inodes next_cross_bytes next_cross_inodes : Z) : M (H * governor) (option exn) :=
  st ← reads (fun p => state_at s (snd p));
  if cross_process_enabled st && (negb (release_bytes =? 0) || negb (release_inodes =? 0)) then
    match cross_account st with
    | None => raise RuntimeError
    | Some a =>
      try_except (onS (release_account a release_bytes release_inodes);; ret None)
        (fun e => done ← reads (fun p => _cross_release_committed (fst p) a next_cross_bytes next_cross_inodes);
                  if done : bool then ret (Some e) else raise e)
    end
  else ret None.

(** The locals of a release: [committed] and [post_commit_error]. *)
Definition locals : Type := bool * option exn.

Definition locally {A} (m : M (H * governor) A) : M ((H * governor) * locals) A := onS m.

Definition set_committed : M ((H * governor) * locals) unit := store (fun p => (fst p, (true, snd (snd p)))).
Definition set_post (e : option exn) : M ((H * governor) * locals) unit := modify (fun p => (fst p, (fst (snd p), e))).

(** The [finally] clause of a release: the borrowed state goes back, then the claim on
    the capability ends, for good if [retire]. *)
Definition end_release (device : Z) (s c : nat) (retire : bool -> bool) : M ((H * governor) * locals) unit :=
  try_except (locally (_return_state device s))
    (fun e => committed ← reads (fun p => fst (snd p));
              if committed : bool then ret tt else locally (onG (_finish_capability_mutation c false));; raise e);;
  committed ← reads (fun p => fst (snd p));
  locally (onG (_finish_capability_mutation c (retire committed))).

(** Run the critical section of a release, its [finally] clause and the tail that
    raises a failure kept for later. *)
Definition settle {A} (device : Z) (s c : nat) (retire : bool -> bool) (body : M ((H * governor) * locals) A) : M (H * governor) A :=
  with_local (false, None) (
    v ← with_exit body (end_release device s c retire);
    post ← reads (fun p => snd (snd p));
    match post with Some e => raise e | None => ret v end).

(** The critical section of [_release_capability_exact]. *)
Definition commit_release (device : Z) (s c : nat) (amount amount_inodes : Z) : M ((H * governor) * locals) bool :=
  locally (_reconcile_state_authority_locked device s);;
  p ← reads (fun p => snd (fst p));
  let st := state_at s p in
  if negb (active (cap_at c p)) then ret false
  else if (reserved_bytes st <? amount) || (reserved_inodes st <? amount_inodes) then raise RuntimeError
  else
    let next_reserved := reserved_bytes st - amount in
    let next_inodes := reserved_inodes st - amount_inodes in
    let release_bytes := host_release _CROSS_PROCESS_SHRINK_QUANTUM_BYTES next_reserved (cross_reserved_bytes st) in
    let release_inodes := host_release _CROSS_PROCESS_SHRINK_QUANTUM_INODES next_inodes (cross_reserved_inodes st) in
    let next_cross_bytes := Z.max next_reserved (cross_reserved_bytes st - release_bytes) in
    let next_cross_inodes := Z.max next_inodes (cross_reserved_inodes st - release_inodes) in
    post ← locally (shrink_host s release_bytes release_inodes next_cross_bytes next_cross_inodes);
    set_post post;;
    locally (onG (
      store (on_state s (with_cross next_cross_bytes));;
      store (on_state s (with_cross_inodes next_cross_inodes));;
      store (on_state s (with_reserved next_reserved));;
      store (on_state s (with_reserved_inodes next_inodes));;
      store (on_cap c (with_cap_bytes 0));;
      store (on_cap c (with_cap_inodes 0))));;
    set_committed;;
    tick;;
    ret true.

(** [state] for a mutation in progress; without one the mutation ends. *)
Definition borrow_for (device : Z) (c : nat) : M (H * governor) nat :=
  state ← try_except (onG (_borrow_state device None)) (fun e => onG (_finish_capability_mutation c false);; raise e);
  match state with
  | Some s => ret s
  | None => onG (_finish_capability_mutation c false);; raise RuntimeError
  end.

Definition _release_capability_exact (c : nat) : M (H * governor) bool :=
  claimed ← onG (_begin_capability_mutation c);
  if negb claimed then ret false
  else
    cp ← reads (fun p => cap_at c (snd p));
    if (cap_bytes cp =? 0) && (cap_inodes cp =? 0) then onG (_finish_capability_mutation c true);; ret true
    else
      s ← borrow_for (cap_device cp) c;
      settle (cap_device cp) s c (fun committed => committed) (commit_release (cap_device cp) s c (cap_bytes cp) (cap_inodes cp)).

Definition release_capability (c : nat) : M (H * governor) bool :=
  pending ← reads (fun p => pending_replacement (cap_at c (snd p)));
  go_on ← match pending with
          | Some r =>
            released ← _release_capability_exact r;
            if released : bool then onG (store (on_cap c (with_replacement None)));; ret true else ret false
          | None => ret true
          end;
  if go_on : bool then _release_capability_exact c else ret false.

Definition _drain_one_orphaned_capability_noexcept : M (H * governor) unit :=
  hint ← reads (fun p => orphaned_capability_hint (snd p));
  if negb hint then ret tt
  else
    candidate ← reads (fun p => List.find (fun x => let cp := cap_at (snd x) (snd p) in orphaned cp && active cp && negb (inflight cp)) (capabilities (snd p)));
    match candidate with
    | None => onG (store (set_hint false))
    | Some (_, c) =>
      finished ← try_except (released ← release_capability c; whenM released (onG (store (on_cap c (with_orphaned false))));; ret true) (fun _ => ret false);
      whenM finished (onG (store (fun g => set_hint (existsb (fun x => let cp := cap_at (snd x) g in orphaned cp && active cp) (capabilities g)) g)))
    end.

(** Unpublish a capability that holds nothing. *)
Definition discard (c : nat) : M (H * governor) unit := onG (pop_capability c;; store (on_cap c (with_token 0))).

Definition reserve_capability (v : view) (size_bytes inode_count : Z) : M (H * governor) nat :=
  _drain_one_orphaned_capability_noexcept;;
  c ← onG _prepublish_capability;
  try_except (_reserve_capability_growth v c size_bytes inode_count)
    (fun primary =>
       committed ← reads (fun p => active (cap_at c (snd p)));
       (if committed : bool then
          try_except (released ← _release_capability_exact c; if released : bool then ret tt else raise RuntimeError)
            (fun _ => onG (_mark_orphaned_capability c))
        else discard c);;
       raise primary);;
  committed ← reads (fun p => active (cap_at c (snd p)));
  whenM (negb committed) (discard c);;
  ret c.

(** *** Resizing *)

(** Move the reservation to another device: the new capability is published first. *)
Definition move_capability (v : view) (c : nat) (size_bytes target_inodes : Z) : M (H * governor) nat :=
  replacement ← reserve_capability v size_bytes target_inodes;
  onG (store (on_cap c (with_replacement (Some replacement))));;
  try_except (released ← _release_capability_exact c; if released : bool then ret tt else raise RuntimeError)
    (fun primary =>
       rolled_back ← _release_capability_exact replacement;
       whenM rolled_back (onG (store (on_cap c (with_replacement None))));;
       raise primary);;
  onG (store (on_cap c (with_replacement None)));;
  ret replacement.

(** The critical section of a partial shrink. *)
Definition commit_shrink (device : Z) (s c : nat) (current release_amount : Z) : M ((H * governor) * locals) unit :=
  locally (_reconcile_state_authority_locked device s);;
  p ← reads (fun p => snd (fst p));
  let st := state_at s p in
  if negb (active (cap_at c p)) || negb (cap_bytes (cap_at c p) =? current) then raise RuntimeError
  else
    let next_reserved := reserved_bytes st - release_amount in
    let next_capability := current - release_amount in
    let release_bytes := host_release _CROSS_PROCESS_SHRINK_QUANTUM_BYTES next_reserved (cross_reserved_bytes st) in
    let next_cross_bytes := Z.max next_reserved (cross_reserved_bytes st - release_bytes) in
    post ← locally (shrink_host s release_bytes 0 next_cross_bytes (cross_reserved_inodes st));
    set_post post;;
    locally (onG (
      store (on_state s (with_cross next_cross_bytes));;
      store (on_state s (with_reserved next_reserved));;
      store (on_cap c (with_cap_bytes next_capability))));;
    set_committed;;
    tick.

(** [resize_capability]; [target] is the device of the path when it is first asked for. *)
Definition resize_capability (v : view) (target : result Z) (c : nat) (size_bytes : Z) (inode_count : option Z) : M (H * governor) nat :=
  cp ← reads (fun p => cap_at c (snd p));
  if negb (active cp) then raise RuntimeError
  else if size_bytes <? 0 then raise ValueError
  else
    target_device ← liftR target;
    if negb (target_device =? cap_device cp) then move_capability v c size_bytes (default (cap_inodes cp) inode_count)
    else
      claimed ← onG (_begin_capability_mutation c);
      if negb claimed then raise RuntimeError
      else
        current ← reads (fun p => cap_bytes (cap_at c (snd p)));
        let delta := size_bytes - current in
        if delta =? 0 then onG (_finish_capability_mutation c false);; ret c
        else if 0 <? delta then
          with_exit (_reserve_capability_growth v c delta 0) (onG (_finish_capability_mutation c false));;
          ret c
        else
          device ← reads (fun p => cap_device (cap_at c (snd p)));
          s ← borrow_for device c;
          settle device s c (fun _ => false) (commit_shrink device s c current (- delta));;
          ret c.

(** *** Observation *)

Record snapshot_of : Type := mk_snapshot { snap_capacity : Z; snap_reserved : Z; snap_peak : Z; snap_capacity_inodes : Z; snap_inodes : Z; snap_peak_inodes : Z }.

Definition snapshot (v : view) : M (H * governor) snapshot_of :=
  place ← liftR (located v);
  borrowed ← onG (_borrow_state (fst place) None);
  match borrowed with
  | None => ret (mk_snapshot (byte_headroom (snd place) (floor_now v)) 0 0 (inode_headroom (free_inodes (statvfs v))) 0 0)
  | Some s =>
    with_exit (reads (fun p => let st := state_at s (snd p) in
                 mk_snapshot (capacity_bytes st) (reserved_bytes st) (peak_reserved_bytes st) (capacity_inodes st) (reserved_inodes st) (peak_reserved_inodes st)))
              (_return_state (fst place) s)
  end.

(** The sums of the live states, and the violations. *)
Definition authoritative_snapshot (g : governor) : Z * (Z * Z) * (Z * Z) * Z :=
  let sum f := foldr (fun x z => f (state_at (snd x) g) + z) 0 (states g) in
  (Z.of_nat (length (states g)), (sum reserved_bytes, sum reserved_inodes), (sum cross_reserved_bytes, sum cross_reserved_inodes), protocol_violations g).
End Governor.

(** ** Forks

    The governor owns two spare pairs of dictionaries.  A child takes one of them as
    its registries; the pair that is in use is the live dictionaries themselves. *)

Definition pair : Type := list (Z * nat) * list (Z * nat).

Record forkable : Type := mk_forkable {
  present : governor;
  home : option bool;
  banks : bool -> pair;
  bank_index : bool;
  fork_prepared : option bool;
}.

(** The dictionaries of a bank. *)
Definition bank (f : forkable) (b : bool) : pair :=
  if bool_decide (home f = Some b) then (states (present f), capabilities (present f)) else banks f b.

Definition new_forkable : forkable := mk_forkable new_governor None (fun _ => ([], [])) false None.

Definition prepare_for_fork (f : forkable) : forkable := mk_forkable (present f) (home f) (banks f) (bank_index f) (Some (bank_index f)).

Definition clear_fork_preparation (f : forkable) : forkable := mk_forkable (present f) (home f) (banks f) (bank_index f) None.

Definition reset_after_fork (f : forkable) : forkable :=
  match fork_prepared f with
  | None => f
  | Some b => mk_forkable (set_next 1 (set_capabilities (snd (bank f b)) (set_states (fst (bank f b)) (present f)))) (Some b) (bank f) (negb (bank_index f)) None
  end.

(** What the governor of a process does between forks. *)
Definition works (g : governor) (f : forkable) : forkable := mk_forkable g (home f) (banks f) (bank_index f) (fork_prepared f).

Definition child (f : forkable) : forkable := reset_after_fork (prepare_for_fork f).

(** ** The laws of the host

    What the theorems ask of a host that is not interrupted: its operations may
    fail, but a failed reservation changes no amounts, a failed release either
    changes none or has lowered them and says so, and nothing but the account in
    question changes. *)

Definition amounts {H} {HA : HostAccounts H} (h : H) (a : nat) : Z * Z := (account_bytes h a, account_inodes h a).

Class HostLaws (H : Type) {HA : HostAccounts H} : Type := {
  sane : H -> Prop;
  live : H -> Z -> nat -> Prop;
  live_open : forall h d a, live h d a -> account_closed h a = false;
  open_law : forall h d, sane h -> wp 0 (open_account d) (fun r _ h' =>
    sane h' /\ (forall d' a, live h d' a -> live h' d' a /\ amounts h' a = amounts h a)
    /\ forall a, r = Ok a -> live h' d a /\ (forall d', ~ live h d' a) /\ amounts h' a = (0, 0)) h;
  reserve_law : forall h d a s cap k icap, sane h -> live h d a -> 0 <= s -> 0 <= k -> wp 0 (reserve_account a s cap k icap) (fun r _ h' =>
    sane h' /\ (forall d' a', live h d' a' -> live h' d' a' /\ (a' <> a -> amounts h' a' = amounts h a'))
    /\ amounts h' a = match r with Ok _ => (account_bytes h a + s, account_inodes h a + k) | Err _ => amounts h a end) h;
  release_law : forall h d a s k, sane h -> live h d a -> 0 <= s <= account_bytes h a -> 0 <= k <= account_inodes h a -> wp 0 (release_account a s k) (fun r _ h' =>
    sane h' /\ (forall d' a', live h d' a' -> live h' d' a' /\ (a' <> a -> amounts h' a' = amounts h a'))
    /\ match r with
       | Ok _ => amounts h' a = (account_bytes h a - s, account_inodes h a - k)
       | Err _ => amounts h' a = amounts h a \/ amounts h' a = (account_bytes h a - s, account_inodes h a - k) /\ account_pending h' a = true
       end) h;
  close_law : forall h d a, sane h -> live h d a -> wp 0 (close_account a) (fun r _ h' =>
    sane h' /\ (forall d' a', live h d' a' -> a' <> a -> live h' d' a' /\ amounts h' a' = amounts h a')
    /\ forall e, r = Err e -> live h' d a /\ amounts h' a = amounts h a) h;
}.

Lemma zget_app k l j v : zget k (l ++ [(j, v)]) = match zget k l with Some x => Some x | None => if j =? k then Some v else None end.
Proof. induction l as [|[i w] l IH]; simpl; [done|]. by destruct (i =? k). Qed.

Lemma zget_zpop k j l : zget k (zpop j l) = if k =? j then None else zget k l.
Proof.
  unfold zpop. induction l as [|[i w] l IH]; [by destruct (k =? j)|]. cbn [List.filter fst zget]. destruct (Z.eqb_spec i j) as [->|Hne]; cbn [negb zget]; rewrite IH.
  - destruct (Z.eqb_spec k j), (Z.eqb_spec j k); done || congruence.
  - destruct (Z.eqb_spec k j), (Z.eqb_spec i k); done || congruence.
Qed.

Lemma zget_elem k v l : zget k l = Some v -> (k, v) ∈ l.
Proof. induction l as [|[i w] l IH]; simpl; [done|]. destruct (Z.eqb_spec i k) as [->|?]; [intros [= ->]; left|intros; right; auto]. Qed.

Lemma zget_None k l : zget k l = None -> k ∉ l.*1.
Proof.
  induction l as [|[i w] l IH]; simpl; [intros _; apply not_elem_of_nil|]. destruct (Z.eqb_spec i k); [done|]. intros H%IH. apply not_elem_of_cons. split; [congruence|done].
Qed.

Lemma elem_zget k v l : NoDup l.*1 -> (k, v) ∈ l -> zget k l = Some v.
Proof.
  induction l as [|[i w] l IH]; intros Hn Hin; [by apply elem_of_nil in Hin|]. rewrite fmap_cons, NoDup_cons in Hn. destruct Hn as [Hi Hn]. cbn [zget].
  apply elem_of_cons in Hin as [[= -> ->]|Hin]; [by rewrite Z.eqb_refl|]. rewrite (proj2 (Z.eqb_neq i k)); [auto|]. intros ->. apply Hi. by apply (list_elem_of_fmap_2 fst) in Hin.
Qed.

Lemma state_at_on s f g st : state_objects g !! s = Some st -> state_at s (on_state s f g) = f st.
Proof. intros E. unfold state_at, on_state. cbn [set_state_objects state_objects]. by rewrite list_lookup_alter_eq, E. Qed.

Lemma cap_at_on c f g cp : capability_objects g !! c = Some cp -> cap_at c (on_cap c f g) = f cp.
Proof. intros E. unfold cap_at, on_cap. cbn [set_capability_objects capability_objects]. by rewrite list_lookup_alter_eq, E. Qed.

Lemma state_at_eq s g st : state_objects g !! s = Some st -> state_at s g = st.
Proof. unfold state_at. by intros ->. Qed.

Lemma cap_at_eq c g cp : capability_objects g !! c = Some cp -> cap_at c g = cp.
Proof. unfold cap_at. by intros ->. Qed.

Lemma on_state_eq s f g st : state_objects g !! s = Some st -> state_objects (on_state s f g) !! s = Some (f st).
Proof. intros E. unfold on_state. cbn [set_state_objects state_objects]. by rewrite list_lookup_alter_eq, E. Qed.

Lemma on_state_ne s s' f g : s' <> s -> state_objects (on_state s f g) !! s' = state_objects g !! s'.
Proof. intros E. unfold on_state. cbn [set_state_objects state_objects]. by rewrite list_lookup_alter_ne. Qed.

Lemma on_cap_eq c f g cp : capability_objects g !! c = Some cp -> capability_objects (on_cap c f g) !! c = Some (f cp).
Proof. intros E. unfold on_cap. cbn [set_capability_objects capability_objects]. by rewrite list_lookup_alter_eq, E. Qed.

Lemma on_cap_ne c c' f g : c' <> c -> capability_objects (on_cap c f g) !! c' = capability_objects g !! c'.
Proof. intros E. unfold on_cap. cbn [set_capability_objects capability_objects]. by rewrite list_lookup_alter_ne. Qed.

(** ** What the capabilities of a device hold *)

Definition hold (d : Z) (cp : capability) : Z * Z := if active cp && (cap_device cp =? d) then (cap_bytes cp, cap_inodes cp) else (0, 0).

Definition held (d : Z) (g : governor) (x : Z * nat) : Z * Z := hold d (cap_at (snd x) g).

Definition usage (d : Z) (g : governor) : Z * Z :=
  foldr (fun x z => (fst (held d g x) + fst z, snd (held d g x) + snd z)) (0, 0) (capabilities g).

Lemma held_ext d g g' x : cap_at (snd x) g' = cap_at (snd x) g -> held d g' x = held d g x.
Proof. unfold held. by intros ->. Qed.

Definition usage_of (d : Z) (g : governor) (l : list (Z * nat)) : Z * Z := foldr (fun x z => (fst (held d g x) + fst z, snd (held d g x) + snd z)) (0, 0) l.

Lemma held_eq d g x cp : capability_objects g !! snd x = Some cp -> held d g x = hold d cp.
Proof. intros E. unfold held. by rewrite (cap_at_eq _ _ _ E). Qed.

Lemma usage_of_cons d g x l : usage_of d g (x :: l) = (fst (held d g x) + fst (usage_of d g l), snd (held d g x) + snd (usage_of d g l)).
Proof. done. Qed.

Lemma usage_of_ext d g g' l : (forall x, x ∈ l -> held d g' x = held d g x) -> usage_of d g' l = usage_of d g l.
Proof. induction l as [|x l IH]; intros E; [done|]. unfold usage_of in *. cbn [foldr]. rewrite IH, E; [done|left|intros; apply E; by right]. Qed.

Lemma usage_of_app d g l k : usage_of d g (l ++ k) = (fst (usage_of d g l) + fst (usage_of d g k), snd (usage_of d g l) + snd (usage_of d g k)).
Proof. induction l as [|x l IH]; [exact (surjective_pairing (usage_of d g k))|]. unfold usage_of in *. cbn [app foldr]. rewrite IH. cbn [fst snd]. f_equal; lia. Qed.

(** ** The invariant

    Between the operations, and with a state borrowed inside them: the tokens of
    the registered capabilities are exact, every state counts exactly what the
    capabilities of its device hold, within its capacity, and knows what its host
    account holds, which covers it. *)

Section Laws.
Context {H : Type} {HA : HostAccounts H} {HL : HostLaws H}.

Definition entry_ok (g : governor) (x : Z * nat) : Prop :=
  exists cp, capability_objects g !! snd x = Some cp /\ token cp = fst x /\ 0 < fst x /\ 0 <= cap_bytes cp /\ 0 <= cap_inodes cp.

(** The account of a state. *)
Definition backing (h : H) (d : Z) (st : filesystem_state) : Prop :=
  if cross_process_enabled st then exists a, cross_account st = Some a /\ live h d a /\ amounts h a = (cross_reserved_bytes st, cross_reserved_inodes st)
  else cross_account st = None.

Record state_ok (borrowed : option nat) (h : H) (g : governor) (d : Z) (s : nat) (st : filesystem_state) : Prop := {
  so_object : state_objects g !! s = Some st;
  so_sound : corrupted st = false;
  so_users : users st = if bool_decide (borrowed = Some s) then 1 else 0;
  so_exact : usage d g = (reserved_bytes st, reserved_inodes st);
  so_bytes : reserved_bytes st <= capacity_bytes st;
  so_inodes : reserved_inodes st <= capacity_inodes st;
  so_cover : reserved_bytes st <= cross_reserved_bytes st;
  so_cover_inodes : reserved_inodes st <= cross_reserved_inodes st;
  so_backing : backing h d st;
}.

Record caps_ok (g : governor) : Prop := {
  co_tokens : NoDup (capabilities g).*1;
  co_caps : NoDup (capabilities g).*2;
  co_entries : Forall (entry_ok g) (capabilities g);
}.

Record gov_ok (borrowed : option nat) (h : H) (g : governor) : Prop := {
  go_sane : sane h;
  go_caps : caps_ok g;
  go_states : forall d s, zget d (states g) = Some s -> exists st, state_ok borrowed h g d s st;
  go_distinct : forall d d' s, zget d (states g) = Some s -> zget d' (states g) = Some s -> d = d';
  go_accounts : forall d d' s s' a, zget d (states g) = Some s -> zget d' (states g) = Some s' ->
    cross_account (state_at s g) = Some a -> cross_account (state_at s' g) = Some a -> s = s';
  go_backed : forall d, usage d g <> (0, 0) -> is_Some (zget d (states g));
}.

Lemma usage_nonneg d g : caps_ok g -> 0 <= fst (usage d g) /\ 0 <= snd (usage d g).
Proof.
  intros [_ _ He]. unfold usage. induction He as [|x l (cp & Hc & _ & _ & Hb & Hn) _ IH]; [done|]. cbn [foldr fst snd]. set (z := foldr _ _ l) in *.
  unfold held, hold. rewrite (cap_at_eq _ _ _ Hc). destruct (_ && _); cbn [fst snd]; lia.
Qed.

(** The loop computes the usage. *)
Lemma exact_authority_spec d s g l b n (Q : result (Z * Z) -> nat -> governor -> Prop) : Forall (entry_ok g) l ->
  Q (Ok (b + fst (usage_of d g l), n + snd (usage_of d g l))) 0%nat g -> wp 0 (exact_authority d s l b n) Q g.
Proof.
  intros He. revert b n. induction He as [|[t c] l (cp & Hc & _ & _ & Hb & Hn) _ IH]; intros b n HQ; cbn [exact_authority].
  - wp_step. unfold usage_of in HQ. cbn [foldr fst snd] in HQ. by rewrite !Z.add_0_r in HQ.
  - wp_step. wp_step. rewrite usage_of_cons, (held_eq d g (t, c) cp Hc) in HQ. unfold hold in HQ. cbn [snd] in Hc. rewrite (cap_at_eq _ _ _ Hc).
    destruct (active cp && (cap_device cp =? d)); cbn [fst snd] in HQ.
    + rewrite !(proj2 (Z.ltb_ge _ _)) by done. cbn [orb]. apply IH. by rewrite !Z.add_assoc in HQ.
    + apply IH. by rewrite !Z.add_0_l in HQ.
Qed.

(** One state, its account and the capabilities of its device change. *)
Lemma gov_ok_update b b' h h' g g' d s st st' : gov_ok b h g -> zget d (states g) = Some s -> state_objects g !! s = Some st ->
  states g' = states g -> (forall s', s' <> s -> state_objects g' !! s' = state_objects g !! s') ->
  caps_ok g' -> (forall d', d' <> d -> usage d' g' = usage d' g) ->
  sane h' -> (forall d' a, live h d' a -> cross_account st <> Some a -> live h' d' a /\ amounts h' a = amounts h a) ->
  cross_account st' = cross_account st -> (forall s', s' <> s -> b' = Some s' <-> b = Some s') ->
  state_ok b' h' g' d s st' -> gov_ok b' h' g'.
Proof.
  intros [_ _ Hst Hdist Hacc Hback] Hd Hs Estates Hobj Hcaps Hus Hsane Hframe Eacc Hb Hok.
  assert (Hacc' : forall s', cross_account (state_at s' g') = cross_account (state_at s' g)).
  { intros s'. destruct (decide (s' = s)) as [->|Hne]; [|unfold state_at; by rewrite Hobj]. by rewrite (state_at_eq _ _ _ Hs), (state_at_eq _ _ _ (so_object _ _ _ _ _ _ Hok)). }
  split; [done|done|..]; rewrite ?Estates; [|done|intros *; rewrite !Hacc'; apply Hacc|].
  - intros d' s' Hd'. destruct (decide (s' = s)) as [->|Hne]; [rewrite (Hdist d' d s Hd' Hd); by exists st'|].
    destruct (Hst d' s' Hd') as (st1 & [Ho Hc Hu Hx Hcb Hci Hv Hvi Hbk]). assert (d' <> d) by (intros ->; congruence). exists st1.
    split; [by rewrite Hobj|done| |by rewrite Hus|done..|].
    + rewrite Hu. destruct (Hb s' Hne). repeat case_bool_decide; tauto.
    + unfold backing in *. destruct (cross_process_enabled st1) eqn:He; [|done]. destruct Hbk as (a & Ea & Hl & Ham). exists a. split; [done|].
      destruct (Hframe _ a Hl) as [Hl' Ham']; [|by rewrite Ham']. intros Ea'. apply Hne. apply (Hacc d' d s' s a); [done|done|by rewrite (state_at_eq _ _ _ Ho)|by rewrite (state_at_eq _ _ _ Hs)].
  - intros d'. destruct (decide (d' = d)) as [->|Hne]; [intros _; by exists s|]. rewrite Hus by done. apply Hback.
Qed.

(** The computations that touch no capability. *)
Lemma caps_ok_same g g' : capabilities g' = capabilities g -> capability_objects g' = capability_objects g -> caps_ok g -> caps_ok g'.
Proof. intros E E' [H1 H2 H3]. split; rewrite E; [done|done|]. eapply Forall_impl; [exact H3|]. intros x (cp & Hc & Hr). exists cp. by rewrite E'. Qed.

Lemma usage_same d g g' : capabilities g' = capabilities g -> capability_objects g' = capability_objects g -> usage d g' = usage d g.
Proof. intros E E'. unfold usage, held, cap_at. by rewrite E, E'. Qed.

Lemma usage_on_state d s f g : usage d (on_state s f g) = usage d g.
Proof. done. Qed.

Lemma reconcile_exact b h g d s st (Q : result bool -> nat -> H * governor -> Prop) : caps_ok g -> state_ok b h g d s st ->
  Q (Ok true) 0%nat (h, g) -> wp 0 (_reconcile_state_authority_locked d s) Q (h, g).
Proof.
  intros Hc [Ho Hs _ Hx _ _ _ _ Hb] HQ. unfold _reconcile_state_authority_locked. wp_step. wp_step. wp_step. apply wp_zoom. cbn [fst snd].
  apply exact_authority_spec; [apply Hc|]. change (usage_of d g (capabilities g)) with (usage d g). rewrite Hx. cbn [fst snd]. rewrite !Z.add_0_l. wp_step. wp_step. cbn [snd].
  rewrite (state_at_eq _ _ _ Ho). wp_step. wp_step. cbn [fst snd]. set (cross := match cross_account st with Some _ => _ | None => _ end).
  assert (cross = (cross_reserved_bytes st, cross_reserved_inodes st)) as ->.
  { unfold cross, backing in *. destruct (cross_process_enabled st); [destruct Hb as (a & -> & _ & Ea); exact Ea|by rewrite Hb]. }
  cbn [fst snd]. rewrite !Z.eqb_refl. cbn [negb orb]. wp_step. apply wp_zoom. cbn [whenM]. wp_step. wp_step. cbn [fst snd]. by rewrite (state_at_eq _ _ _ Ho), Hs.
Qed.

Lemma borrow_exact h g d s st (Q : result (option nat) -> nat -> governor -> Prop) : gov_ok None h g -> zget d (states g) = Some s -> state_ok None h g d s st ->
  (forall g', g' = on_state s (with_users 1) g -> gov_ok (Some s) h g' -> state_ok (Some s) h g' d s (with_users 1 st) -> Q (Ok (Some s)) 0%nat g') ->
  wp 0 (_borrow_state d None) Q g.
Proof.
  intros Hok Hd Hst HQ. pose proof Hst as [Ho Hs Hu Hx Hcb Hci Hv Hvi Hb]. unfold _borrow_state. wp_step. wp_step. rewrite Hd. wp_step. wp_step. wp_step. wp_step.
  apply wp_store; [|lia]. wp_step. rewrite (state_at_eq _ _ _ Ho), Hu. change ((if bool_decide (None = Some s) then 1 else 0) + 1) with 1.
  set (g' := on_state s (with_users 1) g).
  assert (Hst' : state_ok (Some s) h g' d s (with_users 1 st)).
  { split; cbn [with_users users corrupted reserved_bytes reserved_inodes capacity_bytes capacity_inodes cross_reserved_bytes cross_reserved_inodes]; [by apply on_state_eq|done|by rewrite bool_decide_eq_true_2|done..]. }
  wp_step. apply HQ; [done| |done].
  eapply (gov_ok_update None (Some s) h h g g' d s st (with_users 1 st)); try done; [intros s' Hne; by apply on_state_ne|apply (caps_ok_same g); [done|done|apply Hok]|apply Hok|]. intros s' Hne. naive_solver.
Qed.

(** The state of an idle device is retired. *)
Lemma gov_ok_pop h h' g d s st : gov_ok None h g -> zget d (states g) = Some s -> state_objects g !! s = Some st -> usage d g = (0, 0) ->
  sane h' -> (forall d' a, live h d' a -> cross_account st <> Some a -> live h' d' a /\ amounts h' a = amounts h a) ->
  gov_ok None h' (set_states (zpop d (states g)) g).
Proof.
  intros [_ Hcaps Hst Hdist Hacc Hback] Hd Hs Hz Hsane Hframe. set (g' := set_states _ g). assert (Hg : forall d' s', zget d' (states g') = Some s' -> d' <> d /\ zget d' (states g) = Some s').
  { intros d' s'. cbn [g' set_states states]. rewrite zget_zpop. by destruct (Z.eqb_spec d' d). }
  split; [done|by apply (caps_ok_same g)| | | |].
  - intros d' s' [Hne Hd']%Hg. destruct (Hst d' s' Hd') as (st1 & [Ho Hc Hu Hx Hcb Hci Hv Hvi Hbk]). exists st1. split; try done.
    unfold backing in *. destruct (cross_process_enabled st1); [|done]. destruct Hbk as (a & Ea & Hl & Ham). exists a. split; [done|].
    destruct (Hframe _ a Hl) as [Hl' Ham']; [|by rewrite Ham']. intros Ea'. assert (s' = s) as ->; [|by apply Hne; apply (Hdist _ _ s)].
    apply (Hacc d' d s' s a); [done|done|by rewrite (state_at_eq _ _ _ Ho)|by rewrite (state_at_eq _ _ _ Hs)].
  - intros d1 d2 s' [_ H1]%Hg [_ H2]%Hg. by apply (Hdist d1 d2 s').
  - intros d1 d2 s1 s2 a [_ H1]%Hg [_ H2]%Hg. by apply (Hacc d1 d2).
  - intros d' Hu. cbn [g' set_states states]. rewrite zget_zpop. destruct (Z.eqb_spec d' d) as [->|]; [by rewrite <- Hz in Hu|by apply Hback].
Qed.

(** An operation leaves the capabilities alone. *)
Definition same_caps (g g' : governor) : Prop := capabilities g' = capabilities g /\ capability_objects g' = capability_objects g
  /\ protocol_violations g' = protocol_violations g /\ orphaned_capability_hint g' = orphaned_capability_hint g.

Lemma same_caps_trans g1 g2 g3 : same_caps g1 g2 -> same_caps g2 g3 -> same_caps g1 g3.
Proof. unfold same_caps. intuition congruence. Qed.

Lemma state_ok_users b b' h g d s st n : state_ok b h g d s st -> n = (if bool_decide (b' = Some s) then 1 else 0) ->
  state_ok b' h (on_state s (with_users n) g) d s (with_users n st).
Proof.
  intros [Ho Hs Hu Hx Hcb Hci Hv Hvi Hb] ->. split; try done; by apply on_state_eq.
Qed.

Lemma gov_ok_users b b' h g d s st n : gov_ok b h g -> zget d (states g) = Some s -> state_ok b h g d s st -> n = (if bool_decide (b' = Some s) then 1 else 0) ->
  (forall s', s' <> s -> b' = Some s' <-> b = Some s') -> gov_ok b' h (on_state s (with_users n) g).
Proof.
  intros Hok Hd Hst Hn Hb. eapply (gov_ok_update b b' h h g _ d s st (with_users n st)); try done;
    [apply Hst|intros s' Hne; by apply on_state_ne|apply (caps_ok_same g); [done|done|apply Hok]|apply Hok|by eapply state_ok_users].
Qed.

Lemma return_exact h g d s (Q : result unit -> nat -> H * governor -> Prop) : gov_ok (Some s) h g -> zget d (states g) = Some s ->
  (forall h' g', gov_ok None h' g' -> same_caps g g' -> Q (Ok tt) 0%nat (h', g')) -> wp 0 (_return_state d s) Q (h, g).
Proof.
  intros Hok Hd HQ. destruct (go_states _ _ _ Hok d s Hd) as (st & Hst). pose proof Hst as [Ho _ Hu _ _ _ _ _ Hbk].
  rewrite bool_decide_eq_true_2 in Hu by done. unfold _return_state. wp_step. wp_step. cbn [snd]. rewrite (state_at_eq _ _ _ Ho), Hu. cbn [Z.leb Z.compare].
  wp_step. apply wp_zoom, wp_store; [|lia]. change (1 - 1) with 0. cbn [fst snd]. set (g1 := on_state s (with_users 0) g).
  assert (Hok1 : gov_ok None h g1) by (eapply gov_ok_users; [done..|naive_solver]). assert (Ho1 : state_objects g1 !! s = Some (with_users 0 st)) by (by apply on_state_eq).
  assert (Hg1 : same_caps g g1) by done. wp_step. wp_step. cbn [snd]. wp_step; [|by apply HQ]. cbn [idle] in *. unfold idle in *. rewrite (state_at_eq _ _ _ Ho1) in *.
  apply andb_prop in H0 as [H0 _]. rewrite !andb_true_iff, !Z.eqb_eq in H0. destruct H0 as ((((_ & Hb0) & Hn0) & Hcb0) & Hcn0).
  assert (Hz : usage d g1 = (0, 0)). { destruct (go_states _ _ _ Hok1 d s Hd) as (st' & [Ho' _ _ -> _ _ _ _ _]). rewrite Ho1 in Ho'. injection Ho' as <-. by rewrite Hb0, Hn0. }
  assert (Hend : forall h', sane h' -> (forall d' a, live h d' a -> cross_account st <> Some a -> live h' d' a /\ amounts h' a = amounts h a) ->
    Q (Ok tt) 0%nat (h', set_states (zpop d (states g1)) g1)).
  { intros h' Hs Hf. apply HQ; [|done]. by eapply (gov_ok_pop h h' g1 d s (with_users 0 st)). }
  wp_step. wp_step. cbn [snd]. rewrite (state_at_eq _ _ _ Ho1). cbn [with_users cross_account]. destruct (cross_account st) as [a|] eqn:Ea.
  - unfold backing in Hbk. destruct (cross_process_enabled st) eqn:Een; [|congruence]. destruct Hbk as (a' & Ea' & Hl & Ham). assert (a' = a) as -> by congruence. clear Ea'. wp_step. wp_step. wp_step. cbn [fst].
    rewrite (live_open _ _ _ Hl). wp_step. wp_step. wp_step. eapply wp0_mono; [apply (close_law h d a (go_sane _ _ _ Hok) Hl)|]. intros r h' (Hs' & Hf & Herr). destruct r as [[]|e].
    + wp_step. cbn [whenM]. apply wp_zoom, wp_store; [|lia]. apply Hend; [done|]. intros d' a' Hl' Hne. apply Hf; congruence.
    + wp_step. cbn [whenM]. wp_step. apply HQ; [|done]. destruct (Herr e eq_refl) as [Hl2 Ham2]. destruct (go_states _ _ _ Hok1 d s Hd) as (st' & Hst').
      assert (st' = with_users 0 st) as -> by (pose proof (so_object _ _ _ _ _ _ Hst'); congruence).
      eapply (gov_ok_update None None h h' g1 g1 d s (with_users 0 st) (with_users 0 st)); try done; [apply Hok1|intros d' a' Hl' Hne; apply Hf; [done|cbn in Hne; congruence]|].
      destruct Hst'. split; try done. unfold backing. cbn [with_users cross_process_enabled cross_account cross_reserved_bytes cross_reserved_inodes]. rewrite Een. exists a. by rewrite Ham2.
  - wp_step. wp_step. cbn [whenM]. apply wp_zoom, wp_store; [|lia]. apply Hend; [apply Hok|]. done.
Qed.

Lemma gov_ok_host b h h' g : gov_ok b h g -> sane h' -> (forall d' a, live h d' a -> live h' d' a /\ amounts h' a = amounts h a) -> gov_ok b h' g.
Proof.
  intros [_ Hcaps Hst Hdist Hacc Hback] Hs Hf. split; try done. intros d s Hd. destruct (Hst d s Hd) as (st & [Ho Hc Hu Hx Hcb Hci Hv Hvi Hbk]). exists st. split; try done.
  unfold backing in *. destruct (cross_process_enabled st); [|done]. destruct Hbk as (a & Ea & Hl & Ham). destruct (Hf _ a Hl) as [Hl' Ham']. exists a. by rewrite Ham'.
Qed.

(** A device without a state has nothing reserved. *)
Lemma stateless b h g d : gov_ok b h g -> zget d (states g) = None -> usage d g = (0, 0).
Proof. intros Hok Hd. destruct (decide (usage d g = (0, 0))) as [E|E]; [done|]. destruct (go_backed _ _ _ Hok d E) as [s Hs]. congruence. Qed.

(** A new state for a device, which its creator borrows. *)
Lemma gov_ok_add h g d v free account : gov_ok None h g -> zget d (states g) = None ->
  (if switch_on v then exists a, account = Some a /\ live h d a /\ amounts h a = (0, 0) else account = None) ->
  (forall d' s' a, zget d' (states g) = Some s' -> cross_account (state_at s' g) = Some a -> account <> Some a) ->
  let s := length (state_objects g) in
  let g' := set_states (states g ++ [(d, s)]) (set_state_objects (state_objects g ++ [fresh_state v free account 1]) g) in
  gov_ok (Some s) h g' /\ state_ok (Some s) h g' d s (fresh_state v free account 1).
Proof.
  intros Hok Hd Hacct Hnew s g'. pose proof (stateless _ _ _ _ Hok Hd) as Hz. destruct Hok as [Hsane Hcaps Hst Hdist Hacc Hback].
  assert (Hs : state_objects g' !! s = Some (fresh_state v free account 1)) by (cbn [g' set_states set_state_objects state_objects]; by rewrite lookup_app_r, Nat.sub_diag).
  assert (Hold : forall d' s', zget d' (states g) = Some s' -> s' <> s /\ state_objects g' !! s' = state_objects g !! s').
  { intros d' s' Hd'. destruct (Hst d' s' Hd') as (st & [Ho _ _ _ _ _ _ _ _]). apply lookup_lt_Some in Ho as Hlt. split; [unfold s; lia|]. cbn [g' set_states set_state_objects state_objects]. by rewrite lookup_app_l. }
  assert (Hget : forall d' s', zget d' (states g') = Some s' -> d' = d /\ s' = s \/ zget d' (states g) = Some s').
  { intros d' s'. cbn [g' set_states states]. rewrite zget_app. destruct (zget d' (states g)) eqn:E; [auto|]. destruct (Z.eqb_spec d d') as [->|]; [|done]. intros [= <-]. auto. }
  assert (Hfresh : state_ok (Some s) h g' d s (fresh_state v free account 1)).
  { split; try done; cbn; [by rewrite bool_decide_eq_true_2|unfold byte_headroom; lia|unfold inode_headroom; lia]. }
  assert (Hat : forall d' s', zget d' (states g) = Some s' -> state_at s' g' = state_at s' g) by (intros d' s' Hd'; unfold state_at; by destruct (Hold d' s' Hd') as [_ ->]).
  split; [|done]. split; [done|by apply (caps_ok_same g)| | | |].
  - intros d' s' [[-> ->]|Hd']%Hget; [by eexists|]. destruct (Hst d' s' Hd') as (st & [Ho Hc Hu Hx Hcb Hci Hv Hvi Hbk]), (Hold d' s' Hd') as [Hne Hsame]. exists st.
    split; [by rewrite Hsame|done| |done..]. rewrite Hu, !bool_decide_eq_false_2; [done|congruence|done].
  - intros d1 d2 s' [[-> E1]|H1]%Hget [[-> E2]|H2]%Hget; [done|rewrite E1 in H2; by destruct (Hold d2 s H2)|rewrite E2 in H1; by destruct (Hold d1 s H1)|by apply (Hdist d1 d2 s')].
  - intros d1 d2 s1 s2 a [[-> ->]|H1]%Hget [[-> ->]|H2]%Hget; [done|rewrite (state_at_eq _ _ _ Hs), (Hat _ _ H2)|rewrite (state_at_eq _ _ _ Hs), (Hat _ _ H1)|rewrite (Hat _ _ H1), (Hat _ _ H2); by apply (Hacc d1 d2)].
    + intros Ea Ea2. by destruct (Hnew _ _ _ H2 Ea2).
    + intros Ea1 Ea. by destruct (Hnew _ _ _ H1 Ea1).
  - intros d' Hu. cbn [g' set_states states]. rewrite zget_app. destruct (zget d' (states g)) eqn:E; [done|]. destruct (Hback d' Hu) as [s' Hs']. congruence.
Qed.

Lemma create_exact h g d v free (Q : result (option nat) -> nat -> H * governor -> Prop) : gov_ok None h g -> zget d (states g) = None ->
  (forall e h', gov_ok None h' g -> Q (Err e) 0%nat (h', g)) ->
  (forall s st h' g', gov_ok (Some s) h' g' -> zget d (states g') = Some s -> state_ok (Some s) h' g' d s st -> same_caps g g' -> Q (Ok (Some s)) 0%nat (h', g')) ->
  wp 0 (create_state v d free) Q (h, g).
Proof.
  intros Hok Hd Herr HQ. unfold create_state. wp_step.
  assert (Hrest : forall h' account, gov_ok None h' g -> (if switch_on v then exists a, account = Some a /\ live h' d a /\ amounts h' a = (0, 0) else account = None) ->
    (forall d' s' a, zget d' (states g) = Some s' -> cross_account (state_at s' g) = Some a -> account <> Some a) ->
    wp 0 (candidate ← reads (fun p : H * governor => length (state_objects (snd p)));
      onG (modify (fun g => set_state_objects (state_objects g ++ [fresh_state v free account 0]) g));;
      state ← onG (_borrow_state d (Some candidate));
      match account with Some a => whenM (negb (bool_decide (state = Some candidate))) (onS (close_account a)) | None => ret tt end;; ret state) Q (h', g)).
  { intros h' account Hok' Hacct Hnew. destruct (gov_ok_add h' g d v free account Hok' Hd Hacct Hnew) as [Hg1 Hst]. set (s := length (state_objects g)) in *.
    wp_step. wp_step. cbn [snd]. fold s. wp_step. apply wp_zoom. wp_step. cbn [fst snd]. wp_step. apply wp_zoom. cbn [fst snd]. unfold _borrow_state. wp_step. wp_step.
    cbn [set_state_objects states]. rewrite Hd. wp_step. wp_step. apply wp_store; [|lia]. wp_step. wp_step. wp_step. apply wp_store; [|lia].
    set (g0 := set_states _ _). assert (Ho : state_objects g0 !! s = Some (fresh_state v free account 0)) by (cbn [g0 set_states set_state_objects state_objects]; by rewrite lookup_app_r, Nat.sub_diag).
    rewrite (state_at_eq _ _ _ Ho). cbn [fresh_state users]. change (0 + 1) with 1.
    assert (Hg : on_state s (with_users 1) g0 = set_states (states g ++ [(d, s)]) (set_state_objects (state_objects g ++ [fresh_state v free account 1]) g)).
    { unfold on_state, g0, set_state_objects, set_states. cbn [state_objects capability_objects states capabilities next_capability protocol_violations orphaned_capability_hint].
      f_equal. rewrite alter_app_r_alt by (unfold s; lia). unfold s. by rewrite Nat.sub_diag. }
    rewrite Hg. wp_step. wp_step. cbn [fst snd]. assert (Hend : Q (Ok (Some s)) 0%nat (h', set_states (states g ++ [(d, s)]) (set_state_objects (state_objects g ++ [fresh_state v free account 1]) g))).
    { eapply HQ; [exact Hg1| |exact Hst|done]. cbn [set_states states]. by rewrite zget_app, Hd, Z.eqb_refl. }
    wp_step. destruct account as [a|]; [rewrite bool_decide_eq_true_2 by done; cbn [negb whenM]|]; wp_step; wp_step; exact Hend. }
  destruct (switch_on v) eqn:Esw; cbn [whenM].
  - wp_step. destruct (directory v) as [[]|e]; [|by apply Herr]. wp_step. wp_step. wp_step.
    eapply wp0_mono; [apply (open_law h d (go_sane _ _ _ Hok))|]. intros r h' (Hs' & Hf & Hnew).
    assert (Hok' : gov_ok None h' g) by (by eapply gov_ok_host). destruct r as [a|e]; [|by apply Herr]. wp_step. destruct (Hnew a eq_refl) as (Hl & Hnl & Ham).
    apply (Hrest h' (Some a)); [done|by exists a|]. intros d' s' a' Hd' Ea [= <-]. apply (Hnl d'). destruct (go_states _ _ _ Hok d' s' Hd') as (st & [Ho _ _ _ _ _ _ _ Hbk]).
    rewrite (state_at_eq _ _ _ Ho) in Ea. unfold backing in Hbk. destruct (cross_process_enabled st); [|congruence]. destruct Hbk as (a' & Ea' & Hl' & _). congruence.
  - wp_step. wp_step. wp_step. by apply (Hrest h None).
Qed.

(** A registered capability changes. *)
Lemma usage_on_cap d g t c cp f : NoDup (capabilities g).*2 -> (t, c) ∈ capabilities g -> capability_objects g !! c = Some cp ->
  usage d (on_cap c f g) = (fst (usage d g) - fst (hold d cp) + fst (hold d (f cp)), snd (usage d g) - snd (hold d cp) + snd (hold d (f cp))).
Proof.
  intros Hn Hin Hc. apply list_elem_of_split in Hin as (l1 & l2 & E). change (usage d ?g) with (usage_of d g (capabilities g)). change (capabilities (on_cap c f g)) with (capabilities g).
  rewrite E in *. rewrite fmap_app, fmap_cons in Hn. cbn [snd] in Hn. apply NoDup_app in Hn as (_ & H1 & [H2 _]%NoDup_cons).
  rewrite !usage_of_app, !usage_of_cons. rewrite (held_eq d g (t, c) cp Hc), (held_eq d (on_cap c f g) (t, c) (f cp)) by (by apply on_cap_eq).
  assert (Hext : forall l, c ∉ l.*2 -> usage_of d (on_cap c f g) l = usage_of d g l).
  { intros l Hl. apply usage_of_ext. intros [t' c'] Hin. apply held_ext. cbn [snd]. unfold cap_at. rewrite on_cap_ne; [done|]. intros ->. apply Hl. by apply (list_elem_of_fmap_2 snd) in Hin. }
  rewrite (Hext l1), (Hext l2); [cbn [fst snd]; f_equal; lia|done|]. intros Hl. apply (H1 c Hl). left.
Qed.

Lemma caps_ok_on_cap g c f : caps_ok g -> (forall cp, capability_objects g !! c = Some cp -> 0 <= cap_bytes cp -> 0 <= cap_inodes cp -> token (f cp) = token cp /\ 0 <= cap_bytes (f cp) /\ 0 <= cap_inodes (f cp)) ->
  caps_ok (on_cap c f g).
Proof.
  intros [H1 H2 H3] Hf. split; [done|done|]. change (capabilities (on_cap c f g)) with (capabilities g). eapply Forall_impl; [exact H3|]. intros [t c'] (cp & Hc & Ht & Hp & Hb & Hn). cbn [fst snd] in *.
  destruct (decide (c' = c)) as [->|Hne]; [|exists cp; cbn [fst snd]; by rewrite on_cap_ne]. destruct (Hf cp Hc Hb Hn) as (Et & Hb' & Hn'). exists (f cp). cbn [fst snd]. rewrite Et. split; [by apply on_cap_eq|done].
Qed.

(** What growth makes of a capability. *)
Definition grown_cap (d tb ti : Z) (cp : capability) : capability :=
  with_orphaned false (with_active true (with_cap_inodes ti (with_cap_bytes tb (with_device d cp)))).

(** The targets of a growth by [rb] and [ri] on device [d]. *)
Definition targets (d rb ri tb ti : Z) (cp : capability) : Prop :=
  if active cp then cap_device cp = d /\ tb = cap_bytes cp + rb /\ ti = cap_inodes cp + ri else tb = rb /\ ti = ri.

Lemma hold_grown d rb ri tb ti cp : targets d rb ri tb ti cp -> hold d (grown_cap d tb ti cp) = (fst (hold d cp) + rb, snd (hold d cp) + ri).
Proof.
  unfold targets, hold. cbn. rewrite Z.eqb_refl. destruct (active cp); cbn [andb]; [intros (-> & -> & ->); by rewrite Z.eqb_refl|by intros [-> ->]].
Qed.

Lemma hold_grown_other d d' rb ri tb ti cp : targets d rb ri tb ti cp -> d' <> d -> hold d' (grown_cap d tb ti cp) = hold d' cp.
Proof.
  unfold targets, hold. cbn. intros Ht Hne. rewrite (proj2 (Z.eqb_neq d d')) by congruence. destruct (active cp); cbn [andb]; [|done].
  destruct Ht as (-> & _). by rewrite (proj2 (Z.eqb_neq d d')) by congruence.
Qed.

Lemma grow_host_exact h g d v s st growth igrowth nr cap ni icap (Q : result unit -> nat -> H * governor -> Prop) : sane h -> state_objects g !! s = Some st -> backing h d st ->
  0 <= growth -> 0 <= igrowth ->
  (forall h', sane h' -> (forall d' a, live h d' a -> cross_account st <> Some a -> live h' d' a /\ amounts h' a = amounts h a) ->
    backing h' d (with_cross_inodes (cross_reserved_inodes st + igrowth) (with_cross (cross_reserved_bytes st + growth) st)) -> Q (Ok tt) 0%nat (h', g)) ->
  (forall e h', sane h' -> (forall d' a, live h d' a -> live h' d' a /\ amounts h' a = amounts h a) -> Q (Err e) 0%nat (h', g)) ->
  wp 0 (grow_host v s growth igrowth nr cap ni icap) Q (h, g).
Proof.
  intros Hs Ho Hbk Hg Hi HQ Herr. unfold grow_host. wp_step. wp_step. cbn [snd]. rewrite (state_at_eq _ _ _ Ho). wp_step. unfold backing in *.
  cbn [with_cross with_cross_inodes cross_process_enabled cross_account cross_reserved_bytes cross_reserved_inodes] in HQ. destruct (cross_process_enabled st); cbn [whenM].
  - destruct Hbk as (a & Ea & Hl & Ham). rewrite Ea in *. wp_step. wp_step. eapply wp0_mono; [by apply (reserve_law h d a growth cap igrowth icap)|].
    injection Ham as Hab Han. intros r h' (Hs' & Hf & Hr). destruct r as [z|e].
    + wp_step. apply HQ; [done| |].
      * intros d' a' Hl' Hne. destruct (Hf _ a' Hl') as [Hl2 Ha2]. split; [done|]. apply Ha2. congruence.
      * exists a. split; [done|]. destruct (Hf _ a Hl) as [Hl' _]. split; [done|]. by rewrite Hr, Hab, Han.
    + assert (Herr' : forall e, Q (Err e) 0%nat (h', g)). { intros e'. apply Herr; [done|]. intros d' a' Hl'. destruct (Hf _ a' Hl') as [Hl2 Ha2]. split; [done|]. destruct (decide (a' = a)) as [->|]; auto. }
      destruct (Disk.is_oserror e); wp_step; apply Herr'.
  - wp_step. apply HQ; [done|auto|done].
Qed.

(** The capabilities and the counters apart from one capability. *)
Record one_cap (c : nat) (f : capability -> capability) (g g' : governor) : Prop := {
  oc_list : capabilities g' = capabilities g;
  oc_objects : capability_objects g' = alter f c (capability_objects g);
  oc_violations : protocol_violations g' = protocol_violations g;
  oc_hint : orphaned_capability_hint g' = orphaned_capability_hint g;
}.

Lemma one_cap_usage d c f g g' : one_cap c f g g' -> usage d g' = usage d (on_cap c f g).
Proof. intros [E1 E2 _ _]. by apply usage_same. Qed.

Lemma one_cap_ok c f g g' : one_cap c f g g' -> caps_ok (on_cap c f g) -> caps_ok g'.
Proof. intros [E1 E2 _ _]. by apply caps_ok_same. Qed.

Lemma alter_at {A} (f f' : A -> A) (i : nat) (l : list A) x : l !! i = Some x -> f x = f' x -> alter f i l = alter f' i l.
Proof. revert i. induction l as [|y l IH]; intros [|i] E Ef; try done; cbn in *; [by injection E as ->; rewrite Ef|]. f_equal. by apply IH. Qed.

(** The state after the commit of a growth. *)
Definition grown_state (growth igrowth nr ni : Z) (st : filesystem_state) : filesystem_state :=
  with_peak_inodes (Z.max (peak_reserved_inodes st) ni) (with_reserved_inodes ni (with_peak (Z.max (peak_reserved_bytes st) nr) (with_reserved nr
    (with_cross_inodes (cross_reserved_inodes st + igrowth) (with_cross (cross_reserved_bytes st + growth) st))))).

Lemma growth_stores h g c s d growth igrowth nr ni tb ti st (Q : result unit -> nat -> H * governor -> Prop) : state_objects g !! s = Some st ->
  (forall g', states g' = states g -> state_objects g' = alter (grown_state growth igrowth nr ni) s (state_objects g) -> one_cap c (grown_cap d tb ti) g g' -> Q (Ok tt) 0%nat (h, g')) ->
  wp 0 (onG (
        store (fun g => on_state s (with_cross (cross_reserved_bytes (state_at s g) + growth)) g);;
        store (fun g => on_state s (with_cross_inodes (cross_reserved_inodes (state_at s g) + igrowth)) g);;
        store (on_state s (with_reserved nr));;
        store (fun g => on_state s (with_peak (Z.max (peak_reserved_bytes (state_at s g)) nr)) g);;
        store (on_state s (with_reserved_inodes ni));;
        store (fun g => on_state s (with_peak_inodes (Z.max (peak_reserved_inodes (state_at s g)) ni)) g);;
        store (on_cap c (with_device d));;
        store (on_cap c (with_cap_bytes tb));;
        store (on_cap c (with_cap_inodes ti));;
        store (on_cap c (with_active true));;
        store (on_cap c (with_orphaned false)))) Q (h, g).
Proof.
  intros Ho HQ. apply wp_zoom. cbn [fst snd].
  wp_step. apply wp_store; [|lia]. rewrite (state_at_eq _ _ _ Ho). assert (H1 := on_state_eq s (with_cross (cross_reserved_bytes st + growth)) g st Ho). set (g1 := on_state s _ g) in *.
  wp_step. apply wp_store; [|lia]. rewrite (state_at_eq _ _ _ H1). assert (H2 := on_state_eq s (with_cross_inodes (cross_reserved_inodes st + igrowth)) g1 _ H1). set (g2 := on_state s _ g1) in *.
  wp_step. apply wp_store; [|lia]. assert (H3 := on_state_eq s (with_reserved nr) g2 _ H2). set (g3 := on_state s _ g2) in *.
  wp_step. apply wp_store; [|lia]. rewrite (state_at_eq _ _ _ H3). assert (H4 := on_state_eq s (with_peak (Z.max (peak_reserved_bytes st) nr)) g3 _ H3). set (g4 := on_state s _ g3) in *.
  wp_step. apply wp_store; [|lia]. assert (H5 := on_state_eq s (with_reserved_inodes ni) g4 _ H4). set (g5 := on_state s _ g4) in *.
  wp_step. apply wp_store; [|lia]. rewrite (state_at_eq _ _ _ H5). do 4 (wp_step; apply wp_store; [|lia]). apply wp_store; [|lia].
  apply HQ; [done| |split; try done].
  - cbn [on_cap set_capability_objects state_objects on_state set_state_objects]. subst g5 g4 g3 g2 g1. cbn [on_state set_state_objects state_objects].
    rewrite !list_alter_alter_eq. by eapply alter_at.
  - cbn [on_cap set_capability_objects capability_objects]. by rewrite !list_alter_alter_eq.
Qed.

(** What the file system allows. *)
Definition allowed (v : view) (free rb ri : Z) (st : filesystem_state) : Prop :=
  reserved_bytes st + rb <= Z.min (capacity_bytes st) (reserved_bytes st + byte_headroom free (floor_now v))
  /\ reserved_inodes st + ri <= Z.min (capacity_inodes st) (reserved_inodes st + inode_headroom (free_inodes (statvfs v))).

Lemma gov_ok_grown h h' g g' d s st t c cp rb ri tb ti growth igrowth : gov_ok (Some s) h g -> zget d (states g) = Some s -> state_ok (Some s) h g d s st ->
  (t, c) ∈ capabilities g -> capability_objects g !! c = Some cp -> targets d rb ri tb ti cp -> 0 <= rb -> 0 <= ri ->
  reserved_bytes st + rb <= capacity_bytes st -> reserved_inodes st + ri <= capacity_inodes st ->
  reserved_bytes st + rb <= cross_reserved_bytes st + growth -> reserved_inodes st + ri <= cross_reserved_inodes st + igrowth ->
  sane h' -> (forall d' a, live h d' a -> cross_account st <> Some a -> live h' d' a /\ amounts h' a = amounts h a) ->
  backing h' d (with_cross_inodes (cross_reserved_inodes st + igrowth) (with_cross (cross_reserved_bytes st + growth) st)) ->
  states g' = states g -> state_objects g' = alter (grown_state growth igrowth (reserved_bytes st + rb) (reserved_inodes st + ri)) s (state_objects g) ->
  one_cap c (grown_cap d tb ti) g g' -> gov_ok (Some s) h' g'.
Proof.
  intros Hok Hd Hst Hin Hc Ht Hrb Hri Hcb Hci Hvb Hvi Hs' Hf Hbk Est Eobj Hone. pose proof (go_caps _ _ _ Hok) as Hcaps. pose proof Hcaps as [_ Hn2 He]. rewrite Forall_forall in He.
  destruct (He _ Hin) as (cp' & Hc' & _ & _ & Hb & Hn). cbn [snd] in Hc'. assert (cp' = cp) as -> by congruence. destruct Hst as [Ho Hsd Hu Hx _ _ _ _ _].
  assert (Hus : forall d', usage d' g' = (fst (usage d' g) - fst (hold d' cp) + fst (hold d' (grown_cap d tb ti cp)), snd (usage d' g) - snd (hold d' cp) + snd (hold d' (grown_cap d tb ti cp)))).
  { intros d'. rewrite (one_cap_usage _ _ _ _ _ Hone). by apply (usage_on_cap d' g t c cp). }
  eapply (gov_ok_update (Some s) (Some s) h h' g g' d s st (grown_state growth igrowth (reserved_bytes st + rb) (reserved_inodes st + ri) st)); try done.
  - intros s' Hne. rewrite Eobj. by rewrite list_lookup_alter_ne.
  - apply (one_cap_ok _ _ _ _ Hone), caps_ok_on_cap; [done|]. intros cp' Hcp' _ _. assert (cp' = cp) as -> by congruence. cbn. unfold targets in Ht. destruct (active cp); lia.
  - intros d' Hne. rewrite Hus, (hold_grown_other d d' rb ri tb ti) by done. destruct (usage d' g). cbn [fst snd]. f_equal; lia.
  - split; cbn [grown_state with_peak_inodes with_reserved_inodes with_peak with_reserved with_cross_inodes with_cross corrupted users reserved_bytes reserved_inodes capacity_bytes capacity_inodes cross_reserved_bytes cross_reserved_inodes]; try done.
    + by rewrite Eobj, list_lookup_alter_eq, Ho.
    + rewrite Hus, (hold_grown d rb ri tb ti) by done. rewrite Hx. cbn [fst snd]. f_equal; lia.
Qed.

Lemma commit_growth_exact h g v c s d free rb ri tb ti st t cp (Q : result unit -> nat -> H * governor -> Prop) :
  gov_ok (Some s) h g -> zget d (states g) = Some s -> state_ok (Some s) h g d s st -> (t, c) ∈ capabilities g -> capability_objects g !! c = Some cp ->
  targets d rb ri tb ti cp -> 0 <= rb -> 0 <= ri ->
  (forall h' g', gov_ok (Some s) h' g' -> states g' = states g -> one_cap c (grown_cap d tb ti) g g' -> allowed v free rb ri st -> Q (Ok tt) 0%nat (h', g')) ->
  (forall e h', gov_ok (Some s) h' g -> Q (Err e) 0%nat (h', g)) ->
  wp 0 (commit_growth v c s d free rb ri tb ti) Q (h, g).
Proof.
  intros Hok Hd Hst Hin Hc Ht Hrb Hri HQ Herr. unfold commit_growth. wp_step. eapply reconcile_exact; [apply Hok|exact Hst|]. cbn [negb]. wp_step. wp_step. cbn [snd].
  pose proof Hst as [Ho _ _ _ _ _ Hv Hvi Hbk]. rewrite (state_at_eq _ _ _ Ho).
  destruct (Z.ltb_spec (Z.min (capacity_bytes st) (reserved_bytes st + byte_headroom free (floor_now v))) (reserved_bytes st + rb)) as [|Hb]; [wp_step; by apply Herr|].
  destruct (Z.ltb_spec (Z.min (capacity_inodes st) (reserved_inodes st + inode_headroom (free_inodes (statvfs v)))) (reserved_inodes st + ri)) as [|Hi]; [wp_step; by apply Herr|].
  wp_step. eapply grow_host_exact; [apply Hok|exact Ho|exact Hbk|lia|lia| |].
  - intros h' Hs' Hf Hbk'. eapply growth_stores; [exact Ho|]. intros g' Est Eobj Hone. apply HQ; [|done|done|done].
    eapply (gov_ok_grown h h' g g' d s st t c cp rb ri tb ti); try done; lia.
  - intros e h' Hs' Hf. apply Herr. by eapply gov_ok_host.
Qed.

(** The capabilities change, but not what they hold. *)
Lemma gov_ok_caps b h g g' : gov_ok b h g -> states g' = states g -> state_objects g' = state_objects g -> caps_ok g' -> (forall d, usage d g' = usage d g) -> gov_ok b h g'.
Proof.
  intros [Hs _ Hst Hdist Hacc Hback] Es Eo Hcaps Hus. split; [done|done|..]; rewrite ?Es; [|done| |].
  - intros d s Hd. destruct (Hst d s Hd) as (st & [Ho ? ? ? ? ? ? ? ?]). exists st. split; try done; [by rewrite Eo|by rewrite Hus].
  - intros *. unfold state_at. rewrite Eo. apply Hacc.
  - intros d. rewrite Hus. apply Hback.
Qed.

Lemma one_cap_trans c f f' g g1 g2 : one_cap c f g g1 -> one_cap c f' g1 g2 -> one_cap c (f' ∘ f) g g2.
Proof. intros [A1 A2 A3 A4] [B1 B2 B3 B4]. split; [congruence| |congruence..]. by rewrite B2, A2, list_alter_alter_eq. Qed.

Lemma one_cap_same_l c f g g1 g2 : same_caps g g1 -> one_cap c f g1 g2 -> one_cap c f g g2.
Proof. intros (A1 & A2 & A3 & A4) [B1 B2 B3 B4]. split; congruence. Qed.

Lemma one_cap_same_r c f g g1 g2 : one_cap c f g g1 -> same_caps g1 g2 -> one_cap c f g g2.
Proof. intros [A1 A2 A3 A4] (B1 & B2 & B3 & B4). split; congruence. Qed.

(** A capability that is under construction holds nothing yet. *)
Definition unused (cp : capability) : Prop := active cp = false -> cap_bytes cp = 0 /\ cap_inodes cp = 0.

(** A growth has been committed for the capability. *)
Record growth_done (v : view) (c : nat) (rb ri : Z) (cp : capability) (g : governor) (h' : H) (g' : governor) : Prop := {
  gd_ok : gov_ok None h' g';
  gd_place : exists d free tb ti, located v = Ok (d, free) /\ targets d rb ri tb ti cp /\ one_cap c (grown_cap d tb ti) g g'
    /\ (rb = 0 /\ ri = 0 \/ rb <= byte_headroom free (floor_now v) /\ ri <= inode_headroom (free_inodes (statvfs v)));
  gd_request : 0 <= rb /\ 0 <= ri;
}.

Lemma growth_exact h g v c rb ri t cp (Q : result unit -> nat -> H * governor -> Prop) : gov_ok None h g -> (t, c) ∈ capabilities g -> capability_objects g !! c = Some cp -> unused cp ->
  (forall e h' g', gov_ok None h' g' -> same_caps g g' -> Q (Err e) 0%nat (h', g')) ->
  (forall r h' g', growth_done v c rb ri cp g h' g' -> Q r 0%nat (h', g')) ->
  wp 0 (_reserve_capability_growth v c rb ri) Q (h, g).
Proof.
  intros Hok Hin Hc Hun Herr HQ. assert (Hno : forall e, Q (Err e) 0%nat (h, g)) by (intros e; by apply Herr). unfold _reserve_capability_growth.
  destruct (_ || _) eqn:Hneg; [wp_step; apply Hno|]. apply orb_false_iff in Hneg as [Hrb%Z.ltb_ge Hri%Z.ltb_ge]. wp_step. wp_step. destruct (located v) as [[d free]|e] eqn:Hloc; [|apply Hno].
  wp_step. wp_step. cbn [fst snd]. rewrite (cap_at_eq _ _ _ Hc). destruct (active cp && negb (cap_device cp =? d)) eqn:Hdev; [wp_step; apply Hno|]. set (tb := if active cp then _ else rb). set (ti := if active cp then _ else ri).
  assert (Ht : targets d rb ri tb ti cp).
  { unfold targets, tb, ti. destruct (active cp); [|done]. cbn [andb] in Hdev. by apply negb_false_iff, Z.eqb_eq in Hdev. }
  pose proof (go_caps _ _ _ Hok) as Hcaps. pose proof Hcaps as [_ Hn2 He]. rewrite Forall_forall in He. destruct (He _ Hin) as (cp' & Hc' & _ & _ & Hb & Hn). cbn [snd] in Hc'. assert (cp' = cp) as -> by congruence.
  destruct ((rb =? 0) && (ri =? 0)) eqn:Hz.
  - apply andb_prop in Hz as [Eb%Z.eqb_eq En%Z.eqb_eq]. apply wp_zoom. cbn [fst snd]. do 2 (wp_step; apply wp_store; [|lia]). apply wp_store; [|lia]. set (g' := on_cap c _ _).
    assert (Hone : one_cap c (grown_cap d tb ti) g g').
    { split; try done. cbn [g' on_cap set_capability_objects capability_objects]. rewrite !list_alter_alter_eq. eapply alter_at; [exact Hc|]. unfold compose, grown_cap, tb, ti. rewrite Eb, En, !Z.add_0_r.
      destruct (active cp) eqn:Ea; [by destruct cp|]. destruct (Hun Ea) as [E1 E2]. destruct cp. cbn in *. by subst. }
    apply HQ. split; [|exists d, free, tb, ti; (split; [done|split; [done|split; [done|by left]]])|done]. apply (gov_ok_caps None h g); try done.
    + apply (one_cap_ok _ _ _ _ Hone), caps_ok_on_cap; [done|]. intros cp' Hcp' _ _. assert (cp' = cp) as -> by congruence. cbn. unfold targets in Ht. destruct (active cp); lia.
    + intros d'. rewrite (one_cap_usage _ _ _ _ _ Hone), (usage_on_cap d' g t c cp) by done. destruct (decide (d' = d)) as [->|Hne].
      * rewrite (hold_grown d rb ri tb ti) by done. rewrite Eb, En. destruct (usage d g). cbn [fst snd]. f_equal; lia.
      * rewrite (hold_grown_other d d' rb ri tb ti) by done. destruct (usage d' g). cbn [fst snd]. f_equal; lia.
  - assert (Hrest : forall s st h1 g1, gov_ok (Some s) h1 g1 -> zget d (states g1) = Some s -> state_ok (Some s) h1 g1 d s st -> same_caps g g1 ->
      wp 0 (with_exit (commit_growth v c s d free rb ri tb ti) (_return_state d s);; liftR (telemetry v)) Q (h1, g1)).
    { intros s st h1 g1 Hok1 Hd1 Hst1 Hsame. pose proof Hsame as (E1 & E2 & _ & _). wp_step. unfold with_exit. wp_step. wp_step.
      eapply (commit_growth_exact h1 g1 v c s d free rb ri tb ti st t cp); try done; [by rewrite E1|by rewrite E2| |].
      - intros h2 g2 Hok2 Est2 Hone [Hab Hai]. wp_step. eapply return_exact; [exact Hok2|by rewrite Est2|]. intros h3 g3 Hok3 Hsame3. wp_step. wp_step. apply HQ. split; [done| |done].
        exists d, free, tb, ti. split; [done|split; [done|split; [|right; lia]]]. eapply one_cap_same_r; [|exact Hsame3]. by eapply one_cap_same_l.
      - intros e h2 Hok2. wp_step. eapply return_exact; [exact Hok2|done|]. intros h3 g3 Hok3 Hsame3. wp_step. apply Herr; [done|]. by eapply same_caps_trans. }
    wp_step. apply wp_zoom. cbn [fst snd]. destruct (zget d (states g)) as [s|] eqn:Hd.
    + destruct (go_states _ _ _ Hok d s Hd) as (st & Hst). eapply borrow_exact; [exact Hok|exact Hd|exact Hst|]. intros g1 -> Hok1 Hst1. wp_step. wp_step. by eapply Hrest.
    + unfold _borrow_state. wp_step. wp_step. rewrite Hd. wp_step. wp_step. wp_step. wp_step. wp_step. wp_step. eapply create_exact; [exact Hok|exact Hd| |].
      * intros e h1 Hok1. by apply Herr.
      * intros s st h1 g1 Hok1 Hd1 Hst1 Hsame. by eapply Hrest.
Qed.

(** *** Release *)

Lemma host_release_range q next cross : 0 <= next <= cross -> 0 <= host_release q next cross <= cross /\ next <= cross - host_release q next cross.
Proof. intros Hn. unfold host_release. destruct (_ || _); lia. Qed.

Lemma shrink_host_exact h g d s st rb ri (Q : result (option exn) -> nat -> H * governor -> Prop) : sane h -> state_objects g !! s = Some st -> backing h d st ->
  0 <= rb <= cross_reserved_bytes st -> 0 <= ri <= cross_reserved_inodes st ->
  (forall post h', sane h' -> (forall d' a, live h d' a -> cross_account st <> Some a -> live h' d' a /\ amounts h' a = amounts h a) ->
    backing h' d (with_cross_inodes (cross_reserved_inodes st - ri) (with_cross (cross_reserved_bytes st - rb) st)) -> Q (Ok post) 0%nat (h', g)) ->
  (forall e h', sane h' -> (forall d' a, live h d' a -> live h' d' a /\ amounts h' a = amounts h a) -> Q (Err e) 0%nat (h', g)) ->
  wp 0 (shrink_host s rb ri (cross_reserved_bytes st - rb) (cross_reserved_inodes st - ri)) Q (h, g).
Proof.
  intros Hs Ho Hbk Hrb Hri HQ Herr. unfold shrink_host. wp_step. wp_step. cbn [snd]. rewrite (state_at_eq _ _ _ Ho). unfold backing in *.
  cbn [with_cross with_cross_inodes cross_process_enabled cross_account cross_reserved_bytes cross_reserved_inodes] in HQ.
  destruct (cross_process_enabled st); cbn [andb]; [|wp_step; apply HQ; auto]. destruct Hbk as (a & Ea & Hl & Ham). injection Ham as Hab Han. rewrite Ea in *.
  destruct (negb (rb =? 0) || negb (ri =? 0)) eqn:Hz.
  - wp_step. wp_step. wp_step. eapply wp0_mono; [apply (release_law h d a rb ri); [done|done|by rewrite Hab|by rewrite Han]|].
    intros r h' (Hs' & Hf & Hr). rewrite Hab, Han in Hr.
    assert (Hok : forall post, amounts h' a = (cross_reserved_bytes st - rb, cross_reserved_inodes st - ri) -> Q (Ok post) 0%nat (h', g)).
    { intros post E. apply HQ; [done| |].
      - intros d' a' Hl' Hne. destruct (Hf _ a' Hl') as [Hl2 Ha2]. split; [done|]. apply Ha2. congruence.
      - exists a. split; [done|]. destruct (Hf _ a Hl) as [Hl' _]. done. }
    destruct r as [z|e]; [wp_step; by apply Hok|]. wp_step. wp_step. cbn [fst]. unfold _cross_release_committed. destruct Hr as [E|[E Hp]].
    + assert (account_bytes h' a = cross_reserved_bytes st /\ account_inodes h' a = cross_reserved_inodes st) as [-> ->] by (unfold amounts in E; injection E as -> ->; done).
      assert ((cross_reserved_bytes st =? cross_reserved_bytes st - rb) && (cross_reserved_inodes st =? cross_reserved_inodes st - ri) = false) as -> by lia. cbn [andb].
      wp_step. apply Herr; [done|]. intros d' a' Hl'. destruct (Hf _ a' Hl') as [Hl2 Ha2]. split; [done|]. destruct (decide (a' = a)) as [->|]; auto.
    + pose proof E as E'. unfold amounts in E'. injection E' as -> ->. rewrite !Z.eqb_refl, Hp. cbn [andb]. wp_step. by apply Hok.
  - apply orb_false_iff in Hz as [->%negb_false_iff%Z.eqb_eq ->%negb_false_iff%Z.eqb_eq]. wp_step. apply HQ; [done|auto|]. exists a. rewrite !Z.sub_0_r. split; [done|]. unfold amounts. by rewrite Hab, Han.
Qed.

(** What a release leaves in the state. *)
Definition shrunk_state (ncb nci nr ni : Z) (st : filesystem_state) : filesystem_state :=
  with_reserved_inodes ni (with_reserved nr (with_cross_inodes nci (with_cross ncb st))).

Definition emptied (tb ti : Z) (cp : capability) : capability := with_cap_inodes ti (with_cap_bytes tb cp).

Lemma gov_ok_shrunk h h' g g' d s st t c cp rb ri ncb nci tb ti : gov_ok (Some s) h g -> zget d (states g) = Some s -> state_ok (Some s) h g d s st ->
  (t, c) ∈ capabilities g -> capability_objects g !! c = Some cp -> active cp = true -> cap_device cp = d -> 0 <= tb -> 0 <= ti -> tb = cap_bytes cp - rb -> ti = cap_inodes cp - ri -> 0 <= rb -> 0 <= ri ->
  reserved_bytes st - rb <= ncb -> reserved_inodes st - ri <= nci ->
  sane h' -> (forall d' a, live h d' a -> cross_account st <> Some a -> live h' d' a /\ amounts h' a = amounts h a) ->
  backing h' d (with_cross_inodes nci (with_cross ncb st)) ->
  states g' = states g -> state_objects g' = alter (shrunk_state ncb nci (reserved_bytes st - rb) (reserved_inodes st - ri)) s (state_objects g) ->
  one_cap c (emptied tb ti) g g' -> gov_ok (Some s) h' g'.
Proof.
  intros Hok Hd Hst Hin Hc Hact Hdev Htb Hti Etb Eti Hrb Hri Hvb Hvi Hs' Hf Hbk Est Eobj Hone. pose proof (go_caps _ _ _ Hok) as Hcaps. pose proof Hcaps as [_ Hn2 He].
  destruct Hst as [Ho Hsd Hu Hx Hcb Hci _ _ _].
  assert (Hus : forall d', usage d' g' = (fst (usage d' g) - fst (hold d' cp) + fst (hold d' (emptied tb ti cp)), snd (usage d' g) - snd (hold d' cp) + snd (hold d' (emptied tb ti cp)))).
  { intros d'. rewrite (one_cap_usage _ _ _ _ _ Hone). by apply (usage_on_cap d' g t c cp). }
  assert (Hh : forall d', hold d' (emptied tb ti cp) = if d' =? d then (tb, ti) else hold d' cp).
  { intros d'. unfold hold. cbn. rewrite Hact, Hdev, (Z.eqb_sym d'). cbn [andb]. by destruct (d =? d'). }
  eapply (gov_ok_update (Some s) (Some s) h h' g g' d s st (shrunk_state ncb nci (reserved_bytes st - rb) (reserved_inodes st - ri) st)); try done.
  - intros s' Hne. rewrite Eobj. by rewrite list_lookup_alter_ne.
  - apply (one_cap_ok _ _ _ _ Hone), caps_ok_on_cap; [done|]. intros cp' Hcp' _ _. by assert (cp' = cp) as -> by congruence.
  - intros d' Hne. rewrite Hus, Hh, (proj2 (Z.eqb_neq _ _)) by done. destruct (usage d' g). cbn [fst snd]. f_equal; lia.
  - split; cbn [shrunk_state with_reserved_inodes with_reserved with_cross_inodes with_cross corrupted users reserved_bytes reserved_inodes capacity_bytes capacity_inodes cross_reserved_bytes cross_reserved_inodes]; try done; try lia.
    + by rewrite Eobj, list_lookup_alter_eq, Ho.
    + rewrite Hus, Hh, Z.eqb_refl, Hx. unfold hold. rewrite Hact, Hdev, Z.eqb_refl. cbn [fst snd andb]. f_equal; lia.
Qed.

Lemma commit_release_exact h g d s c st t cp l (Q : result bool -> nat -> (H * governor) * locals -> Prop) :
  gov_ok (Some s) h g -> zget d (states g) = Some s -> state_ok (Some s) h g d s st -> (t, c) ∈ capabilities g -> capability_objects g !! c = Some cp ->
  active cp = true -> cap_device cp = d ->
  (forall post h' g', gov_ok (Some s) h' g' -> states g' = states g -> one_cap c (emptied 0 0) g g' -> Q (Ok true) 0%nat ((h', g'), (true, post))) ->
  (forall e h', gov_ok (Some s) h' g -> Q (Err e) 0%nat ((h', g), l)) ->
  wp 0 (commit_release d s c (cap_bytes cp) (cap_inodes cp)) Q ((h, g), l).
Proof.
  intros Hok Hd Hst Hin Hc Hact Hdev HQ Herr. unfold commit_release, locally, set_post, set_committed. wp_step. apply wp_onS. eapply reconcile_exact; [apply Hok|exact Hst|]. wp_step. wp_step. cbn [fst snd].
  pose proof Hst as [Ho _ _ Hx _ _ Hv Hvi Hbk]. rewrite (state_at_eq _ _ _ Ho), (cap_at_eq _ _ _ Hc), Hact. cbn [negb].
  pose proof (go_caps _ _ _ Hok) as [_ Hn2 He]. rewrite Forall_forall in He. destruct (He _ Hin) as (cp' & Hc' & _ & _ & Hb & Hn). cbn [snd] in Hc'. assert (cp' = cp) as -> by congruence.
  assert (Hle : cap_bytes cp <= reserved_bytes st /\ cap_inodes cp <= reserved_inodes st).
  { pose proof (usage_on_cap d g t c cp (emptied 0 0) Hn2 Hin Hc) as E. assert (caps_ok (on_cap c (emptied 0 0) g)) as Hcaps by (apply caps_ok_on_cap; [apply Hok|done]).
    destruct (usage_nonneg d _ Hcaps) as [P1 P2]. rewrite E, Hx in P1, P2. unfold hold in P1, P2. cbn [emptied with_cap_bytes with_cap_inodes active cap_device cap_bytes cap_inodes] in P1, P2.
    rewrite Hact, Hdev, Z.eqb_refl in P1, P2. cbn [andb fst snd] in P1, P2. lia. }
  rewrite !(proj2 (Z.ltb_ge _ _)) by lia. cbn [orb]. set (nr := reserved_bytes st - cap_bytes cp). set (ni := reserved_inodes st - cap_inodes cp).
  destruct (host_release_range _CROSS_PROCESS_SHRINK_QUANTUM_BYTES nr (cross_reserved_bytes st)) as [Hrb Hnb]; [unfold nr; lia|].
  destruct (host_release_range _CROSS_PROCESS_SHRINK_QUANTUM_INODES ni (cross_reserved_inodes st)) as [Hri Hni]; [unfold ni; lia|].
  set (rb := host_release _ nr _) in *. set (ri := host_release _ ni _) in *. rewrite !Z.max_r by lia.
  wp_step. apply wp_onS. eapply shrink_host_exact; [apply Hok|exact Ho|exact Hbk|done|done| |].
  - intros post h' Hs' Hf Hbk'. wp_step. wp_step. cbn [fst snd]. wp_step. apply wp_onS, wp_zoom. cbn [fst snd]. do 5 (wp_step; apply wp_store; [|lia]). apply wp_store; [|lia].
    set (g' := on_cap c _ _). wp_step. apply wp_store; [|lia]. cbn [fst snd]. wp_step. apply wp_tick; [|lia]. wp_step.
    assert (Hone : one_cap c (emptied 0 0) g g') by (split; try done; cbn [g' on_cap set_capability_objects capability_objects]; by rewrite !list_alter_alter_eq).
    apply HQ; [|done|done]. eapply (gov_ok_shrunk h h' g g' d s st t c cp (cap_bytes cp) (cap_inodes cp) (cross_reserved_bytes st - rb) (cross_reserved_inodes st - ri) 0 0); try done; try lia.
    cbn [g' on_cap set_capability_objects state_objects on_state set_state_objects]. by rewrite !list_alter_alter_eq.
  - intros e h' Hs' Hf. apply Herr. by eapply gov_ok_host.
Qed.

(** *** Capabilities between the operations *)

Record quiet (g : governor) : Prop := {
  qu_registered : forall t c, (t, c) ∈ capabilities g -> active (cap_at c g) = true /\ inflight (cap_at c g) = false;
  qu_rest : forall c cp, capability_objects g !! c = Some cp -> active cp = true -> (token cp, c) ∈ capabilities g;
}.

Lemma registered_elem g c cp : caps_ok g -> capability_objects g !! c = Some cp -> registered c g = true <-> (token cp, c) ∈ capabilities g.
Proof.
  intros [Hn _ _] Hc. unfold registered. rewrite (cap_at_eq _ _ _ Hc). split.
  - destruct (zget (token cp) (capabilities g)) as [c'|] eqn:E; [|done]. intros ->%Nat.eqb_eq. by apply zget_elem.
  - intros Hin. rewrite (elem_zget _ _ _ Hn Hin). apply Nat.eqb_refl.
Qed.

(** An entry names its capability's token. *)
Lemma entry_token g t c cp : caps_ok g -> (t, c) ∈ capabilities g -> capability_objects g !! c = Some cp -> token cp = t.
Proof. intros [_ _ He] Hin Hc. rewrite Forall_forall in He. destruct (He _ Hin) as (cp' & Hc' & Ht & _). cbn [fst snd] in *. congruence. Qed.

Lemma entry_object g t c : caps_ok g -> (t, c) ∈ capabilities g -> exists cp, capability_objects g !! c = Some cp /\ token cp = t /\ 0 <= cap_bytes cp /\ 0 <= cap_inodes cp.
Proof. intros [_ _ He] Hin. rewrite Forall_forall in He. destruct (He _ Hin) as (cp & ? & ? & ? & ? & ?). exists cp. auto. Qed.

Lemma zpop_split t c l : NoDup l.*1 -> (t, c) ∈ l -> exists l1 l2, l = l1 ++ (t, c) :: l2 /\ zpop t l = l1 ++ l2.
Proof.
  intros Hn (l1 & l2 & ->)%list_elem_of_split. exists l1, l2. split; [done|]. rewrite fmap_app, fmap_cons in Hn. cbn [fst] in Hn. apply NoDup_app in Hn as (_ & H1 & [H2 _]%NoDup_cons).
  assert (Hno : forall l, t ∉ l.*1 -> zpop t l = l).
  { induction l as [|[j v] l IH]; [done|]. rewrite fmap_cons. cbn [fst]. intros [Hne Hl]%not_elem_of_cons. unfold zpop in *. cbn [List.filter fst].
    rewrite (proj2 (Z.eqb_neq j t)) by congruence. cbn [negb]. by rewrite IH. }
  unfold zpop in *. rewrite List.filter_app. cbn [List.filter fst]. rewrite Z.eqb_refl. cbn [negb]. rewrite !Hno; [done|done|]. intros Hin. apply (H1 _ Hin). left.
Qed.

(** The entry of a capability goes, and the object changes with it. *)
Record dropped (t : Z) (c : nat) (f : capability -> capability) (g g' : governor) : Prop := {
  dr_list : capabilities g' = zpop t (capabilities g);
  dr_objects : capability_objects g' = alter f c (capability_objects g);
  dr_violations : protocol_violations g' = protocol_violations g;
  dr_hint : orphaned_capability_hint g' = orphaned_capability_hint g;
}.

Lemma dropped_caps t c f g g' : caps_ok g -> (t, c) ∈ capabilities g -> dropped t c f g g' ->
  caps_ok g' /\ (forall d cp, capability_objects g !! c = Some cp -> usage d g' = (fst (usage d g) - fst (hold d cp), snd (usage d g) - snd (hold d cp)))
  /\ (forall t' c', (t', c') ∈ capabilities g' <-> (t', c') ∈ capabilities g /\ c' <> c).
Proof.
  intros [Hn1 Hn2 He] Hin [El Eo _ _]. destruct (zpop_split t c _ Hn1 Hin) as (l1 & l2 & E & Ep). rewrite Ep in El. rewrite E in Hn1, Hn2, He.
  rewrite fmap_app, fmap_cons in Hn1. rewrite fmap_app, fmap_cons in Hn2. cbn [fst snd] in Hn1, Hn2. apply NoDup_app in Hn1 as (A1 & A2 & [A3 A4]%NoDup_cons), Hn2 as (B1 & B2 & [B3 B4]%NoDup_cons).
  assert (Hc : c ∉ (l1 ++ l2).*2). { rewrite fmap_app. intros [Hl|Hl]%elem_of_app; [|done]. apply (B2 c Hl). left. }
  assert (Hobj : forall c', c' <> c -> capability_objects g' !! c' = capability_objects g !! c') by (intros c' Hne; rewrite Eo; by rewrite list_lookup_alter_ne).
  split; [split; rewrite El|split].
  - rewrite fmap_app. apply NoDup_app. split; [done|split; [|done]]. intros x Hx Hx2. apply (A2 x Hx). by right.
  - rewrite fmap_app. apply NoDup_app. split; [done|split; [|done]]. intros x Hx Hx2. apply (B2 x Hx). by right.
  - apply Forall_forall. intros [t' c'] Hx. rewrite Forall_forall in He. destruct (He (t', c')) as (cp & Hcp & Hr); [apply elem_of_app in Hx as [?|?]; apply elem_of_app; [by left|right; by right]|].
    exists cp. split; [|done]. cbn [snd] in *. rewrite Hobj; [done|]. intros ->. apply Hc. by apply (list_elem_of_fmap_2 snd) in Hx.
  - intros d cp Hcp. change (usage d g) with (usage_of d g (capabilities g)). change (usage d g') with (usage_of d g' (capabilities g')). rewrite El, E, (usage_of_ext d g g').
    + rewrite !usage_of_app, usage_of_cons, (held_eq d g (t, c) cp Hcp). cbn [fst snd]. f_equal; lia.
    + intros [t' c'] Hx. apply held_ext. unfold cap_at. cbn [snd]. rewrite Hobj; [done|]. intros ->. apply Hc. by apply (list_elem_of_fmap_2 snd) in Hx.
  - intros t' c'. rewrite El, E, !elem_of_app, elem_of_cons. split.
    + intros Hx. split; [tauto|]. intros ->. apply Hc. rewrite <- elem_of_app in Hx. by apply (list_elem_of_fmap_2 snd) in Hx.
    + intros [[Hx|[[= -> ->]|Hx]] Hne]; tauto.
Qed.

Lemma gov_ok_dropped b h t c f g g' cp : gov_ok b h g -> (t, c) ∈ capabilities g -> capability_objects g !! c = Some cp -> (active cp = false \/ cap_bytes cp = 0 /\ cap_inodes cp = 0) -> dropped t c f g g' ->
  states g' = states g -> state_objects g' = state_objects g -> gov_ok b h g'.
Proof.
  intros Hok Hin Hc Hz Hdr Es Eo. destruct (dropped_caps t c f g g' (go_caps _ _ _ Hok) Hin Hdr) as (Hcaps & Hus & _). apply (gov_ok_caps b h g); [done..|].
  intros d. rewrite (Hus d cp Hc). assert (hold d cp = (0, 0)) as ->. { unfold hold. destruct Hz as [->|[-> ->]]; [done|]. by destruct (_ && _). }
  destruct (usage d g). cbn [fst snd]. f_equal; lia.
Qed.

(** The retirement of a capability that holds nothing any more. *)
Definition retire_cap (cp : capability) : capability := with_inflight false (with_token 0 (with_orphaned false (with_active false cp))).

Lemma finish_retire h g t c cp (Q : result unit -> nat -> governor -> Prop) : gov_ok None h g -> (t, c) ∈ capabilities g -> capability_objects g !! c = Some cp -> cap_bytes cp = 0 -> cap_inodes cp = 0 ->
  (forall g', gov_ok None h g' -> dropped t c retire_cap g g' -> Q (Ok tt) 0%nat g') -> wp 0 (_finish_capability_mutation c true) Q g.
Proof.
  intros Hok Hin Hc Hb Hn HQ. pose proof (entry_token _ _ _ _ (go_caps _ _ _ Hok) Hin Hc) as Ht. unfold _finish_capability_mutation, pop_capability. wp_step. cbn [whenM]. wp_step. wp_step. wp_step.
  rewrite (proj2 (registered_elem g c cp (go_caps _ _ _ Hok) Hc)) by (by rewrite Ht). cbn [whenM]. apply wp_store; [|lia]. rewrite (cap_at_eq _ _ _ Hc), Ht.
  do 2 (wp_step; apply wp_store; [|lia]). apply wp_store; [|lia]. apply wp_store; [|lia]. set (g' := on_cap c _ _).
  assert (Hdr : dropped t c retire_cap g g') by (split; try done; cbn [g' on_cap set_capability_objects set_capabilities capability_objects]; by rewrite !list_alter_alter_eq).
  apply HQ; [|done]. eapply (gov_ok_dropped None h t c retire_cap g g' cp); try done. by right.
Qed.

Lemma quiet_same g g' : same_caps g g' -> quiet g -> quiet g'.
Proof. intros (E1 & E2 & _ & _) [H1 H2]. split; unfold cap_at in *; by rewrite E1, E2. Qed.

Lemma quiet_dropped t c f g g' : caps_ok g -> (t, c) ∈ capabilities g -> (forall cp, active (f cp) = false) -> dropped t c f g g' -> quiet g -> quiet g'.
Proof.
  intros Hcaps Hin Hf Hdr [H1 H2]. destruct (dropped_caps t c f g g' Hcaps Hin Hdr) as (_ & _ & Hel). destruct Hdr as [_ Eo _ _].
  assert (Hobj : forall c', c' <> c -> capability_objects g' !! c' = capability_objects g !! c') by (intros c' Hne; rewrite Eo; by rewrite list_lookup_alter_ne). split.
  - intros t' c' [Hin' Hne]%Hel. unfold cap_at in *. rewrite Hobj by done. by apply (H1 t').
  - intros c' cp Hc' Ha. destruct (decide (c' = c)) as [->|Hne].
    + rewrite Eo, list_lookup_alter_eq in Hc'. apply fmap_Some in Hc' as (cp0 & _ & ->). by rewrite Hf in Ha.
    + rewrite Hobj in Hc' by done. apply Hel. auto.
Qed.

(** A capability that has been released. *)
Definition gone (cp : capability) : capability := mk_capability 0 (cap_device cp) 0 0 false false (pending_replacement cp) false.

(** A capability is marked while it is being changed. *)
Lemma inflight_ok h g c v : gov_ok None h g -> gov_ok None h (on_cap c (with_inflight v) g).
Proof.
  intros Hok. apply (gov_ok_caps None h g); try done; [apply caps_ok_on_cap; [apply Hok|done]|]. intros d. change (usage d ?g) with (usage_of d g (capabilities g)).
  apply usage_of_ext. intros [t c'] _. unfold held, cap_at. cbn [snd]. destruct (decide (c' = c)) as [->|Hne]; [|by rewrite on_cap_ne].
  cbn [on_cap set_capability_objects capability_objects]. rewrite list_lookup_alter_eq. by destruct (capability_objects g !! c).
Qed.

Lemma dropped_after c t f f' g g1 g2 : one_cap c f g g1 -> dropped t c f' g1 g2 -> dropped t c (f' ∘ f) g g2.
Proof. intros [A1 A2 A3 A4] [B1 B2 B3 B4]. split; [by rewrite B1, A1| |congruence..]. by rewrite B2, A2, list_alter_alter_eq. Qed.

Lemma dropped_ext c t f f' g g' cp : capability_objects g !! c = Some cp -> f cp = f' cp -> dropped t c f g g' -> dropped t c f' g g'.
Proof. intros Hc E [H1 H2 H3 H4]. split; try done. rewrite H2. by eapply alter_at. Qed.

Lemma one_cap_elem c f g g' t : one_cap c f g g' -> (t, c) ∈ capabilities g -> (t, c) ∈ capabilities g'.
Proof. intros [-> _ _ _]. done. Qed.

Lemma one_cap_lookup c f g g' cp : one_cap c f g g' -> capability_objects g !! c = Some cp -> capability_objects g' !! c = Some (f cp).
Proof. intros [_ -> _ _] E. by rewrite list_lookup_alter_eq, E. Qed.

(** A device whose capability holds something has a state. *)
Lemma active_backed b h g t c cp : gov_ok b h g -> (t, c) ∈ capabilities g -> capability_objects g !! c = Some cp -> active cp = true -> (cap_bytes cp =? 0) && (cap_inodes cp =? 0) = false ->
  exists s, zget (cap_device cp) (states g) = Some s.
Proof.
  intros Hok Hin Hc Ha Hz. apply (go_backed _ _ _ Hok). intros E. pose proof (go_caps _ _ _ Hok) as Hcaps. pose proof Hcaps as [_ Hn2 He].
  pose proof (usage_on_cap (cap_device cp) g t c cp (emptied 0 0) Hn2 Hin Hc) as E'. assert (Hcaps' : caps_ok (on_cap c (emptied 0 0) g)) by (apply caps_ok_on_cap; done).
  destruct (usage_nonneg (cap_device cp) _ Hcaps') as [P1 P2]. rewrite E', E in P1, P2. unfold hold in P1, P2. cbn [emptied with_cap_bytes with_cap_inodes active cap_device cap_bytes cap_inodes] in P1, P2.
  rewrite Ha, Z.eqb_refl in P1, P2. cbn [andb fst snd] in P1, P2. destruct (entry_object g t c Hcaps Hin) as (cp' & Hc' & _ & ? & ?). assert (cp' = cp) as -> by congruence. lia.
Qed.

(** The [finally] clause after the commit and after a failure. *)
Lemma end_release_committed h g d s c t cp post (Q : result unit -> nat -> (H * governor) * locals -> Prop) : gov_ok (Some s) h g -> zget d (states g) = Some s -> (t, c) ∈ capabilities g ->
  capability_objects g !! c = Some cp -> cap_bytes cp = 0 -> cap_inodes cp = 0 ->
  (forall h' g', gov_ok None h' g' -> dropped t c retire_cap g g' -> Q (Ok tt) 0%nat ((h', g'), (true, post))) -> wp 0 (end_release d s c (fun committed => committed)) Q ((h, g), (true, post)).
Proof.
  intros Hok Hd Hin Hc Hb Hn HQ. unfold end_release, locally. wp_step. wp_step. apply wp_onS. eapply return_exact; [exact Hok|exact Hd|]. intros h' g' Hok' Hsame. pose proof Hsame as (E1 & E2 & E3 & E4).
  wp_step. wp_step. cbn [fst snd]. apply wp_onS, wp_zoom. cbn [fst snd]. eapply (finish_retire h' g' t c cp); [done|by rewrite E1|by rewrite E2|done|done|].
  intros g2 Hok2 [F1 F2 F3 F4]. apply HQ; [done|]. split; congruence.
Qed.

Lemma end_release_failed h g d s c l retire (Q : result unit -> nat -> (H * governor) * locals -> Prop) : gov_ok (Some s) h g -> zget d (states g) = Some s -> retire (fst l) = false ->
  (forall h' g', gov_ok None h' g' -> one_cap c (with_inflight false) g g' -> Q (Ok tt) 0%nat ((h', g'), l)) -> wp 0 (end_release d s c retire) Q ((h, g), l).
Proof.
  intros Hok Hd Hl HQ. unfold end_release, locally. wp_step. wp_step. apply wp_onS. eapply return_exact; [exact Hok|exact Hd|]. intros h' g' Hok' (E1 & E2 & E3 & E4).
  wp_step. wp_step. cbn [fst snd]. rewrite Hl. apply wp_onS, wp_zoom. cbn [fst snd]. unfold _finish_capability_mutation. wp_step. cbn [whenM]. wp_step. apply wp_store; [|lia].
  apply HQ; [by apply inflight_ok|]. split; try done. cbn [on_cap set_capability_objects capability_objects]. by rewrite E2.
Qed.

(** The result of an operation that has committed: it returns, or raises what the
    host raised after its own commit. *)
Definition returned {A} (r : result A) (a : A) : Prop := r = Ok a \/ exists e, r = Err e.

Lemma begin_exact g c cp (Q : result bool -> nat -> governor -> Prop) : caps_ok g -> quiet g -> capability_objects g !! c = Some cp ->
  (active cp = false -> Q (Ok false) 0%nat g) ->
  (active cp = true -> inflight cp = false -> (token cp, c) ∈ capabilities g -> Q (Ok true) 0%nat (on_cap c (with_inflight true) g)) ->
  wp 0 (_begin_capability_mutation c) Q g.
Proof.
  intros Hcaps [Hq1 Hq2] Hc Hno Hyes. unfold _begin_capability_mutation. wp_step. wp_step. rewrite (cap_at_eq _ _ _ Hc). destruct (active cp) eqn:Ha; cbn [andb]; [|wp_step; auto].
  pose proof (Hq2 c cp Hc Ha) as Hin. destruct (Hq1 _ _ Hin) as [_ Hf]. rewrite (cap_at_eq _ _ _ Hc) in Hf. rewrite Hf, (proj2 (registered_elem g c cp Hcaps Hc) Hin). cbn [negb andb].
  wp_step. apply wp_store; [|lia]. wp_step. auto.
Qed.

Lemma release_exact h g c cp (Q : result bool -> nat -> H * governor -> Prop) : gov_ok None h g -> quiet g -> capability_objects g !! c = Some cp ->
  (active cp = false -> Q (Ok false) 0%nat (h, g)) ->
  (forall r h' g', active cp = true -> returned r true -> gov_ok None h' g' -> quiet g' -> dropped (token cp) c gone g g' -> Q r 0%nat (h', g')) ->
  (forall e h' g', active cp = true -> gov_ok None h' g' -> quiet g' -> same_caps g g' -> Q (Err e) 0%nat (h', g')) ->
  wp 0 (_release_capability_exact c) Q (h, g).
Proof.
  intros Hok Hq Hc Hno Hyes Herr. unfold _release_capability_exact. wp_step. apply wp_zoom. cbn [fst snd]. eapply begin_exact; [apply Hok|exact Hq|exact Hc|intros Ha; cbn [negb]; wp_step; auto|].
  intros Ha Hf Hin. cbn [negb]. set (g1 := on_cap c (with_inflight true) g). assert (Hok1 : gov_ok None h g1) by (by apply inflight_ok).
  assert (Hone1 : one_cap c (with_inflight true) g g1) by (by split). assert (Hc1 := one_cap_lookup _ _ _ _ _ Hone1 Hc). assert (Hin1 := one_cap_elem _ _ _ _ _ Hone1 Hin).
  assert (Hdone : forall r h' f g', returned r true -> gov_ok None h' g' -> f (with_inflight true cp) = gone cp -> dropped (token cp) c f g1 g' -> Q r 0%nat (h', g')).
  { intros r h' f g' Hr Hok' Ef Hdr. apply (dropped_after _ _ _ _ _ _ _ Hone1) in Hdr. apply (dropped_ext _ _ _ gone _ _ cp Hc Ef) in Hdr.
    apply Hyes; [done|done|done| |done]. eapply quiet_dropped; [apply Hok|exact Hin| |exact Hdr|done]. done. }
  wp_step. wp_step. cbn [snd]. rewrite (cap_at_eq _ _ _ Hc1). cbn [with_inflight cap_bytes cap_inodes cap_device]. destruct ((cap_bytes cp =? 0) && (cap_inodes cp =? 0)) eqn:Hz.
  - apply andb_prop in Hz as [Eb%Z.eqb_eq En%Z.eqb_eq]. wp_step. apply wp_zoom. cbn [fst snd]. eapply finish_retire; [exact Hok1|exact Hin1|exact Hc1|done|done|]. intros g' Hok' Hdr. wp_step.
    eapply (Hdone (Ok true) h retire_cap); [by left|done| |done]. destruct cp. cbn in *. by subst.
  - destruct (active_backed None h g1 _ c _ Hok1 Hin1 Hc1 Ha Hz) as [s Hd]. cbn [with_inflight cap_device] in Hd. set (d := cap_device cp) in *.
    wp_step. unfold borrow_for. wp_step. wp_step. apply wp_zoom. cbn [fst snd]. destruct (go_states _ _ _ Hok1 d s Hd) as (st & Hst). eapply borrow_exact; [exact Hok1|exact Hd|exact Hst|].
    intros g2 Eg2 Hok2 Hst2. assert (Hsame2 : same_caps g1 g2) by (by rewrite Eg2). pose proof Hsame2 as (A1 & A2 & A3 & A4). assert (Hd2 : zget d (states g2) = Some s) by (by rewrite Eg2). wp_step. unfold settle. apply wp_with_local.
    wp_step. unfold with_exit. wp_step. wp_step. change (cap_bytes cp) with (cap_bytes (with_inflight true cp)). change (cap_inodes cp) with (cap_inodes (with_inflight true cp)).
    eapply commit_release_exact; [exact Hok2|exact Hd2|exact Hst2|by rewrite A1|by rewrite A2|done|done| |].
    + intros post h3 g3 Hok3 Es3 Hone3. pose proof (one_cap_same_l _ _ _ _ _ Hsame2 Hone3) as Hone. wp_step.
      eapply (end_release_committed h3 g3 d s c (token cp)); [exact Hok3|by rewrite Es3|by eapply one_cap_elem|by eapply one_cap_lookup|done|done|].
      intros h4 g4 Hok4 Hdr. apply (dropped_after _ _ _ _ _ _ _ Hone) in Hdr. wp_step. wp_step. wp_step. cbn [fst snd].
      assert (Hend : forall r, returned r true -> Q r 0%nat (h4, g4)). { intros r Hr. eapply (Hdone r h4 (retire_cap ∘ emptied 0 0)); [done|done| |done]. by destruct cp. }
      destruct post as [e|]; wp_step; apply Hend; [right; by exists e|by left].
    + intros e h3 Hok3. wp_step. eapply end_release_failed; [exact Hok3|done|done|]. intros h4 g4 Hok4 Hone4. wp_step.
      pose proof (one_cap_trans _ _ _ _ _ _ Hone1 (one_cap_same_l _ _ _ _ _ Hsame2 Hone4)) as [B1 B2 B3 B4].
      assert (Hsame : same_caps g g4). { split; [done|split; [|done]]. rewrite B2. rewrite (alter_at _ id c _ cp Hc); [by apply list_alter_id|]. destruct cp. cbn in *. by subst. }
      apply Herr; [done|done|by eapply quiet_same|done].
Qed.

(** *** Publication *)

(** The candidates of the token loop. *)
Definition next_token (t : Z) : Z := if Z.shiftl 1 63 <=? t + 1 then 1 else t + 1.

Definition candidate (t : Z) (k : nat) : Z := Nat.iter k next_token t.

Lemma candidate_closed t k : 0 < t -> Z.of_nat k < 2 ^ 62 ->
  candidate t k = if decide (k = 0%nat) then t else if t + Z.of_nat k <? 2 ^ 63 then t + Z.of_nat k else if 2 ^ 63 <=? t then Z.of_nat k else t + Z.of_nat k - 2 ^ 63 + 1.
Proof.
  intros Ht. induction k as [|k IH]; intros Hk; [done|]. change (candidate t (S k)) with (next_token (candidate t k)). rewrite IH by lia. unfold next_token. change (Z.shiftl 1 63) with (2 ^ 63).
  destruct (decide (S k = 0%nat)); [done|]. clear IH. destruct (decide (k = 0%nat)) as [->|]; [destruct (Z.leb_spec (2 ^ 63) (t + 1)), (Z.ltb_spec (t + Z.of_nat 1) (2 ^ 63)), (Z.leb_spec (2 ^ 63) t); lia|].
  destruct (Z.ltb_spec (t + Z.of_nat k) (2 ^ 63)), (Z.ltb_spec (t + Z.of_nat (S k)) (2 ^ 63)), (Z.leb_spec (2 ^ 63) t);
    repeat match goal with |- context [?a <=? ?b] => destruct (Z.leb_spec a b) end; lia.
Qed.

Lemma token_candidate_inj t i j : 0 < t -> Z.of_nat i < 2 ^ 62 -> Z.of_nat j < 2 ^ 62 -> candidate t i = candidate t j -> i = j.
Proof.
  intros Ht Hi Hj. rewrite !candidate_closed by done. repeat case_decide; subst; try done;
    repeat match goal with |- context [?a <? ?b] => destruct (Z.ltb_spec a b) | |- context [?a <=? ?b] => destruct (Z.leb_spec a b) end; lia.
Qed.

Lemma token_search_None turns t l : token_search turns t l = None -> forall k, (k < turns)%nat -> candidate t k ∈ l.*1.
Proof.
  revert t. induction turns as [|turns IH]; intros t; [lia|]. cbn [token_search]. destruct (zget t l) as [v|] eqn:E; [|done]. change (if _ : bool then 1 else t + 1) with (next_token t).
  intros Hn [|k] Hk; [by apply zget_elem, (list_elem_of_fmap_2 fst) in E|]. unfold candidate. rewrite Nat.iter_succ_r. apply (IH _ Hn). lia.
Qed.

Lemma token_search_Some turns t l r : 0 < t -> token_search turns t l = Some r -> 0 < r /\ zget r l = None.
Proof.
  revert t. induction turns as [|turns IH]; intros t Ht; cbn [token_search]; [done|]. destruct (zget t l) eqn:E; [|by intros [= <-]]. apply IH. destruct (_ <=? _); lia.
Qed.

(** The token loop ends within one turn per live capability and one more. *)
Lemma token_search_total t l : 0 < t -> Z.of_nat (length l) < 2 ^ 62 - 1 -> exists r, token_search (S (length l)) t l = Some r /\ 0 < r /\ zget r l = None.
Proof.
  intros Ht Hl. destruct (token_search (S (length l)) t l) as [r|] eqn:E; [exists r; split; [done|by eapply token_search_Some]|]. exfalso.
  pose proof (token_search_None _ _ _ E) as Hin. set (tried := candidate t <$> seq 0 (S (length l))).
  assert (Hnd : NoDup tried). { apply NoDup_fmap_2_strong; [|apply NoDup_seq]. intros i j Hi Hj. apply elem_of_seq in Hi, Hj. apply token_candidate_inj; lia. }
  assert (Hsub : tried ⊆ l.*1). { intros x (k & -> & Hk)%list_elem_of_fmap. apply Hin. apply elem_of_seq in Hk. lia. }
  pose proof (submseteq_length _ _ (NoDup_submseteq _ _ Hnd Hsub)) as Hlen. unfold tried in Hlen. rewrite !length_fmap, length_seq in Hlen. lia.
Qed.

(** Quiet but for one capability. *)
Record quiet_but (x : nat) (g : governor) : Prop := {
  qb_registered : forall t c, (t, c) ∈ capabilities g -> c <> x -> active (cap_at c g) = true /\ inflight (cap_at c g) = false;
  qb_rest : forall c cp, capability_objects g !! c = Some cp -> active cp = true -> (token cp, c) ∈ capabilities g;
}.

(** A capability has been published: [c] is its object and [t] its token. *)
Record published (c : nat) (t : Z) (g g' : governor) : Prop := {
  pu_new : c = length (capability_objects g);
  pu_list : capabilities g' = capabilities g ++ [(t, c)];
  pu_objects : capability_objects g' = capability_objects g ++ [with_token t blank_capability];
  pu_violations : protocol_violations g' = protocol_violations g;
  pu_hint : orphaned_capability_hint g' = orphaned_capability_hint g;
}.

(** New objects that nothing refers to. *)
Lemma caps_ok_more g g' more : caps_ok g -> capabilities g' = capabilities g -> capability_objects g' = capability_objects g ++ more -> caps_ok g' /\ forall d, usage d g' = usage d g.
Proof.
  intros [H1 H2 H3] El Eo. rewrite Forall_forall in H3. assert (Hat : forall t c, (t, c) ∈ capabilities g -> capability_objects g' !! c = capability_objects g !! c).
  { intros t c Hin. destruct (H3 _ Hin) as (cp & Hc & _). cbn [snd] in Hc. rewrite Eo, Hc. by apply lookup_app_l_Some. }
  split; [split; rewrite El; [done..|]|].
  - apply Forall_forall. intros [t c] Hin. destruct (H3 _ Hin) as (cp & Hc & Hr). exists cp. split; [|done]. cbn [snd] in *. by rewrite (Hat t).
  - intros d. change (usage d ?g) with (usage_of d g (capabilities g)). rewrite El. apply usage_of_ext. intros [t c] Hin. apply held_ext. unfold cap_at. cbn [snd]. by rewrite (Hat t).
Qed.

Lemma gov_ok_published h g g' c t : gov_ok None h g -> 0 < t -> zget t (capabilities g) = None -> published c t g g' -> states g' = states g -> state_objects g' = state_objects g ->
  gov_ok None h g' /\ (t, c) ∈ capabilities g' /\ capability_objects g' !! c = Some (with_token t blank_capability).
Proof.
  intros Hok Ht Hfree [Ec El Eo _ _] Es Eso. pose proof (go_caps _ _ _ Hok) as [H1 H2 H3].
  assert (Hc : capability_objects g' !! c = Some (with_token t blank_capability)) by (rewrite Eo, Ec, lookup_app_r, Nat.sub_diag by lia; done).
  assert (Hlt : forall t' c', (t', c') ∈ capabilities g -> (c' < c)%nat). { intros t' c' Hin. rewrite Forall_forall in H3. destruct (H3 _ Hin) as (cp & Hcp & _). rewrite Ec. by apply lookup_lt_Some in Hcp. }
  destruct (caps_ok_more g (set_capability_objects (capability_objects g ++ [with_token t blank_capability]) g) [with_token t blank_capability] (go_caps _ _ _ Hok) eq_refl eq_refl) as [[_ _ H3'] Hus].
  split; [|split; [rewrite El; apply elem_of_app; right; left|done]]. apply (gov_ok_caps None h g); [done|done|done| |].
  - split; rewrite El.
    + rewrite fmap_app. apply NoDup_app. split; [done|split; [|apply NoDup_singleton]]. intros x Hx ->%list_elem_of_singleton. by apply zget_None in Hfree.
    + rewrite fmap_app. apply NoDup_app. split; [done|split; [|apply NoDup_singleton]]. intros x Hx ->%list_elem_of_singleton. apply list_elem_of_fmap in Hx as ([t' c'] & E & Hin). cbn [snd] in E. apply Hlt in Hin. lia.
    + apply Forall_app. split; [|constructor; [exists (with_token t blank_capability); cbn; done|constructor]]. eapply Forall_impl; [exact H3'|]. intros x (cp & Hcp & Hr). exists cp. by rewrite Eo.
  - intros d. rewrite <- Hus. change (usage d ?g) with (usage_of d g (capabilities g)). rewrite El, usage_of_app. unfold usage_of at 2 4. cbn [foldr]. rewrite (held_eq d g' (t, c) _ Hc). cbn [hold with_token blank_capability active andb fst snd].
    rewrite !Z.add_0_r, <- surjective_pairing. apply usage_of_ext. intros x Hx. apply held_ext. unfold cap_at. by rewrite Eo.
Qed.

Lemma quiet_published g g' c t : caps_ok g -> quiet g -> published c t g g' -> quiet_but c g'.
Proof.
  intros [_ _ He] [H1 H2] [Ec El Eo _ _]. rewrite Forall_forall in He. split.
  - intros t' c' Hin Hne. rewrite El in Hin. apply elem_of_app in Hin as [Hin|[= -> ->]%list_elem_of_singleton]; [|done]. destruct (He _ Hin) as (cp & Hc & _). cbn [snd] in Hc.
    destruct (H1 _ _ Hin). unfold cap_at in *. rewrite Eo, (lookup_app_l_Some _ _ _ _ Hc). by rewrite Hc in *.
  - intros c' cp Hc' Ha. rewrite Eo in Hc'. apply lookup_app_Some in Hc' as [Hc'|[_ Hc']]; [rewrite El; apply elem_of_app; left; auto|].
    destruct (c' - _)%nat; cbn in Hc'; [|done]. injection Hc' as <-. done.
Qed.

Lemma prepublish_exact h g (Q : result nat -> nat -> governor -> Prop) : gov_ok None h g -> quiet g ->
  (forall e g', gov_ok None h g' -> quiet g' -> capabilities g' = capabilities g -> capability_objects g' = capability_objects g ++ [blank_capability] -> protocol_violations g' = protocol_violations g -> Q (Err e) 0%nat g') ->
  (forall c t g', published c t g g' -> gov_ok None h g' -> quiet_but c g' -> (t, c) ∈ capabilities g' -> capability_objects g' !! c = Some (with_token t blank_capability) -> Q (Ok c) 0%nat g') ->
  wp 0 _prepublish_capability Q g.
Proof.
  intros Hok Hq Herr HQ. unfold _prepublish_capability. wp_step. wp_step. wp_step. wp_step. set (g1 := set_capability_objects _ g). wp_step. wp_step. change (capabilities g1) with (capabilities g).
  destruct (Z.leb_spec _MAX_PROCESS_TEMPORARY_STORAGE_CAPABILITIES (Z.of_nat (length (capabilities g)))) as [|Hlt].
  - wp_step. destruct (caps_ok_more g g1 [blank_capability] (go_caps _ _ _ Hok) eq_refl eq_refl) as [Hcaps Hus]. apply Herr; [by apply (gov_ok_caps None h g)| |done|done|done].
    pose proof (go_caps _ _ _ Hok) as [_ _ He]. rewrite Forall_forall in He. destruct Hq as [H1 H2]. split.
    + intros t c Hin. destruct (He _ Hin) as (cp & Hc & _). cbn [snd] in Hc. destruct (H1 _ _ Hin). unfold cap_at in *. cbn [g1 set_capability_objects capability_objects].
      rewrite (lookup_app_l_Some _ _ _ _ Hc). by rewrite Hc in *.
    + intros c cp Hc Ha. cbn [g1 set_capability_objects capability_objects] in Hc. apply lookup_app_Some in Hc as [Hc|[_ Hc]]; [by apply H2|]. destruct (c - _)%nat; cbn in Hc; [|done]. by injection Hc as <-.
  - wp_step. wp_step. change (next_capability g1) with (next_capability g).
    destruct (token_search_total (Z.max 1 (next_capability g)) (capabilities g)) as (t & -> & Ht & Hfree); [lia|unfold _MAX_PROCESS_TEMPORARY_STORAGE_CAPABILITIES in Hlt; lia|].
    set (c := length (capability_objects g)) in *. do 3 (wp_step; apply wp_store; [|lia]). wp_step. apply wp_tick; [|lia]. wp_step. set (g' := on_cap c _ _).
    assert (Hpub : published c t g g').
    { split; try done. cbn [g' on_cap set_capability_objects set_next set_capabilities g1 capability_objects]. rewrite alter_app_r_alt by (unfold c; lia). unfold c. by rewrite Nat.sub_diag. }
    destruct (gov_ok_published h g g' c t Hok Ht Hfree Hpub) as (Hok' & Hin & Hc); [done|done|]. eapply HQ; [exact Hpub|done|by eapply quiet_published, Hpub; [apply Hok|]|done|done].
Qed.

(** *** Operations *)

(** Between operations: the invariant holds, and [n] violations have been counted. *)
Record ok (n : Z) (p : H * governor) : Prop := {
  ok_gov : gov_ok None (fst p) (snd p);
  ok_quiet : quiet (snd p);
  ok_violations : protocol_violations (snd p) = n;
}.

(** A change of a capability that neither moves nor frees anything. *)
Definition benign (f : capability -> capability) : Prop := forall cp,
  token (f cp) = token cp /\ cap_device (f cp) = cap_device cp /\ cap_bytes (f cp) = cap_bytes cp /\ cap_inodes (f cp) = cap_inodes cp /\ active (f cp) = active cp /\ inflight (f cp) = inflight cp.

Lemma benign_usage c f g d : benign f -> usage d (on_cap c f g) = usage d g.
Proof.
  intros Hf. change (usage d ?g) with (usage_of d g (capabilities g)). apply usage_of_ext. intros [t c'] _. unfold held, cap_at, hold. cbn [snd].
  destruct (decide (c' = c)) as [->|Hne]; [|by rewrite on_cap_ne]. cbn [on_cap set_capability_objects capability_objects]. rewrite list_lookup_alter_eq.
  destruct (capability_objects g !! c) as [cp|]; [|done]. cbn. by destruct (Hf cp) as (_ & -> & -> & -> & -> & _).
Qed.

Lemma benign_gov h g c f : benign f -> gov_ok None h g -> gov_ok None h (on_cap c f g).
Proof.
  intros Hf Hok. apply (gov_ok_caps None h g); try done; [|intros d; by apply benign_usage]. apply caps_ok_on_cap; [apply Hok|]. intros cp _ Hb Hn. by destruct (Hf cp) as (-> & _ & -> & -> & _).
Qed.

Lemma benign_quiet g c f : benign f -> quiet g -> quiet (on_cap c f g).
Proof.
  intros Hf [H1 H2]. split.
  - intros t c' Hin. specialize (H1 t c' Hin). unfold cap_at in *. destruct (decide (c' = c)) as [->|Hne]; [|by rewrite on_cap_ne].
    cbn [on_cap set_capability_objects capability_objects]. rewrite list_lookup_alter_eq. destruct (capability_objects g !! c) as [cp|]; [|done]. cbn in *. by destruct (Hf cp) as (_ & _ & _ & _ & -> & ->).
  - intros c' cp Hc' Ha. destruct (decide (c' = c)) as [->|Hne]; [|rewrite on_cap_ne in Hc' by done; auto]. cbn [on_cap set_capability_objects capability_objects] in Hc'.
    rewrite list_lookup_alter_eq in Hc'. apply fmap_Some in Hc' as (cp0 & Hc0 & ->). destruct (Hf cp0) as (-> & _ & _ & _ & Ea & _). rewrite Ea in Ha. by apply H2.
Qed.

Lemma benign_ok n h g c f : benign f -> ok n (h, g) -> ok n (h, on_cap c f g).
Proof. intros Hf [H1 H2 H3]. split; [by apply benign_gov|by apply benign_quiet|done]. Qed.

Lemma hint_ok n h g v : ok n (h, g) -> ok n (h, set_hint v g).
Proof. intros [H1 [H2 H2'] H3]. split; [|by split|done]. apply (gov_ok_caps None h g); try done. by apply (caps_ok_same g); [..|apply H1]. Qed.

(** A release of any capability: not held, released, or failed without a trace. *)
Lemma release_any n h g c (Q : result bool -> nat -> H * governor -> Prop) : ok n (h, g) ->
  (active (cap_at c g) = false -> Q (Ok false) 0%nat (h, g)) ->
  (forall r h' g', active (cap_at c g) = true -> returned r true -> ok n (h', g') -> dropped (token (cap_at c g)) c gone g g' -> Q r 0%nat (h', g')) ->
  (forall e h' g', ok n (h', g') -> same_caps g g' -> Q (Err e) 0%nat (h', g')) ->
  wp 0 (_release_capability_exact c) Q (h, g).
Proof.
  intros [Hok Hq Hn] Hno Hyes Herr. cbn [fst snd] in *. destruct (capability_objects g !! c) as [cp|] eqn:Hc.
  - rewrite (cap_at_eq _ _ _ Hc) in *. eapply release_exact; [exact Hok|exact Hq|exact Hc|done| |].
    + intros r h' g' Ha Hr Hok' Hq' Hdr. apply Hyes; [done|done| |done]. split; [done|done|]. cbn [snd]. by rewrite (dr_violations _ _ _ _ _ Hdr).
    + intros e h' g' Ha Hok' Hq' Hsame. apply Herr; [|done]. split; [done|done|]. cbn [snd]. by rewrite (proj1 (proj2 (proj2 Hsame))).
  - unfold cap_at in Hno. rewrite Hc in Hno. unfold _release_capability_exact, _begin_capability_mutation. wp_step. apply wp_zoom. wp_step. wp_step. unfold cap_at at 1. cbn [snd]. rewrite Hc. cbn [default blank_capability active andb].
    wp_step. cbn [negb]. wp_step. by apply Hno.
Qed.

Lemma release_ok n h g c : ok n (h, g) -> wp 0 (_release_capability_exact c) (fun _ _ p => ok n p) (h, g).
Proof. intros Hok. by eapply release_any. Qed.

Lemma release_capability_ok n h g c : ok n (h, g) -> wp 0 (release_capability c) (fun _ _ p => ok n p) (h, g).
Proof.
  intros Hok. unfold release_capability. wp_step. wp_step. wp_step. destruct (pending_replacement _) as [r|]; [|wp_step; by apply release_ok].
  wp_step. eapply wp0_mono; [by apply release_ok|]. intros [[|]|e] [h' g'] Hok'; [|wp_step; by wp_step|done]. wp_step. apply wp_zoom, wp_store; [|lia]. wp_step. apply release_ok. by apply benign_ok.
Qed.

Lemma drain_ok n h g : ok n (h, g) -> wp 0 _drain_one_orphaned_capability_noexcept (fun _ _ p => ok n p) (h, g).
Proof.
  intros Hok. unfold _drain_one_orphaned_capability_noexcept. wp_step. wp_step. destruct (negb _); [by wp_step|]. wp_step. wp_step. destruct (List.find _ _) as [[t c]|].
  - wp_step. wp_step. wp_step. eapply wp0_mono; [by apply release_capability_ok|]. intros [b|e] [h' g'] Hok'.
    + wp_step. destruct b; cbn [whenM]; [apply wp_zoom, wp_store; [|lia]|wp_step].
      * wp_step. cbn [whenM]. apply wp_zoom, wp_store; [|lia]. apply hint_ok. by apply benign_ok.
      * wp_step. cbn [whenM]. apply wp_zoom, wp_store; [|lia]. by apply hint_ok.
    + wp_step. cbn [whenM]. by wp_step.
  - apply wp_zoom, wp_store; [|lia]. by apply hint_ok.
Qed.

(** What device [d] holds grows by [b] bytes and [i] inodes, and the others keep theirs. *)
Definition adds (d b i : Z) (g g' : governor) : Prop :=
  forall d', usage d' g' = if d' =? d then (fst (usage d' g) + b, snd (usage d' g) + i) else usage d' g.

(** Capability [c] now stands for [b] bytes and [i] inodes of device [d], on top of what is held. *)
Record granted (c : nat) (d b i : Z) (g g' : governor) : Prop := {
  gr_adds : adds d b i g g';
  gr_cap : exists cp, capability_objects g' !! c = Some cp /\ active cp = true /\ cap_device cp = d /\ cap_bytes cp = b /\ cap_inodes cp = i;
}.

Lemma quiet_grown c t cp g g' d tb ti : quiet_but c g -> (t, c) ∈ capabilities g -> caps_ok g -> capability_objects g !! c = Some cp -> inflight cp = false -> one_cap c (grown_cap d tb ti) g g' -> quiet g'.
Proof.
  intros [H1 H2] Hin Hcaps Hc Hf [El Eo _ _]. assert (Hobj : forall c', c' <> c -> capability_objects g' !! c' = capability_objects g !! c') by (intros c' Hne; rewrite Eo; by rewrite list_lookup_alter_ne). split.
  - intros t' c' Hin'. rewrite El in Hin'. unfold cap_at. destruct (decide (c' = c)) as [->|Hne]; [rewrite Eo, list_lookup_alter_eq, Hc; done|]. rewrite Hobj by done. by apply (H1 t').
  - intros c' cp' Hc' Ha. rewrite El. destruct (decide (c' = c)) as [->|Hne]; [|rewrite Hobj in Hc' by done; auto]. rewrite Eo, list_lookup_alter_eq, Hc in Hc'. injection Hc' as <-.
    cbn. by rewrite (entry_token g t c cp Hcaps Hin Hc).
Qed.

Lemma quiet_discard t c f g g' : caps_ok g -> (t, c) ∈ capabilities g -> (forall cp, capability_objects g !! c = Some cp -> active (f cp) = false) -> dropped t c f g g' -> quiet_but c g -> quiet g'.
Proof.
  intros Hcaps Hin Hf Hdr [H1 H2]. destruct (dropped_caps t c f g g' Hcaps Hin Hdr) as (_ & _ & Hel). destruct Hdr as [_ Eo _ _].
  assert (Hobj : forall c', c' <> c -> capability_objects g' !! c' = capability_objects g !! c') by (intros c' Hne; rewrite Eo; by rewrite list_lookup_alter_ne). split.
  - intros t' c' [Hin' Hne]%Hel. unfold cap_at in *. rewrite Hobj by done. by apply (H1 t').
  - intros c' cp Hc' Ha. destruct (decide (c' = c)) as [->|Hne].
    + rewrite Eo, list_lookup_alter_eq in Hc'. apply fmap_Some in Hc' as (cp0 & Hc0 & ->). by rewrite (Hf _ Hc0) in Ha.
    + rewrite Hobj in Hc' by done. apply Hel. auto.
Qed.

(** Publication and growth together. *)
Lemma published_usage h g g1 c t d : gov_ok None h g -> published c t g g1 -> capability_objects g1 !! c = Some (with_token t blank_capability) -> usage d g1 = usage d g.
Proof.
  intros Hok [Ec El Eo _ _] Hc. change (usage d ?g) with (usage_of d g (capabilities g)). rewrite El, usage_of_app. unfold usage_of at 2 4. cbn [foldr]. rewrite (held_eq d g1 (t, c) _ Hc).
  cbn [hold with_token blank_capability active andb fst snd]. rewrite !Z.add_0_r, <- surjective_pairing. apply usage_of_ext. intros [t' c'] Hx. apply held_ext. unfold cap_at. cbn [snd].
  destruct (entry_object g t' c' (go_caps _ _ _ Hok) Hx) as (cp & Hcp & _). by rewrite Eo, Hcp, (lookup_app_l_Some _ _ _ _ Hcp).
Qed.

Lemma granted_growth h g g1 h' g' c t v rb ri : gov_ok None h g -> gov_ok None h g1 -> published c t g g1 -> (t, c) ∈ capabilities g1 -> capability_objects g1 !! c = Some (with_token t blank_capability) ->
  growth_done v c rb ri (with_token t blank_capability) g1 h' g' ->
  exists d free, located v = Ok (d, free) /\ granted c d rb ri g g' /\ (rb = 0 /\ ri = 0 \/ rb <= byte_headroom free (floor_now v) /\ ri <= inode_headroom (free_inodes (statvfs v))).
Proof.
  intros Hok Hok1 Hpub Hin Hc [_ (d & free & tb & ti & Hloc & Ht & Hone & Hroom) _]. exists d, free. split; [done|split; [|done]].
  pose proof Ht as [Eb Ei]. cbn [active with_token blank_capability] in Eb, Ei. split.
  - intros d'. rewrite (one_cap_usage _ _ _ _ _ Hone), (usage_on_cap d' g1 t c _ _ (co_caps _ (go_caps _ _ _ Hok1)) Hin Hc), (published_usage h g g1 c t d' Hok Hpub Hc).
    destruct (Z.eqb_spec d' d) as [->|Hne].
    + rewrite (hold_grown d rb ri tb ti) by done. destruct (usage d g). cbn. f_equal; lia.
    + rewrite (hold_grown_other d d' rb ri tb ti) by done. destruct (usage d' g). cbn. f_equal; lia.
  - exists (grown_cap d tb ti (with_token t blank_capability)). split; [by eapply one_cap_lookup|]. by subst.
Qed.

(** The outcome of a reservation that found the governor in [g]. *)
Definition reserved (v : view) (size ino : Z) (g : governor) (r : result nat) (g' : governor) : Prop :=
  match r with
  | Ok c => exists d free, located v = Ok (d, free) /\ granted c d size ino g g'
      /\ (size = 0 /\ ino = 0 \/ size <= byte_headroom free (floor_now v) /\ ino <= inode_headroom (free_inodes (statvfs v)))
  | Err _ => (forall d, usage d g' = usage d g)
      \/ exists c d, granted c d size ino g g' /\ orphaned (cap_at c g') = true /\ orphaned_capability_hint g' = true
  end.

Lemma orphan_benign v : benign (with_orphaned v).
Proof. by intros cp. Qed.

Lemma rollback_exact {A} n g0 h' g' c d size ino (Q : result A -> nat -> H * governor -> Prop) primary : ok n (h', g') -> granted c d size ino g0 g' ->
  (forall p, ok n p -> (forall d', usage d' (snd p) = usage d' g0) \/ granted c d size ino g0 (snd p) /\ orphaned (cap_at c (snd p)) = true /\ orphaned_capability_hint (snd p) = true -> Q (Err primary) 0%nat p) ->
  wp 0 (try_except (released ← _release_capability_exact c; if released : bool then ret tt else raise RuntimeError) (fun _ => onG (_mark_orphaned_capability c));; raise primary) Q (h', g').
Proof.
  intros Hok [Hadd (cp & Hc & Ha & Hd & Hb & Hi)] HQ. wp_step. wp_step. wp_step. assert (Hat := cap_at_eq _ _ _ Hc).
  assert (Hgone : forall h2 g2, ok n (h2, g2) -> dropped (token (cap_at c g')) c gone g' g2 -> Q (Err primary) 0%nat (h2, g2)).
  { intros h2 g2 Hok2 Hdr. apply HQ; [done|]. left. intros d'. cbn [snd]. rewrite Hat in Hdr. pose proof (qu_rest _ (ok_quiet _ _ Hok) c cp Hc Ha) as Hin.
    destruct (dropped_caps _ _ _ _ _ (go_caps _ _ _ (ok_gov _ _ Hok)) Hin Hdr) as (_ & Hus & _). rewrite (Hus d' cp Hc), Hadd. unfold hold. rewrite Ha, Hd, Hb, Hi, (Z.eqb_sym d). cbn [andb].
    destruct (d' =? d); destruct (usage d' g0); cbn [fst snd]; f_equal; lia. }
  eapply release_any; [exact Hok|rewrite Hat; congruence| |].
  - intros r h2 g2 _ [->|[e ->]] Hok2 Hdr; [wp_step; wp_step; by apply Hgone|]. apply wp_zoom. unfold _mark_orphaned_capability. wp_step. wp_step. cbn [snd].
    assert (Hin : active (cap_at c g2) = false). { unfold cap_at. rewrite (dr_objects _ _ _ _ _ Hdr), list_lookup_alter_eq, Hc. done. }
    rewrite Hin, andb_false_r. cbn [whenM]. wp_step. wp_step. by apply Hgone.
  - intros e h2 g2 Hok2 Hsame. pose proof Hsame as (E1 & E2 & E3 & E4). assert (Hc2 : capability_objects g2 !! c = Some cp) by (by rewrite E2).
    apply wp_zoom. unfold _mark_orphaned_capability. wp_step. wp_step. cbn [snd]. rewrite (cap_at_eq _ _ _ Hc2), Ha, andb_true_r.
    rewrite (proj2 (registered_elem g2 c cp (go_caps _ _ _ (ok_gov _ _ Hok2)) Hc2)) by (by apply (qu_rest _ (ok_quiet _ _ Hok2))). cbn [whenM].
    wp_step. apply wp_store; [|lia]. apply wp_store; [|lia]. wp_step. apply HQ; [apply hint_ok, benign_ok; [apply orphan_benign|done]|]. right. cbn [snd].
    change (usage ?d (set_hint true ?g)) with (usage d g). split; [split|split; [|done]].
    + intros d'. change (usage d' (set_hint true ?g)) with (usage d' g). rewrite benign_usage by apply orphan_benign. rewrite (usage_same d' g' g2) by done. apply Hadd.
    + exists (with_orphaned true cp). split; [by apply (on_cap_eq c (with_orphaned true) g2)|done].
    + change (cap_at c (set_hint true ?g)) with (cap_at c g). by rewrite (cap_at_on _ _ _ _ Hc2).
Qed.

(** Unpublishing a capability that was never activated. *)
Lemma discard_exact n h g c t cp (Q : result unit -> nat -> H * governor -> Prop) : gov_ok None h g -> quiet_but c g -> protocol_violations g = n -> (t, c) ∈ capabilities g -> capability_objects g !! c = Some cp ->
  active cp = false -> (forall g', ok n (h, g') -> (forall d, usage d g' = usage d g) -> Q (Ok tt) 0%nat (h, g')) -> wp 0 (discard c) Q (h, g).
Proof.
  intros Hok Hq Hn Hin Hc Ha HQ. pose proof (go_caps _ _ _ Hok) as Hcaps. pose proof (entry_token _ _ _ _ Hcaps Hin Hc) as Ht. unfold discard, pop_capability. apply wp_zoom. cbn [fst snd]. wp_step. wp_step. wp_step.
  rewrite (proj2 (registered_elem g c cp Hcaps Hc)) by (by rewrite Ht). cbn [whenM]. apply wp_store; [|lia]. rewrite (cap_at_eq _ _ _ Hc), Ht. apply wp_store; [|lia]. set (g' := on_cap c _ _).
  assert (Hdr : dropped t c (with_token 0) g g') by (by split).
  apply HQ; [split; cbn [fst snd]; [by eapply (gov_ok_dropped None h t c _ g g' cp); [..|left|exact Hdr| |]| |done]|].
  - apply (quiet_discard t c (with_token 0) g g'); [done..| |done|done]. intros cp' Hc'. cbn. congruence.
  - intros d. destruct (dropped_caps t c _ g g' Hcaps Hin Hdr) as (_ & Hus & _). rewrite (Hus d cp Hc). unfold hold. rewrite Ha. destruct (usage d g). cbn. f_equal; lia.
Qed.

Lemma reserve_after n h g v size ino : ok n (h, g) ->
  wp 0 (c ← onG _prepublish_capability;
        try_except (_reserve_capability_growth v c size ino)
          (fun primary =>
             committed ← reads (fun p => active (cap_at c (snd p)));
             (if committed : bool then
                try_except (released ← _release_capability_exact c; if released : bool then ret tt else raise RuntimeError) (fun _ => onG (_mark_orphaned_capability c))
              else discard c);;
             raise primary);;
        committed ← reads (fun p => active (cap_at c (snd p)));
        whenM (negb committed) (discard c);;
        ret c) (fun r _ p => ok n p /\ reserved v size ino g r (snd p)) (h, g).
Proof.
  intros [Hok Hq Hn]. cbn [fst snd] in *. wp_step. apply wp_zoom. cbn [fst snd]. eapply prepublish_exact; [exact Hok|exact Hq| |].
  - intros e g' Hok' Hq' El Eo Ev. split; [split; [done|done|cbn [snd]; congruence]|]. left. by apply (caps_ok_more g g' [blank_capability] (go_caps _ _ _ Hok)).
  - intros c t g1 Hpub Hok1 Hq1 Hin Hc. pose proof (published_usage h g g1 c t) as Hus. wp_step. wp_step. eapply growth_exact; [exact Hok1|exact Hin|exact Hc|by intros _| |].
    + intros e h2 g2 Hok2 Hsame. pose proof Hsame as (E1 & E2 & E3 & E4). assert (Hc2 : capability_objects g2 !! c = Some (with_token t blank_capability)) by (by rewrite E2).
      wp_step. wp_step. cbn [snd]. rewrite (cap_at_eq _ _ _ Hc2). cbn [active with_token blank_capability]. wp_step.
      eapply (discard_exact n); [exact Hok2| |by rewrite E3, (pu_violations _ _ _ _ Hpub)|by rewrite E1|exact Hc2|done|].
      { destruct Hq1 as [A B]. split; unfold cap_at in *; by rewrite E1, E2. }
      intros g3 Hok3 Hus3. wp_step. split; [done|]. left. intros d. cbn [snd]. rewrite Hus3, (usage_same d g1 g2), Hus by done. done.
    + intros r h2 g2 Hdone. assert (Hok2 : ok n (h2, g2)).
      { destruct Hdone as [Hgov (d & free & tb & ti & _ & _ & Hone & _) _]. split; [done| |cbn [snd]; by rewrite (oc_violations _ _ _ _ Hone), (pu_violations _ _ _ _ Hpub)].
        eapply quiet_grown; [exact Hq1|exact Hin|apply Hok1|exact Hc|done|exact Hone]. }
      destruct (granted_growth h g g1 h2 g2 c t v size ino Hok Hok1 Hpub Hin Hc Hdone) as (d & free & Hloc & Hgr & Hroom).
      assert (Hact : active (cap_at c g2) = true) by (destruct Hgr as [_ (cp & Hcp & Ha & _)]; by rewrite (cap_at_eq _ _ _ Hcp)). destruct r as [[]|e].
      * wp_step. wp_step. cbn [snd]. rewrite Hact. cbn [negb whenM]. wp_step. wp_step. wp_step. split; [done|]. exists d, free. done.
      * wp_step. wp_step. cbn [snd]. rewrite Hact. eapply rollback_exact; [exact Hok2|exact Hgr|]. intros p Hokp Hp. split; [done|]. destruct Hp as [Hp|Hp]; [by left|right; exists c, d; done].
Qed.

Lemma reserve_ok n h g v size ino : ok n (h, g) -> wp 0 (reserve_capability v size ino) (fun _ _ p => ok n p) (h, g).
Proof.
  intros Hok. unfold reserve_capability. wp_step. eapply wp0_mono; [by apply drain_ok|]. intros [[]|e] [h1 g1] Hok1; [|done].
  eapply wp0_mono; [by apply reserve_after|]. by intros r p [].
Qed.

(** A registered capability changes and is at rest again. *)
Lemma quiet_one c t f cp g g' : caps_ok g -> quiet g -> (t, c) ∈ capabilities g -> capability_objects g !! c = Some cp -> token (f cp) = token cp -> active (f cp) = true -> inflight (f cp) = false -> one_cap c f g g' -> quiet g'.
Proof.
  intros Hcaps [H1 H2] Hin Hc Et Ea Ef [El Eo _ _]. assert (Hobj : forall c', c' <> c -> capability_objects g' !! c' = capability_objects g !! c') by (intros c' Hne; rewrite Eo; by rewrite list_lookup_alter_ne). split.
  - intros t' c' Hin'. rewrite El in Hin'. unfold cap_at. destruct (decide (c' = c)) as [->|Hne]; [rewrite Eo, list_lookup_alter_eq, Hc; done|]. rewrite Hobj by done. by apply (H1 t').
  - intros c' cp' Hc' Ha. rewrite El. destruct (decide (c' = c)) as [->|Hne]; [|rewrite Hobj in Hc' by done; auto]. rewrite Eo, list_lookup_alter_eq, Hc in Hc'. injection Hc' as <-.
    by rewrite Et, (entry_token g t c cp Hcaps Hin Hc).
Qed.

(** The part of a resize that shrinks in place. *)
Lemma commit_shrink_exact h g d s c st t cp l amount (Q : result unit -> nat -> (H * governor) * locals -> Prop) :
  gov_ok (Some s) h g -> zget d (states g) = Some s -> state_ok (Some s) h g d s st -> (t, c) ∈ capabilities g -> capability_objects g !! c = Some cp ->
  active cp = true -> cap_device cp = d -> 0 <= amount <= cap_bytes cp ->
  (forall post h' g', gov_ok (Some s) h' g' -> states g' = states g -> one_cap c (with_cap_bytes (cap_bytes cp - amount)) g g' -> Q (Ok tt) 0%nat ((h', g'), (true, post))) ->
  (forall e h', gov_ok (Some s) h' g -> Q (Err e) 0%nat ((h', g), l)) ->
  wp 0 (commit_shrink d s c (cap_bytes cp) amount) Q ((h, g), l).
Proof.
  intros Hok Hd Hst Hin Hc Hact Hdev Ham HQ Herr. unfold commit_shrink, locally, set_post, set_committed. wp_step. apply wp_onS. eapply reconcile_exact; [apply Hok|exact Hst|]. wp_step. wp_step. cbn [fst snd].
  pose proof Hst as [Ho _ _ Hx _ _ Hv Hvi Hbk]. rewrite (state_at_eq _ _ _ Ho), (cap_at_eq _ _ _ Hc), Hact, Z.eqb_refl. cbn [negb orb].
  pose proof (go_caps _ _ _ Hok) as Hcaps. pose proof Hcaps as [_ Hn2 He]. destruct (entry_object g t c Hcaps Hin) as (cp' & Hc' & _ & Hb & Hn). assert (cp' = cp) as -> by congruence.
  assert (Hle : cap_bytes cp <= reserved_bytes st /\ 0 <= reserved_inodes st).
  { pose proof (usage_on_cap d g t c cp (emptied 0 0) Hn2 Hin Hc) as E. assert (caps_ok (on_cap c (emptied 0 0) g)) as Hcaps' by (apply caps_ok_on_cap; done).
    destruct (usage_nonneg d _ Hcaps') as [P1 P2]. rewrite E, Hx in P1, P2. unfold hold in P1, P2. cbn [emptied with_cap_bytes with_cap_inodes active cap_device cap_bytes cap_inodes] in P1, P2.
    rewrite Hact, Hdev, Z.eqb_refl in P1, P2. cbn [andb fst snd] in P1, P2. lia. }
  set (nr := reserved_bytes st - amount). destruct (host_release_range _CROSS_PROCESS_SHRINK_QUANTUM_BYTES nr (cross_reserved_bytes st)) as [Hrb Hnb]; [unfold nr; lia|].
  set (rb := host_release _ nr _) in *. rewrite !Z.max_r by lia. wp_step. apply wp_onS.
  assert (Hi0 : cross_reserved_inodes st = cross_reserved_inodes st - 0) by lia. rewrite Hi0 at 1. eapply shrink_host_exact; [apply Hok|exact Ho|exact Hbk|done|lia| |].
  - intros post h' Hs' Hf Hbk'. rewrite Z.sub_0_r in Hbk'. wp_step. wp_step. cbn [fst snd]. wp_step. apply wp_onS, wp_zoom. cbn [fst snd]. do 2 (wp_step; apply wp_store; [|lia]). apply wp_store; [|lia].
    set (g' := on_cap c _ _). wp_step. apply wp_store; [|lia]. cbn [fst snd]. apply wp_tick; [|lia].
    apply HQ; [|done|by split]. eapply (gov_ok_shrunk h h' g g' d s st t c cp amount 0 (cross_reserved_bytes st - rb) (cross_reserved_inodes st) (cap_bytes cp - amount) (cap_inodes cp)); try done; try lia.
    + cbn [g' on_cap set_capability_objects state_objects on_state set_state_objects]. rewrite !list_alter_alter_eq. eapply alter_at; [exact Ho|]. unfold shrunk_state, compose. rewrite Z.sub_0_r. by destruct st.
    + split; try done. cbn [g' on_cap set_capability_objects capability_objects]. eapply alter_at; [exact Hc|]. by destruct cp.
  - intros e h' Hs' Hf. apply Herr. by eapply gov_ok_host.
Qed.

Lemma move_ok n h g v c size ino : ok n (h, g) -> wp 0 (move_capability v c size ino) (fun _ _ p => ok n p) (h, g).
Proof.
  intros Hok. assert (Hbr : forall r, benign (with_replacement r)) by (by intros r cp). unfold move_capability. wp_step. eapply wp0_mono; [by apply reserve_ok|]. intros [r|e] [h1 g1] Hok1; [|done].
  wp_step. apply wp_zoom, wp_store; [|lia]. cbn [fst snd]. wp_step. wp_step. wp_step. eapply wp0_mono; [apply release_ok; by apply benign_ok|]. intros res [h2 g2] Hok2.
  assert (Hroll : forall e, wp 0 (rolled_back ← _release_capability_exact r; whenM rolled_back (onG (store (on_cap c (with_replacement None))));; raise e)
    (fun (x : result unit) n' s' => match x with Ok _ => wp n' (onG (store (on_cap c (with_replacement None)));; ret r) (fun _ _ p => ok n p) s' | Err _ => ok n s' end) (h2, g2)).
  { intros e. wp_step. eapply wp0_mono; [by apply release_ok|]. intros [[|]|e'] [h3 g3] Hok3; [| |done]; wp_step; cbn [whenM].
    - apply wp_zoom, wp_store; [|lia]. wp_step. by apply benign_ok.
    - wp_step. by wp_step. }
  destruct res as [[|]|e]; [wp_step; wp_step; apply wp_zoom, wp_store; [|lia]; wp_step; by apply benign_ok|wp_step; apply Hroll|apply Hroll].
Qed.

(** A change of a capability in place ends with it at rest. *)
Lemma mutated_ok n h g g1 h' g' c t cp f : ok n (h, g) -> (t, c) ∈ capabilities g -> capability_objects g !! c = Some cp -> active cp = true -> gov_ok None h' g' -> one_cap c (with_inflight true) g g1 ->
  one_cap c f g1 g' -> token (f (with_inflight true cp)) = token cp -> active (f (with_inflight true cp)) = true -> inflight (f (with_inflight true cp)) = false -> ok n (h', g').
Proof.
  intros [Hok Hq Hn] Hin Hc Ha Hok' H1 H2 Et Ea Ef. pose proof (one_cap_trans _ _ _ _ _ _ H1 H2) as H3. split; [done| |cbn [snd]; by rewrite (oc_violations _ _ _ _ H3)].
  by eapply (quiet_one c t (f ∘ with_inflight true) cp g g'); [apply Hok|..].
Qed.

Lemma resize_ok n h g v target c size icount : ok n (h, g) -> wp 0 (resize_capability v target c size icount) (fun _ _ p => ok n p) (h, g).
Proof.
  intros Hok. unfold resize_capability. wp_step. wp_step. cbn [snd]. destruct (active (cap_at c g)) eqn:Hact; cbn [negb]; [|by wp_step]. destruct (Z.ltb_spec size 0) as [|Hsize]; [by wp_step|].
  wp_step. wp_step. destruct target as [td|e]; [|done]. destruct (negb (td =? _)); [by apply move_ok|].
  destruct (capability_objects g !! c) as [cp|] eqn:Hc; [|unfold cap_at in Hact; by rewrite Hc in Hact]. rewrite (cap_at_eq _ _ _ Hc) in *. pose proof Hok as [Hgov Hq Hn]. cbn [fst snd] in *.
  wp_step. apply wp_zoom. cbn [fst snd]. eapply begin_exact; [apply Hgov|exact Hq|exact Hc|congruence|]. intros _ Hf Hin. cbn [negb]. set (g1 := on_cap c (with_inflight true) g).
  assert (Hok1 : gov_ok None h g1) by (by apply inflight_ok). assert (Hone1 : one_cap c (with_inflight true) g g1) by (by split).
  assert (Hc1 := one_cap_lookup _ _ _ _ _ Hone1 Hc). assert (Hin1 := one_cap_elem _ _ _ _ _ Hone1 Hin).
  assert (Hend : forall h2 g2 f, gov_ok None h2 g2 -> one_cap c f g1 g2 -> token (f (with_inflight true cp)) = token cp -> active (f (with_inflight true cp)) = true -> ok n (h2, on_cap c (with_inflight false) g2)).
  { intros h2 g2 f Hok2 Hone2 Et Ea. eapply (mutated_ok n h g g1 h2 _ c (token cp) cp (with_inflight false ∘ f)); try done; [by apply inflight_ok|]. eapply one_cap_trans; [exact Hone2|by split]. }
  assert (Hfin : forall h2 g2 f (Q : result unit -> nat -> H * governor -> Prop), gov_ok None h2 g2 -> one_cap c f g1 g2 -> token (f (with_inflight true cp)) = token cp -> active (f (with_inflight true cp)) = true ->
    (forall p, ok n p -> Q (Ok tt) 0%nat p) -> wp 0 (onG (_finish_capability_mutation c false)) Q (h2, g2)).
  { intros h2 g2 f Q Hok2 Hone2 Et Ea HQ. apply wp_zoom. unfold _finish_capability_mutation. wp_step. cbn [whenM]. wp_step. apply wp_store; [|lia]. apply HQ. by eapply Hend. }
  assert (Hid : one_cap c id g1 g1) by (split; try done; symmetry; by apply list_alter_id).
  wp_step. wp_step. cbn [snd]. rewrite (cap_at_eq _ _ _ Hc1). cbn [with_inflight cap_bytes]. destruct (Z.eqb_spec (size - cap_bytes cp) 0); [wp_step; eapply Hfin; [exact Hok1|exact Hid|done|done|]; intros p Hp; by wp_step|].
  destruct (Z.ltb_spec 0 (size - cap_bytes cp)).
  - wp_step. unfold with_exit. wp_step. wp_step. eapply growth_exact; [exact Hok1|exact Hin1|exact Hc1|intros Hx; cbn in Hx; congruence| |].
    + intros e h2 g2 Hok2 Hsame. wp_step. eapply Hfin; [exact Hok2|eapply one_cap_same_r; [exact Hid|exact Hsame]|done|done|]. intros p Hp. by wp_step.
    + intros r h2 g2 [Hok2 (d & free & tb & ti & _ & _ & Hone2 & _) _]. destruct r as [[]|e]; wp_step; (eapply Hfin; [exact Hok2|exact Hone2|done|done|]); intros p Hp; wp_step; [by wp_step|done].
  - wp_step. wp_step. cbn [snd]. rewrite (cap_at_eq _ _ _ Hc1). cbn [with_inflight cap_device]. set (d := cap_device cp). wp_step. unfold borrow_for. wp_step. wp_step. apply wp_zoom. cbn [fst snd].
    destruct (active_backed None h g1 (token cp) c _ Hok1 Hin1 Hc1 Hact) as [s Hd]; [cbn [with_inflight cap_bytes cap_inodes]; lia|]. change (cap_device (with_inflight true cp)) with d in Hd.
    destruct (go_states _ _ _ Hok1 d s Hd) as (st & Hst). eapply borrow_exact; [exact Hok1|exact Hd|exact Hst|]. intros g2 Eg2 Hok2 Hst2.
    assert (Hsame2 : same_caps g1 g2) by (by rewrite Eg2). pose proof Hsame2 as (A1 & A2 & _ & _). assert (Hd2 : zget d (states g2) = Some s) by (by rewrite Eg2).
    wp_step. wp_step. unfold settle. apply wp_with_local. wp_step. unfold with_exit. wp_step. wp_step. change (cap_bytes cp) with (cap_bytes (with_inflight true cp)).
    eapply commit_shrink_exact; [exact Hok2|exact Hd2|exact Hst2|by rewrite A1|by rewrite A2|done|done|cbn [with_inflight cap_bytes]; lia| |].
    + intros post h3 g3 Hok3 Es3 Hone3. wp_step. eapply end_release_failed; [exact Hok3|by rewrite Es3|done|]. intros h4 g4 Hok4 Hone4. wp_step. wp_step. wp_step. cbn [fst snd].
      assert (Hok5 : ok n (h4, g4)). { eapply (mutated_ok n h g g1 h4 g4 c (token cp) cp); try done; [eapply one_cap_trans; [eapply one_cap_same_l; [exact Hsame2|exact Hone3]|exact Hone4]|done..]. }
      destruct post; wp_step; [done|by wp_step].
    + intros e h3 Hok3. wp_step. eapply end_release_failed; [exact Hok3|done|done|]. intros h4 g4 Hok4 Hone4. wp_step. cbn [fst snd].
      eapply (mutated_ok n h g g1 h4 g4 c (token cp) cp (with_inflight false)); try done. eapply one_cap_same_l; [exact Hsame2|exact Hone4].
Qed.

Lemma snapshot_ok n h g v : ok n (h, g) -> wp 0 (snapshot v) (fun _ _ p => ok n p) (h, g).
Proof.
  intros Hok. pose proof Hok as [Hgov Hq Hn]. cbn [fst snd] in *. unfold snapshot. wp_step. wp_step. destruct (located v) as [[d free]|e]; [|done]. cbn [fst snd]. wp_step. apply wp_zoom. cbn [fst snd].
  destruct (zget d (states g)) as [s|] eqn:Hd.
  - destruct (go_states _ _ _ Hgov d s Hd) as (st & Hst). eapply borrow_exact; [exact Hgov|exact Hd|exact Hst|]. intros g1 Eg1 Hok1 Hst1. unfold with_exit. wp_step. wp_step. wp_step. wp_step.
    eapply return_exact; [exact Hok1|by rewrite Eg1|]. intros h2 g2 Hok2 Hsame. assert (Hs : same_caps g g2) by (eapply same_caps_trans; [|exact Hsame]; by rewrite Eg1). wp_step. split; [done|by eapply quiet_same|].
    cbn [snd]. by rewrite (proj1 (proj2 (proj2 Hs))).
  - unfold _borrow_state. wp_step. wp_step. rewrite Hd. wp_step. wp_step. wp_step. wp_step. wp_step. by wp_step.
Qed.

(** *** Histories *)

Inductive request : Type :=
| Reserve (v : view) (size_bytes inode_count : Z)
| Release (c : nat)
| Resize (v : view) (target : result Z) (c : nat) (size_bytes : Z) (inode_count : option Z)
| Observe (v : view).

Definition perform (o : request) : M (H * governor) unit :=
  match o with
  | Reserve v size ino => reserve_capability v size ino;; ret tt
  | Release c => release_capability c;; ret tt
  | Resize v target c size ino => resize_capability v target c size ino;; ret tt
  | Observe v => snapshot v;; ret tt
  end.

(** Requests one after the other, whatever each of them returns or raises. *)
Definition history (l : list request) (p : H * governor) : H * governor := foldl (fun p o => snd (run (perform o) p)) p l.

Lemma perform_ok n o p : ok n p -> ok n (snd (run (perform o) p)).
Proof.
  destruct p as [h g]. intros Hok. apply (wp_run (perform o) (fun _ p => ok n p)). destruct o; cbn [perform]; wp_step;
    (eapply wp0_mono; [by first [apply reserve_ok|apply release_capability_ok|apply resize_ok|apply snapshot_ok]|]); intros [r|e] q Hq; [by wp_step|done|by wp_step|done|by wp_step|done|by wp_step|done].
Qed.

Lemma requests_ok h l : sane h -> ok 0 (history l (h, new_governor)).
Proof.
  intros Hs. assert (Hinit : ok 0 (h, new_governor)) by (split; [split; try done; split; cbn; by constructor|split; cbn; [intros t c Hx; by apply elem_of_nil in Hx|done]|done]).
  revert Hinit. generalize (h, new_governor) as p. induction l as [|o l IH]; intros p Hp; [done|]. cbn [history foldl]. by apply IH, perform_ok.
Qed.

(** C9: After any requests, whatever the file system answers and however often the
    operations of the host and the telemetry fail, the ledger of a device is exact:
    its state counts the bytes and inodes of the capabilities that are active on
    it, within its capacity, it is not quarantined and nobody has it borrowed; with
    coordination on, its account of the host holds what the state says, and covers
    them; a device without a state has no active bytes; no violation is counted. *)
Theorem governor_ledger_exact h l d : sane h ->
  let p := history l (h, new_governor) in
  protocol_violations (snd p) = 0
  /\ match zget d (states (snd p)) with
     | None => usage d (snd p) = (0, 0)
     | Some s =>
       let st := state_at s (snd p) in
       usage d (snd p) = (reserved_bytes st, reserved_inodes st) /\ reserved_bytes st <= capacity_bytes st /\ reserved_inodes st <= capacity_inodes st
       /\ corrupted st = false /\ users st = 0
       /\ (cross_process_enabled st = true -> exists a, cross_account st = Some a /\ amounts (fst p) a = (cross_reserved_bytes st, cross_reserved_inodes st)
            /\ reserved_bytes st <= account_bytes (fst p) a /\ reserved_inodes st <= account_inodes (fst p) a)
     end.
Proof.
  intros Hs p. destruct (requests_ok h l Hs) as [Hgov _ Hv]. fold p in Hgov, Hv. split; [done|]. destruct (zget d (states (snd p))) as [s|] eqn:Hd; [|by eapply stateless].
  destruct (go_states _ _ _ Hgov d s Hd) as (st & [Ho Hc Hu Hx Hcb Hci Hv1 Hv2 Hbk]). rewrite (state_at_eq _ _ _ Ho). split; [done|split; [done|split; [done|split; [done|split; [done|]]]]].
  intros He. unfold backing in Hbk. rewrite He in Hbk. destruct Hbk as (a & Ea & _ & Ham). exists a. split; [done|split; [done|]]. unfold amounts in Ham. injection Ham as -> ->. done.
Qed.

(** C31: The outcome of a reservation when no orphan waits for its release.  If it
    returns a capability, the capability stands for exactly the request on the
    device of the path, the device holds exactly that much more, and the request
    was within the free space above the floor.  If it raises, nothing more is held,
    unless a failure after the commit could not be rolled back: then the capability
    stays registered as an orphan for a later retry. *)
Theorem reservation_outcome h l v size ino : sane h -> orphaned_capability_hint (snd (history l (h, new_governor))) = false ->
  reserved v size ino (snd (history l (h, new_governor))) (fst (run (reserve_capability v size ino) (history l (h, new_governor))))
    (snd (snd (run (reserve_capability v size ino) (history l (h, new_governor))))).
Proof.
  intros Hs Hh. pose proof (requests_ok h l Hs) as Hok. destruct (history l (h, new_governor)) as [h1 g1]. cbn [snd] in Hh |- *.
  apply (wp_run (reserve_capability v size ino) (fun r p => reserved v size ino g1 r (snd p))). unfold reserve_capability, _drain_one_orphaned_capability_noexcept.
  wp_step. wp_step. wp_step. cbn [snd]. rewrite Hh. cbn [negb]. wp_step. eapply wp0_mono; [by apply reserve_after|]. by intros r p [].
Qed.
End Laws.

(** ** Interruptions

    Whatever the host does and wherever asynchronous exceptions land, a capability
    that holds bytes or inodes stays registered under its token. *)

Section Rooted.
Context {H : Type} {HA : HostAccounts H}.

Definition frame (g g' : governor) : Prop := capabilities g' = capabilities g /\ capability_objects g' = capability_objects g.

Definition nonzero (cp : capability) : Prop := cap_bytes cp <> 0 \/ cap_inodes cp <> 0.

Definition rooted (g : governor) : Prop := forall c cp, capability_objects g !! c = Some cp -> active cp = true -> nonzero cp -> zget (token cp) (capabilities g) = Some c.

Definition known (c : nat) (g : governor) : Prop := exists cp, capability_objects g !! c = Some cp /\ zget (token cp) (capabilities g) = Some c.

(** Nothing is lost if the capability is unregistered. *)
Definition vacant (c : nat) (g : governor) : Prop := forall cp, capability_objects g !! c = Some cp -> active cp = true -> ~ nonzero cp.

Lemma frame_refl g : frame g g.
Proof. done. Qed.

Lemma frame_trans g g1 g2 : frame g g1 -> frame g1 g2 -> frame g g2.
Proof. intros [] []. split; congruence. Qed.

Lemma rooted_frame g g' : frame g g' -> rooted g -> rooted g'.
Proof. intros [El Eo] Hr c cp. rewrite El, Eo. apply Hr. Qed.

Lemma known_frame c g g' : frame g g' -> known c g -> known c g'.
Proof. intros [El Eo] (cp & Ho & Ht). exists cp. by rewrite El, Eo. Qed.

Lemma vacant_frame c g g' : frame g g' -> vacant c g -> vacant c g'.
Proof. intros [El Eo] He cp. rewrite Eo. apply He. Qed.

Lemma rooted_known c f g : rooted g -> known c g -> (forall cp, token (f cp) = token cp) -> rooted (on_cap c f g) /\ known c (on_cap c f g).
Proof.
  intros Hr (cp & Ho & Ht) Hf. pose proof (on_cap_eq c f g cp Ho) as Ho'. split; [|exists (f cp); by rewrite Hf].
  intros c' cp' Hc' Ha Hn. destruct (decide (c' = c)) as [->|Hne]; [|rewrite on_cap_ne in Hc' by done; by apply Hr]. rewrite Ho' in Hc'. injection Hc' as <-. by rewrite Hf.
Qed.

Lemma rooted_change c f g : rooted g -> (forall cp, capability_objects g !! c = Some cp -> active (f cp) = true -> nonzero (f cp) -> token (f cp) = token cp /\ active cp = true /\ nonzero cp) ->
  rooted (on_cap c f g).
Proof.
  intros Hr Hf c' cp' Hc' Ha Hn. destruct (decide (c' = c)) as [->|Hne]; [|rewrite on_cap_ne in Hc' by done; by apply Hr].
  unfold on_cap in Hc'. cbn [set_capability_objects capability_objects] in Hc'. rewrite list_lookup_alter_eq in Hc'. destruct (capability_objects g !! c) as [cp|] eqn:Ho; [|done].
  injection Hc' as <-. destruct (Hf cp eq_refl Ha Hn) as (-> & Ha' & Hn'). by apply Hr.
Qed.

Lemma rooted_pop c g : rooted g -> vacant c g -> registered c g = true -> rooted (set_capabilities (zpop (token (cap_at c g)) (capabilities g)) g).
Proof.
  intros Hr He Hreg c' cp' Hc' Ha Hn. cbn [set_capabilities capabilities capability_objects] in *. pose proof (Hr c' cp' Hc' Ha Hn) as Ht.
  unfold registered in Hreg. rewrite zget_zpop. destruct (Z.eqb_spec (token cp') (token (cap_at c g))) as [E|]; [|done]. rewrite <- E, Ht in Hreg. apply Nat.eqb_eq in Hreg as ->.
  by destruct (He cp' Hc' Ha).
Qed.

Lemma registered_known c g : active (cap_at c g) = true -> registered c g = true -> known c g.
Proof.
  intros Ha Hreg. destruct (capability_objects g !! c) as [cp|] eqn:Ho; [|unfold cap_at in Ha; by rewrite Ho in Ha]. exists cp. split; [done|]. unfold registered in Hreg. rewrite (cap_at_eq c g cp Ho) in Hreg.
  destruct (zget (token cp) (capabilities g)) as [c'|] eqn:Ht; [|done]. by apply Nat.eqb_eq in Hreg as ->.
Qed.

Lemma al_onG {A} (m : M governor A) (Q : result A -> H * governor -> Prop) h g : always m (fun r g' => Q r (h, g')) g -> always (onG m) Q (h, g).
Proof. intros Hm. apply al_zoom. exact Hm. Qed.

(** *** What works on states only *)

Lemma exact_authority_frame d s l b n g : always (exact_authority d s l b n) (fun _ g' => frame g g') g.
Proof.
  revert b n g. induction l as [|[t c] l IH]; intros b n g; cbn [exact_authority]; [by al_step|]. al_step. al_step. destruct (_ && _); [|apply IH]. destruct (_ || _); [|apply IH].
  al_step. al_step; [|done]. al_step. al_step; [|done]. eapply al_mono; [apply IH|]. by intros r g'.
Qed.

Lemma reconcile_frame d s h g : always (_reconcile_state_authority_locked d s) (fun _ p => frame g (snd p)) (h, g).
Proof.
  unfold _reconcile_state_authority_locked. al_step. al_step. al_step. apply al_onG. eapply al_mono; [apply exact_authority_frame|]. intros [x|e] g1 Hf; [|done].
  al_step. al_step. al_step. al_step. al_step. apply al_onG. al_step; [|by al_step]. repeat (al_step; first [done|al_step; [|done]|idtac]); done.
Qed.
Lemma borrow_frame d create h g : always (onG (_borrow_state d create)) (fun _ (p : H * governor) => frame g (snd p)) (h, g).
Proof.
  apply al_onG. unfold _borrow_state. al_step. al_step. al_step.
  assert (Hrest : forall x g1, frame g g1 -> always (match x with Some s => store (fun g0 => on_state s (with_users (users (state_at s g0) + 1)) g0);; tick | None => ret tt end;; ret x) (fun _ g' => frame g g') g1).
  { intros [s|] g1 Hf; al_step; [al_step; al_step; [al_step; [by al_step|done]|done]|by al_step; al_step]. }
  destruct (zget d (states g)) as [s|]; [|destruct create as [s|]]; al_step; [by apply Hrest| |by apply Hrest]. al_step; [|done]. al_step. by apply Hrest.
Qed.

Lemma return_frame d s h g : always (_return_state d s) (fun _ p => frame g (snd p)) (h, g).
Proof.
  unfold _return_state. al_step. al_step. destruct (_ <=? 0); [apply al_onG; by al_step|]. al_step. apply al_onG. al_step; [|done]. al_step. al_step. al_step; [|done].
  al_step. al_step. cbn [fst snd]. set (g1 := on_state s _ g).
  assert (Hrest : forall (b : bool) h', always (whenM b (onG (store (fun g0 => set_states (zpop d (states g0)) g0)))) (fun _ (p : H * governor) => frame g (snd p)) (h', g1)).
  { intros b h'. al_step; [|done]. apply al_onG. by al_step. }
  al_step. destruct (cross_account _) as [a|]; [|al_step; apply Hrest]. al_step. al_step. destruct (account_closed _ a); [al_step; apply Hrest|].
  al_step. al_step. al_step. apply al_any. intros [[]|e] h'; al_step; apply Hrest.
Qed.

Lemma create_frame v d free h g : always (create_state v d free) (fun _ p => frame g (snd p)) (h, g).
Proof.
  assert (Hrest : forall account h', always (candidate ← reads (fun p : H * governor => length (state_objects (snd p)));
      onG (modify (fun g => set_state_objects (state_objects g ++ [fresh_state v free account 0]) g));;
      state ← onG (_borrow_state d (Some candidate));
      match account with Some a => whenM (negb (bool_decide (state = Some candidate))) (onS (close_account a)) | None => ret tt end;; ret state)
    (fun _ (p : H * governor) => frame g (snd p)) (h', g)).
  { intros account h'. al_step. al_step. al_step. apply al_onG. al_step. al_step. eapply al_mono; [apply borrow_frame|]. intros [state|e] [h1 g1] Hf; [|done]. cbn [snd] in Hf. al_step.
    destruct account as [a|]; [|by al_step; al_step]. al_step; [|by al_step]. al_step. apply al_any. intros [[]|e] h2; [by al_step|done]. }
  unfold create_state. al_step. al_step; [al_step|]; (destruct (switch_on v); [|]); try congruence.
  - destruct (directory v) as [[]|e]; [|done]. al_step. al_step. al_step. apply al_any. intros [a|e] h'; [|done]. al_step. apply Hrest.
  - al_step. al_step. apply Hrest.
Qed.

Lemma grow_host_frame v s a b c d e f h g : always (grow_host v s a b c d e f) (fun _ p => frame g (snd p)) (h, g).
Proof.
  assert (Herr : forall x h', always (if Disk.is_oserror x then raise (if mentions_inode v then ResourceError "cross_process_temporary_storage_inodes" f e
      else ResourceError "cross_process_temporary_storage_bytes" d c) else raise x) (fun (_ : result unit) (p : H * governor) => frame g (snd p)) (h', g)) by (intros x h'; destruct (Disk.is_oserror x); by al_step).
  unfold grow_host. al_step. al_step. al_step. al_step; [|done]. destruct (cross_account _) as [x|]; [|al_step; apply Herr]. al_step. al_step. apply al_any. intros [z|x'] h'; [by al_step|apply Herr].
Qed.

Lemma shrink_host_frame s a b c d h g : always (shrink_host s a b c d) (fun _ p => frame g (snd p)) (h, g).
Proof.
  unfold shrink_host. al_step. al_step. destruct (_ && _); [|by al_step]. destruct (cross_account _) as [x|]; [|by al_step]. al_step. al_step. al_step. apply al_any.
  intros [z|e] h'; al_step; [done|]. al_step. destruct (_cross_release_committed _ _ _ _); by al_step.
Qed.

(** *** What works on a capability *)

Definition rk (c : nat) (g : governor) : Prop := rooted g /\ known c g.

Definition keeps (c : nat) (f : governor -> governor) : Prop := forall g, rk c g -> rk c (f g).

Lemma rk_frame c g g' : frame g g' -> rk c g -> rk c g'.
Proof. intros Hf [Hr Hk]. split; [by eapply rooted_frame|by eapply known_frame]. Qed.

Lemma keeps_state c s (F : governor -> filesystem_state -> filesystem_state) : keeps c (fun g => on_state s (F g) g).
Proof. intros g. by apply rk_frame. Qed.

Lemma keeps_cap c f : (forall cp, token (f cp) = token cp) -> keeps c (on_cap c f).
Proof. intros Hf g [Hr Hk]. by apply rooted_known. Qed.

Lemma al_keeps_to {B} c f (m : M governor B) (Q : result B -> governor -> Prop) g : keeps c f -> rk c g -> (forall e g', rk c g' -> Q (Err e) g') ->
  (forall g', rk c g' -> always m Q g') -> always (store f;; m) Q g.
Proof. intros Hf Hg He Hm. al_step. al_step; [by apply Hm, Hf|by apply He]. Qed.

Lemma al_keeps {B} c f (m : M governor B) g : keeps c f -> rk c g -> (forall g', rk c g' -> always m (fun _ g1 => rk c g1) g') ->
  always (store f;; m) (fun _ g1 => rk c g1) g.
Proof. intros Hf Hg. by apply al_keeps_to. Qed.

Lemma commit_growth_rooted v c s d free rb ri tb ti h g : rk c g -> always (commit_growth v c s d free rb ri tb ti) (fun _ p => rk c (snd p)) (h, g).
Proof.
  intros Hg. unfold commit_growth. al_step. eapply al_mono; [apply reconcile_frame|]. intros [sound|e] [h1 g1] Hf; cbn [snd] in Hf; (assert (Hg1 : rk c g1) by (by eapply rk_frame)); [|done].
  destruct (negb sound); [unfold _raise_quarantined; by al_step|]. al_step. al_step. destruct (_ <? _); [by al_step|]. destruct (_ <? _); [by al_step|]. al_step.
  eapply al_mono; [apply grow_host_frame|]. intros [[]|e] [h2 g2] Hf2; cbn [snd] in Hf2; (assert (Hg2 : rk c g2) by (by eapply rk_frame)); [|done]. apply al_onG.
  do 6 (apply al_keeps; [apply (keeps_state c)|done|]; clear g2 Hf2 Hg2; intros g2 Hg2; assert (Hf2 := Hg2)).
  do 4 (apply al_keeps; [by apply keeps_cap|done|]; clear g2 Hf2 Hg2; intros g2 Hg2; assert (Hf2 := Hg2)).
  al_step; [|done]. by apply (keeps_cap c).
Qed.

Lemma growth_rooted v c rb ri h g : rk c g -> always (_reserve_capability_growth v c rb ri) (fun _ p => rk c (snd p)) (h, g).
Proof.
  intros Hg. unfold _reserve_capability_growth. destruct (_ || _); [by al_step|]. al_step. al_step. destruct (located v) as [place|e]; [|done]. al_step. al_step.
  destruct (_ && _); [by al_step|]. destruct (_ && _).
  { apply al_onG. apply al_keeps; [by apply keeps_cap|done|]. intros g1 Hg1. apply al_keeps; [by apply keeps_cap|done|]. intros g2 Hg2. al_step; [by apply keeps_cap|done]. }
  al_step. eapply al_mono; [apply borrow_frame|]. intros [borrowed|e] [h1 g1] Hf; cbn [snd] in Hf; (assert (Hg1 : rk c g1) by (by eapply rk_frame)); [|done]. al_step.
  apply (al_mono _ (fun _ p => rk c (snd p))).
  { destruct borrowed; [by al_step|]. eapply al_mono; [apply create_frame|]. intros r [h2 g2] Hf2. by eapply rk_frame. }
  intros [[s|]|e] [h2 g2] Hg2; [|by al_step|done]. al_step. al_step. eapply al_mono; [by apply commit_growth_rooted|]. intros r [h3 g3] Hg3.
  eapply al_mono; [apply return_frame|]. intros [[]|e] [h4 g4] Hf4; cbn [snd] in Hf4; (assert (Hg4 : rk c g4) by (by eapply rk_frame)); [|done]. destruct r as [[]|e]; [by al_step|done].
Qed.

Lemma rooted_more g more : rooted g -> Forall (fun cp => active cp = false) more -> rooted (set_capability_objects (capability_objects g ++ more) g).
Proof.
  intros Hr Hm c cp Hc Ha Hn. cbn [set_capability_objects capability_objects capabilities] in *. apply lookup_app_Some in Hc as [Hc|[_ Hc]]; [by apply Hr|].
  rewrite Forall_forall in Hm. apply list_elem_of_lookup_2, Hm in Hc. congruence.
Qed.

Lemma rooted_entry g t c : rooted g -> rooted (set_capabilities (capabilities g ++ [(t, c)]) g).
Proof. intros Hr c' cp Hc Ha Hn. cbn [set_capabilities capability_objects capabilities] in *. by rewrite zget_app, (Hr c' cp Hc Ha Hn). Qed.

Lemma prepublish_rooted h g : rooted g ->
  always (onG _prepublish_capability) (fun r (p : H * governor) => rooted (snd p) /\ forall c, r = Ok c -> known c (snd p)) (h, g).
Proof.
  intros Hr. apply al_onG. unfold _prepublish_capability. al_step. al_step. al_step. al_step. set (c := length (capability_objects g)). set (g1 := set_capability_objects _ g).
  assert (Hr1 : rooted g1) by (apply rooted_more; [done|by repeat constructor]). al_step. al_step. destruct (_ <=? _); [by al_step|]. al_step. al_step.
  destruct (token_search _ _ _) as [t|] eqn:Et; [|by al_step]. apply token_search_Some in Et as [Ht Hfree]; [|lia]. pose proof (rooted_entry g1 t c Hr1) as Hr2.
  assert (Ho : capability_objects g1 !! c = Some blank_capability) by (unfold g1, c; cbn [set_capability_objects capability_objects]; by rewrite lookup_app_r, Nat.sub_diag).
  al_step. al_step; [|done]. al_step. al_step; [|done]. al_step. set (g3 := set_next _ _). assert (Hr3 : rooted g3) by done. al_step; [|done].
  set (g4 := on_cap c _ g3). assert (Hr4 : rooted g4) by (apply rooted_change; [done|]; intros cp Hcp; assert (cp = blank_capability) as -> by (cbn [g3 set_next set_capabilities capability_objects] in Hcp; congruence); done).
  al_step. al_step; [|done]. al_step. split; [done|]. intros c' [= <-]. exists (with_token t blank_capability). split; [by apply on_cap_eq|].
  change (zget t (capabilities g1 ++ [(t, c)]) = Some c). by rewrite zget_app, Hfree, Z.eqb_refl.
Qed.

Lemma begin_rooted c h g : rooted g ->
  always (onG (_begin_capability_mutation c)) (fun r (p : H * governor) => rooted (snd p) /\ (r = Ok true -> known c (snd p))) (h, g).
Proof.
  intros Hr. apply al_onG. unfold _begin_capability_mutation. al_step. al_step. destruct (active (cap_at c g) && _ && registered c g) eqn:Hc; [|by al_step].
  apply andb_prop in Hc as [[Ha _]%andb_prop Hreg]. pose proof (registered_known c g Ha Hreg) as Hk. destruct (keeps_cap c (with_inflight true) ltac:(done) g (conj Hr Hk)).
  al_step. al_step; [|done]. by al_step.
Qed.

Lemma vacant_change c f g : rooted g -> vacant c g -> (forall cp, active (f cp) = true -> active cp = true /\ cap_bytes (f cp) = cap_bytes cp /\ cap_inodes (f cp) = cap_inodes cp) ->
  rooted (on_cap c f g) /\ vacant c (on_cap c f g).
Proof.
  intros Hr Hv Hf. assert (Hno : forall cp, capability_objects g !! c = Some cp -> active (f cp) = true -> ~ nonzero (f cp)).
  { intros cp Hc Ha Hn. destruct (Hf cp Ha) as (Ha' & Eb & En). apply (Hv cp Hc Ha'). unfold nonzero in *. by rewrite <- Eb, <- En. }
  split; [apply rooted_change; [done|]; intros cp Hc Ha Hn; by destruct (Hno cp Hc Ha)|]. intros cp' Hc'.
  unfold on_cap in Hc'. cbn [set_capability_objects capability_objects] in Hc'. rewrite list_lookup_alter_eq in Hc'. destruct (capability_objects g !! c) as [cp|] eqn:Ho; [|done].
  injection Hc' as <-. by apply Hno.
Qed.

Lemma rooted_benign c f g : (forall cp, token (f cp) = token cp /\ active (f cp) = active cp /\ cap_bytes (f cp) = cap_bytes cp /\ cap_inodes (f cp) = cap_inodes cp) ->
  rooted g -> rooted (on_cap c f g).
Proof. intros Hf Hr. apply rooted_change; [done|]. intros cp _. destruct (Hf cp) as (-> & -> & Eb & En). unfold nonzero. by rewrite Eb, En. Qed.

Lemma pop_rooted c g : rooted g -> vacant c g -> always (pop_capability c) (fun _ g' => rooted g' /\ vacant c g') g.
Proof. intros Hr Hv. unfold pop_capability. al_step. al_step. al_step; [|done]. al_step; [|done]. split; [by apply rooted_pop|done]. Qed.

Lemma finish_rooted c retire h g : rooted g -> (retire = true -> vacant c g) ->
  always (onG (_finish_capability_mutation c retire)) (fun _ (p : H * governor) => rooted (snd p)) (h, g).
Proof.
  intros Hr Hv. apply al_onG. unfold _finish_capability_mutation. al_step. apply (al_mono _ (fun _ g' => rooted g')).
  - al_step; [|done]. al_step. eapply al_mono; [by apply pop_rooted; auto|]. intros [[]|e] g1 [Hr1 Hv1]; [|done]. al_step. al_step; [|done].
    destruct (vacant_change c (with_active false) g1 Hr1 Hv1) as [Hr2 Hv2]; [done|]. al_step. al_step; [|done].
    destruct (vacant_change c (with_orphaned false) _ Hr2 Hv2) as [Hr3 Hv3]; [done|]. al_step; [|done]. by apply vacant_change.
  - intros [[]|e] g1 Hr1; [|done]. al_step; [|done]. by apply rooted_benign.
Qed.

Lemma discard_rooted c h g : rooted g -> active (cap_at c g) = false -> always (discard c) (fun _ (p : H * governor) => rooted (snd p)) (h, g).
Proof.
  intros Hr Ha. assert (Hv : vacant c g) by (intros cp Hc; rewrite (cap_at_eq c g cp Hc) in Ha; congruence). apply al_onG. al_step. eapply al_mono; [by apply pop_rooted|].
  intros [[]|e] g1 [Hr1 Hv1]; [|done]. al_step; [|done]. by apply vacant_change.
Qed.

Lemma borrow_for_rooted d c h g : rk c g -> always (borrow_for d c) (fun r (p : H * governor) => rooted (snd p) /\ (forall s, r = Ok s -> known c (snd p))) (h, g).
Proof.
  intros Hg. unfold borrow_for. al_step. al_step. eapply al_mono; [apply borrow_frame|]. intros [state|e] [h1 g1] Hf; cbn [snd] in Hf; destruct (rk_frame c g g1 Hf Hg) as [Hr1 Hk1].
  - destruct state as [s|]; [by al_step|]. al_step. eapply al_mono; [by apply finish_rooted|]. intros [[]|e] p Hp; [by al_step|done].
  - al_step. eapply al_mono; [by apply finish_rooted|]. intros [[]|e'] p Hp; [by al_step|done].
Qed.

(** The end of a critical section that has kept the roots, and has left nothing where
    it is to retire. *)
Definition settled (c : nat) (retire : bool -> bool) (q : (H * governor) * locals) : Prop :=
  rooted (snd (fst q)) /\ (retire (fst (snd q)) = true -> vacant c (snd (fst q))).

Lemma end_release_rooted d s c retire q : settled c retire q -> always (end_release d s c retire) (fun _ (q' : (H * governor) * locals) => rooted (snd (fst q'))) q.
Proof.
  destruct q as [[h g] l]. intros [Hr Hv]. cbn [fst snd] in *. unfold end_release, locally.
  assert (Hfin : forall h' g' b, rooted g' -> (b = true -> vacant c g') -> always (onS (onG (_finish_capability_mutation c b))) (fun _ (q' : (H * governor) * locals) => rooted (snd (fst q'))) ((h', g'), l)).
  { intros h' g' b Hr' Hv'. apply al_onS. eapply al_mono; [by apply finish_rooted|]. by intros r p. }
  al_step. al_step. al_step. eapply al_mono; [apply return_frame|]. intros [[]|e] [h1 g1] Hf; cbn [snd] in Hf; (assert (Hr1 : rooted g1) by (by eapply rooted_frame));
    (assert (Hv1 : retire (fst l) = true -> vacant c g1) by (intros E; eapply vacant_frame; eauto)).
  - al_step. al_step. by apply Hfin.
  - al_step. al_step. cbn [fst snd]. destruct (fst l) eqn:El.
    + al_step. al_step. al_step. cbn [fst snd]. rewrite El. by apply Hfin.
    + al_step. eapply al_mono; [by apply Hfin|]. intros [[]|e'] q' Hq'; [by al_step|done].
Qed.

Lemma settle_rooted {A} d s c retire (body : M ((H * governor) * locals) A) h g : always body (fun _ q => settled c retire q) ((h, g), (false, None)) ->
  always (settle d s c retire body) (fun _ (p : H * governor) => rooted (snd p)) (h, g).
Proof.
  intros Hb. unfold settle. al_step. al_step. al_step. eapply al_mono; [exact Hb|]. intros r q Hq. eapply al_mono; [by apply end_release_rooted|]. intros [[]|e] q' Hq'; [|done].
  destruct r as [a|e]; [|done]. al_step. al_step. destruct (snd (snd q')); by al_step.
Qed.

Lemma release_stores c s a b x y g : rk c g -> always (
    store (on_state s (with_cross a));; store (on_state s (with_cross_inodes b));; store (on_state s (with_reserved x));; store (on_state s (with_reserved_inodes y));;
    store (on_cap c (with_cap_bytes 0));; store (on_cap c (with_cap_inodes 0))) (fun r g' => rooted g' /\ (r = Ok tt -> vacant c g')) g.
Proof.
  intros Hg. do 4 (apply (al_keeps_to c); [apply (keeps_state c)|done|by intros e g' []|]; clear g Hg; intros g Hg).
  al_step. al_step; [|by destruct Hg]. apply (keeps_cap c (with_cap_bytes 0)) in Hg as Hg1; [|done]. al_step; [|by destruct Hg1].
  apply (keeps_cap c (with_cap_inodes 0)) in Hg1 as Hg2; [|done]. split; [apply Hg2|]. intros _ cp Hc _ [Hn|Hn]; apply Hn; destruct Hg as (_ & cp0 & Ho & _);
    pose proof (on_cap_eq c (with_cap_inodes 0) _ _ (on_cap_eq c (with_cap_bytes 0) g cp0 Ho)) as Ho2; rewrite Ho2 in Hc; by injection Hc as <-.
Qed.

Lemma commit_release_rooted d s c a n h g : rk c g -> always (commit_release d s c a n) (fun _ q => settled c (fun b => b) q) ((h, g), (false, None)).
Proof.
  intros Hg. assert (Hnot : forall (p : H * governor) e, rooted (snd p) -> settled c (fun b => b) (p, (false, e))) by (intros p e Hr; by split).
  unfold commit_release, locally. al_step. al_step. eapply al_mono; [apply reconcile_frame|]. intros [sound|e] [h1 g1] Hf; cbn [snd] in Hf; destruct (rk_frame c g g1 Hf Hg) as [Hr1 Hk1]; [|by apply Hnot].
  al_step. al_step. destruct (negb _); [al_step; by apply Hnot|]. destruct (_ || _); [al_step; by apply Hnot|]. al_step. al_step. eapply al_mono; [apply shrink_host_frame|].
  intros [post|e] [h2 g2] Hf2; cbn [snd] in Hf2; destruct (rk_frame c g1 g2 Hf2 (conj Hr1 Hk1)) as [Hr2 Hk2]; [|by apply Hnot]. al_step. unfold set_post. al_step. cbn [fst snd]. al_step. al_step. apply al_onG.
  eapply al_mono; [by apply release_stores|]. intros [[]|e] g3 [Hr3 Hv3]; [|by apply Hnot]. al_step. unfold set_committed. al_step; [|by apply Hnot]. cbn [fst snd].
  assert (settled c (fun b => b) ((h2, g3), (true, post))) by (split; [done|]; intros _; by apply Hv3). al_step. al_step; [|done]. by al_step.
Qed.

Lemma commit_shrink_rooted d s c a n h g : rk c g -> always (commit_shrink d s c a n) (fun _ q => settled c (fun _ => false) q) ((h, g), (false, None)).
Proof.
  intros Hg. assert (Hnot : forall (p : H * governor) l, rooted (snd p) -> settled c (fun _ => false) (p, l)) by (intros p l Hr; by split).
  unfold commit_shrink, locally. al_step. al_step. eapply al_mono; [apply reconcile_frame|]. intros [sound|e] [h1 g1] Hf; cbn [snd] in Hf; destruct (rk_frame c g g1 Hf Hg) as [Hr1 Hk1]; [|by apply Hnot].
  al_step. al_step. destruct (_ || _); [al_step; by apply Hnot|]. al_step. al_step. eapply al_mono; [apply shrink_host_frame|].
  intros [post|e] [h2 g2] Hf2; cbn [snd] in Hf2; (assert (Hg2 : rk c g2) by (by eapply rk_frame; [exact Hf2|])); [|by apply Hnot, Hg2]. al_step. unfold set_post. al_step. cbn [fst snd]. al_step. al_step. apply al_onG.
  eapply al_mono.
  { apply (al_keeps c); [apply (keeps_state c)|done|]. intros g3 Hg3. apply (al_keeps c); [apply (keeps_state c)|done|]. intros g4 Hg4.
    al_step; [by apply (keeps_cap c)|done]. }
  intros [[]|e] g3 [Hr3 _]; [|by apply Hnot]. al_step. unfold set_committed. al_step; [|by apply Hnot]. al_step; by apply Hnot.
Qed.

Lemma release_rooted c h g : rooted g -> always (_release_capability_exact c) (fun _ (p : H * governor) => rooted (snd p)) (h, g).
Proof.
  intros Hr. unfold _release_capability_exact. al_step. eapply al_mono; [by apply begin_rooted|]. intros [claimed|e] [h1 g1] [Hr1 Hk1]; cbn [snd] in *; [|done].
  destruct claimed; cbn [negb]; [|by al_step]. specialize (Hk1 eq_refl). al_step. al_step. destruct (_ && _) eqn:Hz.
  - apply andb_prop in Hz as [Hb%Z.eqb_eq Hn%Z.eqb_eq]. al_step. eapply al_mono; [apply finish_rooted; [done|]|intros [[]|e] p Hp; [by al_step|done]].
    intros _ cp Hc _. cbn [snd] in Hb, Hn. rewrite (cap_at_eq c g1 cp Hc) in Hb, Hn. unfold nonzero. lia.
  - al_step. eapply al_mono; [by apply borrow_for_rooted|]. intros [s|e] [h2 g2] [Hr2 Hk2]; [|done]. apply settle_rooted, commit_release_rooted. split; [done|by apply (Hk2 s)].
Qed.

Lemma replacement_rooted c v g : rooted g -> rooted (on_cap c (with_replacement v) g).
Proof. by apply rooted_benign. Qed.

Lemma orphaned_rooted c v g : rooted g -> rooted (on_cap c (with_orphaned v) g).
Proof. by apply rooted_benign. Qed.

Lemma release_capability_rooted c h g : rooted g -> always (release_capability c) (fun _ (p : H * governor) => rooted (snd p)) (h, g).
Proof.
  intros Hr. unfold release_capability. al_step. al_step. destruct (pending_replacement _) as [r|]; al_step; [|by al_step; apply release_rooted]. al_step.
  eapply al_mono; [by apply release_rooted|]. intros [released|e] [h1 g1] Hr1; [|done]. destruct released; [|by al_step; al_step]. al_step. apply al_onG. al_step; [|done]. al_step.
  by apply release_rooted, replacement_rooted.
Qed.

Lemma drain_rooted h g : rooted g -> always _drain_one_orphaned_capability_noexcept (fun _ (p : H * governor) => rooted (snd p)) (h, g).
Proof.
  intros Hr. unfold _drain_one_orphaned_capability_noexcept. al_step. al_step. destruct (negb _); [by al_step|]. al_step. al_step.
  destruct (List.find _ _) as [[t c]|]; [|apply al_onG; by al_step]. al_step. apply (al_mono _ (fun _ p => rooted (snd p))).
  - al_step. al_step. eapply al_mono; [by apply release_capability_rooted|]. intros [b|e] [h1 g1] Hr1; [|by al_step]. al_step.
    apply (al_mono _ (fun _ p => rooted (snd p))); [al_step; [apply al_onG; al_step; [by apply orphaned_rooted|done]|done]|]. intros [[]|e] p Hp; by first [al_step|done].
  - intros [finished|e] [h1 g1] Hr1; [|done]. al_step; [|done]. apply al_onG. by al_step.
Qed.

Lemma mark_rooted c h g : rooted g -> always (onG (_mark_orphaned_capability c)) (fun _ (p : H * governor) => rooted (snd p)) (h, g).
Proof.
  intros Hr. apply al_onG. unfold _mark_orphaned_capability. al_step. al_step. al_step; [|done]. al_step. al_step; [|done]. apply (orphaned_rooted c true) in Hr. by al_step.
Qed.

Lemma reserve_rooted v size ino h g : rooted g -> always (reserve_capability v size ino) (fun _ (p : H * governor) => rooted (snd p)) (h, g).
Proof.
  intros Hr. unfold reserve_capability. al_step. eapply al_mono; [by apply drain_rooted|]. intros [[]|e] [h1 g1] Hr1; [|done]. al_step.
  eapply al_mono; [by apply prepublish_rooted|]. intros [c|e] [h2 g2] [Hr2 Hk2]; [|done]. al_step. apply (al_mono _ (fun _ p => rooted (snd p))).
  - al_step. eapply al_mono; [apply growth_rooted; split; [done|by apply (Hk2 c)]|]. intros [[]|primary] [h3 g3] [Hr3 _]; [done|]. al_step. al_step. al_step.
    apply (al_mono _ (fun _ p => rooted (snd p))); [|intros [[]|e] p Hp; by first [al_step|done]]. cbn [snd] in *. destruct (active (cap_at c g3)) eqn:Ha; [|by apply discard_rooted]. al_step. al_step.
    eapply al_mono; [by apply release_rooted|]. intros [b|e] [h4 g4] Hr4; [destruct b; al_step; [done|]|]; by apply mark_rooted.
  - intros [[]|e] [h3 g3] Hr3; [|done]. al_step. al_step. al_step. apply (al_mono _ (fun _ p => rooted (snd p))); [|intros [[]|e] p Hp; by first [al_step|done]]. cbn [snd] in *.
    al_step; [|done]. apply discard_rooted; [done|]. by apply negb_true_iff.
Qed.

Lemma move_rooted v c size ino h g : rooted g -> always (move_capability v c size ino) (fun _ (p : H * governor) => rooted (snd p)) (h, g).
Proof.
  intros Hr. assert (Hset : forall w h' g', rooted g' -> always (onG (store (on_cap c (with_replacement w)))) (fun _ (p : H * governor) => rooted (snd p)) (h', g')).
  { intros w h' g' Hr'. apply al_onG. al_step; [by apply replacement_rooted|done]. }
  unfold move_capability. al_step. eapply al_mono; [by apply reserve_rooted|]. intros [r|e] [h1 g1] Hr1; [|done]. al_step. eapply al_mono; [by apply Hset|]. intros [[]|e] [h2 g2] Hr2; [|done].
  al_step. apply (al_mono _ (fun _ p => rooted (snd p))).
  - al_step. al_step. eapply al_mono; [by apply release_rooted|].
    assert (Hback : forall primary h' g', rooted g' -> always (rolled_back ← _release_capability_exact r; whenM rolled_back (onG (store (on_cap c (with_replacement None))));; raise primary)
      (fun (_ : result unit) (p : H * governor) => rooted (snd p)) (h', g')).
    { intros primary h' g' Hr'. al_step. eapply al_mono; [by apply release_rooted|]. intros [b|e] [h4 g4] Hr4; [|done]. al_step.
      apply (al_mono _ (fun _ p => rooted (snd p))); [al_step; [by apply Hset|done]|]. intros [[]|e] p Hp; by first [al_step|done]. }
    intros [b|e] [h3 g3] Hr3; [destruct b; al_step; [done|]|]; by apply Hback.
  - intros [[]|e] [h3 g3] Hr3; [|done]. al_step. eapply al_mono; [by apply Hset|]. intros [[]|e] p Hp; by first [al_step|done].
Qed.

Lemma resize_rooted v target c size ino h g : rooted g -> always (resize_capability v target c size ino) (fun _ (p : H * governor) => rooted (snd p)) (h, g).
Proof.
  intros Hr. unfold resize_capability. al_step. al_step. destruct (negb _); [by al_step|]. destruct (_ <? _); [by al_step|]. al_step. al_step. destruct target as [dev|e]; [|done].
  destruct (negb _); [by apply move_rooted|]. al_step. eapply al_mono; [by apply begin_rooted|]. intros [claimed|e] [h1 g1] [Hr1 Hk1]; cbn [snd] in *; [|done].
  destruct claimed; cbn [negb]; [|by al_step]. specialize (Hk1 eq_refl). al_step. al_step. cbn [snd].
  assert (Hfin : forall h' g', rooted g' -> always (onG (_finish_capability_mutation c false)) (fun _ (p : H * governor) => rooted (snd p)) (h', g')) by (intros h' g' Hr'; by apply finish_rooted).
  destruct (_ =? 0); [|destruct (0 <? _)].
  - al_step. eapply al_mono; [by apply Hfin|]. intros [[]|e] p Hp; by first [al_step|done].
  - al_step. al_step. eapply al_mono; [by apply growth_rooted|]. intros r [h2 g2] [Hr2 _]. eapply al_mono; [by apply Hfin|]. intros [[]|e] p Hp; [destruct r as [[]|e]; [by al_step|done]|done].
  - al_step. al_step. al_step. eapply al_mono; [by apply borrow_for_rooted|]. intros [s|e] [h2 g2] [Hr2 Hk2]; [|done]. al_step.
    eapply al_mono; [apply settle_rooted, commit_shrink_rooted; split; [done|by apply (Hk2 s)]|]. intros [[]|e] p Hp; by first [al_step|done].
Qed.

Lemma snapshot_rooted v h g : rooted g -> always (snapshot v) (fun _ (p : H * governor) => rooted (snd p)) (h, g).
Proof.
  intros Hr. unfold snapshot. al_step. al_step. destruct (located v) as [place|e]; [|done]. al_step. eapply al_mono; [apply borrow_frame|].
  intros [[s|]|e] [h1 g1] Hf; cbn [snd] in Hf; (assert (Hr1 : rooted g1) by (by eapply rooted_frame)); [|by al_step|done]. al_step. al_step.
  eapply al_mono; [apply return_frame|]. intros [[]|e] [h2 g2] Hf2; by eapply rooted_frame.
Qed.

(** Requests one after the other, each under its own schedule of exceptions. *)
Definition interrupted_history (l : list (request * sched)) (p : H * governor) : H * governor :=
  foldl (fun p x => snd (perform (fst x) (snd x) p)) p l.

Lemma perform_rooted o h g : rooted g -> always (perform o) (fun _ p => rooted (snd p)) (h, g).
Proof.
  intros Hr. destruct o; cbn [perform]; al_step; (eapply al_mono; [by first [apply reserve_rooted|apply release_capability_rooted|apply resize_rooted|apply snapshot_rooted]|]);
    intros [r|e] p Hp; by first [al_step|done].
Qed.

Lemma interrupted_rooted l p : rooted (snd p) -> rooted (snd (interrupted_history l p)).
Proof.
  revert p. induction l as [|[o k] l IH]; intros [h g] Hr; [done|]. cbn [interrupted_history foldl fst snd]. apply IH. pose proof (perform_rooted o h g Hr k) as Hp.
  by destruct (perform o k (h, g)) as [[r k'] p'].
Qed.

End Rooted.

(** C32: Publishing a capability ends.  Unless the bound on capabilities is reached,
    which is an error, the search finds a positive token that no capability has
    within one turn per registered capability and one more, whatever the last token
    was and however the numbers have wrapped around; the new capability is registered
    under it. *)
Theorem prepublication_ends g : let r := run _prepublish_capability g in let c := length (capability_objects g) in
  if _MAX_PROCESS_TEMPORARY_STORAGE_CAPABILITIES <=? Z.of_nat (length (capabilities g))
  then fst r = Err RuntimeError /\ capabilities (snd r) = capabilities g
  else fst r = Ok c /\ exists t, 0 < t /\ zget t (capabilities g) = None /\ capabilities (snd r) = capabilities g ++ [(t, c)] /\ token (cap_at c (snd r)) = t.
Proof.
  cbv zeta. set (c := length (capability_objects g)).
  apply (wp_run _prepublish_capability (fun r g' => if _MAX_PROCESS_TEMPORARY_STORAGE_CAPABILITIES <=? Z.of_nat (length (capabilities g))
    then r = Err RuntimeError /\ capabilities g' = capabilities g
    else r = Ok c /\ exists t, 0 < t /\ zget t (capabilities g) = None /\ capabilities g' = capabilities g ++ [(t, c)] /\ token (cap_at c g') = t)).
  unfold _prepublish_capability. wp_step. wp_step. wp_step. wp_step. wp_step. wp_step. cbn [set_capability_objects capabilities]. destruct (_ <=? _) eqn:Hb; [by wp_step|]. apply Z.leb_gt in Hb.
  wp_step. wp_step. cbn [set_capability_objects next_capability]. destruct (token_search_total (Z.max 1 (next_capability g)) (capabilities g)) as (t & -> & Ht & Hfree); [lia|unfold _MAX_PROCESS_TEMPORARY_STORAGE_CAPABILITIES in Hb; lia|].
  wp_step. wp_step. wp_step. wp_step. wp_step. wp_step. wp_step. wp_step. wp_step. split; [done|]. exists t. split; [done|split; [done|split; [done|]]].
  erewrite cap_at_on; [|cbn [set_next set_capabilities set_capability_objects capability_objects]; unfold c; rewrite lookup_app_r, Nat.sub_diag; done]. done.
Qed.

