(* ===== verification/StorageStack.v ===== *)
(** * StorageStack: the storage governor over the host's coordination documents

    The governor of [core_impl/temporary_storage_governor.py] calls the accounts of
    [core_impl/cross_process_storage.py].  This file instantiates the interface
    [HostAccounts] of [StorageGovernor] with the operations of
    [CrossProcessStorage], proves the laws [HostLaws] for them, and draws the
    conclusion for both together: what the capabilities of a process hold is on
    record in the document of the device.  Between two calls the other processes of
    the host may change a document, and any system call of a transaction may fail. *)

From Stdlib Require Import String.
From S2P Require Import Prelude PyLib JsonLib CoordinationJournal StorageGovernor CrossProcessStorage.
Import Text Disk.

#[local] Open Scope Z_scope.

(** What a call finds: the surroundings of the process, the faults of its system
    calls, and what has happened to the documents since the last call. *)
Record moment : Type := mk_moment { around : surroundings; faults : list (option fault); meanwhile : Z -> files -> files }.

(** The documents of the devices, the registry of the process, and the calls so far. *)
Record stack : Type := mk_stack { papers : Z -> files; book : registry; calls : nat }.

Definition account_at (h : stack) (i : nat) : account := default (mk_account 0 0 0 0 true 0 false 0) (objects (book h) !! i).

(** A registry and an account before and after a change of this account. *)
Record touched (i : nat) (a a' : account) (r r' : registry) : Prop := {
  tc_object : objects r' !! i = Some a';
  tc_device : device a' = device a;
  tc_pid : account_pid a' = account_pid a;
  tc_closed : closed a' = closed a;
  tc_token : account_token a' = account_token a;
  tc_objects : forall j, j <> i -> objects r' !! j = objects r !! j;
  tc_accounts : accounts r' = accounts r;
  tc_sequence : account_sequence r' = account_sequence r;
}.

Lemma touched_refl i a r : objects r !! i = Some a -> touched i a a r r.
Proof. by split. Qed.

Lemma touched_change i a a' r r' f : touched i a a' r r' -> keeps_identity f -> touched i a (f a') r (change i f r').
Proof.
  intros [Ho Hd Hp Hc Ht Hj Ha Hs] Hf. destruct (Hf a') as (Fd & Fp & Fc & Ft). split; cbn [change objects accounts account_sequence]; try congruence.
  - by rewrite list_lookup_alter_eq, Ho.
  - intros j Hne. rewrite list_lookup_alter_ne by done. by apply Hj.
Qed.

Lemma touched_trans i a a1 a2 r r1 r2 : touched i a a1 r r1 -> touched i a1 a2 r1 r2 -> touched i a a2 r r2.
Proof. intros [] []. split; try congruence. intros j Hne. by transitivity (objects r1 !! j); auto. Qed.

Lemma authoritative_touched i a a' r r' j : objects r !! i = Some a -> touched i a a' r r' -> authoritative j r' = authoritative j r.
Proof.
  intros Ho [Ho' Hd _ _ Ht Hj Ha _]. unfold authoritative. rewrite Ha. destruct (decide (j = i)) as [->|Hne]; [by rewrite Ho, Ho', Hd, Ht|]. by rewrite Hj.
Qed.

Lemma usable_touched getpid i a a' r r' j b : usable getpid i a r -> touched i a a' r r' -> registry_ok getpid r' -> usable getpid j b r ->
  exists b', usable getpid j b' r' /\ device b' = device b /\ (j = i -> b' = a') /\ (j <> i -> b' = b).
Proof.
  intros Hu Ht Hok [_ Ho Hv Htok]. pose proof (authoritative_touched i a a' r r' j (us_object _ _ _ _ Hu) Ht) as Ev. destruct (decide (j = i)) as [->|Hne].
  - assert (b = a) as -> by (pose proof (us_object _ _ _ _ Hu); congruence). exists a'. destruct Ht. split; [split; congruence|done].
  - exists b. split; [|done]. split; [done|by rewrite (tc_objects _ _ _ _ _ Ht)|congruence|done].
Qed.

Lemma wp0_and {S A} (m : M S A) (P Q : result A -> S -> Prop) s : wp 0 m (fun r _ s' => P r s') s -> wp 0 m (fun r _ s' => Q r s') s ->
  wp 0 m (fun r _ s' => P r s' /\ Q r s') s.
Proof.
  intros HP HQ k Hk. specialize (HP k Hk). specialize (HQ k Hk). destruct (m k s) as [[r k'] s']. destruct HP as (n & ? & ? & ?), HQ as (n' & ? & ? & ?). by exists n.
Qed.

Lemma token_get_app t l k : token_get t (l ++ k) = match token_get t l with Some v => Some v | None => token_get t k end.
Proof. induction l as [|[t' v] l IH]; [done|]. cbn [app token_get]. by destruct (t' =? t). Qed.

Lemma token_get_pop t t' l : t <> t' -> token_get t (token_pop t' l) = token_get t l.
Proof.
  intros Hne. induction l as [|[k v] l IH]; [done|]. unfold token_pop in *. cbn [List.filter fst token_get]. destruct (Z.eqb_spec k t') as [->|]; cbn [negb token_get].
  - by rewrite (proj2 (Z.eqb_neq t' t)) by congruence.
  - by rewrite IH.
Qed.

Lemma token_get_None t l : t ∉ l.*1 -> token_get t l = None.
Proof. induction l as [|[k v] l IH]; [done|]. rewrite fmap_cons. cbn [fst]. intros [Hne Hl]%not_elem_of_cons. cbn [token_get]. rewrite (proj2 (Z.eqb_neq k t)) by congruence. auto. Qed.

Lemma authoritative_entry i r a : objects r !! i = Some a -> authoritative i r = true <-> token_get (account_token a) (accounts r) = Some (i, device a).
Proof.
  intros Ho. unfold authoritative. rewrite Ho. destruct (token_get _ _) as [[j d]|]; [|done]. rewrite andb_true_iff, Nat.eqb_eq, Z.eqb_eq. split; [by intros [-> ->]|by intros [= -> ->]].
Qed.

Lemma retire_frame getpid i a r : usable getpid i a r ->
  wp 0 (retire_account i) (fun res _ r' => account_sequence r' = account_sequence r /\ (forall j b, j <> i -> usable getpid j b r -> registry_ok getpid r' -> usable getpid j b r')
    /\ forall e, res = Err e -> r' = r) r.
Proof.
  intros [Hok Ho Hv Ht]. unfold retire_account. wp_step. wp_step. rewrite Ho. destruct (_ || _); [wp_step; split; [done|split; [by intros j b _ [] ?|done]]|].
  wp_step. unfold _authenticate_account_registry_unlocked. wp_step. wp_step. rewrite Hv. wp_step. wp_step. apply wp_store; [|lia]. apply wp_store; [|lia].
  split; [done|split; [|done]]. intros j b Hne [_ Hob Hvb Htb] Hok'. apply (authoritative_entry i r a Ho) in Hv. apply (authoritative_entry j r b Hob) in Hvb as Hvb'.
  assert (account_token b <> account_token a) as Hdiff by (intros E; rewrite E, Hv in Hvb'; congruence).
  assert (Hob' : objects (change i (with_closed true) (mk_registry (objects r) (token_pop (account_token a) (accounts r)) (account_sequence r))) !! j = Some b).
  { cbn [change objects]. by rewrite list_lookup_alter_ne. }
  split; [done|done| |done]. apply (authoritative_entry j _ b Hob'). cbn [change accounts]. by rewrite token_get_pop.
Qed.

Lemma free_token_pos turns t l t' : 0 <= t -> free_token turns t l = Some t' -> 0 < t'.
Proof.
  revert t. induction turns as [|turns IH]; intros t Ht; cbn [free_token]; [done|]. set (next := if _ : bool then _ else _).
  assert (0 < next) as Hn by (unfold next; destruct (_ <? _); lia). destruct (token_get next l); [apply IH; lia|by intros [= <-]].
Qed.

(** The registry after an account has been opened. *)
Record with_entry (i : nat) (a : account) (r r' : registry) : Prop := {
  we_objects : objects r' = objects r ++ [a];
  we_accounts : accounts r' = accounts r ++ [(account_token a, (i, device a))];
}.

Lemma with_entry_usable getpid i a r r' j b : registry_ok getpid r' -> with_entry i a r r' -> usable getpid j b r -> usable getpid j b r'.
Proof.
  intros Hok [Eo Ea] [_ Hob Hvb Htb]. apply (authoritative_entry j r b Hob) in Hvb. assert (Hob' : objects r' !! j = Some b) by (rewrite Eo; by apply lookup_app_l_Some).
  split; [done|done| |done]. apply (authoritative_entry j r' b Hob'). by rewrite Ea, token_get_app, Hvb.
Qed.

Lemma open_frame getpid dev r : registry_ok getpid r -> 0 <= account_sequence r ->
  wp 0 (open_cross_process_storage_account getpid dev) (fun res _ r' => registry_ok getpid r' ->
    0 <= account_sequence r' /\ (forall j b, usable getpid j b r -> usable getpid j b r')
    /\ forall i, res = Ok i -> objects r !! i = None /\ exists a, usable getpid i a r' /\ device a = dev /\ reserved_bytes a = 0 /\ reserved_inodes a = 0) r.
Proof.
  intros Hok Hseq. unfold open_cross_process_storage_account. wp_step. wp_step. wp_step. wp_step.
  assert (Hfail : forall e, let r1 := mk_registry (objects r ++ [mk_account dev getpid 0 0 false 0 false 0]) (accounts r) (account_sequence r) in registry_ok getpid r1 ->
    0 <= account_sequence r1 /\ (forall j b, usable getpid j b r -> usable getpid j b r1) /\
    forall i, (Err e : result nat) = Ok i -> objects r !! i = None /\ exists a, usable getpid i a r1 /\ device a = dev /\ reserved_bytes a = 0 /\ reserved_inodes a = 0).
  { intros e r1 Hok1. split; [done|split; [|done]]. intros j b [_ Hob Hvb Htb]. apply (authoritative_entry j r b Hob) in Hvb.
    assert (Hob' : objects r1 !! j = Some b) by (by apply lookup_app_l_Some). split; [done|done| |done]. by apply (authoritative_entry j r1 b Hob'). }
  wp_step. wp_step. destruct (_ <=? _); [wp_step; by apply Hfail|]. wp_step. wp_step. cbn [accounts account_sequence]. destruct (free_token _ _ _) as [token|] eqn:Ef; [|wp_step; by apply Hfail].
  pose proof (free_token_fresh _ _ _ _ Ef) as Hfresh. apply free_token_pos in Ef; [|done].
  wp_step. apply wp_store; [|lia]. wp_step. apply wp_store; [|lia]. wp_step. apply wp_store; [|lia]. wp_step. intros Hok'. clear Hfail.
  set (a := mk_account dev getpid 0 0 false token false 0). set (r' := change _ _ _) in *. assert (We : with_entry (length (objects r)) a r r').
  { split; [|done]. unfold r'. cbn [change objects]. by rewrite alter_app_r_alt, Nat.sub_diag. }
  split; [cbn; lia|split; [intros j b; by apply (with_entry_usable _ _ _ _ _ j b Hok' We)|]]. intros i [= <-]. split; [by apply lookup_ge_None|]. exists a. split; [|done].
  assert (Ho' : objects r' !! length (objects r) = Some a) by (rewrite (we_objects _ _ _ _ We), lookup_app_r, Nat.sub_diag; done).
  split; [done|done| |done]. apply (authoritative_entry _ _ a Ho'). rewrite (we_accounts _ _ _ _ We), token_get_app, token_get_None by done. cbn [token_get]. by rewrite Z.eqb_refl.
Qed.

Section Accounts.
Variables (conv : conversions) (euid getpid : Z) (start : text) (process_alive : Z -> text -> bool) (now : text) (has_fcntl : bool) (switch : option text).
Hypothesis getpid_pos : 0 < getpid.
Hypothesis self_alive : process_alive getpid start = true.
Hypothesis now_float : float_literal now = true.

#[local] Abbreviation authority := (_device_authority_unlocked getpid).
#[local] Abbreviation mine dev r := (me getpid start dev r).

Ltac keeps := by (intros x; repeat split).

Lemma alone_live : Forall (lives process_alive) [].
Proof. constructor. Qed.

Lemma alone_distinct : NoDup (claim_key <$> [mk_claim getpid start 0 0]).
Proof. apply NoDup_singleton. Qed.

Lemma wp_onR_store0 f (Q : result unit -> nat -> world * registry -> Prop) w r : Q (Ok tt) 0%nat (w, f r) -> wp 0 (onR (store f)) Q (w, r).
Proof. intros HQ. apply wp_zoom, wp_store; [exact HQ|lia]. Qed.

Lemma wp_transaction {A} c (m : M world A) (R : result A -> files -> Prop) (Q : result A -> nat -> world * registry -> Prop) w r :
  triple (sound conv euid [c]) (fun _ => True) (disk w) m R -> sound conv euid [c] (disk w) -> (forall res w', Q res 0%nat (w', r)) -> wp 0 (onS m) Q (w, r).
Proof.
  intros Hm Hs HQ. wp_step. eapply wp0_mono; [eapply wp_mono; [apply Hm; [done|done|apply Forall_forall; by intros [[]|] _|done]|]|].
  - intros res n w' _ _. exact I.
  - intros res w' _. apply HQ.
Qed.

Lemma reconcile_touch i a enabled w r : registry_ok getpid r -> objects r !! i = Some a -> sound conv euid [mine (device a) r] (disk w) ->
  wp 0 (_reconcile_account_locked conv euid getpid start process_alive now has_fcntl switch i enabled)
    (fun _ _ p => exists a', touched i a a' r (snd p) /\ reserved_bytes a' = reserved_bytes a /\ reserved_inodes a' = reserved_inodes a) (w, r).
Proof.
  intros Hok Ho Hs. pose proof (touched_refl i a r Ho) as Ht. unfold _reconcile_account_locked. wp_step. wp_step. wp_step; [|by exists a]. wp_step. apply wp_zoom. cbn [snd fst].
  unfold _authenticate_account_registry_unlocked. wp_step. wp_step. destruct (authoritative i r); [|wp_step; by exists a]. wp_step. wp_step. wp_step. cbn [snd]. rewrite Ho. wp_step. wp_step.
  destruct (authority_nonneg getpid (device a) r Hok) as [Hb Hn]. wp_step. wp_step. wp_step.
  eapply wp_transaction; [by apply (reconcile_raw_spec conv euid getpid start process_alive now has_fcntl switch getpid_pos self_alive now_float [] alone_live alone_distinct)|done|].
  intros [v|e] w'; wp_step; apply wp_onR_store0; [|wp_step].
  - exists (with_pending false a). split; [|done]. apply touched_change; [done|keeps].
  - exists (count_failure a). split; [|done]. apply touched_change; [done|keeps].
Qed.

Lemma grow_touch i a size cap count inode_cap enabled w r : coordinated has_fcntl switch enabled = true -> objects r !! i = Some a -> sound conv euid [mine (device a) r] (disk w) ->
  wp 0 (grow_account conv euid getpid start process_alive now has_fcntl switch i size cap count inode_cap enabled)
    (fun res _ p => exists a', touched i a a' r (snd p)
      /\ (reserved_bytes a', reserved_inodes a') = match res with Ok _ => (reserved_bytes a + size, reserved_inodes a + count) | Err _ => (reserved_bytes a, reserved_inodes a) end) (w, r).
Proof.
  intros Hco Ho Hs. pose proof (touched_refl i a r Ho) as Ht. unfold grow_account. wp_step. wp_step. cbn [snd]. rewrite Ho. wp_step. apply wp_zoom. cbn [snd fst].
  unfold _authenticate_account_registry_unlocked. wp_step. wp_step. destruct (authoritative i r); [|wp_step; by exists a]. wp_step. wp_step. wp_step.
  eapply wp_transaction; [by apply (reserve_raw_spec conv euid getpid start process_alive now has_fcntl switch getpid_pos self_alive now_float [] alone_live alone_distinct)|done|].
  intros [v|e] w'.
  - wp_step. apply wp_onR_store0. wp_step. apply wp_onR_store0. wp_step. wp_step. wp_step. exists (with_inodes (reserved_inodes a + count) (with_bytes (reserved_bytes a + size) a)). split; [|done].
    apply touched_change; [apply touched_change; [done|]|]; keeps.
  - wp_step. apply wp_onR_store0. wp_step. exists (with_pending true a). split; [|done]. apply touched_change; [done|keeps].
Qed.

Lemma shrink_touch i a size count enabled w r : 0 <= size -> 0 <= count -> objects r !! i = Some a -> sound conv euid [mine (device a) r] (disk w) ->
  wp 0 (shrink_account conv euid getpid start process_alive now has_fcntl switch i size count enabled)
    (fun res _ p => exists a', touched i a a' r (snd p)
      /\ match res with
         | Ok _ => (reserved_bytes a', reserved_inodes a') = (reserved_bytes a - size, reserved_inodes a - count)
         | Err _ => (reserved_bytes a', reserved_inodes a') = (reserved_bytes a, reserved_inodes a)
             \/ (reserved_bytes a', reserved_inodes a') = (reserved_bytes a - size, reserved_inodes a - count) /\ reconciliation_pending a' = true
         end) (w, r).
Proof.
  intros Hsz Hct Ho Hs. pose proof (touched_refl i a r Ho) as Ht. unfold shrink_account. wp_step. wp_step. cbn [snd]. rewrite Ho.
  destruct (_ || _); [wp_step; exists a; by split; [|left]|]. wp_step. apply wp_zoom. cbn [snd fst].
  unfold _authenticate_account_registry_unlocked. wp_step. wp_step. destruct (authoritative i r); [|wp_step; exists a; by split; [|left]]. wp_step.
  wp_step. apply wp_onR_store0. wp_step. apply wp_onR_store0. wp_step. apply wp_onR_store0. wp_step. wp_step.
  set (low := with_pending true (with_inodes (reserved_inodes a - count) (with_bytes (reserved_bytes a - size) a))).
  assert (Hlow : touched i a low r (change i (with_pending true) (change i (with_inodes (reserved_inodes a - count)) (change i (with_bytes (reserved_bytes a - size)) r)))).
  { apply touched_change; [apply touched_change; [by apply touched_change; [|keeps]|keeps]|keeps]. }
  eapply wp_transaction; [by apply (release_raw_spec conv euid getpid start process_alive now has_fcntl switch getpid_pos self_alive now_float [] alone_live alone_distinct)| |].
  - eapply (sound_less _ _ _ _ []); [exact Hs|cbn; lia..].
  - intros [v|e] w'; wp_step; apply wp_onR_store0; wp_step.
    + exists (with_pending false low). split; [|done]. apply touched_change; [done|keeps].
    + exists (count_failure low). split; [|by right]. apply touched_change; [done|keeps].
Qed.

(** The document of the device still covers what the process holds, and nothing
    has happened to the other devices. *)
Record carried (dev : Z) (r r' : registry) (d : files) : Prop := {
  cd_registry : registry_ok getpid r';
  cd_sound : sound conv euid [mine dev r'] d;
  cd_others : forall dev', dev' <> dev -> authority dev' r' = authority dev' r;
}.

Lemma kept_carried dev w r w' r' : kept conv euid getpid start [] dev w r w' r' -> carried dev r r' (disk w').
Proof. by intros []. Qed.

Lemma carried_on dev r r1 r2 d1 d2 : carried dev r r1 d1 -> carried dev r1 r2 d2 -> carried dev r r2 d2.
Proof. intros [_ _ H1] [? ? H2]. split; [done|done|]. intros dev' Hne. by rewrite H2, H1. Qed.

Lemma reconcile_both i a enabled w r : usable getpid i a r -> sound conv euid [mine (device a) r] (disk w) ->
  wp 0 (_reconcile_account_locked conv euid getpid start process_alive now has_fcntl switch i enabled)
    (fun _ _ p => carried (device a) r (snd p) (disk (fst p))
      /\ exists a', touched i a a' r (snd p) /\ reserved_bytes a' = reserved_bytes a /\ reserved_inodes a' = reserved_inodes a) (w, r).
Proof.
  intros [Hok Ho Hv _] Hs. apply (wp0_and _ (fun _ p => carried (device a) r (snd p) (disk (fst p)))); [|by apply reconcile_touch].
  eapply wp0_mono; [eapply wp_mono; [by apply (reconcile_phase conv euid getpid start process_alive now has_fcntl switch getpid_pos self_alive now_float [] alone_live alone_distinct 0 i a)|]|].
  - intros res n p _ [Hk _]. exact (kept_carried _ _ _ _ _ Hk).
  - by intros res p Hc.
Qed.

Lemma reserve_both i a size cap count inode_cap enabled w r : coordinated has_fcntl switch enabled = true -> usable getpid i a r -> 0 <= size -> 0 <= count ->
  sound conv euid [mine (device a) r] (disk w) ->
  wp 0 (reserve_cross_process_account conv euid getpid start process_alive now has_fcntl switch i size cap count inode_cap enabled)
    (fun res _ p => carried (device a) r (snd p) (disk (fst p)) /\ exists a', touched i a a' r (snd p)
      /\ (reserved_bytes a', reserved_inodes a') = match res with Ok _ => (reserved_bytes a + size, reserved_inodes a + count) | Err _ => (reserved_bytes a, reserved_inodes a) end) (w, r).
Proof.
  intros Hco Hu Hsz Hct Hs. unfold reserve_cross_process_account. wp_step. apply wp_zoom, (check_request_ok getpid i a); [done..|]. cbn [fst snd]. wp_step.
  eapply wp0_mono; [by apply reconcile_both|]. intros [[]|e] [w1 r1] [Hc (a1 & Ht & Hb & Hn)]; cbn [fst snd] in *; [|split; [done|exists a1; by rewrite Hb, Hn]].
  pose proof Hc as [Hok1 Hs1 _]. pose proof (tc_object _ _ _ _ _ Ht) as Ho1. rewrite <- (tc_device _ _ _ _ _ Ht) in Hs1.
  eapply wp0_mono; [apply (wp0_and _ (fun _ p => carried (device a1) r1 (snd p) (disk (fst p)))); [|by apply (grow_touch i a1)]|].
  - eapply wp_mono; [by apply (grow_phase conv euid getpid start process_alive now has_fcntl switch getpid_pos self_alive now_float [] alone_live alone_distinct 0 i a1)|].
    intros res n p _ [Hk _]. exact (kept_carried _ _ _ _ _ Hk).
  - intros res p [Hc2 (a2 & Ht2 & E)]. rewrite (tc_device _ _ _ _ _ Ht) in Hc2. split; [by eapply carried_on|]. exists a2. split; [by eapply touched_trans|]. by rewrite E, Hb, Hn.
Qed.

Lemma release_both i a size count enabled w r : usable getpid i a r -> 0 <= size -> 0 <= count -> sound conv euid [mine (device a) r] (disk w) ->
  wp 0 (release_cross_process_account conv euid getpid start process_alive now has_fcntl switch i size count enabled)
    (fun res _ p => carried (device a) r (snd p) (disk (fst p)) /\ exists a', touched i a a' r (snd p)
      /\ match res with
         | Ok _ => (reserved_bytes a', reserved_inodes a') = (reserved_bytes a - size, reserved_inodes a - count)
         | Err _ => (reserved_bytes a', reserved_inodes a') = (reserved_bytes a, reserved_inodes a)
             \/ (reserved_bytes a', reserved_inodes a') = (reserved_bytes a - size, reserved_inodes a - count) /\ reconciliation_pending a' = true
         end) (w, r).
Proof.
  intros Hu Hsz Hct Hs. unfold release_cross_process_account. wp_step. apply wp_zoom, (check_request_ok getpid i a); [done..|]. cbn [fst snd]. wp_step.
  eapply wp0_mono; [by apply reconcile_both|]. intros [[]|e] [w1 r1] [Hc (a1 & Ht & Hb & Hn)]; cbn [fst snd] in *; [|split; [done|exists a1; rewrite Hb, Hn; by split; [|left]]].
  pose proof Hc as [Hok1 Hs1 _]. pose proof (tc_object _ _ _ _ _ Ht) as Ho1. rewrite <- (tc_device _ _ _ _ _ Ht) in Hs1.
  eapply wp0_mono; [apply (wp0_and _ (fun _ p => carried (device a1) r1 (snd p) (disk (fst p)))); [|by apply (shrink_touch i a1)]|].
  - eapply wp_mono; [by apply (shrink_phase conv euid getpid start process_alive now has_fcntl switch getpid_pos self_alive now_float [] alone_live alone_distinct 0 i a1)|].
    intros res n p _ [Hk _]. exact (kept_carried _ _ _ _ _ Hk).
  - intros res p [Hc2 (a2 & Ht2 & E)]. rewrite (tc_device _ _ _ _ _ Ht) in Hc2. split; [by eapply carried_on|]. exists a2. split; [by eapply touched_trans|]. by rewrite Hb, Hn in E.
Qed.
End Accounts.

(** ** The instance *)

Section Stack.
Variables (conv : conversions) (euid getpid : Z) (start : text) (moments : nat -> moment).

(** A call on the document of the account's device, with what it finds. *)
Definition on_document {A} (i : nat) (m : surroundings -> M (world * registry) A) : M stack A := fun k h =>
  let dev := device (account_at h i) in
  let now := moments (calls h) in
  match m (around now) k (start_world (meanwhile now dev (papers h dev)) (faults now), book h) with
  | (r, k', (w, b)) => (r, k', mk_stack (put_document dev (disk w) (papers h)) b (S (calls h)))
  end.

#[export] Instance stack_accounts : HostAccounts stack := {
  open_account dev := zoom book (fun b h => mk_stack (papers h) b (calls h)) (open_cross_process_storage_account getpid dev);
  reserve_account i size capacity inodes inode_capacity := on_document i (fun s =>
    reserve_cross_process_account conv euid getpid start (probe s) (clock s) (fcntl_imported s) (environment s) i size capacity inodes (Some inode_capacity) (Some true));
  release_account i size inodes := on_document i (fun s =>
    release_cross_process_account conv euid getpid start (probe s) (clock s) (fcntl_imported s) (environment s) i size inodes (Some true));
  close_account i := on_document i (fun s =>
    close_cross_process_storage_account conv euid getpid start (probe s) (clock s) (fcntl_imported s) (environment s) i);
  account_bytes h i := reserved_bytes (account_at h i);
  account_inodes h i := reserved_inodes (account_at h i);
  account_pending h i := reconciliation_pending (account_at h i);
  account_closed h i := closed (account_at h i);
}.

Hypothesis getpid_pos : 0 < getpid.
(** At every moment the process is reported alive, the clock is a float, [fcntl] is
    there, and the other processes keep what the record of this one covers. *)
Hypothesis alive : forall k, probe (around (moments k)) getpid start = true.
Hypothesis clocks : forall k, float_literal (clock (around (moments k))) = true.
Hypothesis imported : forall k, fcntl_imported (around (moments k)) = true.
Hypothesis respected : forall k dev b n d, sound conv euid [mk_claim getpid start b n] d -> sound conv euid [mk_claim getpid start b n] (meanwhile (moments k) dev d).

#[local] Abbreviation mine dev r := (me getpid start dev r).

Record stack_ok (h : stack) : Prop := {
  sk_registry : registry_ok getpid (book h);
  sk_sequence : 0 <= account_sequence (book h);
  sk_sound : forall dev, sound conv euid [mine dev (book h)] (papers h dev);
}.

Definition stack_live (h : stack) (dev : Z) (i : nat) : Prop := exists a, usable getpid i a (book h) /\ device a = dev.

Lemma account_at_eq h i a : objects (book h) !! i = Some a -> account_at h i = a.
Proof. intros E. unfold account_at. by rewrite E. Qed.

Lemma usable_amounts h i a : usable getpid i a (book h) -> amounts h i = (reserved_bytes a, reserved_inodes a).
Proof. intros [_ Ho _ _]. unfold amounts. cbn [account_bytes account_inodes stack_accounts]. by rewrite (account_at_eq h i a Ho). Qed.

Lemma usable_account h i a : usable getpid i a (book h) -> account_bytes h i = reserved_bytes a /\ account_inodes h i = reserved_inodes a.
Proof. intros [_ Ho _ _]. cbn [account_bytes account_inodes stack_accounts]. by rewrite (account_at_eq h i a Ho). Qed.

Lemma wp_on_document {A} i a m (Q : result A -> nat -> stack -> Prop) h : stack_ok h -> usable getpid i a (book h) ->
  (forall w, sound conv euid [mine (device a) (book h)] (disk w) -> wp 0 (m (around (moments (calls h)))) (fun r n p =>
     Q r n (mk_stack (put_document (device a) (disk (fst p)) (papers h)) (snd p) (S (calls h)))) (w, book h)) ->
  wp 0 (on_document i m) Q h.
Proof.
  intros Hok Hu Hm k Hk. unfold on_document. rewrite (account_at_eq h i a (us_object _ _ _ _ Hu)). pose proof (sk_sound _ Hok (device a)) as Hs. apply (respected (calls h) (device a)) in Hs.
  specialize (Hm (start_world (meanwhile (moments (calls h)) (device a) (papers h (device a))) (faults (moments (calls h)))) Hs k Hk).
  by destruct (m _ k _) as [[r k'] [w b]].
Qed.

Lemma stack_ok_carried h i a a' r' d n : stack_ok h -> carried conv euid getpid start (device a) (book h) r' d -> touched i a a' (book h) r' ->
  stack_ok (mk_stack (put_document (device a) d (papers h)) r' n).
Proof.
  intros [_ Hseq Hs] [Hok Hsd Hoth] Ht. split; cbn [book papers]; [done|by rewrite (tc_sequence _ _ _ _ _ Ht)|]. intros dev. unfold put_document.
  destruct (Z.eqb_spec dev (device a)) as [->|Hne]; [done|]. unfold me. rewrite Hoth by done. apply Hs.
Qed.

Lemma touched_live h h' i a a' : usable getpid i a (book h) -> touched i a a' (book h) (book h') -> registry_ok getpid (book h') ->
  (forall dev j, stack_live h dev j -> stack_live h' dev j /\ (j <> i -> amounts h' j = amounts h j)) /\ amounts h' i = (reserved_bytes a', reserved_inodes a').
Proof.
  intros Hu Ht Hok. split.
  - intros dev j (b & Hub & Hd). destruct (usable_touched getpid i a a' _ _ j b Hu Ht Hok Hub) as (b' & Hub' & Hd' & _ & Hne). split; [exists b'; split; [done|congruence]|].
    intros Hji. rewrite (usable_amounts _ _ _ Hub), (usable_amounts _ _ _ Hub'). by rewrite Hne.
  - destruct (usable_touched getpid i a a' _ _ i a Hu Ht Hok Hu) as (b' & Hub' & _ & He & _). rewrite (usable_amounts _ _ _ Hub'). by rewrite He.
Qed.

Lemma stack_open_law h d : stack_ok h -> wp 0 (open_account d) (fun r _ h' =>
  stack_ok h' /\ (forall d' a, stack_live h d' a -> stack_live h' d' a /\ amounts h' a = amounts h a)
  /\ forall a, r = Ok a -> stack_live h' d a /\ (forall d', ~ stack_live h d' a) /\ amounts h' a = (0, 0)) h.
Proof.
  intros [Hok Hseq Hs]. apply wp_zoom. eapply wp0_mono; [apply (wp0_and _ (fun _ r' => unmoved getpid (book h) r')); [by apply open_phase|by apply open_frame]|].
  intros r r' [[Hok' Ea] Hf]. destruct (Hf Hok') as (Hseq' & Hfr & Hnew). split; [|split].
  - split; cbn [book papers]; [done|done|]. intros dev. unfold me. rewrite Ea. apply Hs.
  - intros d' a (b & Hu & Hd). apply Hfr in Hu as Hu'. split; [by exists b|]. by rewrite (usable_amounts _ _ _ Hu), (usable_amounts (mk_stack (papers h) r' (calls h)) a b Hu').
  - intros i E. destruct (Hnew i E) as (Hno & a & Hu & Hd & Hb & Hn). split; [by exists a|split].
    + intros d' (b & [_ Hob _ _] & _). congruence.
    + by rewrite (usable_amounts (mk_stack (papers h) r' (calls h)) i a Hu), Hb, Hn.
Qed.

Lemma stack_reserve_law h d a s cap k icap : stack_ok h -> stack_live h d a -> 0 <= s -> 0 <= k -> wp 0 (reserve_account a s cap k icap) (fun r _ h' =>
  stack_ok h' /\ (forall d' a', stack_live h d' a' -> stack_live h' d' a' /\ (a' <> a -> amounts h' a' = amounts h a'))
  /\ amounts h' a = match r with Ok _ => (account_bytes h a + s, account_inodes h a + k) | Err _ => amounts h a end) h.
Proof.
  intros Hok (x & Hu & <-) Hs Hk. apply (wp_on_document _ x); [done|done|]. intros w Hw. eapply wp0_mono.
  { apply (reserve_both conv euid getpid start _ _ _ _ getpid_pos (alive _) (clocks _) a x); [cbn; by rewrite imported|done..]. }
  intros r [w' r'] [Hc (x' & Ht & E)]. cbn [fst snd] in *. set (h' := mk_stack _ _ _). destruct (touched_live h h' a x x' Hu Ht (cd_registry _ _ _ _ _ _ _ _ Hc)) as [Hfr Ham].
  split; [by eapply stack_ok_carried|split; [done|]]. rewrite Ham, E, (usable_amounts h a x Hu). destruct (usable_account h a x Hu) as [-> ->]. by destruct r.
Qed.

Lemma stack_release_law h d a s k : stack_ok h -> stack_live h d a -> 0 <= s -> 0 <= k -> wp 0 (release_account a s k) (fun r _ h' =>
  stack_ok h' /\ (forall d' a', stack_live h d' a' -> stack_live h' d' a' /\ (a' <> a -> amounts h' a' = amounts h a'))
  /\ match r with
     | Ok _ => amounts h' a = (account_bytes h a - s, account_inodes h a - k)
     | Err _ => amounts h' a = amounts h a \/ amounts h' a = (account_bytes h a - s, account_inodes h a - k) /\ account_pending h' a = true
     end) h.
Proof.
  intros Hok (x & Hu & <-) Hs Hk. apply (wp_on_document _ x); [done|done|]. intros w Hw. eapply wp0_mono.
  { by apply (release_both conv euid getpid start _ _ _ _ getpid_pos (alive _) (clocks _) a x). }
  intros r [w' r'] [Hc (x' & Ht & E)]. cbn [fst snd] in *. set (h' := mk_stack _ _ _). destruct (touched_live h h' a x x' Hu Ht (cd_registry _ _ _ _ _ _ _ _ Hc)) as [Hfr Ham].
  split; [by eapply stack_ok_carried|split; [done|]]. rewrite Ham, (usable_amounts h a x Hu). destruct (usable_account h a x Hu) as [-> ->].
  destruct r as [z|e]; [done|]. destruct E as [E|[E Hp]]; [by left|right; split; [done|]]. cbn [account_pending stack_accounts]. by rewrite (account_at_eq h' a x' (tc_object _ _ _ _ _ Ht)).
Qed.

Lemma stack_close_law h d a : stack_ok h -> stack_live h d a -> wp 0 (close_account a) (fun r _ h' =>
  stack_ok h' /\ (forall d' a', stack_live h d' a' -> a' <> a -> stack_live h' d' a' /\ amounts h' a' = amounts h a')
  /\ forall e, r = Err e -> stack_live h' d a /\ amounts h' a = amounts h a) h.
Proof.
  intros Hok (x & Hu & <-). apply (wp_on_document _ x); [done|done|]. intros w Hw. unfold close_cross_process_storage_account. wp_step. apply wp_zoom, (check_request_ok getpid a x); [done..|].
  cbn [fst snd]. wp_step. eapply wp0_mono; [by apply (reconcile_both conv euid getpid start _ _ _ _ getpid_pos (alive _) (clocks _) a x)|].
  intros r [w1 r1] [Hc (x1 & Ht & Hb & Hn)]. cbn [fst snd] in *.
  set (h1 := mk_stack (put_document (device x) (disk w1) (papers h)) r1 (S (calls h))). destruct (touched_live h h1 a x x1 Hu Ht (cd_registry _ _ _ _ _ _ _ _ Hc)) as [Hfr Ham].
  assert (Hok1 : stack_ok h1) by (by eapply stack_ok_carried).
  assert (Hsame : (forall d' a', stack_live h d' a' -> a' <> a -> stack_live h1 d' a' /\ amounts h1 a' = amounts h a') /\ stack_live h1 (device x) a /\ amounts h1 a = amounts h a).
  { split; [intros d' a' Hl Hne; destruct (Hfr d' a' Hl); auto|]. split; [by apply Hfr; exists x|]. by rewrite Ham, (usable_amounts h a x Hu), Hb, Hn. }
  destruct Hsame as (Hs1 & Hl1 & Ha1). destruct r as [[]|e]; [|done]. apply wp_zoom. cbn [fst snd]. destruct (usable_touched getpid a x x1 _ _ a x Hu Ht (cd_registry _ _ _ _ _ _ _ _ Hc) Hu) as (y & Hy & _ & Ey & _).
  rewrite (Ey eq_refl) in Hy. eapply wp0_mono; [apply (wp0_and _ (fun _ r' => unmoved getpid r1 r')); [apply retire_phase, Hy|apply (retire_frame getpid a x1 r1 Hy)]|].
  intros r r2 [[Hok2 Ea] (Eseq & Hfr2 & Herr)]. destruct Hok1 as [_ Hseq1 Hs2]. cbn [book papers h1] in Hseq1, Hs2. split; [|split].
  - split; cbn [book papers snd fst]; [done|by rewrite Eseq|]. intros dev. unfold me. rewrite Ea. apply Hs2.
  - intros d' a' Hl Hne. destruct (Hs1 d' a' Hl Hne) as [(b & Hub & Hd) Eb]. cbn [book h1] in Hub. pose proof (Hfr2 a' b Hne Hub Hok2) as Hub2. split; [by exists b|].
    rewrite <- Eb, (usable_amounts h1 a' b Hub). by apply usable_amounts.
  - intros e E. pose proof (Herr e E) as ->. done.
Qed.

Definition stack_laws : HostLaws stack := {|
  sane := stack_ok;
  live := stack_live;
  live_open := fun h d a '(ex_intro _ x (conj Hu _)) => eq_trans (f_equal closed (account_at_eq h a x (us_object _ _ _ _ Hu))) (proj1 (proj2 (usable_fields getpid a x (book h) Hu)));
  open_law := stack_open_law;
  reserve_law := stack_reserve_law;
  release_law := fun h d a s k Hs Hl H1 H2 => stack_release_law h d a s k Hs Hl (proj1 H1) (proj1 H2);
  close_law := stack_close_law;
|}.

(** What one account holds is part of what the process holds on its device. *)
Lemma authority_covers i a r : usable getpid i a r ->
  reserved_bytes a <= fst (_device_authority_unlocked getpid (device a) r) /\ reserved_inodes a <= snd (_device_authority_unlocked getpid (device a) r).
Proof.
  intros [Hok Ho Hv _]. destruct (change_spec getpid i (fun x => with_inodes 0 (with_bytes 0 x)) r a Hok Hv Ho) as (Hok' & _ & _ & E); [by intros x|done|done|].
  specialize (E (device a)). rewrite Z.eqb_refl in E. destruct (authority_nonneg getpid (device a) _ Hok') as [Hb Hn]. rewrite E in Hb, Hn. cbn in Hb, Hn. lia.
Qed.

End Stack.

(** ** Witnesses *)

Module StackExample.
#[local] Abbreviation conv := CoordinationJournal.Example.conv.
#[local] Abbreviation everyone := CrossProcessStorage.StorageExample.everyone.

(** Nothing fails, nobody interferes. *)
Definition calm (k : nat) : moment := mk_moment (mk_surroundings everyone (lit "1.5") true (Some (lit "1"))) [] (fun _ d => d).

#[export] Instance example_accounts : HostAccounts stack := stack_accounts conv 1000 10 (lit "boot:1") calm.

Lemma calm_respects : forall k dev b n d, sound conv 1000 [mk_claim 10 (lit "boot:1") b n] d -> sound conv 1000 [mk_claim 10 (lit "boot:1") b n] (meanwhile (calm k) dev d).
Proof. done. Qed.

#[export] Instance example_laws : HostLaws stack :=
  stack_laws conv 1000 10 (lit "boot:1") calm ltac:(lia) (fun _ => eq_refl) (fun _ => eq_refl) (fun _ => eq_refl) calm_respects.

Definition empty_stack : stack := mk_stack (fun _ => mk_files [] None None) new_registry 0.

(** A file system with 200 bytes and 968 inodes above the floors, with coordination. *)
Definition disk_view : view := mk_view (Ok (7, 1200)) (Some 1000) 1000 1000 true (Ok tt) false (Ok tt).

Definition requests : list request := [Reserve disk_view 60 1; Reserve disk_view 30 1; Release 0].
Definition after : stack * governor := history requests (empty_stack, new_governor).

Lemma empty_stack_ok : stack_ok conv 1000 10 (lit "boot:1") empty_stack.
Proof.
  split; [split; cbn; [apply NoDup_nil_2..|constructor]|done|]. intros dev. apply (sound_plain conv 1000 _ [] []); [done|split; constructor|]. constructor; [|done]. by split.
Qed.

Lemma governor_ledger_exact_witness : usage 7 (snd after) = (30, 1) /\ protocol_violations (snd after) = 0.
Proof. split; [vm_compute; reflexivity|]. pose proof (governor_ledger_exact empty_stack requests 7 empty_stack_ok) as G. destruct G as [G _]. exact G. Defined.

Lemma reservation_outcome_witness :
  fst (run (reserve_capability disk_view 60 1) (empty_stack, new_governor)) = Ok 0%nat
  /\ reserved disk_view 60 1 new_governor (fst (run (reserve_capability disk_view 60 1) (empty_stack, new_governor))) (snd (snd (run (reserve_capability disk_view 60 1) (empty_stack, new_governor)))).
Proof. split; [vm_compute; reflexivity|]. exact (reservation_outcome empty_stack [] disk_view 60 1 empty_stack_ok eq_refl). Defined.


(** The same file system without coordination, and a release that is cut between the
    stores of the device's state and of its capability. *)
Definition local_view : view := mk_view (Ok (7, 1200)) (Some 1000) 1000 1000 false (Ok tt) false (Ok tt).
Definition cut : list (request * sched) := [(Reserve local_view 60 1, []); (Release 0, [7%nat])].
Definition after_cut : stack * governor := interrupted_history cut (empty_stack, new_governor).


(** After the cut the device has no state, since its state counted nothing any more,
    while the capability still holds its bytes.  Releasing it again fails for want
    of the state, and every new state of the device is quarantined at once. *)
Example cut_release_wedges_device :
  zget 7 (states (snd after_cut)) = None /\ usage 7 (snd after_cut) = (60, 1)
  /\ run (release_capability 0) after_cut = (Err RuntimeError, after_cut)
  /\ fst (run (reserve_capability local_view 10 0) after_cut) = Err (ResourceError "temporary_storage_corruption_quarantine" 0 1).
Proof. vm_compute. repeat split. Qed.

(** The third call, which lowers the host's record for the old device of a move, meets
    an [OSError] at its first system call; everything else goes well. *)
Definition rough (k : nat) : moment := mk_moment (around (calm k)) (if (k =? 2)%nat then [Some (OSError, 0%nat)] else []) (fun _ d => d).
Definition other_view : view := mk_view (Ok (8, 1200)) (Some 1000) 1000 1000 true (Ok tt) false (Ok tt).

(** The release of the old capability has committed when the error is raised, so that
    the move takes it for failed and releases the new capability as well: the caller
    is told of a failure and is left without any reservation. *)
Example failed_move_loses_both :
  let HA := stack_accounts conv 1000 10 (lit "boot:1") rough in
  let p := @history _ HA [Reserve disk_view 60 1] (empty_stack, new_governor) in
  let r := run (@resize_capability _ HA other_view (Ok 8) 0 60 None) p in
  usage 7 (snd p) = (60, 1) /\ fst r = Err OSError /\ usage 7 (snd (snd r)) = (0, 0) /\ usage 8 (snd (snd r)) = (0, 0) /\ capabilities (snd (snd r)) = [].
Proof. vm_compute. repeat split. Qed.
End StackExample.
