(* ===== verification/ProjectionAudit.v ===== *)
(** * ProjectionAudit: contract audits of Parquet projections

    [adapters/parquet/projection/audits]: a projected layout summary against the
    full one (subset), a projection of a projection (composition), disjoint
    projections that rebuild the layout (partitions), and partial or overlapping
    ones (coverage).  Summaries are Python dicts, modelled as values of
    [JsonLib]; the report dicts have fixed keys and are records. *)

From Stdlib Require Import Ascii String.
From S2P Require Import Prelude PyLib JsonLib.
Import Text.

#[local] Open Scope Z_scope.

(** ** Shared helpers (audits/summary.py) *)

(** [sorted(set(names))]. *)
Definition sorted_names (names : list text) : list text := Seq.sorted leb (remove_dups names).

Definition occurrences_of (name : text) (values : list text) : nat := length (filter (fun v => v = name) values).

Definition duplicate_names (values : list text) : list text :=
  sorted_names (filter (fun name => (1 < occurrences_of name values)%nat) values).

Record verdict : Type := mk_verdict { stable : bool; mismatches : list text }.

Definition clean : verdict := mk_verdict true [].

Definition note_mismatch (message : text) (v : verdict) : verdict :=
  mk_verdict false (mismatches v ++ [message]).

(** [if condition: note_mismatch(audit, message)]. *)
Definition note_if (condition : bool) (message : text) (v : verdict) : verdict :=
  if condition then note_mismatch message v else v.

Definition summary_list (summary : json) (key : text) : result (list text) :=
  if is_dict summary then
    match py_list (py_or (dict_get summary key) (JList [])) with
    | Ok values => Ok (str_of <$> values)
    | Err e => Err e
    end
  else Ok [].

Abbreviation contracts := (gmap text text).

Definition summary_dict (summary : json) (key : text) : contracts :=
  match py_or (dict_get summary key) (JObj []) with
  | JObj members => foldl (fun acc m => <[m.1 := str_of m.2]> acc) ∅ members
  | _ => ∅
  end.

Definition fingerprint_item (mapping : contracts) (name : text) : option text :=
  match (mapping !! name : option text) with
  | Some fingerprint => Some (name ++ lit "=" ++ fingerprint)
  | None => None
  end.

Definition ordered_fingerprint (mapping : contracts) (names : list text) : text :=
  join (lit ";") (omap (fingerprint_item mapping) names).

Definition canonical_fingerprint (mapping : contracts) (names : list text) : text :=
  ordered_fingerprint mapping (sorted_names names).

(** [f"{names!r}"]. *)
Definition repr_names (names : list text) : text := py_repr (JList (JStr <$> names)).

Definition is_none (v : json) : bool := match v with JNull => true | _ => false end.

(** [bool(summary.get("stable_across_row_groups"))], false without a dict. *)
Definition row_groups_stable (summary : json) : bool :=
  py_truthy (default JNull (dict_get summary (lit "stable_across_row_groups"))).

(** [sorted(a - b)] for a collection [b] given by its membership test. *)
Definition sorted_difference (a : list text) (member : text -> bool) : list text :=
  sorted_names (filter (fun name => member name = false) a).

Definition in_list (l : list text) (name : text) : bool := bool_decide (name ∈ l).
Definition in_map (m : contracts) (name : text) : bool := bool_decide (is_Some (m !! name)).

(** [{name: mapping[name] for name in sorted(names & set(mapping))}]. *)
Definition restrict_to (mapping : contracts) (names : list text) : contracts :=
  filter (fun kv => kv.1 ∈ names) mapping.

Definition nonempty {A} (l : list A) : bool := match l with [] => false | _ => true end.

Definition _FIELD : text := lit "field_fingerprints_by_name".
Definition _LEAF : text := lit "leaf_contract_fingerprints_by_name".
Definition _ROOT : text := lit "root_contract_fingerprints_by_name".

(** The three contract maps of a summary. *)
Record contract_maps : Type := mk_maps { field_map : contracts; leaf_map : contracts; root_map : contracts }.

Definition empty_maps : contract_maps := mk_maps ∅ ∅ ∅.

Definition summary_maps (summary : json) : contract_maps :=
  mk_maps (summary_dict summary _FIELD) (summary_dict summary _LEAF) (summary_dict summary _ROOT).

(** Three fingerprint strings, for the field, leaf and root contracts. *)
Record fingerprints : Type := mk_fingerprints { field_print : text; leaf_print : text; root_print : text }.

Definition no_prints : fingerprints := mk_fingerprints [] [] [].

Definition prints (f : contracts -> text) (m : contract_maps) : fingerprints :=
  mk_fingerprints (f (field_map m)) (f (leaf_map m)) (f (root_map m)).

(** Three verdicts by name. *)
Record family_matches : Type := mk_matches {
  field_matches : gmap text bool;
  leaf_matches : gmap text bool;
  root_matches : gmap text bool;
}.

Definition no_matches : family_matches := mk_matches ∅ ∅ ∅.

(** ** Subset audits (audits/subset.py) *)

Record subset_audit : Type := mk_subset {
  report : verdict;
  full_summary_ready : bool;
  projected_summary_ready : bool;
  full_stable_across_row_groups : bool;
  projected_stable_across_row_groups : bool;
  expected_columns : list text;
  projected_field_order : list text;
  projection_order_matches : bool;
  duplicate_expected_columns : list text;
  missing_source_columns : list text;
  missing_projected_columns : list text;
  unexpected_projected_columns : list text;
  matches_by_name : family_matches;
  expected_maps : contract_maps;
  projected_maps : contract_maps;
  expected_prints : fingerprints;
  actual_prints : fingerprints;
  canonical_expected_root : text;
  canonical_actual_root : text;
}.

Definition is_stable (a : subset_audit) : bool := stable (report a).

Definition build_subset_audit (full_summary projected_summary : json) (columns : option (list text)) : result subset_audit :=
  projected_order ← summary_list projected_summary (lit "field_order");
  let expected := match columns with Some c => c | None => projected_order end in
  let full_stable := row_groups_stable full_summary in
  let projected_stable := row_groups_stable projected_summary in
  let order_matches := bool_decide (projected_order = expected) in
  let duplicates := duplicate_names expected in
  let v := note_if (is_none full_summary) (lit "full recursive layout summary is unavailable") clean in
  let v := note_if (is_none projected_summary) (lit "projected recursive layout summary is unavailable") v in
  let v :=
    if is_none full_summary || is_none projected_summary then v
    else
      let v := note_if (negb full_stable) (lit "full recursive layout summary is not stable across row groups") v in
      let v := note_if (negb projected_stable) (lit "projected recursive layout summary is not stable across row groups") v in
      let v := note_if (negb order_matches) (lit "projected recursive field order does not match requested projection order") v in
      note_if (nonempty duplicates)
        (lit "projected recursive contract audit received duplicate columns: " ++ repr_names duplicates) v in
  Ok (mk_subset v (is_dict full_summary) (is_dict projected_summary) full_stable projected_stable
        expected projected_order order_matches duplicates [] [] [] no_matches empty_maps empty_maps no_prints no_prints [] []).

(** One name of the comparison loop: the three verdicts and their diagnostics. *)
Definition compare_name (full projected : contract_maps) (state : verdict * family_matches) (name : text) : verdict * family_matches :=
  let '(v, m) := state in
  let field := bool_decide (field_map full !! name = field_map projected !! name) in
  let leaf := bool_decide (leaf_map full !! name = leaf_map projected !! name) in
  let root := bool_decide (root_map full !! name = root_map projected !! name) in
  let v := note_if (negb field) (lit "projected recursive field fingerprint drifted for " ++ repr_str name) v in
  let v := note_if (negb leaf) (lit "projected recursive leaf contract drifted for " ++ repr_str name) v in
  let v := note_if (negb root) (lit "projected recursive root contract drifted for " ++ repr_str name) v in
  (v, mk_matches (<[name := field]> (field_matches m)) (<[name := leaf]> (leaf_matches m)) (<[name := root]> (root_matches m))).

Definition restrict_maps (m : contract_maps) (names : list text) : contract_maps :=
  mk_maps (restrict_to (field_map m) names) (restrict_to (leaf_map m) names) (restrict_to (root_map m) names).

Definition compare_subset_contracts (a : subset_audit) (full_summary projected_summary : json) : subset_audit :=
  let full := summary_maps full_summary in
  let projected := summary_maps projected_summary in
  let expected := expected_columns a in
  let order := projected_field_order a in
  let missing_source := sorted_difference expected (in_map (root_map full)) in
  let missing_projected := sorted_difference expected (in_list order) in
  let unexpected := sorted_difference order (in_list expected) in
  let v := report a in
  let v := note_if (nonempty missing_source)
    (lit "projected recursive contract references columns absent from full layout: " ++ repr_names missing_source) v in
  let v := note_if (nonempty missing_projected)
    (lit "projected recursive layout omitted requested columns: " ++ repr_names missing_projected) v in
  let v := note_if (nonempty unexpected)
    (lit "projected recursive layout returned unexpected columns: " ++ repr_names unexpected) v in
  let comparable := filter (fun name => in_map (root_map full) name && in_map (root_map projected) name) expected in
  let '(v, m) := foldl (compare_name full projected) (v, matches_by_name a) comparable in
  mk_subset v (full_summary_ready a) (projected_summary_ready a) (full_stable_across_row_groups a)
    (projected_stable_across_row_groups a) expected order (projection_order_matches a) (duplicate_expected_columns a)
    missing_source missing_projected unexpected m
    (restrict_maps full expected) (restrict_maps projected order)
    (expected_prints a) (actual_prints a) (canonical_expected_root a) (canonical_actual_root a).

Definition record_subset_fingerprints (a : subset_audit) (full_summary projected_summary : json) : subset_audit :=
  let full := summary_maps full_summary in
  let projected := summary_maps projected_summary in
  let expected := expected_columns a in
  let order := projected_field_order a in
  let canonical_expected := canonical_fingerprint (root_map full) expected in
  let canonical_actual := canonical_fingerprint (root_map projected) order in
  let v := note_if (negb (bool_decide (canonical_expected = canonical_actual)))
    (lit "projected recursive canonical root-contract fingerprint does not match full layout subset") (report a) in
  mk_subset v (full_summary_ready a) (projected_summary_ready a) (full_stable_across_row_groups a)
    (projected_stable_across_row_groups a) expected order (projection_order_matches a) (duplicate_expected_columns a)
    (missing_source_columns a) (missing_projected_columns a) (unexpected_projected_columns a) (matches_by_name a)
    (expected_maps a) (projected_maps a)
    (prints (fun m => ordered_fingerprint m expected) full) (prints (fun m => ordered_fingerprint m order) projected)
    canonical_expected canonical_actual.

Definition _native_recursive_projection_contract_audit_from_summaries
    (full_summary projected_summary : json) (columns : option (list text)) : result subset_audit :=
  a ← build_subset_audit full_summary projected_summary columns;
  if is_none full_summary || is_none projected_summary then Ok a
  else
    let a := compare_subset_contracts a full_summary projected_summary in
    Ok (record_subset_fingerprints a full_summary projected_summary).

(** ** Composition audits (audits/composition.py) *)

Record chain_audit : Type := mk_chain {
  chain_report : verdict;
  chain_source_columns : list text;
  chain_columns : list text;
  duplicate_source_columns : list text;
  duplicate_projected_columns : list text;
  projected_columns_subset_of_source : bool;
  projected_columns_missing_from_source : list text;
  full_to_source : subset_audit;
  source_to_projected : subset_audit;
  full_to_projected : subset_audit;
  direct_vs_chained_root : bool;
  direct_vs_chained_leaf : bool;
  direct_vs_chained_field : bool;
  transitive_matches : family_matches;
}.

(** One contract family: the transitive verdict of every projected name. *)
Definition transitive_name (key : text) (full source projected : contracts) (state : verdict * gmap text bool) (name : text)
    : verdict * gmap text bool :=
  let '(v, m) := state in
  let matches := in_map full name && bool_decide (full !! name = source !! name)
                 && bool_decide (full !! name = projected !! name) in
  (note_if (negb matches) (lit "recursive projection chain " ++ key ++ lit " drifted for " ++ repr_str name) v,
   <[name := matches]> m).

Definition transitive_family (key : text) (full source projected : contracts) (names : list text) (v : verdict)
    : verdict * gmap text bool :=
  foldl (transitive_name key full source projected) (v, ∅) names.

(** [a == b == c]. *)
Definition all_equal (a b c : text) : bool := bool_decide (a = b) && bool_decide (b = c).

Definition _native_recursive_projection_chain_contract_audit_from_summaries
    (full_summary source_summary projected_summary : json) (source_columns columns : list text) : result chain_audit :=
  fs ← _native_recursive_projection_contract_audit_from_summaries full_summary source_summary (Some source_columns);
  sp ← _native_recursive_projection_contract_audit_from_summaries source_summary projected_summary (Some columns);
  fp ← _native_recursive_projection_contract_audit_from_summaries full_summary projected_summary (Some columns);
  let duplicate_source := duplicate_names source_columns in
  let duplicate_projected := duplicate_names columns in
  let missing := sorted_difference columns (in_list source_columns) in
  let subset := forallb (in_list source_columns) columns in
  let v := note_if (nonempty duplicate_source)
    (lit "recursive projection chain source contains duplicate columns: " ++ repr_names duplicate_source) clean in
  let v := note_if (nonempty duplicate_projected)
    (lit "recursive projection chain target contains duplicate columns: " ++ repr_names duplicate_projected) v in
  let v := note_if (negb subset)
    (lit "recursive projection chain target is not a subset of the source projection: " ++ repr_names missing) v in
  let v := note_if (negb (is_stable fs)) (lit "recursive projection chain full-to-source audit is not stable") v in
  let v := note_if (negb (is_stable sp)) (lit "recursive projection chain source-to-projected audit is not stable") v in
  let v := note_if (negb (is_stable fp)) (lit "recursive projection chain full-to-projected audit is not stable") v in
  let full := summary_maps full_summary in
  let source := summary_maps source_summary in
  let projected := summary_maps projected_summary in
  let '(v, root) := transitive_family _ROOT (root_map full) (root_map source) (root_map projected) columns v in
  let '(v, leaf) := transitive_family _LEAF (leaf_map full) (leaf_map source) (leaf_map projected) columns v in
  let '(v, field) := transitive_family _FIELD (field_map full) (field_map source) (field_map projected) columns v in
  let direct_root := all_equal (root_print (actual_prints fp)) (root_print (actual_prints sp)) (root_print (expected_prints fp)) in
  let direct_leaf := all_equal (leaf_print (actual_prints fp)) (leaf_print (actual_prints sp)) (leaf_print (expected_prints fp)) in
  let direct_field := all_equal (field_print (actual_prints fp)) (field_print (actual_prints sp)) (field_print (expected_prints fp)) in
  let v := note_if (negb direct_root)
    (lit "recursive projection chain direct_vs_chained_root_contract_fingerprint_matches is false") v in
  let v := note_if (negb direct_leaf)
    (lit "recursive projection chain direct_vs_chained_leaf_contract_fingerprint_matches is false") v in
  let v := note_if (negb direct_field)
    (lit "recursive projection chain direct_vs_chained_field_fingerprint_matches is false") v in
  Ok (mk_chain v source_columns columns duplicate_source duplicate_projected subset missing fs sp fp
        direct_root direct_leaf direct_field (mk_matches field leaf root)).

(** ** Partition audits (audits/partitions.py) *)

Record PartitionAuditInputs : Type := mk_partition_inputs {
  pi_partitions : list (list text);
  pi_summaries : list json;
  pi_full_order : list text;
  pi_requested_columns : list text;
  pi_duplicate_columns : list text;
  pi_partition_duplicate_columns : list (list text);
  pi_missing_columns : list text;
  pi_unknown_columns : list text;
  pi_full_maps : contract_maps;
}.

Definition prepare_partition_audit_inputs (full_summary : json) (summaries : list json) (partitions : list (list text))
    : result PartitionAuditInputs :=
  full_order ← summary_list full_summary (lit "field_order");
  let requested := concat partitions in
  Ok (mk_partition_inputs partitions summaries full_order requested (duplicate_names requested)
        (duplicate_names <$> partitions) (sorted_difference full_order (in_list requested))
        (sorted_difference requested (in_list full_order)) (summary_maps full_summary)).

(** [target[name] = fingerprint] for every item of the child's maps. *)
Definition add_maps (acc child : contract_maps) : contract_maps :=
  mk_maps (field_map child ∪ field_map acc) (leaf_map child ∪ leaf_map acc) (root_map child ∪ root_map acc).

Definition collect_recomposed_contracts (partition_audits : list subset_audit) : contract_maps :=
  foldl (fun acc child => add_maps acc (projected_maps child)) empty_maps partition_audits.

(** The child audit of every projection, with [None] where no summary was given. *)
Fixpoint child_audits (full_summary : json) (summaries : list json) (projections : list (list text)) : result (list subset_audit) :=
  match projections with
  | [] => Ok []
  | projection :: rest =>
    a ← _native_recursive_projection_contract_audit_from_summaries full_summary (default JNull (head summaries)) (Some projection);
    others ← child_audits full_summary (tail summaries) rest;
    Ok (a :: others)
  end.

Record partition_audit : Type := mk_partition {
  partition_report : verdict;
  partition_full_summary_ready : bool;
  partition_full_stable : bool;
  partition_inputs : PartitionAuditInputs;
  partition_audits : list subset_audit;
  partition_audits_stable : bool;
  coverage_exact : bool;
  recomposed_maps : contract_maps;
  canonical_full : fingerprints;
  canonical_recomposed : fingerprints;
  ordered_recomposed : fingerprints;
  field_fingerprint_matches_full : bool;
  leaf_contract_fingerprint_matches_full : bool;
  root_contract_fingerprint_matches_full : bool;
}.

(** [for index, child in enumerate(audits): if not child.get("stable"): ...]. *)
Fixpoint note_unstable (label : text) (index : Z) (audits : list subset_audit) (v : verdict) : verdict :=
  match audits with
  | [] => v
  | a :: rest =>
    note_unstable label (index + 1) rest
      (note_if (negb (is_stable a)) (label ++ lit "[" ++ print_int index ++ lit "] audit is not stable") v)
  end.

(** [for index, duplicates in enumerate(...): if duplicates: ...]. *)
Fixpoint note_duplicates (label : text) (index : Z) (duplicates : list (list text)) (v : verdict) : verdict :=
  match duplicates with
  | [] => v
  | d :: rest =>
    note_duplicates label (index + 1) rest
      (note_if (nonempty d) (label ++ lit "[" ++ print_int index ++ lit "] contains duplicate columns: " ++ repr_names d) v)
  end.

Definition apply_recomposed_contracts (a : partition_audit) : partition_audit :=
  let inputs := partition_inputs a in
  let values := collect_recomposed_contracts (partition_audits a) in
  let canonical := prints (fun m => canonical_fingerprint m (pi_full_order inputs)) values in
  mk_partition (partition_report a) (partition_full_summary_ready a) (partition_full_stable a) inputs
    (partition_audits a) (partition_audits_stable a) (coverage_exact a) values (canonical_full a) canonical
    (prints (fun m => ordered_fingerprint m (pi_requested_columns inputs)) values)
    (bool_decide (field_print (canonical_full a) = field_print canonical))
    (bool_decide (leaf_print (canonical_full a) = leaf_print canonical))
    (bool_decide (root_print (canonical_full a) = root_print canonical)).

Definition with_partition_report (v : verdict) (a : partition_audit) : partition_audit :=
  mk_partition v (partition_full_summary_ready a) (partition_full_stable a) (partition_inputs a) (partition_audits a)
    (partition_audits_stable a) (coverage_exact a) (recomposed_maps a) (canonical_full a) (canonical_recomposed a)
    (ordered_recomposed a) (field_fingerprint_matches_full a) (leaf_contract_fingerprint_matches_full a)
    (root_contract_fingerprint_matches_full a).

Definition _native_recursive_projection_partition_contract_audit_from_summaries
    (full_summary : json) (partition_summaries : list json) (partitions : list (list text)) : result partition_audit :=
  inputs ← prepare_partition_audit_inputs full_summary partition_summaries partitions;
  audits ← child_audits full_summary partition_summaries partitions;
  let all_stable := is_none full_summary || forallb is_stable audits in
  let a v := mk_partition v (is_dict full_summary) (row_groups_stable full_summary) inputs audits all_stable
    (negb (nonempty (pi_missing_columns inputs) || nonempty (pi_unknown_columns inputs) || nonempty (pi_duplicate_columns inputs)))
    empty_maps (prints (fun m => canonical_fingerprint m (pi_full_order inputs)) (pi_full_maps inputs)) no_prints no_prints
    false false false in
  if is_none full_summary then Ok (a (note_mismatch (lit "full recursive layout summary is unavailable") clean))
  else
    let v := note_if (negb (row_groups_stable full_summary)) (lit "full recursive layout summary is not stable across row groups") clean in
    let v := note_if (negb (bool_decide (length partition_summaries = length partitions)))
      (lit "recursive projection partition audit received a different number of partition summaries and partition specs") v in
    let v := note_if (nonempty (pi_duplicate_columns inputs))
      (lit "recursive projection partitions contain duplicate columns: " ++ repr_names (pi_duplicate_columns inputs)) v in
    let v := note_duplicates (lit "recursive projection partition") 0 (pi_partition_duplicate_columns inputs) v in
    let v := note_if (nonempty (pi_missing_columns inputs))
      (lit "recursive projection partitions do not cover full layout columns: " ++ repr_names (pi_missing_columns inputs)) v in
    let v := note_if (nonempty (pi_unknown_columns inputs))
      (lit "recursive projection partitions reference columns absent from full layout: " ++ repr_names (pi_unknown_columns inputs)) v in
    let v := note_unstable (lit "recursive projection partition") 0 audits v in
    let a := apply_recomposed_contracts (a v) in
    let v := note_if (negb (field_fingerprint_matches_full a))
      (lit "recursive projection partition field_fingerprint_matches_full is false") (partition_report a) in
    let v := note_if (negb (leaf_contract_fingerprint_matches_full a))
      (lit "recursive projection partition leaf_contract_fingerprint_matches_full is false") v in
    let v := note_if (negb (root_contract_fingerprint_matches_full a))
      (lit "recursive projection partition root_contract_fingerprint_matches_full is false") v in
    Ok (with_partition_report v a).

(** ** Coverage audits (audits/coverage.py) *)

Record ProjectionCoverageInputs : Type := mk_coverage_inputs {
  normalized_projections : list (list text);
  projection_summaries : list json;
  full_order : list text;
  requested_columns : list text;
  covered_columns : list text;
  unknown_columns : list text;
  uncovered_columns : list text;
  overlap_counts : gmap text nat;
  projection_duplicate_columns : list (list text);
  full_maps : contract_maps;
  projection_audits : list subset_audit;
}.

(** The requested names that occur more than once, with their counts. *)
Definition overlapping (requested : list text) : gmap text nat :=
  list_to_map ((fun name => (name, occurrences_of name requested)) <$> duplicate_names requested).

Definition normalize_projection_coverage_inputs (full_summary : json) (summaries : list json) (projections : list (list text))
    : result ProjectionCoverageInputs :=
  order ← summary_list full_summary (lit "field_order");
  audits ← child_audits full_summary summaries projections;
  let requested := concat projections in
  let covered := sorted_names (filter (fun name => in_list order name) requested) in
  Ok (mk_coverage_inputs projections summaries order requested covered
        (sorted_difference requested (in_list order)) (sorted_difference order (in_list covered))
        (overlapping requested) (duplicate_names <$> projections) (summary_maps full_summary) audits).

(** The fingerprints the child audits found for a name, in order. *)
Definition occurrences (family : contract_maps -> contracts) (audits : list subset_audit) (name : text) : list text :=
  omap (fun child => family (projected_maps child) !! name) audits.

Definition _values_match_full (values : list text) (expected : option text) : bool :=
  match values with
  | [] => false
  | v :: rest => forallb (fun w => bool_decide (w = v)) rest && bool_decide (Some v = expected)
  end.

(** [_capture_first] over the covered names. *)
Definition covered_contracts (family : contract_maps -> contracts) (inputs : ProjectionCoverageInputs) : contracts :=
  foldl (fun acc name => match occurrences family (projection_audits inputs) name with v :: _ => <[name := v]> acc | [] => acc end)
        ∅ (covered_columns inputs).

Record consistency : Type := mk_consistency {
  field_contracts_consistent : bool;
  leaf_contracts_consistent : bool;
  root_contracts_consistent : bool;
  consistency_by_name : family_matches;
}.

Definition consistent_family (family : contract_maps -> contracts) (inputs : ProjectionCoverageInputs) (name : text) : bool :=
  _values_match_full (occurrences family (projection_audits inputs) name) (family (full_maps inputs) !! name).

Definition _record_consistency (contract name : text) (consistent : bool) (v : verdict) : verdict :=
  note_if (negb consistent)
    (lit "recursive projection coverage " ++ contract ++ lit " contract drifted for " ++ repr_str name) v.

(** One covered name: its three verdicts, the aggregate flags and the diagnostics. *)
Definition consistency_name (inputs : ProjectionCoverageInputs) (state : verdict * consistency) (name : text) : verdict * consistency :=
  let '(v, c) := state in
  let field := consistent_family field_map inputs name in
  let leaf := consistent_family leaf_map inputs name in
  let root := consistent_family root_map inputs name in
  let v := _record_consistency (lit "field") name field v in
  let v := _record_consistency (lit "leaf") name leaf v in
  let v := _record_consistency (lit "root") name root v in
  (v, mk_consistency (field_contracts_consistent c && field) (leaf_contracts_consistent c && leaf)
        (root_contracts_consistent c && root)
        (mk_matches (<[name := field]> (field_matches (consistency_by_name c)))
                    (<[name := leaf]> (leaf_matches (consistency_by_name c)))
                    (<[name := root]> (root_matches (consistency_by_name c))))).

Record coverage_audit : Type := mk_coverage {
  coverage_report : verdict;
  coverage_full_summary_ready : bool;
  coverage_full_stable : bool;
  require_full_coverage : bool;
  allow_overlaps : bool;
  coverage_inputs : ProjectionCoverageInputs;
  projection_audits_stable : bool;
  coverage_complete : bool;
  coverage_exact_by_set : bool;
  coverage_partial : bool;
  coverage_has_overlaps : bool;
  coverage_consistency : consistency;
  covered_maps : contract_maps;
  canonical_full_prints : fingerprints;
  canonical_covered_prints : fingerprints;
}.

Definition all_consistent : consistency := mk_consistency true true true no_matches.

(** [apply_projection_contract_consistency]: the covered contracts and verdicts. *)
Definition apply_projection_contract_consistency (a : coverage_audit) : coverage_audit :=
  let inputs := coverage_inputs a in
  let '(v, c) := foldl (consistency_name inputs) (coverage_report a, coverage_consistency a) (covered_columns inputs) in
  let covered := mk_maps (covered_contracts field_map inputs) (covered_contracts leaf_map inputs) (covered_contracts root_map inputs) in
  mk_coverage v (coverage_full_summary_ready a) (coverage_full_stable a) (require_full_coverage a) (allow_overlaps a)
    inputs (projection_audits_stable a) (coverage_complete a) (coverage_exact_by_set a) (coverage_partial a)
    (coverage_has_overlaps a) c covered (canonical_full_prints a)
    (prints (fun m => canonical_fingerprint m (covered_columns inputs)) covered).

Definition _native_recursive_projection_coverage_contract_audit_from_summaries
    (full_summary : json) (summaries : list json) (projections : list (list text)) (require_full overlaps : bool)
    : result coverage_audit :=
  inputs ← normalize_projection_coverage_inputs full_summary summaries projections;
  let order := full_order inputs in
  let requested := requested_columns inputs in
  let overlapping_names := duplicate_names requested in
  let all_stable := is_none full_summary || forallb is_stable (projection_audits inputs) in
  let a v := mk_coverage v (is_dict full_summary) (row_groups_stable full_summary) require_full overlaps inputs all_stable
    (forallb (in_list requested) order)
    (forallb (in_list requested) order && forallb (in_list order) requested)
    (nonempty (uncovered_columns inputs)) (nonempty overlapping_names) all_consistent empty_maps
    (prints (fun m => canonical_fingerprint m order) (full_maps inputs)) no_prints in
  if is_none full_summary then Ok (a (note_mismatch (lit "full recursive layout summary is unavailable") clean))
  else
    let v := note_if (negb (row_groups_stable full_summary)) (lit "full recursive layout summary is not stable across row groups") clean in
    let v := note_if (negb (bool_decide (length summaries = length projections)))
      (lit "recursive projection coverage audit received a different number of projection summaries and projection specs") v in
    let v := note_duplicates (lit "recursive projection coverage projection") 0 (projection_duplicate_columns inputs) v in
    let v := note_if (nonempty (unknown_columns inputs))
      (lit "recursive projection coverage references columns absent from full layout: " ++ repr_names (unknown_columns inputs)) v in
    let v := note_if (require_full && nonempty (uncovered_columns inputs))
      (lit "recursive projection coverage does not cover full layout columns: " ++ repr_names (uncovered_columns inputs)) v in
    let v := note_if (negb overlaps && nonempty overlapping_names)
      (lit "recursive projection coverage contains overlapping columns: " ++ repr_names overlapping_names) v in
    let v := note_unstable (lit "recursive projection coverage projection") 0 (projection_audits inputs) v in
    Ok (apply_projection_contract_consistency (a v)).

(** ** Reports

    A report is stable exactly when it lists no mismatch. *)

Definition coherent (v : verdict) : Prop := stable v = true <-> mismatches v = [].

Lemma coherent_clean : coherent clean.
Proof. done. Qed.

Lemma coherent_note_if c message v : coherent v -> coherent (note_if c message v).
Proof.
  destruct c; [|done]. intros _. unfold coherent. simpl. split; [done|].
  intros H%(f_equal (@length _)). rewrite length_app in H. simpl in H. lia.
Qed.

Lemma stable_note_if c message v : stable (note_if c message v) = true <-> stable v = true /\ c = false.
Proof. destruct c; simpl; naive_solver. Qed.

Lemma nonempty_false {A} (l : list A) : nonempty l = false <-> l = [].
Proof. by destruct l. Qed.

#[export] Hint Resolve coherent_clean coherent_note_if : sanitizer.

(** ** Sorted names *)

Lemma elem_of_sorted_names names n : n ∈ sorted_names names <-> n ∈ names.
Proof. unfold sorted_names. by rewrite (Seq.sorted_Permutation leb), elem_of_remove_dups. Qed.

Lemma sorted_names_nil names : sorted_names names = [] <-> names = [].
Proof.
  split; [|by intros ->]. intros H. destruct names as [|n names]; [done|].
  exfalso. apply (not_elem_of_nil n). rewrite <-H. apply elem_of_sorted_names. left.
Qed.

Lemma filter_nil {A} (P : A -> Prop) `{!forall x, Decision (P x)} (l : list A) :
  filter P l = [] <-> forall x, x ∈ l -> ~ P x.
Proof.
  split; [|by apply filter_none]. intros Hnil x Hx HP. apply (not_elem_of_nil x). rewrite <-Hnil.
  by apply list_elem_of_filter.
Qed.

Lemma sorted_difference_nil a member : sorted_difference a member = [] <-> forall n, n ∈ a -> member n = true.
Proof.
  unfold sorted_difference. rewrite sorted_names_nil, filter_nil. apply forall_proper. intros n.
  destruct (member n); naive_solver.
Qed.

Lemma occurrences_le n (l : list text) : NoDup l -> (occurrences_of n l <= 1)%nat.
Proof.
  unfold occurrences_of. induction 1 as [|x l Hx Hl IH]; [simpl; lia|]. rewrite filter_cons.
  case_decide as Heq; [|done]. simpl. subst. rewrite filter_none; [simpl; lia|]. intros y Hy ->. done.
Qed.

Lemma occurrences_twice n (l : list text) : n ∈ l -> (2 <= occurrences_of n (n :: l))%nat.
Proof.
  intros Hn. unfold occurrences_of. rewrite filter_cons_True by done. simpl.
  assert (n ∈ filter (fun v => v = n) l) as H by (by apply list_elem_of_filter).
  destruct (filter (fun v => v = n) l); [by apply not_elem_of_nil in H|]. simpl. lia.
Qed.

Lemma duplicate_names_nil values : duplicate_names values = [] <-> NoDup values.
Proof.
  unfold duplicate_names. rewrite sorted_names_nil, filter_nil. split.
  - induction values as [|n l IH]; intros H; constructor.
    + intros Hn. apply (H n); [left|]. pose proof (occurrences_twice n l Hn). lia.
    + apply IH. intros x Hx Hlt. apply (H x); [by right|]. unfold occurrences_of in *. rewrite filter_cons.
      case_decide; simpl; lia.
  - intros Hnd n _. pose proof (occurrences_le n values Hnd). lia.
Qed.

Lemma forallb_elem {A} (f : A -> bool) l : forallb f l = true <-> forall x, x ∈ l -> f x = true.
Proof. rewrite forallb_forall. by setoid_rewrite list_elem_of_In. Qed.

Lemma in_list_true l n : in_list l n = true <-> n ∈ l.
Proof. apply bool_decide_eq_true. Qed.

Lemma in_map_true (m : contracts) n : in_map m n = true <-> is_Some (m !! n).
Proof. apply bool_decide_eq_true. Qed.

Lemma lookup_restrict (mapping : contracts) names n :
  restrict_to mapping names !! n = if decide (n ∈ names) then mapping !! n else None.
Proof.
  unfold restrict_to. case_decide as Hn.
  - destruct (mapping !! n) as [v|] eqn:E.
    + by apply map_lookup_filter_Some.
    + apply map_lookup_filter_None. by left.
  - apply map_lookup_filter_None. right. intros v _ H. done.
Qed.

(** ** Fingerprints of maps that agree where both are defined *)

(** Weight of the joined items, a separator after each. *)
Definition weight (l : list text) : nat := sum_list_with (fun t => S (length t)) l.

Lemma length_join l : length (join (lit ";") l) = pred (weight l).
Proof.
  induction l as [|x l IH]; [done|]. destruct l as [|y l]; [simpl; lia|].
  rewrite join_cons2, !length_app, IH. unfold weight in *. simpl. lia.
Qed.

Lemma fingerprint_item_length m n t : fingerprint_item m n = Some t -> (1 <= length t)%nat.
Proof.
  unfold fingerprint_item. destruct (m !! n); [|done]. intros [= <-]. rewrite length_app. simpl. lia.
Qed.

Lemma fingerprint_item_eq (m m' : contracts) n : m !! n = m' !! n -> fingerprint_item m n = fingerprint_item m' n.
Proof. unfold fingerprint_item. intros H. by destruct H. Qed.

Lemma items_cons m n names : omap (fingerprint_item m) (n :: names)
  = match fingerprint_item m n with Some t => t :: omap (fingerprint_item m) names | None => omap (fingerprint_item m) names end.
Proof. done. Qed.

Lemma ordered_fingerprint_ext (m m' : contracts) (names : list text) : (forall n, n ∈ names -> m !! n = m' !! n) ->
  ordered_fingerprint m names = ordered_fingerprint m' names.
Proof.
  intros H. unfold ordered_fingerprint. f_equal. induction names as [|n names IH]; [done|].
  rewrite !items_cons, (fingerprint_item_eq m m' n) by (apply H; left). rewrite IH; [done|].
  intros; apply H; by right.
Qed.

Lemma canonical_fingerprint_ext (m m' : contracts) (names : list text) : (forall n, n ∈ names -> m !! n = m' !! n) ->
  canonical_fingerprint m names = canonical_fingerprint m' names.
Proof. intros H. apply ordered_fingerprint_ext. intros n Hn. rewrite elem_of_sorted_names in Hn. exact (H n Hn). Qed.

Lemma weight_le (m m' : contracts) (names : list text) :
  (forall n, n ∈ names -> is_Some (m !! n)) -> (forall n, n ∈ names -> is_Some (m' !! n) -> m !! n = m' !! n) ->
  (weight (omap (fingerprint_item m') names) <= weight (omap (fingerprint_item m) names))%nat
  /\ (weight (omap (fingerprint_item m') names) = weight (omap (fingerprint_item m) names) ->
      forall n, n ∈ names -> is_Some (m' !! n)).
Proof.
  intros Hs He. induction names as [|n names IH]; [split; [done|]; by intros _ n Hn%not_elem_of_nil|].
  destruct IH as [Hle Heq]; [intros; apply Hs; by right|intros; apply He; [by right|done]|].
  assert (n ∈ n :: names) as Hn by left. rewrite !items_cons. unfold weight in *.
  destruct (m' !! n) as [v|] eqn:E.
  - rewrite <-(fingerprint_item_eq m m' n) by (apply He; [done|by eauto]).
    assert (is_Some (fingerprint_item m n)) as [t ->].
    { unfold fingerprint_item. destruct (Hs n Hn) as [w ->]. by eauto. }
    simpl. split; [lia|]. intros H x [->|Hx]%elem_of_cons; [by eauto|]. apply Heq; [lia|done].
  - assert (fingerprint_item m' n = None) as -> by (unfold fingerprint_item; by rewrite E).
    assert (is_Some (fingerprint_item m n)) as [t ->].
    { unfold fingerprint_item. destruct (Hs n Hn) as [w ->]. by eauto. }
    simpl. split; lia.
Qed.

(** Equal joined fingerprints leave no name out of the second map. *)
Lemma canonical_complete (m m' : contracts) (names : list text) :
  (forall n, n ∈ names -> is_Some (m !! n)) -> (forall n, n ∈ names -> is_Some (m' !! n) -> m !! n = m' !! n) ->
  canonical_fingerprint m names = canonical_fingerprint m' names -> forall n, n ∈ names -> is_Some (m' !! n).
Proof.
  intros Hs He H n Hn. rewrite <-elem_of_sorted_names in Hn.
  destruct (weight_le m m' (sorted_names names)) as [Hle Heq];
    [intros x; rewrite elem_of_sorted_names; auto|intros x; rewrite elem_of_sorted_names; auto|].
  apply Heq; [|done]. apply (f_equal (@length _)) in H. unfold canonical_fingerprint, ordered_fingerprint in H.
  rewrite !length_join in H. destruct (sorted_names names) as [|x l] eqn:El; [done|].
  assert (1 < weight (omap (fingerprint_item m) (x :: l)))%nat; [|lia].
  rewrite items_cons. destruct (Hs x) as [w Hw]; [rewrite <-elem_of_sorted_names, El; left|].
  destruct (fingerprint_item m x) as [t|] eqn:Et; [|unfold fingerprint_item in Et; by rewrite Hw in Et].
  apply fingerprint_item_length in Et. unfold weight. simpl. lia.
Qed.

(** ** The verdict of a subset audit *)

(** Two layouts carry the same contracts for [names], and the first has a root for each. *)
Definition agree (full projected : contract_maps) (names : list text) : Prop := forall n, n ∈ names ->
  is_Some (root_map full !! n) /\ root_map full !! n = root_map projected !! n
  /\ leaf_map full !! n = leaf_map projected !! n /\ field_map full !! n = field_map projected !! n.

(** What a stable subset audit certifies: two stable layouts, the projected one
    with exactly the requested columns in the requested order, each once and
    with the contracts of the full layout. *)
Definition faithful_projection (full projected : json) (columns : list text) : Prop :=
  is_none full = false /\ is_none projected = false
  /\ row_groups_stable full = true /\ row_groups_stable projected = true
  /\ summary_list projected (lit "field_order") = Ok columns /\ NoDup columns
  /\ agree (summary_maps full) (summary_maps projected) columns.

Lemma stable_compare full projected names v m :
  stable (foldl (compare_name full projected) (v, m) names).1 = true <->
  stable v = true /\ forall n, n ∈ names -> root_map full !! n = root_map projected !! n
    /\ leaf_map full !! n = leaf_map projected !! n /\ field_map full !! n = field_map projected !! n.
Proof.
  revert v m. induction names as [|n names IH]; intros v m.
  { split; [|tauto]. intros ?. split; [done|]. by intros n ?%not_elem_of_nil. }
  cbn [foldl]. unfold compare_name at 2. rewrite IH, !stable_note_if, !negb_false_iff, !bool_decide_eq_true. split.
  - intros [[[[Hv Hf] Hl] Hr] Hall]. split; [done|]. intros x [->|Hx]%elem_of_cons; [done|by apply Hall].
  - intros [Hv Hall]. destruct (Hall n) as (? & ? & ?); [left|]. repeat split; try done; intros; apply Hall; by right.
Qed.

Lemma coherent_compare full projected names v m :
  coherent v -> coherent (foldl (compare_name full projected) (v, m) names).1.
Proof.
  revert v m. induction names as [|n names IH]; intros v m Hv; [done|]. cbn [foldl]. unfold compare_name at 2.
  apply IH. auto with sanitizer.
Qed.

(** The columns an audit expects. *)
Definition requested (columns : option (list text)) (order : list text) : list text :=
  match columns with Some c => c | None => order end.

Section Subset.
Variables (full projected : json) (columns : option (list text)) (order : list text).
Hypothesis Horder : summary_list projected (lit "field_order") = Ok order.

Abbreviation expected := (requested columns order).

Lemma build_subset : exists a, build_subset_audit full projected columns = Ok a
  /\ expected_columns a = expected /\ projected_field_order a = order /\ coherent (report a)
  /\ (is_stable a = true <-> is_none full = false /\ is_none projected = false
      /\ (is_none full = false -> is_none projected = false ->
          row_groups_stable full = true /\ row_groups_stable projected = true /\ order = expected /\ NoDup expected)).
Proof.
  unfold build_subset_audit. rewrite Horder. cbn [mbind result_bind]. eexists. split; [reflexivity|].
  unfold is_stable. cbn [expected_columns projected_field_order report]. fold expected. split_and!; [done..| |].
  - destruct (_ || _); auto 10 with sanitizer.
  - destruct (is_none full), (is_none projected); cbn [orb]; rewrite !stable_note_if;
      try (split; [intros [[_ ?] ?]; discriminate|intros (? & ? & _); discriminate]).
    rewrite !negb_false_iff, bool_decide_eq_true, nonempty_false, duplicate_names_nil.
    split; [intros [[[[_ ?] ?] ?] ?]; done|]. intros (_ & _ & H). destruct H as (? & ? & ? & ?); done.
Qed.

(** The second half of an audit, on the columns and the order the first half found. *)
Lemma compared_subset a :
  let b := record_subset_fingerprints (compare_subset_contracts a full projected) full projected in
  expected_columns a = expected -> projected_field_order a = order ->
  projected_maps b = restrict_maps (summary_maps projected) order
  /\ expected_prints b = prints (fun m => ordered_fingerprint m expected) (summary_maps full)
  /\ actual_prints b = prints (fun m => ordered_fingerprint m order) (summary_maps projected)
  /\ (coherent (report a) -> coherent (report b))
  /\ (is_stable b = true <-> is_stable a = true
       /\ (forall n, n ∈ expected -> is_Some (root_map (summary_maps full) !! n))
       /\ (forall n, n ∈ expected -> n ∈ order) /\ (forall n, n ∈ order -> n ∈ expected)
       /\ (forall n, n ∈ expected -> is_Some (root_map (summary_maps full) !! n) -> is_Some (root_map (summary_maps projected) !! n) ->
            root_map (summary_maps full) !! n = root_map (summary_maps projected) !! n
            /\ leaf_map (summary_maps full) !! n = leaf_map (summary_maps projected) !! n
            /\ field_map (summary_maps full) !! n = field_map (summary_maps projected) !! n)
       /\ canonical_fingerprint (root_map (summary_maps full)) expected
          = canonical_fingerprint (root_map (summary_maps projected)) order).
Proof.
  cbv zeta. intros He Ho. unfold record_subset_fingerprints, compare_subset_contracts, is_stable. rewrite He, Ho.
  match goal with |- context [foldl ?f (?v0, ?m0) ?l] =>
    pose proof (stable_compare (summary_maps full) (summary_maps projected) l v0 m0) as Hst;
    pose proof (coherent_compare (summary_maps full) (summary_maps projected) l v0 m0) as Hco;
    destruct (foldl f (v0, m0) l) as [v m] end.
  cbn [fst snd report projected_maps expected_prints actual_prints expected_columns projected_field_order] in *.
  do 3 (split; [done|]). split; [intros Hc; apply coherent_note_if, Hco; auto with sanitizer|].
  rewrite stable_note_if, Hst, !stable_note_if, !nonempty_false, !sorted_difference_nil, negb_false_iff, bool_decide_eq_true.
  setoid_rewrite in_map_true. setoid_rewrite in_list_true. setoid_rewrite list_elem_of_filter.
  setoid_rewrite Is_true_true. setoid_rewrite andb_true_iff. setoid_rewrite in_map_true. naive_solver.
Qed.

Lemma subset_audit_runs : exists a,
  _native_recursive_projection_contract_audit_from_summaries full projected columns = Ok a /\ coherent (report a)
  /\ (is_none full = false -> is_none projected = false ->
      projected_maps a = restrict_maps (summary_maps projected) order
      /\ expected_prints a = prints (fun m => ordered_fingerprint m expected) (summary_maps full)
      /\ actual_prints a = prints (fun m => ordered_fingerprint m order) (summary_maps projected))
  /\ (is_stable a = true <-> faithful_projection full projected expected).
Proof.
  destruct build_subset as (a & Ha & He & Ho & Hc & Hst).
  unfold _native_recursive_projection_contract_audit_from_summaries. rewrite Ha. cbn [mbind result_bind].
  destruct (is_none full) eqn:Hf, (is_none projected) eqn:Hp; cbn [orb].
  1-3: exists a; split_and!; try done; rewrite Hst; unfold faithful_projection; rewrite Hf, Hp; naive_solver.
  destruct (compared_subset a He Ho) as (Hm & Hep & Hap & Hco & Hs). eexists. split_and!; [reflexivity|by apply Hco|done|].
  rewrite Hs, Hst. unfold faithful_projection. rewrite Hf, Hp, Horder. split.
  - intros ((_ & _ & Hx) & Hroot & _ & _ & Hcmp & Hcan). destruct Hx as (? & ? & Heq & Hnd); [done..|].
    split_and!; [done..|by f_equal|done|]. rewrite <-Heq in *. intros n Hn.
    assert (is_Some (root_map (summary_maps projected) !! n)) as Hsome.
    { apply (canonical_complete (root_map (summary_maps full)) _ order); [done| |done|done]. intros x Hx Hsx. by apply Hcmp; [|apply Hroot|]. }
    split; [by apply Hroot|]. apply Hcmp; [done|by apply Hroot|done].
  - intros (_ & _ & Hfs & Hps & [= Heq] & Hnd & Hag). rewrite <-Heq in *. split_and!; try done; [by intros n Hn; apply Hag|by intros n Hn _ _; apply Hag|].
    apply canonical_fingerprint_ext. intros n Hn. by apply Hag.
Qed.
End Subset.

Lemma subset_audit_inv full projected columns a :
  _native_recursive_projection_contract_audit_from_summaries full projected columns = Ok a ->
  exists order, summary_list projected (lit "field_order") = Ok order /\ coherent (report a)
  /\ (is_none full = false -> is_none projected = false ->
      projected_maps a = restrict_maps (summary_maps projected) order
      /\ expected_prints a = prints (fun m => ordered_fingerprint m (requested columns order)) (summary_maps full)
      /\ actual_prints a = prints (fun m => ordered_fingerprint m order) (summary_maps projected))
  /\ (is_stable a = true <-> faithful_projection full projected (requested columns order)).
Proof.
  intros Ha. destruct (summary_list projected (lit "field_order")) as [order|e] eqn:Ho.
  - exists order. split; [done|]. destruct (subset_audit_runs full projected columns order Ho) as (a' & Ha' & H).
    rewrite Ha in Ha'. by injection Ha' as <-.
  - unfold _native_recursive_projection_contract_audit_from_summaries, build_subset_audit in Ha. by rewrite Ho in Ha.
Qed.

(** ** The verdict of a composition audit *)

Lemma stable_transitive key full source projected names v :
  stable (transitive_family key full source projected names v).1 = true <->
  stable v = true /\ forall n, n ∈ names -> is_Some (full !! n) /\ full !! n = source !! n /\ full !! n = projected !! n.
Proof.
  unfold transitive_family. generalize (∅ : gmap text bool). revert v.
  induction names as [|n names IH]; intros v m.
  { split; [|tauto]. intros ?. split; [done|]. by intros n ?%not_elem_of_nil. }
  cbn [foldl]. unfold transitive_name at 2. rewrite IH, stable_note_if, negb_false_iff, !andb_true_iff, in_map_true, !bool_decide_eq_true.
  split.
  - intros [[Hv [[Hs H1] H2]] Hall]. split; [done|]. intros x [->|Hx]%elem_of_cons; [done|by apply Hall].
  - intros [Hv Hall]. destruct (Hall n) as (? & ? & ?); [left|]. repeat split; try done; intros; apply Hall; by right.
Qed.

Lemma coherent_transitive key full source projected names v :
  coherent v -> coherent (transitive_family key full source projected names v).1.
Proof.
  unfold transitive_family. generalize (∅ : gmap text bool). revert v.
  induction names as [|n names IH]; intros v m Hv; [done|]. cbn [foldl]. unfold transitive_name at 2.
  apply IH. auto with sanitizer.
Qed.

(** Projections of projections are projections. *)
Lemma faithful_trans full source projected source_columns columns :
  faithful_projection full source source_columns -> faithful_projection source projected columns ->
  (forall n, n ∈ columns -> n ∈ source_columns) -> faithful_projection full projected columns.
Proof.
  intros (Hf & _ & Hfs & _ & _ & _ & Hag) (_ & Hp & _ & Hps & Ho & Hnd & Hag') Hsub.
  split_and!; [done..|]. intros n Hn. destruct (Hag n (Hsub n Hn)) as (? & E1 & E2 & E3).
  destruct (Hag' n Hn) as (_ & E1' & E2' & E3'). split_and!; [done|congruence..].
Qed.

Lemma all_equal_true a b c : all_equal a b c = true <-> a = b /\ b = c.
Proof. unfold all_equal. by rewrite andb_true_iff, !bool_decide_eq_true. Qed.

(** What a stable composition audit certifies. *)
Definition composed_projection (full source projected : json) (source_columns columns : list text) : Prop :=
  faithful_projection full source source_columns /\ faithful_projection source projected columns
  /\ (forall n, n ∈ columns -> n ∈ source_columns)
  /\ forall n, n ∈ columns -> is_Some (leaf_map (summary_maps full) !! n) /\ is_Some (field_map (summary_maps full) !! n).

Lemma chain_stable full source projected source_columns columns a :
  _native_recursive_projection_chain_contract_audit_from_summaries full source projected source_columns columns = Ok a ->
  coherent (chain_report a)
  /\ (stable (chain_report a) = true <-> composed_projection full source projected source_columns columns)
  /\ (stable (chain_report a) = true -> faithful_projection full projected columns).
Proof.
  unfold _native_recursive_projection_chain_contract_audit_from_summaries.
  destruct (_native_recursive_projection_contract_audit_from_summaries full source _) as [fs|] eqn:Efs; [|done].
  destruct (_native_recursive_projection_contract_audit_from_summaries source projected _) as [sp|] eqn:Esp; [|done].
  destruct (_native_recursive_projection_contract_audit_from_summaries full projected _) as [fp|] eqn:Efp; [|done].
  cbn [mbind result_bind].
  apply subset_audit_inv in Efs as (o1 & Ho1 & _ & _ & Sfs), Esp as (o2 & Ho2 & _ & Psp & Ssp), Efp as (o3 & Ho3 & _ & Pfp & Sfp).
  rewrite Ho2 in Ho3. injection Ho3 as <-. cbn [requested] in *.
  match goal with |- context [transitive_family _ROOT ?f ?s ?p ?c ?v] =>
    pose proof (stable_transitive _ROOT f s p c v) as H1; pose proof (coherent_transitive _ROOT f s p c v) as C1;
    destruct (transitive_family _ROOT f s p c v) as [v1 m1] end.
  match goal with |- context [transitive_family _LEAF ?f ?s ?p ?c ?v] =>
    pose proof (stable_transitive _LEAF f s p c v) as H2; pose proof (coherent_transitive _LEAF f s p c v) as C2;
    destruct (transitive_family _LEAF f s p c v) as [v2 m2] end.
  match goal with |- context [transitive_family _FIELD ?f ?s ?p ?c ?v] =>
    pose proof (stable_transitive _FIELD f s p c v) as H3; pose proof (coherent_transitive _FIELD f s p c v) as C3;
    destruct (transitive_family _FIELD f s p c v) as [v3 m3] end.
  intros [= <-]. cbn [fst chain_report] in *.
  rewrite !stable_note_if, !negb_false_iff, !all_equal_true, H3, H2, H1, !stable_note_if, !negb_false_iff, !nonempty_false,
    !duplicate_names_nil, Sfs, Ssp, Sfp, forallb_elem.
  setoid_rewrite in_list_true.
  split.
  { apply coherent_note_if, coherent_note_if, coherent_note_if, C3, C2, C1. repeat apply coherent_note_if. done. }
  split.
  - split.
    + intros [[[[[[[[[[[[_ Hnds] Hndp] Hsub] Hfs] Hsp] Hfp] Hr] Hl] Hf] _] _] _]. do 3 (split; [done|]).
      intros n Hn. split; [by apply Hl|by apply Hf].
    + intros (Hfs & Hsp & Hsub & Hsome). pose proof (faithful_trans _ _ _ _ _ Hfs Hsp Hsub) as Hfp.
      pose proof Hfs as (? & ? & _ & _ & Hos & Hnds & Hags). pose proof Hsp as (? & ? & _ & _ & Hop & Hndp & Hagp).
      rewrite Hop in Ho2. injection Ho2 as <-. destruct Hfp as (? & ? & ? & ? & _ & _ & Hag).
      destruct Psp as (_ & _ & ->); [done..|]. destruct Pfp as (_ & -> & ->); [done..|].
      assert (forall f : contract_maps -> contracts,
        (forall n, n ∈ columns -> f (summary_maps full) !! n = f (summary_maps projected) !! n) ->
        ordered_fingerprint (f (summary_maps projected)) columns = ordered_fingerprint (f (summary_maps full)) columns) as Hprint.
      { intros f Hext. symmetry. by apply ordered_fingerprint_ext. }
      split_and!; try done; try (by apply Hprint; intros n Hn; apply Hag); intros n Hn;
        destruct (Hags n (Hsub n Hn)) as (? & ? & ? & ?), (Hag n Hn) as (? & ? & ? & ?), (Hsome n Hn) as [? ?]; done.
  - by intros [[[[[[[[[[[[_ Hnds] Hndp] Hsub] Hfs] Hsp] Hfp] Hr] Hl] Hf] _] _] _].
Qed.

(** ** Child audits *)

(** The contract families. *)
Definition family (f : contract_maps -> contracts) : Prop := f = field_map \/ f = leaf_map \/ f = root_map.

Lemma stable_child_map full s p a f n :
  _native_recursive_projection_contract_audit_from_summaries full s (Some p) = Ok a -> is_stable a = true -> family f ->
  f (projected_maps a) !! n = if decide (n ∈ p) then f (summary_maps full) !! n else None.
Proof.
  intros Ha Hst Hf. apply subset_audit_inv in Ha as (order & Ho & _ & Hm & Hiff). apply Hiff in Hst.
  destruct Hst as (H1 & H2 & _ & _ & Hc & _ & Hag). destruct Hm as (-> & _ & _); [done..|].
  cbn [requested] in *. rewrite Ho in Hc. injection Hc as ->.
  assert (f (restrict_maps (summary_maps s) p) !! n = restrict_to (f (summary_maps s)) p !! n) as ->
    by (by destruct Hf as [-> |[-> | ->]]).
  rewrite lookup_restrict. case_decide as Hn; [|done]. destruct (Hag n Hn) as (_ & ? & ? & ?).
  by destruct Hf as [-> |[-> | ->]].
Qed.

Lemma child_audits_inv full ss ps audits : child_audits full ss ps = Ok audits ->
  Forall2 (fun p a => exists s, _native_recursive_projection_contract_audit_from_summaries full s (Some p) = Ok a) ps audits.
Proof.
  revert ss audits. induction ps as [|p ps IH]; intros ss audits; cbn [child_audits].
  { intros [= <-]. constructor. }
  destruct (_native_recursive_projection_contract_audit_from_summaries full _ (Some p)) as [a|] eqn:Ea; [|done].
  destruct (child_audits full (tail ss) ps) as [l|] eqn:El; [|done]. intros [= <-]. constructor; [by eauto|by eapply IH].
Qed.

Lemma child_audits_stable full ss ps audits : child_audits full ss ps = Ok audits -> length ss = length ps ->
  forallb is_stable audits = true <-> Forall2 (faithful_projection full) ss ps.
Proof.
  revert ss audits. induction ps as [|p ps IH]; intros [|s ss] audits; [|intros _ [=]..|].
  { intros [= <-] _. split; [constructor|done]. }
  cbn [child_audits]. change (default JNull (head (s :: ss))) with s. change (tail (s :: ss)) with ss.
  destruct (_native_recursive_projection_contract_audit_from_summaries full s (Some p)) as [a|] eqn:Ea; [|done].
  destruct (child_audits full ss ps) as [l|] eqn:El; [|done]. intros [= <-] [= Hl]. cbn [forallb].
  apply subset_audit_inv in Ea as (order & _ & _ & _ & Hiff). cbn [requested] in Hiff.
  rewrite andb_true_iff, Hiff, (IH ss l El Hl). split; [intros [? ?]; by constructor|]. by inversion_clear 1.
Qed.

Lemma stable_note_unstable label i audits v :
  stable (note_unstable label i audits v) = true <-> stable v = true /\ forallb is_stable audits = true.
Proof.
  revert i v. induction audits as [|a audits IH]; intros i v; cbn [note_unstable forallb]; [naive_solver|].
  rewrite IH, stable_note_if, negb_false_iff, andb_true_iff. tauto.
Qed.

Lemma stable_note_duplicates label i ds v :
  stable (note_duplicates label i ds v) = true <-> stable v = true /\ Forall (fun d => d = []) ds.
Proof.
  revert i v. induction ds as [|d ds IH]; intros i v; cbn [note_duplicates]; [naive_solver|].
  rewrite IH, stable_note_if, nonempty_false, Forall_cons. tauto.
Qed.

Lemma coherent_note_unstable label i audits v : coherent v -> coherent (note_unstable label i audits v).
Proof. revert i v. induction audits; intros i v Hv; cbn [note_unstable]; auto with sanitizer. Qed.

Lemma coherent_note_duplicates label i ds v : coherent v -> coherent (note_duplicates label i ds v).
Proof. revert i v. induction ds; intros i v Hv; cbn [note_duplicates]; auto with sanitizer. Qed.

#[export] Hint Resolve coherent_note_unstable coherent_note_duplicates : sanitizer.

Lemma lookup_add_maps f acc child n : family f ->
  f (add_maps acc child) !! n = match f child !! n with Some v => Some v | None => f acc !! n end.
Proof.
  intros [-> |[-> | ->]]; unfold add_maps; simpl; rewrite lookup_union.
  1: destruct (field_map child !! n), (field_map acc !! n); done.
  1: destruct (leaf_map child !! n), (leaf_map acc !! n); done.
  destruct (root_map child !! n), (root_map acc !! n); done.
Qed.

(** What stable projections recompose: the full contracts of the requested names. *)
Lemma recomposed_lookup full ss ps audits f n : child_audits full ss ps = Ok audits ->
  forallb is_stable audits = true -> family f ->
  f (collect_recomposed_contracts audits) !! n = if decide (n ∈ concat ps) then f (summary_maps full) !! n else None.
Proof.
  intros Hc Hst Hf. apply child_audits_inv in Hc. unfold collect_recomposed_contracts.
  assert (forall acc (done : list text),
    f acc !! n = (if decide (n ∈ done) then f (summary_maps full) !! n else None) ->
    f (foldl (fun acc child => add_maps acc (projected_maps child)) acc audits) !! n
    = if decide (n ∈ done ++ concat ps) then f (summary_maps full) !! n else None) as Hgen.
  { induction Hc as [|p a ps audits [s Ha] Hc IH]; intros acc done Hacc; cbn [foldl concat].
    { by rewrite app_nil_r. }
    cbn [forallb] in Hst. apply andb_prop in Hst as [Ha1 Hst]. rewrite app_assoc. apply IH; [done|].
    rewrite lookup_add_maps, (stable_child_map full s p a f n Ha Ha1 Hf), Hacc by done.
    repeat case_decide; set_unfold; destruct (f (summary_maps full) !! n); naive_solver. }
  rewrite (Hgen empty_maps []); [done|]. rewrite decide_False by apply not_elem_of_nil.
  by destruct Hf as [-> |[-> | ->]].
Qed.

(** ** The verdict of a partition audit *)

(** What a stable partition audit certifies: faithful projections whose columns
    are the columns of the full layout, each in exactly one of them. *)
Definition exact_partition (full : json) (ss : list json) (ps : list (list text)) : Prop :=
  exists order, summary_list full (lit "field_order") = Ok order
  /\ is_none full = false /\ row_groups_stable full = true
  /\ NoDup (concat ps) /\ (forall n, n ∈ concat ps <-> n ∈ order)
  /\ Forall2 (faithful_projection full) ss ps.

Lemma faithful_NoDup full ss ps : Forall2 (faithful_projection full) ss ps -> Forall (fun d => d = []) (duplicate_names <$> ps).
Proof.
  induction 1 as [|s p ss ps (_ & _ & _ & _ & _ & Hnd & _) _ IH]; constructor; [|done]. by apply duplicate_names_nil.
Qed.

Lemma partition_stable full ss ps a :
  _native_recursive_projection_partition_contract_audit_from_summaries full ss ps = Ok a ->
  coherent (partition_report a)
  /\ (stable (partition_report a) = true <-> exact_partition full ss ps)
  /\ (stable (partition_report a) = true -> forall f n order, family f ->
      summary_list full (lit "field_order") = Ok order -> n ∈ order ->
      f (recomposed_maps a) !! n = f (summary_maps full) !! n).
Proof.
  unfold _native_recursive_projection_partition_contract_audit_from_summaries, prepare_partition_audit_inputs.
  destruct (summary_list full (lit "field_order")) as [order|] eqn:Ho; [|done]. cbn [mbind result_bind].
  destruct (child_audits full ss ps) as [audits|] eqn:Hc; [|done]. cbn [mbind result_bind].
  destruct (is_none full) eqn:Hf.
  { intros [= <-]. cbn [partition_report]. split; [apply (coherent_note_if true), coherent_clean|].
    split; [|done]. split; [done|]. intros (? & _ & Hf' & _). congruence. }
  intros [= <-].
  cbn [partition_report with_partition_report apply_recomposed_contracts recomposed_maps partition_audits partition_inputs
       field_fingerprint_matches_full leaf_contract_fingerprint_matches_full root_contract_fingerprint_matches_full
       canonical_full pi_full_order pi_full_maps pi_duplicate_columns pi_partition_duplicate_columns pi_missing_columns
       pi_unknown_columns pi_requested_columns].
  split; [auto 20 with sanitizer|].
  rewrite !stable_note_if, stable_note_unstable, !stable_note_if, stable_note_duplicates, !stable_note_if, !negb_false_iff,
    !bool_decide_eq_true, !nonempty_false, !sorted_difference_nil, duplicate_names_nil.
  setoid_rewrite in_list_true.
  split.
  - split.
    + intros [[[[[[[[[[_ Hrg] Hlen] Hnd] _] Hmiss] Hunk] Hst] _] _] _]. exists order. split_and!; try done; [|].
      * intros n. split; [apply Hunk|apply Hmiss].
      * by apply (child_audits_stable full ss ps audits).
    + intros (order' & Ho' & _ & Hrg & Hnd & Hset & Hall). rewrite Ho in Ho'. injection Ho' as <-.
      assert (length ss = length ps) as Hlen by (by eapply Forall2_length).
      assert (forallb is_stable audits = true) as Hst by (by apply (child_audits_stable full ss ps audits)).
      assert (forall f, family f -> canonical_fingerprint (f (summary_maps full)) order
                = canonical_fingerprint (f (collect_recomposed_contracts audits)) order) as Hcan.
      { intros f Hfam. apply canonical_fingerprint_ext. intros n Hn.
        rewrite (recomposed_lookup full ss ps audits f n Hc Hst Hfam), decide_True; [done|by apply Hset]. }
      split_and!; try done; [by eapply faithful_NoDup|intros n ?; by apply Hset|intros n ?; by apply Hset|..];
        [apply (Hcan field_map)|apply (Hcan leaf_map)|apply (Hcan root_map)]; unfold family; auto.
  - intros [[[[[[[[[[_ Hrg] Hlen] Hnd] _] Hmiss] Hunk] Hst] _] _] _] f n order' Hfam [= <-] Hn.
    rewrite (recomposed_lookup full ss ps audits f n Hc Hst Hfam), decide_True; [done|by apply Hmiss].
Qed.

(** ** The verdict of a coverage audit *)

(** What a stable coverage audit certifies. *)
Definition certified_coverage (full : json) (ss : list json) (ps : list (list text)) (require_full overlaps : bool) : Prop :=
  exists order, summary_list full (lit "field_order") = Ok order
  /\ is_none full = false /\ row_groups_stable full = true
  /\ (forall n, n ∈ concat ps -> n ∈ order)
  /\ (require_full = true -> forall n, n ∈ order -> n ∈ concat ps)
  /\ (overlaps = false -> NoDup (concat ps))
  /\ Forall2 (faithful_projection full) ss ps
  /\ forall n, n ∈ concat ps -> is_Some (field_map (summary_maps full) !! n) /\ is_Some (leaf_map (summary_maps full) !! n).

Lemma stable_consistency inputs names v c :
  stable (foldl (consistency_name inputs) (v, c) names).1 = true <-> stable v = true /\ forall n, n ∈ names ->
    consistent_family field_map inputs n = true /\ consistent_family leaf_map inputs n = true /\ consistent_family root_map inputs n = true.
Proof.
  revert v c. induction names as [|n names IH]; intros v c.
  { split; [|tauto]. intros ?. split; [done|]. by intros n ?%not_elem_of_nil. }
  cbn [foldl]. unfold consistency_name at 2, _record_consistency. rewrite IH, !stable_note_if, !negb_false_iff. split.
  - intros [[[[Hv H1] H2] H3] Hall]. split; [done|]. intros x [->|Hx]%elem_of_cons; [done|by apply Hall].
  - intros [Hv Hall]. destruct (Hall n) as (? & ? & ?); [left|]. repeat split; try done; intros; apply Hall; by right.
Qed.

Lemma coherent_consistency inputs names v c : coherent v -> coherent (foldl (consistency_name inputs) (v, c) names).1.
Proof.
  revert v c. induction names as [|n names IH]; intros v c Hv; [done|]. cbn [foldl].
  unfold consistency_name at 2, _record_consistency. apply IH. auto with sanitizer.
Qed.

Lemma faithful_roots full ss ps n : Forall2 (faithful_projection full) ss ps -> n ∈ concat ps ->
  is_Some (root_map (summary_maps full) !! n).
Proof.
  induction 1 as [|s p ss ps (_ & _ & _ & _ & _ & _ & Hag) _ IH]; [by intros ?%not_elem_of_nil|].
  cbn [concat]. intros [Hn|Hn]%elem_of_app; [by apply Hag|by apply IH].
Qed.

Lemma occurrences_cons f a audits n : occurrences f (a :: audits) n
  = match f (projected_maps a) !! n with Some v => v :: occurrences f audits n | None => occurrences f audits n end.
Proof. done. Qed.

Lemma occurrences_values full ss ps audits f n : child_audits full ss ps = Ok audits ->
  forallb is_stable audits = true -> family f ->
  (forall w, w ∈ occurrences f audits n -> f (summary_maps full) !! n = Some w)
  /\ (n ∈ concat ps -> is_Some (f (summary_maps full) !! n) -> occurrences f audits n <> []).
Proof.
  intros Hc Hst Hf. apply child_audits_inv in Hc. induction Hc as [|p a ps audits [s Ha] Hc IH].
  { split; [by intros w ?%not_elem_of_nil|]. by intros ?%not_elem_of_nil. }
  cbn [forallb] in Hst. apply andb_prop in Hst as [Ha1 Hst]. destruct (IH Hst) as [IH1 IH2].
  rewrite occurrences_cons, (stable_child_map full s p a f n Ha Ha1 Hf). cbn [concat]. case_decide as Hp.
  - destruct (f (summary_maps full) !! n) as [u|] eqn:E.
    + split; [|done]. intros w [->|Hw]%elem_of_cons; [done|by apply IH1].
    + split; [by apply IH1|]. by intros _ [? ?].
  - split; [by apply IH1|]. intros [?|?]%elem_of_app; [done|by apply IH2].
Qed.

(** Over stable projections a covered name is consistent when the full layout has its contract. *)
Lemma values_match full ss ps audits f n : child_audits full ss ps = Ok audits -> forallb is_stable audits = true ->
  family f -> n ∈ concat ps ->
  _values_match_full (occurrences f audits n) (f (summary_maps full) !! n) = true <-> is_Some (f (summary_maps full) !! n).
Proof.
  intros Hc Hst Hf Hn. destruct (occurrences_values full ss ps audits f n Hc Hst Hf) as [H1 H2]. specialize (H2 Hn).
  destruct (f (summary_maps full) !! n) as [u|].
  - split; [by eauto|]. intros Hs. specialize (H2 Hs). destruct (occurrences f audits n) as [|v rest]; [done|]. cbn [_values_match_full].
    rewrite andb_true_iff, bool_decide_eq_true, forallb_elem. split; [|symmetry; apply H1; left].
    intros w Hw. apply bool_decide_eq_true. assert (Some u = Some w) by (apply H1; by right).
    assert (Some u = Some v) by (apply H1; left). congruence.
  - split; [|by intros [? ?]]. destruct (occurrences f audits n) as [|v rest]; [done|].
    specialize (H1 v ltac:(left)). done.
Qed.

Lemma coverage_stable full ss ps require_full overlaps a :
  _native_recursive_projection_coverage_contract_audit_from_summaries full ss ps require_full overlaps = Ok a ->
  coherent (coverage_report a)
  /\ (stable (coverage_report a) = true <-> certified_coverage full ss ps require_full overlaps).
Proof.
  unfold _native_recursive_projection_coverage_contract_audit_from_summaries, normalize_projection_coverage_inputs.
  destruct (summary_list full (lit "field_order")) as [order|] eqn:Ho; [|done]. cbn [mbind result_bind].
  destruct (child_audits full ss ps) as [audits|] eqn:Hc; [|done]. cbn [mbind result_bind].
  destruct (is_none full) eqn:Hf.
  { intros [= <-]. cbn [coverage_report]. split; [apply (coherent_note_if true), coherent_clean|].
    split; [done|]. intros (? & _ & Hf' & _). congruence. }
  intros [= <-]. unfold apply_projection_contract_consistency.
  match goal with |- context [foldl ?f (?v0, ?c0) ?l] =>
    pose proof (stable_consistency _ l v0 c0 : stable (foldl f (v0, c0) l).1 = true <-> _) as Hs;
    pose proof (coherent_consistency _ l v0 c0 : _ -> coherent (foldl f (v0, c0) l).1) as Hco;
    destruct (foldl f (v0, c0) l) as [v c] end.
  cbn [fst coverage_report coverage_inputs projection_audits full_maps covered_columns unknown_columns uncovered_columns
       projection_duplicate_columns requested_columns full_order] in *.
  split; [apply Hco; auto 20 with sanitizer|]. rewrite Hs.
  rewrite stable_note_unstable, !stable_note_if, stable_note_duplicates, !stable_note_if, !negb_false_iff, !andb_false_iff,
    !bool_decide_eq_true, !nonempty_false, !sorted_difference_nil, duplicate_names_nil.
  unfold consistent_family. cbn [projection_audits full_maps].
  setoid_rewrite in_list_true. setoid_rewrite elem_of_sorted_names. setoid_rewrite list_elem_of_filter.
  clear Hs Hco.
  assert (forall f n, family f -> forallb is_stable audits = true -> n ∈ concat ps ->
    _values_match_full (occurrences f audits n) (f (summary_maps full) !! n) = true <-> is_Some (f (summary_maps full) !! n)) as Hvm
    by (intros; by eapply values_match).
  assert (family field_map /\ family leaf_map /\ family root_map) as (F1 & F2 & F3) by (unfold family; auto).
  split.
  - intros [[[[[[[[_ Hrg] Hlen] _] Hin] Hreq] Hov] Hst] Hcons]. exists order.
    split_and!; try done; [naive_solver|destruct overlaps; naive_solver|by apply (child_audits_stable full ss ps audits)|].
    intros n Hn. destruct (Hcons n) as (H1 & H2 & _); [split; [by apply Is_true_true, in_list_true, Hin|done]|].
    split; [by apply (Hvm field_map)|by apply (Hvm leaf_map)].
  - intros (order' & Ho' & _ & Hrg & Hin & Hreq & Hov & Hall & Hsome). rewrite Ho in Ho'. injection Ho' as <-.
    assert (length ss = length ps) as Hlen by (by eapply Forall2_length).
    assert (forallb is_stable audits = true) as Hst by (by apply (child_audits_stable full ss ps audits)).
    split_and!; try done; [by eapply faithful_NoDup|..].
    + destruct require_full; [right|by left]. intros n Hn. split; [by apply Is_true_true, in_list_true|by apply Hreq].
    + destruct overlaps; [by left|right; by apply Hov].
    + intros n [_ Hn]. destruct (Hsome n Hn) as [Hs1 Hs2].
      split_and!; [by apply (Hvm field_map)|by apply (Hvm leaf_map)|apply (Hvm root_map); [done..|]].
      by eapply faithful_roots.
Qed.

(** ** When the audits return *)

(** A summary without a dict, or whose field order is a list (or nothing at all). *)
Definition listable (summary : json) : Prop := exists order, summary_list summary (lit "field_order") = Ok order.

Lemma subset_audit_total full projected columns : listable projected ->
  exists a, _native_recursive_projection_contract_audit_from_summaries full projected columns = Ok a.
Proof. intros [order Ho]. destruct (subset_audit_runs full projected columns order Ho) as (a & Ha & _). by exists a. Qed.

Lemma chain_total full source projected source_columns columns : listable source -> listable projected ->
  exists a, _native_recursive_projection_chain_contract_audit_from_summaries full source projected source_columns columns = Ok a.
Proof.
  intros Hs Hp. unfold _native_recursive_projection_chain_contract_audit_from_summaries.
  destruct (subset_audit_total full source (Some source_columns) Hs) as [fs ->].
  destruct (subset_audit_total source projected (Some columns) Hp) as [sp ->].
  destruct (subset_audit_total full projected (Some columns) Hp) as [fp ->]. cbn [mbind result_bind].
  repeat case_match. by eexists.
Qed.

Lemma child_audits_total full ss ps : Forall listable ss -> exists audits, child_audits full ss ps = Ok audits.
Proof.
  revert ss. induction ps as [|p ps IH]; intros ss Hss; [by eexists|]. cbn [child_audits].
  destruct (subset_audit_total full (default JNull (head ss)) (Some p)) as [a ->].
  { destruct Hss; [by eexists|done]. }
  destruct (IH (tail ss)) as [l ->]; [by destruct Hss|]. by eexists.
Qed.

Lemma partition_total full ss ps : listable full -> Forall listable ss ->
  exists a, _native_recursive_projection_partition_contract_audit_from_summaries full ss ps = Ok a.
Proof.
  intros [order Ho] Hss. destruct (child_audits_total full ss ps Hss) as [audits Ha].
  unfold _native_recursive_projection_partition_contract_audit_from_summaries, prepare_partition_audit_inputs.
  rewrite Ho, Ha. cbn [mbind result_bind]. destruct (is_none full); by eexists.
Qed.

Lemma coverage_total full ss ps require_full overlaps : listable full -> Forall listable ss ->
  exists a, _native_recursive_projection_coverage_contract_audit_from_summaries full ss ps require_full overlaps = Ok a.
Proof.
  intros [order Ho] Hss. destruct (child_audits_total full ss ps Hss) as [audits Ha].
  unfold _native_recursive_projection_coverage_contract_audit_from_summaries, normalize_projection_coverage_inputs.
  rewrite Ho, Ha. cbn [mbind result_bind]. destruct (is_none full); by eexists.
Qed.

(** ** Main theorems *)

(** The verdict of a subset audit is exact.  The audit returns whenever the
    field order of the projection is a list, and it is stable, without
    mismatches, exactly when the projection is faithful: stable layouts, the
    requested columns in order and without repetition, and for each of them the
    field, leaf and root contracts of the full layout. *)
Theorem subset_audit_exact full projected columns order :
  summary_list projected (lit "field_order") = Ok order ->
  exists a, _native_recursive_projection_contract_audit_from_summaries full projected columns = Ok a
  /\ (stable (report a) = true <-> faithful_projection full projected (requested columns order))
  /\ (stable (report a) = true <-> mismatches (report a) = []).
Proof.
  intros Ho. destruct (subset_audit_runs full projected columns order Ho) as (a & Ha & Hc & _ & Hst). by exists a.
Qed.


(** A partition audit returns for listable summaries, and it is stable
    exactly when the projections are faithful and their columns are the columns
    of the full layout, each once; the contracts it recomposes are then those of
    the full layout. *)
Theorem partition_audit_exact full ss ps : listable full -> Forall listable ss ->
  exists a, _native_recursive_projection_partition_contract_audit_from_summaries full ss ps = Ok a
  /\ (stable (partition_report a) = true <-> exact_partition full ss ps)
  /\ (stable (partition_report a) = true <-> mismatches (partition_report a) = [])
  /\ (stable (partition_report a) = true -> forall order n, summary_list full (lit "field_order") = Ok order -> n ∈ order ->
      field_map (recomposed_maps a) !! n = field_map (summary_maps full) !! n
      /\ leaf_map (recomposed_maps a) !! n = leaf_map (summary_maps full) !! n
      /\ root_map (recomposed_maps a) !! n = root_map (summary_maps full) !! n).
Proof.
  intros Hf Hss. destruct (partition_total full ss ps Hf Hss) as [a Ha]. exists a. split; [done|].
  apply partition_stable in Ha as (Hc & Hst & Hrec). split; [done|]. split; [done|]. intros H order n Ho Hn.
  split_and!; [apply (Hrec H field_map n order)|apply (Hrec H leaf_map n order)|apply (Hrec H root_map n order)]; unfold family; auto.
Qed.

(** A coverage audit is exact as well, and when it demands full coverage
    and forbids overlaps it gives the verdict of the partition audit, for a full
    layout with complete contract maps. *)
Theorem coverage_audit_exact full ss ps require_full overlaps : listable full -> Forall listable ss ->
  exists c, _native_recursive_projection_coverage_contract_audit_from_summaries full ss ps require_full overlaps = Ok c
  /\ (stable (coverage_report c) = true <-> certified_coverage full ss ps require_full overlaps)
  /\ (stable (coverage_report c) = true <-> mismatches (coverage_report c) = [])
  /\ (require_full = true -> overlaps = false ->
      (forall order n, summary_list full (lit "field_order") = Ok order -> n ∈ order ->
        is_Some (field_map (summary_maps full) !! n) /\ is_Some (leaf_map (summary_maps full) !! n)) ->
      exists p, _native_recursive_projection_partition_contract_audit_from_summaries full ss ps = Ok p
        /\ stable (coverage_report c) = stable (partition_report p)).
Proof.
  intros Hf Hss. destruct (coverage_total full ss ps require_full overlaps Hf Hss) as [c Hc]. exists c. split; [done|].
  apply coverage_stable in Hc as [Hco Hc]. split; [done|]. split; [done|]. intros -> -> Hsome.
  destruct (partition_total full ss ps Hf Hss) as [p Hp]. exists p. split; [done|].
  apply partition_stable in Hp as (_ & Hp & _). apply eq_true_iff_eq. rewrite Hc, Hp.
  unfold certified_coverage, exact_partition. split.
  - intros (o & Ho & H1 & H2 & Hin & Hreq & Hnd & Hall & _). exists o. split_and!; auto. intros n. split; auto.
  - intros (o & Ho & H1 & H2 & Hnd & Hset & Hall). exists o.
    split_and!; auto; intros n; rewrite ?Hset; eauto; intros; by apply Hset.
Qed.

(** ** Witnesses *)

Module Example.

Definition map_of (names : list text) (prefix : text) : json :=
  JObj ((fun n => (n, JStr (prefix ++ n))) <$> names).

Definition summary_of (names : list text) : json :=
  JObj [(lit "stable_across_row_groups", JBool true);
        (lit "field_order", JList (JStr <$> names));
        (_FIELD, map_of names (lit "f:")); (_LEAF, map_of names (lit "l:")); (_ROOT, map_of names (lit "r:"))].

Definition abc : list text := [lit "a"; lit "b"; lit "c"].
Definition full : json := summary_of abc.
Definition left : json := summary_of [lit "c"; lit "a"].
Definition right : json := summary_of [lit "b"].

Lemma listable_summary names : listable (summary_of names).
Proof. destruct names; eexists; reflexivity. Qed.

Lemma subset_audit_exact_witness : exists a,
  _native_recursive_projection_contract_audit_from_summaries full left (Some [lit "c"; lit "a"]) = Ok a
  /\ (stable (report a) = true <-> faithful_projection full left [lit "c"; lit "a"])
  /\ (stable (report a) = true <-> mismatches (report a) = []).
Proof. apply (subset_audit_exact full left (Some [lit "c"; lit "a"]) [lit "c"; lit "a"]). reflexivity. Defined.


Lemma partition_audit_exact_witness : exists a,
  _native_recursive_projection_partition_contract_audit_from_summaries full [left; right] [[lit "c"; lit "a"]; [lit "b"]] = Ok a
  /\ (stable (partition_report a) = true <-> exact_partition full [left; right] [[lit "c"; lit "a"]; [lit "b"]])
  /\ (stable (partition_report a) = true <-> mismatches (partition_report a) = [])
  /\ (stable (partition_report a) = true -> forall order n, summary_list full (lit "field_order") = Ok order -> n ∈ order ->
      field_map (recomposed_maps a) !! n = field_map (summary_maps full) !! n
      /\ leaf_map (recomposed_maps a) !! n = leaf_map (summary_maps full) !! n
      /\ root_map (recomposed_maps a) !! n = root_map (summary_maps full) !! n).
Proof. apply partition_audit_exact; [apply listable_summary|repeat constructor; apply listable_summary]. Defined.

Lemma coverage_audit_exact_witness : exists c,
  _native_recursive_projection_coverage_contract_audit_from_summaries full [left; right] [[lit "c"; lit "a"]; [lit "b"]] true false = Ok c
  /\ (stable (coverage_report c) = true <-> certified_coverage full [left; right] [[lit "c"; lit "a"]; [lit "b"]] true false)
  /\ (stable (coverage_report c) = true <-> mismatches (coverage_report c) = [])
  /\ (true = true -> false = false ->
      (forall order n, summary_list full (lit "field_order") = Ok order -> n ∈ order ->
        is_Some (field_map (summary_maps full) !! n) /\ is_Some (leaf_map (summary_maps full) !! n)) ->
      exists p, _native_recursive_projection_partition_contract_audit_from_summaries full [left; right] [[lit "c"; lit "a"]; [lit "b"]] = Ok p
        /\ stable (coverage_report c) = stable (partition_report p)).
Proof. apply coverage_audit_exact; [apply listable_summary|repeat constructor; apply listable_summary]. Defined.

(** The partition of the example is certified, and one with a missing column is not. *)
Example partition_verdicts :
  (a ← _native_recursive_projection_partition_contract_audit_from_summaries full [left; right] [[lit "c"; lit "a"]; [lit "b"]];
   Ok (stable (partition_report a))) = Ok true
  /\ (a ← _native_recursive_projection_partition_contract_audit_from_summaries full [left] [[lit "c"; lit "a"]];
      Ok (mismatches (partition_report a)))
     = Ok [lit "recursive projection partitions do not cover full layout columns: ['b']";
           lit "recursive projection partition field_fingerprint_matches_full is false";
           lit "recursive projection partition leaf_contract_fingerprint_matches_full is false";
           lit "recursive projection partition root_contract_fingerprint_matches_full is false"].
Proof. split; vm_compute; reflexivity. Qed.

End Example.
