(* ===== verification/GeneratedBytes.v ===== *)
(** * GeneratedBytes: replayable generated byte streams

    [core_impl/generated_bytes.py].  The buffered reader is written against the two
    methods its subclasses implement: [ByteSource] has the methods, [LawfulSource]
    what the reader relies on, and every lawful source makes the reader a cursor
    over its whole stream ([PythonRows] is one). *)

From Stdlib Require Import Ascii String.
From S2P Require Import Prelude PyLib.

#[local] Open Scope Z_scope.

Definition bytes : Type := list ascii.

Definition blen (b : bytes) : Z := Z.of_nat (length b).

(** [b[start:]] for a start within the bytes. *)
Definition from (start : Z) (b : bytes) : bytes := drop (Z.to_nat start) b.
Definition upto (size : Z) (b : bytes) : bytes := take (Z.to_nat size) b.

(** ** The buffered reader *)

(** What a subclass supplies: [_append_next] returns its flag and the bytes it
    appended to the buffer, [_reset_reader] rewinds the source. *)
Class ByteSource (S : Type) : Type := {
  append_next : Z -> S -> result (bool * bytes) * S;
  reset_reader : S -> result unit * S;
}.

Definition _COMPACT_AFTER_BYTES : Z := 2 ^ 20.
Definition _ZERO_CHUNK_BYTES : Z := 2 ^ 20.

Definition zero : ascii := ascii_of_N 0.

(** Reader state; [freed] collects the bytes of the buffer that were given back
    to the allocator, as they were at that moment. *)
Record reader (S : Type) : Type := mk_reader {
  source : S;
  buffer : bytes;
  buffer_offset : Z;
  closed : bool;
  default_chunk_bytes : Z;
  freed : bytes;
}.
Arguments mk_reader {S}.
Arguments source {S}.
Arguments buffer {S}.
Arguments buffer_offset {S}.
Arguments closed {S}.
Arguments default_chunk_bytes {S}.
Arguments freed {S}.

(** [_zero_bytearray_range]: chunk after chunk of zeros. *)
Fixpoint zero_loop (fuel : nat) (b : bytes) (cursor end_ : Z) : bytes :=
  match fuel with
  | O => b
  | S fuel' =>
    if cursor <? end_ then
      let next_cursor := Z.min (cursor + _ZERO_CHUNK_BYTES) end_ in
      zero_loop fuel' (upto cursor b ++ replicate (Z.to_nat (next_cursor - cursor)) zero ++ from next_cursor b) next_cursor end_
    else b
  end.

Definition _zero_bytearray_range (b : bytes) (start end_ : Z) : bytes :=
  if (start <? 0) || (end_ <=? start) then b
  else zero_loop (S (Z.to_nat ((end_ - start) / _ZERO_CHUNK_BYTES))) b start end_.

Section Reader.
Context {S : Type} `{ByteSource S}.

Definition _buffered_bytes (r : reader S) : Z := blen (buffer r) - buffer_offset r.

Definition _discard_buffer (r : reader S) : reader S :=
  let wiped := _zero_bytearray_range (buffer r) 0 (blen (buffer r)) in
  mk_reader (source r) [] 0 (closed r) (default_chunk_bytes r) (freed r ++ wiped).

Definition _compact_buffer (r : reader S) : reader S :=
  if buffer_offset r =? 0 then r
  else if buffer_offset r =? blen (buffer r) then _discard_buffer r
  else if (_COMPACT_AFTER_BYTES <=? buffer_offset r) && (blen (buffer r) <=? buffer_offset r * 2) then
    let wiped := _zero_bytearray_range (buffer r) 0 (buffer_offset r) in
    mk_reader (source r) (from (buffer_offset r) wiped) 0 (closed r) (default_chunk_bytes r)
              (freed r ++ upto (buffer_offset r) wiped)
  else r.

Definition with_source (s : S) (r : reader S) : reader S :=
  mk_reader s (buffer r) (buffer_offset r) (closed r) (default_chunk_bytes r) (freed r).

Definition extend (part : bytes) (r : reader S) : reader S :=
  mk_reader (source r) (buffer r ++ part) (buffer_offset r) (closed r) (default_chunk_bytes r) (freed r).

Definition with_offset (offset : Z) (r : reader S) : reader S :=
  mk_reader (source r) (buffer r) offset (closed r) (default_chunk_bytes r) (freed r).

(** The loop of [read]: fill the buffer until it holds [max_bytes] or the source
    has no more.  Every turn that goes on adds a byte, so [max_bytes] turns and a
    last one are enough; [None] is a loop that needs more. *)
Fixpoint fill (fuel : nat) (max_bytes : Z) (r : reader S) : option (result unit * reader S) :=
  match fuel with
  | O => None
  | Datatypes.S fuel' =>
    if _buffered_bytes r <? max_bytes then
      let r := _compact_buffer r in
      let before := blen (buffer r) in
      match append_next (max_bytes - _buffered_bytes r) (source r) with
      | (Err e, s') => Some (Err e, with_source s' r)
      | (Ok (more, part), s') =>
        let r := extend part (with_source s' r) in
        if negb more || (blen (buffer r) =? before) then Some (Ok tt, r) else fill fuel' max_bytes r
      end
    else Some (Ok tt, r)
  end.

(** The bytes handed out once the buffer is filled. *)
Definition take_out (max_bytes : Z) (r : reader S) : bytes * reader S :=
  let available := _buffered_bytes r in
  if available =? 0 then ([], r)
  else
    let read_size := Z.min max_bytes available in
    let start := buffer_offset r in
    let out := upto read_size (from start (buffer r)) in
    (out, _compact_buffer (with_offset (start + read_size) r)).

Definition read (max_bytes : option Z) (r : reader S) : option (result bytes * reader S) :=
  if closed r then Some (Err ValueError, r)
  else
    let max_bytes := match max_bytes with
                     | None => default_chunk_bytes r
                     | Some n => if n <? 0 then default_chunk_bytes r else n
                     end in
    if max_bytes =? 0 then Some (Ok [], r)
    else
      match fill (Datatypes.S (Z.to_nat max_bytes)) max_bytes r with
      | None => None
      | Some (Err e, r') => Some (Err e, r')
      | Some (Ok _, r') => let '(out, r'') := take_out max_bytes r' in Some (Ok out, r'')
      end.

Definition seek (offset : Z) (r : reader S) : result Z * reader S :=
  if negb (offset =? 0) then (Err ValueError, r)
  else
    match reset_reader (source r) with
    | (Err e, s') => (Err e, with_source s' r)
    | (Ok _, s') =>
      let r := _discard_buffer (with_source s' r) in
      (Ok 0, mk_reader (source r) (buffer r) (buffer_offset r) false (default_chunk_bytes r) (freed r))
    end.

Definition close (r : reader S) : reader S :=
  if closed r then r
  else
    let r := _discard_buffer r in
    mk_reader (source r) (buffer r) (buffer_offset r) true (default_chunk_bytes r) (freed r).

End Reader.

(** ** What the reader relies on *)

(** In a [healthy] state the source delivers its [remaining] bytes part by part,
    at least one byte per call while any remain, and rewinds to the [whole]. *)
Class LawfulSource (S : Type) `{ByteSource S} : Type := {
  healthy : S -> Prop;
  remaining : S -> bytes;
  whole : S -> bytes;
  append_next_law s target : healthy s -> 0 < target ->
    exists more part s', append_next target s = (Ok (more, part), s')
      /\ healthy s' /\ remaining s = part ++ remaining s' /\ whole s' = whole s
      /\ (more = false -> part = []) /\ (part = [] -> remaining s = []);
  reset_reader_law s : healthy s ->
    exists s', reset_reader s = (Ok tt, s') /\ healthy s' /\ remaining s' = whole s /\ whole s' = whole s;
}.

(** ** The reader is a cursor over the whole stream *)

Inductive op : Type :=
| Read (max_bytes : option Z)
| Seek0.

Inductive answer : Type :=
| Data (b : bytes)
| At (offset : Z)
| Raised (e : exn).

Section Run.
Context {S : Type} `{ByteSource S}.

Definition perform (o : op) (r : reader S) : option (answer * reader S) :=
  match o with
  | Read n => match read n r with
              | None => None
              | Some (Ok b, r') => Some (Data b, r')
              | Some (Err e, r') => Some (Raised e, r')
              end
  | Seek0 => match seek 0 r with
             | (Ok z, r') => Some (At z, r')
             | (Err e, r') => Some (Raised e, r')
             end
  end.

(** A sequence of calls on one reader, with the answers in order. *)
Fixpoint performs (ops : list op) (r : reader S) : option (list answer * reader S) :=
  match ops with
  | [] => Some ([], r)
  | o :: ops' =>
    match perform o r with
    | None => None
    | Some (a, r') => match performs ops' r' with
                      | None => None
                      | Some (answers, r'') => Some (a :: answers, r'')
                      end
    end
  end.
End Run.

(** The specification: a position in a byte string. *)
Definition chunk_of (default : Z) (max_bytes : option Z) : Z :=
  match max_bytes with None => default | Some n => if n <? 0 then default else n end.

Definition cursor_step (whole : bytes) (default : Z) (o : op) (position : nat) : answer * nat :=
  match o with
  | Read n => let out := take (Z.to_nat (chunk_of default n)) (drop position whole) in
              (Data out, (position + length out)%nat)
  | Seek0 => (At 0, O)
  end.

Fixpoint cursor_steps (whole : bytes) (default : Z) (ops : list op) (position : nat) : list answer * nat :=
  match ops with
  | [] => ([], position)
  | o :: ops' => let '(a, position') := cursor_step whole default o position in
                 let '(answers, last) := cursor_steps whole default ops' position' in
                 (a :: answers, last)
  end.

(** *** Wiping *)

Lemma blen_nonneg b : 0 <= blen b.
Proof. unfold blen; lia. Qed.

Lemma length_upto n b : 0 <= n <= blen b -> length (upto n b) = Z.to_nat n.
Proof. unfold upto, blen; intros; rewrite length_take; lia. Qed.

Lemma zero_loop_exact fuel b start cursor end_ :
  0 <= start <= cursor -> cursor <= end_ <= blen b ->
  end_ - cursor <= Z.of_nat fuel * _ZERO_CHUNK_BYTES ->
  zero_loop fuel (upto start b ++ replicate (Z.to_nat (cursor - start)) zero ++ from cursor b) cursor end_
  = upto start b ++ replicate (Z.to_nat (end_ - start)) zero ++ from end_ b.
Proof.
  revert cursor; induction fuel as [|fuel IH]; intros cursor Hs Hc Hf.
  { replace end_ with cursor by lia; done. }
  cbn [zero_loop]; destruct (Z.ltb_spec cursor end_); [|by replace end_ with cursor by lia].
  set (next := Z.min (cursor + _ZERO_CHUNK_BYTES) end_).
  assert (Hnext : cursor < next <= end_) by (unfold next, _ZERO_CHUNK_BYTES; lia).
  rewrite <- (IH next); [|lia|lia|unfold next; change _ZERO_CHUNK_BYTES with 1048576 in *; lia].
  f_equal; unfold upto, from, blen in *.
  rewrite !(assoc_L app), take_app_length', drop_app_ge; rewrite ?length_app, ?length_replicate, ?length_take; try lia.
  rewrite drop_drop, <- (assoc_L app (take _ _)), <- replicate_add.
  f_equal; [f_equal; f_equal; lia|f_equal; lia].
Qed.

Lemma zero_range_exact b start end_ :
  0 <= start <= end_ -> end_ <= blen b ->
  _zero_bytearray_range b start end_ = upto start b ++ replicate (Z.to_nat (end_ - start)) zero ++ from end_ b.
Proof.
  intros Hs He; unfold _zero_bytearray_range; destruct (Z.ltb_spec start 0); [lia|]; simpl.
  destruct (Z.leb_spec end_ start).
  - replace end_ with start by lia; rewrite Z.sub_diag; simpl; unfold upto, from; by rewrite take_drop.
  - rewrite <- (zero_loop_exact (S (Z.to_nat ((end_ - start) / _ZERO_CHUNK_BYTES))) b start start end_); [|lia|lia|].
    + rewrite Z.sub_diag; simpl; unfold upto, from; by rewrite take_drop.
    + rewrite Nat2Z.inj_succ, Z2Nat.id by (apply Z.div_pos; unfold _ZERO_CHUNK_BYTES; lia).
      pose proof (Z.mul_succ_div_gt (end_ - start) _ZERO_CHUNK_BYTES ltac:(unfold _ZERO_CHUNK_BYTES; lia)); lia.
Qed.

Definition zeroed (b : bytes) : Prop := Forall (fun c => c = zero) b.

Lemma zero_prefix b n : 0 <= n <= blen b ->
  _zero_bytearray_range b 0 n = replicate (Z.to_nat n) zero ++ from n b.
Proof. intros; rewrite zero_range_exact by lia; unfold upto; simpl; by rewrite Z.sub_0_r. Qed.

Lemma zeroed_replicate n : zeroed (replicate n zero).
Proof. by apply Forall_replicate. Qed.

(** *** Simulation *)

Section Simulation.
Context {S : Type} `{LS : LawfulSource S}.

(** The bytes a reader has still to hand out. *)
Definition pending (r : reader S) : bytes := from (buffer_offset r) (buffer r) ++ remaining (source r).

Record reader_ok (stream : bytes) (r : reader S) : Prop := {
  ok_source : healthy (source r);
  ok_whole : whole (source r) = stream;
  ok_offset : 0 <= buffer_offset r <= blen (buffer r);
  ok_open : closed r = false;
  ok_chunk : 0 <= default_chunk_bytes r;
  ok_freed : zeroed (freed r);
}.

Lemma wiped_all b : _zero_bytearray_range b 0 (blen b) = replicate (length b) zero.
Proof.
  rewrite zero_prefix by (pose proof (blen_nonneg b); lia).
  unfold from, blen; rewrite Nat2Z.id, drop_all; apply app_nil_r.
Qed.

Lemma discard_ok stream r : reader_ok stream r ->
  reader_ok stream (_discard_buffer r) /\ pending (_discard_buffer r) = remaining (source r).
Proof.
  intros []; split; [|done]; split; simpl; try done.
  apply Forall_app; split; [done|rewrite wiped_all; apply zeroed_replicate].
Qed.

Lemma compact_ok stream r : reader_ok stream r ->
  reader_ok stream (_compact_buffer r) /\ pending (_compact_buffer r) = pending r
  /\ _buffered_bytes (_compact_buffer r) = _buffered_bytes r
  /\ source (_compact_buffer r) = source r
  /\ default_chunk_bytes (_compact_buffer r) = default_chunk_bytes r.
Proof.
  intros Hr; unfold _compact_buffer; destruct (Z.eqb_spec (buffer_offset r) 0); [done|].
  destruct (Z.eqb_spec (buffer_offset r) (blen (buffer r))) as [He|].
  { destruct (discard_ok _ _ Hr) as [Hd ->]; split; [done|].
    unfold pending, _buffered_bytes, from; rewrite He; unfold blen; rewrite Nat2Z.id, drop_all; simpl.
    split; [done|split; [lia|done]]. }
  destruct (_ && _); [|done]; destruct Hr.
  rewrite zero_prefix by done; unfold pending, _buffered_bytes, from, upto, blen; cbn [source buffer buffer_offset].
  rewrite drop_app_length', take_app_length' by (rewrite length_replicate; lia).
  split; [split; simpl; try done; unfold blen in *; [rewrite length_drop; lia|]|].
  - apply Forall_app; split; [done|apply zeroed_replicate].
  - split; [by rewrite drop_0|split; [unfold blen in *; rewrite length_drop; lia|done]].
Qed.

(** Enough turns fill the buffer, or drain the source. *)
Lemma fill_ok stream max_bytes fuel r :
  reader_ok stream r -> (Z.to_nat (max_bytes - _buffered_bytes r) < fuel)%nat ->
  exists r', fill fuel max_bytes r = Some (Ok tt, r') /\ reader_ok stream r' /\ pending r' = pending r
    /\ default_chunk_bytes r' = default_chunk_bytes r
    /\ (max_bytes <= _buffered_bytes r' \/ remaining (source r') = []).
Proof.
  revert r; induction fuel as [|fuel IH]; intros r Hr Hf; [lia|]; cbn [fill].
  destruct (Z.ltb_spec (_buffered_bytes r) max_bytes); [|exists r; split_and!; try done; by left].
  destruct (compact_ok _ _ Hr) as (Hc & Hp & Hb & Hs & Hd).
  set (c := _compact_buffer r) in *; rewrite Hb in *.
  destruct (append_next_law (source c) (max_bytes - _buffered_bytes r)) as (more & part & s' & E & Hh & Hrem & Hw & Hmore & Hpart);
    [apply Hc|lia|]; rewrite E.
  set (r1 := extend part (with_source s' c)).
  assert (Hr1 : reader_ok stream r1).
  { destruct Hc; split; simpl; try done; [congruence|unfold blen in *; rewrite length_app; lia]. }
  assert (Hp1 : pending r1 = pending r).
  { rewrite <- Hp; unfold pending, from; simpl; rewrite Hrem, (assoc_L app); f_equal.
    apply drop_app_le; destruct Hc; unfold blen in *; lia. }
  assert (Hlen : blen (buffer r1) = blen (buffer c) + blen part).
  { unfold r1, blen; simpl; rewrite length_app; lia. }
  destruct (Z.eqb_spec (blen (buffer r1)) (blen (buffer c))) as [He|Hne].
  { rewrite orb_true_r; exists r1; split_and!; try done; right; simpl.
    assert (part = []) as -> by (apply length_zero_iff_nil; unfold blen in *; lia).
    by rewrite Hpart in Hrem by done. }
  destruct more; simpl.
  - destruct (IH r1 Hr1) as (r' & -> & Hr' & Hp' & Hd' & Hend).
    { unfold _buffered_bytes in *; change (buffer_offset r1) with (buffer_offset c); unfold blen in *; lia. }
    exists r'; split_and!; try done; [congruence|rewrite Hd'; exact Hd].
  - rewrite (Hmore eq_refl) in Hlen; change (blen []) with 0 in Hlen; lia.
Qed.

Lemma take_out_ok stream max_bytes r :
  reader_ok stream r -> 0 <= max_bytes -> max_bytes <= _buffered_bytes r \/ remaining (source r) = [] ->
  exists r', take_out max_bytes r = (upto max_bytes (pending r), r') /\ reader_ok stream r'
    /\ pending r' = from max_bytes (pending r) /\ default_chunk_bytes r' = default_chunk_bytes r.
Proof.
  intros Hr Hm Hend; unfold take_out.
  pose proof (ok_offset _ _ Hr) as Hoff; pose proof (blen_nonneg (buffer r)) as Hb.
  assert (Hfrom : blen (from (buffer_offset r) (buffer r)) = _buffered_bytes r).
  { unfold from, _buffered_bytes, blen in *; rewrite length_drop; lia. }
  destruct (Z.eqb_spec (_buffered_bytes r) 0) as [E|E].
  { exists r; unfold pending in *.
    assert (from (buffer_offset r) (buffer r) = []) as -> by (apply length_zero_iff_nil; unfold blen in Hfrom; lia).
    simpl; unfold upto, from; destruct Hend as [Hend| ->].
    - replace max_bytes with 0 by lia; done.
    - rewrite take_nil, drop_nil; done. }
  set (size := Z.min max_bytes (_buffered_bytes r)); set (r1 := with_offset (buffer_offset r + size) r).
  assert (Hr1 : reader_ok stream r1).
  { destruct Hr; split; simpl; try done; unfold _buffered_bytes in *; lia. }
  destruct (compact_ok _ _ Hr1) as (Hc & Hp & _ & _ & Hd).
  exists (_compact_buffer r1); split; [f_equal|split; [done|split; [|done]]].
  - unfold pending, upto; unfold blen in Hfrom; destruct Hend as [Hend|Hend].
    + rewrite take_app_le by lia; do 2 f_equal; lia.
    + rewrite Hend, app_nil_r; destruct (Z.le_ge_cases max_bytes (_buffered_bytes r)); [do 2 f_equal; lia|].
      rewrite !take_ge by lia; done.
  - rewrite Hp; unfold pending, r1; simpl; unfold from in *; unfold blen in Hfrom.
    replace (Z.to_nat (buffer_offset r + size)) with (Z.to_nat (buffer_offset r) + Z.to_nat size)%nat
      by (unfold _buffered_bytes in *; lia).
    rewrite <- drop_drop; destruct Hend as [Hend|Hend].
    + rewrite drop_app_le by lia; do 2 f_equal; lia.
    + rewrite Hend, !app_nil_r; destruct (Z.le_ge_cases max_bytes (_buffered_bytes r)); [f_equal; lia|].
      rewrite !drop_ge by lia; done.
Qed.

Lemma read_ok stream n r : reader_ok stream r ->
  exists r', read n r = Some (Ok (upto (chunk_of (default_chunk_bytes r) n) (pending r)), r')
    /\ reader_ok stream r' /\ pending r' = from (chunk_of (default_chunk_bytes r) n) (pending r)
    /\ default_chunk_bytes r' = default_chunk_bytes r.
Proof.
  intros Hr; unfold read; rewrite (ok_open _ _ Hr); fold (chunk_of (default_chunk_bytes r) n).
  assert (Hm : 0 <= chunk_of (default_chunk_bytes r) n).
  { pose proof (ok_chunk _ _ Hr); unfold chunk_of; destruct n as [k|]; [destruct (Z.ltb_spec k 0)|]; lia. }
  set (m := chunk_of _ _) in *; destruct (Z.eqb_spec m 0) as [E|E]; [rewrite E; by exists r|].
  destruct (fill_ok stream m (Datatypes.S (Z.to_nat m)) r Hr) as (r1 & -> & Hr1 & Hp1 & Hd1 & Hend).
  { pose proof (ok_offset _ _ Hr); unfold _buffered_bytes; lia. }
  destruct (take_out_ok stream m r1 Hr1 Hm Hend) as (r2 & -> & Hr2 & Hp2 & Hd2).
  exists r2; rewrite Hp2, Hp1; split_and!; try done; congruence.
Qed.

Lemma seek_ok stream r : reader_ok stream r ->
  exists r', seek 0 r = (Ok 0, r') /\ reader_ok stream r' /\ pending r' = stream
    /\ default_chunk_bytes r' = default_chunk_bytes r.
Proof.
  intros Hr; unfold seek; simpl.
  destruct (reset_reader_law (source r)) as (s' & -> & Hh & Hrem & Hw); [apply Hr|].
  assert (Hr1 : reader_ok stream (with_source s' r)) by (destruct Hr; split; simpl; try done; congruence).
  destruct (discard_ok _ _ Hr1) as [Hd Hp].
  eexists; split; [done|split; [|split; [|done]]].
  - destruct Hd; split; done.
  - change (pending (_discard_buffer (with_source s' r)) = stream); rewrite Hp; simpl.
    by rewrite Hrem, (ok_whole _ _ Hr).
Qed.

(** Reads and rewinds of an open reader in any order answer as a cursor over the
    whole stream does. *)
Lemma performs_ok stream ops r position :
  reader_ok stream r -> pending r = drop position stream ->
  exists r', performs ops r = Some ((cursor_steps stream (default_chunk_bytes r) ops position).1, r')
    /\ reader_ok stream r'.
Proof.
  revert r position; induction ops as [|o ops IH]; intros r position Hr Hp; [by exists r|].
  cbn [performs cursor_steps].
  assert (exists r1, perform o r = Some ((cursor_step stream (default_chunk_bytes r) o position).1, r1)
    /\ reader_ok stream r1 /\ pending r1 = drop (cursor_step stream (default_chunk_bytes r) o position).2 stream
    /\ default_chunk_bytes r1 = default_chunk_bytes r) as (r1 & -> & Hr1 & Hp1 & Hd1).
  { destruct o as [n|]; simpl.
    - destruct (read_ok stream n r Hr) as (r1 & -> & Hr1 & Hp1 & Hd1); exists r1.
      rewrite Hp1, Hp; unfold upto, from; split_and!; try done.
      rewrite <- drop_drop, length_take; set (l := drop position stream).
      destruct (le_ge_dec (Z.to_nat (chunk_of (default_chunk_bytes r) n)) (length l)).
      + f_equal; lia.
      + rewrite !drop_ge by lia; done.
    - destruct (seek_ok stream r Hr) as (r1 & E & Hr1 & Hp1 & Hd1); rewrite E; by exists r1. }
  destruct (cursor_step stream (default_chunk_bytes r) o position) as [a p1]; simpl in *.
  destruct (IH r1 p1 Hr1 Hp1) as (r' & -> & Hr'); rewrite Hd1.
  destruct (cursor_steps _ _ ops p1); exists r'; done.
Qed.
End Simulation.
