(* ===== verification/PythonRows.v ===== *)
(** * PythonRows: Python rows as a replayable JSON Lines stream

    [PythonRowsJsonlByteReader] of [core_impl/python_rows.py] with the native
    batch encoders it calls ([cpp/src/api/python_abi3/json/_core_abi3_python_rows.cc]).
    The reader encodes every row once, records the bytes in a spool, and replays
    the spool after a rewind; it implements the source interface of
    [GeneratedBytes], whose reader then is a cursor over the encoded rows. *)

From Stdlib Require Import Ascii String.
From S2P Require Import Prelude PyLib GeneratedBytes.

#[local] Open Scope Z_scope.

Definition _MAX_ITERABLE_ROWS_PER_BATCH : nat := 4096.
Definition _MIN_FREE_DISK_BYTES : Z := 16 * 1024 * 1024.

Definition newline : ascii := ascii_of_N 10.

(** What [memory_budget] grants the reader. *)
Record budget : Type := mk_budget {
  total_bytes : Z;
  replay_spool_bytes : Z;
  io_chunk_bytes : Z;
}.

(** A spooled temporary file: its content and its position. *)
Record spool_file : Type := mk_spool { content : bytes; position : Z }.

Definition spool_read (size : Z) (f : spool_file) : bytes * spool_file :=
  let out := upto size (from (position f) (content f)) in
  (out, mk_spool (content f) (position f + blen out)).

(** [write] at the position replaces what is there and extends the file. *)
Definition spool_write (b : bytes) (f : spool_file) : spool_file :=
  mk_spool (upto (position f) (content f) ++ b ++ from (position f + blen b) (content f)) (position f + blen b).

Definition spool_end (f : spool_file) : spool_file := mk_spool (content f) (blen (content f)).

Section Rows.
(** The rows, and what the native encoder appends for one row: a row that is not
    a dict is a [TypeError], a value without JSON form a [ValueError]. *)
Context {R : Type} (append_python_json_value : R -> result bytes).

(** The file system: the answer of the [n]-th [disk_usage] call ([None] is an
    [OSError]), and how many bytes the [n]-th write takes ([None] likewise). *)
Context (disk_free : nat -> option Z) (accepted : nat -> option Z).

(** ** Native batches *)

Definition append_python_row (out : bytes) (item : R) : result bytes :=
  b ← append_python_json_value item; Ok (out ++ b ++ [newline]).

Definition full (target_bytes : Z) (out : bytes) : bool := (0 <? target_bytes) && (target_bytes <=? blen out).

Fixpoint rows_batch (items : list R) (target_bytes : Z) (out : bytes) (next_index : Z) : result (bytes * Z) :=
  match items with
  | [] => Ok (out, next_index)
  | item :: items' =>
    match append_python_row out item with
    | Err e => Err e
    | Ok out =>
      if full target_bytes out then Ok (out, next_index + 1)
      else rows_batch items' target_bytes out (next_index + 1)
    end
  end.

Definition py_python_rows_jsonl_bytes (rows : list R) (start_index target_bytes : Z) : result (bytes * Z) :=
  if start_index <? 0 then Err ValueError
  else
    let row_count := Z.of_nat (length rows) in
    let start_index := if row_count <? start_index then row_count else start_index in
    rows_batch (drop (Z.to_nat start_index) rows) target_bytes [] start_index.

(** An iterator is what it yields from here on, an item or an exception; a batch
    consumes it also when the batch fails. *)
Fixpoint iter_batch (max_rows : nat) (iterator : list (result R)) (target_bytes : Z) (out : bytes) (next_index : Z)
  : result (bytes * Z * bool) * list (result R) :=
  match max_rows with
  | O => (Ok (out, next_index, false), iterator)
  | S max_rows' =>
    match iterator with
    | [] => (Ok (out, next_index, true), [])
    | Err e :: iterator' => (Err e, iterator')
    | Ok item :: iterator' =>
      match append_python_row out item with
      | Err e => (Err e, iterator')
      | Ok out =>
        if full target_bytes out then (Ok (out, next_index + 1, false), iterator')
        else iter_batch max_rows' iterator' target_bytes out (next_index + 1)
      end
    end
  end.

Definition py_python_iter_rows_jsonl_bytes (iterator : list (result R)) (start_index target_bytes : Z) (max_rows : nat)
  : result (bytes * Z * bool) * list (result R) :=
  if start_index <? 0 then (Err ValueError, iterator)
  else if (max_rows =? 0)%nat then (Err ValueError, iterator)
  else iter_batch max_rows iterator target_bytes [] start_index.

(** ** Reader state *)

Record rows_source : Type := mk_rows {
  rows : option (list R);
  iterable : option (list (result R));
  iterable_index : Z;
  sequence_index : Z;
  source_complete : bool;
  spool : option spool_file;
  spool_bytes : Z;
  replay_spool : bool;
  source_limit_bytes : option Z;
  accounted_sequence_bytes : Z;
  spool_memory_bytes : Z;
  max_spool_bytes : Z;
  calls : nat;
}.

Inductive rows_input : Type :=
| Sequence (rows : list R)
| Iterator (items : list (result R)).

Definition __init__ (input : rows_input) (limited : bool) (b : budget) : reader rows_source :=
  mk_reader
    (mk_rows (match input with Sequence rs => Some rs | Iterator _ => None end)
             (match input with Sequence _ => None | Iterator items => Some items end)
             0 0 false (Some (mk_spool [] 0)) 0 false
             (if limited then Some (total_bytes b) else None) 0
             (Z.min (8 * 1024 * 1024) (total_bytes b)) (replay_spool_bytes b) 0)
    [] 0 false (io_chunk_bytes b) [].

Definition wrapped (e : exn) : exn :=
  match e with RuntimeError | ValueError => RuntimeError | _ => e end.

Definition set_iterable it index complete (s : rows_source) : rows_source :=
  mk_rows (rows s) it index (sequence_index s) complete (spool s) (spool_bytes s) (replay_spool s)
          (source_limit_bytes s) (accounted_sequence_bytes s) (spool_memory_bytes s) (max_spool_bytes s) (calls s).

Definition set_sequence index accounted complete (s : rows_source) : rows_source :=
  mk_rows (rows s) (iterable s) (iterable_index s) index complete (spool s) (spool_bytes s) (replay_spool s)
          (source_limit_bytes s) accounted (spool_memory_bytes s) (max_spool_bytes s) (calls s).

Definition set_spool f size replay (s : rows_source) : rows_source :=
  mk_rows (rows s) (iterable s) (iterable_index s) (sequence_index s) (source_complete s) f size replay
          (source_limit_bytes s) (accounted_sequence_bytes s) (spool_memory_bytes s) (max_spool_bytes s) (calls s).

Definition count_call (s : rows_source) : rows_source :=
  mk_rows (rows s) (iterable s) (iterable_index s) (sequence_index s) (source_complete s) (spool s) (spool_bytes s)
          (replay_spool s) (source_limit_bytes s) (accounted_sequence_bytes s) (spool_memory_bytes s)
          (max_spool_bytes s) (S (calls s)).

(** ** Producing payloads *)

Definition _next_iterable_payload (target_bytes : Z) (s : rows_source) : result bytes * rows_source :=
  if source_complete s then (Ok [], s)
  else
    match iterable s with
    | None => (Err AssertionError, s)
    | Some it =>
      match py_python_iter_rows_jsonl_bytes it (iterable_index s) (Z.max 1 target_bytes) _MAX_ITERABLE_ROWS_PER_BATCH with
      | (Err e, it') => (Err (wrapped e), set_iterable (Some it') (iterable_index s) false s)
      | (Ok (payload, next_index, exhausted), it') =>
        let stuck := set_iterable (Some it') (iterable_index s) false s in
        if next_index <? iterable_index s then (Err RuntimeError, stuck)
        else if (blen payload =? 0) && negb exhausted && (next_index =? iterable_index s) then (Err RuntimeError, stuck)
        else (Ok payload, set_iterable (if exhausted then None else Some it') next_index exhausted s)
      end
    end.

Definition _next_sequence_payload (target_bytes : Z) (s : rows_source) : result bytes * rows_source :=
  match rows s with
  | None => (Err AssertionError, s)
  | Some rs =>
    if source_complete s then (Ok [], s)
    else
      let row_count := Z.of_nat (length rs) in
      let start_index := sequence_index s in
      if row_count <=? start_index then (Ok [], set_sequence start_index (accounted_sequence_bytes s) true s)
      else
        match py_python_rows_jsonl_bytes rs start_index (Z.max 1 target_bytes) with
        | Err e => (Err (wrapped e), s)
        | Ok (payload, next_index) =>
          if next_index <=? start_index then (Err RuntimeError, s)
          else
            let accounted := accounted_sequence_bytes s + blen payload in
            if (match source_limit_bytes s with Some limit => limit <? accounted | None => false end)
            then (Err RuntimeError, set_sequence next_index accounted false s)
            else (Ok payload, set_sequence next_index accounted (row_count <=? next_index) s)
        end
  end.

Definition _next_source_payload (target_bytes : Z) (s : rows_source) : result bytes * rows_source :=
  match rows s with
  | Some _ => _next_sequence_payload target_bytes s
  | None => _next_iterable_payload target_bytes s
  end.

(** ** The spool *)

Definition ensure_replay_spool_capacity (free : option Z) (payload_bytes next_size memory_bytes minimum_free_bytes : Z)
  : result unit :=
  if (next_size <=? memory_bytes) || (payload_bytes <=? 0) then Ok tt
  else
    match free with
    | None => Err OSError
    | Some free_bytes => if free_bytes <? payload_bytes + minimum_free_bytes then Err OSError else Ok tt
    end.

Definition _record_payload (payload : bytes) (s : rows_source) : result unit * rows_source :=
  if blen payload =? 0 then (Ok tt, s)
  else
    let next_size := spool_bytes s + blen payload in
    if max_spool_bytes s <? next_size then (Err RuntimeError, s)
    else
      match ensure_replay_spool_capacity (disk_free (calls s)) (blen payload) next_size (spool_memory_bytes s)
                                         _MIN_FREE_DISK_BYTES with
      | Err e => (Err e, count_call s)
      | Ok _ =>
        match spool s with
        | None => (Err AssertionError, count_call s)
        | Some f =>
          match accepted (calls s) with
          | None => (Err OSError, count_call (set_spool (Some (spool_end f)) (spool_bytes s) (replay_spool s) s))
          | Some room =>
            let written := Z.min room (blen payload) in
            let f' := spool_write (upto written payload) (spool_end f) in
            if negb (written =? blen payload)
            then (Err OSError, count_call (set_spool (Some f') (spool_bytes s) (replay_spool s) s))
            else (Ok tt, count_call (set_spool (Some f') next_size (replay_spool s) s))
          end
        end
      end.

Definition _produce_and_record (target_bytes : Z) (s : rows_source) : result bytes * rows_source :=
  match _next_source_payload target_bytes s with
  | (Err e, s') => (Err e, s')
  | (Ok payload, s') =>
    match _record_payload payload s' with
    | (Err e, s'') => (Err e, s'')
    | (Ok _, s'') => (Ok payload, s'')
    end
  end.

(** The last part of [_append_next]: a new payload. *)
Definition append_produced (target_bytes : Z) (s : rows_source) : result (bool * bytes) * rows_source :=
  match _produce_and_record target_bytes s with
  | (Err e, s') => (Err e, s')
  | (Ok payload, s') => if blen payload =? 0 then (Ok (false, []), s') else (Ok (true, payload), s')
  end.

Definition _append_next (target_bytes : Z) (s : rows_source) : result (bool * bytes) * rows_source :=
  match spool s with
  | None => (Err AssertionError, s)
  | Some f =>
    if replay_spool s then
      let '(payload, f') := spool_read (Z.max 1 target_bytes) f in
      let s := set_spool (Some f') (spool_bytes s) true s in
      if blen payload =? 0 then append_produced target_bytes s else (Ok (true, payload), s)
    else append_produced target_bytes s
  end.

Definition _reset_reader (s : rows_source) : result unit * rows_source :=
  match spool s with
  | None => (Err AssertionError, s)
  | Some f => (Ok tt, set_spool (Some (mk_spool (content f) 0)) (spool_bytes s) true s)
  end.

#[export] Instance rows_byte_source : ByteSource rows_source := {
  append_next := _append_next;
  reset_reader := _reset_reader;
}.

(** ** Closing *)

(** The overwrite loop of [close_replay_spool]: chunks of zeros until a write
    fails or is short. *)
Fixpoint overwrite (fuel : nat) (chunk remaining : Z) (f : spool_file) (n : nat) : spool_file * nat :=
  match fuel with
  | O => (f, n)
  | S fuel' =>
    if 0 <? remaining then
      let size := Z.min chunk remaining in
      match accepted n with
      | None => (f, S n)
      | Some room =>
        let written := Z.min room size in
        let f := spool_write (replicate (Z.to_nat written) zero) f in
        if negb (written =? size) then (f, S n) else overwrite fuel' chunk (remaining - written) f (S n)
      end
    else (f, n)
  end.

(** [close_replay_spool]: the file as it is when the spool is closed. *)
Definition close_replay_spool (f : spool_file) (size : Z) (n : nat) : spool_file * nat :=
  if 0 <? size then overwrite (Z.to_nat size) (Z.min (1024 * 1024) size) size (mk_spool (content f) 0) n
  else (f, n).

(** [close]; with it the content of the file that is removed. *)
Definition close_rows (r : reader rows_source) : reader rows_source * bytes :=
  let s := source r in
  let '(removed, n) := match spool s with
                       | Some f => let '(f', n) := close_replay_spool f (spool_bytes s) (calls s) in (content f', n)
                       | None => ([], calls s)
                       end in
  let s := mk_rows (rows s) None 0 0 (source_complete s) None 0 (replay_spool s) (source_limit_bytes s)
                   (accounted_sequence_bytes s) (spool_memory_bytes s) (max_spool_bytes s) n in
  (close (with_source s r), removed).

(** ** The reader implements the source interface *)

Definition encodes (item : R) : Prop := is_ok (append_python_json_value item) = true.

Definition row_text (item : R) : bytes :=
  match append_python_json_value item with Ok b => b ++ [newline] | Err _ => [] end.

(** The JSON Lines text of some rows. *)
Definition jsonl (items : list R) : bytes := concat (map row_text items).

Definition item_of (x : result R) : option R := match x with Ok item => Some item | Err _ => None end.

Definition left_rows (s : rows_source) : list R :=
  if source_complete s then []
  else match rows s with
       | Some rs => drop (Z.to_nat (sequence_index s)) rs
       | None => omap item_of (default [] (iterable s))
       end.

Definition unencoded (s : rows_source) : bytes := jsonl (left_rows s).

Definition spooled (s : rows_source) : bytes := match spool s with Some f => content f | None => [] end.

Definition unread (s : rows_source) : bytes :=
  match spool s with Some f => if replay_spool s then from (position f) (content f) else [] | None => [] end.

(** The encoder works on every row that is left, the iterator raises nothing, and
    the limits, the disk and the writes leave room for what is still to come;
    [held] is encoded and not yet recorded. *)
Record rows_ok (held : bytes) (s : rows_source) : Prop := {
  rk_spool : exists f, spool s = Some f /\ blen (content f) = spool_bytes s /\ 0 <= position f <= blen (content f);
  rk_encodes : Forall encodes (left_rows s);
  rk_source : match rows s with
              | Some rs => 0 <= sequence_index s <= Z.of_nat (length rs)
              | None => 0 <= iterable_index s
                        /\ (source_complete s = false -> exists items, iterable s = Some (map Ok items))
              end;
  rk_limit : match rows s, source_limit_bytes s with
             | Some _, Some limit => accounted_sequence_bytes s + blen (unencoded s) <= limit
             | _, _ => True
             end;
  rk_room : spool_bytes s + blen held + blen (unencoded s) <= max_spool_bytes s;
  rk_disk : forall n, exists free room, disk_free n = Some free /\ accepted n = Some room
              /\ blen held + blen (unencoded s) + _MIN_FREE_DISK_BYTES <= free
              /\ blen held + blen (unencoded s) <= room;
}.

Lemma append_row_ok out item : encodes item -> append_python_row out item = Ok (out ++ row_text item).
Proof. unfold encodes, append_python_row, row_text; destruct (append_python_json_value item); done. Qed.

Lemma row_text_nonempty item : encodes item -> row_text item <> [].
Proof. unfold encodes, row_text; destruct (append_python_json_value item) as [b|]; [|done]; by destruct b. Qed.

Lemma jsonl_app l k : jsonl (l ++ k) = jsonl l ++ jsonl k.
Proof. unfold jsonl; by rewrite map_app, concat_app. Qed.

Lemma jsonl_nonempty l : Forall encodes l -> l <> [] -> jsonl l <> [].
Proof.
  destruct 1 as [|item l H _]; [done|]; intros _ E; apply (row_text_nonempty item H).
  by apply app_eq_nil in E as [? _].
Qed.

Lemma blen_app a b : blen (a ++ b) = blen a + blen b.
Proof. unfold blen; rewrite length_app; lia. Qed.

Lemma blen_zero b : blen b = 0 -> b = [].
Proof. unfold blen; destruct b; [done|simpl; lia]. Qed.

Lemma rows_batch_ok items target out index :
  Forall encodes items ->
  exists done_ rest, items = done_ ++ rest /\ (items <> [] -> done_ <> [])
    /\ rows_batch items target out index = Ok (out ++ jsonl done_, index + Z.of_nat (length done_)).
Proof.
  intros H; revert out index; induction H as [|item items Hi _ IH]; intros out index; cbn [rows_batch].
  { exists [], []; simpl; by rewrite app_nil_r, Z.add_0_r. }
  rewrite append_row_ok by done; destruct (full _ _).
  - exists [item], items; split_and!; try done; simpl; unfold jsonl; simpl; by rewrite app_nil_r.
  - destruct (IH (out ++ row_text item) (index + 1)) as (d & rest & -> & _ & ->).
    exists (item :: d), rest; split_and!; try done.
    unfold jsonl; simpl; rewrite (assoc_L app); do 2 f_equal; lia.
Qed.

Lemma iter_batch_ok max_rows items target out index :
  Forall encodes items -> (0 < max_rows)%nat ->
  exists done_ rest exhausted, items = done_ ++ rest /\ (items <> [] -> done_ <> [])
    /\ (exhausted = true -> rest = []) /\ (items = [] -> exhausted = true)
    /\ iter_batch max_rows (map Ok items) target out index
       = (Ok (out ++ jsonl done_, index + Z.of_nat (length done_), exhausted), map Ok rest).
Proof.
  intros H; revert max_rows out index; induction H as [|item items Hi _ IH]; intros max_rows out index Hm.
  { destruct max_rows; [lia|]; exists [], [], true; simpl; by rewrite app_nil_r, Z.add_0_r. }
  destruct max_rows as [|m]; [lia|]; cbn [iter_batch map].
  rewrite append_row_ok by done; destruct (full _ _).
  { exists [item], items, false; split_and!; try done; simpl; unfold jsonl; simpl; by rewrite app_nil_r. }
  destruct m as [|m'].
  { exists [item], items, false; split_and!; try done; simpl; unfold jsonl; simpl; by rewrite app_nil_r. }
  destruct (IH (S m') (out ++ row_text item) (index + 1)) as (d & rest & ex & -> & _ & Hex & _ & ->); [lia|].
  exists (item :: d), rest, ex; split_and!; try done.
  unfold jsonl; simpl; rewrite (assoc_L app); do 4 f_equal; lia.
Qed.

Lemma omap_items items : omap item_of (map Ok items) = items.
Proof. induction items as [|i l IH]; [done|]; simpl; unfold omap in IH; by rewrite IH. Qed.

(** What producing a payload guarantees. *)
Definition produced (s : rows_source) (out : result bytes * rows_source) : Prop :=
  exists payload s', out = (Ok payload, s') /\ rows_ok payload s' /\ unencoded s = payload ++ unencoded s'
    /\ (payload = [] -> unencoded s = []) /\ spool s' = spool s /\ replay_spool s' = replay_spool s.

Lemma unencoded_complete s : source_complete s = true -> unencoded s = [].
Proof. unfold unencoded, left_rows; by intros ->. Qed.

Lemma produced_complete s : rows_ok [] s -> source_complete s = true -> produced s (Ok [], s).
Proof. intros H Hc; exists [], s; split_and!; try done; intros _; by apply unencoded_complete. Qed.

Lemma drop_done {A} (l done_ rest : list A) n : 0 <= n -> drop (Z.to_nat n) l = done_ ++ rest ->
  drop (Z.to_nat (n + Z.of_nat (length done_))) l = rest.
Proof.
  intros Hn E; replace (Z.to_nat _) with (Z.to_nat n + length done_)%nat by lia.
  by rewrite <- drop_drop, E, drop_app_length.
Qed.

(** The room that was left for [payload] and the rest is left after it. *)
Lemma rows_ok_step s s' payload :
  rows_ok [] s -> unencoded s = payload ++ unencoded s' ->
  spool s' = spool s -> spool_bytes s' = spool_bytes s -> max_spool_bytes s' = max_spool_bytes s ->
  Forall encodes (left_rows s') ->
  match rows s' with
  | Some rs => 0 <= sequence_index s' <= Z.of_nat (length rs)
  | None => 0 <= iterable_index s' /\ (source_complete s' = false -> exists items, iterable s' = Some (map Ok items))
  end ->
  match rows s', source_limit_bytes s' with
  | Some _, Some limit => accounted_sequence_bytes s' + blen (unencoded s') <= limit
  | _, _ => True
  end ->
  rows_ok payload s'.
Proof.
  intros [K1 _ _ _ K5 K6] Hun Hs Hb Hm He Hsrc Hlim.
  rewrite Hun, blen_app in K5; change (blen []) with 0 in *.
  split; try done; rewrite ?Hs, ?Hb, ?Hm; [done|lia|].
  intros n; destruct (K6 n) as (free & room & ? & ? & K); exists free, room.
  rewrite Hun, blen_app in K; split_and!; try done; lia.
Qed.

(** A batch of a sequence takes rows from the front of what is left. *)
Lemma sequence_batch_ok target s rs :
  rows s = Some rs -> source_complete s = false -> rows_ok [] s -> sequence_index s < Z.of_nat (length rs) ->
  exists d rest, py_python_rows_jsonl_bytes rs (sequence_index s) target
      = Ok (jsonl d, sequence_index s + Z.of_nat (length d))
    /\ left_rows s = d ++ rest /\ d <> []
    /\ drop (Z.to_nat (sequence_index s + Z.of_nat (length d))) rs = rest
    /\ sequence_index s + Z.of_nat (length d) <= Z.of_nat (length rs).
Proof.
  intros Hrs Hc H Hlt; pose proof (rk_source _ _ H) as Hsrc; pose proof (rk_encodes _ _ H) as Henc.
  rewrite Hrs in Hsrc; unfold left_rows in *; rewrite Hc, Hrs in *.
  unfold py_python_rows_jsonl_bytes; destruct (Z.ltb_spec (sequence_index s) 0); [lia|].
  destruct (Z.ltb_spec (Z.of_nat (length rs)) (sequence_index s)); [lia|].
  destruct (rows_batch_ok _ target [] (sequence_index s) Henc) as (d & rest & Hd & Hne & ->).
  exists d, rest; split_and!; try done.
  - apply Hne; intros E; apply (f_equal length) in E; rewrite length_drop in E; simpl in E; lia.
  - by apply drop_done.
  - apply (f_equal length) in Hd; rewrite length_drop, length_app in Hd; lia.
Qed.

Lemma sequence_payload_ok target s rs : rows s = Some rs -> rows_ok [] s -> produced s (_next_sequence_payload target s).
Proof.
  intros Hrs H; unfold _next_sequence_payload; rewrite Hrs.
  destruct (source_complete s) eqn:Hc; [by apply produced_complete|].
  pose proof (rk_source _ _ H) as Hsrc; pose proof (rk_limit _ _ H) as Hlim; rewrite Hrs in Hsrc, Hlim.
  destruct (Z.leb_spec (Z.of_nat (length rs)) (sequence_index s)) as [Hge|Hlt].
  { set (s' := set_sequence _ _ _ s).
    assert (Hun : unencoded s = []) by (unfold unencoded, left_rows; by rewrite Hc, Hrs, drop_ge by lia).
    exists [], s'; split_and!; try done; apply (rows_ok_step s); try done; simpl; rewrite Hrs; try done.
    rewrite (unencoded_complete s') by done; by rewrite Hun in Hlim. }
  destruct (sequence_batch_ok (Z.max 1 target) s rs Hrs Hc H Hlt) as (d & rest & -> & Hd & Hd0 & Hrest & Hle).
  pose proof (rk_encodes _ _ H) as Henc; rewrite Hd in Henc; apply Forall_app in Henc as [Hed Her].
  assert (Hun : unencoded s = jsonl d ++ jsonl rest) by (unfold unencoded; by rewrite Hd, jsonl_app).
  rewrite Hun, blen_app in Hlim; pose proof (blen_nonneg (jsonl rest)).
  destruct (Z.leb_spec (sequence_index s + Z.of_nat (length d)) (sequence_index s)); [destruct d; [done|simpl in *; lia]|].
  destruct (match source_limit_bytes s with Some _ => _ | None => _ end) eqn:Hover.
  { destruct (source_limit_bytes s); [apply Z.ltb_lt in Hover; lia|done]. }
  set (s' := set_sequence _ _ _ s).
  assert (Hl' : left_rows s' = rest).
  { unfold left_rows, s'; simpl; rewrite Hrs, Hrest; destruct (Z.leb_spec (Z.of_nat (length rs)) (sequence_index s + Z.of_nat (length d))); [|done].
    by rewrite <- Hrest, drop_ge by lia. }
  assert (Hun' : unencoded s' = jsonl rest) by (unfold unencoded; by rewrite Hl').
  exists (jsonl d), s'; split_and!; try done; [|by rewrite Hun'|intros E; by destruct (jsonl_nonempty d Hed Hd0)].
  apply (rows_ok_step s); rewrite ?Hl', ?Hun'; try done; simpl; rewrite Hrs; [lia|].
  destruct (source_limit_bytes s); [lia|done].
Qed.

Lemma iterable_payload_ok target s : rows s = None -> rows_ok [] s -> produced s (_next_iterable_payload target s).
Proof.
  intros Hrs H; unfold _next_iterable_payload.
  destruct (source_complete s) eqn:Hc; [by apply produced_complete|].
  pose proof (rk_source _ _ H) as Hsrc; pose proof (rk_encodes _ _ H) as Henc; rewrite Hrs in Hsrc.
  destruct Hsrc as [Hi Hit]; destruct (Hit Hc) as [items Hitems]; rewrite Hitems.
  assert (Hleft : left_rows s = items) by (unfold left_rows; rewrite Hc, Hrs, Hitems; apply omap_items).
  rewrite Hleft in Henc; unfold py_python_iter_rows_jsonl_bytes; destruct (Z.ltb_spec (iterable_index s) 0); [lia|].
  replace (_ =? 0)%nat with false by done.
  destruct (iter_batch_ok _MAX_ITERABLE_ROWS_PER_BATCH items (Z.max 1 target) [] (iterable_index s) Henc)
    as (d & rest & ex & Hd & Hne & Hex & Hnil & ->); [apply Nat.ltb_lt; done|].
  rewrite Hd in Henc, Hleft, Hne, Hnil; apply Forall_app in Henc as [Hed Her]; simpl app.
  destruct (Z.ltb_spec (iterable_index s + Z.of_nat (length d)) (iterable_index s)); [lia|].
  assert (Hpay : jsonl d = [] -> d ++ rest = []).
  { intros E; destruct d as [|x d]; [|by destruct (jsonl_nonempty _ Hed)].
    destruct rest; [done|]; by destruct Hne. }
  destruct (_ && _ && _) eqn:Hstuck.
  { apply andb_true_iff in Hstuck as [[E%Z.eqb_eq%blen_zero Hx]%andb_true_iff _].
    rewrite Hnil in Hx by auto; done. }
  set (s' := set_iterable _ _ _ s).
  assert (Hl' : left_rows s' = rest).
  { unfold left_rows, s'; simpl; rewrite Hrs; destruct ex; [by rewrite Hex|]; apply omap_items. }
  assert (Hun : unencoded s = jsonl d ++ unencoded s') by (unfold unencoded; by rewrite Hleft, Hl', jsonl_app).
  exists (jsonl d), s'; split_and!; try done.
  - apply (rows_ok_step s); rewrite ?Hl'; try done; simpl; rewrite Hrs; [|done].
    split; [lia|intros ->; eauto].
  - intros E; unfold unencoded; by rewrite Hleft, Hpay.
Qed.

Lemma record_ok payload s :
  rows_ok payload s -> unread s = [] ->
  exists s', _record_payload payload s = (Ok tt, s') /\ rows_ok [] s' /\ unencoded s' = unencoded s
    /\ spooled s' = spooled s ++ payload /\ unread s' = [].
Proof.
  intros H Hu; pose proof (blen_nonneg payload) as Hp; pose proof (blen_nonneg (unencoded s)) as Hq.
  unfold _record_payload; destruct (Z.eqb_spec (blen payload) 0) as [E|E].
  { apply blen_zero in E as ->; exists s; rewrite app_nil_r; done. }
  destruct H as [(f & Hf & Hsize & Hpos) H2 H3 H4 H5 H6].
  destruct (H6 (calls s)) as (free & room & Hfree & Hroom & Hd1 & Hd2).
  destruct (Z.ltb_spec (max_spool_bytes s) (spool_bytes s + blen payload)); [lia|].
  unfold ensure_replay_spool_capacity; rewrite Hfree, Hf, Hroom, Z.min_r by lia.
  assert (Hcap : (if (spool_bytes s + blen payload <=? spool_memory_bytes s) || (blen payload <=? 0) then Ok tt
      else if free <? blen payload + _MIN_FREE_DISK_BYTES then Err OSError else Ok tt) = Ok tt).
  { destruct (_ || _); [done|]; destruct (Z.ltb_spec free (blen payload + _MIN_FREE_DISK_BYTES)); [lia|done]. }
  rewrite Hcap, Z.eqb_refl; cbn [negb]; eexists; split; [done|].
  assert (Hw : spool_write (upto (blen payload) payload) (spool_end f)
               = mk_spool (content f ++ payload) (blen (content f) + blen payload)).
  { unfold spool_write, spool_end, upto, from, blen; simpl; rewrite !Nat2Z.id, !firstn_all.
    rewrite drop_ge, app_nil_r by lia; done. }
  rewrite Hw; split; [|split; [done|]]; [|unfold spooled, unread; simpl; rewrite Hf; split; [done|]].
  - split; try done; simpl.
    + eexists; split; [done|]; simpl; rewrite blen_app; pose proof (blen_nonneg (content f)); lia.
    + change (blen []) with 0; fold (unencoded s); change (unencoded (count_call _)) with (unencoded s); lia.
    + intros n; destruct (H6 n) as (fr & ro & ? & ? & ? & ?); exists fr, ro; change (unencoded (count_call _)) with (unencoded s).
      change (blen []) with 0; split_and!; try done; lia.
  - destruct (replay_spool s); [|done]; unfold from, blen; apply drop_ge; rewrite length_app; lia.
Qed.

Lemma produce_ok target s :
  rows_ok [] s -> unread s = [] ->
  exists payload s', _produce_and_record target s = (Ok payload, s') /\ rows_ok [] s'
    /\ unencoded s = payload ++ unencoded s' /\ (payload = [] -> unencoded s = [])
    /\ spooled s' = spooled s ++ payload /\ unread s' = [].
Proof.
  intros H Hu; unfold _produce_and_record.
  assert (produced s (_next_source_payload target s)) as (payload & s1 & -> & H1 & Hun & He & Hs & Hr).
  { unfold _next_source_payload; destruct (rows s) eqn:E.
    - by eapply sequence_payload_ok.
    - by apply iterable_payload_ok. }
  destruct (record_ok payload s1 H1) as (s2 & -> & H2 & Hu2 & Hsp & Hun2).
  { unfold unread in *; by rewrite Hs, Hr. }
  exists payload, s2; rewrite Hu2, Hsp; unfold spooled; rewrite Hs; done.
Qed.

Definition rows_remaining (s : rows_source) : bytes := unread s ++ unencoded s.
Definition rows_whole (s : rows_source) : bytes := spooled s ++ unencoded s.

(** The law of [append_next], as a property of its outcome. *)
Definition delivers (s : rows_source) (out : result (bool * bytes) * rows_source) : Prop :=
  exists more part s', out = (Ok (more, part), s') /\ rows_ok [] s'
    /\ rows_remaining s = part ++ rows_remaining s' /\ rows_whole s' = rows_whole s
    /\ (more = false -> part = []) /\ (part = [] -> rows_remaining s = []).

Lemma append_produced_ok target s : rows_ok [] s -> unread s = [] -> delivers s (append_produced target s).
Proof.
  intros H Hu; destruct (produce_ok target s H Hu) as (payload & s' & E & H' & Hun & Hnil & Hsp & Hu').
  exists (negb (blen payload =? 0)), payload, s'; unfold append_produced, rows_remaining, rows_whole.
  rewrite E, Hu, Hu', Hsp; split; [|split_and!; try done; [by rewrite Hun, (assoc_L app)|]].
  - destruct (Z.eqb_spec (blen payload) 0) as [E0|]; [by rewrite (blen_zero _ E0)|done].
  - intros E0; apply blen_zero; apply Z.eqb_eq; by destruct (blen payload =? 0).
Qed.

Lemma from_split target n b : 0 <= n ->
  from n b = upto target (from n b) ++ from (n + blen (upto target (from n b))) b.
Proof.
  intros Hn; unfold from, upto, blen; rewrite Z2Nat.inj_add, Nat2Z.id, <- drop_drop by lia.
  set (l := drop _ _); rewrite length_take.
  destruct (le_ge_dec (Z.to_nat target) (length l)); [rewrite Nat.min_l by lia; by rewrite take_drop|].
  rewrite Nat.min_r, take_ge, drop_ge, app_nil_r by lia; done.
Qed.

Lemma append_next_ok target s : rows_ok [] s -> 0 < target -> delivers s (_append_next target s).
Proof.
  intros H Ht; unfold _append_next; destruct (rk_spool _ _ H) as (f & Hf & Hsize & Hpos); rewrite Hf.
  destruct (replay_spool s) eqn:Hr; [|apply append_produced_ok; [done|unfold unread; by rewrite Hf, Hr]].
  assert (Hu : unread s = from (position f) (content f)) by (unfold unread; by rewrite Hf, Hr).
  unfold spool_read; rewrite Z.max_r by lia; pose proof (from_split target (position f) (content f) (proj1 Hpos)) as Hparts.
  set (part := upto target (from (position f) (content f))) in *; set (s1 := set_spool _ _ _ s).
  assert (Hu1 : unread s1 = from (position f + blen part) (content f)) by done.
  assert (Hs1 : spooled s1 = spooled s) by (unfold spooled; by rewrite Hf).
  assert (H1 : rows_ok [] s1).
  { pose proof (f_equal blen Hparts) as E; rewrite blen_app in E; pose proof (blen_nonneg part).
    pose proof (blen_nonneg (from (position f + blen part) (content f))).
    assert (blen (from (position f) (content f)) = blen (content f) - position f) by (unfold from, blen in *; rewrite length_drop; lia).
    destruct H; split; try done; eexists; split; [done|]; simpl; lia. }
  destruct (Z.eqb_spec (blen part) 0) as [E|E].
  - assert (Hnil : from (position f) (content f) = []).
    { apply blen_zero in E; unfold part, upto in E; destruct (from (position f) (content f)); [done|].
      by destruct (Z.to_nat target) eqn:?; [lia|]. }
    assert (Hu1' : unread s1 = []) by (rewrite Hu1, E, Z.add_0_r; done).
    destruct (append_produced_ok target s1 H1 Hu1') as (more & p & s' & Ep & HH); exists more, p, s'.
    assert (rows_remaining s1 = rows_remaining s) as Hrem by (unfold rows_remaining; by rewrite Hu, Hnil, Hu1').
    assert (rows_whole s1 = rows_whole s) as Hwh by (unfold rows_whole; by rewrite Hs1).
    by rewrite Hrem, Hwh in HH.
  - exists true, part, s1; unfold rows_remaining, rows_whole; rewrite Hu, Hu1, Hs1; split_and!; try done.
    + by rewrite Hparts at 1; rewrite (assoc_L app).
    + intros E0; by rewrite E0 in E.
Qed.

Lemma reset_reader_ok s : rows_ok [] s ->
  exists s', _reset_reader s = (Ok tt, s') /\ rows_ok [] s' /\ rows_remaining s' = rows_whole s /\ rows_whole s' = rows_whole s.
Proof.
  intros H; unfold _reset_reader; destruct (rk_spool _ _ H) as (f & Hf & Hsize & Hpos); rewrite Hf.
  eexists; split; [done|]; unfold rows_remaining, rows_whole, unread, spooled; simpl; rewrite Hf; split; [|done].
  destruct H; split; try done; eexists; split; [done|]; simpl; pose proof (blen_nonneg (content f)); lia.
Qed.

#[export] Instance rows_lawful : LawfulSource rows_source := {
  healthy := rows_ok [];
  remaining := rows_remaining;
  whole := rows_whole;
  append_next_law := fun s target => append_next_ok target s;
  reset_reader_law := reset_reader_ok;
}.

(** Rows the encoder accepts, read in full by an iterator that does not raise. *)
Definition readable (input : rows_input) (items : list R) : Prop :=
  Forall encodes items /\ (input = Sequence items \/ input = Iterator (map Ok items)).

(** The limits and the file system leave room for the encoded rows. *)
Definition room_for (size : Z) (limited : bool) (b : budget) : Prop :=
  (if limited then size <= total_bytes b else True) /\ size <= replay_spool_bytes b /\ 0 <= io_chunk_bytes b
  /\ forall n, exists free room, disk_free n = Some free /\ accepted n = Some room
       /\ size + _MIN_FREE_DISK_BYTES <= free /\ size <= room.


Lemma overwrite_ok fuel chunk remaining f n :
  0 < chunk -> 0 <= remaining <= Z.of_nat fuel -> 0 <= position f -> position f + remaining = blen (content f) ->
  (forall n, exists room, accepted n = Some room /\ chunk <= room) ->
  content (overwrite fuel chunk remaining f n).1
  = upto (position f) (content f) ++ replicate (Z.to_nat remaining) zero.
Proof.
  intros Hc Hr Hp He Hacc; revert remaining f n Hr Hp He; induction fuel as [|fuel IH]; intros remaining f n Hr Hp He.
  { replace remaining with 0 in * by lia; simpl; rewrite app_nil_r; unfold upto, blen in *; rewrite take_ge by lia; done. }
  cbn [overwrite]; destruct (Z.ltb_spec 0 remaining).
  2: { replace remaining with 0 in * by lia; simpl; rewrite app_nil_r; unfold upto, blen in *; rewrite take_ge by lia; done. }
  destruct (Hacc n) as (room & -> & Hroom); set (size := Z.min chunk remaining); rewrite (Z.min_r room size) by lia.
  rewrite Z.eqb_refl; cbn [negb]; set (z := replicate (Z.to_nat size) zero).
  assert (Hz : blen z = size) by (unfold blen, z; rewrite length_replicate; lia).
  rewrite IH; simpl; rewrite ?Hz, ?blen_app, ?Hz; try lia.
  - unfold upto, from, blen in *; rewrite (assoc_L app), take_app_length' by (rewrite length_app, length_take; lia).
    rewrite <- (assoc_L app); unfold z; rewrite <- replicate_add; do 2 f_equal; lia.
  - unfold upto, from, blen in *; rewrite length_take, length_drop; lia.
Qed.

(** Closing a reader overwrites the whole replay file before it is removed, wipes
    the buffer, and leaves a reader that refuses to read or rewind. *)
Theorem close_rows_wipes stream r :
  reader_ok stream r -> (forall n, exists room, accepted n = Some room /\ 1024 * 1024 <= room) ->
  let '(r', removed) := close_rows r in
  removed = replicate (length (spooled (source r))) zero /\ zeroed (freed r') /\ buffer r' = []
  /\ (forall n, read n r' = Some (Err ValueError, r')) /\ (seek 0 r').1 = Err AssertionError.
Proof.
  intros Hr Hacc; pose proof (ok_source _ _ Hr) as H; destruct (rk_spool _ _ H) as (f & Hf & Hsize & Hpos).
  unfold close_rows, spooled; rewrite Hf; destruct (close_replay_spool f _ _) as [f' n] eqn:E.
  unfold close; simpl; rewrite (ok_open _ _ Hr); simpl; split_and!; try done.
  - unfold close_replay_spool in E; pose proof (blen_nonneg (content f)); destruct (Z.ltb_spec 0 (spool_bytes (source r))).
    + pose proof (overwrite_ok (Z.to_nat (spool_bytes (source r))) (Z.min (1024 * 1024) (spool_bytes (source r)))
                    (spool_bytes (source r)) (mk_spool (content f) 0) (calls (source r))) as Ho.
      rewrite E in Ho; simpl in Ho; rewrite Ho; try lia.
      * unfold upto; simpl; f_equal; unfold blen in Hsize; lia.
      * intros k; destruct (Hacc k) as (room & ? & ?); exists room; split; [done|lia].
    + inversion E; subst; assert (content f' = []) as -> by (apply blen_zero; lia); done.
  - apply Forall_app; split; [apply Hr|rewrite wiped_all; apply zeroed_replicate].
Qed.
End Rows.

Module Example.

Definition encode_text (row : bytes) : result bytes := Ok row.
Definition two_rows : list bytes := [lit "a"; lit "bc"].
Definition plenty (n : nat) : option Z := Some (2 ^ 40).
Definition small : budget := mk_budget 100 100 2.
Definition some_calls : list op := [Read (Some 1); Read None; Seek0; Read (Some 10); Read None].


(** The first write to the spool fails and the others succeed. *)
Definition first_fails (n : nat) : option Z := if (n =? 0)%nat then None else Some (2 ^ 40).

Definition answers_of (out : option (list answer * reader (rows_source (R := bytes)))) : list answer :=
  match out with Some (answers, _) => answers | None => [] end.

(** A payload whose recording fails is lost: the rows it holds were taken from the
    source, and neither the next read nor a rewind gives them back. *)
Example failed_record_loses_rows :
  answers_of (performs (H := rows_byte_source encode_text plenty first_fails)
    [Read (Some 1); Read (Some 10); Seek0; Read (Some 10)] (__init__ (Sequence two_rows) false small))
  = [Raised OSError; Data (lit "bc" ++ [newline]); At 0; Data (lit "bc" ++ [newline])].
Proof. vm_compute; reflexivity. Qed.
End Example.
