(* ===== verification/HiveUris.v ===== *)
(** * HiveUris: Hive-style partition URIs

    Models [core_impl/hive_uris.py]: the values of the date and hour
    placeholders, normalisation of extensions and prefixes, the directory and
    file URIs generated for a partition, rendering of explicit placeholders,
    recovery of the anchor date and hour of a concrete URI, and rolling such a
    URI to another partition. *)

From Stdlib Require Import Ascii String.
From S2P Require Import Prelude PyLib.
Import Text Calendar.

#[local] Open Scope Z_scope.

Definition _TEMPLATE_FIELD_NAMES : list text :=
  [lit "date"; lit "yyyymmdd"; lit "yyyy"; lit "year"; lit "mm"; lit "month"; lit "dd"; lit "day";
   lit "hour"; lit "hh"; lit "yyyymmddhh"].

Definition _HOURLY_TEMPLATE_FIELDS : list text := [lit "hour"; lit "hh"; lit "yyyymmddhh"].

(** The placeholder dictionary, as its items in insertion order; its keys are
    distinct literals. *)
Definition _uri_template_values (logical_date : date) (logical_hour : option Z) : list (text * text) :=
  let year := fmt_d 4 (Calendar.year logical_date) in
  let month := fmt_d 2 (Calendar.month logical_date) in
  let day := fmt_d 2 (Calendar.day logical_date) in
  let iso_date := year ++ lit "-" ++ month ++ lit "-" ++ day in
  let compact_date := year ++ month ++ day in
  [(lit "date", iso_date); (lit "yyyymmdd", compact_date); (lit "yyyy", year); (lit "year", year);
   (lit "mm", month); (lit "month", month); (lit "dd", day); (lit "day", day)]
  ++ match logical_hour with
     | Some h =>
       let hour := fmt_d 2 h in
       [(lit "hour", hour); (lit "hh", hour); (lit "yyyymmddhh", compact_date ++ hour)]
     | None => []
     end.

(** [values.get(name)]. *)
Fixpoint get_value (values : list (text * text)) (key : text) : option text :=
  match values with
  | (k, v) :: rest => if bool_decide (k = key) then Some v else get_value rest key
  | [] => None
  end.

(** [values[name]]. *)
Definition value_of (values : list (text * text)) (key : text) : result text :=
  match get_value values key with Some v => Ok v | None => Err KeyError end.

Definition slash : ascii := "/"%char.

Definition normalize_file_extension (extension : text) : result text :=
  let normalized := lstrip_chars (is_char "."%char) (strip extension) in
  if bool_decide (normalized = []) || contains [slash] normalized then Err ValueError
  else Ok normalized.

Definition normalize_uri_prefix (prefix : text) : result text :=
  let normalized := rstrip_chars (is_char slash) (strip prefix) in
  if contains (lit "://") normalized then Ok normalized else Err ValueError.

Definition uri_path_segments (uri : text) : list text :=
  match after (lit "://") uri with
  | None => []
  | Some without_scheme =>
    match split_once slash without_scheme with
    | None => []
    | Some (_, path) => filter (fun segment => segment <> []) (split slash path)
    end
  end.

Definition gcs_uri_path_segments (uri : text) : list text :=
  if startswith (lit "gs://") uri then uri_path_segments uri else [].

Definition _partition_directory_uri (prefix : text) (values : list (text * text)) (include_hour : bool)
    : result text :=
  p ← normalize_uri_prefix prefix;
  y ← value_of values (lit "year");
  m ← value_of values (lit "month");
  d ← value_of values (lit "date");
  let uri := p ++ lit "/year=" ++ y ++ lit "/month=" ++ m ++ lit "/date=" ++ d in
  if include_hour then h ← value_of values (lit "hour"); Ok (uri ++ lit "/hour=" ++ h) else Ok uri.

Definition build_partition_directory_uri (prefix : text) (logical_date : date) (logical_hour : option Z)
    : result text :=
  let values := _uri_template_values logical_date logical_hour in
  _partition_directory_uri prefix values (bool_decide (is_Some logical_hour)).

Definition build_partitioned_file_uri (prefix : text) (logical_date : date) (logical_hour : option Z)
    (file_name_prefix extension : text) : result text :=
  let values := _uri_template_values logical_date logical_hour in
  partition_uri ← _partition_directory_uri prefix values (bool_decide (is_Some logical_hour));
  compact ← value_of values (lit "yyyymmdd");
  suffix ← (match logical_hour with
            | Some _ => h ← value_of values (lit "hour"); Ok (compact ++ lit "_" ++ h)
            | None => Ok compact
            end);
  ext ← normalize_file_extension extension;
  Ok (partition_uri ++ lit "/" ++ file_name_prefix ++ lit "_" ++ suffix ++ lit "." ++ ext).

Definition placeholder (name : text) : text := lit "{" ++ name ++ lit "}".

Definition _template_fields (uri_template : text) : list text :=
  filter (fun name => contains (placeholder name) uri_template = true) _TEMPLATE_FIELD_NAMES.

Definition render_step (values : list (text * text)) (acc : text * bool) (name : text) : text * bool :=
  match get_value values name with
  | Some value => (replace (placeholder name) value acc.1, true)
  | None => acc
  end.

Definition render_explicit_partition_placeholders (uri_template : text) (logical_date : date)
    (logical_hour : option Z) : text * bool :=
  match _template_fields uri_template with
  | [] => (uri_template, false)
  | fields =>
    let values := _uri_template_values logical_date logical_hour in
    foldl (render_step values) (uri_template, false) fields
  end.

Definition infer_anchor_date_from_uri (uri : text) : result (option date) :=
  match search_path_field (lit "date=") iso_date uri with
  | Some g => d ← fromisoformat g; Ok (Some d)
  | None =>
    match search_isolated iso_date false uri with
    | Some g => d ← fromisoformat g; Ok (Some d)
    | None => Ok None
    end
  end.

Definition infer_anchor_hour_from_uri (uri : text) : option Z :=
  match search_path_field (lit "hour=") (digits 2) uri with
  | None => None
  | Some g => let hour := int_of g in if (0 <=? hour) && (hour <=? 23) then Some hour else None
  end.

Definition _HIVE_YEAR_RE : list atom := (Char <$> lit "year=") ++ digits 4.
Definition _HIVE_MONTH_RE : list atom := (Char <$> lit "month=") ++ digits 2.
Definition _HIVE_DATE_RE : list atom := (Char <$> lit "date=") ++ iso_date.
Definition _HIVE_HOUR_RE : list atom := (Char <$> lit "hour=") ++ digits 2.

(** The hour part of [roll_hive_partition_uri]. *)
Definition roll_hour (uri_template anchor_compact : text) (target_values : list (text * text))
    (rendered : text) : result text :=
  match infer_anchor_hour_from_uri uri_template with
  | None => Err ValueError
  | Some anchor_hour =>
    compact_hour ← value_of target_values (lit "yyyymmddhh");
    hour ← value_of target_values (lit "hour");
    let rendered := replace (anchor_compact ++ fmt_d 2 anchor_hour) compact_hour rendered in
    Ok (re_sub _HIVE_HOUR_RE (lit "hour=" ++ hour) rendered)
  end.

Definition roll_hive_partition_uri (uri_template : text) (logical_date : date) (logical_hour : option Z)
    : result text :=
  anchor ← infer_anchor_date_from_uri uri_template;
  match anchor with
  | None => Err ValueError
  | Some anchor_date =>
    let target_values := _uri_template_values logical_date logical_hour in
    let anchor_compact :=
      fmt_d 4 (year anchor_date) ++ fmt_d 2 (month anchor_date) ++ fmt_d 2 (day anchor_date) in
    year ← value_of target_values (lit "year");
    month ← value_of target_values (lit "month");
    date ← value_of target_values (lit "date");
    let rendered := re_sub _HIVE_YEAR_RE (lit "year=" ++ year) uri_template in
    let rendered := re_sub _HIVE_MONTH_RE (lit "month=" ++ month) rendered in
    let rendered := re_sub _HIVE_DATE_RE (lit "date=" ++ date) rendered in
    let rendered := replace (isoformat anchor_date) date rendered in
    rendered ← (match logical_hour with
                | Some _ => roll_hour uri_template anchor_compact target_values rendered
                | None => Ok rendered
                end);
    compact ← value_of target_values (lit "yyyymmdd");
    Ok (replace anchor_compact compact rendered)
  end.

Definition render_uri_for_partition (uri_template : text) (logical_date : date) (logical_hour : option Z)
    : result text :=
  let '(rendered, used_placeholders) :=
    render_explicit_partition_placeholders uri_template logical_date logical_hour in
  if used_placeholders then
    if bool_decide (is_Some logical_hour)
       && bool_decide (Forall (fun name => name ∉ _template_fields uri_template) _HOURLY_TEMPLATE_FIELDS)
    then Err ValueError
    else Ok rendered
  else roll_hive_partition_uri uri_template logical_date logical_hour.

(** ** The anatomy of a generated URI *)

(** The pieces of a generated file URI; the two hour pieces are present in
    hourly partitions. *)
Record uri_parts : Type := mk_parts {
  u_prefix : text; u_year : text; u_month : text; u_iso : text; u_hour : option text;
  u_file : text; u_compact : text; u_file_hour : option text; u_ext : text }.

Definition opt_piece (key : text) (o : option text) : text :=
  match o with Some h => key ++ h | None => [] end.

Definition file_piece (u : uri_parts) : text :=
  u_file u ++ lit "_" ++ u_compact u ++ opt_piece (lit "_") (u_file_hour u) ++ lit "." ++ u_ext u.

Definition assemble (u : uri_parts) : text :=
  u_prefix u ++ lit "/year=" ++ u_year u ++ lit "/month=" ++ u_month u ++ lit "/date=" ++ u_iso u
  ++ opt_piece (lit "/hour=") (u_hour u) ++ lit "/" ++ file_piece u.

(** Text the user supplies that cannot be mistaken for a partition value: no
    equals sign, no run of eight digits, no ISO date. *)
Definition plain (x : text) : bool :=
  bool_decide ("="%char ∉ x) && negb (occurs (digits 8) x) && negb (occurs iso_date x).

Definition opt_digits (o : option text) : Prop := match o with Some h => digit_text 2 h | None => True end.

Definition iso_text (s : text) : Prop := length s = 10%nat /\ match_at iso_date s = true.

Record parts_ok (u : uri_parts) : Prop := {
  ok_prefix : plain (u_prefix u) = true;
  ok_year : digit_text 4 (u_year u);
  ok_month : digit_text 2 (u_month u);
  ok_iso : iso_text (u_iso u);
  ok_hour : opt_digits (u_hour u);
  ok_file : plain (u_file u) = true;
  ok_compact : digit_text 8 (u_compact u);
  ok_file_hour : opt_digits (u_file_hour u);
  ok_ext : plain (u_ext u) = true }.

Lemma plain_spec x : plain x = true <->
  ("="%char ∉ x) /\ occurs (digits 8) x = false /\ occurs iso_date x = false.
Proof. unfold plain. rewrite !andb_true_iff, bool_decide_eq_true, !negb_true_iff. tauto. Qed.

Lemma iso_chars s : iso_text s -> exists a b c d e f g h,
  s = [a; b; c; d; "-"; e; f; "-"; g; h]%char
  /\ Forall (fun x => is_digit x = true) [a; b; c; d; e; f; g; h].
Proof.
  intros [Hl Hm]. destruct s as [|a [|b [|c [|d [|m1 [|e [|f [|m2 [|g [|h [|]]]]]]]]]]]; try discriminate Hl.
  cbn in Hm. repeat (apply andb_prop in Hm as [? Hm]).
  assert (m1 = "-"%char) by (symmetry; by apply is_char_true).
  assert (m2 = "-"%char) by (symmetry; by apply is_char_true). subst.
  exists a, b, c, d, e, f, g, h. split; [done|]. repeat constructor; auto.
Qed.

Lemma digits_not_in k n s : digit_text n s -> is_digit k = false -> k ∉ s.
Proof.
  intros [_ Hd] Hk Hin. rewrite forallb_forall in Hd.
  rewrite (Hd k) in Hk; [done|by apply list_elem_of_In].
Qed.

Lemma iso_not_in k s : iso_text s -> is_digit k || is_char k "-"%char = false -> k ∉ s.
Proof.
  intros (a & b & c & d & e & f & g & h & -> & Hd)%iso_chars [Hk Hm%is_char_false]%orb_false_elim.
  rewrite !Forall_cons in Hd. destruct_and! Hd.
  repeat (apply not_elem_of_cons; split; [congruence|]). apply not_elem_of_nil.
Qed.

Lemma opt_piece_not_in k key o : opt_digits o -> is_digit k = false -> k ∉ key -> k ∉ opt_piece key o.
Proof.
  destruct o as [h|]; intros Ho Hk Hn; [|apply not_elem_of_nil].
  apply not_elem_of_app; split; [done|]. by eapply digits_not_in.
Qed.

(** Absence of a character from a concatenation of literals and digit pieces. *)
Ltac not_in :=
  match goal with
  | |- _ ∉ _ ++ _ => apply not_elem_of_app; split; not_in
  | _ => first
      [ assumption
      | eapply digits_not_in; [eassumption|reflexivity]
      | eapply iso_not_in; [eassumption|reflexivity]
      | eapply opt_piece_not_in; [eassumption|reflexivity|not_in]
      | apply (bool_decide_unpack _); vm_compute; exact I ]
  end.

Lemma file_piece_no_eq u : parts_ok u -> "="%char ∉ file_piece u.
Proof.
  intros [_ _ _ _ _ [Hf _]%plain_spec Hc Hh [He _]%plain_spec]. unfold file_piece. not_in.
Qed.

Lemma sub_skip_first pat new k x rest : pat !! 0%nat = Some (Char k) -> k ∉ x ->
  sub_from pat new 0 (x ++ rest) = x ++ sub_from pat new 0 rest.
Proof.
  intros Hp Hk. destruct pat as [|a pat]; [done|]. injection Hp as ->.
  apply sub_skip_head, Forall_forall. intros c Hc. apply is_char_false. by intros ->.
Qed.

(** ** Rolling one piece at a time *)

Definition set_year (y : text) (u : uri_parts) : uri_parts :=
  mk_parts (u_prefix u) y (u_month u) (u_iso u) (u_hour u) (u_file u) (u_compact u) (u_file_hour u) (u_ext u).
Definition set_month (m : text) (u : uri_parts) : uri_parts :=
  mk_parts (u_prefix u) (u_year u) m (u_iso u) (u_hour u) (u_file u) (u_compact u) (u_file_hour u) (u_ext u).
Definition set_iso (d : text) (u : uri_parts) : uri_parts :=
  mk_parts (u_prefix u) (u_year u) (u_month u) d (u_hour u) (u_file u) (u_compact u) (u_file_hour u) (u_ext u).
Definition set_hour (h : text) (u : uri_parts) : uri_parts :=
  mk_parts (u_prefix u) (u_year u) (u_month u) (u_iso u) (Some h) (u_file u) (u_compact u) (u_file_hour u) (u_ext u).
Definition set_compact (c : text) (u : uri_parts) : uri_parts :=
  mk_parts (u_prefix u) (u_year u) (u_month u) (u_iso u) (u_hour u) (u_file u) c (u_file_hour u) (u_ext u).

Section Roll.
Context (u : uri_parts) (Hu : parts_ok u).

Lemma prefix_skip pat new k rest : pat !! k = Some (Char "="%char) -> "="%char ∉ take k rest ->
  sub_from pat new 0 (u_prefix u ++ rest) = u_prefix u ++ sub_from pat new 0 rest.
Proof. intros Hk Hr. eapply sub_skip_key; [done| |done]. by apply plain_spec, ok_prefix. Qed.

(** The block [key=value] is replaced. *)
Lemma sub_key_block key group w new rest : key <> [] -> length w = length group -> match_at group w = true ->
  sub_from ((Char <$> key) ++ group) new 0 (key ++ w ++ rest)
  = new ++ sub_from ((Char <$> key) ++ group) new 0 rest.
Proof.
  intros Hk Hl Hw. rewrite sub_yes.
  - f_equal. rewrite length_app, length_fmap, <-Hl, <-length_app, app_assoc, drop_app_length. done.
  - by destruct key.
  - by apply match_key_block.
Qed.

Lemma digits_match n w : digit_text n w -> match_at (digits n) w = true.
Proof.
  intros [<- Hd]. unfold digits. induction w as [|c w IH]; simpl in *; [done|].
  apply andb_prop in Hd as [-> ?]. by apply IH.
Qed.

Lemma length_digits n w : digit_text n w -> length w = length (digits n).
Proof. intros [<- _]. unfold digits. by rewrite length_replicate. Qed.

(** Pass the pieces up to the next match of a [key=] pattern that starts with
    the character [k]; the file piece has no equals sign. *)
#[local] Ltac pass k :=
  repeat (rewrite (sub_skip_first _ _ k) by (reflexivity || not_in); f_equal).

#[local] Ltac roll_value :=
  rewrite sub_key_block by first [done | by apply length_digits | by apply digits_match].

Lemma roll_year y : re_sub _HIVE_YEAR_RE (lit "year=" ++ y) (assemble u) = assemble (set_year y u).
Proof.
  pose proof (file_piece_no_eq u Hu) as Hf. destruct Hu as [_ Hy Hm Hi Hh _ _ _ _].
  unfold re_sub, assemble, _HIVE_YEAR_RE.
  rewrite (prefix_skip _ _ 4) by (done || not_in). cbn [set_year u_prefix]. f_equal.
  change (lit "/year=") with (lit "/" ++ lit "year="). rewrite <-!app_assoc.
  pass "y"%char. roll_value. rewrite <-app_assoc. do 2 f_equal. pass "y"%char.
  by apply (sub_skip_absent _ _ 4 "="%char).
Qed.

Lemma roll_month m : re_sub _HIVE_MONTH_RE (lit "month=" ++ m) (assemble u) = assemble (set_month m u).
Proof.
  pose proof (file_piece_no_eq u Hu) as Hf. destruct Hu as [_ Hy Hm Hi Hh _ _ _ _].
  unfold re_sub, assemble, _HIVE_MONTH_RE.
  rewrite (prefix_skip _ _ 5) by (done || not_in). cbn [set_month u_prefix]. f_equal.
  change (lit "/month=") with (lit "/" ++ lit "month="). rewrite <-!app_assoc.
  pass "m"%char. roll_value. rewrite <-app_assoc. do 2 f_equal. pass "m"%char.
  by apply (sub_skip_absent _ _ 5 "="%char).
Qed.

Lemma roll_date d : re_sub _HIVE_DATE_RE (lit "date=" ++ d) (assemble u) = assemble (set_iso d u).
Proof.
  pose proof (file_piece_no_eq u Hu) as Hf. destruct Hu as [_ Hy Hm Hi Hh _ _ _ _].
  unfold re_sub, assemble, _HIVE_DATE_RE.
  rewrite (prefix_skip _ _ 4) by (done || not_in). cbn [set_iso u_prefix]. f_equal.
  change (lit "/date=") with (lit "/" ++ lit "date="). rewrite <-!app_assoc.
  pass "d"%char. rewrite sub_key_block by (done || by destruct Hi). rewrite <-app_assoc.
  do 2 f_equal. pass "d"%char. by apply (sub_skip_absent _ _ 4 "="%char).
Qed.

Lemma roll_hour_dir h h' : u_hour u = Some h' ->
  re_sub _HIVE_HOUR_RE (lit "hour=" ++ h) (assemble u) = assemble (set_hour h u).
Proof.
  intros Eh. pose proof (file_piece_no_eq u Hu) as Hf. destruct Hu as [_ Hy Hm Hi Hh _ _ _ _].
  rewrite Eh in Hh. simpl in Hh. unfold re_sub, assemble, _HIVE_HOUR_RE. rewrite Eh. cbn [opt_piece].
  rewrite (prefix_skip _ _ 4) by (done || not_in). cbn [set_hour u_prefix u_hour opt_piece]. f_equal.
  change (lit "/month=") with (lit "/mont" ++ lit "h="). change (lit "/hour=") with (lit "/" ++ lit "hour=").
  rewrite <-!app_assoc. pass "h"%char. 
  change (lit "h=" ++ u_month u ++ ?r) with ("h"%char :: lit "=" ++ u_month u ++ r).
  rewrite sub_no by done. f_equal.
  pass "h"%char. roll_value. rewrite <-app_assoc. do 2 f_equal. pass "h"%char.
  rewrite (sub_skip_absent _ _ 4 "="%char) by done. reflexivity.
Qed.

(** *** Literal anchors *)

(** An anchor text: digits and hyphens, starting with a digit. *)
Definition anchor_text (w : text) : Prop :=
  (exists k w', w = k :: w' /\ is_digit k = true)
  /\ ("/"%char ∉ w) /\ ("_"%char ∉ w) /\ ("."%char ∉ w).

Lemma sub_skip_nondigit w new x rest : anchor_text w -> forallb (fun c => negb (is_digit c)) x = true ->
  sub_from (Char <$> w) new 0 (x ++ rest) = x ++ sub_from (Char <$> w) new 0 rest.
Proof.
  intros [(k & w' & -> & Hk) _] Hx. rewrite forallb_forall in Hx.
  apply (sub_skip_first _ _ k); [done|]. intros Hin%list_elem_of_In%Hx. by rewrite Hk in Hin.
Qed.

Lemma head_hour_dir o r : head (opt_piece (lit "/hour=") o ++ lit "/" ++ r) = Some "/"%char.
Proof. by destruct o. Qed.

Lemma head_file_hour o r :
  exists b, head (opt_piece (lit "_") o ++ lit "." ++ r) = Some b /\ (b = "_"%char \/ b = "."%char).
Proof. destruct o; eexists; split; eauto; done. Qed.

Section Anchor.
Context (w new : text) (Hw : anchor_text w) (Hl : (3 < length w)%nat).

#[local] Abbreviation sub := (sub_from (Char <$> w) new 0).

Lemma short_digits_quiet h : digit_text 2 h -> occurs (Char <$> w) h = false.
Proof. intros [Hh _]. apply occurs_short. rewrite length_fmap. lia. Qed.

Lemma hour_dir_quiet r : sub (opt_piece (lit "/hour=") (u_hour u) ++ lit "/" ++ r)
  = opt_piece (lit "/hour=") (u_hour u) ++ lit "/" ++ sub r.
Proof.
  pose proof (ok_hour _ Hu) as Hh. pose proof Hw as (_ & Hs & _).
  destruct (u_hour u) as [h|]; cbn [opt_piece app].
  - rewrite <-!app_assoc, sub_skip_nondigit by done. f_equal.
    rewrite (sub_skip_before _ _ _ "/"%char) by (done || by apply short_digits_quiet).
    f_equal. by apply (sub_skip_nondigit _ _ (lit "/")).
  - by apply (sub_skip_nondigit _ _ (lit "/")).
Qed.

Lemma file_hour_quiet r : sub (opt_piece (lit "_") (u_file_hour u) ++ lit "." ++ r)
  = opt_piece (lit "_") (u_file_hour u) ++ lit "." ++ sub r.
Proof.
  pose proof (ok_file_hour _ Hu) as Hh. pose proof Hw as (_ & _ & _ & Hd).
  destruct (u_file_hour u) as [h|]; cbn [opt_piece app].
  - rewrite <-!app_assoc, sub_skip_nondigit by done. f_equal.
    rewrite (sub_skip_before _ _ _ "."%char) by (done || by apply short_digits_quiet).
    f_equal. by apply (sub_skip_nondigit _ _ (lit ".")).
  - by apply (sub_skip_nondigit _ _ (lit ".")).
Qed.

(** An anchor that occurs in none of the other pieces only changes the ISO and
    the compact date, each the way it would be changed alone. *)
Lemma replace_pieces iso compact :
  Forall (fun x => occurs (Char <$> w) x = false) [u_prefix u; u_file u; u_ext u; u_year u] ->
  (forall b r, head r = Some b -> b ∉ w -> sub (u_iso u ++ r) = iso ++ sub r) ->
  (forall b r, head r = Some b -> b ∉ w -> sub (u_compact u ++ r) = compact ++ sub r) ->
  replace w new (assemble u) = assemble (set_iso iso (set_compact compact u)).
Proof.
  rewrite !Forall_cons. intros (Hp & Hf & He & Hy & _) Hiso Hcomp. pose proof Hw as (_ & Hs & Hu_ & Hd).
  pose proof (short_digits_quiet _ (ok_month _ Hu)) as Hm.
  unfold replace, re_sub, assemble, file_piece. cbn [set_iso set_compact u_prefix u_year u_month u_iso u_hour
    u_file u_compact u_file_hour u_ext].
  rewrite (sub_skip_before _ _ _ "/"%char), sub_skip_nondigit by done. do 2 f_equal.
  rewrite (sub_skip_before _ _ _ "/"%char), sub_skip_nondigit by done. do 2 f_equal.
  rewrite (sub_skip_before _ _ _ "/"%char), sub_skip_nondigit by done. do 2 f_equal.
  rewrite (Hiso "/"%char), hour_dir_quiet by (apply head_hour_dir || done). do 3 f_equal.
  rewrite (sub_skip_before _ _ _ "_"%char), sub_skip_nondigit by done. do 2 f_equal.
  destruct (head_file_hour (u_file_hour u) (u_ext u)) as (b & Hb & Hbw).
  rewrite (Hcomp b), file_hour_quiet by (done || by destruct Hbw; subst). do 3 f_equal.
  by apply sub_skip_end.
Qed.

End Anchor.

Lemma iso_anchor w : iso_text w -> anchor_text w.
Proof.
  intros H. split; [|split_and!; by eapply iso_not_in].
  apply iso_chars in H as (a & b & c & d & e & f & g & h & -> & [Ha _]%Forall_cons). eauto.
Qed.

Lemma digits_anchor n w : digit_text (S n) w -> anchor_text w.
Proof.
  intros H. split; [|split_and!; by eapply digits_not_in].
  destruct H as [Hl Hd]. destruct w as [|k w]; [done|]. simpl in Hd. apply andb_prop in Hd as [? _]. eauto.
Qed.

Lemma iso_has_no_run s : iso_text s -> occurs (digits 8) s = false.
Proof. intros (a & b & c & d & e & f & g & h & -> & _)%iso_chars. cbn. rewrite !andb_false_r. done. Qed.

(** The shapes of the anchors occur in no other piece. *)
Lemma shape_quiet pat w : length w = length pat -> match_at pat w = true ->
  (4 < length pat)%nat -> (forall x, plain x = true -> occurs pat x = false) ->
  Forall (fun x => occurs (Char <$> w) x = false) [u_prefix u; u_file u; u_ext u; u_year u].
Proof.
  intros Hl Hm H4 Hplain. destruct Hu as [Hp [Hy _] _ _ _ Hf _ _ He].
  repeat constructor; apply (occurs_instance pat); auto. apply occurs_short. lia.
Qed.

Lemma replace_iso w : iso_text w -> replace w (u_iso u) (assemble u) = assemble u.
Proof.
  intros Hw. pose proof (ok_iso _ Hu) as [Hi _]. pose proof (ok_compact _ Hu) as [Hc _]. pose proof Hw as [Hl Hm].
  rewrite (replace_pieces w _ (iso_anchor _ Hw) ltac:(lia) (u_iso u) (u_compact u)).
  - by destruct u.
  - apply (shape_quiet iso_date); [done..|simpl; lia|]. by intros x (_ & _ & ?)%plain_spec.
  - intros b r Hb Hbw. rewrite (sub_block _ _ _ b) by (lia || done || by destruct w). by case_decide.
  - intros b r Hb Hbw. apply (sub_skip_before _ _ _ b); [done..|]. apply occurs_short. rewrite length_fmap. lia.
Qed.

Lemma replace_compact c : replace (u_compact u) c (assemble u) = assemble (set_compact c u).
Proof.
  pose proof (ok_iso _ Hu) as Hi. pose proof (ok_compact _ Hu) as Hc. pose proof Hc as [Hl _].
  rewrite (replace_pieces _ _ (digits_anchor _ _ Hc) ltac:(lia) (u_iso u) c).
  - by destruct u.
  - apply (shape_quiet (digits 8)); [done|by apply digits_match|simpl; lia|]. by intros x (_ & ? & _)%plain_spec.
  - intros b r Hb Hbw. apply (sub_skip_before _ _ _ b); [done..|].
    apply (occurs_instance (digits 8)); [done|by apply digits_match|by apply iso_has_no_run].
  - intros b r Hb Hbw. rewrite (sub_block _ _ _ b) by (done || by destruct (u_compact u)). by case_decide.
Qed.

Lemma replace_compact_hour h c : digit_text 2 h -> replace (u_compact u ++ h) c (assemble u) = assemble u.
Proof.
  intros Hh. pose proof (ok_iso _ Hu) as Hi. pose proof (ok_compact _ Hu) as Hc. pose proof Hc as [Hl Hd].
  pose proof Hh as [Hl2 Hd2].
  assert (Hw : digit_text 10 (u_compact u ++ h)) by (split; [rewrite length_app; lia|by rewrite forallb_app, Hd, Hd2]).
  rewrite (replace_pieces _ _ (digits_anchor _ _ Hw) ltac:(rewrite length_app; lia) (u_iso u) (u_compact u)).
  - by destruct u.
  - apply (shape_quiet (digits 10)); [by apply length_digits|by apply digits_match|simpl; lia|].
    intros x (_ & Hx & _)%plain_spec. by apply (occurs_app_false (digits 8) (digits 2)).
  - intros b r Hb Hbw. apply (sub_skip_before _ _ _ b); [done..|].
    apply (occurs_instance (digits 10)); [by apply length_digits|by apply digits_match|].
    by apply (occurs_app_false (digits 8) (digits 2)), iso_has_no_run.
  - intros b r Hb Hbw. apply (sub_skip_before _ _ _ b); [done..|]. apply occurs_short.
    rewrite length_fmap, length_app. lia.
Qed.

(** *** Anchors recovered from the URI *)

Lemma slash_skip key group x rest : "/"%char ∉ x ->
  path_field_from key group (x ++ rest) = path_field_from key group rest.
Proof.
  intros Hx. apply path_field_skip, Forall_forall. intros c Hc. apply is_char_false. by intros <-.
Qed.

(** A field is searched for in the partition directories, not in the prefix. *)
Lemma search_in_directories key group rest :
  key = lit "date=" \/ key = lit "hour=" ->
  search_path_field key group (u_prefix u ++ lit "/year=" ++ rest)
  = path_field_from key group (lit "/year=" ++ rest).
Proof.
  intros Hk. pose proof (ok_prefix _ Hu) as [Hp _]%plain_spec.
  unfold search_path_field. rewrite path_field_here_match.
  - apply (path_field_skip_key _ _ 5 "="%char); [by destruct Hk; subst|done|]. not_in.
  - destruct (u_prefix u) as [|c p]; [by destruct Hk; subst|].
    apply (no_match_key _ 4 "="%char); [by destruct Hk; subst|done|]. not_in.
Qed.

(** Pass one directory [/name=value] whose name is not the key. *)
Lemma directory_skip key group name v rest :
  match_at ((Char <$> key) ++ group) (name ++ v ++ rest) = false -> "/"%char ∉ name -> "/"%char ∉ v ->
  path_field_from key group (lit "/" ++ name ++ v ++ rest) = path_field_from key group rest.
Proof.
  intros Hm Hn Hv. transitivity (path_field_from key group (name ++ v ++ rest)).
  - by apply path_field_no.
  - by rewrite !slash_skip.
Qed.

#[local] Ltac open_directories :=
  change (lit "/year=") with (lit "/" ++ lit "year="); change (lit "/month=") with (lit "/" ++ lit "month=");
  change (lit "/date=") with (lit "/" ++ lit "date="); rewrite <-!app_assoc.

Lemma anchor_date_found : search_path_field (lit "date=") iso_date (assemble u) = Some (u_iso u).
Proof.
  destruct Hu as [_ Hy Hm [Hil Him] Hh _ _ _ _]. unfold assemble. rewrite search_in_directories by auto.
  open_directories. rewrite (directory_skip _ _ (lit "year=")) by (done || not_in).
  rewrite (directory_skip _ _ (lit "month=")) by (done || not_in).
  destruct (u_hour u) as [h|]; cbn [opt_piece].
  - by apply (path_field_found (lit "date=") iso_date (u_iso u) (lit "hour=" ++ h ++ lit "/" ++ file_piece u)).
  - by apply path_field_found.
Qed.

Lemma anchor_hour_found h : u_hour u = Some h ->
  search_path_field (lit "hour=") (digits 2) (assemble u) = Some h.
Proof.
  intros Eh. destruct Hu as [_ Hy Hm Hi Hh _ _ _ _]. unfold assemble. rewrite Eh in *. simpl in Hh. cbn [opt_piece].
  rewrite search_in_directories by auto.
  open_directories. rewrite (directory_skip _ _ (lit "year=")) by (done || not_in).
  rewrite (directory_skip _ _ (lit "month=")) by (done || not_in).
  rewrite (directory_skip _ _ (lit "date=")) by (done || not_in).
  apply (path_field_found (lit "hour=")); [by apply length_digits|by apply digits_match].
Qed.

Lemma no_anchor_hour : u_hour u = None ->
  search_path_field (lit "hour=") (digits 2) (assemble u) = None.
Proof.
  intros Eh. pose proof (file_piece_no_eq u Hu) as Hf. destruct Hu as [_ Hy Hm Hi Hh _ _ _ _].
  unfold assemble. rewrite Eh in *. cbn [opt_piece app].
  rewrite search_in_directories by auto.
  open_directories. rewrite (directory_skip _ _ (lit "year=")) by (done || not_in).
  rewrite (directory_skip _ _ (lit "month=")) by (done || not_in).
  rewrite (directory_skip _ _ (lit "date=")) by (done || not_in).
  rewrite <-(app_nil_r (lit "/" ++ file_piece u)).
  apply (path_field_skip_key (lit "hour=") (digits 2) 5 "="%char); [done| |apply not_elem_of_nil].
  not_in.
Qed.

End Roll.

(** ** Generated URIs *)

Definition compact_date (d : date) : text := fmt_d 4 (year d) ++ fmt_d 2 (month d) ++ fmt_d 2 (day d).

Definition partition_parts (p : text) (d : date) (h : option Z) (fp ext : text) : uri_parts :=
  mk_parts p (fmt_d 4 (year d)) (fmt_d 2 (month d)) (isoformat d) (fmt_d 2 <$> h) fp (compact_date d)
    (fmt_d 2 <$> h) ext.

Lemma directory_parts prefix p d h : normalize_uri_prefix prefix = Ok p ->
  build_partition_directory_uri prefix d h
  = Ok (p ++ lit "/year=" ++ fmt_d 4 (year d) ++ lit "/month=" ++ fmt_d 2 (month d) ++ lit "/date=" ++ isoformat d
        ++ opt_piece (lit "/hour=") (fmt_d 2 <$> h)).
Proof.
  intros Hp. unfold build_partition_directory_uri, _partition_directory_uri. rewrite Hp. simpl mbind.
  destruct h as [h|].
  - transitivity (Ok ((p ++ lit "/year=" ++ fmt_d 4 (year d) ++ lit "/month=" ++ fmt_d 2 (month d) ++ lit "/date="
        ++ isoformat d) ++ lit "/hour=" ++ fmt_d 2 h)); [reflexivity|]. by rewrite <-!app_assoc.
  - transitivity (Ok (p ++ lit "/year=" ++ fmt_d 4 (year d) ++ lit "/month=" ++ fmt_d 2 (month d) ++ lit "/date="
        ++ isoformat d)); [reflexivity|]. cbn [fmap option_fmap option_map opt_piece]. by rewrite app_nil_r.
Qed.

Lemma file_parts prefix p d h fp extension ext :
  normalize_uri_prefix prefix = Ok p -> normalize_file_extension extension = Ok ext ->
  build_partitioned_file_uri prefix d h fp extension = Ok (assemble (partition_parts p d h fp ext)).
Proof.
  intros Hp He. pose proof (directory_parts prefix p d h Hp) as Hd.
  unfold build_partition_directory_uri in Hd. unfold build_partitioned_file_uri. rewrite Hd, He.
  unfold assemble, file_piece, partition_parts. cbn [u_prefix u_year u_month u_iso u_hour u_file u_compact u_file_hour u_ext].
  destruct h as [h|].
  - transitivity (Ok ((p ++ lit "/year=" ++ fmt_d 4 (year d) ++ lit "/month=" ++ fmt_d 2 (month d) ++ lit "/date="
        ++ isoformat d ++ lit "/hour=" ++ fmt_d 2 h) ++ lit "/" ++ fp ++ lit "_" ++
        (compact_date d ++ lit "_" ++ fmt_d 2 h) ++ lit "." ++ ext)); [reflexivity|].
    cbn [fmap option_fmap option_map opt_piece]. by rewrite <-!app_assoc.
  - transitivity (Ok ((p ++ lit "/year=" ++ fmt_d 4 (year d) ++ lit "/month=" ++ fmt_d 2 (month d) ++ lit "/date="
        ++ isoformat d ++ []) ++ lit "/" ++ fp ++ lit "_" ++ compact_date d ++ lit "." ++ ext)); [reflexivity|].
    cbn [fmap option_fmap option_map opt_piece]. by rewrite <-!app_assoc.
Qed.

Definition hour_ok (h : option Z) : bool :=
  match h with Some h => (0 <=? h) && (h <=? 23) | None => true end.

Lemma date_digits d : date_ok d = true ->
  digit_text 4 (fmt_d 4 (year d)) /\ digit_text 2 (fmt_d 2 (month d)) /\ digit_text 2 (fmt_d 2 (day d)).
Proof.
  intros [? [? ?]]%date_ok_spec. pose proof (days_in_month_bounds (year d) (month d)).
  split_and!; [apply fmt_4|apply fmt_2|apply fmt_2]; lia.
Qed.

Lemma compact_digits d : date_ok d = true -> digit_text 8 (compact_date d).
Proof.
  intros ([Hy Hy'] & [Hm Hm'] & [Hd Hd'])%date_digits. split.
  - unfold compact_date. rewrite !length_app. lia.
  - unfold compact_date. by rewrite !forallb_app, Hy', Hm', Hd'.
Qed.

Lemma isoformat_iso d : date_ok d = true -> iso_text (isoformat d).
Proof.
  intros (Hy & Hm & Hd)%date_digits. unfold isoformat.
  apply digit_text_4 in Hy as (a & b & c & e & -> & Ha & Hb & Hc & He).
  apply digit_text_2 in Hm as (f & g & -> & Hf & Hg). apply digit_text_2 in Hd as (i & j & -> & Hi & Hj).
  split; [done|]. cbn. by rewrite Ha, Hb, Hc, He, Hf, Hg, Hi, Hj.
Qed.

Lemma fromisoformat_isoformat d : date_ok d = true -> fromisoformat (isoformat d) = Ok d.
Proof.
  intros Hd. pose proof (date_digits d Hd) as ([Hy _] & [Hm _] & [Hdd _]).
  pose proof (proj1 (date_ok_spec d) Hd) as (? & ? & ?).
  pose proof (days_in_month_bounds (year d) (month d)).
  unfold fromisoformat, isoformat. rewrite take_app_length' by done.
  rewrite (app_assoc _ (lit "-")), drop_app_length' by (rewrite length_app; simpl; lia).
  rewrite take_app_length' by done.
  rewrite !app_assoc, drop_app_length' by (rewrite !length_app; simpl; lia).
  rewrite take_ge by lia.
  rewrite (proj2 (fmt_4 (year d) ltac:(lia))), (proj2 (fmt_2 (month d) ltac:(lia))),
    (proj2 (fmt_2 (day d) ltac:(lia))).
  destruct d; simpl in *. by rewrite Hd.
Qed.

Lemma partition_parts_ok p d h fp ext :
  date_ok d = true -> hour_ok h = true -> plain p = true -> plain fp = true -> plain ext = true ->
  parts_ok (partition_parts p d h fp ext).
Proof.
  intros Hd Hh Hp Hf He. pose proof (date_digits d Hd) as (Hy & Hm & _).
  assert (opt_digits (fmt_d 2 <$> h)) by (destruct h; simpl in *; [apply fmt_2; lia|done]).
  constructor; simpl; auto using isoformat_iso, compact_digits.
Qed.

(** ** Normalisation keeps a contiguous part of the text *)

Definition infix_of (y x : text) : Prop := exists a b, x = a ++ y ++ b.

Lemma infix_trans x y z : infix_of x y -> infix_of y z -> infix_of x z.
Proof. intros (a & b & ->) (c & d & ->). exists (c ++ a), (b ++ d). by rewrite <-!app_assoc. Qed.

Lemma drop_while_suffix p s : exists a, s = a ++ drop_while p s.
Proof.
  induction s as [|c s [a IH]]; simpl; [by exists []|]. destruct (p c); [|by exists []].
  exists (c :: a). simpl. by f_equal.
Qed.

Lemma lstrip_infix p s : infix_of (lstrip_chars p s) s.
Proof. destruct (drop_while_suffix p s) as [a Ha]. exists a, []. by rewrite app_nil_r. Qed.

Lemma rstrip_infix p s : infix_of (rstrip_chars p s) s.
Proof.
  destruct (drop_while_suffix p (rev s)) as [a Ha]. exists [], (rev a). unfold rstrip_chars. simpl.
  by rewrite <-rev_app_distr, <-Ha, rev_involutive.
Qed.

Lemma strip_infix s : infix_of (strip s) s.
Proof. eapply infix_trans; [apply rstrip_infix|apply lstrip_infix]. Qed.

Lemma occurs_infix pat y x : infix_of y x -> occurs pat x = false -> occurs pat y = false.
Proof.
  intros (a & b & ->) Ho.
  assert (Ho' : occurs pat (y ++ b) = false).
  { induction a as [|c a IH]; [done|]. apply IH. cbn [app occurs] in Ho. by apply orb_false_elim in Ho as [_ ?]. }
  clear Ho. apply not_true_iff_false. intros Hy. apply not_true_iff_false in Ho'. apply Ho'. clear Ho'.
  assert (Hm : forall s, match_at pat s = true -> match_at pat (s ++ b) = true).
  { intros s Hs. rewrite <-match_prefix, take_app_le by by apply match_at_length. by rewrite match_prefix. }
  induction y as [|c y IH]; cbn [occurs app] in *.
  - rewrite orb_false_r in Hy. apply Hm in Hy. cbn [app] in Hy. destruct b; cbn [occurs]; by rewrite Hy.
  - apply orb_true_iff in Hy as [Hy%Hm|Hy]; cbn [app] in *; [by rewrite Hy|]. by rewrite IH, orb_true_r.
Qed.

Lemma plain_infix y x : infix_of y x -> plain x = true -> plain y = true.
Proof.
  intros Hi (He & H8 & Hd)%plain_spec. apply plain_spec. split; [|by eauto using occurs_infix].
  destruct Hi as (a & b & ->). rewrite !elem_of_app in He. tauto.
Qed.

Lemma normalize_uri_prefix_plain x p : normalize_uri_prefix x = Ok p -> plain x = true -> plain p = true.
Proof.
  unfold normalize_uri_prefix. case_match; intros [= <-]. apply plain_infix.
  eapply infix_trans; [apply rstrip_infix|apply strip_infix].
Qed.

Lemma normalize_file_extension_plain x p : normalize_file_extension x = Ok p -> plain x = true -> plain p = true.
Proof.
  unfold normalize_file_extension. case_match; intros [= <-]. apply plain_infix.
  eapply infix_trans; [apply lstrip_infix|apply strip_infix].
Qed.

(** What a successful generation says. *)
Lemma file_uri_ok prefix d h fp extension uri :
  build_partitioned_file_uri prefix d h fp extension = Ok uri ->
  exists p ext, normalize_uri_prefix prefix = Ok p /\ normalize_file_extension extension = Ok ext
    /\ uri = assemble (partition_parts p d h fp ext).
Proof.
  intros Hb. destruct (normalize_uri_prefix prefix) as [p|e] eqn:Hp.
  - destruct (normalize_file_extension extension) as [ext|e] eqn:He.
    + rewrite (file_parts _ p d h fp _ ext) in Hb by done. injection Hb as <-. eauto.
    + pose proof (directory_parts prefix p d h Hp) as Hd. unfold build_partition_directory_uri in Hd.
      unfold build_partitioned_file_uri in Hb. rewrite Hd, He in Hb. by destruct h.
  - unfold build_partitioned_file_uri, _partition_directory_uri in Hb. by rewrite Hp in Hb.
Qed.

(** ** Recovering and rolling the partition *)

(** Text a user passes for the prefix, the file name prefix and the extension. *)
Definition plain_inputs (prefix fp extension : text) : bool := plain prefix && plain fp && plain extension.

Lemma generated_parts prefix d h fp extension uri :
  date_ok d = true -> hour_ok h = true -> plain_inputs prefix fp extension = true ->
  build_partitioned_file_uri prefix d h fp extension = Ok uri ->
  exists p ext, normalize_uri_prefix prefix = Ok p /\ normalize_file_extension extension = Ok ext
    /\ uri = assemble (partition_parts p d h fp ext)
    /\ forall d' h', date_ok d' = true -> hour_ok h' = true -> parts_ok (partition_parts p d' h' fp ext).
Proof.
  intros Hd Hh ([Hp Hf]%andb_prop & He)%andb_prop (p & ext & Hnp & Hne & ->)%file_uri_ok.
  exists p, ext. split_and!; auto. intros d' h' Hd' Hh'.
  apply partition_parts_ok; eauto using normalize_uri_prefix_plain, normalize_file_extension_plain.
Qed.

Lemma parts_anchor_date p d h fp ext : date_ok d = true -> parts_ok (partition_parts p d h fp ext) ->
  infer_anchor_date_from_uri (assemble (partition_parts p d h fp ext)) = Ok (Some d).
Proof.
  intros Hd Hok. unfold infer_anchor_date_from_uri. rewrite anchor_date_found by done.
  cbn [partition_parts u_iso]. by rewrite fromisoformat_isoformat.
Qed.

Lemma parts_anchor_hour p d h fp ext :
  hour_ok h = true -> parts_ok (partition_parts p d h fp ext) ->
  infer_anchor_hour_from_uri (assemble (partition_parts p d h fp ext)) = h.
Proof.
  intros Hh Hok. unfold infer_anchor_hour_from_uri. destruct h as [h|]; simpl in Hh.
  - rewrite (anchor_hour_found _ Hok (fmt_d 2 h)) by done.
    rewrite (proj2 (fmt_2 h ltac:(lia))). by rewrite Hh.
  - by rewrite (no_anchor_hour _ Hok).
Qed.

(** The rolled parts, whatever the hour of the template. *)
Lemma roll_dates p d d' h fp ext : date_ok d = true -> date_ok d' = true ->
  (forall d' h', date_ok d' = true -> hour_ok h' = true -> parts_ok (partition_parts p d' h' fp ext)) ->
  hour_ok h = true ->
  replace (isoformat d) (isoformat d')
    (re_sub _HIVE_DATE_RE (lit "date=" ++ isoformat d')
      (re_sub _HIVE_MONTH_RE (lit "month=" ++ fmt_d 2 (month d'))
        (re_sub _HIVE_YEAR_RE (lit "year=" ++ fmt_d 4 (year d')) (assemble (partition_parts p d h fp ext)))))
  = assemble (set_compact (compact_date d) (partition_parts p d' h fp ext)).
Proof.
  intros Hd Hd' Hok Hh. pose proof (Hok d h Hd Hh) as Hu. pose proof (Hok d' h Hd' Hh) as Hu'.
  destruct Hu as [? ? ? ? ? ? ? ? ?], Hu' as [? ? ? ? ? ? ? ? ?]. cbn in * |-.
  rewrite roll_year, roll_month, roll_date by (constructor; done).
  by apply (replace_iso (set_compact (compact_date d) (partition_parts p d' h fp ext)));
    [constructor|apply isoformat_iso].
Qed.


(** Rolling a daily file URI generated for one date to another date gives
    the URI generated for that date. *)
Theorem roll_daily_generated prefix d d' fp extension uri :
  date_ok d = true -> date_ok d' = true -> plain_inputs prefix fp extension = true ->
  build_partitioned_file_uri prefix d None fp extension = Ok uri ->
  roll_hive_partition_uri uri d' None = build_partitioned_file_uri prefix d' None fp extension.
Proof.
  intros Hd Hd' Hin (p & ext & Hp & He & -> & Hok)%generated_parts; [|done..].
  rewrite (file_parts _ p d' None _ _ ext) by done. unfold roll_hive_partition_uri.
  rewrite parts_anchor_date by auto. cbn [mbind result_bind].
  transitivity (Ok (replace (compact_date d) (compact_date d')
    (assemble (set_compact (compact_date d) (partition_parts p d' None fp ext))))).
  { rewrite <-roll_dates by auto. reflexivity. }
  f_equal. set (v := set_compact (compact_date d) (partition_parts p d' None fp ext)).
  destruct (Hok d' None Hd' eq_refl) as [? ? ? ? ? ? ? ? ?]. pose proof (compact_digits d Hd).
  by apply (replace_compact v); constructor.
Qed.

Lemma roll_hourly_parts p d d' h h' fp ext : date_ok d = true -> date_ok d' = true ->
  hour_ok (Some h) = true -> hour_ok (Some h') = true ->
  (forall d' h', date_ok d' = true -> hour_ok h' = true -> parts_ok (partition_parts p d' h' fp ext)) ->
  roll_hive_partition_uri (assemble (partition_parts p d (Some h) fp ext)) d' (Some h')
  = Ok (assemble (set_hour (fmt_d 2 h') (partition_parts p d' (Some h) fp ext))).
Proof.
  intros Hd Hd' Hh Hh' Hok. pose proof (compact_digits d Hd) as Hc. pose proof (Hok d' (Some h) Hd' Hh) as Hu.
  unfold roll_hive_partition_uri. rewrite parts_anchor_date by auto. cbn [mbind result_bind].
  set (v := set_compact (compact_date d) (partition_parts p d' (Some h) fp ext)).
  assert (Hv : parts_ok v) by (destruct Hu; by constructor).
  transitivity (r ← roll_hour (assemble (partition_parts p d (Some h) fp ext)) (compact_date d)
                     (_uri_template_values d' (Some h')) (assemble v);
                Ok (replace (compact_date d) (compact_date d') r)).
  { unfold v. rewrite <-roll_dates by auto. reflexivity. }
  unfold roll_hour. rewrite (parts_anchor_hour _ _ (Some h)) by auto.
  assert (H2 : digit_text 2 (fmt_d 2 h)) by (apply fmt_2; simpl in Hh; lia).
  assert (H2' : digit_text 2 (fmt_d 2 h')) by (apply fmt_2; simpl in Hh'; lia).
  transitivity (Ok (replace (compact_date d) (compact_date d')
    (re_sub _HIVE_HOUR_RE (lit "hour=" ++ fmt_d 2 h')
       (replace (u_compact v ++ fmt_d 2 h) (compact_date d' ++ fmt_d 2 h') (assemble v))))); [reflexivity|].
  rewrite replace_compact_hour, (roll_hour_dir v Hv _ (fmt_d 2 h)) by done. f_equal.
  assert (Hv' : parts_ok (set_hour (fmt_d 2 h') v)) by (destruct Hv; by constructor).
  exact (replace_compact _ Hv' (compact_date d')).
Qed.

(** Rolling an hourly file URI moves its directories and the date of its
    file name to the target partition but keeps the hour in the file name, so
    the result is not the URI generated for a partition of another hour. *)
Theorem roll_hourly_keeps_file_hour prefix d d' h h' fp extension uri :
  date_ok d = true -> date_ok d' = true -> hour_ok (Some h) = true -> hour_ok (Some h') = true ->
  plain_inputs prefix fp extension = true ->
  build_partitioned_file_uri prefix d (Some h) fp extension = Ok uri ->
  exists dir ext, build_partition_directory_uri prefix d' (Some h') = Ok dir
    /\ normalize_file_extension extension = Ok ext
    /\ roll_hive_partition_uri uri d' (Some h')
       = Ok (dir ++ lit "/" ++ fp ++ lit "_" ++ compact_date d' ++ lit "_" ++ fmt_d 2 h ++ lit "." ++ ext)
    /\ (h <> h' -> roll_hive_partition_uri uri d' (Some h')
                   <> build_partitioned_file_uri prefix d' (Some h') fp extension).
Proof.
  intros Hd Hd' Hh Hh' Hin (p & ext & Hp & He & -> & Hok)%generated_parts; [|done..].
  set (v := set_hour (fmt_d 2 h') (partition_parts p d' (Some h) fp ext)).
  assert (Hroll : roll_hive_partition_uri (assemble (partition_parts p d (Some h) fp ext)) d' (Some h') = Ok (assemble v)).
  { apply roll_hourly_parts; auto. }
  eexists _, ext. split; [by apply directory_parts|]. split; [done|]. rewrite Hroll. split.
  - f_equal. unfold assemble, file_piece, v.
    cbn [set_hour partition_parts u_prefix u_year u_month u_iso u_hour u_file u_compact u_file_hour u_ext fmap option_fmap
      option_map opt_piece]. by rewrite <-!app_assoc.
  - intros Hne. rewrite (file_parts _ p d' (Some h') _ _ ext) by done. intros [= Heq].
    unfold assemble, file_piece, v in Heq.
    cbn [set_hour partition_parts u_prefix u_year u_month u_iso u_hour u_file
      u_compact u_file_hour u_ext fmap option_fmap option_map opt_piece] in Heq.
    repeat apply app_inv_head in Heq. rewrite <-!app_assoc in Heq. apply app_inv_head, app_inv_tail in Heq.
    simpl in Hh, Hh'. apply Hne. rewrite <-(proj2 (fmt_2 h ltac:(lia))), Heq. apply fmt_2. lia.
Qed.

(** ** Explicit placeholders *)

(** A template is literal text without opening braces and placeholders. *)
Inductive piece : Type :=
| Lit (t : text)
| Field (n : text).

Definition piece_text (x : piece) : text :=
  match x with Lit t => t | Field n => placeholder n end.

Definition template_text (ps : list piece) : text := concat (piece_text <$> ps).

Definition piece_ok (x : piece) : bool :=
  match x with
  | Lit t => bool_decide ("{"%char ∉ t)
  | Field n => bool_decide (n ∈ _TEMPLATE_FIELD_NAMES)
  end.

(** The value of each placeholder, all at once; an hourly placeholder without
    an hour stays. *)
Definition rendered_text (values : list (text * text)) (ps : list piece) : text :=
  concat ((fun x => match x with
                    | Lit t => t
                    | Field n => default (placeholder n) (get_value values n)
                    end) <$> ps).

Definition subst_piece (n v : text) (x : piece) : piece :=
  match x with
  | Field m => if bool_decide (m = n) then Lit v else x
  | Lit _ => x
  end.

Definition no_brace (n : text) : Prop := ("{"%char ∉ n) /\ ("}"%char ∉ n).

Lemma field_names_no_brace : Forall no_brace _TEMPLATE_FIELD_NAMES.
Proof. repeat constructor; not_in. Qed.

Lemma field_no_brace n : n ∈ _TEMPLATE_FIELD_NAMES -> no_brace n.
Proof. pose proof field_names_no_brace as H. rewrite Forall_forall in H. apply H. Qed.

(** Text up to the closing brace determines the name. *)
Lemma closing_brace_inj m n r : "}"%char ∉ m -> "}"%char ∉ n ->
  take (length (n ++ lit "}")) (m ++ lit "}" ++ r) = n ++ lit "}" -> m = n.
Proof.
  revert n; induction m as [|c m IH]; intros [|c' n] Hm Hn; cbn.
  - done.
  - intros [= <-]. exfalso. apply Hn. left.
  - intros [= ->]. exfalso. apply Hm. left.
  - intros [= -> He]. f_equal. apply IH; [set_solver..|done].
Qed.

Lemma placeholder_match m n r : no_brace m -> no_brace n -> m <> n ->
  match_at (Char <$> placeholder n) (placeholder m ++ r) = false.
Proof.
  intros [_ Hm] [_ Hn] Hne. apply not_true_iff_false. intros Ht%match_literal. apply Hne.
  unfold placeholder in Ht. cbn [app lit String.list_ascii_of_string length take] in Ht.
  injection Ht as Ht. rewrite <-app_assoc in Ht. by apply (closing_brace_inj m n r).
Qed.

Lemma replace_placeholder n v ps : no_brace n -> Forall (fun x => piece_ok x = true) ps ->
  replace (placeholder n) v (template_text ps) = template_text (subst_piece n v <$> ps).
Proof.
  intros Hn. unfold replace, re_sub, template_text. induction 1 as [|x ps Hx Hps IH]; [done|].
  cbn [fmap list_fmap concat]. destruct x as [t|m]; simpl in Hx; apply bool_decide_eq_true in Hx; cbn [piece_text subst_piece].
  - rewrite (sub_skip_first _ _ "{"%char) by done. by f_equal.
  - case_bool_decide as Hmn; cbn [piece_text].
    + subst m. rewrite sub_yes by first [done|apply match_literal_refl].
      rewrite length_fmap, drop_app_length. by f_equal.
    + pose proof (field_no_brace m Hx) as Hm. pose proof (placeholder_match m n) as Hno.
      change (placeholder m) with ("{"%char :: m ++ lit "}") in *. rewrite <-app_comm_cons.
      rewrite sub_no by by apply Hno. rewrite (sub_skip_first _ _ "{"%char); [|done|].
      * by rewrite IH.
      * destruct Hm as [Hm _]. not_in.
Qed.

Definition subst_value (values : list (text * text)) (x : piece) (n : text) : piece :=
  match get_value values n with Some v => subst_piece n v x | None => x end.

Lemma subst_value_ok values x n :
  (forall v, get_value values n = Some v -> "{"%char ∉ v) ->
  piece_ok x = true -> piece_ok (subst_value values x n) = true.
Proof.
  intros Hv Hx. unfold subst_value. destruct (get_value values n) as [v|]; [|done].
  destruct x as [t|m]; cbn [subst_piece]; [done|]. destruct (bool_decide (m = n)); [|done].
  by apply bool_decide_eq_true, Hv.
Qed.

Lemma render_fold values names ps b :
  (forall n v, get_value values n = Some v -> "{"%char ∉ v) ->
  Forall (fun x => piece_ok x = true) ps -> Forall no_brace names ->
  foldl (render_step values) (template_text ps, b) names
  = (template_text ((fun x => foldl (subst_value values) x names) <$> ps),
     b || existsb (fun n => bool_decide (is_Some (get_value values n))) names).
Proof.
  intros Hv Hps Hn. revert ps b Hps. induction Hn as [|n names Hn Hnames IH]; intros ps b Hps.
  { cbn [foldl existsb]. by rewrite orb_false_r, list_fmap_id. }
  assert (Hps' : Forall (fun x => piece_ok x = true) ((fun x => subst_value values x n) <$> ps)).
  { apply Forall_fmap. eapply Forall_impl; [done|]. intros x Hx. apply subst_value_ok; [apply Hv|done]. }
  cbn [foldl existsb]. transitivity (foldl (render_step values)
    (template_text ((fun x => subst_value values x n) <$> ps), b || bool_decide (is_Some (get_value values n))) names).
  - f_equal. unfold render_step, subst_value. cbn [fst]. destruct (get_value values n) as [v|].
    + rewrite replace_placeholder by done. f_equal. rewrite bool_decide_eq_true_2 by done. by rewrite orb_true_r.
    + rewrite bool_decide_eq_false_2, orb_false_r by by intros [? ?]. by rewrite list_fmap_id.
  - rewrite IH, <-list_fmap_compose, orb_assoc by done. done.
Qed.

Lemma subst_fold_lit values t names : foldl (subst_value values) (Lit t) names = Lit t.
Proof.
  induction names as [|n names IH]; [done|]. cbn [foldl]. unfold subst_value at 2.
  by destruct (get_value values n).
Qed.

Lemma subst_fold_field values m names : m ∈ names ->
  piece_text (foldl (subst_value values) (Field m) names) = default (placeholder m) (get_value values m).
Proof.
  induction names as [|n names IH]; [by intros ?%not_elem_of_nil|]. cbn [foldl]. unfold subst_value at 2.
  intros Hm. destruct (decide (n = m)) as [->|Hne].
  - destruct (get_value values m) as [v|] eqn:Ev; cbn [subst_piece].
    + rewrite bool_decide_eq_true_2 by done. by rewrite subst_fold_lit.
    + clear IH Hm. induction names as [|n names IH]; [done|]. cbn [foldl]. unfold subst_value at 2.
      destruct (get_value values n) as [v|] eqn:Ev'; [|done]. cbn [subst_piece].
      rewrite bool_decide_eq_false_2 by congruence. done.
  - apply elem_of_cons in Hm as [?|Hm]; [congruence|]. destruct (get_value values n); [|auto].
    cbn [subst_piece]. rewrite bool_decide_eq_false_2 by congruence. auto.
Qed.

Lemma startswith_app p r : startswith p (p ++ r) = true.
Proof. induction p as [|c p IH]; [by destruct r|]. cbn. by rewrite IH, (proj2 (is_char_true c c)). Qed.

Lemma contains_app p a r : contains p (a ++ p ++ r) = true.
Proof.
  induction a as [|c a IH]; cbn [app].
  - destruct (p ++ r) eqn:E; cbn [contains]; rewrite <-E, startswith_app; done.
  - cbn [contains]. by rewrite IH, orb_true_r.
Qed.

Lemma field_in_template ps n : Field n ∈ ps -> n ∈ _TEMPLATE_FIELD_NAMES -> n ∈ _template_fields (template_text ps).
Proof.
  intros (l1 & l2 & ->)%list_elem_of_split Hn. unfold _template_fields. apply list_elem_of_filter. split; [|done].
  unfold template_text. rewrite fmap_app, concat_app. apply contains_app.
Qed.

Lemma template_value_no_brace d h n v : date_ok d = true -> hour_ok h = true ->
  get_value (_uri_template_values d h) n = Some v -> "{"%char ∉ v.
Proof.
  intros (Hy & Hm & Hd)%date_digits Hh.
  assert (Hall : Forall (fun kv : text * text => "{"%char ∉ kv.2) (_uri_template_values d h)).
  { destruct h as [h|]; cbn in Hh.
    - assert (digit_text 2 (fmt_d 2 h)) by (apply fmt_2; lia). repeat constructor; cbn [snd]; not_in.
    - repeat constructor; cbn [snd]; not_in. }
  induction Hall as [|[k w] l Hk Hl IH]; cbn [get_value]; [done|].
  case_bool_decide; [|done]. by intros [= <-].
Qed.

Lemma rendered_fields values ps : Forall (fun x => piece_ok x = true) ps ->
  template_text ((fun x => foldl (subst_value values) x (_template_fields (template_text ps))) <$> ps)
  = rendered_text values ps.
Proof.
  intros Hps. unfold template_text at 1, rendered_text. f_equal. rewrite <-list_fmap_compose.
  apply list_fmap_ext. intros i x Hi%list_elem_of_lookup_2. rewrite Forall_forall in Hps. specialize (Hps x Hi).
  destruct x as [t|m]; cbn [compose].
  - by rewrite subst_fold_lit.
  - apply subst_fold_field, field_in_template; [done|]. by apply bool_decide_eq_true in Hps.
Qed.

(** Rendering a template replaces all its placeholders at once: for every
    template made of literal text without opening braces and supported
    placeholders, at least one of which has a value for the partition (an
    hourly one when the partition has an hour), the result is the text with
    each placeholder replaced by its value, whatever the order and the number
    of occurrences. *)
Theorem render_template_exact ps d h :
  Forall (fun x => piece_ok x = true) ps -> date_ok d = true -> hour_ok h = true ->
  (exists n, Field n ∈ ps
     /\ match h with Some _ => n ∈ _HOURLY_TEMPLATE_FIELDS
        | None => is_Some (get_value (_uri_template_values d None) n) end) ->
  render_uri_for_partition (template_text ps) d h = Ok (rendered_text (_uri_template_values d h) ps).
Proof.
  intros Hps Hd Hh (n & Hn & Hval). set (values := _uri_template_values d h).
  assert (Hnames : n ∈ _template_fields (template_text ps)).
  { apply field_in_template; [done|]. rewrite Forall_forall in Hps. specialize (Hps _ Hn). by apply bool_decide_eq_true in Hps. }
  assert (Hsome : is_Some (get_value values n)).
  { unfold values. destruct h; [|done]. revert Hval. unfold _HOURLY_TEMPLATE_FIELDS.
    rewrite !elem_of_cons, elem_of_nil. intros [->|[->|[->|[]]]]; eexists; reflexivity. }
  assert (Hrender : render_explicit_partition_placeholders (template_text ps) d h = (rendered_text values ps, true)).
  { unfold render_explicit_partition_placeholders. destruct (_template_fields (template_text ps)) as [|f fs] eqn:Ef;
      [by apply not_elem_of_nil in Hnames|]. rewrite <-Ef in *. fold values. rewrite render_fold; [|..].
    - rewrite rendered_fields by done. f_equal. apply existsb_exists. exists n.
      split; [by apply list_elem_of_In|by apply bool_decide_eq_true].
    - intros n' v. by apply template_value_no_brace.
    - done.
    - apply Forall_forall. intros m Hm. unfold _template_fields in Hm. apply list_elem_of_filter in Hm as [_ Hm].
      by apply field_no_brace. }
  unfold render_uri_for_partition. rewrite Hrender.
  destruct h as [h|]; [|done]. cbn [is_Some]. rewrite (bool_decide_eq_false_2 (Forall _ _)), andb_false_r; [done|].
  rewrite Forall_forall. intros Hall. by apply (Hall n).
Qed.

(** ** Concrete instances *)

Definition example_prefix : text := lit "gs://lake/v1/events/".
Definition example_day : date := mk_date 2026 1 31.
Definition example_next : date := mk_date 2026 2 1.


Lemma roll_daily_generated_witness :
  roll_hive_partition_uri
    (lit "gs://lake/v1/events/year=2026/month=01/date=2026-01-31/events_20260131.json") example_next None
  = Ok (lit "gs://lake/v1/events/year=2026/month=02/date=2026-02-01/events_20260201.json").
Proof.
  rewrite (roll_daily_generated example_prefix example_day example_next (lit "events") (lit "json"));
    vm_compute; reflexivity.
Defined.

Lemma roll_hourly_keeps_file_hour_witness :
  roll_hive_partition_uri
    (lit "gs://lake/v1/events/year=2026/month=01/date=2026-01-31/hour=07/events_20260131_07.json")
    example_next (Some 9)
  <> Ok (lit "gs://lake/v1/events/year=2026/month=02/date=2026-02-01/hour=09/events_20260201_09.json").
Proof.
  destruct (roll_hourly_keeps_file_hour example_prefix example_day example_next 7 9 (lit "events") (lit "json")
    (lit "gs://lake/v1/events/year=2026/month=01/date=2026-01-31/hour=07/events_20260131_07.json"))
    as (dir & ext & _ & _ & _ & Hne); [vm_compute; reflexivity..|]. exact (Hne ltac:(discriminate)).
Defined.

Lemma render_template_exact_witness :
  render_uri_for_partition (lit "gs://lake/{date}/part-{yyyymmddhh}-{date}.json") example_day (Some 7)
  = Ok (lit "gs://lake/2026-01-31/part-2026013107-2026-01-31.json").
Proof.
  apply (render_template_exact
    [Lit (lit "gs://lake/"); Field (lit "date"); Lit (lit "/part-"); Field (lit "yyyymmddhh");
     Lit (lit "-"); Field (lit "date"); Lit (lit ".json")] example_day (Some 7)).
  - repeat constructor; vm_compute; reflexivity.
  - vm_compute; reflexivity.
  - vm_compute; reflexivity.
  - exists (lit "yyyymmddhh"). split; [by do 3 right; left|]. by do 2 right; left.
Defined.
