(* ===== verification/HivePlan.v ===== *)
(** * HivePlan: date and hour ranges of Hive partitions

    Models [pipeline/hive.py] with [input_format_extensions] of
    [input_impl/selection.py]: the partition points of a range, the validation
    of the URI arguments, and the plan that gives every partition its source
    and output URI.  The loop over days runs on fuel bounded by the rank of the
    two dates (a number that grows by at least one per day); [hive_plan_exact]
    shows that it always reaches the end date. *)

From Stdlib Require Import Ascii String.
From S2P Require Import Prelude PyLib HiveUris.
Import Text Calendar.

#[local] Open Scope Z_scope.

Record HiveRangeConfig : Type := mk_config {
  source_prefix : option text;
  output_prefix : option text;
  source_uri : option text;
  output_uri : option text;
  start_date : option date;
  end_date : option date;
  start_hour : Z;
  end_hour : Z;
  partition_granularity : text;
  input_format : text;
  input_mode : text;
  file_name_prefix : option text;
  source_file_extension : option text;
  output_file_extension : text }.

Record PartitionRunPlan : Type := mk_plan {
  logical_date : option date;
  logical_hour : option Z;
  plan_source_uri : text;
  plan_output_uri : text }.

(** [bool(value)] of an optional string. *)
Definition truthy (o : option text) : bool :=
  match o with Some (_ :: _) => true | _ => false end.

(** [str(value)] of an optional string. *)
Definition py_str (o : option text) : text := default (lit "None") o.

Definition FORMAT_SUFFIXES : list (text * list text) :=
  [(lit "csv", [lit ".csv"]); (lit "json", [lit ".json"]); (lit "json_array", [lit ".json"]);
   (lit "jsonl", [lit ".jsonl"]); (lit "xml", [lit ".xml"]); (lit "parquet", [lit ".parquet"])].

Fixpoint find_suffixes (table : list (text * list text)) (format_name : text) : result (list text) :=
  match table with
  | (k, v) :: rest => if bool_decide (k = format_name) then Ok v else find_suffixes rest format_name
  | [] => Err KeyError
  end.

(** [suffix.removeprefix(".")]. *)
Definition removeprefix_dot (s : text) : text :=
  match s with c :: s' => if is_char "."%char c then s' else s | [] => [] end.

Definition input_format_extensions (format_name : text) : result (list text) :=
  suffixes ← find_suffixes FORMAT_SUFFIXES format_name; Ok (map removeprefix_dot suffixes).

Definition point : Type := date * option Z.

(** The points of one day. *)
Definition day_points (granularity : text) (first last : Z) (d : date) : list point :=
  if bool_decide (granularity = lit "daily") then [(d, None)]
  else (fun h => (d, Some h)) <$> seqZ first (last + 1 - first).

(** The loop: the points it yields, and how it ends. *)
Fixpoint iter_loop (fuel : nat) (granularity : text) (first last : Z) (current last_day : date)
    : list point * result unit :=
  match fuel with
  | O => ([], Err RuntimeError)
  | S fuel' =>
    if date_leb current last_day then
      let here := day_points granularity first last current in
      match date_succ current with
      | Ok next => let '(later, ending) := iter_loop fuel' granularity first last next last_day in (here ++ later, ending)
      | Err e => (here, Err e)
      end
    else ([], Ok tt)
  end.

(** The generator: the points it yields before it ends or raises. *)
Definition _iter_partition_points (first_day last_day : date) (granularity : text) (first last : Z)
    : list point * result unit :=
  if negb (date_leb first_day last_day) then ([], Err ValueError)
  else if negb (bool_decide (granularity = lit "daily") || bool_decide (granularity = lit "hourly"))
  then ([], Err ValueError)
  else if bool_decide (granularity = lit "hourly")
          && (negb ((0 <=? first) && (first <=? 23)) || negb ((0 <=? last) && (last <=? 23)))
  then ([], Err ValueError)
  else if bool_decide (granularity = lit "hourly") && (last <? first) then ([], Err ValueError)
  else iter_loop (days_fuel first_day last_day) granularity first last first_day last_day.

Definition _source_file_extensions (config : HiveRangeConfig) : result (list text) :=
  valid_extensions ← input_format_extensions (input_format config);
  if negb (truthy (source_file_extension config)) then Ok valid_extensions
  else
    extension ← normalize_file_extension (py_str (source_file_extension config));
    if bool_decide (extension ∈ valid_extensions) then Ok [extension] else Err ValueError.

Definition mode_like_segments : list text :=
  [lit "rt"; lit "full"; lit "batch"; lit "daily"; lit "hourly"; lit "streaming"].

Definition _file_name_prefix (config : HiveRangeConfig) : result text :=
  if truthy (file_name_prefix config) then Ok (strip (py_str (file_name_prefix config)))
  else if negb (truthy (source_prefix config)) then Err ValueError
  else
    match rev (uri_path_segments (py_str (source_prefix config))) with
    | [] => Err ValueError
    | last :: before :: _ => if bool_decide (lower last ∈ mode_like_segments) then Ok before else Ok last
    | [last] => Ok last
    end.

Inductive selection : Type := SelUri | SelPrefix.

Definition _uri_selection_mode (config : HiveRangeConfig) : result selection :=
  let has_uri := truthy (source_uri config) || truthy (output_uri config) in
  let has_prefix := truthy (source_prefix config) || truthy (output_prefix config) in
  if has_uri && has_prefix then Err ValueError
  else if has_prefix then
    if negb (truthy (source_prefix config)) || negb (truthy (output_prefix config)) then Err ValueError
    else Ok SelPrefix
  else if negb (truthy (source_uri config)) || negb (truthy (output_uri config)) then Err ValueError
  else Ok SelUri.

Definition unique_step (acc : gset text * gset text) (plan : PartitionRunPlan) : gset text * gset text :=
  let '(seen, duplicates) := acc in
  if bool_decide (plan_output_uri plan ∈ seen) then (seen, {[plan_output_uri plan]} ∪ duplicates)
  else ({[plan_output_uri plan]} ∪ seen, duplicates).

Definition _validate_unique_outputs (plans : list PartitionRunPlan) : result unit :=
  let '(_, duplicates) := foldl unique_step (∅, ∅) plans in
  if bool_decide (duplicates = ∅) then Ok tt else Err ValueError.

(** A list comprehension over the generator: the points are rendered as they
    are yielded, then the generator's own exception is seen. *)
Fixpoint collect {A} (f : point -> result A) (points : list point) : result (list A) :=
  match points with
  | [] => Ok []
  | x :: rest => a ← f x; later ← collect f rest; Ok (a :: later)
  end.

Definition comprehension {A} (f : point -> result A) (points : list point * result unit) : result (list A) :=
  plans ← collect f points.1; _ ← points.2; Ok plans.

Definition uri_plan (config : HiveRangeConfig) (x : point) : result PartitionRunPlan :=
  source ← render_uri_for_partition (py_str (source_uri config)) x.1 x.2;
  output ← render_uri_for_partition (py_str (output_uri config)) x.1 x.2;
  Ok (mk_plan (Some x.1) x.2 source output).

Definition prefix_plan (config : HiveRangeConfig) (generated_file_prefix source_extension output_extension : text)
    (x : point) : result PartitionRunPlan :=
  source ← (if bool_decide (input_mode config = lit "directory")
            then build_partition_directory_uri (py_str (source_prefix config)) x.1 x.2
            else build_partitioned_file_uri (py_str (source_prefix config)) x.1 x.2 generated_file_prefix
                   source_extension);
  output ← build_partitioned_file_uri (py_str (output_prefix config)) x.1 x.2 generated_file_prefix
             output_extension;
  Ok (mk_plan (Some x.1) x.2 source output).

(** [values[0]]. *)
Definition first_of {A} (l : list A) : result A :=
  match l with x :: _ => Ok x | [] => Err IndexError end.

Definition build_hive_range_plan (config : HiveRangeConfig) : result (list PartitionRunPlan) :=
  source_extensions ← _source_file_extensions config;
  if bool_decide (input_mode config = lit "directory") && truthy (source_file_extension config)
  then Err ValueError
  else
    selection_mode ← _uri_selection_mode config;
    match selection_mode, start_date config, end_date config with
    | SelUri, None, None =>
      Ok [mk_plan None None (py_str (source_uri config)) (py_str (output_uri config))]
    | _, Some first_day, Some last_day =>
      let points := _iter_partition_points first_day last_day (partition_granularity config)
                      (start_hour config) (end_hour config) in
      plans ← (match selection_mode with
               | SelUri => comprehension (uri_plan config) points
               | SelPrefix =>
                 generated_file_prefix ← _file_name_prefix config;
                 source_extension ← first_of source_extensions;
                 output_extension ← normalize_file_extension (output_file_extension config);
                 comprehension (prefix_plan config generated_file_prefix source_extension output_extension) points
               end);
      _ ← _validate_unique_outputs plans;
      Ok plans
    | _, _, _ => Err ValueError
    end.

(** ** The days of a range *)

Lemma iter_loop_days fuel granularity first last current last_day :
  date_ok current = true -> date_ok last_day = true -> enough_fuel fuel current last_day ->
  iter_loop fuel granularity first last current last_day
  = (concat (day_points granularity first last <$> day_list fuel current last_day),
     if decide (last_day = date_max) then Err OverflowError else Ok tt).
Proof.
  revert current. induction fuel as [|fuel IH]; intros current Hc Hl Hf; [destruct Hf; lia|].
  cbn [iter_loop day_list]. destruct (date_leb current last_day) eqn:Hle.
  - destruct (day_step _ _ _ Hc Hl Hle Hf) as [[-> ->]|(_ & next & -> & Hn & _ & _ & Hf')].
    + rewrite date_succ_max, decide_True by done. cbn. by rewrite app_nil_r.
    + by rewrite IH.
  - rewrite decide_False by exact (day_past_max _ _ Hc Hle). done.
Qed.

(** ** The points of a range *)

(** The hours of a point, by granularity. *)
Definition hour_in (granularity : text) (first last : Z) (h : option Z) : Prop :=
  match h with
  | None => granularity = lit "daily"
  | Some h => granularity = lit "hourly" /\ first <= h <= last
  end.

Definition point_lt (x y : point) : Prop :=
  date_lt x.1 y.1 \/ (x.1 = y.1 /\ exists h k, x.2 = Some h /\ y.2 = Some k /\ h < k).

(** The arguments of a range that pass validation. *)
Definition range_ok (first_day last_day : date) (granularity : text) (first last : Z) : bool :=
  date_ok first_day && date_ok last_day && date_leb first_day last_day
  && (bool_decide (granularity = lit "daily")
      || (bool_decide (granularity = lit "hourly") && (0 <=? first) && (first <=? last) && (last <=? 23))).

Lemma elem_of_day_points granularity first last d x :
  granularity = lit "daily" \/ granularity = lit "hourly" ->
  x ∈ day_points granularity first last d <-> x.1 = d /\ hour_in granularity first last x.2.
Proof.
  intros Hg. unfold day_points, hour_in. destruct x as [d' [h|]], Hg as [->| ->]; cbn [fst snd].
  - rewrite bool_decide_eq_true_2, list_elem_of_singleton by done. split; [done|]. by intros [_ [? _]].
  - rewrite bool_decide_eq_false_2, list_elem_of_fmap by done. setoid_rewrite elem_of_seqZ. split.
    + intros (y & [= -> ->] & ?). split; [done|]. split; [done|lia].
    + intros [-> [_ ?]]. exists h. split; [done|lia].
  - rewrite bool_decide_eq_true_2, list_elem_of_singleton by done. split; [by intros [= ->]|]. by intros [-> _].
  - rewrite bool_decide_eq_false_2, list_elem_of_fmap by done. split; [by intros (? & ? & _)|]. by intros [_ ?].
Qed.

Lemma StronglySorted_app_lt {A} (R : A -> A -> Prop) l k :
  StronglySorted R l -> StronglySorted R k -> (forall x y, x ∈ l -> y ∈ k -> R x y) -> StronglySorted R (l ++ k).
Proof.
  induction 1 as [|a l Hl IH Ha]; intros Hk Hlk; [done|]. cbn. constructor.
  - apply IH; [done|]. intros x y Hx. apply Hlk. by right.
  - apply Forall_app. split; [done|]. apply Forall_forall. intros y. apply Hlk. left.
Qed.

Lemma StronglySorted_seqZ d first n :
  StronglySorted point_lt ((fun h => (d, Some h)) <$> seqZ first n).
Proof.
  destruct (Z.le_gt_cases n 0) as [Hn|Hn]; [rewrite seqZ_nil by lia; constructor|].
  rewrite <-(Z2Nat.id n) by lia. generalize (Z.to_nat n) as k. clear n Hn. intros k.
  revert first. induction k as [|k IH]; intros first; [constructor|].
  rewrite seqZ_cons by lia. replace (Z.pred (Z.of_nat (S k))) with (Z.of_nat k) by lia. cbn [fmap list_fmap].
  constructor; [apply IH|]. apply Forall_fmap, Forall_forall. intros h Hh%elem_of_seqZ.
  right. cbn. split; [done|]. eexists _, _. split_and!; [done|done|lia].
Qed.

Lemma day_points_sorted granularity first last d : StronglySorted point_lt (day_points granularity first last d).
Proof.
  unfold day_points. case_bool_decide; [repeat constructor|]. apply StronglySorted_seqZ.
Qed.

Lemma days_points_sorted granularity first last days :
  granularity = lit "daily" \/ granularity = lit "hourly" -> StronglySorted date_lt days ->
  StronglySorted point_lt (concat (day_points granularity first last <$> days)).
Proof.
  intros Hg. induction 1 as [|d days Hs IH Hd]; [constructor|]. cbn [fmap list_fmap concat].
  apply StronglySorted_app_lt; [apply day_points_sorted|done|].
  intros x y [Hx _]%elem_of_day_points; [|done]. intros (d' & Hd' & Hy)%elem_of_concat_fmap.
  apply elem_of_day_points in Hy as [Hy _]; [|done]. left. rewrite Hx, Hy.
  rewrite Forall_forall in Hd. by apply Hd.
Qed.

(** What the generator yields on a valid range, and how it ends. *)
Lemma partition_points_exact first_day last_day granularity first last :
  range_ok first_day last_day granularity first last = true ->
  exists points,
    _iter_partition_points first_day last_day granularity first last
    = (points, if decide (last_day = date_max) then Err OverflowError else Ok tt)
    /\ StronglySorted point_lt points
    /\ forall x, x ∈ points <-> in_range first_day last_day x.1 /\ hour_in granularity first last x.2.
Proof.
  unfold range_ok. rewrite !andb_true_iff. intros [[[Hf Hl] Hle] Hg].
  assert (Hgr : granularity = lit "daily" \/ granularity = lit "hourly").
  { apply orb_true_iff in Hg as [Hg|Hg]; [|rewrite !andb_true_iff in Hg; destruct Hg as [[[Hg _] _] _]];
      apply bool_decide_eq_true in Hg; auto. }
  pose proof (iter_loop_days _ granularity first last _ _ Hf Hl (days_fuel_enough first_day last_day)) as Hloop.
  destruct (day_list_spec _ _ _ Hf Hl (days_fuel_enough first_day last_day)) as [Hsort Hdays].
  set (days := day_list (days_fuel first_day last_day) first_day last_day) in *.
  exists (concat (day_points granularity first last <$> days)). split.
  - unfold _iter_partition_points. rewrite Hle, Hloop. cbn [negb].
    destruct Hgr as [->| ->]; [done|]. cbn in Hg. change (bool_decide (lit "hourly" = lit "daily")) with false in *.
    change (bool_decide (lit "hourly" = lit "hourly")) with true in *. simpl in *.
    destruct (0 <=? first) eqn:?, (first <=? 23) eqn:?, (0 <=? last) eqn:?, (last <=? 23) eqn:?, (last <? first) eqn:?;
      simpl in *; done || lia.
  - split; [by apply days_points_sorted|]. intros x. split.
    + intros (d & Hd & Hy)%elem_of_concat_fmap.
      apply elem_of_day_points in Hy as [Hy ?]; [|done]. rewrite Hy. split; [by apply Hdays|done].
    + intros [Hd%Hdays Hh]. apply elem_of_concat_fmap. exists x.1. split; [done|]. by apply elem_of_day_points.
Qed.

(** ** Distinct outputs *)

Lemma unique_fold_distinct plans seen dups :
  NoDup (plan_output_uri <$> plans) -> (forall x, x ∈ plan_output_uri <$> plans -> x ∉ seen) ->
  (foldl unique_step (seen, dups) plans).2 = dups.
Proof.
  revert seen. induction plans as [|x plans IH]; intros seen Hnd Hs; [done|].
  rewrite fmap_cons in Hnd, Hs. apply NoDup_cons in Hnd as [Hx Hnd]. cbn [foldl unique_step].
  rewrite bool_decide_eq_false_2 by (apply Hs; left). apply IH; [done|].
  intros y Hy. rewrite not_elem_of_union, not_elem_of_singleton. split; [by intros ->|].
  apply Hs. by right.
Qed.

Lemma validate_unique_ok plans : NoDup (plan_output_uri <$> plans) -> _validate_unique_outputs plans = Ok tt.
Proof.
  intros Hnd. unfold _validate_unique_outputs. pose proof (unique_fold_distinct plans ∅ ∅ Hnd) as Hu.
  destruct (foldl unique_step (∅, ∅) plans) as [seen dups]. cbn [snd] in Hu.
  rewrite Hu by (intros; apply not_elem_of_empty). by rewrite bool_decide_eq_true_2.
Qed.

Lemma unique_fold_dups plans seen dups x : x ∈ dups -> x ∈ (foldl unique_step (seen, dups) plans).2.
Proof.
  revert seen dups. induction plans as [|y plans IH]; intros seen dups Hx; [done|].
  cbn [foldl unique_step]. case_bool_decide; apply IH; set_solver.
Qed.

Lemma unique_fold_seen plans seen dups x :
  x ∈ seen -> x ∈ plan_output_uri <$> plans -> x ∈ (foldl unique_step (seen, dups) plans).2.
Proof.
  revert seen dups. induction plans as [|y plans IH]; intros seen dups Hs Hx; [by apply not_elem_of_nil in Hx|].
  rewrite fmap_cons in Hx. cbn [foldl unique_step]. apply elem_of_cons in Hx as [->|Hx].
  - rewrite bool_decide_eq_true_2 by done. apply unique_fold_dups. set_solver.
  - case_bool_decide; apply IH; set_solver.
Qed.

Lemma unique_fold_nodup plans seen dups :
  (foldl unique_step (seen, dups) plans).2 = ∅ -> NoDup (plan_output_uri <$> plans).
Proof.
  revert seen dups. induction plans as [|y plans IH]; intros seen dups Hd; [constructor|].
  cbn [foldl unique_step] in Hd. rewrite fmap_cons. case_bool_decide.
  - exfalso. apply (not_elem_of_empty (C:=gset text) (plan_output_uri y)). rewrite <-Hd. apply unique_fold_dups. set_solver.
  - apply NoDup_cons. split; [|by eapply IH]. intros Hy.
    apply (not_elem_of_empty (C:=gset text) (plan_output_uri y)). rewrite <-Hd. apply unique_fold_seen; set_solver.
Qed.

Lemma validate_unique_iff plans : _validate_unique_outputs plans = Ok tt <-> NoDup (plan_output_uri <$> plans).
Proof.
  split; [|apply validate_unique_ok]. unfold _validate_unique_outputs.
  destruct (foldl unique_step (∅, ∅) plans) as [seen dups] eqn:Ef. case_bool_decide as Hd; [|done].
  intros _. apply (unique_fold_nodup plans ∅ ∅). by rewrite Ef.
Qed.

(** ** Distinct partitions have distinct URIs *)

Lemma isoformat_inj d e : date_ok d = true -> date_ok e = true -> isoformat d = isoformat e -> d = e.
Proof.
  intros Hd He Heq. pose proof (fromisoformat_isoformat d Hd) as H. rewrite Heq, fromisoformat_isoformat in H by done.
  by injection H.
Qed.

Lemma partition_uri_inj p d e h k fp ext :
  date_ok d = true -> date_ok e = true -> hour_ok h = true -> hour_ok k = true ->
  is_Some h <-> is_Some k ->
  assemble (partition_parts p d h fp ext) = assemble (partition_parts p e k fp ext) -> (d, h) = (e, k).
Proof.
  intros Hd He Hh Hk Hhk Heq. unfold assemble in Heq. cbn [partition_parts u_prefix u_year u_month u_iso u_hour] in Heq.
  pose proof (date_digits d Hd) as ([Hy _] & [Hm _] & _). pose proof (date_digits e He) as ([Hy' _] & [Hm' _] & _).
  apply app_inv_head, app_inv_head, app_inj_1 in Heq as [_ Heq]; [|congruence].
  apply app_inv_head, app_inj_1 in Heq as [_ Heq]; [|congruence].
  destruct (isoformat_iso d Hd) as [Hi _], (isoformat_iso e He) as [Hi' _].
  apply app_inv_head, app_inj_1 in Heq as [Hiso Heq]; [|congruence].
  f_equal; [by apply isoformat_inj|]. destruct h as [h|], k as [k|]; [|by destruct Hhk as [H _]; destruct H|
    by destruct Hhk as [_ H]; destruct H|done].
  cbn in Hh, Hk. destruct (fmt_2 h ltac:(lia)) as [[Hl _] Hi1], (fmt_2 k ltac:(lia)) as [[Hl' _] Hi2].
  cbn [fmap option_fmap option_map opt_piece] in Heq. rewrite <-!app_assoc in Heq.
  apply app_inv_head, app_inj_1 in Heq as [Hf _]; [|congruence]. by rewrite <-Hi1, Hf, Hi2.
Qed.

(** ** Plans of prefix ranges *)

(** The arguments of a prefix range that pass every validation. *)
Definition prefix_request (config : HiveRangeConfig) (first_day last_day : date) : bool :=
  negb (truthy (source_uri config)) && negb (truthy (output_uri config))
  && truthy (source_prefix config) && truthy (output_prefix config)
  && bool_decide (start_date config = Some first_day) && bool_decide (end_date config = Some last_day)
  && range_ok first_day last_day (partition_granularity config) (start_hour config) (end_hour config)
  && is_ok (_source_file_extensions config)
  && negb (bool_decide (input_mode config = lit "directory") && truthy (source_file_extension config))
  && is_ok (_file_name_prefix config)
  && is_ok (normalize_uri_prefix (py_str (source_prefix config)))
  && is_ok (normalize_uri_prefix (py_str (output_prefix config)))
  && is_ok (normalize_file_extension (output_file_extension config) ≫= normalize_file_extension).

Lemma find_suffixes_elem table f l : find_suffixes table f = Ok l -> (f, l) ∈ table.
Proof.
  induction table as [|[k v] table IH]; cbn; [done|]. case_bool_decide; [|intros; right; auto].
  intros [= <-]. subst. left.
Qed.

Lemma format_extensions_ok f exts : input_format_extensions f = Ok exts ->
  Forall (fun x => normalize_file_extension x = Ok x) exts /\ exts <> [].
Proof.
  unfold input_format_extensions. destruct (find_suffixes FORMAT_SUFFIXES f) as [l|] eqn:Hf; [|done].
  intros [= <-]. apply find_suffixes_elem in Hf. revert Hf. unfold FORMAT_SUFFIXES. rewrite !elem_of_cons, elem_of_nil.
  intros [[= -> ->]|[[= -> ->]|[[= -> ->]|[[= -> ->]|[[= -> ->]|[[= -> ->]|[]]]]]]];
    (split; [repeat constructor|done]); reflexivity.
Qed.

Lemma source_extensions_ok config exts : _source_file_extensions config = Ok exts ->
  exists x, first_of exts = Ok x /\ normalize_file_extension x = Ok x.
Proof.
  unfold _source_file_extensions. destruct (input_format_extensions _) as [valid|] eqn:Hv; [|done].
  apply format_extensions_ok in Hv as [Hall Hne]. cbn [mbind result_bind].
  destruct (negb _).
  - intros [= <-]. destruct valid as [|x valid]; [done|]. apply Forall_cons in Hall as [? _]. by exists x.
  - destruct (normalize_file_extension _) as [x|]; [|done]. cbn [mbind result_bind].
    case_bool_decide as Hx; [|done]. intros [= <-]. rewrite Forall_forall in Hall. exists x. auto.
Qed.

Lemma collect_total {A} (f : point -> result A) (P : point -> A -> Prop) points :
  (forall x, exists a, f x = Ok a /\ P x a) -> exists l, collect f points = Ok l /\ Forall2 P points l.
Proof.
  intros Hf. induction points as [|x points (l & Hl & HP)]; [by exists []|]. cbn [collect].
  destruct (Hf x) as (a & -> & Ha). cbn [mbind result_bind]. rewrite Hl. exists (a :: l). by split; [|constructor].
Qed.

Section PrefixPlan.
Context (config : HiveRangeConfig) (first_day last_day : date) (Hreq : prefix_request config first_day last_day = true).

(** The pieces of a validated request. *)
Lemma prefix_request_parts : exists exts fp se oe ext sp op,
  _source_file_extensions config = Ok exts /\ first_of exts = Ok se /\ normalize_file_extension se = Ok se
  /\ _file_name_prefix config = Ok fp
  /\ normalize_uri_prefix (py_str (source_prefix config)) = Ok sp
  /\ normalize_uri_prefix (py_str (output_prefix config)) = Ok op
  /\ normalize_file_extension (output_file_extension config) = Ok oe /\ normalize_file_extension oe = Ok ext
  /\ _uri_selection_mode config = Ok SelPrefix
  /\ start_date config = Some first_day /\ end_date config = Some last_day
  /\ range_ok first_day last_day (partition_granularity config) (start_hour config) (end_hour config) = true
  /\ bool_decide (input_mode config = lit "directory") && truthy (source_file_extension config) = false.
Proof.
  revert Hreq. unfold prefix_request. rewrite !andb_true_iff, !negb_true_iff, !bool_decide_eq_true.
  intros ((((((((((((Hsu & Hou) & Hsp) & Hop) & Hs) & He) & Hr) & Hx) & Hd) & Hf) & Hps) & Hpo) & Ho).
  apply is_ok_true in Hx as [exts Hx], Hf as [fp Hf], Hps as [sp Hps], Hpo as [op Hpo], Ho as [ext Ho].
  destruct (normalize_file_extension (output_file_extension config)) as [oe|] eqn:Hoe; [|done].
  destruct (source_extensions_ok _ _ Hx) as (se & Hse & Hse').
  exists exts, fp, se, oe, ext, sp, op. split_and!; auto.
  unfold _uri_selection_mode. by rewrite Hsu, Hou, Hsp, Hop.
Qed.

(** The plan of one point. *)
Lemma prefix_plan_total fp se oe ext sp op x :
  normalize_uri_prefix (py_str (source_prefix config)) = Ok sp ->
  normalize_uri_prefix (py_str (output_prefix config)) = Ok op ->
  normalize_file_extension se = Ok se -> normalize_file_extension oe = Ok ext ->
  exists source, prefix_plan config fp se oe x
    = Ok (mk_plan (Some x.1) x.2 source (assemble (partition_parts op x.1 x.2 fp ext))).
Proof.
  intros Hsp Hop Hse Hoe. unfold prefix_plan.
  rewrite (file_parts _ op x.1 x.2 fp oe ext), (file_parts _ sp x.1 x.2 fp se se) by done.
  rewrite (directory_parts _ sp) by done. case_bool_decide; eexists; reflexivity.
Qed.

(** The output of a plan is the file generated for its point. *)
Definition plan_for (fp oe : text) (x : point) (plan : PartitionRunPlan) : Prop :=
  logical_date plan = Some x.1 /\ logical_hour plan = x.2
  /\ build_partitioned_file_uri (py_str (output_prefix config)) x.1 x.2 fp oe = Ok (plan_output_uri plan).

Lemma plans_distinct fp oe op ext points plans :
  normalize_uri_prefix (py_str (output_prefix config)) = Ok op -> normalize_file_extension oe = Ok ext ->
  (forall x, x ∈ points -> date_ok x.1 = true /\ hour_ok x.2 = true) ->
  (forall x y, x ∈ points -> y ∈ points -> is_Some x.2 <-> is_Some y.2) ->
  NoDup points -> Forall2 (plan_for fp oe) points plans -> NoDup (plan_output_uri <$> plans).
Proof.
  intros Hop Hoe Hok Hhours Hnd HF. induction HF as [|x plan points plans (_ & _ & Hx) HF IH]; [constructor|].
  apply NoDup_cons in Hnd as [Hnin Hnd]. rewrite fmap_cons. apply NoDup_cons. split.
  - intros (plan' & Heq & Hplan)%list_elem_of_fmap.
    apply list_elem_of_lookup in Hplan as [i Hi].
    destruct (Forall2_lookup_r _ _ _ _ _ HF Hi) as (y & Hy%list_elem_of_lookup_2 & (_ & _ & Hy')).
    assert (x = y); [|congruence]. rewrite (file_parts _ op _ _ _ _ ext) in Hx by done.
    rewrite (file_parts _ op _ _ _ _ ext) in Hy' by done.
    destruct (Hok x ltac:(left)) as [? ?], (Hok y ltac:(by right)) as [? ?].
    rewrite (surjective_pairing x), (surjective_pairing y). apply (partition_uri_inj op _ _ _ _ fp ext); [done..| |congruence].
    apply Hhours; [left|by right].
  - apply IH; [..|done]; intros; [apply Hok; by right|apply Hhours; by right].
Qed.

Lemma point_lt_irrefl x : ~ point_lt x x.
Proof. intros [H|[_ (h & k & H1 & H2 & ?)]]; [by apply date_lt_irrefl in H|]. rewrite H1 in H2. injection H2. lia. Qed.

Lemma points_NoDup points : StronglySorted point_lt points -> NoDup points.
Proof.
  induction 1 as [|x points Hs IH Hx]; constructor; [|done]. intros Hin. rewrite Forall_forall in Hx.
  by apply (point_lt_irrefl x), Hx.
Qed.

Lemma hours_valid x : range_ok first_day last_day (partition_granularity config) (start_hour config) (end_hour config) = true ->
  hour_in (partition_granularity config) (start_hour config) (end_hour config) x -> hour_ok x = true.
Proof.
  destruct x as [h|]; [|done]. unfold range_ok. rewrite !andb_true_iff. intros [_ Hg] [Hh ?].
  rewrite Hh in Hg. change (bool_decide (lit "hourly" = lit "daily")) with false in Hg. cbn in *. lia.
Qed.

(** What the body of the planner does on a validated request. *)
Lemma prefix_plan_run : exists fp oe points plans,
  _file_name_prefix config = Ok fp /\ normalize_file_extension (output_file_extension config) = Ok oe
  /\ build_hive_range_plan config = (if decide (last_day = date_max) then Err OverflowError else Ok plans)
  /\ StronglySorted point_lt points
  /\ (forall x, x ∈ points <-> in_range first_day last_day x.1
         /\ hour_in (partition_granularity config) (start_hour config) (end_hour config) x.2)
  /\ Forall2 (plan_for fp oe) points plans /\ NoDup (plan_output_uri <$> plans).
Proof.
  destruct prefix_request_parts as (exts & fp & se & oe & ext & sp & op & Hx & Hse & Hse' & Hf & Hps & Hpo & Hoe & Hext
    & Hsel & Hs & He & Hr & Hdir).
  destruct (partition_points_exact _ _ _ _ _ Hr) as (points & Hpts & Hsort & Hin).
  destruct (collect_total (prefix_plan config fp se oe) (plan_for fp oe) points) as (plans & Hplans & HF).
  { intros x. destruct (prefix_plan_total fp se oe ext sp op x) as [source Hsource]; [done..|].
    eexists. split; [exact Hsource|]. split_and!; [done..|]. by apply file_parts. }
  assert (Hnd : NoDup (plan_output_uri <$> plans)).
  { eapply plans_distinct; [exact Hpo|exact Hext| | |by apply points_NoDup|exact HF].
    - intros x [(Hd & _) Hh]%Hin. split; [done|by apply hours_valid].
    - intros x y [_ Hh]%Hin [_ Hk]%Hin. destruct x.2, y.2; cbn in *; [done|destruct Hh; congruence|destruct Hk; congruence|done]. }
  exists fp, oe, points, plans. split_and!; auto.
  unfold build_hive_range_plan. rewrite Hx. cbn [mbind result_bind]. rewrite Hdir, Hsel. cbn [mbind result_bind].
  rewrite Hs, He, Hf, Hse, Hoe. cbn [mbind result_bind]. unfold comprehension. rewrite Hpts. cbn [fst snd].
  rewrite Hplans. cbn [mbind result_bind]. case_decide; [done|]. cbn [mbind result_bind].
  by rewrite validate_unique_ok.
Qed.
End PrefixPlan.


(** A range that ends on the last day of the calendar is never planned: the
    step past [date.max] raises [OverflowError], whatever the first day. *)
Theorem hive_plan_max_date_overflows config first_day :
  prefix_request config first_day date_max = true -> build_hive_range_plan config = Err OverflowError.
Proof.
  intros Hreq. destruct (prefix_plan_run config first_day date_max Hreq) as (? & ? & ? & ? & _ & _ & Hb & _).
  by rewrite decide_True in Hb.
Qed.

(** ** Concrete instances *)

Definition example_config (s e : date) : HiveRangeConfig :=
  mk_config (Some (lit "gs://lake/raw/events/daily")) (Some (lit "gs://lake/silver/events/")) None None
    (Some s) (Some e) 22 23 (lit "hourly") (lit "jsonl") (lit "single_file") None None (lit ".parquet").


Lemma hive_plan_max_date_overflows_witness :
  build_hive_range_plan (example_config (mk_date 9999 12 30) date_max) = Err OverflowError.
Proof. apply (hive_plan_max_date_overflows _ (mk_date 9999 12 30)). vm_compute. reflexivity. Defined.
