(* ===== verification/Uris.v ===== *)
(** * Uris: classification of locations

    Models [core_impl/uris.py]: the split of a URI into scheme, authority and
    path as [urllib.parse.urlparse] makes it, and the classification of local
    paths, file URIs and remote URIs of the supported providers.  Conversion of
    file URIs to platform paths ([url2pathname]) and MIME types are not
    modelled.  The validity of a bracketed authority, which [urllib] delegates
    to [ipaddress], is the variable [bracketed_ok]; nothing is assumed of it. *)

From Stdlib Require Import Ascii String.
From S2P Require Import Prelude PyLib.
Import Text.

#[local] Open Scope Z_scope.

(** A Python argument: a string, or an object of another type. *)
Inductive pyvalue : Type :=
| PStr (s : text)
| PObject.

Inductive LocationKind : Type := KPath | KFile | KGcs | KS3 | KAzure | KHttp.

#[export] Instance LocationKind_eq_dec : EqDecision LocationKind.
Proof. solve_decision. Defined.

Definition _GCS_SCHEMES : list text := [lit "gcs"; lit "gs"].
Definition _S3_SCHEMES : list text := [lit "s3"].
Definition _AZURE_SCHEMES : list text :=
  [lit "abfs"; lit "abfss"; lit "adl"; lit "az"; lit "azure"; lit "wasb"; lit "wasbs"].
Definition _HTTP_SCHEMES : list text := [lit "http"; lit "https"].

Definition is_ascii_alpha (c : ascii) : bool :=
  ((65 <=? code c) && (code c <=? 90)) || ((97 <=? code c) && (code c <=? 122)).

(** [str.isalpha] on one code point below 256. *)
Definition is_alpha (c : ascii) : bool :=
  is_ascii_alpha c || (code c =? 170) || (code c =? 181) || (code c =? 186)
  || ((192 <=? code c) && negb (code c =? 215) && negb (code c =? 247)).

Definition looks_like_windows_drive_path (value : text) : bool :=
  match value with
  | c :: d :: _ => is_char ":"%char d && is_alpha c
  | _ => false
  end.

(** ** [urllib.parse.urlparse] *)

Definition scheme_char (c : ascii) : bool :=
  is_ascii_alpha c || is_digit c || is_char "+"%char c || is_char "-"%char c || is_char "."%char c.

Definition uses_params : list text :=
  [[]; lit "ftp"; lit "hdl"; lit "prospero"; lit "http"; lit "https"; lit "shttp"; lit "rtsp"; lit "rtsps";
   lit "sip"; lit "sips"; lit "mms"; lit "sftp"; lit "tel"].

(** Leading control characters and spaces are dropped, tabs and line ends
    removed everywhere. *)
Definition clean_url (url : text) : text :=
  filter (fun c => code c <> 9 /\ code c <> 10 /\ code c <> 13) (lstrip_chars (fun c => code c <=? 32) url).

Definition split_scheme (url : text) : text * text :=
  match split_once ":"%char url with
  | Some (before, rest) =>
    match before with
    | c :: _ => if is_ascii_alpha c && forallb scheme_char before then (lower before, rest) else ([], url)
    | [] => ([], url)
    end
  | None => ([], url)
  end.

Definition netloc_end (c : ascii) : bool := is_char "/"%char c || is_char "?"%char c || is_char "#"%char c.

Fixpoint split_netloc (s : text) : text * text :=
  match s with
  | [] => ([], [])
  | c :: s' => if netloc_end c then ([], s) else let '(a, b) := split_netloc s' in (c :: a, b)
  end.

(** Text before the first occurrence of a character. *)
Definition before_char (c : ascii) (s : text) : text :=
  match split_once c s with Some (a, _) => a | None => s end.

(** The last path segment without its parameters. *)
Definition cut_params (path : text) : text :=
  if contains [";"%char] path then
    match split_once "/"%char (rev path) with
    | Some (rev_last, rev_head) => rev rev_head ++ lit "/" ++ before_char ";"%char (rev rev_last)
    | None => before_char ";"%char path
    end
  else path.

Record url_parts : Type := mk_url { scheme : text; netloc : text; path : text }.

Section Uris.
Context (bracketed_ok : text -> bool).

Definition check_brackets (authority : text) : bool :=
  let opening := contains ["["%char] authority in
  let closing := contains ["]"%char] authority in
  if xorb opening closing then false else if opening && closing then bracketed_ok authority else true.

Definition urlparse (value : text) : result url_parts :=
  let '(scheme, rest) := split_scheme (clean_url value) in
  let '(netloc, rest) := if startswith (lit "//") rest then split_netloc (drop 2 rest) else ([], rest) in
  if check_brackets netloc then
    let path := before_char "?"%char (before_char "#"%char rest) in
    Ok (mk_url scheme netloc (if bool_decide (scheme ∈ uses_params) then cut_params path else path))
  else Err ValueError.

Definition location_kind (value : pyvalue) : result (option LocationKind) :=
  match value with
  | PObject => Ok None
  | PStr value =>
    if looks_like_windows_drive_path value then Ok (Some KPath)
    else
      parsed ← urlparse value;
      let scheme := lower (scheme parsed) in
      if bool_decide (scheme = []) then Ok (Some KPath)
      else if bool_decide (scheme = lit "file") then Ok (Some KFile)
      else if bool_decide (netloc parsed = []) then Ok None
      else if bool_decide (scheme ∈ _GCS_SCHEMES) then Ok (Some KGcs)
      else if bool_decide (scheme ∈ _S3_SCHEMES) then Ok (Some KS3)
      else if bool_decide (scheme ∈ _AZURE_SCHEMES) then Ok (Some KAzure)
      else if bool_decide (scheme ∈ _HTTP_SCHEMES) then
        Ok (Some (if contains (lit ".blob.core.windows.net") (lower (netloc parsed)) then KAzure else KHttp))
      else Ok None
  end.

Definition remote_provider (value : pyvalue) : result (option LocationKind) :=
  kind ← location_kind value;
  Ok (match kind with
      | None | Some KPath | Some KFile => None
      | Some k => Some k
      end).

Definition looks_like_remote_uri (value : pyvalue) : result bool :=
  provider ← remote_provider value; Ok (bool_decide (is_Some provider)).

Definition looks_like_file_uri (value : pyvalue) : result bool :=
  kind ← location_kind value; Ok (bool_decide (kind = Some KFile)).

Definition looks_like_supported_uri (value : pyvalue) : result bool :=
  kind ← location_kind value; Ok (bool_decide (is_Some kind) && negb (bool_decide (kind = Some KPath))).

End Uris.

(** ** Object name suffixes *)

Definition normalize_extension (suffix : text) : option text :=
  match lower suffix with
  | [] => None
  | c :: s => Some (if is_char "."%char c then c :: s else "."%char :: c :: s)
  end.

Definition normalize_extensions (suffixes : list text) : list text := omap normalize_extension suffixes.

Definition endswith (s suffix : text) : bool := startswith (rev suffix) (rev s).

Definition name_matches (name : text) (suffixes : list text) : bool :=
  existsb (endswith (lower name)) suffixes.
