(* ===== verification/ModifiedTime.v ===== *)
(** * ModifiedTime: grouping a remote listing into UTC windows

    Models [pipeline/modified_time.py] and the selection models of
    [sources/models.py]: half-open UTC windows, the daily windows of a date
    range, the reference selection of one window, the single-pass grouping of a
    listing by binary search over the window starts, and the manifests it
    freezes.  Listing the objects is input; the memory ledger and the metadata
    budget around it are other components.  The type of seconds and its clamp
    at zero stand for Python floats, and [bracketed_ok] for the address check of
    [urllib] (see [Uris]). *)

From Stdlib Require Import Ascii String.
From S2P Require Import Prelude PyLib Uris.
Import Text Calendar.

#[local] Open Scope Z_scope.

(** ** Remote objects *)

Record RemoteFile : Type := mk_file {
  uri : text;
  name : text;
  size : option Z;
  updated : option datetime;
  time_created : option datetime;
  generation : option text;
  metageneration : option text;
  etag : option text;
  crc32c : option text }.

#[export] Instance RemoteFile_eq_dec : EqDecision RemoteFile.
Proof. solve_decision. Defined.

Definition content_identity (f : RemoteFile) : text * option text := (uri f, generation f).

(** [(file.uri, file.generation or "")]. *)
Definition remote_file_sort_key (f : RemoteFile) : text * text := (uri f, default [] (generation f)).

(** Tuples compare by their first differing element. *)
Definition key_leb (a b : text * text) : bool :=
  if bool_decide (a.1 = b.1) then leb a.2 b.2 else leb a.1 b.1.

Definition file_leb (f g : RemoteFile) : bool := key_leb (remote_file_sort_key f) (remote_file_sort_key g).

(** ** Windows *)

Definition _aware_utc (value : datetime) : result datetime :=
  match offset value with
  | None => Err ValueError
  | Some o => astimezone_utc value o
  end.

Record UtcWindow : Type := mk_window { w_start : datetime; w_end : datetime }.

#[export] Instance UtcWindow_eq_dec : EqDecision UtcWindow.
Proof. solve_decision. Defined.

(** [UtcWindow(start, end)]. *)
Definition new_window (start end_ : datetime) : result UtcWindow :=
  normalized_start ← _aware_utc start;
  normalized_end ← _aware_utc end_;
  if utc_leb normalized_end normalized_start then Err ValueError
  else Ok (mk_window normalized_start normalized_end).

Definition window_has (w : UtcWindow) (normalized : datetime) : bool :=
  utc_leb (w_start w) normalized && utc_ltb normalized (w_end w).

Definition window_contains (w : UtcWindow) (value : datetime) : result bool :=
  normalized ← _aware_utc value; Ok (window_has w normalized).

Definition window_logical_date (w : UtcWindow) : date := dt_date (w_start w).

Fixpoint daily_loop (fuel : nat) (current last_day : date) (windows : list UtcWindow) : result (list UtcWindow) :=
  match fuel with
  | O => Err RuntimeError
  | S fuel' =>
    if date_leb current last_day then
      let start := midnight_utc current in
      next ← datetime_succ_day start;
      window ← new_window start next;
      current ← date_succ current;
      daily_loop fuel' current last_day (windows ++ [window])
    else Ok windows
  end.

Definition build_utc_daily_windows (first_day last_day : date) : result (list UtcWindow) :=
  if negb (date_leb first_day last_day) then Err ValueError
  else daily_loop (days_fuel first_day last_day) first_day last_day [].

(** ** The reference selection of one window *)

Fixpoint selected_files (files : list RemoteFile) (w : UtcWindow) : result (list RemoteFile) :=
  match files with
  | [] => Ok []
  | file :: rest =>
    match updated file with
    | None => Err ValueError
    | Some t =>
      inside ← window_contains w t;
      later ← selected_files rest w;
      Ok (if (inside : bool) then file :: later else later)
    end
  end.

Definition select_remote_files_by_modified_time (files : list RemoteFile) (w : UtcWindow)
    : result (list RemoteFile) :=
  selected ← selected_files files w; Ok (Seq.sorted file_leb selected).

(** ** Validated windows *)

(** Order of the key [(window.start, window.end)]. *)
Definition window_leb (v w : UtcWindow) : bool :=
  if utc_eqb (w_start v) (w_start w) then utc_leb (w_end v) (w_end w) else utc_ltb (w_start v) (w_start w).

Fixpoint windows_disjoint (ordered : list UtcWindow) : bool :=
  match ordered with
  | previous :: ((current :: _) as rest) =>
    negb (utc_ltb (w_start current) (w_end previous)) && windows_disjoint rest
  | _ => true
  end.

Definition _validated_windows (windows : list UtcWindow) : result (list UtcWindow) :=
  let ordered := Seq.sorted window_leb windows in
  if windows_disjoint ordered then Ok ordered else Err ValueError.

(** [tuple(window.start for window in ordered_windows)]. *)
Definition window_starts (ordered : list UtcWindow) : list datetime := w_start <$> ordered.

Section Planning.
Context (bracketed_ok : text -> bool) {seconds : Type} (zero : seconds) (at_least_zero : seconds -> seconds).

(** ** Manifests *)

Record SourceManifest : Type := mk_manifest {
  m_source_uri : text; m_files : list RemoteFile; m_provider : LocationKind }.

Definition _normalized_remote_path (u : text) : result (text * text) :=
  parsed ← urlparse bracketed_ok u;
  Ok (lower (netloc parsed), rstrip_chars (is_char "/"%char) (lstrip_chars (is_char "/"%char) (path parsed))).

Definition _belongs_to_source (source_uri object_uri : text) : result bool :=
  source ← _normalized_remote_path source_uri;
  object ← _normalized_remote_path object_uri;
  Ok (if negb (bool_decide (source.1 = object.1)) then false
      else if bool_decide (source.2 = []) then true
      else bool_decide (object.2 = source.2) || startswith (source.2 ++ lit "/") object.2).

Definition is_blank (o : option text) : bool :=
  match o with Some s => bool_decide (strip s = []) | None => true end.

Definition timezone_aware (o : option datetime) : bool :=
  match o with Some t => bool_decide (is_Some (offset t)) | None => true end.

(** The validation of one entry, up to the duplicate check. *)
Definition manifest_entry (source_uri : text) (provider : LocationKind) (file : RemoteFile) : result unit :=
  p ← remote_provider bracketed_ok (PStr (uri file));
  if negb (bool_decide (p = Some provider)) then Err ValueError
  else
    inside ← _belongs_to_source source_uri (uri file);
    if negb inside then Err ValueError
    else if is_blank (generation file) then Err ValueError
    else if is_blank (Some (name file)) then Err ValueError
    else if negb (timezone_aware (updated file)) then Err ValueError
    else Ok tt.

Fixpoint manifest_loop (source_uri : text) (provider : LocationKind) (seen : gset (text * option text))
    (files : list RemoteFile) : result unit :=
  match files with
  | [] => Ok tt
  | file :: rest =>
    _ ← manifest_entry source_uri provider file;
    if bool_decide (content_identity file ∈ seen) then Err ValueError
    else manifest_loop source_uri provider ({[content_identity file]} ∪ seen) rest
  end.

(** [SourceManifest(source_uri, files)]. *)
Definition new_manifest (source_uri : text) (files : list RemoteFile) : result SourceManifest :=
  if bool_decide (strip source_uri = []) then Err ValueError
  else
    provider ← remote_provider bracketed_ok (PStr source_uri);
    match provider with
    | None => Err ValueError
    | Some provider =>
      if negb (bool_decide (provider = KGcs)) then Err ValueError
      else
        let ordered := Seq.sorted file_leb files in
        _ ← manifest_loop source_uri provider ∅ ordered;
        Ok (mk_manifest source_uri ordered provider)
    end.

Definition object_count (m : SourceManifest) : Z := Z.of_nat (length (m_files m)).

Definition total_bytes (m : SourceManifest) : option Z :=
  if existsb (fun f => negb (bool_decide (is_Some (size f)))) (m_files m) then None
  else Some (foldr Z.add 0 ((fun f => default 0 (size f)) <$> m_files m)).

(** ** Window plans *)

Record ModifiedTimeWindowPlan : Type := mk_window_plan {
  wp_source_uri : text; wp_window : UtcWindow; wp_manifest : SourceManifest; wp_discovery : seconds }.

Fixpoint check_membership (w : UtcWindow) (files : list RemoteFile) : result unit :=
  match files with
  | [] => Ok tt
  | file :: rest =>
    match updated file with
    | None => Err ValueError
    | Some t =>
      inside ← window_contains w t;
      if (inside : bool) then check_membership w rest else Err ValueError
    end
  end.

(** [ModifiedTimeWindowPlan(...)] with its [__post_init__]. *)
Definition new_window_plan (source_uri : text) (w : UtcWindow) (m : SourceManifest) (discovery : seconds)
    : result ModifiedTimeWindowPlan :=
  if negb (bool_decide (m_source_uri m = source_uri)) then Err ValueError
  else _ ← check_membership w (m_files m);
       Ok (mk_window_plan source_uri w m (at_least_zero discovery)).

(** Placing one file: [bisect_right(starts, updated) - 1]. *)
Definition place_file (ordered : list UtcWindow) (starts : list datetime) (file : RemoteFile) (t : datetime)
    (buckets : list (list RemoteFile)) : list (list RemoteFile) :=
  match Seq.bisect_right utc_ltb starts t with
  | O => buckets
  | S index =>
    match ordered !! index with
    | Some w => if utc_ltb t (w_end w) then alter (fun b => b ++ [file]) index buckets else buckets
    | None => buckets
    end
  end.

Fixpoint place_files (ordered : list UtcWindow) (starts : list datetime) (identities : gset (text * option text))
    (buckets : list (list RemoteFile)) (files : list RemoteFile) : result (list (list RemoteFile)) :=
  match files with
  | [] => Ok buckets
  | file :: rest =>
    match updated file with
    | None => Err ValueError
    | Some t =>
      t ← _aware_utc t;
      let identity := content_identity file in
      if bool_decide (identity ∈ identities) then Err ValueError
      else place_files ordered starts ({[identity]} ∪ identities) (place_file ordered starts file t buckets) rest
    end
  end.

Fixpoint plan_loop (source_uri : text) (include_empty : bool) (elapsed : seconds)
    (entries : list (UtcWindow * list RemoteFile)) (plans : list ModifiedTimeWindowPlan)
    : result (list ModifiedTimeWindowPlan) :=
  match entries with
  | [] => Ok plans
  | (w, bucket) :: rest =>
    if bool_decide (bucket = []) && negb include_empty then plan_loop source_uri include_empty elapsed rest plans
    else
      manifest ← new_manifest source_uri bucket;
      plan ← new_window_plan source_uri w manifest (if bool_decide (plans = []) then elapsed else zero);
      plan_loop source_uri include_empty elapsed rest (plans ++ [plan])
  end.

Definition plan_modified_time_windows_from_listing (source_uri : text) (files : list RemoteFile)
    (windows : list UtcWindow) (include_empty : bool) (discovery_seconds : seconds)
    : result (list ModifiedTimeWindowPlan) :=
  if bool_decide (strip source_uri = []) then Err ValueError
  else
    ordered ← _validated_windows windows;
    if bool_decide (ordered = []) then Ok []
    else
      let starts := window_starts ordered in
      buckets ← place_files ordered starts ∅ (replicate (length ordered) []) files;
      plan_loop source_uri include_empty (at_least_zero discovery_seconds) (zip ordered buckets) [].

Definition _validate_gcs_prefix (source_uri : text) : result unit :=
  provider ← remote_provider bracketed_ok (PStr source_uri);
  if bool_decide (provider = Some KGcs) then Ok tt else Err ValueError.

Definition generation_missing (f : RemoteFile) : bool :=
  match generation f with Some (_ :: _) => false | _ => true end.

Definition _plan_listed_gcs_files (source_uri : text) (files : list RemoteFile) (first_day last_day : date)
    (include_empty : bool) (discovery_seconds : seconds) : result (list ModifiedTimeWindowPlan) :=
  if existsb generation_missing files then Err ValueError
  else
    windows ← build_utc_daily_windows first_day last_day;
    plan_modified_time_windows_from_listing source_uri files windows include_empty discovery_seconds.

End Planning.

(** ** Ordered windows *)

Definition proper_window (w : UtcWindow) : bool := utc_ltb (w_start w) (w_end w).

Definition before (v w : UtcWindow) : Prop := ~ utc_lt (w_start w) (w_end v).

(** Adjacent disjointness of proper windows is disjointness of all. *)
Lemma disjoint_before v ordered : Forall (fun w => proper_window w = true) (v :: ordered) ->
  windows_disjoint (v :: ordered) = true -> Forall (before v) ordered.
Proof.
  revert v. induction ordered as [|w ordered IH]; intros v Hp Hd; [constructor|].
  cbn [windows_disjoint] in Hd. apply andb_prop in Hd as [Hvw Hd]. apply Forall_cons in Hp as [Hv Hp].
  assert (Hb : before v w) by (by rewrite negb_true_iff, <-not_true_iff_false, utc_ltb_spec in Hvw).
  constructor; [done|]. pose proof Hp as [Hw _]%Forall_cons. eapply Forall_impl; [by apply IH|].
  intros x Hx Hlt. apply Hx. unfold proper_window in Hw. rewrite utc_ltb_spec in Hw.
  eapply utc_lt_trans; [|done]. by eapply utc_lt_le_trans.
Qed.

Lemma disjoint_lookup ordered i j v w : Forall (fun w => proper_window w = true) ordered ->
  windows_disjoint ordered = true -> ordered !! i = Some v -> ordered !! j = Some w -> (i < j)%nat -> before v w.
Proof.
  revert i j. induction ordered as [|u ordered IH]; intros i j Hp Hd Hi Hj Hij; [done|].
  pose proof (disjoint_before _ _ Hp Hd) as Hu. apply Forall_cons in Hp as [_ Hp].
  destruct j as [|j]; [lia|]. cbn in Hj. destruct i as [|i].
  - injection Hi as ->. rewrite Forall_forall in Hu. by eapply Hu, list_elem_of_lookup_2.
  - eapply IH; eauto with lia. destruct ordered; [done|]. cbn [windows_disjoint] in Hd. by apply andb_prop in Hd as [_ ?].
Qed.

Lemma starts_ordered ordered i j v w : Forall (fun w => proper_window w = true) ordered ->
  windows_disjoint ordered = true -> ordered !! i = Some v -> ordered !! j = Some w -> (i <= j)%nat ->
  ~ utc_lt (w_start w) (w_start v).
Proof.
  intros Hp Hd Hi Hj Hij. destruct (decide (i = j)) as [->|Hne].
  - rewrite Hi in Hj. injection Hj as ->. apply utc_lt_irrefl.
  - intros Hlt. apply (disjoint_lookup _ _ _ _ _ Hp Hd Hi Hj ltac:(lia)).
    assert (proper_window v = true) as Hv by (rewrite Forall_forall in Hp; by eapply Hp, list_elem_of_lookup_2).
    unfold proper_window in Hv. rewrite utc_ltb_spec in Hv. by eapply utc_lt_trans.
Qed.

(** ** Binary search finds the only window of an instant *)

Lemma zip_with_twice {A B} (f g : A -> B -> B) l k :
  zip_with g l (zip_with f l k) = zip_with (fun a b => g a (f a b)) l k.
Proof. revert k; induction l as [|a l IH]; intros [|b k]; cbn; [done..|]. by rewrite IH. Qed.

Lemma zip_with_same {A B} (f : A -> B -> B) l k : length k = length l -> (forall a b, f a b = b) -> zip_with f l k = k.
Proof.
  intros Hl Hf. revert k Hl; induction l as [|a l IH]; intros [|b k]; cbn; intros; try done.
  rewrite Hf, IH by lia. done.
Qed.

Section Place.
Context (ordered : list UtcWindow) (Hp : Forall (fun w => proper_window w = true) ordered)
  (Hd : windows_disjoint ordered = true).

Lemma window_has_spec w t : window_has w t = true <-> ~ utc_lt t (w_start w) /\ utc_lt t (w_end w).
Proof. unfold window_has. by rewrite andb_true_iff, utc_leb_spec, utc_ltb_spec. Qed.

Lemma bisect_window t i w : ordered !! i = Some w ->
  window_has w t = bool_decide (Seq.bisect_right utc_ltb (window_starts ordered) t = S i) && utc_ltb t (w_end w).
Proof.
  intros Hi. destruct (Seq.bisect_right_spec utc_ltb (window_starts ordered) t) as [Hlen Hsplit].
  { intros k l y z Hk Hl Hkl. unfold window_starts in *.
    apply list_lookup_fmap_Some in Hk as (v & -> & Hk), Hl as (u & -> & Hl).
    rewrite !utc_ltb_spec. intros Hlt. eapply utc_lt_le_trans; [done|]. by eapply starts_ordered. }
  assert (Hat : forall j v, ordered !! j = Some v ->
    utc_ltb t (w_start v) = bool_decide (Seq.bisect_right utc_ltb (window_starts ordered) t <= j)%nat).
  { intros j v Hj. apply Hsplit. unfold window_starts. by rewrite list_lookup_fmap, Hj. }
  set (r := Seq.bisect_right utc_ltb (window_starts ordered) t) in *.
  apply eq_true_iff_eq. rewrite window_has_spec, andb_true_iff, bool_decide_eq_true, utc_ltb_spec.
  split; intros [Hs He]; (split; [|done]).
  - pose proof (Hat i w Hi) as Hri. rewrite <-utc_ltb_spec, Hri, bool_decide_eq_true in Hs.
    destruct (decide (r = S i)) as [|Hne]; [done|exfalso].
    destruct (lookup_lt_is_Some_2 ordered (S i)) as [v Hv]; [unfold window_starts in Hlen; rewrite length_fmap in Hlen; lia|].
    pose proof (Hat (S i) v Hv) as Hrv. rewrite bool_decide_eq_false_2 in Hrv by lia.
    apply not_true_iff_false in Hrv. rewrite utc_ltb_spec in Hrv. apply Hrv.
    eapply utc_lt_le_trans; [done|]. by eapply disjoint_lookup; [| |exact Hi|exact Hv|lia].
  - rewrite <-utc_ltb_spec, (Hat i w Hi), bool_decide_eq_true. lia.
Qed.

Lemma place_file_spec file t buckets : length buckets = length ordered ->
  place_file ordered (window_starts ordered) file t buckets
  = zip_with (fun w b => if window_has w t then b ++ [file] else b) ordered buckets.
Proof.
  intros Hl. apply list_eq. intros i. rewrite lookup_zip_with. unfold place_file.
  destruct (ordered !! i) as [w|] eqn:Hi.
  - destruct (lookup_lt_is_Some_2 buckets i) as [b Hb]; [rewrite Hl; by eapply lookup_lt_Some|].
    rewrite Hb. cbn [mbind option_bind]. rewrite (bisect_window t i w Hi).
    destruct (Seq.bisect_right utc_ltb (window_starts ordered) t) as [|k] eqn:Hk; [by rewrite Hb|].
    destruct (decide (k = i)) as [->|Hne].
    + rewrite Hi, bool_decide_eq_true_2 by done. destruct (utc_ltb t (w_end w)); cbn [andb]; [|done].
      by rewrite list_lookup_alter_eq, Hb.
    + rewrite bool_decide_eq_false_2 by congruence. cbn [andb].
      destruct (ordered !! k) as [v|]; [|done]. destruct (utc_ltb t (w_end v)); [|done].
      by rewrite list_lookup_alter_ne.
  - assert (Hn : buckets !! i = None) by (apply lookup_ge_None; rewrite Hl; by apply lookup_ge_None).
    cbn. repeat case_match; try done.
    rewrite list_lookup_alter. case_decide; subst; by rewrite Hn.
Qed.

(** The instant of a listed object. *)
Definition file_instant (f : RemoteFile) : result datetime :=
  match updated f with Some t => _aware_utc t | None => Err ValueError end.

Definition file_in (w : UtcWindow) (f : RemoteFile) : bool :=
  match file_instant f with Ok t => window_has w t | Err _ => false end.

Definition members (files : list RemoteFile) (w : UtcWindow) : list RemoteFile :=
  filter (fun f => file_in w f = true) files.

Lemma members_cons f files w t : file_instant f = Ok t ->
  members (f :: files) w = if window_has w t then f :: members files w else members files w.
Proof.
  intros Ht. assert (Hin : file_in w f = window_has w t) by (unfold file_in; by rewrite Ht).
  unfold members. rewrite filter_cons. destruct (window_has w t);
    [rewrite decide_True by done|rewrite decide_False by (rewrite Hin; done)]; done.
Qed.

Lemma place_file_length file t buckets :
  length (place_file ordered (window_starts ordered) file t buckets) = length buckets.
Proof. unfold place_file. repeat case_match; rewrite ?length_alter; done. Qed.

Lemma place_files_spec files identities buckets : length buckets = length ordered ->
  Forall (fun f => is_ok (file_instant f) = true) files -> NoDup (content_identity <$> files) ->
  (forall x, x ∈ content_identity <$> files -> x ∉ identities) ->
  place_files ordered (window_starts ordered) identities buckets files
  = Ok (zip_with (fun w b => b ++ members files w) ordered buckets).
Proof.
  revert identities buckets. induction files as [|f files IH]; intros identities buckets Hl Hok Hnd Hid.
  { cbn [place_files]. by rewrite zip_with_same by (done || intros; apply app_nil_r). }
  apply Forall_cons in Hok as [Hf Hok]. rewrite fmap_cons in Hnd, Hid. apply NoDup_cons in Hnd as [Hnin Hnd].
  cbn [place_files]. apply is_ok_true in Hf as [t Ht]. unfold file_instant in Ht.
  destruct (updated f) as [raw|] eqn:Hu; [|done]. rewrite Ht. cbn [mbind result_bind].
  rewrite bool_decide_eq_false_2 by (apply Hid; left).
  rewrite IH; [|by rewrite place_file_length|done|done|].
  - f_equal. rewrite place_file_spec, zip_with_twice by done. apply zip_with_ext; [|done..]. intros w b.
    rewrite (members_cons _ _ _ t) by (unfold file_instant; by rewrite Hu).
    destruct (window_has w t); [by rewrite <-app_assoc|done].
  - intros x Hx. rewrite not_elem_of_union, not_elem_of_singleton. split; [by intros ->|]. apply Hid. by right.
Qed.
End Place.

(** ** The reference selection *)

Lemma selected_files_members files w : Forall (fun f => is_ok (file_instant f) = true) files ->
  selected_files files w = Ok (members files w).
Proof.
  induction 1 as [|f files Hf Hfs IH]; [done|]. cbn [selected_files]. apply is_ok_true in Hf as [t Ht].
  unfold file_instant in Ht. destruct (updated f) as [raw|] eqn:Hu; [|done].
  unfold window_contains. rewrite Ht, IH. cbn [mbind result_bind].
  rewrite (members_cons _ _ _ t) by (unfold file_instant; by rewrite Hu). by destruct (window_has w t).
Qed.

Section Plans.
Context (bracketed_ok : text -> bool) {seconds : Type} (zero : seconds) (at_least_zero : seconds -> seconds).

(** A listing the planner accepts for a source: the source is a GCS prefix,
    every object has an instant and passes the manifest's own validation, and
    no identity is listed twice. *)
Definition listing_ok (source_uri : text) (files : list RemoteFile) : bool :=
  negb (bool_decide (strip source_uri = []))
  && bool_decide (remote_provider bracketed_ok (PStr source_uri) = Ok (Some KGcs))
  && forallb (fun f => is_ok (file_instant f)) files
  && forallb (fun f => is_ok (manifest_entry bracketed_ok source_uri KGcs f)) files
  && bool_decide (NoDup (content_identity <$> files)).

Lemma manifest_loop_ok source_uri files seen :
  Forall (fun f => manifest_entry bracketed_ok source_uri KGcs f = Ok tt) files ->
  NoDup (content_identity <$> files) -> (forall x, x ∈ content_identity <$> files -> x ∉ seen) ->
  manifest_loop bracketed_ok source_uri KGcs seen files = Ok tt.
Proof.
  intros Hok. revert seen. induction Hok as [|f files Hf Hfs IH]; intros seen Hnd Hs; [done|].
  rewrite fmap_cons in Hnd, Hs. apply NoDup_cons in Hnd as [Hnin Hnd]. cbn [manifest_loop]. rewrite Hf.
  cbn [mbind result_bind]. rewrite bool_decide_eq_false_2 by (apply Hs; left). apply IH; [done|].
  intros x Hx. rewrite not_elem_of_union, not_elem_of_singleton. split; [by intros ->|]. apply Hs. by right.
Qed.

Section Listing.
Context (source_uri : text) (files : list RemoteFile) (Hok : listing_ok source_uri files = true).

Lemma listing_parts :
  strip source_uri <> [] /\ remote_provider bracketed_ok (PStr source_uri) = Ok (Some KGcs)
  /\ Forall (fun f => is_ok (file_instant f) = true) files
  /\ Forall (fun f => manifest_entry bracketed_ok source_uri KGcs f = Ok tt) files
  /\ NoDup (content_identity <$> files).
Proof.
  revert Hok. unfold listing_ok. rewrite !andb_true_iff, negb_true_iff, !bool_decide_eq_true, bool_decide_eq_false.
  rewrite !forallb_forall. intros ((((H1 & H2) & H3) & H4) & H5).
  split_and!; try done; apply Forall_forall; intros f Hf%list_elem_of_In; [by apply H3|].
  destruct (is_ok_true _ (H4 f Hf)) as [[] ?]. done.
Qed.

Lemma members_manifest w : new_manifest bracketed_ok source_uri (members files w)
  = Ok (mk_manifest source_uri (Seq.sorted file_leb (members files w)) KGcs).
Proof.
  destruct listing_parts as (Hs & Hp & Hi & He & Hnd). unfold new_manifest.
  rewrite bool_decide_eq_false_2 by done. rewrite Hp. cbn [mbind result_bind negb].
  rewrite bool_decide_eq_true_2 by done. cbn [negb].
  rewrite manifest_loop_ok; [done|..].
  - rewrite Seq.sorted_Permutation. apply Forall_forall. intros f [_ Hf]%list_elem_of_filter.
    rewrite Forall_forall in He. auto.
  - rewrite Seq.sorted_Permutation. unfold members.
    eapply sublist_NoDup; [exact Hnd|]. apply fmap_sublist, sublist_filter.
  - intros x _. apply not_elem_of_empty.
Qed.

Lemma members_inside w : check_membership w (Seq.sorted file_leb (members files w)) = Ok tt.
Proof.
  assert (Hall : Forall (fun f => file_in w f = true) (Seq.sorted file_leb (members files w))).
  { rewrite Seq.sorted_Permutation. apply Forall_forall. intros f [? _]%list_elem_of_filter. done. }
  induction Hall as [|f fs Hf Hfs IH]; [done|]. cbn [check_membership]. unfold file_in, file_instant in Hf.
  destruct (updated f) as [t|]; [|done]. unfold window_contains. destruct (_aware_utc t); [|done].
  cbn [mbind result_bind]. by rewrite Hf.
Qed.
(** The windows that get a plan. *)
Definition planned (include_empty : bool) (w : UtcWindow) : bool :=
  include_empty || negb (bool_decide (selected_files files w = Ok [])).

(** A plan freezes the reference selection of its window. *)
Definition plan_of (w : UtcWindow) (plan : ModifiedTimeWindowPlan (seconds:=seconds)) : Prop :=
  wp_window plan = w /\ wp_source_uri plan = source_uri /\ m_source_uri (wp_manifest plan) = source_uri
  /\ select_remote_files_by_modified_time files w = Ok (m_files (wp_manifest plan)).

Lemma plan_loop_spec include_empty elapsed ordered acc : exists plans,
  plan_loop bracketed_ok zero at_least_zero source_uri include_empty elapsed
    ((fun w => (w, members files w)) <$> ordered) acc = Ok (acc ++ plans)
  /\ Forall2 plan_of (filter (fun w => planned include_empty w = true) ordered) plans.
Proof.
  destruct listing_parts as (_ & _ & Hi & _ & _).
  revert acc. induction ordered as [|w ordered IH]; intros acc.
  { exists []. rewrite app_nil_r. by split; [|constructor]. }
  assert (Hpl : planned include_empty w = negb (bool_decide (members files w = []) && negb include_empty)).
  { unfold planned. rewrite selected_files_members by done. rewrite negb_andb, negb_involutive, orb_comm. f_equal.
    f_equal. apply bool_decide_ext. split; [by intros [= ?]|by intros ->]. }
  cbn [fmap list_fmap plan_loop]. rewrite filter_cons. destruct (bool_decide (members files w = []) && negb include_empty).
  - rewrite decide_False by by rewrite Hpl. apply IH.
  - rewrite decide_True by done. rewrite members_manifest. cbn [mbind result_bind]. unfold new_window_plan.
    cbn [m_source_uri m_files]. rewrite bool_decide_eq_true_2 by done. cbn [negb]. rewrite members_inside.
    cbn [mbind result_bind].
    set (plan := mk_window_plan source_uri w (mk_manifest source_uri (Seq.sorted file_leb (members files w)) KGcs)
      (at_least_zero (if bool_decide (acc = []) then elapsed else zero))).
    destruct (IH (acc ++ [plan])) as (plans & Hrun & HF). exists (plan :: plans). split.
    + fold plan. unfold list_fmap in Hrun. rewrite <-app_assoc in Hrun. exact Hrun.
    + constructor; [|done]. split_and!; [done..|]. unfold select_remote_files_by_modified_time.
      by rewrite selected_files_members.
Qed.

Lemma zip_members (ordered : list UtcWindow) :
  zip ordered (zip_with (fun w b => b ++ members files w) ordered (replicate (length ordered) []))
  = (fun w => (w, members files w)) <$> ordered.
Proof. induction ordered as [|w ordered IH]; [done|]. cbn. by f_equal. Qed.

Lemma listing_plans windows ordered include_empty discovery :
  Forall (fun w => proper_window w = true) windows -> _validated_windows windows = Ok ordered ->
  exists plans,
    plan_modified_time_windows_from_listing bracketed_ok zero at_least_zero source_uri files windows include_empty discovery
    = Ok plans
    /\ Forall2 plan_of (filter (fun w => planned include_empty w = true) ordered) plans.
Proof.
  intros Hw Hv. destruct listing_parts as (Hs & _ & Hi & _ & Hnd).
  unfold plan_modified_time_windows_from_listing. rewrite bool_decide_eq_false_2, Hv by done. cbn [mbind result_bind].
  case_bool_decide as Hn; [subst; exists []; by split; [|constructor]|].
  unfold _validated_windows in Hv. destruct (windows_disjoint _) eqn:Hd; [|done]. injection Hv as <-.
  rewrite place_files_spec; [|rewrite Seq.sorted_Permutation; done|done|by rewrite length_replicate|done|done|
    intros; apply not_elem_of_empty].
  cbn [mbind result_bind]. rewrite zip_members. apply (plan_loop_spec include_empty (at_least_zero discovery) _ []).
Qed.
End Listing.
End Plans.

(** Grouping a listing in one pass by binary search gives exactly the
    reference selection: for pairwise disjoint windows and an acceptable
    listing the planner succeeds, and the windows that hold an object (all of
    them when empty ones are kept) get, in time order, a plan whose manifest is
    what selecting that window alone returns. *)
Theorem grouping_matches_selection bracketed_ok (seconds : Type) (zero : seconds) at_least_zero
    source_uri files windows ordered include_empty discovery :
  listing_ok bracketed_ok source_uri files = true ->
  Forall (fun w => proper_window w = true) windows -> _validated_windows windows = Ok ordered ->
  exists plans,
    plan_modified_time_windows_from_listing bracketed_ok zero at_least_zero source_uri files windows include_empty discovery
    = Ok plans
    /\ Forall2 (plan_of source_uri files) (filter (fun w => planned files include_empty w = true) ordered) plans.
Proof. intros Hok Hw Hv. by apply listing_plans. Qed.

(** ** Daily windows *)

Definition day_window (d : date) (w : UtcWindow) : Prop :=
  exists next, date_succ d = Ok next /\ w = mk_window (midnight_utc d) (midnight_utc next).

Lemma daily_loop_days fuel current last_day acc :
  date_ok current = true -> date_ok last_day = true -> enough_fuel fuel current last_day ->
  last_day <> date_max ->
  exists windows, daily_loop fuel current last_day acc = Ok (acc ++ windows)
    /\ Forall2 day_window (day_list fuel current last_day) windows.
Proof.
  revert current acc. induction fuel as [|fuel IH]; intros current acc Hc Hl Hf Hm; [destruct Hf; lia|].
  cbn [daily_loop day_list]. destruct (date_leb current last_day) eqn:Hle.
  - destruct (day_step _ _ _ Hc Hl Hle Hf) as [[_ ?]|(_ & next & Hs & Hn & Hlt & _ & Hf')]; [done|]. rewrite Hs.
    unfold datetime_succ_day. cbn [midnight_utc utc dt_date dt_us offset]. rewrite Hs. cbn [mbind result_bind].
    assert (Hw : new_window (midnight_utc current) (mk_datetime next 0 (Some 0))
      = Ok (mk_window (midnight_utc current) (midnight_utc next))).
    { unfold new_window. change (_aware_utc (midnight_utc current)) with (Ok (midnight_utc current)).
      change (_aware_utc (mk_datetime next 0 (Some 0))) with (Ok (midnight_utc next)). cbn [mbind result_bind].
      replace (utc_leb (midnight_utc next) (midnight_utc current)) with false; [done|]. symmetry.
      apply not_true_iff_false. rewrite utc_leb_spec. intros H. apply H. by left. }
    rewrite Hw. cbn [mbind result_bind].
    destruct (IH next (acc ++ [mk_window (midnight_utc current) (midnight_utc next)]) Hn Hl Hf' Hm) as (ws & Hrun & HF).
    rewrite Hrun, <-app_assoc. eexists. split; [done|]. constructor; [by exists next|done].
  - exists []. rewrite app_nil_r. by split; [|constructor].
Qed.

(** A day's window holds exactly the instants of that UTC day. *)
Lemma day_window_has d w t : date_ok d = true -> day_window d w -> date_ok (dt_date t) = true -> 0 <= dt_us t ->
  window_has w t = true <-> dt_date t = d.
Proof.
  intros Hd (next & Hs & ->) Ht Hus. rewrite window_has_spec. cbn [w_start w_end]. unfold utc_lt. cbn [midnight_utc utc dt_date dt_us].
  destruct (date_succ_spec d Hd) as (next' & Hs' & Hn & Hlt & Hleast); [intros ->; by rewrite date_succ_max in Hs|].
  assert (next' = next) as -> by congruence. split.
  - intros [Hge Hltn]. destruct (date_ltb_spec (dt_date t) d) as [H|H]; [destruct Hge; auto|].
    assert (Hle : date_leb d (dt_date t) = true) by (unfold date_leb; by destruct (date_ltb_spec (dt_date t) d)).
    apply date_leb_le in Hle as [H1|H1]; [|done].
    exfalso. destruct Hltn as [H2|[_ H2]]; [|lia]. destruct (Hleast _ Ht H1) as [H3| ->].
    + by apply (date_lt_irrefl next); eapply date_lt_trans.
    + by apply date_lt_irrefl in H2.
  - intros ->. split; [|auto]. intros [H|[_ H]]; [by apply date_lt_irrefl in H|lia].
Qed.

Lemma day_windows_ordered days windows : StronglySorted date_lt days -> Forall (fun d => date_ok d = true) days ->
  Forall2 day_window days windows ->
  StronglySorted (fun v w => window_leb v w = true) windows /\ windows_disjoint windows = true
  /\ Forall (fun w => proper_window w = true) windows.
Proof.
  intros Hs Hok HF. induction HF as [|d w days windows (next & Hn & ->) HF IH]; [by repeat constructor|].
  apply Forall_cons in Hok as [Hd Hok]. apply StronglySorted_inv in Hs as [Hs Hlt].
  destruct (IH Hs Hok) as (H1 & H2 & H3).
  destruct (date_succ_spec d Hd) as (next' & Hn' & _ & Hdn & Hleast); [intros ->; by rewrite date_succ_max in Hn|].
  assert (next' = next) as -> by congruence.
  assert (Hbelow : Forall (fun w => date_lt d (dt_date (w_start w))
      /\ (date_lt next (dt_date (w_start w)) \/ next = dt_date (w_start w)) /\ dt_us (w_start w) = 0) windows).
  { apply Forall_forall. intros w [i Hi]%list_elem_of_lookup.
    destruct (Forall2_lookup_r _ _ _ _ _ HF Hi) as (e & He%list_elem_of_lookup_2 & (? & _ & ->)).
    rewrite Forall_forall in Hlt, Hok. cbn. split_and!; auto. }
  split_and!.
  - constructor; [done|]. eapply Forall_impl; [exact Hbelow|]. intros w (Hw & _ & _). unfold window_leb.
    cbn [w_start]. replace (utc_eqb _ _) with false; [by apply utc_ltb_spec; left|]. symmetry. unfold utc_eqb.
    rewrite bool_decide_eq_false_2; [done|]. cbn. intros E. rewrite <-E in Hw. by apply date_lt_irrefl in Hw.
  - destruct windows as [|w windows]; [done|].
    change (negb (utc_ltb (w_start w) (midnight_utc next)) && windows_disjoint (w :: windows) = true).
    rewrite H2, andb_true_r.
    apply Forall_cons in Hbelow as [(_ & Hw & Hz) _]. apply negb_true_iff, not_true_iff_false. rewrite utc_ltb_spec.
    intros [H|[E H]]; cbn in *; [|lia]. destruct Hw as [Hw|Hw].
    + by apply (date_lt_irrefl next); eapply date_lt_trans.
    + rewrite <-Hw in H. by apply date_lt_irrefl in H.
  - constructor; [|done]. apply utc_ltb_spec. by left.
Qed.

(** The UTC date of a listed object's modification time. *)
Definition file_date (f : RemoteFile) : option date :=
  match file_instant f with Ok t => Some (dt_date t) | Err _ => None end.

Definition valid_time (f : RemoteFile) : bool :=
  match updated f with Some t => datetime_ok t | None => true end.

Lemma file_in_day d w f : date_ok d = true -> day_window d w -> valid_time f = true ->
  file_in w f = true <-> file_date f = Some d.
Proof.
  intros Hd Hw Hv. unfold file_in, file_date, file_instant, valid_time in *.
  destruct (updated f) as [t|]; [|done]. unfold _aware_utc. destruct (offset t) as [o|] eqn:Ho; [|done].
  destruct (astimezone_utc t o) as [u|] eqn:Hu; [|done].
  destruct (astimezone_utc_ok t o u Hv Ho Hu) as [Hok Hus].
  rewrite (day_window_has d w u) by (done || lia). split; [by intros ->|by intros [= ->]].
Qed.

(** The plans of a date range, when the range is one the planner accepts. *)
Definition range_request (first_day last_day : date) : bool :=
  date_ok first_day && date_ok last_day && date_leb first_day last_day
  && negb (bool_decide (last_day = date_max)).

Lemma entry_generation bracketed_ok source_uri f :
  manifest_entry bracketed_ok source_uri KGcs f = Ok tt -> generation_missing f = false.
Proof.
  unfold manifest_entry, generation_missing. destruct (remote_provider _ _) as [p|]; [|done]. cbn [mbind result_bind].
  destruct (negb _); [done|]. destruct (_belongs_to_source _ _ _) as [b|]; [|done]. cbn [mbind result_bind].
  destruct (negb b); [done|]. destruct (generation f) as [[|c g]|]; done.
Qed.

Section Daily.
Context (bracketed_ok : text -> bool) {seconds : Type} (zero : seconds) (at_least_zero : seconds -> seconds)
  (source_uri : text) (files : list RemoteFile) (Hok : listing_ok bracketed_ok source_uri files = true)
  (first_day last_day : date) (Hr : range_request first_day last_day = true).

Lemma daily_windows : exists windows,
  build_utc_daily_windows first_day last_day = Ok windows /\ _validated_windows windows = Ok windows
  /\ Forall (fun w => proper_window w = true) windows
  /\ Forall2 day_window (day_list (days_fuel first_day last_day) first_day last_day) windows.
Proof.
  revert Hr. unfold range_request. rewrite !andb_true_iff, negb_true_iff, bool_decide_eq_false.
  intros [[[Hf Hl] Hle] Hm].
  destruct (daily_loop_days _ _ _ [] Hf Hl (days_fuel_enough first_day last_day) Hm) as (ws & Hrun & HF).
  destruct (day_list_spec _ _ _ Hf Hl (days_fuel_enough first_day last_day)) as [Hs Hin].
  destruct (day_windows_ordered _ ws Hs) as (H1 & H2 & H3); [|done|].
  { apply Forall_forall. by intros d (? & _)%Hin. }
  exists ws. split_and!; [|unfold _validated_windows; by rewrite Seq.sorted_id, H2|done..].
  unfold build_utc_daily_windows. by rewrite Hle.
Qed.

Lemma plan_listed_run include_empty discovery : exists windows plans,
  _plan_listed_gcs_files bracketed_ok zero at_least_zero source_uri files first_day last_day include_empty discovery
  = Ok plans
  /\ Forall2 day_window (day_list (days_fuel first_day last_day) first_day last_day) windows
  /\ Forall2 (plan_of source_uri files) (filter (fun w => planned files include_empty w = true) windows) plans.
Proof.
  destruct daily_windows as (ws & Hb & Hv & Hp & HF).
  destruct (listing_plans bracketed_ok zero at_least_zero source_uri files Hok ws ws include_empty discovery Hp Hv)
    as (plans & Hrun & HP).
  exists ws, plans. split_and!; [|done..]. unfold _plan_listed_gcs_files.
  replace (existsb generation_missing files) with false; [by rewrite Hb|]. symmetry. apply not_true_iff_false.
  rewrite existsb_exists. intros (f & Hf%list_elem_of_In & Hg).
  destruct (listing_parts bracketed_ok source_uri files Hok) as (_ & _ & _ & He & _). rewrite Forall_forall in He.
  specialize (He f Hf). by rewrite (entry_generation _ _ _ He) in Hg.
Qed.

Lemma plan_windows windows plans : Forall2 (plan_of source_uri files (seconds:=seconds)) windows plans ->
  wp_window <$> plans = windows.
Proof. induction 1 as [|w p ws ps (<- & _) _ IH]; [done|]. by rewrite fmap_cons, IH. Qed.

Lemma window_dates days windows : Forall2 day_window days windows -> window_logical_date <$> windows = days.
Proof. induction 1 as [|d w ds ws (? & _ & ->) _ IH]; [done|]. by rewrite fmap_cons, IH. Qed.

Lemma plan_members w plan f : plan_of source_uri files w plan (seconds:=seconds) ->
  f ∈ m_files (wp_manifest plan) <-> f ∈ members files w.
Proof.
  destruct (listing_parts bracketed_ok source_uri files Hok) as (_ & _ & Hi & _ & _).
  intros (_ & _ & _ & Hsel). unfold select_remote_files_by_modified_time in Hsel.
  rewrite selected_files_members in Hsel by done. injection Hsel as <-. by rewrite Seq.sorted_Permutation.
Qed.

Lemma members_planned include_empty w f : f ∈ members files w -> planned files include_empty w = true.
Proof.
  destruct (listing_parts bracketed_ok source_uri files Hok) as (_ & _ & Hi & _). intros Hmem. unfold planned.
  rewrite selected_files_members by done. apply orb_true_iff. right. apply negb_true_iff, bool_decide_eq_false.
  intros [= E]. rewrite E in Hmem. by apply not_elem_of_nil in Hmem.
Qed.
End Daily.

Lemma dates_NoDup days : StronglySorted date_lt days -> NoDup days.
Proof.
  induction 1 as [|d ds Hs IH Hd]; constructor; [|done]. intros Hx. rewrite Forall_forall in Hd.
  by apply (date_lt_irrefl d), Hd.
Qed.


(** ** Concrete instances *)

Definition example_file (suffix : text) (t : datetime) : RemoteFile :=
  mk_file (lit "gs://lake/raw/" ++ suffix) suffix (Some 10) (Some t) None (Some (lit "17")) None None None.

(** One object before midnight UTC, one at midnight, and one whose local date is
    already the next day. *)
Definition example_files : list RemoteFile :=
  [example_file (lit "b.csv") (mk_datetime (mk_date 2024 3 1) 0 (Some 0));
   example_file (lit "a.csv") (mk_datetime (mk_date 2024 2 29) 86399999999 (Some 0));
   example_file (lit "c.csv") (mk_datetime (mk_date 2024 3 1) 1800000000 (Some 3600000000))].

Definition example_window (d e : date) : UtcWindow := mk_window (midnight_utc d) (midnight_utc e).

Lemma grouping_matches_selection_witness : exists plans,
  plan_modified_time_windows_from_listing (fun _ => false) 0 (Z.max 0) (lit "gs://lake/raw/") example_files
    [example_window (mk_date 2024 3 1) (mk_date 2024 3 2); example_window (mk_date 2024 2 29) (mk_date 2024 3 1)] false 5
  = Ok plans /\ (fun p => name <$> m_files (wp_manifest p)) <$> plans = [[lit "a.csv"; lit "c.csv"]; [lit "b.csv"]].
Proof.
  destruct (grouping_matches_selection (fun _ => false) Z 0 (Z.max 0) (lit "gs://lake/raw/") example_files
    [example_window (mk_date 2024 3 1) (mk_date 2024 3 2); example_window (mk_date 2024 2 29) (mk_date 2024 3 1)]
    [example_window (mk_date 2024 2 29) (mk_date 2024 3 1); example_window (mk_date 2024 3 1) (mk_date 2024 3 2)]
    false 5) as (plans & Hrun & _).
  - vm_compute; reflexivity.
  - repeat constructor; vm_compute; reflexivity.
  - vm_compute; reflexivity.
  - exists plans. split; [exact Hrun|]. vm_compute in Hrun. injection Hrun as <-. vm_compute. reflexivity.
Defined.

