(* ===== verification/LogicalSchema.v ===== *)
(** * Logical schemas

    Models [cpp/src/sanitize/core/logical_schema.hh], [cpp/src/core/logical_schema.cc]
    and the type equality of [cpp/src/schema_registry/schema_registry_types.cc]:
    the recursive types that inference, evolution and the registry exchange,
    their names, depths and equality. *)

From Stdlib Require Import Ascii String.
From S2P Require Import Prelude.

(** Output names are byte strings. *)
Definition name : Type := list ascii.

Definition str (s : string) : name := String.list_ascii_of_string s.
Arguments str s%_string_scope.

(** The order of [std::string_view]: lexicographic on unsigned bytes. *)
Fixpoint name_leb (a b : name) : bool :=
  match a, b with
  | [], _ => true
  | _ :: _, [] => false
  | x :: a, y :: b =>
      if (N_of_ascii x <? N_of_ascii y)%N then true
      else if (N_of_ascii y <? N_of_ascii x)%N then false
      else name_leb a b
  end.

Definition name_le (a b : name) : Prop := name_leb a b = true.

#[export] Instance name_le_dec : RelDecision name_le.
Proof. intros a b. unfold name_le. apply _. Defined.

Inductive LogicalKind : Type :=
| kNull | kBool | kInt64 | kFloat64 | kUtf8 | kTimestampNs | kDate32 | kTime32s | kStruct | kList.

#[export] Set Warnings "-register-all".

#[export] Instance LogicalKind_eq_dec : EqDecision LogicalKind.
Proof. solve_decision. Defined.

Inductive LogicalType : Type :=
| MkType (kind : LogicalKind) (fields : list LogicalField) (value : option LogicalType)
with LogicalField : Type :=
| MkField (fname : name) (ftype : option LogicalType) (nullable : bool).

Definition kind (t : LogicalType) : LogicalKind := let '(MkType k _ _) := t in k.
Definition fields (t : LogicalType) : list LogicalField := let '(MkType _ fs _) := t in fs.
Definition value (t : LogicalType) : option LogicalType := let '(MkType _ _ v) := t in v.
Definition fname (f : LogicalField) : name := let '(MkField n _ _) := f in n.
Definition ftype (f : LogicalField) : option LogicalType := let '(MkField _ t _) := f in t.
Definition nullable (f : LogicalField) : bool := let '(MkField _ _ b) := f in b.

Definition LogicalSchema : Type := list LogicalField.

Definition Scalar (k : LogicalKind) : LogicalType := MkType k [] None.
Definition List (elem : LogicalType) : LogicalType := MkType kList [] (Some elem).
Definition Struct (f : list LogicalField) : LogicalType := MkType kStruct f None.

(** Arrow container depth *)
Fixpoint arrow_depth_type (t : LogicalType) : nat :=
  match t with
  | MkType kStruct fs _ =>
      1 + foldl Nat.max 0
            (map (fun f => let '(MkField _ t _) := f in
                           match t with Some t => arrow_depth_type t | None => 0 end) fs)
  | MkType kList _ v => 1 + match v with Some t => arrow_depth_type t | None => 0 end
  | MkType _ _ _ => 0
  end.

(** Parquet and BigQuery RECORD depth *)
Fixpoint parquet_depth_type (t : LogicalType) : nat :=
  match t with
  | MkType kStruct fs _ =>
      1 + foldl Nat.max 0
            (map (fun f => let '(MkField _ t _) := f in
                           match t with Some t => parquet_depth_type t | None => 0 end) fs)
  | MkType kList _ v => match v with Some t => parquet_depth_type t | None => 0 end
  | MkType _ _ _ => 0
  end.

Definition field_depth (depth : LogicalType -> nat) (f : LogicalField) : nat :=
  match ftype f with Some t => depth t | None => 0 end.

Definition arrow_schema_depth (s : LogicalSchema) : nat :=
  foldl (fun maxd f => Nat.max maxd (field_depth arrow_depth_type f)) 0 s.

Definition parquet_schema_depth (s : LogicalSchema) : nat :=
  foldl (fun maxd f => Nat.max maxd (field_depth parquet_depth_type f)) 0 s.

(** The loop of [logical_type_equal] over the fields of two structs, with the
    sizes already known to agree *)
Fixpoint fields_equal (eq : LogicalType -> LogicalType -> bool) (l r : list LogicalField) : bool :=
  match l, r with
  | MkField n1 t1 b1 :: l, MkField n2 t2 b2 :: r =>
      bool_decide (n1 = n2) && Bool.eqb b1 b2 &&
      match t1, t2 with
      | Some t1, Some t2 => eq t1 t2
      | None, None => true
      | _, _ => false
      end && fields_equal eq l r
  | _, _ => true
  end.

Fixpoint logical_type_equal (left right : LogicalType) {struct left} : bool :=
  match left with
  | MkType k fs v =>
      bool_decide (k = kind right) &&
      match k with
      | kList =>
          match v, value right with
          | Some a, Some b => logical_type_equal a b
          | None, None => true
          | _, _ => false
          end
      | kStruct =>
          (length fs =? length (fields right)) &&
          fields_equal logical_type_equal fs (fields right)
      | _ => true
      end
  end.

(** ** Induction on types *)

Section TypeInduction.
Variable P : LogicalType -> Prop.
Hypothesis Hstep : forall k fs v,
  Forall (fun f => forall t, ftype f = Some t -> P t) fs ->
  (forall t, v = Some t -> P t) -> P (MkType k fs v).

Lemma LogicalType_fields_ind (t : LogicalType) : P t.
Proof.
  revert t. fix IH 1. intros [k fs v]. apply Hstep.
  - revert fs. fix go 1. intros [|[n ot b] fs]; constructor; [|apply go].
    intros t E. destruct ot as [t0|]; [|discriminate E].
    pose proof (IH t0) as H. injection E as ->. exact H.
  - intros t E. destruct v as [t0|]; [|discriminate E].
    pose proof (IH t0) as H. injection E as ->. exact H.
Qed.
End TypeInduction.

Ltac type_induction t :=
  induction t as [k fs v IHfs IHv] using LogicalType_fields_ind.

(** ** Well-formed types

    [shaped]: scalar kinds carry no children, structs no element, lists no
    fields.  [unique]: the fields of every struct have distinct names.  Types
    built by [Scalar], [List] and [Struct] are shaped. *)
Definition field_names (fs : list LogicalField) : list name := fname <$> fs.

Fixpoint well_formed (t : LogicalType) : Prop :=
  match t with
  | MkType k fs v =>
      match k with
      | kStruct => v = None /\ NoDup (field_names fs)
      | kList => fs = []
      | _ => fs = [] /\ v = None
      end /\
      foldr (fun f acc => (let '(MkField _ ot _) := f in
                           match ot with Some t => well_formed t | None => True end) /\ acc) True fs /\
      match v with Some t => well_formed t | None => True end
  end.

Definition wf_field (f : LogicalField) : Prop :=
  match ftype f with Some t => well_formed t | None => True end.

Definition wf_fields (fs : list LogicalField) : Prop :=
  NoDup (field_names fs) /\ Forall wf_field fs.

Lemma wf_foldr fs :
  foldr (fun f acc => (let '(MkField _ ot _) := f in
           match ot with Some t => well_formed t | None => True end) /\ acc) True fs
  <-> Forall wf_field fs.
Proof.
  induction fs as [|[n ot b] fs IH]; simpl; [by rewrite Forall_nil|].
  by rewrite Forall_cons, IH.
Qed.

Lemma well_formed_struct fs v : well_formed (MkType kStruct fs v) <-> v = None /\ wf_fields fs.
Proof.
  simpl. rewrite wf_foldr. unfold wf_fields. split.
  - tauto.
  - intros (-> & ? & ?). auto.
Qed.

Lemma well_formed_list fs v :
  well_formed (MkType kList fs v) <-> fs = [] /\ match v with Some t => well_formed t | None => True end.
Proof. simpl. rewrite wf_foldr. split; [tauto|]. intros [-> ?]. auto. Qed.

Lemma well_formed_scalar k fs v :
  k <> kStruct -> k <> kList -> well_formed (MkType k fs v) <-> fs = [] /\ v = None.
Proof.
  intros. simpl. rewrite wf_foldr. destruct k; try done; (split; [tauto|]; intros [-> ->]; auto).
Qed.

Lemma wf_fields_nil : wf_fields [].
Proof. split; [apply NoDup_nil_2|done]. Qed.

Lemma elem_of_field_names n fs : n ∈ field_names fs <-> exists f, f ∈ fs /\ fname f = n.
Proof. unfold field_names. rewrite list_elem_of_fmap. split; intros (f & ? & ?); eauto. Qed.

(** ** Equality *)

Lemma fields_equal_refl eq fs :
  Forall (fun f => forall t, ftype f = Some t -> eq t t = true) fs -> fields_equal eq fs fs = true.
Proof.
  induction 1 as [|[n ot b] fs Hf _ IH]; simpl; [done|].
  rewrite bool_decide_eq_true_2, eqb_reflx, IH by done.
  destruct ot as [t|]; simpl; [|done]. by rewrite (Hf t).
Qed.

Lemma logical_type_equal_refl t : logical_type_equal t t = true.
Proof.
  type_induction t. simpl. rewrite bool_decide_eq_true_2 by done. simpl.
  destruct k; try done.
  - by rewrite Nat.eqb_refl, fields_equal_refl.
  - destruct v as [t|]; [|done]. by apply IHv.
Qed.

(** On well-formed types the equality of the registry decides Leibniz equality. *)
Lemma logical_type_equal_eq a b :
  well_formed a -> well_formed b -> logical_type_equal a b = true -> a = b.
Proof.
  revert b. type_induction a. intros [k' fs' v']. simpl.
  intros Ha Hb [E H]%andb_true_iff. apply bool_decide_eq_true in E as <-.
  destruct (decide (k = kStruct)) as [->|Hns]; [|destruct (decide (k = kList)) as [->|Hnl]].
  - apply well_formed_struct in Ha as (-> & Ha), Hb as (-> & Hb). f_equal.
    apply andb_true_iff in H as [Hlen%Nat.eqb_eq H].
    destruct Ha as [_ Ha], Hb as [_ Hb]. clear IHv. revert fs' Hlen H Hb.
    induction Ha as [|[n t nb] fs Hf Hfs IH]; intros [|[n' t' nb'] fs'] Hlen H Hb; try done.
    simpl in *. rewrite !andb_true_iff, bool_decide_eq_true, eqb_true_iff in H.
    destruct H as (((-> & ->) & Ht) & H). apply Forall_cons in IHfs as [IHf IHfs], Hb as [Hf' Hb].
    f_equal; [|apply IH; auto]. f_equal.
    destruct t as [t|], t' as [t'|]; try done. f_equal. by apply IHf.
  - apply well_formed_list in Ha as (-> & Ha), Hb as (-> & Hb). f_equal.
    destruct v as [t|], v' as [t'|]; try done. f_equal. by apply IHv.
  - apply well_formed_scalar in Ha as [-> ->], Hb as [-> ->]; done.
Qed.

Lemma fields_equal_struct fs fs' :
  wf_fields fs -> wf_fields fs' ->
  logical_type_equal (Struct fs) (Struct fs') = true -> fs = fs'.
Proof.
  intros H H' E. assert (Struct fs = Struct fs') as [= ->]; [|done].
  apply logical_type_equal_eq; [by apply well_formed_struct..|done].
Qed.

(** ** The order of names *)

#[export] Instance name_le_total : Total name_le.
Proof.
  intros a. unfold name_le. induction a as [|x a IH]; intros [|y b]; simpl; auto.
  destruct (N.ltb_spec (N_of_ascii x) (N_of_ascii y)), (N.ltb_spec (N_of_ascii y) (N_of_ascii x)); auto.
Qed.

#[export] Instance name_le_trans : Transitive name_le.
Proof.
  intros a. unfold name_le. induction a as [|x a IH]; intros [|y b] [|z c]; simpl; auto; try done.
  destruct (N.ltb_spec (N_of_ascii x) (N_of_ascii y)), (N.ltb_spec (N_of_ascii y) (N_of_ascii x)),
    (N.ltb_spec (N_of_ascii y) (N_of_ascii z)), (N.ltb_spec (N_of_ascii z) (N_of_ascii y)),
    (N.ltb_spec (N_of_ascii x) (N_of_ascii z)), (N.ltb_spec (N_of_ascii z) (N_of_ascii x));
    try done; try lia. eauto.
Qed.

Lemma N_of_ascii_inj x y : N_of_ascii x = N_of_ascii y -> x = y.
Proof. intros E. rewrite <- (ascii_N_embedding x), <- (ascii_N_embedding y). by rewrite E. Qed.

#[export] Instance name_le_antisymm : AntiSymm (=) name_le.
Proof.
  intros a. unfold name_le. induction a as [|x a IH]; intros [|y b]; simpl; auto; try done.
  destruct (N.ltb_spec (N_of_ascii x) (N_of_ascii y)), (N.ltb_spec (N_of_ascii y) (N_of_ascii x));
    try done; try lia.
  intros. f_equal; [apply N_of_ascii_inj; lia|auto].
Qed.
