(* ===== verification/SchemaEvolution.v ===== *)
(** * Schema evolution against a contract

    Models [cpp/src/planning/schema_evolution.cc]: reconciling an inferred
    schema with a contract under strict or additive evolution, and applying the
    configured field order recursively. *)

From S2P Require Import Prelude LogicalSchema.

Inductive SchemaEvolutionMode : Type := kStrict | kAdditive.
Inductive FieldOrderPolicy : Type := kAlphabetically | kSchemaContractFirst.

(** [sanitize::Result]: a value, or [Status::Invalid] with its message *)
Inductive Result (A : Type) : Type :=
| Value (a : A)
| Invalid (message : name).
Arguments Value {A} a.
Arguments Invalid {A} message.

(** [unordered_map::emplace]: an existing key keeps its value. *)
Definition emplace {A} (m : gmap name A) (n : name) (a : A) : gmap name A :=
  match m !! n with Some _ => m | None => <[n := a]> m end.

(** The first field of each name *)
Definition build_map {A} (l : list (name * A)) : gmap name A :=
  foldl (fun m p => emplace m p.1 p.2) ∅ l.

Definition build_field_map (fs : list LogicalField) : gmap name LogicalField :=
  build_map ((fun f => (fname f, f)) <$> fs).

Definition check_strict_compatible (base inferred : LogicalSchema) : Result unit :=
  match base with
  | [] => Invalid (str "Strict schema evolution requires a non-empty schema_contract")
  | _ =>
      let base_fields := build_field_map base in
      match find (fun f => negb (bool_decide (is_Some (base_fields !! fname f)))) inferred with
      | Some field =>
          Invalid (str "Strict schema evolution: observed extra field '" ++ fname field ++ str "'")
      | None => Value tt
      end
  end.

(** The recursion over nested types is a parameter of the field helpers. *)
Definition merge_field_additive (merge_type : LogicalType -> LogicalType -> LogicalType)
    (base inferred : LogicalField) : LogicalField :=
  match base with
  | MkField n bt b =>
      MkField n match bt, ftype inferred with
                | Some bt, Some it => Some (merge_type bt it)
                | _, _ => bt
                end b
  end.

Definition merge_fields_additive (merge_type : LogicalType -> LogicalType -> LogicalType)
    (base_fields inferred_fields : list LogicalField) : list LogicalField :=
  let base_by_name := build_field_map base_fields in
  let inferred_by_name := build_field_map inferred_fields in
  map (fun base_field =>
         match inferred_by_name !! fname base_field with
         | None => base_field
         | Some inferred => merge_field_additive merge_type base_field inferred
         end) base_fields
  ++ filter (fun field => base_by_name !! fname field = None) inferred_fields.

Fixpoint merge_type_additive (base inferred : LogicalType) {struct base} : LogicalType :=
  match base with
  | MkType kStruct fs v =>
      match kind inferred with
      | kStruct => Struct (merge_fields_additive merge_type_additive fs (fields inferred))
      | _ => base
      end
  | MkType kList fs (Some bv) =>
      match kind inferred, value inferred with
      | kList, Some iv => List (merge_type_additive bv iv)
      | _, _ => base
      end
  | _ => base
  end.

Definition merge_schema_additive (base inferred : LogicalSchema) : LogicalSchema :=
  match base with
  | [] => inferred
  | _ => merge_fields_additive merge_type_additive base inferred
  end.

(** A current field under its name, with the [reorder_field] that applies to it;
    carrying the function keeps the recursion of [reorder_type] structural. *)
Definition current_field : Type := name * (option LogicalType -> LogicalField).

Definition reorder_field (reorder_type : LogicalType -> option LogicalType -> LogicalType)
    (field : LogicalField) (base : option LogicalType) : LogicalField :=
  match field with
  | MkField n (Some t) b => MkField n (Some (reorder_type t base)) b
  | _ => field
  end.

Definition sorted_field_names (current : list current_field) : list name :=
  merge_sort name_le current.*1.

Definition field_type_or_none (base : gmap name LogicalField) (n : name) : option LogicalType :=
  base !! n ≫= ftype.

(** [current_by_name.at(name)] applied to a contract type *)
Definition reorder_at (current_by_name : gmap name (option LogicalType -> LogicalField))
    (n : name) (base : option LogicalType) : list LogicalField :=
  match current_by_name !! n with Some reorder => [reorder base] | None => [] end.

(** Also returns the names it emitted. *)
Definition append_base_ordered_fields
    (current_by_name : gmap name (option LogicalType -> LogicalField))
    (base_struct : LogicalType) : list LogicalField * gset name :=
  foldl (fun '(out, used) base_field =>
           match current_by_name !! fname base_field with
           | None => (out, used)
           | Some reorder => (out ++ [reorder (ftype base_field)], {[fname base_field]} ∪ used)
           end) ([], ∅) (fields base_struct).

Definition append_unused_sorted_fields (current : list current_field)
    (current_by_name : gmap name (option LogicalType -> LogicalField)) (used : gset name)
    : list LogicalField :=
  let extra := merge_sort name_le (filter (fun n => n ∉ used) current.*1) in
  flat_map (fun n => reorder_at current_by_name n None) extra.

Definition append_sorted_fields (current : list current_field)
    (current_by_name : gmap name (option LogicalType -> LogicalField))
    (base_by_name : gmap name LogicalField) : list LogicalField :=
  flat_map (fun n => reorder_at current_by_name n (field_type_or_none base_by_name n))
    (sorted_field_names current).

Definition has_kind (k : LogicalKind) (base : option LogicalType) : option LogicalType :=
  match base with
  | Some b => if decide (kind b = k) then Some b else None
  | None => None
  end.

Definition reorder_struct_fields (order : FieldOrderPolicy) (current : list current_field)
    (base_struct : option LogicalType) : list LogicalField :=
  match order with
  | kSchemaContractFirst =>
      match has_kind kStruct base_struct with
      | None => (fun c => c.2 None) <$> current
      | Some base_struct =>
          let current_by_name := build_map current in
          let '(out, used) := append_base_ordered_fields current_by_name base_struct in
          out ++ append_unused_sorted_fields current current_by_name used
      end
  | kAlphabetically =>
      let current_by_name := build_map current in
      let base_by_name := match has_kind kStruct base_struct with
                          | Some b => build_field_map (fields b)
                          | None => ∅
                          end in
      append_sorted_fields current current_by_name base_by_name
  end.

Fixpoint reorder_type (order : FieldOrderPolicy) (current : LogicalType)
    (base : option LogicalType) {struct current} : LogicalType :=
  match current with
  | MkType kStruct fs _ =>
      Struct (reorder_struct_fields order
                (map (fun f => (fname f, reorder_field (reorder_type order) f)) fs) base)
  | MkType kList _ v =>
      let base_value := has_kind kList base ≫= value in
      MkType kList [] match v with
                      | Some t => Some (reorder_type order t base_value)
                      | None => None
                      end
  | _ => current
  end.

Definition current_fields (order : FieldOrderPolicy) (fs : list LogicalField) : list current_field :=
  map (fun f => (fname f, reorder_field (reorder_type order) f)) fs.

Definition reorder_schema_fields (schema : LogicalSchema) (base : option LogicalSchema)
    (order : FieldOrderPolicy) : LogicalSchema :=
  match schema with
  | [] => schema
  | _ =>
      let base_root := match base with
                       | Some (f :: fs) => Some (Struct (f :: fs))
                       | _ => None
                       end in
      reorder_struct_fields order (current_fields order schema) base_root
  end.

Definition evolve_schema (base inferred : LogicalSchema) (mode : SchemaEvolutionMode)
    (order : FieldOrderPolicy) : Result LogicalSchema :=
  let reorder merged :=
    Value (reorder_schema_fields merged match base with [] => None | _ => Some base end order) in
  match mode with
  | kStrict =>
      match check_strict_compatible base inferred with
      | Invalid m => Invalid m
      | Value _ =>
          match order with
          | kSchemaContractFirst => Value base
          | kAlphabetically => reorder base
          end
      end
  | kAdditive => reorder (merge_schema_additive base inferred)
  end.

(** ** Name indexes *)

Lemma build_map_list_to_map {A} (l : list (name * A)) : build_map l = list_to_map l.
Proof.
  unfold build_map.
  assert (forall m : gmap name A, foldl (fun m p => emplace m p.1 p.2) m l = m ∪ list_to_map l) as H.
  { induction l as [|[n a] l IH]; intros m; simpl; [by rewrite map_union_empty|].
    rewrite IH. unfold emplace. destruct (m !! n) eqn:E.
    - rewrite insert_union_singleton_l, assoc by apply _. f_equal.
      apply map_eq. intros j. destruct (decide (j = n)) as [->|].
      + rewrite E. symmetry. by apply lookup_union_Some_l.
      + by rewrite lookup_union_l by (by apply lookup_singleton_ne).
    - by rewrite <- insert_union_l, <- insert_union_r. }
  rewrite H. apply map_empty_union.
Qed.

Lemma build_map_Some {A} (l : list (name * A)) n a :
  NoDup l.*1 -> build_map l !! n = Some a <-> (n, a) ∈ l.
Proof. intros. rewrite build_map_list_to_map. symmetry. by apply elem_of_list_to_map. Qed.

Lemma build_map_None {A} (l : list (name * A)) n : build_map l !! n = None <-> n ∉ l.*1.
Proof. rewrite build_map_list_to_map. symmetry. apply not_elem_of_list_to_map. Qed.

Lemma field_map_keys fs : ((fun f => (fname f, f)) <$> fs).*1 = field_names fs.
Proof. rewrite <- list_fmap_compose. done. Qed.

Lemma field_map_Some fs n f :
  NoDup (field_names fs) -> build_field_map fs !! n = Some f <-> f ∈ fs /\ fname f = n.
Proof.
  intros Hnd. unfold build_field_map. rewrite build_map_Some by (by rewrite field_map_keys).
  rewrite list_elem_of_fmap. split.
  - intros (g & [= -> ->] & Hg). done.
  - intros [Hf <-]. eauto.
Qed.

Lemma field_map_Some_1 fs n f : build_field_map fs !! n = Some f -> f ∈ fs /\ fname f = n.
Proof.
  unfold build_field_map. rewrite build_map_list_to_map. intros H%elem_of_list_to_map_2.
  apply list_elem_of_fmap in H as (g & [= -> ->] & Hg). done.
Qed.

Lemma field_map_None fs n : build_field_map fs !! n = None <-> n ∉ field_names fs.
Proof. unfold build_field_map. by rewrite build_map_None, field_map_keys. Qed.

(** Fields with distinct names are determined by their names. *)
Lemma field_inj fs f g :
  NoDup (field_names fs) -> f ∈ fs -> g ∈ fs -> fname f = fname g -> f = g.
Proof.
  intros Hnd Hf Hg E.
  assert (build_field_map fs !! fname f = Some f) as E1 by (by apply field_map_Some).
  assert (build_field_map fs !! fname f = Some g) as E2 by (by apply field_map_Some).
  congruence.
Qed.

(** ** Additive merging *)

Lemma merge_field_name m b i : fname (merge_field_additive m b i) = fname b.
Proof. by destruct b. Qed.

Lemma merge_fields_names m bs ins :
  field_names (merge_fields_additive m bs ins)
  = field_names bs ++ filter (fun n => n ∉ field_names bs) (field_names ins).
Proof.
  unfold merge_fields_additive, field_names. rewrite fmap_app. f_equal.
  - rewrite <- list_fmap_compose. apply list_fmap_ext. intros i f _. simpl.
    case_match; [apply merge_field_name|done].
  - rewrite (list_filter_iff _ (fun f => fname f ∉ field_names bs)) by (intros; apply field_map_None).
    induction ins as [|f ins IH]; [done|]. rewrite fmap_cons.
    destruct (decide (fname f ∉ field_names bs)).
    + rewrite !filter_cons_True by done. rewrite fmap_cons. by rewrite IH.
    + by rewrite !filter_cons_False by done.
Qed.

Lemma merge_fields_wf m bs ins :
  wf_fields bs -> wf_fields ins ->
  (forall f t t', f ∈ bs -> ftype f = Some t -> well_formed t' -> well_formed (m t t')) ->
  wf_fields (merge_fields_additive m bs ins).
Proof.
  intros [Hnb Hb] [Hni Hi] Hm. split.
  - rewrite merge_fields_names. apply NoDup_app. split_and!; [done| |by apply NoDup_filter].
    intros n Hn [? _]%list_elem_of_filter. done.
  - apply Forall_app. split.
    + apply Forall_map, Forall_forall. intros f Hf. rewrite Forall_forall in Hb, Hi.
      case_match eqn:E; [|by apply Hb]. apply field_map_Some_1 in E as [Hf0 _].
      specialize (Hb f Hf). specialize (Hi _ Hf0). destruct f as [n [bt|] b]; unfold wf_field in *; simpl in *; [|done].
      destruct (ftype l) as [it|]; [|done]. by apply (Hm (MkField n (Some bt) b)).
    + rewrite Forall_forall in *. intros f [_ Hf]%list_elem_of_filter. by apply Hi.
Qed.

Lemma merge_type_wf b i : well_formed b -> well_formed i -> well_formed (merge_type_additive b i).
Proof.
  revert i. type_induction b. intros i Hb Hi.
  destruct (decide (k = kStruct)) as [->|Hns]; [|destruct (decide (k = kList)) as [->|Hnl]].
  - cbn [merge_type_additive]. destruct (kind i) eqn:Ek; try done.
    apply well_formed_struct in Hb as [-> Hb]. destruct i as [? ifs iv]; simpl in Ek; subst.
    apply well_formed_struct in Hi as [-> Hi]. apply well_formed_struct. split; [done|].
    apply merge_fields_wf; [done..|]. intros f t t' Hf Ht Hwf.
    rewrite Forall_forall in IHfs. apply (IHfs f Hf); [done| |done].
    destruct Hb as [_ Hb]. rewrite Forall_forall in Hb. specialize (Hb f Hf).
    unfold wf_field in Hb. by rewrite Ht in Hb.
  - destruct v as [bv|]; [|done]. simpl. destruct i as [[] ifs [iv|]]; try done.
    apply well_formed_list in Hb as [-> Hb], Hi as [-> Hi]. apply well_formed_list. auto.
  - by destruct k.
Qed.

(** ** Reordering as a plan

    The order in which [reorder_struct_fields] emits the current fields, each
    with the contract type it is reordered against. *)
Definition plan (order : FieldOrderPolicy) (ns : list name) (base : option LogicalType)
    : list (name * option LogicalType) :=
  match order, has_kind kStruct base with
  | kSchemaContractFirst, None => (fun n => (n, None)) <$> ns
  | kSchemaContractFirst, Some b =>
      ((fun f => (fname f, ftype f)) <$> filter (fun f => fname f ∈ ns) (fields b))
      ++ ((fun n => (n, None)) <$> merge_sort name_le (filter (fun n => n ∉ field_names (fields b)) ns))
  | kAlphabetically, b =>
      (fun n => (n, match b with
                    | Some b => field_type_or_none (build_field_map (fields b)) n
                    | None => None
                    end)) <$> merge_sort name_le ns
  end.

(** A contract whose structs name each field once *)
Definition wf_base (base : option LogicalType) : Prop :=
  match base with Some b => well_formed b | None => True end.

Lemma has_kind_Some k base b : has_kind k base = Some b -> base = Some b /\ kind b = k.
Proof. destruct base as [t|]; simpl; [|done]. case_decide; [|done]. by intros [= ->]. Qed.

Lemma wf_base_fields base b :
  wf_base base -> has_kind kStruct base = Some b -> wf_fields (fields b).
Proof.
  intros Hwf [-> Hk]%has_kind_Some. destruct b as [k fs v]; simpl in *. subst.
  by apply well_formed_struct in Hwf as [_ ?].
Qed.

Lemma plan_names order ns base :
  NoDup ns -> wf_base base -> (plan order ns base).*1 ≡ₚ ns.
Proof.
  intros Hns Hb. unfold plan. destruct order.
  - rewrite <- list_fmap_compose. simpl. rewrite list_fmap_id. apply merge_sort_Permutation.
  - destruct (has_kind kStruct base) as [b|] eqn:Eb.
    2:{ rewrite <- list_fmap_compose. simpl. by rewrite list_fmap_id. }
    destruct (wf_base_fields _ _ Hb Eb) as [Hnd _].
    rewrite fmap_app, <- !list_fmap_compose. simpl. rewrite list_fmap_id, merge_sort_Permutation.
    apply NoDup_Permutation; [|done|].
    + apply NoDup_app. split_and!.
      * change (compose _ _) with fname.
        eapply sublist_NoDup; [exact Hnd|]. apply fmap_sublist, sublist_filter.
      * intros n (f & -> & [? ?]%list_elem_of_filter)%list_elem_of_fmap [Hn _]%list_elem_of_filter.
        apply Hn, elem_of_field_names. eauto.
      * by apply NoDup_filter.
    + intros n. rewrite elem_of_app, list_elem_of_fmap. setoid_rewrite list_elem_of_filter. split.
      * intros [(f & -> & ? & ?)|[? ?]]; done.
      * intros Hn. destruct (decide (n ∈ field_names (fields b))) as [Hin|]; [left|by right].
        apply elem_of_field_names in Hin as (f & ? & <-). eauto.
Qed.

(** The emitted fields, given the current fields *)
Definition planned (order : FieldOrderPolicy) (fs : list LogicalField) (p : name * option LogicalType)
    : list LogicalField :=
  match build_field_map fs !! p.1 with
  | Some f => [reorder_field (reorder_type order) f p.2]
  | None => []
  end.

Lemma current_fields_map order fs :
  build_map (current_fields order fs)
  = (fun f => reorder_field (reorder_type order) f) <$> build_field_map fs.
Proof.
  unfold build_field_map, current_fields. rewrite !build_map_list_to_map, <- list_to_map_fmap.
  f_equal. induction fs as [|f fs IH]; simpl; f_equal; auto.
Qed.

Lemma current_fields_names order fs : (current_fields order fs).*1 = field_names fs.
Proof. unfold current_fields, field_names. rewrite <- list_fmap_compose. done. Qed.

Lemma reorder_at_planned order fs n b :
  reorder_at (build_map (current_fields order fs)) n b = planned order fs (n, b).
Proof.
  unfold reorder_at, planned. rewrite current_fields_map, lookup_fmap. simpl.
  by destruct (build_field_map fs !! n).
Qed.

(** The loop over the contract emits the planned prefix and marks its names. *)
Lemma append_base_ordered_spec order fs b :
  append_base_ordered_fields (build_map (current_fields order fs)) b
  = (flat_map (planned order fs) ((fun f => (fname f, ftype f)) <$> filter (fun f => fname f ∈ field_names fs) (fields b)),
     list_to_set (field_names (filter (fun f => fname f ∈ field_names fs) (fields b)))).
Proof.
  unfold append_base_ordered_fields. induction (fields b) as [|f bs IH] using rev_ind; [done|].
  rewrite foldl_snoc, IH, filter_app. rewrite current_fields_map, lookup_fmap.
  destruct (build_field_map fs !! fname f) as [g|] eqn:E; simpl.
  - assert (fname f ∈ field_names fs) as Hin.
    { apply field_map_Some_1 in E as [? <-]. apply elem_of_field_names. eauto. }
    rewrite filter_cons_True, filter_nil by done. f_equal.
    + rewrite fmap_app, flat_map_app. simpl. unfold planned at 3. simpl. by rewrite E.
    + unfold field_names. rewrite fmap_app, list_to_set_app_L. simpl. set_solver.
  - assert (fname f ∉ field_names fs) as Hnin by (by apply field_map_None).
    rewrite filter_cons_False, filter_nil, app_nil_r by done. done.
Qed.

Lemma flat_map_planned order fs ns b :
  flat_map (fun n => reorder_at (build_map (current_fields order fs)) n (b n)) ns
  = flat_map (planned order fs) ((fun n => (n, b n)) <$> ns).
Proof. induction ns as [|n ns IH]; simpl; [done|]. by rewrite reorder_at_planned, IH. Qed.

Lemma reorder_fields_plan order fs base :
  NoDup (field_names fs) ->
  reorder_struct_fields order (current_fields order fs) base
  = flat_map (planned order fs) (plan order (field_names fs) base).
Proof.
  intros Hnd. unfold reorder_struct_fields, plan. destruct order.
  - unfold append_sorted_fields, sorted_field_names. rewrite current_fields_names.
    rewrite flat_map_planned. f_equal. apply list_fmap_ext. intros i n _.
    by destruct (has_kind kStruct base).
  - destruct (has_kind kStruct base) as [b|].
    + rewrite append_base_ordered_spec, flat_map_app. f_equal.
      unfold append_unused_sorted_fields. rewrite flat_map_planned, current_fields_names.
      do 3 f_equal. apply filter_ext_elem. intros n Hn.
      rewrite elem_of_list_to_set, !elem_of_field_names. setoid_rewrite list_elem_of_filter.
      split; intros H (f & Hf & <-); apply H; exists f; tauto.
    + assert (forall gs, gs ⊆ fs -> map (fun c : current_field => c.2 None) (current_fields kSchemaContractFirst gs)
        = flat_map (planned kSchemaContractFirst fs) ((fun n => (n, None)) <$> field_names gs)) as H.
      { induction gs as [|g gs IH]; intros Hsub; [done|]. simpl. rewrite IH by set_solver.
        unfold planned at 2. simpl.
        assert (build_field_map fs !! fname g = Some g) as -> by (apply field_map_Some; set_solver).
        done. }
      by apply H.
Qed.

(** What a planned field is, once the names are known to be distinct *)
Lemma planned_field order fs n b f :
  NoDup (field_names fs) -> f ∈ fs -> fname f = n ->
  planned order fs (n, b) = [reorder_field (reorder_type order) f b].
Proof.
  intros Hnd Hf En. unfold planned. simpl.
  assert (build_field_map fs !! n = Some f) as -> by (by apply field_map_Some). done.
Qed.

Lemma reorder_field_name r f b : fname (reorder_field r f b) = fname f.
Proof. by destruct f as [n [t|] nb]. Qed.

Lemma flat_map_planned_names order fs pl :
  NoDup (field_names fs) -> (forall p, p ∈ pl -> p.1 ∈ field_names fs) ->
  field_names (flat_map (planned order fs) pl) = pl.*1.
Proof.
  intros Hnd. induction pl as [|[n b] pl IH]; intros Hin; [done|]. simpl.
  assert (n ∈ field_names fs) as (f & Hf & En)%elem_of_field_names by (apply (Hin (n, b)); left).
  rewrite (planned_field order fs n b f Hnd Hf En). simpl. unfold field_names in *. simpl.
  rewrite reorder_field_name, En, IH; [done|]. intros p Hp. apply Hin. by right.
Qed.

(** The names are emitted in the order of the plan. *)
Lemma reorder_fields_names order fs base :
  NoDup (field_names fs) -> wf_base base ->
  field_names (reorder_struct_fields order (current_fields order fs) base)
  = (plan order (field_names fs) base).*1.
Proof.
  intros Hnd Hb. rewrite reorder_fields_plan by done. apply flat_map_planned_names; [done|].
  intros p Hp. rewrite <- (plan_names order (field_names fs) base) by done. by apply list_elem_of_fmap_2.
Qed.

(** Every emitted field is a current field, reordered, and every one is emitted. *)
Lemma reorder_fields_elem order fs base g :
  NoDup (field_names fs) -> wf_base base ->
  g ∈ reorder_struct_fields order (current_fields order fs) base <->
  exists f b, f ∈ fs /\ (fname f, b) ∈ plan order (field_names fs) base /\
    g = reorder_field (reorder_type order) f b.
Proof.
  intros Hnd Hb. rewrite reorder_fields_plan by done. rewrite list_elem_of_In, in_flat_map. split.
  - intros ([n b] & Hp%list_elem_of_In & Hg%list_elem_of_In).
    assert (n ∈ field_names fs) as Hn.
    { rewrite <- (plan_names order (field_names fs) base) by done. by apply (list_elem_of_fmap_2 fst _ (n, b)). }
    apply elem_of_field_names in Hn as (f & Hf & <-).
    rewrite (planned_field order fs _ b f Hnd Hf eq_refl) in Hg. apply list_elem_of_singleton in Hg. eauto.
  - intros (f & b & Hf & Hp & ->). exists (fname f, b). split; [by apply list_elem_of_In|].
    apply list_elem_of_In. rewrite (planned_field order fs _ b f Hnd Hf eq_refl). by left.
Qed.

(** The contract type that a plan pairs with a name comes from the contract. *)
Lemma plan_base order ns base n b :
  wf_base base -> (n, b) ∈ plan order ns base -> wf_base b.
Proof.
  intros Hwf. unfold plan. intros Hp.
  assert (forall bt f, has_kind kStruct base = Some bt -> f ∈ fields bt -> wf_base (ftype f)) as Hfield.
  { intros bt f Ebt Hf. destruct (wf_base_fields _ _ Hwf Ebt) as [_ Hall].
    rewrite Forall_forall in Hall. exact (Hall f Hf). }
  destruct order.
  - apply list_elem_of_fmap in Hp as (n' & [= -> ->] & _).
    destruct (has_kind kStruct base) as [bt|] eqn:Ebt; [|done].
    unfold field_type_or_none. destruct (build_field_map (fields bt) !! n') as [f|] eqn:Ef; simpl; [|done].
    apply field_map_Some_1 in Ef as [Hf _]. by eapply Hfield.
  - destruct (has_kind kStruct base) as [bt|] eqn:Ebt.
    + apply elem_of_app in Hp as [Hp|Hp]; apply list_elem_of_fmap in Hp as (x & [= -> ->] & Hx); [|done].
      apply list_elem_of_filter in Hx as [_ Hx]. by eapply Hfield.
    + by apply list_elem_of_fmap in Hp as (n' & [= -> ->] & _).
Qed.

(** *** Reordering is recursive on well-formed types. *)

Lemma wf_field_type fs f t : ftype f = Some t -> f ∈ fs -> wf_fields fs -> well_formed t.
Proof.
  intros E Hf [_ H]. rewrite Forall_forall in H. specialize (H f Hf). unfold wf_field in H. by rewrite E in H.
Qed.

Lemma wf_base_value base : wf_base base -> wf_base (has_kind kList base ≫= value).
Proof.
  intros Hb. destruct (has_kind kList base) as [b|] eqn:E; simpl; [|done].
  apply has_kind_Some in E as [-> Ek]. destruct b as [k fs v]; simpl in *. subst.
  by apply well_formed_list in Hb as [_ ?].
Qed.

Lemma reorder_struct order fs v base :
  reorder_type order (MkType kStruct fs v) base
  = Struct (reorder_struct_fields order (current_fields order fs) base).
Proof. done. Qed.

Lemma reorder_fields_wf order fs base :
  wf_fields fs -> wf_base base ->
  (forall f t b, f ∈ fs -> ftype f = Some t -> wf_base b -> well_formed (reorder_type order t b)) ->
  wf_fields (reorder_struct_fields order (current_fields order fs) base).
Proof.
  intros [Hnd Hf] Hb Hrec. split.
  - rewrite reorder_fields_names, plan_names by done. done.
  - apply Forall_forall. intros g (f & b & Hin & Hp & ->)%reorder_fields_elem; [|done|done].
    destruct f as [n [t|] nb]; unfold wf_field; simpl; [|done].
    eapply (Hrec (MkField n (Some t) nb)); [done|done|]. by eapply plan_base.
Qed.

Lemma reorder_type_wf order t base :
  well_formed t -> wf_base base -> well_formed (reorder_type order t base).
Proof.
  revert base. type_induction t. intros base Ht Hb.
  destruct (decide (k = kStruct)) as [->|Hns]; [|destruct (decide (k = kList)) as [->|Hnl]].
  - apply well_formed_struct in Ht as [-> Ht]. rewrite reorder_struct. apply well_formed_struct.
    split; [done|]. apply reorder_fields_wf; [done..|]. intros f t b Hf Et Hwb.
    rewrite Forall_forall in IHfs. apply (IHfs f Hf); [done| |done]. by eapply wf_field_type.
  - apply well_formed_list in Ht as [-> Ht]. apply well_formed_list. split; [done|].
    destruct v as [t|]; [|done]. apply IHv; [done|done|]. by apply wf_base_value.
  - by destruct k.
Qed.

(** ** A type that holds at least what another one holds, whatever the order of
    its fields *)
Inductive covers : LogicalType -> LogicalType -> Prop :=
| covers_scalar k fs v : k <> kStruct -> k <> kList -> covers (MkType k fs v) (MkType k fs v)
| covers_struct fs v fs' v' :
    (forall f, f ∈ fs -> exists f', f' ∈ fs' /\ fname f' = fname f /\ nullable f' = nullable f /\
       ((ftype f = None /\ ftype f' = None) \/
        exists t t', ftype f = Some t /\ ftype f' = Some t' /\ covers t t')) ->
    covers (MkType kStruct fs v) (MkType kStruct fs' v')
| covers_list fs v fs' v' :
    ((v = None /\ v' = None) \/ exists t t', v = Some t /\ v' = Some t' /\ covers t t') ->
    covers (MkType kList fs v) (MkType kList fs' v').

Definition covers_field (f f' : LogicalField) : Prop :=
  fname f' = fname f /\ nullable f' = nullable f /\
  ((ftype f = None /\ ftype f' = None) \/
   exists t t', ftype f = Some t /\ ftype f' = Some t' /\ covers t t').

(** Each field of the first list has a covering field of the same name in the second. *)
Definition covers_fields (fs fs' : list LogicalField) : Prop :=
  forall f, f ∈ fs -> exists f', f' ∈ fs' /\ covers_field f f'.

Lemma covers_fields_struct fs v fs' v' :
  covers_fields fs fs' <-> covers (MkType kStruct fs v) (MkType kStruct fs' v').
Proof.
  split.
  - intros H. apply covers_struct. intros f Hf. destruct (H f Hf) as (f' & ? & ? & ? & ?). eauto.
  - inversion 1 as [|? ? ? ? Hc|]; subst; [done|]. intros f Hf. destruct (Hc f Hf) as (f' & ? & ? & ? & ?).
    exists f'. by split.
Qed.

Lemma covers_refl t : covers t t.
Proof.
  type_induction t.
  destruct (decide (k = kStruct)) as [->|Hns]; [|destruct (decide (k = kList)) as [->|Hnl]].
  - apply covers_fields_struct. intros f Hf. exists f. split; [done|]. split_and!; [done|done|].
    rewrite Forall_forall in IHfs. destruct (ftype f) as [t|] eqn:E; [right|by left].
    exists t, t. split_and!; auto. by apply (IHfs f).
  - apply covers_list. destruct v as [t|]; [right|by left]. exists t, t. split_and!; auto.
  - by apply covers_scalar.
Qed.

Lemma covers_trans t1 t2 t3 : covers t1 t2 -> covers t2 t3 -> covers t1 t3.
Proof.
  revert t2 t3. type_induction t1. intros t2 t3 H12.
  inversion H12 as [? ? ? Hs Hl|? ? fs2 v2 H2|? ? fs2 v2 H2]; subst; [done| |].
  - inversion 1 as [|? ? fs3 v3 H3|]; subst; [done|]. apply covers_struct. intros f Hf.
    rewrite Forall_forall in IHfs.
    destruct (H2 f Hf) as (f2 & Hf2 & En2 & Eb2 & Ht2), (H3 f2 Hf2) as (f3 & Hf3 & En3 & Eb3 & Ht3).
    exists f3. split_and!; [done|congruence|congruence|].
    destruct Ht2 as [[E1 E2]|(t & t' & E1 & E2 & Hc)], Ht3 as [[E3 E4]|(u & u' & E3 & E4 & Hc')]; try congruence; auto.
    right. exists t, u'. split_and!; auto. assert (u = t') as -> by congruence. by eapply (IHfs f).
  - inversion 1 as [| |? ? fs3 v3 H3]; subst; [done|]. apply covers_list.
    destruct H2 as [[-> ->]|(t & t' & -> & -> & Hc)], H3 as [[? ?]|(u & u' & E3 & E4 & Hc')]; try congruence; auto.
    right. exists t, u'. split_and!; auto. assert (u = t') as -> by congruence. by eapply IHv.
Qed.

Lemma merge_covers b i : covers b (merge_type_additive b i).
Proof.
  revert i. type_induction b. intros i.
  destruct (decide (k = kStruct)) as [->|Hns]; [|destruct (decide (k = kList)) as [->|Hnl]].
  - cbn [merge_type_additive]. destruct (kind i); try apply covers_refl.
    apply covers_fields_struct. intros f Hf.
    rewrite Forall_forall in IHfs. specialize (IHfs f Hf).
    eexists. split.
    { apply elem_of_app. left. apply list_elem_of_fmap_2 with (x := f). exact Hf. }
    case_match; [|split_and!; auto; destruct (ftype f) eqn:E; [right|by left]; do 2 eexists;
      split_and!; [done|done|apply covers_refl]].
    destruct f as [n [bt|] nb]; simpl; (split_and!; [done|done|]); [right|by left].
    destruct (ftype l) as [it|]; (eexists _, _; split_and!; [done|done|]); [by apply IHfs|apply covers_refl].
  - destruct v as [bv|]; [|apply covers_refl]. simpl.
    destruct (kind i); try apply covers_refl. destruct (value i); [|apply covers_refl].
    apply covers_list. right. eauto 6.
  - destruct k; try done; apply covers_refl.
Qed.

Lemma reorder_fields_covers order fs base :
  wf_fields fs -> wf_base base ->
  (forall f t b, f ∈ fs -> ftype f = Some t -> wf_base b -> covers t (reorder_type order t b)) ->
  covers_fields fs (reorder_struct_fields order (current_fields order fs) base).
Proof.
  intros [Hnd _] Hb Hrec f Hf.
  assert (fname f ∈ (plan order (field_names fs) base).*1) as ([n b] & En & Hp)%list_elem_of_fmap.
  { rewrite plan_names by done. apply elem_of_field_names. eauto. }
  simpl in En. subst n. exists (reorder_field (reorder_type order) f b). split.
  - apply reorder_fields_elem; eauto.
  - destruct f as [n [t|] nb]; simpl; (split_and!; [done|done|]); [right|by left].
    eexists _, _. split_and!; [done|done|]. apply (Hrec (MkField n (Some t) nb)); [done|done|].
    by eapply plan_base.
Qed.

Lemma reorder_covers order t base :
  well_formed t -> wf_base base -> covers t (reorder_type order t base).
Proof.
  revert base. type_induction t. intros base Ht Hb.
  destruct (decide (k = kStruct)) as [->|Hns]; [|destruct (decide (k = kList)) as [->|Hnl]].
  - apply well_formed_struct in Ht as [-> Ht]. rewrite reorder_struct.
    apply covers_fields_struct, reorder_fields_covers; [done..|]. intros f t b Hf Et Hwb.
    rewrite Forall_forall in IHfs. apply (IHfs f Hf); [done| |done]. by eapply wf_field_type.
  - apply well_formed_list in Ht as [-> Ht]. apply covers_list. destruct v as [t|]; [right|by left].
    eexists _, _. split_and!; [done|done|]. apply IHv; [done|done|]. by apply wf_base_value.
  - destruct k; try done; apply covers_refl.
Qed.

(** ** A type that an observation adds nothing to *)
Inductive absorbs : LogicalType -> LogicalType -> Prop :=
| absorbs_other t i :
    ~ (kind t = kStruct /\ kind i = kStruct) -> ~ (kind t = kList /\ kind i = kList) -> absorbs t i
| absorbs_struct fs v ifs iv :
    (forall g, g ∈ ifs -> fname g ∈ field_names fs) ->
    (forall f g a b, f ∈ fs -> g ∈ ifs -> fname f = fname g -> ftype f = Some a -> ftype g = Some b ->
       absorbs a b) ->
    absorbs (MkType kStruct fs v) (MkType kStruct ifs iv)
| absorbs_list fs v ifs iv :
    (forall a b, v = Some a -> iv = Some b -> absorbs a b) ->
    absorbs (MkType kList fs v) (MkType kList ifs iv).

Definition absorbs_fields (fs ifs : list LogicalField) : Prop :=
  (forall g, g ∈ ifs -> fname g ∈ field_names fs) /\
  (forall f g a b, f ∈ fs -> g ∈ ifs -> fname f = fname g -> ftype f = Some a -> ftype g = Some b ->
     absorbs a b).

Lemma absorbs_fields_struct fs v ifs iv :
  absorbs_fields fs ifs <-> absorbs (MkType kStruct fs v) (MkType kStruct ifs iv).
Proof.
  split.
  - intros [H1 H2]. by apply absorbs_struct.
  - inversion 1; subst; [|by split]. simpl in *. tauto.
Qed.

Lemma merge_fields_absorbed m fs ifs :
  (forall g, g ∈ ifs -> fname g ∈ field_names fs) ->
  (forall f g a b, f ∈ fs -> g ∈ ifs -> fname f = fname g -> ftype f = Some a -> ftype g = Some b ->
     m a b = a) ->
  merge_fields_additive m fs ifs = fs.
Proof.
  intros Hin Hm. unfold merge_fields_additive. rewrite filter_none.
  2:{ intros g Hg Hn%field_map_None. by apply Hn, Hin. }
  rewrite app_nil_r. etrans; [|apply map_id]. apply map_ext_in. intros f Hf%list_elem_of_In.
  case_match eqn:E; [|done]. apply field_map_Some_1 in E as [Hg En].
  destruct f as [n [a|] nb]; simpl in *; [|done].
  destruct (ftype l) as [b|] eqn:Eb; [|done]. do 2 f_equal.
  by apply (Hm (MkField n (Some a) nb) l).
Qed.

Lemma absorbs_merge t i : well_formed t -> absorbs t i -> merge_type_additive t i = t.
Proof.
  revert i. type_induction t. intros i Ht Ha.
  destruct (decide (k = kStruct)) as [->|Hns]; [|destruct (decide (k = kList)) as [->|Hnl]].
  - apply well_formed_struct in Ht as [-> Ht]. cbn [merge_type_additive].
    destruct i as [[] ifs iv]; try done. cbn [kind fields].
    apply absorbs_fields_struct in Ha as [Hin Hrec]. unfold Struct. f_equal.
    apply merge_fields_absorbed; [done|]. intros f g a b Hf Hg En Ea Eb.
    rewrite Forall_forall in IHfs. apply (IHfs f Hf); [done| |by eapply Hrec]. by eapply wf_field_type.
  - apply well_formed_list in Ht as [-> Ht]. destruct v as [a|]; [|done].
    simpl. destruct i as [[] ifs [b|]]; try done. unfold List. simpl. do 2 f_equal.
    apply IHv; [done|done|]. inversion Ha as [| |? ? ? ? H]; subst; [simpl in *; tauto|]. by apply H.
  - by destruct k.
Qed.

Lemma absorbs_refl t : well_formed t -> absorbs t t.
Proof.
  type_induction t. intros Ht.
  destruct (decide (k = kStruct)) as [->|Hns]; [|destruct (decide (k = kList)) as [->|Hnl]].
  - apply well_formed_struct in Ht as [-> Ht]. apply absorbs_fields_struct. split.
    + intros g Hg. apply elem_of_field_names. eauto.
    + intros f g a b Hf Hg En Ea Eb.
      assert (f = g) as -> by (eapply field_inj; eauto; apply Ht). simplify_eq.
      rewrite Forall_forall in IHfs. apply (IHfs g Hf); [done|]. by eapply wf_field_type.
  - apply well_formed_list in Ht as [-> Ht]. apply absorbs_list. intros a b -> [= <-]. by apply IHv.
  - apply absorbs_other; simpl; tauto.
Qed.

Lemma merge_fields_absorbs fs ifs :
  wf_fields ifs ->
  (forall f a b, f ∈ fs -> ftype f = Some a -> well_formed b -> absorbs (merge_type_additive a b) b) ->
  absorbs_fields (merge_fields_additive merge_type_additive fs ifs) ifs.
Proof.
  intros Hi Hrec. split.
  - intros g Hg. rewrite merge_fields_names, elem_of_app.
    destruct (decide (fname g ∈ field_names fs)) as [?|Hn]; [by left|right].
    apply list_elem_of_filter. split; [done|]. apply elem_of_field_names. eauto.
  - intros f g a b Hf Hg En Ea Eb. apply elem_of_app in Hf as [Hf|Hf].
    + apply list_elem_of_fmap in Hf as (f0 & -> & Hf0).
      destruct (build_field_map ifs !! fname f0) as [g'|] eqn:E.
      * apply field_map_Some_1 in E as [Hg' En']. rewrite merge_field_name in En.
        assert (g' = g) as -> by (eapply field_inj; eauto; [apply Hi|congruence]).
        destruct f0 as [n [a0|] nb]; simpl in Ea; [|done]. rewrite Eb in Ea. injection Ea as <-.
        apply (Hrec (MkField n (Some a0) nb)); [done|done|]. by eapply wf_field_type.
      * apply field_map_None in E as []. rewrite En. apply elem_of_field_names. eauto.
    + apply list_elem_of_filter in Hf as [_ Hf].
      assert (f = g) as -> by (eapply field_inj; eauto; apply Hi). simplify_eq.
      apply absorbs_refl. by eapply wf_field_type.
Qed.

Lemma merge_absorbs t i : well_formed i -> absorbs (merge_type_additive t i) i.
Proof.
  revert i. type_induction t. intros i Hi.
  destruct (decide (k = kStruct)) as [->|Hns]; [|destruct (decide (k = kList)) as [->|Hnl]].
  - cbn [merge_type_additive]. destruct i as [[] ifs iv]; try by apply absorbs_other; simpl; intros [? ?].
    cbn [kind fields]. apply well_formed_struct in Hi as [-> Hi]. apply absorbs_fields_struct.
    apply merge_fields_absorbs; [done|]. intros f a b Hf Ea Hb.
    rewrite Forall_forall in IHfs. by apply (IHfs f Hf).
  - destruct i as [[] ifs iv]; try by (destruct v; apply absorbs_other; simpl; intros [? ?]).
    destruct v as [a|]; simpl; [|by apply absorbs_list].
    destruct iv as [b|]; apply absorbs_list; [|done]. intros a' b' [= <-] [= <-].
    apply IHv; [done|]. by apply well_formed_list in Hi as [_ ?].
  - apply absorbs_other; destruct k; simpl; intros [? ?]; done.
Qed.

Lemma reorder_fields_absorbs order fs base ifs :
  NoDup (field_names fs) -> wf_base base -> absorbs_fields fs ifs ->
  (forall f g a b bt, f ∈ fs -> g ∈ ifs -> fname f = fname g -> ftype f = Some a -> ftype g = Some b ->
     wf_base bt -> absorbs (reorder_type order a bt) b) ->
  absorbs_fields (reorder_struct_fields order (current_fields order fs) base) ifs.
Proof.
  intros Hnd Hb [Hin _] Hrec. split.
  - intros g Hg. rewrite reorder_fields_names, plan_names by done. auto.
  - intros f g a b (f0 & bt & Hf0 & Hp & ->)%reorder_fields_elem Hg En Ea Eb; [|done|done].
    rewrite reorder_field_name in En. destruct f0 as [n [a0|] nb]; simpl in Ea; [|done].
    injection Ea as <-. eapply (Hrec (MkField n (Some a0) nb)); eauto. by eapply plan_base.
Qed.

Lemma reorder_absorbs order t base i :
  well_formed t -> wf_base base -> absorbs t i -> absorbs (reorder_type order t base) i.
Proof.
  revert base i. type_induction t. intros base i Ht Hb Ha.
  destruct (decide (k = kStruct)) as [->|Hns]; [|destruct (decide (k = kList)) as [->|Hnl]].
  - apply well_formed_struct in Ht as [-> Ht]. rewrite reorder_struct.
    destruct i as [[] ifs iv]; try by apply absorbs_other; simpl; intros [? ?].
    apply absorbs_fields_struct in Ha. apply absorbs_fields_struct.
    apply reorder_fields_absorbs; [apply Ht|done|done|]. intros f g a b bt Hf Hg En Ea Eb Hbt.
    rewrite Forall_forall in IHfs. apply (IHfs f Hf); [done| |done|by eapply Ha]. by eapply wf_field_type.
  - apply well_formed_list in Ht as [-> Ht].
    destruct i as [[] ifs iv]; try by apply absorbs_other; simpl; intros [? ?].
    apply absorbs_list. intros a b Ea ->. destruct v as [a0|]; [|done]. injection Ea as <-.
    apply IHv; [done|done|by apply wf_base_value|].
    inversion Ha as [| |? ? ? ? H]; subst; [simpl in *; tauto|]. by apply H.
  - apply absorbs_other; destruct k; simpl; intros [? ?]; done.
Qed.

(** ** Orders that leave a type alone *)

Lemma flat_map_planned_self order fs gs (h : LogicalField -> option LogicalType) :
  NoDup (field_names fs) -> gs ⊆ fs ->
  (forall f t, f ∈ gs -> ftype f = Some t -> reorder_type order t (h f) = t) ->
  flat_map (planned order fs) ((fun f => (fname f, h f)) <$> gs) = gs.
Proof.
  intros Hnd. induction gs as [|f gs IH]; intros Hsub Hrec; [done|].
  rewrite fmap_cons. cbn [flat_map].
  rewrite (planned_field order fs _ _ f) by (auto; apply Hsub; left). cbn [app].
  rewrite IH; [|set_solver|intros; apply Hrec; [by right|done]]. f_equal.
  destruct f as [n [t|] nb]; simpl; [|done]. do 2 f_equal.
  apply (Hrec (MkField n (Some t) nb)); [left|done].
Qed.

Lemma reorder_fields_self fs v :
  wf_fields fs ->
  (forall f t, f ∈ fs -> ftype f = Some t -> reorder_type kSchemaContractFirst t (Some t) = t) ->
  reorder_struct_fields kSchemaContractFirst (current_fields kSchemaContractFirst fs)
    (Some (MkType kStruct fs v)) = fs.
Proof.
  intros [Hnd _] Hrec. rewrite reorder_fields_plan by done. unfold plan. simpl.
  rewrite filter_all by (intros f Hf; apply elem_of_field_names; eauto).
  rewrite filter_none by (intros n Hn; auto). rewrite app_nil_r.
  apply flat_map_planned_self; [done..|]. intros f t Hf Et. rewrite Et. by apply (Hrec f).
Qed.

(** Contract-first order against the type itself *)
Lemma reorder_self t : well_formed t -> reorder_type kSchemaContractFirst t (Some t) = t.
Proof.
  type_induction t. intros Ht.
  destruct (decide (k = kStruct)) as [->|Hns]; [|destruct (decide (k = kList)) as [->|Hnl]].
  - apply well_formed_struct in Ht as [-> Ht]. rewrite reorder_struct. unfold Struct. f_equal.
    apply reorder_fields_self; [done|]. intros f t Hf Et. rewrite Forall_forall in IHfs.
    apply (IHfs f Hf); [done|]. by eapply wf_field_type.
  - apply well_formed_list in Ht as [-> Ht]. simpl. destruct v as [t|]; [|done]. do 2 f_equal. by apply IHv.
  - by destruct k.
Qed.

Lemma reorder_fields_none fs :
  wf_fields fs ->
  (forall f t, f ∈ fs -> ftype f = Some t -> reorder_type kSchemaContractFirst t None = t) ->
  reorder_struct_fields kSchemaContractFirst (current_fields kSchemaContractFirst fs) None = fs.
Proof.
  intros [Hnd _] Hrec. rewrite reorder_fields_plan by done. unfold plan, field_names. simpl.
  rewrite <- list_fmap_compose. by apply (flat_map_planned_self _ fs fs (fun _ => None)).
Qed.

(** Contract-first order without a contract *)
Lemma reorder_none t : well_formed t -> reorder_type kSchemaContractFirst t None = t.
Proof.
  type_induction t. intros Ht.
  destruct (decide (k = kStruct)) as [->|Hns]; [|destruct (decide (k = kList)) as [->|Hnl]].
  - apply well_formed_struct in Ht as [-> Ht]. rewrite reorder_struct. unfold Struct. f_equal.
    apply reorder_fields_none; [done|]. intros f t Hf Et. rewrite Forall_forall in IHfs.
    apply (IHfs f Hf); [done|]. by eapply wf_field_type.
  - apply well_formed_list in Ht as [-> Ht]. simpl. destruct v as [t|]; [|done]. do 2 f_equal. by apply IHv.
  - by destruct k.
Qed.

(** Alphabetical order at every level *)
Inductive sorted_type : LogicalType -> Prop :=
| sorted_scalar k fs v : k <> kStruct -> k <> kList -> sorted_type (MkType k fs v)
| sorted_struct fs v :
    StronglySorted name_le (field_names fs) ->
    (forall f t, f ∈ fs -> ftype f = Some t -> sorted_type t) -> sorted_type (MkType kStruct fs v)
| sorted_list fs v : (forall t, v = Some t -> sorted_type t) -> sorted_type (MkType kList fs v).

Definition sorted_fields (fs : list LogicalField) : Prop :=
  StronglySorted name_le (field_names fs) /\ forall f t, f ∈ fs -> ftype f = Some t -> sorted_type t.

Lemma plan_alphabetical ns base : (plan kAlphabetically ns base).*1 = merge_sort name_le ns.
Proof. unfold plan. rewrite <- list_fmap_compose. apply list_fmap_id. Qed.

Lemma reorder_fields_sorted fs base :
  NoDup (field_names fs) -> wf_base base ->
  (forall f t b, f ∈ fs -> ftype f = Some t -> wf_base b -> sorted_type (reorder_type kAlphabetically t b)) ->
  sorted_fields (reorder_struct_fields kAlphabetically (current_fields kAlphabetically fs) base).
Proof.
  intros Hnd Hb Hrec. split.
  - rewrite reorder_fields_names, plan_alphabetical by done. by apply (StronglySorted_merge_sort name_le).
  - intros g t (f & b & Hf & Hp & ->)%reorder_fields_elem Et; [|done|done].
    destruct f as [n [t0|] nb]; simpl in Et; [|done]. injection Et as <-.
    eapply (Hrec (MkField n (Some t0) nb)); [done|done|]. by eapply plan_base.
Qed.

Lemma reorder_sorted t base :
  well_formed t -> wf_base base -> sorted_type (reorder_type kAlphabetically t base).
Proof.
  revert base. type_induction t. intros base Ht Hb.
  destruct (decide (k = kStruct)) as [->|Hns]; [|destruct (decide (k = kList)) as [->|Hnl]].
  - apply well_formed_struct in Ht as [-> Ht]. rewrite reorder_struct.
    destruct (reorder_fields_sorted fs base) as [H1 H2]; [apply Ht|done| |by apply sorted_struct].
    intros f t b Hf Et Hwb. rewrite Forall_forall in IHfs. apply (IHfs f Hf); [done| |done].
    by eapply wf_field_type.
  - apply well_formed_list in Ht as [-> Ht]. apply sorted_list. intros t Et.
    destruct v as [t0|]; [|done]. injection Et as <-. apply IHv; [done|done|]. by apply wf_base_value.
  - destruct k; try done; by apply sorted_scalar.
Qed.

Lemma merge_sort_sorted ns : StronglySorted name_le ns -> merge_sort name_le ns = ns.
Proof.
  intros H. apply (StronglySorted_unique name_le); [by apply (StronglySorted_merge_sort name_le)|done|].
  apply merge_sort_Permutation.
Qed.

Lemma sorted_fields_reorder fs base :
  wf_fields fs -> sorted_fields fs ->
  (forall f t b, f ∈ fs -> ftype f = Some t -> reorder_type kAlphabetically t b = t) ->
  reorder_struct_fields kAlphabetically (current_fields kAlphabetically fs) base = fs.
Proof.
  intros [Hnd _] [Hs _] Hrec. rewrite reorder_fields_plan by done. unfold plan.
  rewrite merge_sort_sorted by done. unfold field_names at 1. rewrite <- list_fmap_compose.
  apply (flat_map_planned_self _ fs fs (fun f => match has_kind kStruct base with
    | Some b => field_type_or_none (build_field_map (fields b)) (fname f) | None => None end)); [done|done|].
  intros f t Hf Et. by eapply Hrec.
Qed.

Lemma sorted_reorder t base : well_formed t -> sorted_type t -> reorder_type kAlphabetically t base = t.
Proof.
  revert base. type_induction t. intros base Ht Hs.
  destruct (decide (k = kStruct)) as [->|Hns]; [|destruct (decide (k = kList)) as [->|Hnl]].
  - apply well_formed_struct in Ht as [-> Ht]. rewrite reorder_struct. unfold Struct. f_equal.
    inversion Hs as [|? ? H1 H2|]; subst; [done|].
    apply sorted_fields_reorder; [done|done|]. intros f t b Hf Et. rewrite Forall_forall in IHfs.
    apply (IHfs f Hf); [done|by eapply wf_field_type|by eapply H2].
  - apply well_formed_list in Ht as [-> Ht]. simpl. destruct v as [t|]; [|done]. do 2 f_equal.
    apply IHv; [done|done|]. inversion Hs as [| |? ? H]; subst; [done|]. by apply H.
  - by destruct k.
Qed.

(** ** Schemas *)

Definition schema_base (base : LogicalSchema) : option LogicalType :=
  match base with [] => None | _ => Some (Struct base) end.

Lemma wf_schema_base base : wf_fields base -> wf_base (schema_base base).
Proof. intros H. destruct base; [done|]. by apply well_formed_struct. Qed.

Lemma reorder_schema_eq schema base order :
  reorder_schema_fields schema (match base with [] => None | _ => Some base end) order
  = reorder_struct_fields order (current_fields order schema) (schema_base base).
Proof.
  destruct schema; [|by destruct base].
  rewrite reorder_fields_plan by apply NoDup_nil_2. unfold plan. destruct order; [done|].
  destruct base; simpl; [done|]. rewrite filter_none; [done|]. intros f _. apply not_elem_of_nil.
Qed.

Lemma merge_schema_wf base inferred :
  wf_fields base -> wf_fields inferred -> wf_fields (merge_schema_additive base inferred).
Proof.
  intros Hb Hi. unfold merge_schema_additive. destruct base as [|f base]; [done|].
  apply merge_fields_wf; [done..|]. intros g t t' Hg Et Ht'. apply merge_type_wf; [|done].
  by eapply wf_field_type.
Qed.

Lemma merge_schema_names base inferred :
  field_names (merge_schema_additive base inferred)
  = field_names base ++ filter (fun n => n ∉ field_names base) (field_names inferred).
Proof.
  destruct base as [|f base]; [|apply merge_fields_names].
  simpl. rewrite filter_all; [done|]. intros. apply not_elem_of_nil.
Qed.

Lemma merge_schema_covers base inferred : covers_fields base (merge_schema_additive base inferred).
Proof.
  unfold merge_schema_additive. destruct base as [|f base]; [by intros g Hg%elem_of_nil|].
  apply (covers_fields_struct (f :: base) None _ None).
  exact (merge_covers (Struct (f :: base)) (Struct inferred)).
Qed.

Lemma merge_schema_absorbs base inferred :
  wf_fields inferred -> absorbs_fields (merge_schema_additive base inferred) inferred.
Proof.
  intros Hi. unfold merge_schema_additive. destruct base as [|f base].
  - apply (absorbs_fields_struct _ None _ None), absorbs_refl. by apply well_formed_struct.
  - apply merge_fields_absorbs; [done|]. intros. by apply merge_absorbs.
Qed.

Lemma evolve_additive base inferred order :
  evolve_schema base inferred kAdditive order
  = Value (reorder_struct_fields order (current_fields order (merge_schema_additive base inferred))
             (schema_base base)).
Proof. unfold evolve_schema. by rewrite reorder_schema_eq. Qed.

Lemma covers_fields_trans fs1 fs2 fs3 :
  covers_fields fs1 fs2 -> covers_fields fs2 fs3 -> covers_fields fs1 fs3.
Proof.
  rewrite !(covers_fields_struct _ None _ None). apply covers_trans.
Qed.

Lemma plan_no_contract ns : (plan kSchemaContractFirst ns None).*1 = ns.
Proof. unfold plan. simpl. rewrite <- list_fmap_compose. apply list_fmap_id. Qed.

Lemma plan_contract ns bs :
  (plan kSchemaContractFirst ns (Some (Struct bs))).*1
  = field_names (filter (fun f => fname f ∈ ns) bs)
    ++ merge_sort name_le (filter (fun n => n ∉ field_names bs) ns).
Proof.
  unfold plan. simpl. rewrite fmap_app, <- !list_fmap_compose. f_equal. apply list_fmap_id.
Qed.

(** C25: additive evolution never loses contract data.  For a contract and an
    inferred schema whose structs name each field once, the evolved schema
    again names each field once at every level; every contract field is still
    there at every nesting level, under its name, with its nullability and a
    type of the same kind that holds at least the contract's fields; the names
    are exactly those of the contract and of the observation. *)
Theorem evolve_additive_keeps_contract base inferred order :
  wf_fields base -> wf_fields inferred ->
  exists out, evolve_schema base inferred kAdditive order = Value out /\
    wf_fields out /\ covers_fields base out /\
    (forall n, n ∈ field_names out <-> n ∈ field_names base \/ n ∈ field_names inferred).
Proof.
  intros Hb Hi. rewrite evolve_additive. eexists. split; [done|].
  pose proof (merge_schema_wf base inferred Hb Hi) as Hm. pose proof (wf_schema_base base Hb) as Hwb.
  split_and!.
  - apply reorder_fields_wf; [done..|]. intros. apply reorder_type_wf; [|done]. by eapply wf_field_type.
  - eapply covers_fields_trans; [apply (merge_schema_covers base inferred)|].
    apply reorder_fields_covers; [done..|]. intros. apply reorder_covers; [|done]. by eapply wf_field_type.
  - intros n. rewrite reorder_fields_names, plan_names by (done || apply Hm).
    rewrite merge_schema_names, elem_of_app, list_elem_of_filter.
    destruct (decide (n ∈ field_names base)); tauto.
Qed.

(** Evolution is a fixed point.  Evolving the evolved schema again with the
    same observation, under either field order, returns it unchanged, so
    reprocessing a source never changes a published schema. *)
Theorem evolve_additive_fixed_point base inferred order out :
  wf_fields base -> wf_fields inferred ->
  evolve_schema base inferred kAdditive order = Value out ->
  evolve_schema out inferred kAdditive order = Value out.
Proof.
  intros Hb Hi. rewrite evolve_additive. intros [= <-].
  pose proof (merge_schema_wf base inferred Hb Hi) as Hm. pose proof (wf_schema_base base Hb) as Hwb.
  pose proof (merge_schema_absorbs base inferred Hi) as Ha.
  set (m := merge_schema_additive base inferred) in *.
  set (out := reorder_struct_fields order (current_fields order m) (schema_base base)).
  assert (wf_fields out) as Hout.
  { apply reorder_fields_wf; [done..|]. intros. apply reorder_type_wf; [|done]. by eapply wf_field_type. }
  assert (absorbs_fields out inferred) as Habs.
  { apply reorder_fields_absorbs; [apply Hm|done|done|]. intros f g a b bt Hf Hg En Ea Eb Hbt.
    apply reorder_absorbs; [by eapply wf_field_type|done|]. by eapply (proj2 Ha). }
  assert (merge_schema_additive out inferred = out) as E.
  { destruct out as [|f l] eqn:Eout; simpl.
    - destruct inferred as [|g ?]; [done|]. destruct Habs as [Hn _].
      by specialize (Hn g ltac:(left)) as ?%elem_of_nil.
    - apply merge_fields_absorbed; [apply Habs|]. intros. apply absorbs_merge; [by eapply wf_field_type|].
      by eapply (proj2 Habs). }
  rewrite evolve_additive, E. f_equal. destruct order.
  - apply sorted_fields_reorder; [done| |].
    + apply reorder_fields_sorted; [apply Hm|done|]. intros. apply reorder_sorted; [|done]. by eapply wf_field_type.
    + intros g t b Hg Et. apply sorted_reorder; [by eapply wf_field_type|].
      assert (sorted_fields out) as [_ Hs]; [|by eapply Hs].
      apply reorder_fields_sorted; [apply Hm|done|]. intros. apply reorder_sorted; [|done]. by eapply wf_field_type.
  - unfold schema_base. destruct out as [|f l] eqn:Eout.
    + apply reorder_fields_none; [done|]. by intros ? ? ?%elem_of_nil.
    + apply reorder_fields_self; [done|]. intros. apply reorder_self. by eapply wf_field_type.
Qed.

(** The order of the evolved schema.  Alphabetically, all names are sorted;
    contract first, the contract's names keep their order and the new names
    follow sorted, except that without a contract the observation keeps its
    order. *)
Theorem evolve_additive_order base inferred order :
  wf_fields base -> wf_fields inferred ->
  exists out, evolve_schema base inferred kAdditive order = Value out /\
    field_names out
    = match order with
      | kAlphabetically =>
          merge_sort name_le
            (field_names base ++ filter (fun n => n ∉ field_names base) (field_names inferred))
      | kSchemaContractFirst =>
          match base with
          | [] => field_names inferred
          | _ => field_names base
                 ++ merge_sort name_le (filter (fun n => n ∉ field_names base) (field_names inferred))
          end
      end.
Proof.
  intros Hb Hi. rewrite evolve_additive. eexists. split; [done|].
  pose proof (merge_schema_wf base inferred Hb Hi) as Hm. pose proof (wf_schema_base base Hb) as Hwb.
  rewrite reorder_fields_names by (done || apply Hm). rewrite merge_schema_names.
  destruct order; [by rewrite plan_alphabetical|].
  destruct base as [|f base]; [rewrite plan_no_contract|].
  2:{ unfold schema_base. rewrite plan_contract. f_equal.
      - rewrite filter_all; [done|]. intros g Hg. apply elem_of_app. left. apply elem_of_field_names. eauto.
      - rewrite filter_app, filter_none by auto. f_equal. apply filter_all.
        by intros n [? _]%list_elem_of_filter. }
  apply filter_all. intros. apply not_elem_of_nil.
Qed.

Lemma covers_fields_refl fs : covers_fields fs fs.
Proof. apply (covers_fields_struct fs None fs None), covers_refl. Qed.

Lemma check_strict_Value base inferred :
  check_strict_compatible base inferred = Value tt ->
  base <> [] /\ forall n, n ∈ field_names inferred -> n ∈ field_names base.
Proof.
  unfold check_strict_compatible. destruct base as [|f base]; [done|]. intros E. split; [done|].
  destruct (find _ inferred) eqn:Ef; [done|]. intros n (g & Hg & <-)%elem_of_field_names.
  eapply find_none in Ef; [|by apply list_elem_of_In].
  apply negb_false_iff, bool_decide_eq_true in Ef as [h [Hh Eh]%field_map_Some_1].
  apply elem_of_field_names. eauto.
Qed.

Lemma check_strict_Invalid base inferred m :
  check_strict_compatible base inferred = Invalid m ->
  base = [] \/ exists n, n ∈ field_names inferred /\ n ∉ field_names base.
Proof.
  unfold check_strict_compatible. destruct base as [|f base]; [by left|]. right.
  destruct (find _ inferred) as [g|] eqn:Ef; [|done].
  apply find_some in Ef as [Hg%list_elem_of_In Hn]. exists (fname g).
  split; [apply elem_of_field_names; eauto|]. apply field_map_None, eq_None_not_Some.
  by apply negb_true_iff, bool_decide_eq_false in Hn.
Qed.

Lemma evolve_strict base inferred order :
  evolve_schema base inferred kStrict order
  = match check_strict_compatible base inferred with
    | Invalid m => Invalid m
    | Value _ =>
        match order with
        | kSchemaContractFirst => Value base
        | kAlphabetically =>
            Value (reorder_struct_fields kAlphabetically (current_fields kAlphabetically base)
                     (schema_base base))
        end
    end.
Proof. unfold evolve_schema. destruct (check_strict_compatible _ _), order; try done. by rewrite reorder_schema_eq. Qed.

(** Strict evolution accepts exactly the observations whose top-level names
    are all in a non-empty contract; it then returns the contract, unchanged
    or sorted at every level, and otherwise a [Status::Invalid]. *)
Theorem evolve_strict_outcome base inferred order :
  wf_fields base ->
  match evolve_schema base inferred kStrict order with
  | Value out =>
      base <> [] /\ (forall n, n ∈ field_names inferred -> n ∈ field_names base) /\
      wf_fields out /\ covers_fields base out /\ field_names out ≡ₚ field_names base /\
      match order with
      | kSchemaContractFirst => out = base
      | kAlphabetically => sorted_fields out
      end
  | Invalid _ => base = [] \/ exists n, n ∈ field_names inferred /\ n ∉ field_names base
  end.
Proof.
  intros Hb. rewrite evolve_strict. destruct (check_strict_compatible base inferred) as [[]|m] eqn:E.
  - apply check_strict_Value in E as [Hne Hall]. destruct order.
    + pose proof (wf_schema_base base Hb) as Hwb. split_and!; [done|done| | | |].
      * apply reorder_fields_wf; [done..|]. intros. apply reorder_type_wf; [|done]. by eapply wf_field_type.
      * apply reorder_fields_covers; [done..|]. intros. apply reorder_covers; [|done]. by eapply wf_field_type.
      * rewrite reorder_fields_names, plan_names by (done || apply Hb). done.
      * apply reorder_fields_sorted; [apply Hb|done|]. intros. apply reorder_sorted; [|done].
        by eapply wf_field_type.
    + split_and!; auto. apply covers_fields_refl.
  - by apply check_strict_Invalid in E.
Qed.

(** ** Witnesses *)

Definition field (n : string) (t : LogicalType) : LogicalField := MkField (str n) (Some t) true.
Arguments field n%_string_scope t.

Definition ex_contract : LogicalSchema :=
  [field "id" (Scalar kInt64); field "tags" (List (Struct [field "b" (Scalar kUtf8)]))].
Definition ex_observed : LogicalSchema :=
  [field "tags" (List (Struct [field "a" (Scalar kBool); field "b" (Scalar kInt64)]));
   field "extra" (Scalar kDate32); field "at" (Scalar kTimestampNs)].

(** Closed schemas are well formed by computation. *)
Ltac solve_wf :=
  repeat first
    [ progress unfold wf_fields
    | match goal with
      | |- _ /\ _ => split
      | |- Forall _ _ => constructor
      | |- NoDup _ => apply (bool_decide_unpack _); vm_compute; exact I
      | |- wf_field _ => cbn
      | |- well_formed _ => cbn
      end
    | done ].

Lemma ex_contract_wf : wf_fields ex_contract.
Proof. solve_wf. Qed.
Lemma ex_observed_wf : wf_fields ex_observed.
Proof. solve_wf. Qed.

Lemma evolve_additive_keeps_contract_witness :
  exists out, evolve_schema ex_contract ex_observed kAdditive kSchemaContractFirst = Value out /\
    covers_fields ex_contract out.
Proof.
  destruct (evolve_additive_keeps_contract ex_contract ex_observed kSchemaContractFirst
    ex_contract_wf ex_observed_wf) as (out & E & _ & H & _).
  exists out. split; [exact E|exact H].
Defined.

Lemma evolve_additive_fixed_point_witness :
  exists out, evolve_schema ex_contract ex_observed kAdditive kAlphabetically = Value out /\
    evolve_schema out ex_observed kAdditive kAlphabetically = Value out.
Proof.
  eexists. split; [vm_compute; reflexivity|].
  apply (evolve_additive_fixed_point ex_contract ex_observed kAlphabetically _ ex_contract_wf ex_observed_wf).
  vm_compute. reflexivity.
Defined.

Lemma evolve_additive_order_witness :
  exists out, evolve_schema ex_contract ex_observed kAdditive kSchemaContractFirst = Value out /\
    field_names out = [str "id"; str "tags"; str "at"; str "extra"].
Proof.
  destruct (evolve_additive_order ex_contract ex_observed kSchemaContractFirst
    ex_contract_wf ex_observed_wf) as (out & E & H).
  exists out. split; [exact E|]. rewrite H. vm_compute. reflexivity.
Defined.

Lemma evolve_strict_outcome_witness :
  exists n, n ∈ field_names ex_observed /\ n ∉ field_names ex_contract.
Proof.
  pose proof (evolve_strict_outcome ex_contract ex_observed kAlphabetically ex_contract_wf) as H.
  assert (exists m, evolve_schema ex_contract ex_observed kStrict kAlphabetically = Invalid m) as [m E]
    by (eexists; vm_compute; reflexivity).
  rewrite E in H. destruct H as [H|H]; [discriminate H|exact H].
Defined.
