(* ===== verification/FieldNames.v ===== *)
(** * Output field names

    Models [cpp/src/sanitize/detail/hash.hh], [cpp/src/planning/field_name_sanitizer.cc]
    and [cpp/src/internal/planning/variant_field_names.cc]: the naming policies,
    the collision suffixes that make sibling names distinct, the recursive
    sanitization of a schema, and the versioned names of the schema registry. *)

From Stdlib Require Import Ascii String.
From S2P Require Import Prelude LogicalSchema.

Local Open Scope Z_scope.

(** ** Bytes *)

Definition byte_of (c : ascii) : Z := Z.of_N (N_of_ascii c).
Definition chr (z : Z) : ascii := ascii_of_N (Z.to_N z).

Definition u64 (z : Z) : Z := z mod 2 ^ 64.

(** 64-bit FNV-1a, with zero remapped because it marks an empty slot *)
Definition hash_key64 (s : name) : Z :=
  let h := foldl (fun h c => u64 (Z.lxor h (byte_of c) * 1099511628211)) 14695981039346656037 s in
  if h =? 0 then 1 else h.

Definition is_upper (c : ascii) : bool := (65 <=? byte_of c) && (byte_of c <=? 90).
Definition is_lower (c : ascii) : bool := (97 <=? byte_of c) && (byte_of c <=? 122).
Definition is_digit (c : ascii) : bool := (48 <=? byte_of c) && (byte_of c <=? 57).

Definition underscore : ascii := "_"%char.

Definition kInitialSuffixLength : nat := 6.
Definition kMaxSuffixLength : nat := 16.
Definition kFlattenedSuffix : name := str "_flattened".
Definition kSanitizedFlattenedSuffix : name := str "flattened".
Definition kPolicyPreserve : name := str "preserve".
Definition kPolicyLowerSnake : name := str "lower_snake".

(** The fields of [PreparedOptions] that naming uses *)
Record PreparedOptions : Type := MkOptions {
  field_name_policy : name;
  default_key_name : name
}.

(** [None] stands for the byte 0 that rejects a character. *)
Definition lower_alpha (c : ascii) : option ascii :=
  if is_upper c then Some (chr (byte_of c + 32))
  else if is_lower c then Some c
  else None.

Definition lower_snake (c : ascii) : ascii :=
  if is_upper c then chr (byte_of c + 32)
  else if is_lower c || is_digit c || bool_decide (c = underscore) then c
  else underscore.

Definition uses_preserve_policy (policy : name) : bool := bool_decide (policy = kPolicyPreserve).
Definition uses_lower_snake_policy (policy : name) : bool := bool_decide (policy = kPolicyLowerSnake).
Definition prepared_uses_preserve_policy (opts : PreparedOptions) : bool :=
  uses_preserve_policy (field_name_policy opts).

(** The loop of [clean_with_suffix]; [suffix] is what was pushed so far. *)
Fixpoint suffix_loop (length : nat) (hash : Z) (suffix : name) : name :=
  match length with
  | O => suffix
  | S length =>
      let suffix := suffix ++ [chr (97 + hash mod 26)] in
      let hash := hash / 26 in
      let hash := if hash =? 0 then hash_key64 suffix else hash in
      suffix_loop length hash suffix
  end.

Definition clean_with_suffix (dirty base : name) (length : nat) : name :=
  base ++ suffix_loop length (hash_key64 dirty) [].

Definition is_reserved_etl_column_name (n : name) : bool :=
  bool_decide (n = str "schema_registry") || bool_decide (n = str "schema_drifts") ||
  bool_decide (n = str "source_file") || bool_decide (n = str "ingestion_timestamp").

(** One iteration of the lower-snake loop: the output and [previous_underscore] *)
Definition snake_step (acc : name * bool) (c : ascii) : name * bool :=
  let '(out, previous_underscore) := acc in
  let clean := lower_snake c in
  if bool_decide (clean = underscore) then
    (if negb previous_underscore && negb (bool_decide (out = [])) then out ++ [clean] else out, true)
  else (out ++ [clean], false).

(** [while (!out.empty() && out.back() == '_') out.pop_back()], on the reversed output *)
Fixpoint drop_underscores (rev_out : name) : name :=
  match rev_out with
  | c :: rest => if bool_decide (c = underscore) then drop_underscores rest else rev_out
  | [] => []
  end.

Definition lower_snake_base (dirty : name) : name :=
  let out := (foldl snake_step ([], false) dirty).1 in
  let out := reverse (drop_underscores (reverse out)) in
  let out := match out with [] => str "field" | _ => out end in
  match out with
  | c :: _ => if is_digit c then str "field_" ++ out else out
  | [] => out
  end.

Definition lower_alpha_base (dirty : name) : name :=
  match omap lower_alpha dirty with [] => str "field" | out => out end.

Definition clean_name_base (dirty policy : name) : name :=
  if uses_preserve_policy policy then dirty
  else if uses_lower_snake_policy policy then lower_snake_base dirty
  else lower_alpha_base dirty.

Definition clean_field_name_base (dirty : name) (opts : PreparedOptions) : name :=
  if bool_decide (dirty = default_key_name opts) then dirty
  else if prepared_uses_preserve_policy opts then dirty
  else clean_name_base dirty (field_name_policy opts).

(** ** Versioned names *)

Record VersionedFieldName : Type := MkVersioned {
  ver_base : name;
  ver_version : Z;
  ver_semantic_type : name
}.

(** [name.rfind("_v")]: the last position of the marker *)
Fixpoint rfind_marker (n : name) : option nat :=
  match n with
  | [] => None
  | c :: rest =>
      match rfind_marker rest with
      | Some i => Some (S i)
      | None =>
          match rest with
          | d :: _ => if bool_decide (c = underscore) && bool_decide (d = "v"%char) then Some 0%nat else None
          | [] => None
          end
      end
  end.

(** [name.find('_')] *)
Fixpoint find_underscore (n : name) : option nat :=
  match n with
  | [] => None
  | c :: rest => if bool_decide (c = underscore) then Some 0%nat else S <$> find_underscore rest
  end.

Definition digit_value (c : ascii) : Z := byte_of c - 48.

Definition INT_MAX : Z := 2 ^ 31 - 1.

(** [std::from_chars] for [int] over the whole range: digits with an optional
    minus sign, [None] when the text is not a number or does not fit *)
Definition from_chars_int (digits : name) : option Z :=
  let decode ds :=
    if bool_decide (ds <> []) && forallb is_digit ds
    then Some (foldl (fun v c => 10 * v + digit_value c) 0 ds) else None in
  match digits with
  | c :: ds =>
      if bool_decide (c = "-"%char) then
        decode ds ≫= fun v => if v <=? INT_MAX + 1 then Some (- v) else None
      else decode digits ≫= fun v => if v <=? INT_MAX then Some v else None
  | [] => None
  end.

(** The scan of the semantic type: lower-case letters and single underscores *)
Fixpoint semantic_type_ok (previous_underscore : bool) (s : name) : bool :=
  match s with
  | [] => true
  | c :: s =>
      if negb (is_lower c) && negb (bool_decide (c = underscore)) then false
      else if bool_decide (c = underscore) && previous_underscore then false
      else semantic_type_ok (bool_decide (c = underscore)) s
  end.

Definition parse_versioned_field_name (n : name) : option VersionedFieldName :=
  if (length n <? 7)%nat then None
  else
    match rfind_marker n with
    | None => None
    | Some marker =>
        if (marker =? 0)%nat || (length n <=? marker + 3)%nat then None
        else
          match find_underscore (drop (marker + 2) n) with
          | None => None
          | Some sep =>
              (* [semantic_separator = marker + 2 + sep] *)
              if (sep =? 0)%nat || (length n <=? marker + 2 + sep + 1)%nat then None
              else
                match from_chars_int (take sep (drop (marker + 2) n)) with
                | None => None
                | Some version =>
                    let semantic_type := drop (marker + 2 + sep + 1) n in
                    if version <? 2 then None
                    else if negb (semantic_type_ok false semantic_type) then None
                    else if bool_decide (head semantic_type = Some underscore)
                            || bool_decide (last semantic_type = Some underscore) then None
                    else Some (MkVersioned (take marker n) version semantic_type)
                end
          end
    end.

(** [std::to_chars] in base ten; [fuel] bounds the number of digits *)
Fixpoint to_chars_loop (fuel : nat) (v : Z) (acc : name) : name :=
  match fuel with
  | O => acc
  | S fuel =>
      let acc := chr (48 + v mod 10) :: acc in
      if v / 10 =? 0 then acc else to_chars_loop fuel (v / 10) acc
  end.

(** A number has no more decimal digits than bits. *)
Definition to_chars (v : Z) : name :=
  let digits v := to_chars_loop (S (Z.to_nat (Z.log2 v))) v [] in
  if v <? 0 then "-"%char :: digits (- v) else digits v.

Definition make_versioned_field_name (base : name) (version : Z) (semantic_type : name) : name :=
  base ++ str "_v" ++ to_chars version ++ [underscore] ++ semantic_type.

(** The empty name when the name is not versioned *)
Definition versioned_field_base (n : name) : name :=
  match parse_versioned_field_name n with Some p => ver_base p | None => [] end.

Definition variant_family_base (n : name) : name :=
  match versioned_field_base n with [] => n | base => base end.

Definition same_variant_family (l r : name) : bool :=
  negb (bool_decide (l = r)) && bool_decide (variant_family_base l = variant_family_base r).

Definition in_variant_family (n family_base : name) : bool :=
  bool_decide (variant_family_base n = family_base).

(** ** Matching source keys *)

Definition suffix_lengths : list nat := seq kInitialSuffixLength (kMaxSuffixLength - kInitialSuffixLength + 1).

Definition name_matches_output (dirty clean policy : name) : bool :=
  let base := clean_name_base dirty policy in
  if bool_decide (clean = base) then true
  else if uses_lower_snake_policy policy && negb (bool_decide (versioned_field_base clean = []))
          && bool_decide (versioned_field_base clean = base) then true
  else if uses_preserve_policy policy then false
  else existsb (fun len => bool_decide (clean = clean_with_suffix dirty base len)) suffix_lengths.

Definition field_name_matches_output (dirty clean : name) (opts : PreparedOptions) : bool :=
  if bool_decide (dirty = default_key_name opts) && bool_decide (clean = dirty) then true
  else name_matches_output dirty clean (field_name_policy opts).

Definition ends_with (n suffix : name) : bool :=
  (length suffix <=? length n)%nat && bool_decide (drop (length n - length suffix) n = suffix).

Definition unflattened_output_name (output_name : name) : name :=
  if ends_with output_name kFlattenedSuffix
  then take (length output_name - length kFlattenedSuffix) output_name
  else if ends_with output_name kSanitizedFlattenedSuffix
  then take (length output_name - length kSanitizedFlattenedSuffix) output_name
  else [].

(** ** Sibling names *)

(** [base_counts]: how many siblings have a base *)
Definition count_base (counts : gmap name nat) (base : name) : gmap name nat :=
  <[base := S (default 0%nat (counts !! base))]> counts.

(** The comparator of the sort: by source name, then by position *)
Definition index_le (dirty_names : list name) (l r : nat) : Prop :=
  if decide (dirty_names !!! l = dirty_names !!! r) then (l <= r)%nat
  else name_le (dirty_names !!! l) (dirty_names !!! r).

#[export] Instance index_le_dec dirty_names : RelDecision (index_le dirty_names).
Proof. intros l r. unfold index_le. case_decide; apply _. Defined.

(** The [for] loop over suffix lengths *)
Fixpoint try_suffixes (dirty base : name) (used : gset name) (lens : list nat) (candidate : name) : name :=
  match lens with
  | [] => candidate
  | len :: lens =>
      if bool_decide (candidate ∈ used)
      then try_suffixes dirty base used lens (clean_with_suffix dirty base len)
      else candidate
  end.

(** [while (used.contains(candidate)) candidate.push_back('z')]; every iteration
    leaves a different used name behind, so the size of [used] bounds it. *)
Fixpoint push_z (fuel : nat) (used : gset name) (candidate : name) : name :=
  match fuel with
  | O => candidate
  | S fuel => if bool_decide (candidate ∈ used) then push_z fuel used (candidate ++ ["z"%char]) else candidate
  end.

Definition pick_name (used : gset name) (counts : gmap name nat) (dirty base : name) : name :=
  let candidate :=
    if (1 <? default 0 (counts !! base))%nat
    then clean_with_suffix dirty base kInitialSuffixLength else base in
  push_z (size used) used (try_suffixes dirty base used suffix_lengths candidate).

(** The loop over the sorted order, filling the output by position *)
Definition assign_names (counts : gmap name nat) (dirty_names bases : list name) (order : list nat)
    (out : list name) (used : gset name) : list name * gset name :=
  foldl (fun '(out, used) idx =>
           let candidate := pick_name used counts (dirty_names !!! idx) (bases !!! idx) in
           (<[idx := candidate]> out, {[candidate]} ∪ used)) (out, used) order.

Definition clean_sibling_field_names (dirty_names : list name) (opts : PreparedOptions) : list name :=
  if prepared_uses_preserve_policy opts then dirty_names
  else
    let bases := (fun dirty => clean_field_name_base dirty opts) <$> dirty_names in
    let base_counts := foldl count_base ∅ bases in
    if (size base_counts =? length dirty_names)%nat then bases
    else
      let order := merge_sort (index_le dirty_names) (seq 0 (length dirty_names)) in
      (assign_names base_counts dirty_names bases order (replicate (length dirty_names) []) ∅).1.

(** ** Schemas *)

(** The recursion over nested types is a parameter of the field helpers. *)
Definition retype_field (sanitize_type : LogicalType -> LogicalType) (f : LogicalField) : LogicalField :=
  match f with
  | MkField n (Some t) b => MkField n (Some (sanitize_type t)) b
  | MkField n None b => f
  end.

Definition sanitize_logical_fields (sanitize_type : LogicalType -> LogicalType)
    (fs : list LogicalField) (opts : PreparedOptions) : list LogicalField :=
  let clean_names := clean_sibling_field_names (map fname fs) opts in
  zip_with (fun n f => MkField n (ftype f) (nullable f)) clean_names (map (retype_field sanitize_type) fs).

Fixpoint sanitize_logical_type_names (opts : PreparedOptions) (t : LogicalType) : LogicalType :=
  match t with
  | MkType kStruct fs _ => Struct (sanitize_logical_fields (sanitize_logical_type_names opts) fs opts)
  | MkType kList _ v =>
      MkType kList [] match v with
                      | Some t => Some (sanitize_logical_type_names opts t)
                      | None => None
                      end
  | _ => t
  end.

Definition sanitize_logical_schema_field_names (schema : LogicalSchema) (opts : PreparedOptions) : LogicalSchema :=
  zip_with (fun original f =>
              if is_reserved_etl_column_name (fname original)
              then MkField (fname original) (ftype f) (nullable f) else f)
    schema (sanitize_logical_fields (sanitize_logical_type_names opts) schema opts).

(** ** Collision-free sibling names *)

Lemma push_z_loop used c fuel k :
  (forall i, (i < k)%nat -> c ++ replicate i "z"%char ∈ used) -> (size used <= fuel + k)%nat ->
  push_z fuel used (c ++ replicate k "z"%char) ∉ used.
Proof.
  revert k. induction fuel as [|fuel IH]; intros k Hin Hfuel; simpl.
  - intros Hk. set (l := (fun i => c ++ replicate i "z"%char) <$> seq 0 (S k)).
    assert (NoDup l) as Hnd.
    { apply NoDup_fmap_2; [|apply NoDup_seq]. intros i j E%(app_inv_head c).
      apply (f_equal length) in E. by rewrite !length_replicate in E. }
    assert (list_to_set l ⊆ used) as Hsub%subseteq_size.
    { intros x. unfold l. rewrite elem_of_list_to_set, list_elem_of_fmap. intros (i & -> & Hi%elem_of_seq).
      destruct (decide (i = k)) as [->|]; [done|]. apply Hin. lia. }
    rewrite size_list_to_set in Hsub by done. unfold l in Hsub. rewrite length_fmap, length_seq in Hsub. lia.
  - case_bool_decide as Hk; [|done]. rewrite <- app_assoc.
    assert (replicate k "z"%char ++ ["z"%char] = replicate (S k) "z"%char) as ->.
    { change ["z"%char] with (replicate 1 "z"%char). rewrite <- replicate_add. f_equal. lia. }
    apply IH; [|lia]. intros i Hi. destruct (decide (i = k)) as [->|]; [done|]. apply Hin. lia.
Qed.

(** The fallback loop always ends on an unused name. *)
Lemma push_z_fresh used c : push_z (size used) used c ∉ used.
Proof.
  pose proof (push_z_loop used c (size used) 0) as H. rewrite app_nil_r in H. apply H; [intros; lia|lia].
Qed.

Lemma pick_name_fresh used counts dirty base : pick_name used counts dirty base ∉ used.
Proof. apply push_z_fresh. Qed.

Section Assign.
Variables (counts : gmap name nat) (dirty_names bases : list name).

(** After the positions [done_] were served: their names are used and distinct. *)
Definition assigned (n : nat) (done_ : list nat) (st : list name * gset name) : Prop :=
  length st.1 = n /\
  (forall i, i ∈ done_ -> st.1 !!! i ∈ st.2) /\
  (forall i j, i ∈ done_ -> j ∈ done_ -> st.1 !!! i = st.1 !!! j -> i = j).

Lemma assign_names_spec n order :
  NoDup order -> (forall i, i ∈ order -> (i < n)%nat) ->
  assigned n order (assign_names counts dirty_names bases order (replicate n []) ∅).
Proof.
  unfold assign_names. induction order as [|idx order IH] using rev_ind; intros Hnd Hlt.
  - split_and!; simpl; [apply length_replicate|by intros i ?%elem_of_nil|by intros i j ?%elem_of_nil].
  - apply NoDup_app in Hnd as (Hnd & Hnew & _). rewrite foldl_snoc.
    destruct (IH Hnd) as (Hlen & Hused & Hinj); [intros i Hi; apply Hlt, elem_of_app; auto|].
    destruct (foldl _ _ order) as [out used]. simpl in *.
    pose proof (pick_name_fresh used counts (dirty_names !!! idx) (bases !!! idx)) as Hfresh.
    set (c := pick_name _ _ _ _) in *.
    assert (idx < n)%nat as Hidx by (apply Hlt, elem_of_app; right; by left).
    assert (forall i, <[idx := c]> out !!! i = if decide (i = idx) then c else out !!! i) as Hget.
    { intros i. rewrite list_lookup_total_insert. destruct (decide (i = idx)) as [->|Hne].
      - by rewrite decide_True by (split; [done|lia]).
      - by rewrite decide_False by (intros [? _]; congruence). }
    split_and!; simpl.
    + by rewrite length_insert.
    + intros i Hi. rewrite Hget. apply elem_of_app in Hi. case_decide as Hd; [set_solver|].
      apply elem_of_union_r, Hused. destruct Hi as [?|?%list_elem_of_singleton]; done.
    + intros i j Hi Hj. rewrite !Hget. apply elem_of_app in Hi, Hj. rewrite !list_elem_of_singleton in Hi, Hj.
      case_decide as Hdi; case_decide as Hdj; [congruence| | |].
      * intros E. exfalso. apply Hfresh. rewrite E. apply Hused. tauto.
      * intros E. exfalso. apply Hfresh. rewrite <- E. apply Hused. tauto.
      * apply Hinj; tauto.
Qed.
End Assign.

Lemma count_base_dom l m : dom (foldl count_base m l) = dom m ∪ (list_to_set l : gset name).
Proof.
  revert m. induction l as [|b l IH]; intros m; simpl; [set_solver|].
  rewrite IH. unfold count_base. rewrite dom_insert_L. set_solver.
Qed.

(** The early return applies exactly when the bases are distinct. *)
Lemma count_base_size l : size (foldl count_base ∅ l) = length l <-> NoDup l.
Proof.
  rewrite <- size_dom, count_base_dom, dom_empty_L, (left_id_L ∅ (∪)).
  induction l as [|b l IH]; [split; [intros; apply NoDup_nil_2|done]|]. simpl. rewrite NoDup_cons.
  destruct (decide (b ∈ l)) as [Hin|Hin].
  - replace ({[b]} ∪ list_to_set l : gset name) with (list_to_set l : gset name) by set_solver.
    split; [|tauto]. intros E. exfalso.
    assert (size (list_to_set l : gset name) <= length l)%nat; [|lia].
    clear. induction l as [|b l IH]; simpl; [done|].
    rewrite size_union_alt, size_singleton. pose proof (subseteq_size (list_to_set l ∖ {[b]} : gset name) (list_to_set l)).
    specialize (H ltac:(set_solver)). lia.
  - rewrite size_union by set_solver. rewrite size_singleton. rewrite <- IH. split; [intros; split; [done|lia]|lia].
Qed.

Lemma order_Permutation dirty_names :
  merge_sort (index_le dirty_names) (seq 0 (length dirty_names)) ≡ₚ seq 0 (length dirty_names).
Proof. apply merge_sort_Permutation. Qed.

Lemma length_assign_names counts dirty bases order out used :
  length (assign_names counts dirty bases order out used).1 = length out.
Proof.
  unfold assign_names. induction order as [|idx order IH] using rev_ind; [done|].
  rewrite foldl_snoc. destruct (foldl _ _ order) as [o u]. simpl in *. by rewrite length_insert.
Qed.

Lemma length_clean_sibling dirty_names opts :
  length (clean_sibling_field_names dirty_names opts) = length dirty_names.
Proof.
  unfold clean_sibling_field_names. destruct (prepared_uses_preserve_policy opts); [done|].
  case_match; [apply length_fmap|]. by rewrite length_assign_names, length_replicate.
Qed.

Lemma clean_sibling_NoDup dirty_names opts :
  prepared_uses_preserve_policy opts = false -> NoDup (clean_sibling_field_names dirty_names opts).
Proof.
  intros Hp. unfold clean_sibling_field_names. rewrite Hp. case_match eqn:E.
  - apply Nat.eqb_eq in E. apply count_base_size. by rewrite length_fmap.
  - set (bases := _ <$> dirty_names). set (order := merge_sort _ _).
    destruct (assign_names_spec (foldl count_base ∅ bases) dirty_names bases (length dirty_names) order)
      as (Hlen & _ & Hinj).
    { unfold order. rewrite order_Permutation. apply NoDup_seq. }
    { intros i. unfold order. rewrite order_Permutation, elem_of_seq. lia. }
    apply NoDup_alt. intros i j x Hi Hj. apply Hinj.
    + unfold order. rewrite order_Permutation, elem_of_seq. apply lookup_lt_Some in Hi. lia.
    + unfold order. rewrite order_Permutation, elem_of_seq. apply lookup_lt_Some in Hj. lia.
    + by rewrite (list_lookup_total_correct _ _ _ Hi), (list_lookup_total_correct _ _ _ Hj).
Qed.

(** ** The names do not depend on the order of the siblings *)

Lemma count_base_comm m x y : count_base (count_base m x) y = count_base (count_base m y) x.
Proof.
  unfold count_base. destruct (decide (x = y)) as [->|Hne]; [done|].
  rewrite !lookup_insert_ne by done. by apply insert_insert_ne.
Qed.

Lemma count_base_Permutation l1 l2 : l1 ≡ₚ l2 -> forall m, foldl count_base m l1 = foldl count_base m l2.
Proof.
  induction 1 as [|x l1 l2 _ IH|x y l|l1 l2 l3 _ IH1 _ IH2]; intros m; simpl; auto.
  - by rewrite count_base_comm.
  - by rewrite IH1, IH2.
Qed.

#[export] Instance index_le_total dirty_names : Total (index_le dirty_names).
Proof.
  intros l r. unfold index_le. destruct (decide (dirty_names !!! l = dirty_names !!! r)) as [E|E].
  - rewrite decide_True by done. lia.
  - rewrite decide_False by done. apply name_le_total.
Qed.

Lemma index_le_name dirty_names l r :
  index_le dirty_names l r -> name_le (dirty_names !!! l) (dirty_names !!! r).
Proof.
  unfold index_le. case_decide as E; [|done]. intros _. rewrite E.
  by destruct (name_le_total (dirty_names !!! r) (dirty_names !!! r)).
Qed.

#[export] Instance index_le_trans dirty_names : Transitive (index_le dirty_names).
Proof.
  intros x y z Hxy Hyz. pose proof (index_le_name _ _ _ Hxy) as H1. pose proof (index_le_name _ _ _ Hyz) as H2.
  unfold index_le in *. destruct (decide (dirty_names !!! x = dirty_names !!! z)) as [E|E].
  - assert (dirty_names !!! x = dirty_names !!! y) as E1.
    { apply (anti_symm name_le); [done|]. rewrite E. done. }
    rewrite decide_True in Hxy by done. rewrite decide_True in Hyz by congruence. lia.
  - by transitivity (dirty_names !!! y).
Qed.

Lemma StronglySorted_fmap {A B} (R : A -> A -> Prop) (R' : B -> B -> Prop) (f : A -> B) l :
  (forall x y, R x y -> R' (f x) (f y)) -> StronglySorted R l -> StronglySorted R' (f <$> l).
Proof.
  intros Hf. induction 1 as [|x l _ IH Hx]; simpl; constructor; [done|].
  apply Forall_fmap. eapply Forall_impl; [exact Hx|]. intros y. apply Hf.
Qed.

(** The loop serves the siblings in the order of their source names. *)
Lemma order_names dirty_names :
  (fun i => dirty_names !!! i) <$> merge_sort (index_le dirty_names) (seq 0 (length dirty_names))
  = merge_sort name_le dirty_names.
Proof.
  apply (StronglySorted_unique name_le).
  - eapply StronglySorted_fmap; [|apply (StronglySorted_merge_sort (index_le dirty_names))].
    apply index_le_name.
  - apply (StronglySorted_merge_sort name_le).
  - rewrite order_Permutation, merge_sort_Permutation. apply reflexive_eq.
    apply list_eq. intros i. rewrite list_lookup_fmap.
    destruct (decide (i < length dirty_names)%nat) as [Hi|Hi].
    + rewrite lookup_seq_lt by done. simpl. symmetry. by apply list_lookup_lookup_total_lt.
    + rewrite lookup_seq_ge, lookup_ge_None_2 by lia. done.
Qed.

(** The loop, keyed by source name instead of position *)
Definition assign_step (opts : PreparedOptions) (counts : gmap name nat)
    (st : gmap name name * gset name) (dirty : name) : gmap name name * gset name :=
  let c := pick_name st.2 counts dirty (clean_field_name_base dirty opts) in
  (<[dirty := c]> st.1, {[c]} ∪ st.2).

Section ByName.
Variables (opts : PreparedOptions) (dirty_names : list name) (counts : gmap name nat).
Hypothesis Hnd : NoDup dirty_names.

Let bases := (fun dirty => clean_field_name_base dirty opts) <$> dirty_names.

Lemma assign_by_name order :
  NoDup order -> (forall i, i ∈ order -> (i < length dirty_names)%nat) ->
  let st := assign_names counts dirty_names bases order (replicate (length dirty_names) []) ∅ in
  let sp := foldl (assign_step opts counts) (∅, ∅) ((fun i => dirty_names !!! i) <$> order) in
  st.2 = sp.2 /\ forall i, i ∈ order -> sp.1 !! (dirty_names !!! i) = Some (st.1 !!! i).
Proof.
  cbv zeta. unfold assign_names. induction order as [|idx order IH] using rev_ind; intros Hno Hlt.
  { split; [done|]. by intros i ?%elem_of_nil. }
  apply NoDup_app in Hno as (Hno & Hnew & _).
  assert (idx < length dirty_names)%nat as Hidx by (apply Hlt, elem_of_app; right; by left).
  rewrite fmap_app, !foldl_app. cbn [foldl fold_left fmap list_fmap].
  destruct (IH Hno) as [Eu Ho]; [intros i Hi; apply Hlt, elem_of_app; auto|].
  pose proof (length_assign_names counts dirty_names bases order (replicate (length dirty_names) []) ∅) as Hlen.
  unfold assign_names in Hlen. rewrite length_replicate in Hlen.
  destruct (foldl _ (replicate _ _, _) order) as [out used]. destruct (foldl _ _ (_ <$> order)) as [m used'].
  simpl in *. subst used'. unfold assign_step. simpl.
  assert (bases !!! idx = clean_field_name_base (dirty_names !!! idx) opts) as ->.
  { apply list_lookup_total_correct. unfold bases.
    by rewrite list_lookup_fmap, (list_lookup_lookup_total_lt dirty_names idx Hidx). }
  split; [done|]. intros i [Hi|Hi%list_elem_of_singleton]%elem_of_app.
  - assert (i <> idx) as Hne by (intros ->; apply (Hnew idx); [done|by left]).
    rewrite list_lookup_total_insert_ne by done. rewrite lookup_insert_ne; [by apply Ho|].
    intros E. apply Hne. eapply (NoDup_lookup dirty_names); [done|..].
    + apply list_lookup_lookup_total_lt. apply Hlt, elem_of_app; auto.
    + rewrite <- E. by apply list_lookup_lookup_total_lt.
  - subst i. by rewrite lookup_insert_eq, list_lookup_total_insert_eq by lia.
Qed.
End ByName.

(** The final name of each source name, as a function of the set of siblings *)
Definition sibling_map (opts : PreparedOptions) (dirty_names : list name) : gmap name name :=
  (foldl (assign_step opts (foldl count_base ∅ ((fun d => clean_field_name_base d opts) <$> dirty_names)))
     (∅, ∅) (merge_sort name_le dirty_names)).1.

Lemma clean_sibling_by_name opts dirty_names i d :
  NoDup dirty_names -> prepared_uses_preserve_policy opts = false -> dirty_names !! i = Some d ->
  clean_sibling_field_names dirty_names opts !! i
  = if decide (NoDup ((fun d => clean_field_name_base d opts) <$> dirty_names))
    then Some (clean_field_name_base d opts) else sibling_map opts dirty_names !! d.
Proof.
  intros Hnd Hp Hi. unfold clean_sibling_field_names. rewrite Hp.
  set (bases := _ <$> dirty_names).
  assert (size (foldl count_base ∅ bases) = length dirty_names <-> NoDup bases) as Hsize.
  { rewrite <- count_base_size. unfold bases. by rewrite length_fmap. }
  pose proof (lookup_lt_Some _ _ _ Hi) as Hlt. case_decide as Hb.
  - rewrite (proj2 (Nat.eqb_eq _ _)) by (by apply Hsize). unfold bases. by rewrite list_lookup_fmap, Hi.
  - rewrite (proj2 (Nat.eqb_neq _ _)) by (by rewrite Hsize).
    set (order := merge_sort _ _).
    destruct (assign_by_name opts dirty_names (foldl count_base ∅ bases) Hnd order) as [_ Ho].
    { unfold order. rewrite order_Permutation. apply NoDup_seq. }
    { intros j. unfold order. rewrite order_Permutation, elem_of_seq. lia. }
    unfold order in Ho at 2. rewrite order_names in Ho.
    unfold sibling_map. rewrite <- (list_lookup_total_correct _ _ _ Hi).
    rewrite Ho by (unfold order; rewrite order_Permutation, elem_of_seq; lia).
    apply list_lookup_lookup_total_lt. by rewrite length_assign_names, length_replicate.
Qed.

(** C26: under every policy that rewrites names, each sibling gets one name and
    no two siblings share one, also when their source names are equal or
    differ only in characters the policy drops; the collision loops end. *)
Theorem sibling_names_distinct opts dirty_names :
  prepared_uses_preserve_policy opts = false ->
  length (clean_sibling_field_names dirty_names opts) = length dirty_names /\
  NoDup (clean_sibling_field_names dirty_names opts).
Proof. intros Hp. split; [apply length_clean_sibling|by apply clean_sibling_NoDup]. Qed.

(** A source name gets the same output name whatever the order in which its
    siblings arrive. *)
Theorem sibling_names_deterministic opts dirty1 dirty2 i j d :
  prepared_uses_preserve_policy opts = false -> NoDup dirty1 -> dirty1 ≡ₚ dirty2 ->
  dirty1 !! i = Some d -> dirty2 !! j = Some d ->
  clean_sibling_field_names dirty1 opts !! i = clean_sibling_field_names dirty2 opts !! j.
Proof.
  intros Hp Hnd Hperm Hi Hj. assert (NoDup dirty2) as Hnd2 by (by rewrite <- Hperm).
  rewrite (clean_sibling_by_name opts dirty1 i d), (clean_sibling_by_name opts dirty2 j d) by done.
  assert ((fun d => clean_field_name_base d opts) <$> dirty1 ≡ₚ (fun d => clean_field_name_base d opts) <$> dirty2)
    as Hbases by (by rewrite Hperm).
  unfold sibling_map. rewrite (count_base_Permutation _ _ Hbases).
  assert (merge_sort name_le dirty1 = merge_sort name_le dirty2) as ->.
  { apply (StronglySorted_unique name_le); [apply (StronglySorted_merge_sort name_le)..|].
    by rewrite !merge_sort_Permutation. }
  rewrite (decide_ext (NoDup _) (NoDup ((fun d => clean_field_name_base d opts) <$> dirty2))) by (by rewrite Hbases).
  done.
Qed.

(** ** The lower-snake grammar *)

Definition snake_char (c : ascii) : bool := is_lower c || is_digit c || bool_decide (c = underscore).

(** No underscore at the start (when [prev]) or after another underscore *)
Fixpoint snake_ok (prev : bool) (s : name) : bool :=
  match s with
  | [] => true
  | c :: s => snake_char c && negb (bool_decide (c = underscore) && prev)
              && snake_ok (bool_decide (c = underscore)) s
  end.

(** Column names every target accepts: a lower-case letter, then lower-case
    letters, digits and single underscores, not ending in an underscore *)
Definition is_snake (n : name) : Prop :=
  snake_ok true n = true /\ last n <> Some underscore /\
  exists c rest, n = c :: rest /\ is_lower c = true.

Lemma byte_of_bound c : 0 <= byte_of c < 256.
Proof. unfold byte_of. pose proof (N_ascii_bounded c). lia. Qed.

Lemma byte_of_chr z : 0 <= z < 256 -> byte_of (chr z) = z.
Proof.
  intros Hz. unfold byte_of, chr. rewrite N_ascii_embedding by lia. lia.
Qed.

Lemma chr_byte_of c : chr (byte_of c) = c.
Proof. unfold byte_of, chr. rewrite N2Z.id. apply ascii_N_embedding. Qed.

Lemma byte_of_inj c d : byte_of c = byte_of d -> c = d.
Proof. intros E. rewrite <- (chr_byte_of c), <- (chr_byte_of d). by rewrite E. Qed.

Lemma byte_of_underscore : byte_of underscore = 95.
Proof. done. Qed.

(** A fact about every byte, by cases *)
Ltac all_bytes c := destruct c as [[] [] [] [] [] [] [] []]; vm_compute; auto; try discriminate.

Lemma lower_snake_char c : snake_char (lower_snake c) = true.
Proof. all_bytes c. Qed.

Lemma lower_snake_fix c : snake_char c = true -> lower_snake c = c.
Proof. all_bytes c. Qed.

Lemma snake_char_start c :
  snake_char c = true -> c <> underscore -> is_digit c = false -> is_lower c = true.
Proof. all_bytes c; tauto. Qed.

Lemma is_lower_not c : is_lower c = true -> is_digit c = false /\ c <> underscore.
Proof. all_bytes c; intros _; split; (reflexivity || discriminate). Qed.

Definition ends_underscore (s : name) : bool := bool_decide (last s = Some underscore).

Lemma snake_ok_snoc prev s c :
  snake_ok prev (s ++ [c])
  = snake_ok prev s && snake_char c
    && negb (bool_decide (c = underscore) && match s with [] => prev | _ => ends_underscore s end).
Proof.
  revert prev. induction s as [|d s IH]; intros prev; simpl.
  - by rewrite andb_true_r.
  - rewrite IH. rewrite <- !andb_assoc. do 4 f_equal.
    destruct s as [|e s]; [|done]. unfold ends_underscore. simpl. do 2 f_equal.
    apply bool_decide_ext. split; [by intros ->|by intros [= ->]].
Qed.

(** The loop builds names without leading or repeated underscores. *)
Lemma snake_fold dirty :
  let '(out, prev) := foldl snake_step ([], false) dirty in
  snake_ok true out = true /\ (out <> [] -> prev = ends_underscore out).
Proof.
  induction dirty as [|c dirty IH] using rev_ind; [done|].
  rewrite foldl_snoc. destruct (foldl snake_step ([], false) dirty) as [out prev].
  destruct IH as [Hok Hprev]. unfold snake_step.
  pose proof (lower_snake_char c) as Hc. set (d := lower_snake c) in *.
  assert (forall s, ends_underscore (s ++ [d]) = bool_decide (d = underscore)) as Hend.
  { intros s. unfold ends_underscore. rewrite last_snoc. apply bool_decide_ext. split; [by intros [= ->]|by intros ->]. }
  case_bool_decide as Hd.
  - destruct prev; simpl.
    + split; [done|]. intros Hne. by rewrite <- Hprev.
    + case_bool_decide as He; simpl; [by subst|]. rewrite snake_ok_snoc, Hok, Hc, Hend.
      rewrite bool_decide_eq_true_2 by done. destruct out as [|e out]; [done|].
      rewrite <- Hprev by done. done.
  - rewrite snake_ok_snoc, Hok, Hc, Hend. by rewrite bool_decide_eq_false_2 by done.
Qed.

Lemma drop_underscores_spec r :
  exists k, r = replicate k underscore ++ drop_underscores r /\ head (drop_underscores r) <> Some underscore.
Proof.
  induction r as [|c r (k & E & Hh)]; simpl; [by exists 0%nat|].
  case_bool_decide as Hc; [|exists 0%nat; simpl; split; congruence].
  exists (S k). simpl. split; [congruence|done].
Qed.

Lemma snake_ok_prefix prev s t : snake_ok prev (s ++ t) = true -> snake_ok prev s = true.
Proof.
  revert prev. induction s as [|c s IH]; intros prev; simpl; [done|].
  rewrite !andb_true_iff. intros ((H1 & H2) & H3%IH). auto.
Qed.

(** What the trimming leaves of the loop's output *)
Lemma snake_trim out :
  snake_ok true out = true ->
  let r := reverse (drop_underscores (reverse out)) in
  snake_ok true r = true /\ last r <> Some underscore.
Proof.
  intros Hok r. destruct (drop_underscores_spec (reverse out)) as (k & E & Hh).
  assert (out = r ++ reverse (replicate k underscore)) as Eout.
  { rewrite <- (reverse_involutive out), E, reverse_app. done. }
  split.
  - rewrite Eout in Hok. by eapply snake_ok_prefix.
  - unfold r. rewrite last_reverse. done.
Qed.

Lemma snake_ok_app prev s t :
  s <> [] -> snake_ok prev (s ++ t) = snake_ok prev s && snake_ok (ends_underscore s) t.
Proof.
  revert prev. induction s as [|c s IH]; intros prev Hne; [done|]. destruct s as [|d s].
  - simpl. rewrite andb_true_r. f_equal. unfold ends_underscore. simpl. f_equal.
    apply bool_decide_ext. split; [by intros ->|by intros [= ->]].
  - cbn [app snake_ok] in *. rewrite IH by done. rewrite !andb_assoc. done.
Qed.

Lemma lower_snake_base_snake dirty : is_snake (lower_snake_base dirty).
Proof.
  unfold lower_snake_base. pose proof (snake_fold dirty) as H.
  destruct (foldl snake_step ([], false) dirty) as [out prev]. destruct H as [Hok _]. simpl.
  destruct (snake_trim out Hok) as [Hr Hl]. set (r := reverse _) in *.
  destruct r as [|c r]; [split_and!; [done|done|by exists "f"%char, (str "ield")]|].
  destruct (is_digit c) eqn:Hd.
  - change (is_snake (str "field_" ++ c :: r)). split_and!.
    + rewrite snake_ok_app by done. exact Hr.
    + by rewrite last_app_cons.
    + by exists "f"%char, (str "ield_" ++ c :: r).
  - split_and!; [done|done|]. exists c, r. split; [done|]. simpl in Hr.
    rewrite !andb_true_iff, negb_true_iff, andb_true_r in Hr. destruct Hr as [[Hc Hu%bool_decide_eq_false] _].
    by apply snake_char_start.
Qed.

Lemma snake_fold_fix s acc prev :
  snake_ok (prev || bool_decide (acc = [])) s = true ->
  (acc <> [] -> prev = ends_underscore acc) ->
  (foldl snake_step (acc, prev) s).1 = acc ++ s.
Proof.
  revert acc prev. induction s as [|c s IH]; intros acc prev Hok Hprev; [by rewrite app_nil_r|].
  simpl in Hok |- *. rewrite !andb_true_iff in Hok. destruct Hok as [[Hc Hu] Hok].
  unfold snake_step. rewrite (lower_snake_fix c Hc).
  assert (ends_underscore (acc ++ [c]) = bool_decide (c = underscore)) as Hend.
  { unfold ends_underscore. rewrite last_snoc. apply bool_decide_ext. split; [by intros [= ->]|by intros ->]. }
  case_bool_decide as Hcu.
  - simpl in Hu. rewrite negb_true_iff, orb_false_iff in Hu. destruct Hu as [-> He%bool_decide_eq_false].
    rewrite bool_decide_eq_false_2 by done. simpl.
    rewrite IH; [by rewrite <- app_assoc|by destruct acc|]. intros _. by rewrite Hend.
  - rewrite IH; [by rewrite <- app_assoc| |].
    + simpl. rewrite bool_decide_eq_false_2 by (by destruct acc). done.
    + intros _. by rewrite Hend.
Qed.

Lemma lower_snake_base_fix n : is_snake n -> lower_snake_base n = n.
Proof.
  intros (Hok & Hl & c & rest & -> & Hc). destruct (is_lower_not c Hc) as [Hd Hu].
  unfold lower_snake_base. rewrite (snake_fold_fix (c :: rest) [] false) by done. simpl app.
  assert (drop_underscores (reverse (c :: rest)) = reverse (c :: rest)) as ->.
  { rewrite <- (reverse_involutive (c :: rest)), last_reverse in Hl.
    destruct (reverse (c :: rest)) as [|d r]; [done|]. simpl in *.
    by rewrite bool_decide_eq_false_2 by congruence. }
  rewrite reverse_involutive. by rewrite Hd.
Qed.

(** every name the lower-snake policy produces starts with a lower-case
    letter and holds only lower-case letters, digits and single underscores
    with none at the end, whatever the source bytes; the names of that grammar
    are exactly those the policy leaves alone, so sanitizing twice changes
    nothing. *)
Theorem lower_snake_normal_form dirty :
  is_snake (lower_snake_base dirty) /\
  lower_snake_base (lower_snake_base dirty) = lower_snake_base dirty /\
  (is_snake dirty <-> lower_snake_base dirty = dirty).
Proof.
  pose proof (lower_snake_base_snake dirty) as H. split_and!; [done|by apply lower_snake_base_fix|].
  split; [apply lower_snake_base_fix|]. by intros <-.
Qed.

(** ** Versioned names round-trip *)

Lemma is_digit_chr d : 0 <= d < 10 -> is_digit (chr (48 + d)) = true.
Proof. intros Hd. unfold is_digit. rewrite byte_of_chr by lia. lia. Qed.

Lemma digit_value_chr d : 0 <= d < 10 -> digit_value (chr (48 + d)) = d.
Proof. intros Hd. unfold digit_value. rewrite byte_of_chr by lia. lia. Qed.

Definition decode_digits (v : Z) (ds : name) : Z := foldl (fun v c => 10 * v + digit_value c) v ds.

Lemma to_chars_loop_spec fuel v acc :
  0 <= v < 10 ^ Z.of_nat fuel -> (0 < fuel)%nat ->
  exists ds, to_chars_loop fuel v acc = ds ++ acc /\ ds <> [] /\
    forallb is_digit ds = true /\ decode_digits 0 ds = v.
Proof.
  revert v acc. induction fuel as [|fuel IH]; intros v acc Hv Hf; [lia|].
  assert (0 <= v mod 10 < 10) by (apply Z.mod_pos_bound; lia). simpl.
  destruct (Z.eqb_spec (v / 10) 0) as [E|E].
  - exists [chr (48 + v mod 10)]. split_and!; [done|done| |].
    + simpl. by rewrite is_digit_chr.
    + unfold decode_digits. simpl. rewrite digit_value_chr by done.
      pose proof (Z.div_mod v 10). lia.
  - assert (0 < fuel)%nat as Hf'.
    { destruct fuel; [|lia]. simpl in Hv. rewrite Z.div_small in E by lia. done. }
    destruct (IH (v / 10) (chr (48 + v mod 10) :: acc)) as (ds & -> & Hne & Hds & Hdec); [|done|].
    + split; [apply Z.div_pos; lia|]. apply Z.div_lt_upper_bound; [lia|].
      rewrite Nat2Z.inj_succ, Z.pow_succ_r in Hv by lia. lia.
    + exists (ds ++ [chr (48 + v mod 10)]). split_and!.
      * by rewrite <- app_assoc.
      * by destruct ds.
      * rewrite forallb_app, Hds. simpl. by rewrite is_digit_chr.
      * unfold decode_digits in *. rewrite foldl_snoc, Hdec, digit_value_chr by done.
        pose proof (Z.div_mod v 10). lia.
Qed.

Lemma to_chars_spec v :
  0 <= v ->
  to_chars v <> [] /\ forallb is_digit (to_chars v) = true /\ decode_digits 0 (to_chars v) = v.
Proof.
  intros Hv. unfold to_chars. destruct (Z.ltb_spec v 0); [lia|].
  destruct (to_chars_loop_spec (S (Z.to_nat (Z.log2 v))) v []) as (ds & -> & Hne & Hds & Hdec).
  - split; [done|]. pose proof (Z.log2_nonneg v). rewrite Nat2Z.inj_succ, Z2Nat.id by done.
    assert (v < 2 ^ Z.succ (Z.log2 v)).
    { destruct (decide (v = 0)) as [->|]; [done|]. apply Z.log2_spec. lia. }
    assert (2 ^ Z.succ (Z.log2 v) <= 10 ^ Z.succ (Z.log2 v)) by (apply Z.pow_le_mono_l; lia). lia.
  - lia.
  - by rewrite app_nil_r.
Qed.

Lemma digit_not c : is_digit c = true -> c <> "-"%char /\ c <> underscore.
Proof. all_bytes c; intros _; split; discriminate. Qed.

Lemma from_chars_to_chars v : 0 <= v <= INT_MAX -> from_chars_int (to_chars v) = Some v.
Proof.
  intros Hv. destruct (to_chars_spec v ltac:(lia)) as (Hne & Hds & Hdec). unfold from_chars_int.
  destruct (to_chars v) as [|c ds] eqn:E; [done|].
  assert (is_digit c = true) as Hc by (simpl in Hds; by apply andb_true_iff in Hds as [? _]).
  destruct (digit_not c Hc) as [Hm _]. rewrite bool_decide_eq_false_2 by done.
  rewrite bool_decide_eq_true_2, Hds by done. unfold decode_digits in Hdec. simpl in Hdec |- *. rewrite Hdec.
  destruct (Z.leb_spec v INT_MAX); [done|lia].
Qed.

Lemma to_chars_inj v w : 0 <= v -> 0 <= w -> to_chars v = to_chars w -> v = w.
Proof.
  intros Hv Hw E. destruct (to_chars_spec v Hv) as (_ & _ & <-), (to_chars_spec w Hw) as (_ & _ & <-).
  by rewrite E.
Qed.

Lemma rfind_marker_app l n i : rfind_marker n = Some i -> rfind_marker (l ++ n) = Some (length l + i)%nat.
Proof. intros E. induction l as [|c l IH]; simpl; [done|]. by rewrite IH. Qed.

Lemma rfind_marker_cons_digit c n : is_digit c = true -> rfind_marker n = None -> rfind_marker (c :: n) = None.
Proof.
  intros Hc E. simpl. rewrite E. destruct (digit_not c Hc) as [_ Hu].
  destruct n; [done|]. by rewrite bool_decide_eq_false_2.
Qed.

Lemma rfind_marker_digits ds n :
  forallb is_digit ds = true -> rfind_marker n = None -> rfind_marker (ds ++ n) = None.
Proof.
  intros Hds Hn. induction ds as [|c ds IH]; simpl app; [done|]. simpl in Hds.
  apply andb_true_iff in Hds as [Hc Hds]. apply rfind_marker_cons_digit; auto.
Qed.

Lemma find_underscore_digits ds n :
  forallb is_digit ds = true -> find_underscore (ds ++ underscore :: n) = Some (length ds).
Proof.
  induction ds as [|c ds IH]; intros Hds; [done|]. simpl in Hds. apply andb_true_iff in Hds as [Hc Hds].
  destruct (digit_not c Hc) as [_ Hu]. simpl. rewrite bool_decide_eq_false_2 by done. by rewrite IH.
Qed.

(** A semantic suffix: non-empty, letters and single inner underscores, and no
    version marker, also across the separator before it *)
Record semantic_suffix (ty : name) : Prop := {
  sem_ok : semantic_type_ok false ty = true;
  sem_head : head ty <> Some underscore;
  sem_last : last ty <> Some underscore;
  sem_long : (4 <= length ty)%nat;
  sem_marker : rfind_marker (underscore :: ty) = None
}.

Lemma make_marker base v ty :
  0 <= v -> semantic_suffix ty -> rfind_marker (make_versioned_field_name base v ty) = Some (length base).
Proof.
  intros Hv [_ _ _ _ Hm]. destruct (to_chars_spec v Hv) as (Hne & Hds & _). unfold make_versioned_field_name.
  rewrite (rfind_marker_app base _ 0); [f_equal; lia|]. simpl.
  rewrite (rfind_marker_digits (to_chars v)) by done. simpl. by destruct (to_chars v).
Qed.

(** A generated name parses to what it was made from, when its version still
    fits an [int]. *)
Lemma parse_make_raw base v ty :
  base <> [] -> 0 <= v -> semantic_suffix ty ->
  parse_versioned_field_name (make_versioned_field_name base v ty)
  = from_chars_int (to_chars v) ≫= fun v' => if v' <? 2 then None else Some (MkVersioned base v' ty).
Proof.
  intros Hb Hv Hs. pose proof (make_marker base v ty Hv Hs) as Hmark. destruct Hs as [Hok Hh Hl Hlen Hm].
  destruct (to_chars_spec v ltac:(lia)) as (Hne & Hds & _).
  unfold make_versioned_field_name in *. set (ds := to_chars v) in *.
  set (n := base ++ str "_v" ++ ds ++ [underscore] ++ ty) in *.
  assert (0 < length base)%nat by (destruct base; [done|simpl; lia]).
  assert (0 < length ds)%nat by (destruct ds; [done|simpl; lia]).
  assert (length n = length base + 2 + length ds + 1 + length ty)%nat as Hn.
  { unfold n. rewrite !length_app. simpl. lia. }
  assert (drop (length base + 2) n = ds ++ underscore :: ty) as Hd.
  { unfold n. by rewrite drop_app_add. }
  unfold parse_versioned_field_name. rewrite Hmark.
  rewrite (proj2 (Nat.ltb_ge _ _)) by lia.
  rewrite (proj2 (Nat.eqb_neq _ _)), (proj2 (Nat.leb_gt _ _)) by lia. cbn [orb].
  rewrite Hd, find_underscore_digits by done.
  rewrite (proj2 (Nat.eqb_neq _ _)), (proj2 (Nat.leb_gt _ _)) by lia. cbn [orb].
  rewrite take_app_length. destruct (from_chars_int ds) as [v'|]; [|done]. cbn [mbind option_bind].
  assert (drop (length base + 2 + length ds + 1) n = ty) as ->.
  { rewrite <- (drop_drop n 1), <- (drop_drop n), Hd, drop_app_length. done. }
  destruct (v' <? 2); [done|]. rewrite Hok. cbn [negb].
  rewrite !bool_decide_eq_false_2 by done. cbn [orb]. do 2 f_equal.
  unfold n. by rewrite take_app_length.
Qed.

Lemma parse_make_versioned base v ty :
  base <> [] -> 2 <= v <= INT_MAX -> semantic_suffix ty ->
  parse_versioned_field_name (make_versioned_field_name base v ty) = Some (MkVersioned base v ty).
Proof.
  intros Hb Hv Hs. rewrite parse_make_raw by (done || lia). rewrite from_chars_to_chars by lia.
  simpl. destruct (Z.ltb_spec v 2); [lia|done].
Qed.

Lemma parse_make_nil v ty :
  0 <= v -> semantic_suffix ty -> parse_versioned_field_name (make_versioned_field_name [] v ty) = None.
Proof.
  intros Hv Hs. unfold parse_versioned_field_name. rewrite (make_marker [] v ty Hv Hs). by destruct (_ <? 7)%nat.
Qed.

Lemma parse_make_base base v ty p :
  0 <= v -> semantic_suffix ty ->
  parse_versioned_field_name (make_versioned_field_name base v ty) = Some p -> ver_base p = base.
Proof.
  intros Hv Hs. destruct (decide (base = [])) as [->|Hb]; [by rewrite parse_make_nil|].
  rewrite parse_make_raw by done. destruct (from_chars_int _); [|done]. simpl.
  destruct (_ <? 2); [done|]. by intros [= <-].
Qed.

(** ** Sanitized schemas *)

(** Types as the constructors build them, with names that may still repeat *)
Inductive shaped : LogicalType -> Prop :=
| shaped_scalar k : k <> kStruct -> k <> kList -> shaped (MkType k [] None)
| shaped_struct fs v : Forall (fun f => forall t, ftype f = Some t -> shaped t) fs -> shaped (MkType kStruct fs v)
| shaped_list fs v : (forall t, v = Some t -> shaped t) -> shaped (MkType kList fs v).

(** The same tree up to the names of its fields *)
Inductive renamed : LogicalType -> LogicalType -> Prop :=
| renamed_scalar k : k <> kStruct -> k <> kList -> renamed (MkType k [] None) (MkType k [] None)
| renamed_struct fs v fs' :
    Forall2 (fun f f' => nullable f' = nullable f /\
      ((ftype f = None /\ ftype f' = None) \/
       exists t t', ftype f = Some t /\ ftype f' = Some t' /\ renamed t t')) fs fs' ->
    renamed (MkType kStruct fs v) (MkType kStruct fs' None)
| renamed_list fs v v' :
    ((v = None /\ v' = None) \/ exists t t', v = Some t /\ v' = Some t' /\ renamed t t') ->
    renamed (MkType kList fs v) (MkType kList [] v').

Definition renamed_fields (fs fs' : list LogicalField) : Prop :=
  Forall2 (fun f f' => nullable f' = nullable f /\
    ((ftype f = None /\ ftype f' = None) \/
     exists t t', ftype f = Some t /\ ftype f' = Some t' /\ renamed t t')) fs fs'.

Lemma length_sanitized s fs opts : length (sanitize_logical_fields s fs opts) = length fs.
Proof.
  unfold sanitize_logical_fields. rewrite length_zip_with, length_clean_sibling, !length_map. lia.
Qed.

Lemma sanitized_names s fs opts :
  field_names (sanitize_logical_fields s fs opts) = clean_sibling_field_names (field_names fs) opts.
Proof.
  unfold sanitize_logical_fields, field_names. rewrite fmap_zip_with_l; [done|done|].
  rewrite length_clean_sibling, !length_map. lia.
Qed.

(** The [i]-th sanitized field *)
Lemma sanitized_lookup s fs opts i f' :
  sanitize_logical_fields s fs opts !! i = Some f' ->
  exists f n, fs !! i = Some f /\ clean_sibling_field_names (field_names fs) opts !! i = Some n /\
    f' = MkField n (ftype (retype_field s f)) (nullable f).
Proof.
  unfold sanitize_logical_fields. rewrite lookup_zip_with_Some.
  intros (n & g & -> & Hn & Hg). rewrite list_lookup_fmap_Some in Hg. destruct Hg as (f & -> & Hf).
  exists f, n. split_and!; auto. by destruct f as [? [] ?].
Qed.

Lemma sanitized_renamed s fs opts :
  (forall f t, f ∈ fs -> ftype f = Some t -> renamed t (s t)) ->
  renamed_fields fs (sanitize_logical_fields s fs opts).
Proof.
  intros Hs. apply Forall2_same_length_lookup. split; [by rewrite length_sanitized|].
  intros i f f' Hf Hf'. apply sanitized_lookup in Hf' as (g & n & Hg & _ & ->).
  assert (g = f) as -> by congruence. split; [done|]. apply list_elem_of_lookup_2 in Hf.
  destruct f as [m [t|] b]; simpl; [right|by left]. eexists _, _. split_and!; [done|done|].
  by apply (Hs (MkField m (Some t) b)).
Qed.

Lemma sanitized_wf s fs opts :
  prepared_uses_preserve_policy opts = false ->
  (forall f t, f ∈ fs -> ftype f = Some t -> well_formed (s t)) ->
  wf_fields (sanitize_logical_fields s fs opts).
Proof.
  intros Hp Hs. split; [rewrite sanitized_names; by apply clean_sibling_NoDup|].
  apply Forall_lookup. intros i f' Hf'. apply sanitized_lookup in Hf' as (f & n & Hf & _ & ->).
  apply list_elem_of_lookup_2 in Hf. unfold wf_field. simpl.
  destruct f as [m [t|] b]; simpl; [|done]. by apply (Hs (MkField m (Some t) b)).
Qed.

Lemma sanitize_type_spec opts t :
  prepared_uses_preserve_policy opts = false -> shaped t ->
  well_formed (sanitize_logical_type_names opts t) /\ renamed t (sanitize_logical_type_names opts t).
Proof.
  intros Hp. type_induction t. intros Ht.
  inversion Ht as [k' Hs Hl|fs' v' Hf|fs' v' Hv]; subst.
  - destruct k; try done; (split; [by apply well_formed_scalar|by apply renamed_scalar]).
  - cbn [sanitize_logical_type_names]. rewrite Forall_forall in IHfs, Hf. split.
    + apply well_formed_struct. split; [done|]. apply sanitized_wf; [done|].
      intros f t Hin Et. by apply (IHfs f Hin t Et), (Hf f Hin).
    + apply renamed_struct, sanitized_renamed. intros f t Hin Et. by apply (IHfs f Hin t Et), (Hf f Hin).
  - cbn [sanitize_logical_type_names]. destruct v as [t|].
    + destruct (IHv t eq_refl (Hv t eq_refl)) as [Hw Hr]. split; [by apply well_formed_list|].
      apply renamed_list. right. eauto.
    + split; [by apply well_formed_list|]. apply renamed_list. by left.
Qed.

Definition shaped_fields (fs : list LogicalField) : Prop :=
  Forall (fun f => forall t, ftype f = Some t -> shaped t) fs.

(** Sanitizing a schema only renames.  It keeps every field, its position,
    nullability and type tree, and makes the names of the fields of every
    nested struct distinct; at the root they are distinct too when no source
    field carries a reserved metadata name, and a reserved name is always
    kept.  So a sanitized schema meets the assumption under which evolution is
    verified. *)
Theorem sanitize_schema_renames schema opts :
  prepared_uses_preserve_policy opts = false -> shaped_fields schema ->
  let out := sanitize_logical_schema_field_names schema opts in
  renamed_fields schema out /\ Forall wf_field out /\
  (forall i f f', schema !! i = Some f -> out !! i = Some f' ->
     is_reserved_etl_column_name (fname f) = true -> fname f' = fname f) /\
  (Forall (fun f => is_reserved_etl_column_name (fname f) = false) schema -> wf_fields out).
Proof.
  intros Hp Hsh out. unfold shaped_fields in Hsh. rewrite Forall_forall in Hsh.
  set (s := sanitize_logical_type_names opts). set (mid := sanitize_logical_fields s schema opts).
  assert (renamed_fields schema mid) as Hren.
  { apply sanitized_renamed. intros f t Hf Et. apply sanitize_type_spec; [done|]. by apply (Hsh f). }
  assert (wf_fields mid) as Hwf.
  { apply sanitized_wf; [done|]. intros f t Hf Et. apply sanitize_type_spec; [done|]. by apply (Hsh f). }
  assert (forall i f', out !! i = Some f' -> exists f g, schema !! i = Some f /\ mid !! i = Some g /\
    f' = if is_reserved_etl_column_name (fname f) then MkField (fname f) (ftype g) (nullable g) else g) as Hout.
  { intros i f' H. apply lookup_zip_with_Some in H as (f & g & -> & Hf & Hg). eauto. }
  assert (length out = length schema) as Hlen.
  { unfold out, sanitize_logical_schema_field_names. rewrite length_zip_with, length_sanitized. lia. }
  assert (renamed_fields schema out /\ Forall wf_field out) as [Hro Hwo].
  { split.
    - apply Forall2_same_length_lookup. split; [done|]. intros i f f' Hf Hf'.
      apply Hout in Hf' as (f0 & g & Hf0 & Hg & ->). assert (f0 = f) as -> by congruence.
      eapply Forall2_lookup_lr in Hren; [|exact Hf|exact Hg].
      by destruct (is_reserved_etl_column_name (fname f)).
    - apply Forall_lookup. intros i f' (f & g & Hf & Hg & ->)%Hout.
      destruct Hwf as [_ Hw]. rewrite Forall_lookup in Hw. specialize (Hw i g Hg).
      by destruct (is_reserved_etl_column_name (fname f)). }
  split_and!; [done|done| |].
  - intros i f f' Hf (f0 & g & Hf0 & _ & ->)%Hout Hr. assert (f0 = f) as -> by congruence. by rewrite Hr.
  - intros Hnr. split; [|done]. assert (out = mid) as ->; [|apply Hwf].
    apply list_eq_same_length with (length mid); [done|..].
    + rewrite Hlen. symmetry. apply length_sanitized.
    + intros i f' g Hi Hf' Hg. apply Hout in Hf' as (f & g' & Hf & Hg' & ->).
      rewrite Forall_lookup in Hnr. rewrite (Hnr i f Hf). congruence.
Qed.

(** ** Witnesses *)

Definition ex_opts : PreparedOptions := MkOptions kPolicyLowerSnake (str "default_key").
Definition ex_dirty : list name := [str "Order ID"; str "order-id"; str "total"].
Definition ex_dirty' : list name := [str "total"; str "order-id"; str "Order ID"].

Lemma sibling_names_distinct_witness :
  NoDup (clean_sibling_field_names ex_dirty ex_opts) /\
  clean_name_base (str "Order ID") kPolicyLowerSnake = clean_name_base (str "order-id") kPolicyLowerSnake.
Proof.
  split; [|vm_compute; reflexivity].
  exact (proj2 (sibling_names_distinct ex_opts ex_dirty eq_refl)).
Defined.

Lemma sibling_names_deterministic_witness :
  clean_sibling_field_names ex_dirty ex_opts !! 0%nat = clean_sibling_field_names ex_dirty' ex_opts !! 2%nat.
Proof.
  apply (sibling_names_deterministic ex_opts ex_dirty ex_dirty' 0 2 (str "Order ID")).
  - reflexivity.
  - apply (bool_decide_unpack _). vm_compute. exact I.
  - apply (bool_decide_unpack _). vm_compute. exact I.
  - reflexivity.
  - reflexivity.
Defined.

Definition ex_schema : LogicalSchema :=
  [MkField (str "source_file") (Some (Scalar kUtf8)) true;
   MkField (str "Line Items") (Some (List (Struct [MkField (str "SKU") (Some (Scalar kUtf8)) true;
                                                     MkField (str "sku") (Some (Scalar kInt64)) true]))) true].

Lemma ex_schema_shaped : shaped_fields ex_schema.
Proof.
  repeat constructor; simpl; intros t [= <-].
  - by apply shaped_scalar.
  - apply shaped_list. intros t [= <-]. apply shaped_struct.
    repeat constructor; simpl; intros t [= <-]; by apply shaped_scalar.
Qed.

Lemma sanitize_schema_renames_witness :
  Forall wf_field (sanitize_logical_schema_field_names ex_schema ex_opts) /\
  field_names (sanitize_logical_schema_field_names ex_schema ex_opts) = [str "source_file"; str "line_items"].
Proof.
  split; [|vm_compute; reflexivity].
  exact (proj1 (proj2 (sanitize_schema_renames ex_schema ex_opts eq_refl ex_schema_shaped))).
Defined.
