(* ===== verification/SchemaRegistry.v ===== *)
(** * The schema registry

    Models [cpp/src/schema_registry/schema_registry_types.cc], [schema_registry.cc],
    [schema_registry_numeric.cc] and [schema_registry_entry.cc]: merging an
    observed schema into the durable canonical schema, with version families
    for incompatible shapes, the drift events it records, and the collapse of
    integer and float siblings. *)

From Stdlib Require Import Ascii String.
From S2P Require Import Prelude LogicalSchema SchemaEvolution FieldNames.

Local Open Scope Z_scope.

Inductive TopLevelKind : Type := tlScalar | tlStruct | tlList.

Definition top_level_kind (t : LogicalType) : TopLevelKind :=
  match kind t with kStruct => tlStruct | kList => tlList | _ => tlScalar end.

Fixpoint variant_semantic_type (t : LogicalType) : name :=
  match t with
  | MkType k _ v =>
      match k with
      | kNull => str "null"
      | kBool => str "boolean"
      | kInt64 => str "integer"
      | kFloat64 => str "float"
      | kUtf8 => str "string"
      | kTimestampNs => str "timestamp"
      | kDate32 => str "date"
      | kTime32s => str "time"
      | kStruct => str "struct"
      | kList => match v with Some t => variant_semantic_type t | None => str "null" end ++ str "_array"
      end
  end.

Definition source_segment_for_output (output_segment : name) : name := variant_family_base output_segment.

Definition join_path (parent child : name) : name :=
  match parent with [] => child | _ => parent ++ ["."%char] ++ child end.

(** Separated rendering of the fields of a struct, with the recursion as a parameter *)
Fixpoint join_fields (render : LogicalType -> name) (first : bool) (fs : list LogicalField) : name :=
  match fs with
  | [] => []
  | MkField n t _ :: fs =>
      (if first then [] else str ", ") ++ n ++ str ": "
      ++ match t with Some t => render t | None => str "null" end
      ++ join_fields render false fs
  end.

Fixpoint logical_type_string (t : LogicalType) : name :=
  match t with
  | MkType k fs v =>
      match k with
      | kNull => str "null"
      | kBool => str "bool"
      | kInt64 => str "int64"
      | kFloat64 => str "double"
      | kUtf8 => str "string"
      | kTimestampNs => str "timestamp[ns]"
      | kDate32 => str "date32[day]"
      | kTime32s => str "time32[s]"
      | kList => str "list<item: " ++ match v with Some t => logical_type_string t | None => str "null" end ++ str ">"
      | kStruct => str "struct<" ++ join_fields logical_type_string true fs ++ str ">"
      end
  end.

Definition field_type_string (f : LogicalField) : name :=
  match ftype f with Some t => logical_type_string t | None => str "null" end.

Inductive drift_type : Type := newly_added | type_promoted | new_version_generated.

Record DriftEvent : Type := MkDrift {
  source_path : name;
  output_name : name;
  drift : drift_type;
  previous_schema : option name;
  new_schema : name
}.

(** ** Indexes of the fields under merge *)

Record VariantFamilyIndex : Type := MkFamily {
  positions : list nat;
  next_version : Z
}.

Record FieldMergeIndex : Type := MkIndex {
  by_name : gmap name nat;
  families : gmap name VariantFamilyIndex
}.

Definition register_field (index : FieldMergeIndex) (f : LogicalField) (position : nat) : FieldMergeIndex :=
  let parsed := parse_versioned_field_name (fname f) in
  let family_base := match parsed with Some p => ver_base p | None => fname f end in
  let family := default (MkFamily [] 2) (families index !! family_base) in
  let family :=
    MkFamily (positions family ++ [position])
      match parsed with
      | Some p => Z.max (next_version family) (ver_version p + 1)
      | None => next_version family
      end in
  MkIndex (<[fname f := position]> (by_name index)) (<[family_base := family]> (families index)).

Definition build_field_merge_index (fs : list LogicalField) : FieldMergeIndex :=
  (foldl (fun '(index, i) f => (register_field index f i, S i)) (MkIndex ∅ ∅, 0%nat) fs).1.

(** The [while (true)] of [next_variant_name]: each taken candidate is a
    different registered name, so their number bounds the loop. *)
Fixpoint next_variant_loop (fuel : nat) (index : FieldMergeIndex) (base_name semantic_type : name)
    (version : Z) : name :=
  let candidate := make_versioned_field_name base_name version semantic_type in
  match fuel with
  | O => candidate
  | S fuel =>
      if bool_decide (is_Some (by_name index !! candidate))
      then next_variant_loop fuel index base_name semantic_type (version + 1)
      else candidate
  end.

Definition next_variant_name (index : FieldMergeIndex) (base_name : name) (incoming_type : LogicalType) : name :=
  let version := match families index !! base_name with Some f => next_version f | None => 2 end in
  next_variant_loop (size (by_name index)) index base_name (variant_semantic_type incoming_type) version.

Definition is_scalar_type (t : LogicalType) : bool :=
  match kind t with kStruct | kList => false | _ => true end.

Fixpoint find_field_index (fs : list LogicalField) (n : name) : option nat :=
  match fs with
  | [] => None
  | f :: fs => if bool_decide (fname f = n) then Some 0%nat else S <$> find_field_index fs n
  end.

Definition make_nullable_field (n : name) (t : LogicalType) : LogicalField := MkField n (Some t) true.

Definition set_type (f : LogicalField) (t : LogicalType) : LogicalField := MkField (fname f) (Some t) (nullable f).

(** ** The merge

    [merge_types incoming base path] returns the merged type, if the two are
    compatible, and the events it appends.  The helpers take the recursive
    calls as arguments: a [merger] is [merge_types] at one incoming type. *)
Definition merged_type : Type := option LogicalType * list DriftEvent.
Definition merger : Type := LogicalType -> name -> merged_type.

Definition promoted (path : name) (f : LogicalField) (t : LogicalType) : DriftEvent :=
  MkDrift path (fname f) type_promoted (Some (field_type_string f)) (logical_type_string t).

(** The first loop: is there a family member with exactly the incoming type? *)
Definition exact_member (fs : list LogicalField) (skipped : option nat) (incoming_type : LogicalType)
    (position : nat) : bool :=
  match fs !! position with
  | None => false
  | Some candidate =>
      negb (bool_decide (skipped = Some position)) &&
      match ftype candidate with Some t => logical_type_equal t incoming_type | None => false end
  end.

(** The second loop: merge into the newest compatible member. *)
Fixpoint merge_into_member (fs : list LogicalField) (skipped : option nat) (merge : merger) (path : name)
    (ps : list nat) : option (list LogicalField * list DriftEvent) :=
  match ps with
  | [] => None
  | position :: ps =>
      match fs !! position with
      | None => merge_into_member fs skipped merge path ps
      | Some candidate =>
          if bool_decide (skipped = Some position) then merge_into_member fs skipped merge path ps
          else
            match ftype candidate with
            | None => merge_into_member fs skipped merge path ps
            | Some t =>
                match merge t path with
                | (None, _) => merge_into_member fs skipped merge path ps
                | (Some merged, candidate_drifts) =>
                    if logical_type_equal t merged then Some (fs, candidate_drifts)
                    else
                      Some (<[position := set_type candidate merged]> fs,
                            match candidate_drifts with
                            | [] => [promoted path candidate merged]
                            | _ => candidate_drifts
                            end)
                end
            end
      end
  end.

(** [None] is the result [false]. *)
Definition merge_into_existing_family_variant (fs : list LogicalField) (index : FieldMergeIndex)
    (base_name : name) (skipped : option nat) (incoming_type : LogicalType) (merge : merger)
    (path : name) : option (list LogicalField * list DriftEvent) :=
  match families index !! base_name with
  | None => None
  | Some family =>
      let ps := reverse (positions family) in
      if existsb (exact_member fs skipped incoming_type) ps then Some (fs, [])
      else merge_into_member fs skipped merge path ps
  end.

(** A struct field with [merge_types] towards it for the incoming scalar *)
Definition wrapped_field : Type := LogicalField * option (name -> merged_type).

Definition merge_struct_with_wrapped_scalar (base_fields : list wrapped_field) (base_value : option LogicalType)
    (incoming_type : LogicalType) (path default_key_name : name) : merged_type :=
  let fs := base_fields.*1 in
  let struct fs := MkType kStruct fs base_value in
  let default_key := match default_key_name with [] => str "default_key" | n => n end in
  let default_key_path := join_path path default_key in
  match find_field_index fs default_key with
  | None =>
      let f := make_nullable_field default_key incoming_type in
      (Some (struct (fs ++ [f])), [MkDrift default_key_path default_key newly_added None (field_type_string f)])
  | Some i =>
      match base_fields !! i with
      | None => (None, [])
      | Some (f, None) => (Some (struct (<[i := set_type f incoming_type]> fs)), [])
      | Some (f, Some merge) =>
          match merge default_key_path with
          | (None, drifts) => (None, drifts)
          | (Some merged, drifts) =>
              let t := default merged (ftype f) in
              if logical_type_equal t merged then (Some (struct fs), drifts)
              else (Some (struct (<[i := set_type f merged]> fs)),
                    match drifts with [] => [promoted default_key_path f merged] | _ => drifts end)
          end
      end
  end.

(** State of the loop of [merge_fields] *)
Record merge_state : Type := MkMerge {
  ms_out : list LogicalField;
  ms_index : FieldMergeIndex;
  ms_drifts : list DriftEvent
}.

(** [out.push_back(field)] with its registration and event *)
Definition append_field (st : merge_state) (f : LogicalField) (d : DriftEvent) : merge_state :=
  MkMerge (ms_out st ++ [f]) (register_field (ms_index st) f (length (ms_out st))) (ms_drifts st ++ [d]).

Definition set_out (st : merge_state) (p : list LogicalField * list DriftEvent) : merge_state :=
  MkMerge p.1 (ms_index st) (ms_drifts st ++ p.2).

(** An incoming field with its merger *)
Definition incoming_field : Type := LogicalField * option merger.

Definition append_variant (st : merge_state) (incoming : LogicalField) (t : LogicalType)
    (family_base path : name) (previous : option name) : merge_state :=
  let n := next_variant_name (ms_index st) family_base t in
  append_field st (MkField n (ftype incoming) true)
    (MkDrift path n new_version_generated previous (field_type_string incoming)).

(** The incoming name is not in the output yet. *)
Definition merge_new_field (parent_path : name) (st : merge_state) (inc : incoming_field) : merge_state :=
  let '(incoming, merge) := inc in
  let path := join_path parent_path (source_segment_for_output (fname incoming)) in
  let family_base := versioned_field_base (fname incoming) in
  match ftype incoming, merge with
  | Some t, Some merge =>
      if negb (bool_decide (family_base = [])) && bool_decide (is_Some (families (ms_index st) !! family_base)) then
        match merge_into_existing_family_variant (ms_out st) (ms_index st) family_base None t merge path with
        | Some p => set_out st p
        | None => append_variant st incoming t family_base path None
        end
      else append_field st incoming (MkDrift path (fname incoming) newly_added None (field_type_string incoming))
  | _, _ => append_field st incoming (MkDrift path (fname incoming) newly_added None (field_type_string incoming))
  end.

(** The incoming name is at [position] of the output. *)
Definition merge_known_field (parent_path : name) (st : merge_state) (position : nat) (base : LogicalField)
    (inc : incoming_field) : merge_state :=
  let '(incoming, merge) := inc in
  let path := join_path parent_path (source_segment_for_output (fname incoming)) in
  match ftype base, ftype incoming, merge with
  | Some bt, Some t, Some merge =>
      match merge bt path with
      | (Some merged, base_drifts) =>
          if logical_type_equal bt merged then set_out st (ms_out st, base_drifts)
          else set_out st (<[position := set_type base merged]> (ms_out st),
                           match base_drifts with [] => [promoted path base merged] | _ => base_drifts end)
      | (None, _) =>
          let family_base := variant_family_base (fname incoming) in
          match merge_into_existing_family_variant (ms_out st) (ms_index st) family_base (Some position) t merge path with
          | Some p => set_out st p
          | None => append_variant st incoming t family_base path (Some (field_type_string base))
          end
      end
  | _, _, _ => st
  end.

Definition merge_one_field (parent_path : name) (st : merge_state) (inc : incoming_field) : merge_state :=
  match by_name (ms_index st) !! fname inc.1 with
  | None => merge_new_field parent_path st inc
  | Some position =>
      match ms_out st !! position with
      | None => st
      | Some base => merge_known_field parent_path st position base inc
      end
  end.

Definition merge_fields (base_fields : list LogicalField) (incoming : list incoming_field)
    (parent_path : name) : list LogicalField * list DriftEvent :=
  let st := foldl (merge_one_field parent_path)
              (MkMerge base_fields (build_field_merge_index base_fields) []) incoming in
  (ms_out st, ms_drifts st).

(** Two scalars *)
Definition merge_scalars (base incoming : LogicalType) : option LogicalType :=
  if bool_decide (kind incoming = kNull) || bool_decide (kind base = kind incoming) then Some base
  else if bool_decide (kind base = kFloat64) && bool_decide (kind incoming = kInt64) then Some base
  else if bool_decide (kind base = kInt64) && bool_decide (kind incoming = kFloat64) then Some incoming
  else if bool_decide (kind base = kNull) then Some incoming
  else None.

Fixpoint merge_types (default_key_name : name) (incoming : LogicalType) {struct incoming} : merger :=
  fix merge_base (base : LogicalType) (path : name) {struct base} : merged_type :=
    match base with
    | MkType kStruct bfs base_value =>
        match incoming with
        | MkType kStruct ifs _ =>
            let inc := map (fun f => (f, match f with
                                         | MkField _ (Some t) _ => Some (merge_types default_key_name t)
                                         | MkField _ None _ => None
                                         end)) ifs in
            let '(fs, drifts) := merge_fields bfs inc path in (Some (Struct fs), drifts)
        | _ =>
            if is_scalar_type incoming then
              merge_struct_with_wrapped_scalar
                (map (fun f => (f, match f with
                                   | MkField _ (Some t) _ => Some (merge_base t)
                                   | MkField _ None _ => None
                                   end)) bfs) base_value incoming path default_key_name
            else (None, [])
        end
    | MkType kList _ (Some bv) =>
        match incoming with
        | MkType kList _ None => (Some base, [])
        | MkType kList _ (Some iv) =>
            match merge_types default_key_name iv bv (path ++ str "[]") with
            | (Some merged, drifts) => (Some (List merged), drifts)
            | (None, drifts) => (None, drifts)
            end
        | _ =>
            match merge_base bv (path ++ str "[]") with
            | (Some merged, drifts) => (Some (List merged), drifts)
            | (None, drifts) => (None, drifts)
            end
        end
    | MkType kList _ None => (None, [])
    | _ => if is_scalar_type incoming then (merge_scalars base incoming, []) else (None, [])
    end.

Definition incoming_fields (default_key_name : name) (fs : list LogicalField) : list incoming_field :=
  map (fun f => (f, match f with
                    | MkField _ (Some t) _ => Some (merge_types default_key_name t)
                    | MkField _ None _ => None
                    end)) fs.

Definition merge_registry_fields (base_fields incoming_fs : list LogicalField) (parent_path default_key_name : name)
    : list LogicalField * list DriftEvent :=
  merge_fields base_fields (incoming_fields default_key_name incoming_fs) parent_path.

(** ** Integer and float families *)

Definition is_scalar_integer_type (f : LogicalField) : bool :=
  match ftype f with Some t => bool_decide (kind t = kInt64) | None => false end.
Definition is_scalar_float_type (f : LogicalField) : bool :=
  match ftype f with Some t => bool_decide (kind t = kFloat64) | None => false end.
Definition is_scalar_numeric_type (f : LogicalField) : bool :=
  is_scalar_integer_type f || is_scalar_float_type f.

Definition family_base_name (f : LogicalField) : name := variant_family_base (fname f).

Definition canonicalize_versioned_name_for_type (f : LogicalField) : LogicalField :=
  match parse_versioned_field_name (fname f), ftype f with
  | Some parsed, Some t =>
      let semantic_type := variant_semantic_type t in
      if bool_decide (ver_semantic_type parsed = semantic_type) then f
      else MkField (make_versioned_field_name (ver_base parsed) (ver_version parsed) semantic_type)
             (ftype f) (nullable f)
  | _, _ => f
  end.

Record NumericFamilyPlan : Type := MkPlan {
  has_float : bool;
  first_float_position : option nat;
  unversioned_numeric_position : option nat
}.

Definition keep_position (p : NumericFamilyPlan) : option nat :=
  if has_float p then
    match unversioned_numeric_position p with
    | Some i => Some i
    | None => first_float_position p
    end
  else None.

(** One field of the planning loop; the plans are kept by family base. *)
Definition plan_field (plans : gmap name NumericFamilyPlan) (i : nat) (f : LogicalField)
    : gmap name NumericFamilyPlan :=
  let family_base := family_base_name f in
  let p := default (MkPlan false None None) (plans !! family_base) in
  let p := if is_scalar_float_type f
           then MkPlan true (match first_float_position p with Some j => Some j | None => Some i end)
                  (unversioned_numeric_position p)
           else p in
  let p := match unversioned_numeric_position p with
           | None => if bool_decide (family_base = fname f) && is_scalar_numeric_type f
                     then MkPlan (has_float p) (first_float_position p) (Some i) else p
           | Some _ => p
           end in
  <[family_base := p]> plans.

Definition plan_fields (fs : list LogicalField) : gmap name NumericFamilyPlan :=
  (foldl (fun '(plans, i) f => (plan_field plans i f, S i)) (∅, 0%nat) fs).1.

(** The emitting loop: the output and the last output position of each name *)
Definition emit_field (plans : gmap name NumericFamilyPlan) (acc : list LogicalField * gmap name nat)
    (i : nat) (f : LogicalField) : list LogicalField * gmap name nat :=
  let '(out, emitted_by_name) := acc in
  let keep := plans !! family_base_name f ≫= keep_position in
  let emit f :=
    let f := canonicalize_versioned_name_for_type f in
    let duplicate := emitted_by_name !! fname f ≫= fun j => out !! j in
    let is_duplicate := match duplicate with
                        | Some previous =>
                            match ftype previous, ftype f with
                            | Some a, Some b => logical_type_equal a b
                            | _, _ => false
                            end
                        | None => false
                        end in
    if is_duplicate then (out, emitted_by_name)
    else (out ++ [f], <[fname f := length out]> emitted_by_name) in
  match keep with
  | Some k =>
      if is_scalar_numeric_type f then
        if bool_decide (i = k)
        then emit (if is_scalar_integer_type f then set_type f (Scalar kFloat64) else f)
        else (out, emitted_by_name)
      else emit f
  | None => emit f
  end.

Definition collapse_numeric_fields (fs : list LogicalField) : list LogicalField :=
  let plans := plan_fields fs in
  (foldl (fun '(acc, i) f => (emit_field plans acc i f, S i)) ((([], ∅), 0%nat)) fs).1.1.

Fixpoint normalize_integer_float_type (t : LogicalType) : LogicalType :=
  match t with
  | MkType kStruct fs v =>
      MkType kStruct
        (collapse_numeric_fields
          (map (fun f => match f with
                         | MkField n (Some t) b => MkField n (Some (normalize_integer_float_type t)) b
                         | MkField n None b => f
                         end) fs)) v
  | MkType kList fs (Some t) => MkType kList fs (Some (normalize_integer_float_type t))
  | _ => t
  end.

Definition normalize_integer_float_schema (schema : LogicalSchema) : LogicalSchema :=
  fields (normalize_integer_float_type (Struct schema)).

(** ** The registry entry point *)

Record SchemaRegistryMergeInput : Type := MkInput {
  inferred_schema : LogicalSchema;
  in_field_name_policy : name;
  in_default_key_name : name;
  field_order : FieldOrderPolicy;
  schema_evolution : SchemaEvolutionMode
}.

Definition is_strict (m : SchemaEvolutionMode) : bool := match m with kStrict => true | kAdditive => false end.

(** The merged schema and its drift events; the published JSON documents are
    rendered from these two. *)
Definition merge_schema_registry_with_previous (input : SchemaRegistryMergeInput)
    (previous : option LogicalSchema) : Result (LogicalSchema * list DriftEvent) :=
  let finish schema drifts :=
    let schema := normalize_integer_float_schema schema in
    Value (match schema_evolution input, field_order input with
           | kAdditive, kAlphabetically => reorder_schema_fields schema None kAlphabetically
           | _, _ => schema
           end, drifts) in
  if bool_decide (in_field_name_policy input = []) then
    Invalid (str "schema registry merge: field_name_policy is empty")
  else if bool_decide (in_default_key_name input = []) then
    Invalid (str "schema registry merge: default_key_name is empty")
  else
    match previous with
    | None | Some [] =>
        if is_strict (schema_evolution input) then
          Invalid (str "Strict schema evolution requires a non-empty canonical schema")
        else
          let schema := normalize_integer_float_schema (inferred_schema input) in
          finish schema ((fun f => MkDrift (fname f) (fname f) newly_added None (field_type_string f)) <$> schema)
    | Some previous =>
        let previous := normalize_integer_float_schema previous in
        let inferred := normalize_integer_float_schema (inferred_schema input) in
        if is_strict (schema_evolution input) then
          match evolve_schema previous inferred (schema_evolution input) (field_order input) with
          | Value schema => finish schema []
          | Invalid m => Invalid m
          end
        else
          let '(schema, drifts) := merge_registry_fields previous inferred [] (in_default_key_name input) in
          finish schema drifts
    end.

(** ** Promotion

    The order in which registry types may evolve: a scalar is widened, a struct
    keeps its fields at their positions and may gain others behind them. *)
Inductive promotes : LogicalType -> LogicalType -> Prop :=
| promotes_scalar k k' :
    is_scalar_type (Scalar k) = true -> is_scalar_type (Scalar k') = true ->
    (k = k' \/ (k = kInt64 /\ k' = kFloat64) \/ k = kNull) ->
    promotes (Scalar k) (Scalar k')
| promotes_struct fs kept extra :
    Forall2 (fun f f' => fname f' = fname f /\ nullable f' = nullable f /\
      (ftype f = None \/ exists t t', ftype f = Some t /\ ftype f' = Some t' /\ promotes t t')) fs kept ->
    promotes (Struct fs) (Struct (kept ++ extra))
| promotes_list v v' :
    ((v = None /\ v' = None) \/ exists t t', v = Some t /\ v' = Some t' /\ promotes t t') ->
    promotes (MkType kList [] v) (MkType kList [] v').

(** A field may also get its first type. *)
Definition promotes_field (f f' : LogicalField) : Prop :=
  fname f' = fname f /\ nullable f' = nullable f /\
  (ftype f = None \/ exists t t', ftype f = Some t /\ ftype f' = Some t' /\ promotes t t').

(** The base fields, promoted in place, then new ones *)
Definition grows (fs fs' : list LogicalField) : Prop :=
  exists kept extra, fs' = kept ++ extra /\ Forall2 promotes_field fs kept.

Lemma grows_struct fs fs' : grows fs fs' <-> promotes (Struct fs) (Struct fs').
Proof.
  split.
  - intros (kept & extra & -> & H). by apply promotes_struct.
  - inversion 1 as [k k' Hk|? kept extra H1|]; subst; [done|]. by exists kept, extra.
Qed.

(** How far a type has evolved *)
Definition rank (k : LogicalKind) : nat :=
  match k with kNull => 0 | kFloat64 => 2 | _ => 1 end.

Fixpoint weight (t : LogicalType) : nat :=
  match t with
  | MkType k fs v =>
      rank k
      + foldr (fun f acc => S (match f with
                               | MkField _ (Some t) _ => S (weight t)
                               | MkField _ None _ => 0
                               end + acc)) 0%nat fs
      + match v with Some t => weight t | None => 0 end
  end%nat.

Definition field_weight (f : LogicalField) : nat :=
  S (match ftype f with Some t => S (weight t) | None => 0 end).

Definition fields_weight (fs : list LogicalField) : nat := foldr (fun f acc => (field_weight f + acc)%nat) 0%nat fs.

Lemma weight_struct fs : weight (Struct fs) = S (fields_weight fs).
Proof.
  unfold Struct, fields_weight. cbn [weight rank]. rewrite Nat.add_0_r. cbn [Nat.add]. f_equal.
  induction fs as [|[n [t|] b] fs IH]; [done|..]; cbn [foldr]; rewrite IH; reflexivity.
Qed.

Lemma fields_weight_cons f fs : fields_weight (f :: fs) = (field_weight f + fields_weight fs)%nat.
Proof. done. Qed.

Lemma fields_weight_app fs gs : fields_weight (fs ++ gs) = (fields_weight fs + fields_weight gs)%nat.
Proof. induction fs as [|f fs IH]; [done|]. rewrite <- app_comm_cons, !fields_weight_cons. lia. Qed.

Lemma promotes_field_weight f f' :
  (forall t t', ftype f = Some t -> promotes t t' ->
     (weight t <= weight t')%nat /\ (weight t = weight t' -> t = t')) ->
  promotes_field f f' ->
  (field_weight f <= field_weight f')%nat /\ (field_weight f = field_weight f' -> f = f').
Proof.
  intros Hrec (En & Eb & [E|(t & t' & E & E' & Hp)]); unfold field_weight; rewrite E.
  - destruct (ftype f') eqn:E'; simpl; split; try lia. intros _. destruct f, f'. simpl in *. congruence.
  - rewrite E'. destruct (Hrec t t' E Hp) as [Hle Heq]. split; [lia|]. intros Hw.
    assert (t = t') as -> by (apply Heq; lia). destruct f, f'. simpl in *. congruence.
Qed.

Lemma promotes_fields_weight fs kept extra :
  (forall f t t', f ∈ fs -> ftype f = Some t -> promotes t t' ->
     (weight t <= weight t')%nat /\ (weight t = weight t' -> t = t')) ->
  Forall2 promotes_field fs kept ->
  (fields_weight fs <= fields_weight (kept ++ extra))%nat /\
  (fields_weight fs = fields_weight (kept ++ extra) -> fs = kept ++ extra).
Proof.
  intros Hrec H. induction H as [|f f' fs kept Hf _ IH].
  - destruct extra as [|e extra]; [done|]. cbn [app]. rewrite fields_weight_cons. unfold field_weight. simpl. lia.
  - rewrite <- app_comm_cons, !fields_weight_cons. destruct (promotes_field_weight f f') as [H1 H2]; [intros; eapply Hrec; [left|..]; eauto|done|].
    destruct IH as [H3 H4]; [intros; eapply Hrec; [by right|..]; eauto|].
    split; [lia|]. intros Hw. rewrite H2, H4 by lia. done.
Qed.

(** Promotion never decreases the weight, and keeps it only by doing nothing. *)
Lemma promotes_weight t t' :
  promotes t t' -> (weight t <= weight t')%nat /\ (weight t = weight t' -> t = t').
Proof.
  revert t'. type_induction t. intros t' Hp.
  inversion Hp as [k1 k2 Hs1 Hs2 Hk Ek|fs1 kept extra Hf|v1 v2 Hv]; subst.
  - destruct Hk as [->|[[-> ->]| ->]]; [done|simpl; lia|]. destruct k2; simpl; split; try done; lia.
  - rewrite Forall_forall in IHfs.
    destruct (promotes_fields_weight fs kept extra) as [H1 H2].
    { intros f t t' Hin Et Ht. eapply (IHfs f); eauto. }
    { done. }
    change (MkType kStruct fs None) with (Struct fs). rewrite !weight_struct. split; [lia|].
    intros E. by rewrite H2 by lia.
  - destruct Hv as [[-> ->]|(t & t' & -> & -> & Ht)]; [done|]. destruct (IHv t eq_refl _ Ht) as [H1 H2].
    simpl. split; [lia|]. intros E. by rewrite H2 by lia.
Qed.

Lemma promotes_field_refl f : (forall t, ftype f = Some t -> promotes t t) -> promotes_field f f.
Proof.
  intros H. split_and!; [done|done|]. destruct (ftype f) as [t|] eqn:E; [right|by left]. eauto 6.
Qed.

Lemma promotes_refl t : well_formed t -> promotes t t.
Proof.
  type_induction t. intros Ht.
  destruct (decide (k = kStruct)) as [->|Hns]; [|destruct (decide (k = kList)) as [->|Hnl]].
  - apply well_formed_struct in Ht as [-> Ht]. apply grows_struct. exists fs, [].
    split; [by rewrite app_nil_r|]. apply Forall_Forall2_diag, Forall_forall. intros f Hf.
    rewrite Forall_forall in IHfs. apply promotes_field_refl. intros t Et. apply (IHfs f Hf); [done|].
    by eapply wf_field_type.
  - apply well_formed_list in Ht as [-> Ht]. apply promotes_list. destruct v as [t|]; [right|by left].
    eexists _, _. split_and!; [done|done|]. by apply IHv.
  - apply well_formed_scalar in Ht as [-> ->]; [|done|done]. by destruct k; try done; apply promotes_scalar; auto.
Qed.

Lemma promotes_trans t1 t2 t3 : promotes t1 t2 -> promotes t2 t3 -> promotes t1 t3.
Proof.
  revert t2 t3. type_induction t1. intros t2 t3 H12 H23.
  inversion H12 as [k1 k2 Hs1 Hs2 Hk Ek|fs1 kept extra Hf|v1 v2 Hv]; subst.
  - inversion H23 as [k2' k3 _ Hs3 Hk' Ek'| |]; subst; try done. apply promotes_scalar; [done..|].
    destruct Hk as [->|[[-> ->]| ->]]; [done| |auto]. destruct Hk' as [<-|[[E _]|E]]; [auto|discriminate E..].
  - inversion H23 as [|fs2 kept2 extra2 Hf2|]; subst; try done.
    apply Forall2_app_inv_l in Hf2 as (kept2a & kept2b & Ha & Hb & ->).
    rewrite <- app_assoc. apply promotes_struct. rewrite Forall_forall in IHfs.
    clear Hb H12 H23. revert kept2a Ha. induction Hf as [|f f' fs kept Hff' Hf IH]; intros k2 Ha.
    + apply Forall2_nil_inv_l in Ha as ->. constructor.
    + apply Forall2_cons_inv_l in Ha as (f2 & k2' & Hf2 & Ha & ->). constructor.
      * destruct Hff' as (En & Eb & Ht), Hf2 as (En2 & Eb2 & Ht2). split_and!; [congruence|congruence|].
        destruct Ht as [?|(t & t' & Et & Et' & Hp)]; [by left|]. right.
        destruct Ht2 as [?|(u & u' & Eu & Eu' & Hp2)]; [congruence|].
        assert (u = t') as -> by congruence. exists t, u'. split_and!; [done|done|].
        eapply (IHfs f); [left|done|exact Hp|exact Hp2].
      * apply IH; [|done]. intros g Hg. apply IHfs. by right.
  - inversion H23 as [| |v3 v4 Hv2]; subst; try done. apply promotes_list.
    destruct Hv as [[-> ->]|(t & t' & -> & -> & Hp)], Hv2 as [[? ->]|(u & u' & Eu & -> & Hp2)]; try done; [by left|].
    right. injection Eu as ->. eauto 6.
Qed.

(** ** The indexes describe the output *)

Lemma parse_versioned_base n p : parse_versioned_field_name n = Some p -> ver_base p <> [].
Proof.
  unfold parse_versioned_field_name. destruct (length n <? 7)%nat eqn:El; [done|].
  apply Nat.ltb_ge in El. destruct (rfind_marker n) as [marker|]; [|done].
  destruct ((marker =? 0)%nat || _) eqn:Em; [done|]. apply orb_false_iff in Em as [Em%Nat.eqb_neq _].
  repeat case_match; try done. intros [= <-]. simpl. destruct marker; [done|]. by destruct n.
Qed.

(** The family under which [register_field] files a name *)
Lemma family_key n :
  match parse_versioned_field_name n with Some p => ver_base p | None => n end = variant_family_base n.
Proof.
  unfold variant_family_base, versioned_field_base. destruct (parse_versioned_field_name n) as [p|] eqn:E; [|done].
  pose proof (parse_versioned_base n p E). by destruct (ver_base p).
Qed.

(** The positions of the members of a family, oldest first *)
Definition family_slots (ns : list name) (g : name) : list nat :=
  slots (fun i => variant_family_base (ns !!! i) = g) (length ns).

Record index_ok (ns : list name) (index : FieldMergeIndex) : Prop := {
  ix_name : forall n i, by_name index !! n = Some i <-> ns !! i = Some n;
  ix_family : forall g,
    match families index !! g with Some fam => positions fam | None => [] end = family_slots ns g;
  ix_version : forall g fam, families index !! g = Some fam -> 2 <= next_version fam
}.

Lemma family_slots_snoc ns n g :
  family_slots (ns ++ [n]) g
  = family_slots ns g ++ (if decide (variant_family_base n = g) then [length ns] else []).
Proof.
  unfold family_slots. rewrite length_app. simpl. rewrite Nat.add_1_r, slots_S. f_equal.
  - apply slots_ext. intros i Hi. by rewrite lookup_total_app_l.
  - assert ((ns ++ [n]) !!! length ns = n) as ->; [|done]. apply list_lookup_total_correct, lookup_snoc_Some. auto.
Qed.

Lemma index_ok_nil : index_ok [] (MkIndex ∅ ∅).
Proof.
  split; simpl.
  - intros n i. by rewrite lookup_empty, lookup_nil.
  - intros g. by rewrite lookup_empty.
  - intros g fam. by rewrite lookup_empty.
Qed.

Lemma register_field_ok ns index f :
  index_ok ns index -> fname f ∉ ns -> index_ok (ns ++ [fname f]) (register_field index f (length ns)).
Proof.
  intros [Hn Hf Hv] Hnew. unfold register_field. rewrite family_key. set (key := variant_family_base (fname f)).
  assert (forall i n, (ns ++ [fname f]) !! i = Some n <-> ns !! i = Some n \/ (i = length ns /\ n = fname f)) as Hsnoc.
  { intros i n. rewrite lookup_snoc_Some. split.
    - intros [[_ ?]|[-> <-]]; auto.
    - intros [Hi|[-> ->]]; [left|auto]. split; [|done]. by eapply lookup_lt_Some. }
  split; simpl.
  - intros n i. rewrite Hsnoc. destruct (decide (n = fname f)) as [->|Hne].
    + rewrite lookup_insert_eq. split; [intros [= <-]; auto|].
      intros [Hi|[-> _]]; [|done]. exfalso. apply Hnew. by eapply list_elem_of_lookup_2.
    + rewrite lookup_insert_ne, Hn by done. split; [auto|]. by intros [?|[_ ?]].
  - intros g. rewrite family_slots_snoc. destruct (decide (g = key)) as [->|Hne].
    + rewrite lookup_insert_eq. simpl. rewrite decide_True by done. rewrite <- Hf.
      by destruct (families index !! key).
    + rewrite lookup_insert_ne, decide_False, app_nil_r by done. apply Hf.
  - intros g fam. destruct (decide (g = key)) as [->|Hne]; [|rewrite lookup_insert_ne by done; apply Hv].
    rewrite lookup_insert_eq. intros [= <-]. simpl.
    assert (2 <= next_version (default (MkFamily [] 2) (families index !! key))) as H2.
    { destruct (families index !! key) as [fam|] eqn:E; simpl; [by eapply Hv|lia]. }
    destruct (parse_versioned_field_name (fname f)); lia.
Qed.

Lemma build_index_ok fs : NoDup (field_names fs) -> index_ok (field_names fs) (build_field_merge_index fs).
Proof.
  intros Hnd. unfold build_field_merge_index.
  assert (forall gs, NoDup (field_names gs) ->
    let r := foldl (fun '(index, i) f => (register_field index f i, S i)) (MkIndex ∅ ∅, 0%nat) gs in
    r.2 = length gs /\ index_ok (field_names gs) r.1) as H.
  { induction gs as [|f gs IH] using rev_ind; intros Hg; [split; [done|apply index_ok_nil]|].
    cbv zeta. rewrite foldl_snoc. unfold field_names in *. rewrite fmap_app in Hg |- *.
    apply NoDup_app in Hg as (Hg & Hnew & _). destruct (IH Hg) as [Ei Hix].
    destruct (foldl _ _ gs) as [index i]. simpl in *. subst i. rewrite length_app. simpl. split; [lia|].
    rewrite <- (length_fmap fname gs). apply register_field_ok; [done|].
    intros Hin. apply (Hnew (fname f) Hin). by left. }
  by apply (H fs).
Qed.

(** The loop of [next_variant_name] ends on a name that is not registered. *)
Lemma next_variant_loop_fresh index base ty fuel v k :
  0 <= v ->
  (forall i, (i < k)%nat -> is_Some (by_name index !! make_versioned_field_name base (v + Z.of_nat i) ty)) ->
  (size (by_name index) <= fuel + k)%nat ->
  by_name index !! next_variant_loop fuel index base ty (v + Z.of_nat k) = None.
Proof.
  intros Hv. revert k. induction fuel as [|fuel IH]; intros k Hin Hfuel; cbn [next_variant_loop].
  - apply eq_None_not_Some. intros Hk.
    set (l := (fun i => make_versioned_field_name base (v + Z.of_nat i) ty) <$> seq 0 (S k)).
    assert (NoDup l) as Hnd.
    { apply NoDup_fmap_2_strong; [|apply NoDup_seq]. intros i j Hi Hj E. apply elem_of_seq in Hi, Hj.
      unfold make_versioned_field_name in E. apply app_inv_head in E. apply (app_inv_head (str "_v")) in E.
      rewrite !app_assoc in E. apply app_inv_tail in E. apply app_inv_tail in E.
      apply to_chars_inj in E; lia. }
    assert (list_to_set l ⊆ dom (by_name index)) as Hsub%subseteq_size.
    { intros x. unfold l. rewrite elem_of_list_to_set, list_elem_of_fmap. intros (i & -> & Hi%elem_of_seq).
      apply elem_of_dom. destruct (decide (i = k)) as [->|]; [done|]. apply Hin. lia. }
    rewrite size_list_to_set, size_dom in Hsub by done. unfold l in Hsub.
    rewrite length_fmap, length_seq in Hsub. lia.
  - case_bool_decide as Hk; [|by apply eq_None_not_Some].
    replace (v + Z.of_nat k + 1) with (v + Z.of_nat (S k)) by lia. apply IH; [|lia].
    intros i Hi. destruct (decide (i = k)) as [->|]; [done|]. apply Hin. lia.
Qed.

Lemma next_variant_name_fresh ns index base t : index_ok ns index -> next_variant_name index base t ∉ ns.
Proof.
  intros [Hn _ Hv] Hin. apply list_elem_of_lookup in Hin as [i Hi%Hn].
  unfold next_variant_name in Hi. set (v := match families index !! base with Some f => next_version f | None => 2 end) in *.
  assert (0 <= v) as Hv0.
  { unfold v. destruct (families index !! base) as [fam|] eqn:E; [|lia]. pose proof (Hv _ _ E). lia. }
  pose proof (next_variant_loop_fresh index base (variant_semantic_type t) (size (by_name index)) v 0 Hv0) as H.
  rewrite Z.add_0_r in H. rewrite H in Hi; [done|intros; lia|lia].
Qed.

(** ** One step of the merge *)

Definition merger_ok (m : merger) : Prop :=
  forall b path, well_formed b ->
    match m b path with
    | (Some b', ds) => well_formed b' /\ promotes b b' /\ (ds <> [] -> b' <> b)
    | (None, _) => True
    end.

(** Either nothing happened and nothing is reported, or the fields grew and an
    event says so. *)
Definition advanced (out out' : list LogicalField) (ev : list DriftEvent) : Prop :=
  (out' = out /\ ev = []) \/ (grows out out' /\ out' <> out /\ ev <> []).

Lemma grows_refl fs : wf_fields fs -> grows fs fs.
Proof. intros H. apply grows_struct, promotes_refl. by apply well_formed_struct. Qed.

Lemma grows_trans fs1 fs2 fs3 : grows fs1 fs2 -> grows fs2 fs3 -> grows fs1 fs3.
Proof. rewrite !grows_struct. apply promotes_trans. Qed.

Lemma grows_weight fs fs' :
  grows fs fs' -> (fields_weight fs <= fields_weight fs')%nat /\ (fields_weight fs = fields_weight fs' -> fs = fs').
Proof.
  intros H%grows_struct%promotes_weight. rewrite !weight_struct in H. destruct H as [H1 H2].
  split; [lia|]. intros E. assert (Struct fs = Struct fs') as [= ->]; [apply H2; lia|done].
Qed.

(** Growing twice cannot come back. *)
Lemma grows_strict fs1 fs2 fs3 : grows fs1 fs2 -> grows fs2 fs3 -> fs3 <> fs2 -> fs3 <> fs1.
Proof.
  intros H1 H2 Hne ->. destruct (grows_weight _ _ H1) as [? _], (grows_weight _ _ H2) as [? Heq].
  apply Hne. symmetry. apply Heq. lia.
Qed.

Lemma field_names_insert fs i f g :
  fs !! i = Some f -> fname g = fname f -> field_names (<[i := g]> fs) = field_names fs.
Proof.
  intros Hi E. unfold field_names. rewrite list_fmap_insert, E. apply list_insert_id.
  by rewrite list_lookup_fmap, Hi.
Qed.

Lemma wf_fields_insert fs i f g :
  wf_fields fs -> fs !! i = Some f -> fname g = fname f -> wf_field g -> wf_fields (<[i := g]> fs).
Proof.
  intros [Hnd Hf] Hi E Hg. split; [by rewrite (field_names_insert fs i f)|]. by apply Forall_insert.
Qed.

Lemma grows_insert fs i f g :
  wf_fields fs -> fs !! i = Some f -> promotes_field f g -> grows fs (<[i := g]> fs).
Proof.
  intros Hwf Hi Hp. exists (<[i := g]> fs), []. split; [by rewrite app_nil_r|].
  apply Forall2_same_length_lookup. split; [by rewrite length_insert|].
  intros j x y Hx Hy. destruct (decide (i = j)) as [<-|Hne].
  - rewrite list_lookup_insert_eq in Hy by (by eapply lookup_lt_Some). congruence.
  - rewrite list_lookup_insert_ne in Hy by done. assert (y = x) as -> by congruence.
    apply promotes_field_refl. intros t Et. apply promotes_refl. eapply wf_field_type; [done| |done].
    by eapply list_elem_of_lookup_2.
Qed.

Lemma set_type_promotes f t t' : ftype f = Some t -> promotes t t' -> promotes_field f (set_type f t').
Proof. intros E Hp. split_and!; [done|done|]. right. eauto. Qed.

(** Storing a different promoted type advances the fields. *)
Lemma set_type_advanced fs i f t t' ev :
  wf_fields fs -> fs !! i = Some f -> ftype f = Some t -> promotes t t' -> well_formed t' -> t' <> t -> ev <> [] ->
  let fs' := <[i := set_type f t']> fs in
  advanced fs fs' ev /\ wf_fields fs' /\ field_names fs' = field_names fs.
Proof.
  intros Hwf Hi Et Hp Hwt Hne Hev fs'. split_and!.
  - right. split_and!; [|intros E|done].
    + eapply grows_insert; [done|done|]. by apply set_type_promotes with t.
    + assert (fs' !! i = Some (set_type f t')) as Hi' by (apply list_lookup_insert_eq; by eapply lookup_lt_Some).
      rewrite E, Hi in Hi'. injection Hi' as Hi'. apply Hne. rewrite Hi' in Et. simpl in Et. congruence.
  - by eapply wf_fields_insert.
  - by eapply field_names_insert.
Qed.

(** What a family merge that returns [true] does *)
Lemma merge_into_member_ok fs skipped m path ps fs' ev :
  wf_fields fs -> merger_ok m -> merge_into_member fs skipped m path ps = Some (fs', ev) ->
  advanced fs fs' ev /\ wf_fields fs' /\ field_names fs' = field_names fs.
Proof.
  intros Hwf Hm. induction ps as [|i ps IH]; simpl; [done|].
  destruct (fs !! i) as [f|] eqn:Hi; [|done]. case_bool_decide; [done|].
  destruct (ftype f) as [t|] eqn:Et; [|done].
  assert (well_formed t) as Hwt by (eapply wf_field_type; [done| |done]; by eapply list_elem_of_lookup_2).
  pose proof (Hm t path Hwt) as Hmt. destruct (m t path) as [[t'|] ds]; [|done].
  destruct Hmt as (Hwt' & Hp & Hds). destruct (logical_type_equal t t') eqn:Eeq.
  - apply logical_type_equal_eq in Eeq as <-; [|done|done]. intros [= <- <-].
    split_and!; [left|done|done]. split; [done|]. destruct ds; [done|]. by destruct (Hds ltac:(done)).
  - assert (t' <> t) as Hne by (intros ->; by rewrite logical_type_equal_refl in Eeq).
    intros [= <- <-]. eapply set_type_advanced; try done. by destruct ds.
Qed.

Lemma merge_into_existing_ok fs index base skipped t m path fs' ev :
  wf_fields fs -> merger_ok m ->
  merge_into_existing_family_variant fs index base skipped t m path = Some (fs', ev) ->
  advanced fs fs' ev /\ wf_fields fs' /\ field_names fs' = field_names fs.
Proof.
  intros Hwf Hm. unfold merge_into_existing_family_variant.
  destruct (families index !! base) as [fam|]; [|done]. destruct (existsb _ _).
  - intros [= <- <-]. split_and!; [by left|done|done].
  - by apply merge_into_member_ok.
Qed.

(** The state of [merge_fields] started on [base] *)
Record state_ok (base : list LogicalField) (st : merge_state) : Prop := {
  st_grows : grows base (ms_out st);
  st_wf : wf_fields (ms_out st);
  st_index : index_ok (field_names (ms_out st)) (ms_index st);
  st_drifts : ms_drifts st = [] <-> ms_out st = base
}.

Lemma state_ok_advance base st out' ev index' :
  state_ok base st -> advanced (ms_out st) out' ev -> wf_fields out' -> index_ok (field_names out') index' ->
  state_ok base (MkMerge out' index' (ms_drifts st ++ ev)).
Proof.
  intros [Hg Hwf Hix Hd] Hadv Hwf' Hix'. destruct Hadv as [[-> ->]|(Hg' & Hne & Hev)].
  - split; simpl; rewrite ?app_nil_r; done.
  - split; simpl; [by eapply grows_trans|done|done|]. split.
    + intros [_ ?]%app_nil. done.
    + intros ->. by destruct (grows_strict _ _ _ Hg Hg' Hne).
Qed.

Lemma append_field_ok base st f d :
  state_ok base st -> fname f ∉ field_names (ms_out st) -> wf_field f -> state_ok base (append_field st f d).
Proof.
  intros Hst Hnew Hf. destruct Hst as [Hg Hwf Hix Hd] eqn:E. clear E. apply state_ok_advance.
  - by split.
  - right. split_and!.
    + exists (ms_out st), [f]. split; [done|].
      destruct (grows_refl _ Hwf) as (kept & extra & Ek & Hk).
      assert (extra = []) as ->.
      { pose proof (Forall2_length _ _ _ Hk) as Hl. apply (f_equal length) in Ek. rewrite length_app in Ek.
        destruct extra; [done|simpl in Ek; lia]. }
      rewrite app_nil_r in Ek. by rewrite <- Ek in Hk.
    + intros E. apply (f_equal length) in E. rewrite length_app in E. simpl in E. lia.
    + done.
  - destruct Hwf as [Hnd Hall]. split.
    + unfold field_names in *. rewrite fmap_app. apply NoDup_app. split_and!; [done| |apply NoDup_singleton].
      intros n Hn ->%list_elem_of_singleton. done.
    + apply Forall_app. split; [done|]. by constructor.
  - unfold field_names. rewrite fmap_app. simpl. rewrite <- (length_fmap fname). by apply register_field_ok.
Qed.

Lemma set_out_ok base st out' ev :
  state_ok base st -> advanced (ms_out st) out' ev -> wf_fields out' ->
  field_names out' = field_names (ms_out st) -> state_ok base (set_out st (out', ev)).
Proof.
  intros Hst Hadv Hwf En. apply state_ok_advance; [done..|]. simpl. rewrite En. apply Hst.
Qed.

Definition incoming_ok (inc : incoming_field) : Prop :=
  wf_field inc.1 /\ match inc.2 with Some m => merger_ok m | None => True end.

Lemma index_new ns index n : index_ok ns index -> by_name index !! n = None -> n ∉ ns.
Proof. intros [Hn _ _] E Hin. apply list_elem_of_lookup in Hin as [i Hi%Hn]. congruence. Qed.

Lemma append_variant_ok base st f t family path prev :
  state_ok base st -> wf_field f -> state_ok base (append_variant st f t family path prev).
Proof.
  intros Hst Hf. apply append_field_ok; [done| |done]. simpl. eapply next_variant_name_fresh. apply Hst.
Qed.

Lemma merge_new_field_ok base path st inc :
  state_ok base st -> incoming_ok inc -> by_name (ms_index st) !! fname inc.1 = None ->
  state_ok base (merge_new_field path st inc).
Proof.
  intros Hst [Hf Hm] Hnew. destruct inc as [f [m|]]; simpl in *.
  - destruct (ftype f) as [t|] eqn:Et; [|apply append_field_ok; [done|by eapply index_new; [apply Hst|]|done]].
    case_match; [|apply append_field_ok; [done|by eapply index_new; [apply Hst|]|done]].
    destruct (merge_into_existing_family_variant _ _ _ _ _ _ _) as [[fs' ev]|] eqn:E.
    + apply merge_into_existing_ok in E as (H1 & H2 & H3); [|apply Hst|done]. by apply set_out_ok.
    + by apply append_variant_ok.
  - assert (state_ok base (append_field st f (MkDrift (join_path path (source_segment_for_output (fname f)))
      (fname f) newly_added None (field_type_string f)))) as H.
    { apply append_field_ok; [done| |done]. eapply index_new; [apply Hst|done]. }
    by destruct (ftype f).
Qed.

Lemma merge_known_field_ok base path st i b inc :
  state_ok base st -> incoming_ok inc -> ms_out st !! i = Some b ->
  state_ok base (merge_known_field path st i b inc).
Proof.
  intros Hst [Hf Hm] Hi. destruct inc as [f [m|]]; simpl in *; [|by destruct (ftype b), (ftype f)].
  destruct (ftype b) as [bt|] eqn:Eb; [|done]. destruct (ftype f) as [t|] eqn:Et; [|done].
  pose proof (st_wf _ _ Hst) as Hwf.
  assert (well_formed bt) as Hwb by (eapply wf_field_type; [done| |done]; by eapply list_elem_of_lookup_2).
  set (p := join_path _ _). pose proof (Hm bt p Hwb) as Hmb. destruct (m bt p) as [[t'|] ds].
  - destruct Hmb as (Hwt' & Hp & Hds). destruct (logical_type_equal bt t') eqn:Eeq.
    + apply logical_type_equal_eq in Eeq as <-; [|done|done]. apply set_out_ok; [done| |done|done].
      left. split; [done|]. destruct ds; [done|]. by destruct (Hds ltac:(done)).
    + assert (t' <> bt) as Hne by (intros ->; by rewrite logical_type_equal_refl in Eeq).
      destruct (set_type_advanced (ms_out st) i b bt t' match ds with [] => [promoted p b t'] | _ => ds end)
        as (H1 & H2 & H3); try done; [by destruct ds|]. by apply set_out_ok.
  - destruct (merge_into_existing_family_variant _ _ _ _ _ _ _) as [[fs' ev]|] eqn:E.
    + apply merge_into_existing_ok in E as (H1 & H2 & H3); [|done|done]. by apply set_out_ok.
    + by apply append_variant_ok.
Qed.

Lemma merge_one_field_ok base path st inc :
  state_ok base st -> incoming_ok inc -> state_ok base (merge_one_field path st inc).
Proof.
  intros Hst Hinc. unfold merge_one_field. destruct (by_name (ms_index st) !! fname inc.1) as [i|] eqn:E.
  - destruct (ms_out st !! i) as [b|] eqn:Ei; [|done]. by apply merge_known_field_ok.
  - by apply merge_new_field_ok.
Qed.

Lemma merge_fold_ok base path st inc :
  state_ok base st -> Forall incoming_ok inc -> state_ok base (foldl (merge_one_field path) st inc).
Proof.
  intros Hst Hinc. revert st Hst. induction Hinc as [|i inc Hi _ IH]; intros st Hst; [done|].
  simpl. by apply IH, merge_one_field_ok.
Qed.

Lemma initial_state_ok base : wf_fields base -> state_ok base (MkMerge base (build_field_merge_index base) []).
Proof.
  intros Hwf. split; simpl; [by apply grows_refl|done|apply build_index_ok, Hwf|done].
Qed.

Lemma merge_fields_ok base inc path :
  wf_fields base -> Forall incoming_ok inc ->
  let '(out, ds) := merge_fields base inc path in
  wf_fields out /\ grows base out /\ (ds = [] <-> out = base).
Proof.
  intros Hwf Hinc. unfold merge_fields.
  destruct (merge_fold_ok base path _ inc (initial_state_ok base Hwf) Hinc) as [H1 H2 _ H4]. done.
Qed.

(** ** The wrapped scalar *)

Definition wrapped_ok (p : wrapped_field) : Prop :=
  match ftype p.1, p.2 with
  | Some t, Some g => forall path,
      match g path with
      | (Some t', ds) => well_formed t' /\ promotes t t' /\ (ds <> [] -> t' <> t)
      | (None, _) => True
      end
  | None, None => True
  | _, _ => False
  end.

Lemma find_field_index_Some fs n i :
  find_field_index fs n = Some i -> exists f, fs !! i = Some f /\ fname f = n.
Proof.
  revert i. induction fs as [|f fs IH]; intros i; simpl; [done|].
  case_bool_decide as E; [intros [= <-]; by exists f|].
  destruct (find_field_index fs n) as [j|]; [|done]. intros [= <-]. by apply IH.
Qed.

Lemma find_field_index_None fs n : find_field_index fs n = None -> n ∉ field_names fs.
Proof.
  induction fs as [|f fs IH]; simpl; [intros _; apply not_elem_of_nil|].
  case_bool_decide as E; [done|]. destruct (find_field_index fs n); [done|].
  intros _. apply not_elem_of_cons. split; [congruence|]. by apply IH.
Qed.

Lemma grows_append fs f : wf_fields fs -> grows fs (fs ++ [f]).
Proof.
  intros Hwf. exists fs, [f]. split; [done|]. apply Forall_Forall2_diag, Forall_forall. intros g Hg.
  apply promotes_field_refl. intros t Et. apply promotes_refl. by eapply wf_field_type.
Qed.

Lemma merge_wrapped_ok bfs t path dk :
  wf_fields bfs.*1 -> Forall wrapped_ok bfs -> well_formed t ->
  match merge_struct_with_wrapped_scalar bfs None t path dk with
  | (Some t', ds) => well_formed t' /\ promotes (Struct bfs.*1) t' /\ (ds <> [] -> t' <> Struct bfs.*1)
  | (None, _) => True
  end.
Proof.
  intros Hwf Hw Ht. unfold merge_struct_with_wrapped_scalar, wrapped_field in *.
  set (key := match dk with [] => str "default_key" | _ => dk end). set (p := join_path path key).
  destruct (find_field_index bfs.*1 key) as [i|] eqn:Ei.
  - apply find_field_index_Some in Ei as (f & Hi & En). rewrite list_lookup_fmap in Hi.
    destruct (bfs !! i) as [[f' g]|] eqn:Eb; [|done]. simpl in Hi. injection Hi as ->.
    rewrite Forall_lookup in Hw. specialize (Hw i _ Eb). unfold wrapped_ok in Hw. simpl in Hw.
    assert (bfs.*1 !! i = Some f) as Hi by (by rewrite list_lookup_fmap, Eb).
    destruct (ftype f) as [ft|] eqn:Ef, g as [g|]; try done.
    + specialize (Hw p). destruct (g p) as [[t'|] ds]; [|exact I]. destruct Hw as (Hwt & Hp & Hds). simpl.
      destruct (logical_type_equal ft t') eqn:Eeq.
      * apply logical_type_equal_eq in Eeq as <-; [|eapply wf_field_type; [exact Ef| |exact Hwf];
          by eapply list_elem_of_lookup_2|done].
        split_and!; [by apply well_formed_struct|by apply grows_struct, grows_refl|]. intros Hd. by destruct (Hds Hd).
      * assert (t' <> ft) as Hne by (intros ->; by rewrite logical_type_equal_refl in Eeq).
        destruct (set_type_advanced bfs.*1 i f ft t' [promoted p f t'] Hwf Hi Ef Hp Hwt Hne ltac:(done))
          as ([[_ ?]|(H1 & H2 & _)] & H3 & _); [done|].
        split_and!; [by apply well_formed_struct|by apply grows_struct|]. intros _ [= E]. by apply H2.
    + split_and!; [|apply grows_struct; eapply grows_insert; [done|exact Hi|]|done].
      * apply well_formed_struct. split; [done|]. by eapply wf_fields_insert.
      * split_and!; [done|done|by left].
  - apply find_field_index_None in Ei. split_and!.
    + apply well_formed_struct. split; [done|]. destruct Hwf as [Hnd Hall]. split.
      * unfold field_names in *. rewrite fmap_app. apply NoDup_app. split_and!; [done| |apply NoDup_singleton].
        intros n Hn ->%list_elem_of_singleton. done.
      * apply Forall_app. split; [done|]. by constructor.
    + by apply grows_struct, grows_append.
    + intros _ [= E]. apply (f_equal length) in E. rewrite length_app in E. simpl in E. lia.
Qed.

(** ** The merge of types, case by case *)

Definition wrapped_fields (dk : name) (incoming : LogicalType) (fs : list LogicalField) : list wrapped_field :=
  map (fun f => (f, match f with
                    | MkField _ (Some t) _ => Some (merge_types dk incoming t)
                    | MkField _ None _ => None
                    end)) fs.

Lemma merge_struct_struct dk ifs iv bfs bv path :
  merge_types dk (MkType kStruct ifs iv) (MkType kStruct bfs bv) path
  = (Some (Struct (merge_fields bfs (incoming_fields dk ifs) path).1),
     (merge_fields bfs (incoming_fields dk ifs) path).2).
Proof.
  change (merge_types dk (MkType kStruct ifs iv) (MkType kStruct bfs bv) path)
    with (let '(fs, ds) := merge_fields bfs (incoming_fields dk ifs) path in (Some (Struct fs), ds)).
  by destruct (merge_fields bfs (incoming_fields dk ifs) path).
Qed.

Lemma merge_struct_scalar dk t bfs bv path :
  is_scalar_type t = true ->
  merge_types dk t (MkType kStruct bfs bv) path
  = merge_struct_with_wrapped_scalar (wrapped_fields dk t bfs) bv t path dk.
Proof. destruct t as [[] ? ?]; by intros. Qed.

Lemma lift_list (x : merged_type) :
  match x with
  | (Some merged, drifts) => (Some (List merged), drifts)
  | (None, drifts) => (None, drifts)
  end = let '(r, ds) := x in (List <$> r, ds).
Proof. by destruct x as [[r|] ds]. Qed.

Lemma merge_list_value dk t bfs bv path :
  (forall ifs iv, t <> MkType kList ifs iv) ->
  merge_types dk t (MkType kList bfs (Some bv)) path
  = let '(r, ds) := merge_types dk t bv (path ++ str "[]") in (List <$> r, ds).
Proof.
  intros Ht. pose proof (lift_list (merge_types dk t bv (path ++ str "[]"))) as H.
  destruct t as [[] ifs iv]; try exact H. by destruct (Ht ifs iv).
Qed.

Lemma merge_list_list dk ifs iv bfs bv path :
  merge_types dk (MkType kList ifs (Some iv)) (MkType kList bfs (Some bv)) path
  = let '(r, ds) := merge_types dk iv bv (path ++ str "[]") in (List <$> r, ds).
Proof. exact (lift_list (merge_types dk iv bv (path ++ str "[]"))). Qed.

Lemma merge_scalars_ok k t :
  is_scalar_type (Scalar k) = true -> well_formed t -> is_scalar_type t = true ->
  match merge_scalars (Scalar k) t with
  | Some t' => well_formed t' /\ promotes (Scalar k) t'
  | None => True
  end.
Proof.
  intros Hk Ht Hs. destruct t as [k' fs v].
  assert (fs = [] /\ v = None) as [-> ->].
  { apply (well_formed_scalar k') in Ht; [done|by destruct k'|by destruct k']. }
  destruct k, k'; try done; (split; [done|]; apply promotes_scalar; auto).
Qed.

Lemma merge_types_ok dk incoming : well_formed incoming -> merger_ok (merge_types dk incoming).
Proof.
  type_induction incoming. intros Hi b. induction b as [bk bfs bv IHbfs IHbv] using LogicalType_fields_ind.
  intros path Hb. set (i := MkType k fs v) in *.
  destruct (decide (bk = kStruct)) as [->|Hns]; [|destruct (decide (bk = kList)) as [->|Hnl]].
  - apply well_formed_struct in Hb as [-> Hb].
    destruct (decide (k = kStruct)) as [->|Hks]; [|destruct (decide (k = kList)) as [->|Hkl]].
    + unfold i. rewrite merge_struct_struct. apply well_formed_struct in Hi as [-> Hi].
      pose proof (merge_fields_ok bfs (incoming_fields dk fs) path Hb) as H.
      destruct (merge_fields bfs (incoming_fields dk fs) path) as [out ds]. simpl.
      destruct H as (H1 & H2 & H3).
      { apply Forall_map, Forall_forall. intros f Hf. rewrite Forall_forall in IHfs. split.
        - destruct Hi as [_ Hall]. rewrite Forall_forall in Hall. by apply Hall.
        - destruct f as [n [t|] nb]; simpl; [|done]. apply (IHfs _ Hf t eq_refl). by apply (wf_field_type fs (MkField n (Some t) nb)). }
      split; [by apply well_formed_struct|]. split; [by apply grows_struct|]. intros Hd [= E]. by apply Hd, H3.
    + done.
    + rewrite merge_struct_scalar by (by destruct k).
      assert ((wrapped_fields dk i bfs).*1 = bfs) as Efst.
      { unfold wrapped_fields. rewrite <- list_fmap_compose. apply list_fmap_id. }
      pose proof (merge_wrapped_ok (wrapped_fields dk i bfs) i path dk) as H. rewrite Efst in H.
      apply H; [done| |done]. apply Forall_map, Forall_forall. intros f Hf.
      rewrite Forall_forall in IHbfs. destruct f as [n [t|] nb]; unfold wrapped_ok; simpl; [|done].
      intros p. apply (IHbfs _ Hf t eq_refl p). by apply (wf_field_type bfs (MkField n (Some t) nb)).
  - apply well_formed_list in Hb as [-> Hb]. destruct bv as [bv|]; [|done].
    assert (forall (r : option LogicalType) (ds : list DriftEvent), match r with Some t' => well_formed t' /\ promotes bv t' /\ (ds <> [] -> t' <> bv) | None => True end ->
      match List <$> r with
      | Some t' => well_formed t' /\ promotes (MkType kList [] (Some bv)) t' /\ (ds <> [] -> t' <> MkType kList [] (Some bv))
      | None => True
      end) as Hlift.
    { intros [t'|] ds; simpl; [|done]. intros (H1 & H2 & H3). split; [done|]. split.
      - apply promotes_list. right. eauto 6.
      - intros Hd [= E]. by apply (H3 Hd). }
    destruct (decide (k = kList)) as [->|Hk].
    + apply well_formed_list in Hi as [-> Hi]. destruct v as [iv|].
      * unfold i. rewrite merge_list_list. pose proof (IHv iv eq_refl Hi bv (path ++ str "[]") Hb) as H.
        destruct (merge_types dk iv bv _) as [r ds]. by apply Hlift.
      * simpl. split; [done|]. split; [|done]. apply promotes_refl. by apply well_formed_list.
    + rewrite merge_list_value by (unfold i; congruence).
      pose proof (IHbv bv eq_refl (path ++ str "[]") Hb) as H.
      destruct (merge_types dk i bv _) as [r ds]. by apply Hlift.
  - apply well_formed_scalar in Hb as [-> ->]; [|done|done].
    assert (merge_types dk i (Scalar bk) path
      = if is_scalar_type i then (merge_scalars (Scalar bk) i, []) else (None, [])) as E.
    { unfold i. by destruct k, bk. }
    unfold Scalar in E. rewrite E. destruct (is_scalar_type i) eqn:Es; [|done].
    pose proof (merge_scalars_ok bk i ltac:(by destruct bk) Hi Es) as H. unfold Scalar in H.
    destruct (merge_scalars _ i); [|done]. destruct H as [? ?]. by split.
Qed.

Lemma incoming_fields_ok dk fs : wf_fields fs -> Forall incoming_ok (incoming_fields dk fs).
Proof.
  intros Hwf. apply Forall_map, Forall_forall. intros f Hf. split.
  - destruct Hwf as [_ H]. rewrite Forall_forall in H. by apply H.
  - destruct f as [n [t|] b]; simpl; [|done]. apply merge_types_ok. by apply (wf_field_type fs (MkField n (Some t) b)).
Qed.

(** C2: the registry never rewrites history.  Merging an observation keeps every
    canonical field at its position with its name and nullability, at every
    nesting level, and only widens scalar types (a null type to any scalar, an
    integer to a float) or appends fields; field names stay distinct at every
    level, also those generated for incompatible shapes. *)
Theorem registry_merge_keeps_history base incoming path dk :
  wf_fields base -> wf_fields incoming ->
  let out := (merge_registry_fields base incoming path dk).1 in
  grows base out /\ wf_fields out.
Proof.
  intros Hb Hi. pose proof (merge_fields_ok base (incoming_fields dk incoming) path Hb (incoming_fields_ok dk _ Hi)) as H.
  unfold merge_registry_fields. destruct (merge_fields _ _ _) as [out ds]. simpl. tauto.
Qed.

(** The drift report is exact.  A merge reports no drift event if and only if
    it leaves the canonical schema as it was. *)
Theorem registry_drift_exact base incoming path dk :
  wf_fields base -> wf_fields incoming ->
  let '(out, drifts) := merge_registry_fields base incoming path dk in
  drifts = [] <-> out = base.
Proof.
  intros Hb Hi. pose proof (merge_fields_ok base (incoming_fields dk incoming) path Hb (incoming_fields_ok dk _ Hi)) as H.
  unfold merge_registry_fields. destruct (merge_fields _ _ _) as [out ds]. tauto.
Qed.

(** ** Generated names *)

Lemma rfind_marker_app_None x y :
  rfind_marker x = None -> rfind_marker y = None -> last x <> Some underscore -> rfind_marker (x ++ y) = None.
Proof.
  induction x as [|c x IH]; simpl; intros Hx Hy Hl; [done|].
  destruct (rfind_marker x) as [?|] eqn:Ex; [done|]. destruct x as [|d x].
  - simpl. rewrite Hy. destruct y; [done|]. rewrite bool_decide_eq_false_2; [done|]. intros ->. by apply Hl.
  - rewrite IH; [|done..]. done.
Qed.

Lemma semantic_type_ok_app p x y :
  x <> [] -> last x <> Some underscore ->
  semantic_type_ok p (x ++ y) = semantic_type_ok p x && semantic_type_ok false y.
Proof.
  revert p. induction x as [|c x IH]; intros p Hne Hl; [done|]. destruct x as [|d x].
  - simpl in *. assert (c <> underscore) as Hc by congruence. rewrite (bool_decide_eq_false_2 (c = underscore)) by done.
    simpl. destruct (is_lower c); done.
  - cbn [app semantic_type_ok] in IH |- *. destruct (negb (is_lower c) && _); [done|].
    destruct (bool_decide (c = underscore) && p); [done|]. by apply IH.
Qed.

Ltac semantic_closed := split; [reflexivity|discriminate|discriminate|cbn; lia|reflexivity].

Lemma array_suffix s : semantic_suffix s -> semantic_suffix (s ++ str "_array").
Proof.
  intros [Hok Hh Hl Hlen Hm].
  assert (s <> []) as Hne by (intros ->; simpl in Hlen; lia). split.
  - by rewrite semantic_type_ok_app, Hok.
  - by destruct s.
  - rewrite last_app. done.
  - rewrite length_app. lia.
  - rewrite app_comm_cons. apply rfind_marker_app_None; [done|done|]. by destruct s.
Qed.

Lemma variant_semantic_suffix t : semantic_suffix (variant_semantic_type t).
Proof.
  type_induction t. destruct (decide (k = kList)) as [->|Hk]; [|destruct k; try done; semantic_closed].
  apply array_suffix. destruct v as [t|]; [by apply IHv|semantic_closed].
Qed.

(** The names the registry generates for incompatible shapes parse back to
    the field family, version and semantic type they were made from, for every
    logical type and every version an [int] can hold. *)
Theorem variant_name_roundtrip base version t :
  base <> [] -> 2 <= version <= INT_MAX ->
  parse_versioned_field_name (make_versioned_field_name base version (variant_semantic_type t))
  = Some (MkVersioned base version (variant_semantic_type t)).
Proof. intros Hb Hv. apply parse_make_versioned; [done..|]. apply variant_semantic_suffix. Qed.

(** ** Reprocessing

    Types as inference reports them: lists have an element type and no field
    name looks like a generated version. *)
Inductive observed : LogicalType -> Prop :=
| observed_scalar t : is_scalar_type t = true -> observed t
| observed_struct fs v :
    Forall (fun f => parse_versioned_field_name (fname f) = None /\
              forall t, ftype f = Some t -> observed t) fs -> observed (MkType kStruct fs v)
| observed_list fs t : observed t -> observed (MkType kList fs (Some t)).

Definition observed_fields (fs : list LogicalField) : Prop :=
  Forall (fun f => parse_versioned_field_name (fname f) = None /\ forall t, ftype f = Some t -> observed t) fs.

(** Every generated version fits the [int] that carries it. *)
Definition versions_fit (ds : list DriftEvent) : Prop :=
  Forall (fun d => drift d = new_version_generated -> is_Some (parse_versioned_field_name (output_name d))) ds.

(** A second merge of the same observation does nothing. *)
Definition merger_idem (m : merger) : Prop :=
  forall b path b' ds, well_formed b -> m b path = (Some b', ds) -> versions_fit ds -> m b' path = (Some b', []).

(** What an incoming field needs for the second pass to be silent *)
Definition repeatable (inc : incoming_field) : Prop :=
  parse_versioned_field_name (fname inc.1) = None /\
  match ftype inc.1, inc.2 with
  | Some t, Some m => well_formed t /\ merger_idem m /\ forall path, m t path = (Some t, [])
  | Some _, None => False
  | None, _ => True
  end.

Lemma versions_fit_app ds1 ds2 : versions_fit (ds1 ++ ds2) <-> versions_fit ds1 /\ versions_fit ds2.
Proof. apply Forall_app. Qed.

Lemma versions_fit_promoted path f t ds :
  versions_fit match ds with [] => [promoted path f t] | _ => ds end -> versions_fit ds.
Proof. destruct ds; [constructor|done]. Qed.

Lemma unversioned_family n : parse_versioned_field_name n = None -> variant_family_base n = n.
Proof. intros E. unfold variant_family_base, versioned_field_base. by rewrite E. Qed.

Lemma merge_existing_eq out index g skipped t m path :
  index_ok (field_names out) index ->
  merge_into_existing_family_variant out index g skipped t m path
  = let ps := reverse (family_slots (field_names out) g) in
    if existsb (exact_member out skipped t) ps then Some (out, []) else merge_into_member out skipped m path ps.
Proof.
  intros Hix. pose proof (ix_family _ _ Hix g) as Hf. unfold merge_into_existing_family_variant.
  destruct (families index !! g); by rewrite <- Hf.
Qed.

(** The field is in the output, and merging it again finds its type there. *)
Definition absorbed (parent_path : name) (out : list LogicalField) (inc : incoming_field) : Prop :=
  let path := join_path parent_path (source_segment_for_output (fname inc.1)) in
  exists i b, out !! i = Some b /\ fname b = fname inc.1 /\
  match ftype b, ftype inc.1, inc.2 with
  | Some bt, Some t, Some m =>
      match m bt path with
      | (Some merged, ds) => merged = bt /\ ds = []
      | (None, _) =>
          let ps := reverse (family_slots (field_names out) (fname inc.1)) in
          existsb (exact_member out (Some i) t) ps = true \/ merge_into_member out (Some i) m path ps = Some (out, [])
      end
  | _, _, _ => True
  end.

Lemma set_out_same st : set_out st (ms_out st, []) = st.
Proof. destruct st. unfold set_out. simpl. by rewrite app_nil_r. Qed.

Lemma absorbed_step path st inc :
  index_ok (field_names (ms_out st)) (ms_index st) -> parse_versioned_field_name (fname inc.1) = None ->
  absorbed path (ms_out st) inc -> merge_one_field path st inc = st.
Proof.
  intros Hix Hu (i & b & Hi & En & Hb). unfold merge_one_field.
  assert (by_name (ms_index st) !! fname inc.1 = Some i) as ->.
  { apply (ix_name _ _ Hix). unfold field_names. by rewrite list_lookup_fmap, Hi, <- En. }
  rewrite Hi. destruct inc as [f mo]; unfold merge_known_field; simpl in *.
  destruct (ftype b) as [bt|] eqn:Eb; [|done]. destruct (ftype f) as [t|]; [|done]. destruct mo as [m|]; [|done].
  destruct (m bt _) as [[merged|] ds].
  - destruct Hb as [-> ->]. rewrite logical_type_equal_refl. apply set_out_same.
  - rewrite merge_existing_eq, (unversioned_family (fname f)) by done. cbv zeta. destruct Hb as [->| ->]; [apply set_out_same|].
    destruct (existsb _ _); apply set_out_same.
Qed.

(** What a step may do to the output: nothing, retype one member of the
    family [g], or append one. *)
Inductive touches (g : name) (out : list LogicalField) : list LogicalField -> Prop :=
| touch_none : touches g out out
| touch_type i b t : out !! i = Some b -> variant_family_base (fname b) = g -> touches g out (<[i := set_type b t]> out)
| touch_append f : variant_family_base (fname f) = g -> touches g out (out ++ [f]).

Lemma family_slot_lookup out g i :
  i ∈ family_slots (field_names out) g <-> exists b, out !! i = Some b /\ variant_family_base (fname b) = g.
Proof.
  unfold family_slots, slots, field_names. rewrite list_elem_of_filter, elem_of_seq, length_fmap. split.
  - intros [Hg [_ Hi]]. destruct (lookup_lt_is_Some_2 out i Hi) as [b Hb]. exists b. split; [done|].
    rewrite <- Hg. f_equal. symmetry. apply list_lookup_total_correct. by rewrite list_lookup_fmap, Hb.
  - intros (b & Hb & Hg). split; [|split; [lia|by eapply lookup_lt_Some]]. rewrite <- Hg. f_equal.
    apply list_lookup_total_correct. by rewrite list_lookup_fmap, Hb.
Qed.

(** Other families do not notice. *)
Lemma touches_other g g' out out' :
  touches g out out' -> g' <> g ->
  family_slots (field_names out') g' = family_slots (field_names out) g' /\
  forall i b, out !! i = Some b -> variant_family_base (fname b) = g' -> out' !! i = Some b.
Proof.
  intros [|i b t Hi Hg|f Hg] Hne; [done| |].
  - split; [by rewrite (field_names_insert out i b)|]. intros j c Hj Hc.
    rewrite list_lookup_insert_ne; [done|]. intros ->. congruence.
  - split; [|intros; by apply lookup_app_l_Some].
    unfold field_names. rewrite fmap_app. simpl. rewrite family_slots_snoc, decide_False, app_nil_r; [done|congruence].
Qed.

Lemma exact_member_agree out out' skipped t i :
  out' !! i = out !! i -> exact_member out' skipped t i = exact_member out skipped t i.
Proof. intros E. unfold exact_member. by rewrite E. Qed.

Lemma merge_into_member_agree out out' skipped m path ps :
  (forall i, i ∈ ps -> out' !! i = out !! i) ->
  merge_into_member out skipped m path ps = Some (out, []) ->
  merge_into_member out' skipped m path ps = Some (out', []).
Proof.
  induction ps as [|i ps IH]; intros Hag; cbn [merge_into_member]; [done|]. rewrite (Hag i) by (by left).
  assert (merge_into_member out skipped m path ps = Some (out, []) ->
          merge_into_member out' skipped m path ps = Some (out', [])) as IH' by (apply IH; intros; apply Hag; by right).
  destruct (out !! i) as [c|]; [|done]. case_bool_decide; [done|]. destruct (ftype c) as [t|]; [|done].
  destruct (m t path) as [[merged|] ds]; [|done]. destruct (logical_type_equal t merged).
  - by intros [= ->].
  - destruct ds; intros [=].
Qed.

Lemma existsb_agree {A} (p q : A -> bool) l : (forall x, x ∈ l -> p x = q x) -> existsb p l = existsb q l.
Proof.
  induction l as [|x l IH]; intros H; simpl; [done|]. rewrite (H x) by (by left). f_equal. apply IH.
  intros y Hy. apply H. by right.
Qed.

Lemma absorbed_touch path out out' inc g :
  parse_versioned_field_name (fname inc.1) = None -> touches g out out' -> fname inc.1 <> g ->
  absorbed path out inc -> absorbed path out' inc.
Proof.
  intros Hu Ht Hne (i & b & Hi & En & Hb). destruct (touches_other g (fname inc.1) out out' Ht Hne) as [Hs Hl].
  assert (forall j, j ∈ reverse (family_slots (field_names out) (fname inc.1)) -> out' !! j = out !! j) as Hag.
  { intros j Hj. rewrite elem_of_reverse in Hj. apply family_slot_lookup in Hj as (c & Hc & Hg).
    rewrite Hc. by apply Hl. }
  exists i, b. split; [|split; [done|]].
  - apply Hl; [done|]. rewrite En. by apply unversioned_family.
  - destruct (ftype b) as [bt|]; [|done]. destruct (ftype inc.1) as [t|]; [|done]. destruct inc.2 as [m|]; [|done].
    destruct (m bt _) as [[merged|] ds]; [done|]. cbv zeta. rewrite Hs. destruct Hb as [Hb|Hb].
    + left. rewrite <- Hb. apply existsb_agree. intros j Hj. by apply exact_member_agree, Hag.
    + right. by eapply merge_into_member_agree.
Qed.

(** A family merge that succeeded finds its own result the second time. *)
Lemma merge_into_member_again out skipped m path ps out' ev :
  wf_fields out -> merger_ok m -> merger_idem m -> NoDup ps -> versions_fit ev ->
  merge_into_member out skipped m path ps = Some (out', ev) ->
  merge_into_member out' skipped m path ps = Some (out', []) /\
  (out' = out \/ exists j c t, j ∈ ps /\ skipped <> Some j /\ out !! j = Some c /\ out' = <[j := set_type c t]> out).
Proof.
  intros Hwf Hm Hid Hnd Hfit. induction ps as [|i ps IH]; cbn [merge_into_member]; [done|].
  apply NoDup_cons in Hnd as [Hnew Hnd].
  assert (forall r, merge_into_member out skipped m path ps = Some (out', ev) ->
    (out' !! i = out !! i -> r = merge_into_member out' skipped m path ps) ->
    r = Some (out', []) /\ (out' = out \/ exists j c t, j ∈ i :: ps /\ skipped <> Some j /\ out !! j = Some c /\
      out' = <[j := set_type c t]> out)) as Hskip.
  { intros r Hr Er. destruct (IH Hnd Hr) as [H1 H2]. split.
    - rewrite <- H1. apply Er. destruct H2 as [->|(j & c & t & Hj & _ & _ & ->)]; [done|].
      apply list_lookup_insert_ne. by intros ->.
    - destruct H2 as [?|(j & c & t & Hj & ?)]; [by left|right]. exists j, c, t. split; [by right|done]. }
  destruct (out !! i) as [c|] eqn:Hi; [|intros Hr; apply Hskip; [done|intros ->; done]].
  case_bool_decide as Hsk; [intros Hr; apply Hskip; [done|intros ->; done]|].
  destruct (ftype c) as [t|] eqn:Et; [|intros Hr; apply Hskip; [done|intros ->; by rewrite Et]].
  assert (well_formed t) as Hwt by (eapply wf_field_type; [done| |done]; by eapply list_elem_of_lookup_2).
  pose proof (Hm t path Hwt) as Hmt. destruct (m t path) as [[t'|] ds] eqn:Emt;
    [|intros Hr; apply Hskip; [done|intros ->; by rewrite Et, Emt]].
  destruct Hmt as (Hwt' & Hp & Hds). destruct (logical_type_equal t t') eqn:Eeq; intros [= <- <-].
  - apply logical_type_equal_eq in Eeq as <-; [|done|done]. rewrite Hi, Et, Emt, logical_type_equal_refl.
    split; [|by left]. destruct ds; [done|]. by destruct (Hds ltac:(done)).
  - rewrite list_lookup_insert_eq by (by eapply lookup_lt_Some). cbn [ftype set_type].
    rewrite (Hid t path t' ds) by (done || by eapply versions_fit_promoted). rewrite logical_type_equal_refl.
    split; [done|]. right. exists i, c, t'. split; [by left|done].
Qed.

Lemma family_slots_NoDup ns g : NoDup (reverse (family_slots ns g)).
Proof. rewrite reverse_Permutation. unfold family_slots, slots. apply NoDup_filter, NoDup_seq. Qed.

(** The family of a generated name *)
Lemma next_variant_loop_make fuel index base ty v :
  exists v', v <= v' /\ next_variant_loop fuel index base ty v = make_versioned_field_name base v' ty.
Proof.
  revert v. induction fuel as [|fuel IH]; intros v; cbn [next_variant_loop]; [by exists v; split; [lia|]|].
  case_bool_decide; [|by exists v; split; [lia|]]. destruct (IH (v + 1)) as (v' & ? & ->). exists v'. by split; [lia|].
Qed.

Lemma next_variant_family ns index base t :
  index_ok ns index -> is_Some (parse_versioned_field_name (next_variant_name index base t)) ->
  variant_family_base (next_variant_name index base t) = base.
Proof.
  intros Hix [q Hq]. rewrite <- family_key, Hq. revert Hq. unfold next_variant_name.
  set (v := match families index !! base with Some f => next_version f | None => 2 end).
  assert (2 <= v) as Hv.
  { unfold v. destruct (families index !! base) as [fam|] eqn:E; [|lia]. by apply (ix_version _ _ Hix _ _ E). }
  destruct (next_variant_loop_make (size (by_name index)) index base (variant_semantic_type t) v) as (v' & Hv' & ->).
  apply parse_make_base; [lia|apply variant_semantic_suffix].
Qed.

(** A generated member of the family of the incoming field absorbs it. *)
Lemma append_variant_absorbs path st f t m prev i b bt ds :
  let p := join_path path (source_segment_for_output (fname f)) in
  let st' := append_variant st f t (fname f) p prev in
  index_ok (field_names (ms_out st)) (ms_index st) -> repeatable (f, Some m) ->
  ftype f = Some t -> ms_out st !! i = Some b -> fname b = fname f -> ftype b = Some bt -> m bt p = (None, ds) ->
  versions_fit (ms_drifts st') ->
  absorbed path (ms_out st') (f, Some m) /\ touches (fname f) (ms_out st) (ms_out st').
Proof.
  intros p st' Hix [Hu _] Et Hi En Eb Em Hfit. simpl in Hu.
  set (n := next_variant_name (ms_index st) (fname f) t).
  assert (variant_family_base n = fname f) as Hn.
  { apply versions_fit_app in Hfit as [_ Hfit]. unfold versions_fit in Hfit. rewrite Forall_singleton in Hfit. destruct (Hfit eq_refl) as [q Hq].
    cbn [output_name] in Hq. eapply next_variant_family; [done|]. by eexists. }
  split; [|by apply touch_append].
  exists i, b. split; [by apply lookup_app_l_Some|split; [done|]]. cbn [fst snd]. rewrite Eb, Et. fold p. rewrite Em. cbv zeta. left.
  apply existsb_exists. exists (length (ms_out st)). split.
  - apply list_elem_of_In. rewrite elem_of_reverse. apply family_slot_lookup.
    exists (MkField n (ftype f) true). split; [|exact Hn]. apply lookup_snoc_Some. right. by split.
  - unfold exact_member. simpl. rewrite lookup_app_r, Nat.sub_diag by done. simpl. rewrite Et, logical_type_equal_refl.
    rewrite bool_decide_eq_false_2; [done|]. intros [= ->]. apply lookup_lt_Some in Hi. lia.
Qed.

(** A step absorbs its field and touches only the family of that field. *)
Lemma merge_known_field_absorbs base path st i b inc :
  let st' := merge_known_field path st i b inc in
  state_ok base st -> incoming_ok inc -> repeatable inc -> ms_out st !! i = Some b -> fname b = fname inc.1 ->
  versions_fit (ms_drifts st') ->
  absorbed path (ms_out st') inc /\ touches (fname inc.1) (ms_out st) (ms_out st').
Proof.
  intros st' Hst [Hf Hm] [Hu Hr] Hi En Hfit. destruct inc as [f mo]. simpl in *.
  unfold merge_known_field in st', Hfit. set (p := join_path path (source_segment_for_output (fname f))) in *.
  pose proof (st_wf _ _ Hst) as Hwf. pose proof (st_index _ _ Hst) as Hix.
  assert (variant_family_base (fname b) = fname f) as Hfam by (rewrite En; by apply unversioned_family).
  destruct (ftype b) as [bt|] eqn:Eb; [|split; [exists i, b; cbn; by rewrite Eb|constructor]].
  destruct (ftype f) as [t|] eqn:Et; [|split; [exists i, b; cbn; by rewrite Eb, Et|constructor]].
  destruct mo as [m|]; [|done]. destruct Hr as (Hwt & Hid & Hself).
  assert (well_formed bt) as Hwb by (eapply wf_field_type; [done| |done]; by eapply list_elem_of_lookup_2).
  pose proof (Hm bt p Hwb) as Hmb. destruct (m bt p) as [[t'|] ds] eqn:Em.
  - destruct Hmb as (Hwt' & Hp & Hds). destruct (logical_type_equal bt t') eqn:Eeq.
    + apply logical_type_equal_eq in Eeq as <-; [|done|done]. split; [|constructor].
      exists i, b. split; [done|split; [done|]]. cbn. rewrite Eb, Et. fold p. rewrite Em. split; [done|].
      destruct ds; [done|]. by destruct (Hds ltac:(done)).
    + split; [|by apply touch_type]. exists i, (set_type b t'). cbn.
      rewrite list_lookup_insert_eq by (by eapply lookup_lt_Some). split; [done|split; [done|]].
      rewrite Et. fold p. apply versions_fit_app in Hfit as [_ Hfit].
      rewrite (Hid bt p t' ds) by (done || by eapply versions_fit_promoted). done.
  - subst st'. rewrite (unversioned_family (fname f)) in Hfit |- * by done.
    rewrite merge_existing_eq in Hfit |- * by done. cbv zeta in *.
    set (ps := reverse (family_slots (field_names (ms_out st)) (fname f))) in *.
    destruct (existsb _ ps) eqn:Ex; [|destruct (merge_into_member _ _ _ _ ps) as [[out' ev]|] eqn:E].
    + split; [|constructor]. exists i, b. split; [done|split; [done|]]. cbn. rewrite Eb, Et. fold p. rewrite Em. by left.
    + destruct (merge_into_member_again (ms_out st) (Some i) m p ps out' ev) as [Hagain Hshape]; [done..| | |done|].
      { apply family_slots_NoDup. }
      { by apply versions_fit_app in Hfit as [_ Hfit]. }
      destruct (merge_into_member_ok _ _ _ _ _ _ _ Hwf Hm E) as (_ & _ & Hns). cbn [set_out ms_out fst].
      split.
      * exists i, b. split; [|split; [done|]].
        { destruct Hshape as [->|(j & c & u & _ & Hne & _ & ->)]; [done|]. rewrite list_lookup_insert_ne; [done|congruence]. }
        cbn. rewrite Eb, Et. fold p. rewrite Em, Hns. by right.
      * destruct Hshape as [->|(j & c & u & Hj & _ & Hc & ->)]; [constructor|]. apply touch_type; [done|].
        unfold ps in Hj. rewrite elem_of_reverse in Hj. apply family_slot_lookup in Hj as (c' & Hc' & <-). congruence.
    + apply (append_variant_absorbs path st f t m _ i b bt ds); try done. split; [done|]. simpl. by rewrite Et.
Qed.

Lemma merge_one_field_absorbs base path st inc :
  let st' := merge_one_field path st inc in
  state_ok base st -> incoming_ok inc -> repeatable inc -> versions_fit (ms_drifts st') ->
  absorbed path (ms_out st') inc /\ touches (fname inc.1) (ms_out st) (ms_out st').
Proof.
  intros st' Hst Hinc Hr Hfit. unfold merge_one_field in st', Hfit.
  destruct (by_name (ms_index st) !! fname inc.1) as [i|] eqn:E.
  - apply (ix_name _ _ (st_index _ _ Hst)) in E. unfold field_names in E. rewrite list_lookup_fmap in E.
    destruct (ms_out st !! i) as [b|] eqn:Hi; [|done]. simpl in E. injection E as E.
    by eapply merge_known_field_absorbs.
  - destruct inc as [f mo]. destruct Hr as [Hu Hr]. simpl in Hu, Hr, E.
    assert (exists d, st' = append_field st f d) as [d Ed].
    { unfold st', merge_new_field, versioned_field_base. rewrite Hu. simpl. destruct (ftype f), mo; eauto. }
    clearbody st'. subst st'. split; [|apply touch_append; by apply unversioned_family].
    exists (length (ms_out st)), f. split; [by apply lookup_snoc_Some; right|split; [done|]]. simpl.
    destruct (ftype f) as [t|]; [|done]. destruct mo as [m|]; [|done]. destruct Hr as (_ & _ & Hs). by rewrite Hs.
Qed.

(** Events are only ever appended. *)
Lemma merge_one_field_drifts path st inc : exists ev, ms_drifts (merge_one_field path st inc) = ms_drifts st ++ ev.
Proof.
  assert (exists ev, ms_drifts st = ms_drifts st ++ ev) as H by (exists []; by rewrite app_nil_r).
  destruct inc as [f mo]. unfold merge_one_field, merge_new_field, merge_known_field, append_variant.
  repeat case_match; eauto; simpl; eauto.
Qed.

Lemma merge_fold_drifts path st inc :
  exists ev, ms_drifts (foldl (merge_one_field path) st inc) = ms_drifts st ++ ev.
Proof.
  revert st. induction inc as [|i inc IH]; intros st; simpl; [exists []; by rewrite app_nil_r|].
  destruct (IH (merge_one_field path st i)) as [ev ->], (merge_one_field_drifts path st i) as [ev' ->].
  exists (ev' ++ ev). by rewrite app_assoc.
Qed.

Lemma merge_fold_absorbs base path st inc done_ :
  let st' := foldl (merge_one_field path) st inc in
  state_ok base st -> Forall incoming_ok inc -> Forall repeatable (done_ ++ inc) ->
  NoDup ((fun i : incoming_field => fname i.1) <$> done_ ++ inc) -> Forall (absorbed path (ms_out st)) done_ ->
  versions_fit (ms_drifts st') -> Forall (absorbed path (ms_out st')) (done_ ++ inc).
Proof.
  revert st done_. induction inc as [|i inc IH]; intros st done_ st' Hst Hok Hr Hnd Hdone Hfit.
  - by rewrite app_nil_r.
  - apply Forall_cons in Hok as [Hi Hok]. rewrite cons_middle, app_assoc in Hr, Hnd |- *.
    pose proof Hr as [[Hrd Hri]%Forall_app _]%Forall_app. rewrite Forall_singleton in Hri.
    destruct (merge_one_field_absorbs base path st i Hst Hi Hri) as [Ha Ht].
    { destruct (merge_fold_drifts path (merge_one_field path st i) inc) as [ev E]. unfold st' in Hfit. simpl in Hfit.
      rewrite E in Hfit. by apply versions_fit_app in Hfit as [? _]. }
    unfold st'. simpl. apply IH; [by apply merge_one_field_ok|done|done|done| |done].
    apply Forall_app. split; [|by rewrite Forall_singleton]. rewrite Forall_forall in Hdone |- *. intros j Hj.
    eapply absorbed_touch; [|exact Ht| |by apply Hdone].
    + rewrite Forall_forall in Hrd. by apply (Hrd j Hj).
    + intros E. rewrite <- app_assoc, fmap_app in Hnd. apply NoDup_app in Hnd as (_ & Hnd & _).
      apply (Hnd (fname j.1)); [apply list_elem_of_fmap; by exists j|]. rewrite E. by left.
Qed.

Lemma absorbed_fold path st inc :
  index_ok (field_names (ms_out st)) (ms_index st) ->
  Forall (fun i => parse_versioned_field_name (fname i.1) = None) inc -> Forall (absorbed path (ms_out st)) inc ->
  foldl (merge_one_field path) st inc = st.
Proof.
  intros Hix Hr Ha. induction inc as [|i inc IH]; [done|].
  apply Forall_cons in Hr as [Hu Hr], Ha as [Hi Ha]. simpl. rewrite absorbed_step by done. by apply IH.
Qed.

(** Merging the same fields again changes nothing and reports nothing. *)
Lemma merge_fields_again base inc path :
  wf_fields base -> Forall incoming_ok inc -> Forall repeatable inc -> NoDup ((fun i : incoming_field => fname i.1) <$> inc) ->
  versions_fit (merge_fields base inc path).2 ->
  merge_fields (merge_fields base inc path).1 inc path = ((merge_fields base inc path).1, []).
Proof.
  intros Hwf Hok Hr Hnd Hfit. pose proof (initial_state_ok base Hwf) as Hst.
  pose proof (merge_fold_absorbs base path _ inc [] Hst Hok Hr Hnd ltac:(constructor) Hfit) as Ha.
  unfold merge_fields in *. simpl in *. set (st := foldl _ _ inc) in *.
  assert (wf_fields (ms_out st)) as Hwf' by (apply (st_wf base); by apply merge_fold_ok).
  rewrite (absorbed_fold path (MkMerge (ms_out st) _ [])); [done| | |done].
  - apply build_index_ok, Hwf'.
  - eapply Forall_impl; [exact Hr|]. by intros i [? _].
Qed.

Lemma field_names_incoming dk fs : (fun i : incoming_field => fname i.1) <$> incoming_fields dk fs = field_names fs.
Proof. unfold incoming_fields. change (map ?f ?l) with (f <$> l). by rewrite <- list_fmap_compose. Qed.

(** Merging a type into itself *)
Lemma merge_types_self dk t path : well_formed t -> observed t -> merge_types dk t t path = (Some t, []).
Proof.
  revert path. type_induction t. intros path Hwf Hobs.
  destruct (decide (k = kStruct)) as [->|Hns]; [|destruct (decide (k = kList)) as [->|Hnl]].
  - apply well_formed_struct in Hwf as [-> Hwf]. rewrite merge_struct_struct.
    inversion Hobs as [? Hs|? ? Hall|]; subst; [done|]. rewrite Forall_forall in Hall, IHfs.
    assert (merge_fields fs (incoming_fields dk fs) path = (fs, [])) as E; [|by rewrite E].
    unfold merge_fields. rewrite absorbed_fold; [done|by apply build_index_ok, Hwf| |].
    all: apply Forall_map, Forall_forall; intros f Hf; destruct (Hall f Hf) as [Hu Ho].
    + done.
    + pose proof Hf as [i Hi]%list_elem_of_lookup. exists i, f. split; [done|split; [done|]].
      destruct f as [n [t|] b]; simpl; [|done].
      rewrite (IHfs _ Hf t eq_refl); [done|by apply (wf_field_type fs (MkField n (Some t) b))|by apply Ho].
  - inversion Hobs as [? Hs| |? t Ho]; subst; [done|]. apply well_formed_list in Hwf as [-> Hwf].
    rewrite merge_list_list, (IHv t eq_refl) by done. done.
  - apply well_formed_scalar in Hwf as [-> ->]; [|done|done]. by destruct k.
Qed.

Lemma incoming_repeatable dk fs :
  wf_fields fs -> observed_fields fs ->
  (forall f t, f ∈ fs -> ftype f = Some t -> well_formed t -> observed t -> merger_idem (merge_types dk t)) ->
  Forall repeatable (incoming_fields dk fs).
Proof.
  intros Hwf Hobs Hid. apply Forall_map, Forall_forall. intros f Hf.
  unfold observed_fields in Hobs. rewrite Forall_forall in Hobs. destruct (Hobs f Hf) as [Hu Ho]. split; [done|].
  destruct f as [n [t|] b]; simpl; [|done].
  assert (well_formed t) as Hwt by (by apply (wf_field_type fs (MkField n (Some t) b))).
  split_and!; [done| |].
  - apply (Hid (MkField n (Some t) b)); [done|done|done|by apply Ho].
  - intros path. apply merge_types_self; [done|by apply Ho].
Qed.

(** ** The wrapped scalar, again *)

Lemma find_field_index_names fs fs' n : field_names fs = field_names fs' -> find_field_index fs n = find_field_index fs' n.
Proof.
  revert fs'. induction fs as [|f fs IH]; intros [|f' fs'] [=]; simpl; [done|]. rewrite (IH fs') by done. by rewrite H0.
Qed.

Lemma find_field_index_snoc fs f : fname f ∉ field_names fs -> find_field_index (fs ++ [f]) (fname f) = Some (length fs).
Proof.
  induction fs as [|g fs IH]; simpl; [by rewrite bool_decide_eq_true_2|].
  intros [Hne Hni]%not_elem_of_cons. rewrite bool_decide_eq_false_2 by done. by rewrite IH.
Qed.

(** The default key already holds the scalar. *)
Lemma wrapped_fixed dk t fs path i f ft :
  let key := match dk with [] => str "default_key" | n => n end in
  is_scalar_type t = true -> find_field_index fs key = Some i -> fs !! i = Some f -> ftype f = Some ft ->
  merge_types dk t ft (join_path path key) = (Some ft, []) ->
  merge_types dk t (Struct fs) path = (Some (Struct fs), []).
Proof.
  intros key Hs Hk Hi Et Hm. unfold Struct. rewrite merge_struct_scalar by done.
  unfold merge_struct_with_wrapped_scalar. fold key.
  assert ((wrapped_fields dk t fs).*1 = fs) as ->.
  { unfold wrapped_fields. rewrite <- list_fmap_compose. apply list_fmap_id. }
  rewrite Hk. unfold wrapped_fields. change (map ?g ?l) with (g <$> l). rewrite list_lookup_fmap, Hi. simpl.
  destruct f as [n [t'|] b]; simplify_eq/=. by rewrite Hm, logical_type_equal_refl.
Qed.

Lemma wrapped_again dk t fs path b' ds :
  is_scalar_type t = true -> well_formed t -> wf_fields fs ->
  (forall f ft p ft' ds', f ∈ fs -> ftype f = Some ft -> merge_types dk t ft p = (Some ft', ds') -> versions_fit ds' ->
     merge_types dk t ft' p = (Some ft', [])) ->
  merge_struct_with_wrapped_scalar (wrapped_fields dk t fs) None t path dk = (Some b', ds) -> versions_fit ds ->
  merge_types dk t b' path = (Some b', []).
Proof.
  intros Hs Ht Hwf IH. unfold merge_struct_with_wrapped_scalar at 1.
  assert ((wrapped_fields dk t fs).*1 = fs) as ->.
  { unfold wrapped_fields. rewrite <- list_fmap_compose. apply list_fmap_id. }
  set (key := match dk with [] => str "default_key" | _ => dk end). set (p := join_path path key).
  assert (forall p, merge_types dk t t p = (Some t, [])) as Hself.
  { intros q. apply merge_types_self; [done|by constructor]. }
  destruct (find_field_index fs key) as [i|] eqn:Ei.
  - pose proof (find_field_index_Some _ _ _ Ei) as (f & Hi & En). unfold wrapped_fields. change (map ?g ?l) with (g <$> l).
    rewrite list_lookup_fmap, Hi. simpl.
    assert (f ∈ fs) as Hf by (by eapply list_elem_of_lookup_2).
    assert (forall t', find_field_index (<[i := set_type f t']> fs) key = Some i) as Hk.
    { intros t'. rewrite <- Ei. apply find_field_index_names. by eapply field_names_insert. }
    assert (forall t', <[i := set_type f t']> fs !! i = Some (set_type f t')) as Hl.
    { intros t'. apply list_lookup_insert_eq. by eapply lookup_lt_Some. }
    destruct f as [n [ft|] b]; simpl.
    + destruct (merge_types dk t ft p) as [[ft'|] ds'] eqn:Em; [|done].
      destruct (logical_type_equal ft ft') eqn:Eeq; intros [= <- <-] Hfit; change (MkType kStruct ?l None) with (Struct l).
      * eapply wrapped_fixed; [done|done|exact Hi|done|]. fold key p.
        assert (well_formed ft) as Hwft by (by apply (wf_field_type fs (MkField n (Some ft) b))).
        pose proof (merge_types_ok dk t Ht ft p Hwft) as Hok. rewrite Em in Hok. destruct Hok as [Hwft' _].
        apply logical_type_equal_eq in Eeq as <-; [|done|done]. eapply IH; [exact Hf|done|exact Em|done].
      * eapply wrapped_fixed; [done|apply Hk|apply Hl|done|]. fold key p.
        eapply IH; [exact Hf|done|exact Em|by eapply versions_fit_promoted].
    + intros [= <- <-] _. eapply wrapped_fixed; [done|apply Hk|apply Hl|done|apply Hself].
  - intros [= <- <-] _. apply find_field_index_None in Ei.
    apply (wrapped_fixed dk t _ path (length fs) (make_nullable_field key t) t);
      [done|by apply (find_field_index_snoc fs (make_nullable_field key t))| |done|apply Hself].
    apply lookup_snoc_Some. by right.
Qed.

Lemma merge_types_idem dk incoming : well_formed incoming -> observed incoming -> merger_idem (merge_types dk incoming).
Proof.
  type_induction incoming. intros Hi Ho b. induction b as [bk bfs bv IHbfs IHbv] using LogicalType_fields_ind.
  intros path b' ds Hb. set (i := MkType k fs v) in *.
  destruct (decide (bk = kStruct)) as [->|Hns]; [|destruct (decide (bk = kList)) as [->|Hnl]].
  - apply well_formed_struct in Hb as [-> Hb].
    destruct (decide (k = kStruct)) as [->|Hks]; [|destruct (decide (k = kList)) as [->|Hkl]]; [|done|].
    + unfold i. apply well_formed_struct in Hi as [-> Hi]. inversion Ho as [? Hs|? ? Hall|]; subst; [done|].
      rewrite merge_struct_struct. pose proof (merge_fields_again bfs (incoming_fields dk fs) path Hb) as H.
      destruct (merge_fields bfs (incoming_fields dk fs) path) as [out ev]. cbn [fst snd] in H |- *. intros [= <- <-] Hfit.
      unfold Struct. rewrite merge_struct_struct, H; [done| | | |done].
      * by apply incoming_fields_ok.
      * apply incoming_repeatable; [done..|]. rewrite Forall_forall in IHfs. intros f t Hf Et. by apply (IHfs f Hf).
      * rewrite field_names_incoming. apply Hi.
    + assert (is_scalar_type i = true) as Hs by (by destruct k). rewrite merge_struct_scalar by done.
      intros E Hfit. eapply wrapped_again; [done|done|exact Hb| |exact E|done].
      intros f ft p ft' ds' Hf Et Em Hfit'. rewrite Forall_forall in IHbfs.
      eapply (IHbfs f Hf ft Et); [by eapply wf_field_type|exact Em|done].
  - apply well_formed_list in Hb as [-> Hb]. destruct bv as [bv|]; [|done].
    destruct (decide (k = kList)) as [->|Hk].
    + apply well_formed_list in Hi as [-> Hi]. inversion Ho as [? Hs| |? iv Hiv]; subst; [done|].
      unfold i. rewrite merge_list_list. destruct (merge_types dk iv bv _) as [[r|] ds'] eqn:E; [|done].
      intros [= <- <-] Hfit. unfold List. rewrite merge_list_list, (IHv iv eq_refl Hi Hiv _ _ _ _ Hb E Hfit). done.
    + assert (forall ifs iv, i <> MkType kList ifs iv) as Hil by (unfold i; congruence).
      rewrite merge_list_value by done. destruct (merge_types dk i bv _) as [[r|] ds'] eqn:E; [|done].
      intros [= <- <-] Hfit. unfold List. rewrite merge_list_value by done. by rewrite (IHbv bv eq_refl _ _ _ Hb E Hfit).
  - apply well_formed_scalar in Hb as [-> ->]; [|done|done]. unfold i in *.
    destruct (is_scalar_type (MkType k fs v)) eqn:Es; [|by destruct k, bk].
    apply well_formed_scalar in Hi as [-> ->]; [|by destruct k|by destruct k].
    destruct k, bk; try done; intros [= <- <-] _; done.
Qed.


(** ** Numeric families *)

Lemma parse_versioned_range n p : parse_versioned_field_name n = Some p -> 2 <= ver_version p <= INT_MAX.
Proof.
  assert (forall ds v, from_chars_int ds = Some v -> v <= INT_MAX) as Hfrom.
  { intros [|c ds] v; unfold from_chars_int; [done|].
    assert (forall l, 0 <= foldl (fun v c => 10 * v + digit_value c) 0 l \/ forallb is_digit l = false) as Hpos.
    { intros l. destruct (forallb is_digit l) eqn:E; [left|by right].
      assert (forall a, 0 <= a -> 0 <= foldl (fun v c => 10 * v + digit_value c) a l) as H; [|by apply H].
      induction l as [|x l IH]; intros a Ha; simpl; [done|]. simpl in E. apply andb_true_iff in E as [Ex E].
      apply IH; [done|]. assert (0 <= digit_value x); [|lia]. revert Ex. clear. all_bytes x. }
    case_bool_decide.
    - destruct (bool_decide _ && _) eqn:E; [|done]. simpl. case_match; [|done]. intros [= <-].
      destruct (Hpos ds) as [?|H']; [unfold INT_MAX; lia|]. rewrite H', andb_false_r in E. done.
    - destruct (bool_decide _ && _); [|done]. simpl. case_match eqn:E; [|done]. intros [= <-].
      by apply Z.leb_le. }
  unfold parse_versioned_field_name. repeat case_match; try done. intros [= <-]. simpl.
  split; [by apply Z.ltb_ge|by eapply Hfrom].
Qed.

Lemma canonicalize_spec f :
  let f' := canonicalize_versioned_name_for_type f in
  ftype f' = ftype f /\ nullable f' = nullable f /\ family_base_name f' = family_base_name f /\
  canonicalize_versioned_name_for_type f' = f'.
Proof.
  assert (canonicalize_versioned_name_for_type f = f -> let f' := canonicalize_versioned_name_for_type f in
    ftype f' = ftype f /\ nullable f' = nullable f /\ family_base_name f' = family_base_name f /\
    canonicalize_versioned_name_for_type f' = f') as Hsame by (intros E; cbv zeta; by rewrite !E).
  destruct (canonicalize_versioned_name_for_type f) as [n' t' b'] eqn:Ec. revert Ec.
  unfold canonicalize_versioned_name_for_type at 1.
  destruct (parse_versioned_field_name (fname f)) as [p|] eqn:Ep; [|intros ->; by apply Hsame].
  destruct (ftype f) as [t|] eqn:Et; [|intros ->; by apply Hsame].
  case_bool_decide as Es; [intros ->; by apply Hsame|]. intros [= <- <- <-].
  assert (parse_versioned_field_name (make_versioned_field_name (ver_base p) (ver_version p) (variant_semantic_type t))
    = Some (MkVersioned (ver_base p) (ver_version p) (variant_semantic_type t))) as E.
  { apply parse_make_versioned; [by eapply parse_versioned_base|by eapply parse_versioned_range|apply variant_semantic_suffix]. }
  simpl. split_and!; [done|done| |].
  - unfold family_base_name. rewrite <- !family_key. cbn [fname]. by rewrite E, Ep.
  - unfold canonicalize_versioned_name_for_type. cbn [fname ftype]. by rewrite E, bool_decide_eq_true_2.
Qed.

(** The field the emitting loop makes of input position [i], before the check
    for duplicates *)
Definition retained (plans : gmap name NumericFamilyPlan) (i : nat) (f : LogicalField) : option LogicalField :=
  match plans !! family_base_name f ≫= keep_position with
  | Some k =>
      if is_scalar_numeric_type f then
        if bool_decide (i = k)
        then Some (canonicalize_versioned_name_for_type (if is_scalar_integer_type f then set_type f (Scalar kFloat64) else f))
        else None
      else Some (canonicalize_versioned_name_for_type f)
  | None => Some (canonicalize_versioned_name_for_type f)
  end.

Definition is_duplicate (acc : list LogicalField * gmap name nat) (f : LogicalField) : bool :=
  match acc.2 !! fname f ≫= fun j => acc.1 !! j with
  | Some previous =>
      match ftype previous, ftype f with Some a, Some b => logical_type_equal a b | _, _ => false end
  | None => false
  end.

Definition emit (acc : list LogicalField * gmap name nat) (f : LogicalField) : list LogicalField * gmap name nat :=
  if is_duplicate acc f then acc else (acc.1 ++ [f], <[fname f := length acc.1]> acc.2).

Lemma emit_field_retained plans acc i f :
  emit_field plans acc i f = match retained plans i f with Some g => emit acc g | None => acc end.
Proof.
  destruct acc as [out by_name]. unfold emit_field, retained, emit, is_duplicate. cbn [fst snd].
  destruct (plans !! family_base_name f ≫= keep_position) as [k|]; [|done].
  destruct (is_scalar_numeric_type f); [|done]. by case_bool_decide.
Qed.

(** What the retained field keeps of its source *)
Lemma retained_spec plans i f g :
  retained plans i f = Some g ->
  family_base_name g = family_base_name f /\ canonicalize_versioned_name_for_type g = g /\
  is_scalar_numeric_type g = is_scalar_numeric_type f /\
  (ftype g = ftype f \/ ftype g = Some (Scalar kFloat64) /\ is_scalar_integer_type f = true) /\
  forall k, plans !! family_base_name f ≫= keep_position = Some k ->
    is_scalar_numeric_type f = true -> i = k /\ is_scalar_integer_type g = false.
Proof.
  assert (forall f', ftype f' = ftype f -> family_base_name f' = family_base_name f ->
    is_scalar_numeric_type f' = is_scalar_numeric_type f) as Hnum.
  { intros f' E _. unfold is_scalar_numeric_type, is_scalar_integer_type, is_scalar_float_type. by rewrite E. }
  unfold retained. destruct (plans !! family_base_name f ≫= keep_position) as [k|].
  2: { intros [= <-]. destruct (canonicalize_spec f) as (Et & _ & Ef & Ec). split_and!; [done|done|by apply Hnum|by left|done]. }
  destruct (is_scalar_numeric_type f) eqn:En.
  2: { intros [= <-]. destruct (canonicalize_spec f) as (Et & _ & Ef & Ec). split_and!; [done|done|by rewrite Hnum|by left|done]. }
  case_bool_decide as Ei; [|done]. intros [= <-].
  destruct (is_scalar_integer_type f) eqn:Eint.
  - destruct (canonicalize_spec (set_type f (Scalar kFloat64))) as (Et & _ & Ef & Ec).
    split_and!; [done|done| |auto|].
    + unfold is_scalar_numeric_type, is_scalar_float_type. rewrite Et. simpl. by rewrite orb_true_r.
    + intros k' [= ->] _. split; [done|]. unfold is_scalar_integer_type. by rewrite Et.
  - destruct (canonicalize_spec f) as (Et & _ & Ef & Ec). split_and!; [done|done|by rewrite Hnum|auto|].
    intros k' [= ->] _. split; [done|]. unfold is_scalar_integer_type in *. by rewrite Et.
Qed.

(** A member of the family [g] at [i] of which [p] holds *)
Definition member_at (fs : list LogicalField) (p : LogicalField -> bool) (g : name) (i : nat) : Prop :=
  exists f, fs !! i = Some f /\ p f = true /\ family_base_name f = g.

(** What the plan of the family [g] says of the fields [fs] *)
Record plan_ok (fs : list LogicalField) (g : name) (p : NumericFamilyPlan) : Prop := {
  pl_float : forall i, member_at fs is_scalar_float_type g i -> has_float p = true;
  pl_first : has_float p = true -> is_Some (first_float_position p);
  pl_first_at : forall k, first_float_position p = Some k -> member_at fs is_scalar_float_type g k;
  pl_plain_at : forall k, unversioned_numeric_position p = Some k -> member_at fs is_scalar_numeric_type g k
}.

Definition no_plan : NumericFamilyPlan := MkPlan false None None.

Definition plans_ok (fs : list LogicalField) (plans : gmap name NumericFamilyPlan) : Prop :=
  forall g, plan_ok fs g (default no_plan (plans !! g)).

Lemma member_at_snoc fs f p g i :
  member_at (fs ++ [f]) p g i <-> member_at fs p g i \/ (i = length fs /\ p f = true /\ family_base_name f = g).
Proof.
  unfold member_at. split.
  - intros (x & Hx & ?). apply lookup_snoc_Some in Hx as [[_ Hx]|[-> ->]]; [left; eauto|by right].
  - intros [(x & Hx & ?)|(-> & ?)]; [exists x|exists f]; (split; [apply lookup_snoc_Some|done]); [left|by right].
    split; [by eapply lookup_lt_Some|done].
Qed.

(** The two updates of the planning loop *)
Lemma plan_float_ok fs g f (q q' : NumericFamilyPlan) :
  plan_ok fs g q -> family_base_name f = g ->
  q' = (if is_scalar_float_type f
        then MkPlan true (match first_float_position q with Some j => Some j | None => Some (length fs) end)
               (unversioned_numeric_position q)
        else q) ->
  plan_ok (fs ++ [f]) g q'.
Proof.
  intros [H1 H2 H3 H4] Hg ->. destruct (is_scalar_float_type f) eqn:Ef; split; simpl.
  - done.
  - intros _. destruct (first_float_position q); eauto.
  - intros k Hk. apply member_at_snoc. destruct (first_float_position q); [left; apply H3; congruence|].
    right. split; [congruence|done].
  - intros k Hk. apply member_at_snoc. left. by apply H4.
  - intros i [Hm|(_ & ? & _)]%member_at_snoc; [by apply (H1 i)|congruence].
  - done.
  - intros k Hk. apply member_at_snoc. left. by apply H3.
  - intros k Hk. apply member_at_snoc. left. by apply H4.
Qed.

Lemma plan_plain_ok fs g f (q : NumericFamilyPlan) :
  plan_ok (fs ++ [f]) g q -> family_base_name f = g -> is_scalar_numeric_type f = true ->
  plan_ok (fs ++ [f]) g (MkPlan (has_float q) (first_float_position q) (Some (length fs))).
Proof.
  intros [H1 H2 H3 H4] Hg Hn. split; simpl; [done..|]. intros k [= <-]. apply member_at_snoc. by right.
Qed.

Lemma plan_field_ok fs plans f : plans_ok fs plans -> plans_ok (fs ++ [f]) (plan_field plans (length fs) f).
Proof.
  intros Hp g. unfold plan_field. destruct (decide (g = family_base_name f)) as [->|Hne].
  - rewrite lookup_insert_eq. cbn [default from_option].
    pose proof (plan_float_ok fs _ f _ _ (Hp (family_base_name f)) eq_refl eq_refl) as Hq. unfold no_plan in Hq.
    set (q := if is_scalar_float_type f then _ else _) in *. unfold id.
    destruct (unversioned_numeric_position q); [done|]. destruct (_ && _) eqn:E; [|done].
    apply plan_plain_ok; [done..|]. by apply andb_true_iff in E as [_ ?].
  - rewrite lookup_insert_ne by done. destruct (Hp g) as [H1 H2 H3 H4]. split; [|done|..].
    + intros i [Hm|(_ & _ & ?)]%member_at_snoc; [by apply (H1 i)|done].
    + intros k Hk. apply member_at_snoc. left. by apply H3.
    + intros k Hk. apply member_at_snoc. left. by apply H4.
Qed.

Lemma plan_fields_ok fs : plans_ok fs (plan_fields fs).
Proof.
  assert (let r := foldl (fun '(plans, i) f => (plan_field plans i f, S i)) (∅, 0%nat) fs in
    r.2 = length fs /\ plans_ok fs r.1) as [_ H]; [|exact H].
  induction fs as [|f fs IH] using rev_ind; cbv zeta.
  - split; [done|]. intros g. simpl. rewrite lookup_empty. split; simpl; try done.
    intros i (x & Hx & _). by rewrite lookup_nil in Hx.
  - rewrite foldl_snoc. destruct (foldl _ _ fs) as [plans i]. destruct IH as [Hi IH]. simpl in *. subst i.
    rewrite length_app. split; [simpl; lia|]. by apply plan_field_ok.
Qed.

(** A float makes the family keep one numeric field, and only a float does. *)
Lemma keep_of_float fs g i :
  member_at fs is_scalar_float_type g i -> is_Some (plan_fields fs !! g ≫= keep_position).
Proof.
  intros Hm. destruct (plan_fields_ok fs g) as [H1 H2 _ _]. specialize (H1 i Hm). specialize (H2 H1).
  destruct (plan_fields fs !! g) as [p|]; [|done]. simpl in *. unfold keep_position. rewrite H1.
  destruct (unversioned_numeric_position p); eauto.
Qed.

Lemma keep_at fs g k :
  plan_fields fs !! g ≫= keep_position = Some k ->
  member_at fs is_scalar_numeric_type g k /\ exists j, member_at fs is_scalar_float_type g j.
Proof.
  destruct (plan_fields_ok fs g) as [_ H2 H3 H4]. destruct (plan_fields fs !! g) as [p|]; [|done]. simpl in *.
  unfold keep_position. destruct (has_float p); [|done]. destruct (H2 eq_refl) as [j Hj]. intros Hk.
  split; [|eauto]. destruct (unversioned_numeric_position p) as [u|]; [apply H4; congruence|].
  destruct (H3 k) as (f & Hf & Hp & Hg); [done|]. exists f. split_and!; [done| |done].
  unfold is_scalar_numeric_type. by rewrite Hp, orb_true_r.
Qed.

(** Every emitted field comes from its own input position. *)
Lemma emitted_sources plans fs :
  let r := foldl (fun '(acc, i) f => (emit_field plans acc i f, S i)) (([], ∅), 0%nat) fs in
  r.2 = length fs /\
  exists src, NoDup src /\ Forall (fun k => (k < length fs)%nat) src /\
    Forall2 (fun k g => exists f, fs !! k = Some f /\ retained plans k f = Some g) src r.1.1.
Proof.
  induction fs as [|f fs IH] using rev_ind; cbv zeta; [by split; [|exists []; split_and!; constructor]|].
  rewrite foldl_snoc. destruct (foldl _ _ fs) as [[out names] i]. destruct IH as [Hi (src & Hnd & Hlt & H2)].
  cbn [fst snd] in *. subst i. rewrite length_app. split; [simpl; lia|].
  assert (Forall (fun k => (k < length fs + 1)%nat) src) as Hlt' by (eapply Forall_impl; [exact Hlt|simpl; lia]).
  assert (Forall2 (fun k g => exists x, (fs ++ [f]) !! k = Some x /\ retained plans k x = Some g) src out) as H2'.
  { eapply Forall2_impl; [exact H2|]. intros k g (x & Hx & Hr). exists x. split; [by apply lookup_app_l_Some|done]. }
  rewrite emit_field_retained. destruct (retained plans (length fs) f) as [g|] eqn:Er; [|by exists src].
  unfold emit. destruct (is_duplicate _ g); [by exists src|]. exists (src ++ [length fs]). split_and!.
  - apply NoDup_app. split_and!; [done| |apply NoDup_singleton]. intros k Hk ->%list_elem_of_singleton.
    rewrite Forall_forall in Hlt. specialize (Hlt _ Hk). lia.
  - apply Forall_app. split; [done|]. constructor; [simpl; lia|constructor].
  - apply Forall2_app; [done|]. constructor; [|constructor]. exists f. split; [by apply lookup_snoc_Some; right|done].
Qed.

Lemma collapse_single fs i j a b :
  let out := collapse_numeric_fields fs in
  out !! i = Some a -> out !! j = Some b -> family_base_name a = family_base_name b ->
  is_scalar_float_type a = true -> is_scalar_numeric_type b = true ->
  i = j /\ is_scalar_integer_type b = false.
Proof.
  cbv zeta. intros Hi Hj Hg Ha Hb.
  destruct (emitted_sources (plan_fields fs) fs) as [_ (src & Hnd & _ & H2)].
  unfold collapse_numeric_fields in Hi, Hj.
  destruct (Forall2_lookup_r _ _ _ _ _ H2 Hi) as (k & Hk & fa & Hfa & Hra).
  destruct (Forall2_lookup_r _ _ _ _ _ H2 Hj) as (l & Hl & fb & Hfb & Hrb).
  destruct (retained_spec _ _ _ _ Hra) as (Ga & _ & Na & Ta & Ka), (retained_spec _ _ _ _ Hrb) as (Gb & _ & Nb & _ & Kb).
  assert (is_scalar_numeric_type a = true) as Hna by (unfold is_scalar_numeric_type; by rewrite Ha, orb_true_r).
  assert (is_Some (plan_fields fs !! family_base_name fa ≫= keep_position)) as [q Hq].
  { destruct Ta as [Ta|[_ Hint]].
    - apply (keep_of_float fs _ k). exists fa. split_and!; [done| |done]. revert Ha. unfold is_scalar_float_type. by rewrite Ta.
    - destruct (plan_fields fs !! family_base_name fa ≫= keep_position) as [q|] eqn:E; [eauto|].
      unfold retained in Hra. rewrite E in Hra. injection Hra as <-. destruct (canonicalize_spec fa) as (Et & _).
      revert Ha Hint. unfold is_scalar_float_type, is_scalar_integer_type. rewrite Et.
      destruct (ftype fa) as [[[] ? ?]|]; done. }
  destruct (Ka q Hq ltac:(congruence)) as [-> _]. assert (family_base_name fa = family_base_name fb) as E by congruence.
  rewrite E in Hq. destruct (Kb q Hq ltac:(congruence)) as [-> Hint]. split; [|done].
  by eapply NoDup_lookup.
Qed.

(** ** Normalizing twice *)

Definition emit_fields (plans : gmap name NumericFamilyPlan) (fs : list LogicalField)
    : (list LogicalField * gmap name nat) * nat :=
  foldl (fun '(acc, i) f => (emit_field plans acc i f, S i)) (([], ∅), 0%nat) fs.

Lemma emit_fields_snoc plans fs f :
  emit_fields plans (fs ++ [f])
  = let '(acc, i) := emit_fields plans fs in (emit_field plans acc i f, S i).
Proof. unfold emit_fields. rewrite foldl_snoc. by destruct (foldl _ _ fs). Qed.

(** A second pass under plans that retain the output rebuilds the state of the
    first. *)
Lemma emit_twice plans plans2 fs fs2 :
  (forall k g, fs2 !! k = Some g -> retained plans2 k g = Some g) ->
  let out := (emit_fields plans fs).1.1 in
  out `prefix_of` fs2 -> emit_fields plans2 out = ((emit_fields plans fs).1, length out).
Proof.
  intros H2. induction fs as [|f fs IH] using rev_ind; cbv zeta; [intros _; reflexivity|].
  rewrite emit_fields_snoc. destruct (emit_fields plans fs) as [acc i]. cbn [fst snd] in *.
  rewrite emit_field_retained. destruct (retained plans i f) as [g|]; [|done].
  unfold emit. destruct (is_duplicate acc g) eqn:Ed; [done|]. cbn [fst snd]. intros Hp.
  assert (acc.1 `prefix_of` fs2) as Hp1 by (etrans; [|exact Hp]; by apply prefix_app_r).
  rewrite emit_fields_snoc, (IH Hp1), emit_field_retained, H2.
  - unfold emit. rewrite Ed, length_app. f_equal. simpl. lia.
  - eapply prefix_lookup_Some; [|exact Hp]. by apply lookup_snoc_Some; right.
Qed.

Lemma retained_again fs k g :
  collapse_numeric_fields fs !! k = Some g ->
  retained (plan_fields (collapse_numeric_fields fs)) k g = Some g.
Proof.
  intros Hk. set (out := collapse_numeric_fields fs) in *.
  destruct (emitted_sources (plan_fields fs) fs) as [_ (src & _ & _ & H2)].
  destruct (Forall2_lookup_r _ _ _ _ _ H2 Hk) as (l & _ & f & _ & Hr).
  apply retained_spec in Hr as (_ & Hc & _). clear H2.
  unfold retained. rewrite Hc. destruct (plan_fields out !! family_base_name g ≫= keep_position) as [q|] eqn:E; [|done].
  destruct (is_scalar_numeric_type g) eqn:En; [|done].
  apply keep_at in E as [(a & Ha & Na & Ga) (j & b & Hb & Nb & Gb)].
  destruct (collapse_single fs j k b g Hb Hk) as [-> Hint]; [congruence|done..|].
  destruct (collapse_single fs k q b a Hb Ha) as [-> _]; [congruence|done..|].
  by rewrite bool_decide_eq_true_2, Hint, Hc.
Qed.

Lemma collapse_idem fs : collapse_numeric_fields (collapse_numeric_fields fs) = collapse_numeric_fields fs.
Proof.
  pose proof (emit_twice (plan_fields fs) (plan_fields (collapse_numeric_fields fs)) fs (collapse_numeric_fields fs)
    (retained_again fs) ltac:(done)) as H.
  cbv zeta in H. change (emit_fields (plan_fields fs) fs).1.1 with (collapse_numeric_fields fs) in H.
  change (collapse_numeric_fields (collapse_numeric_fields fs))
    with (emit_fields (plan_fields (collapse_numeric_fields fs)) (collapse_numeric_fields fs)).1.1.
  by rewrite H.
Qed.

Lemma collapse_field fs g :
  g ∈ collapse_numeric_fields fs -> ftype g = Some (Scalar kFloat64) \/ exists f, f ∈ fs /\ ftype g = ftype f.
Proof.
  intros [k Hk]%list_elem_of_lookup. destruct (emitted_sources (plan_fields fs) fs) as [_ (src & _ & _ & H2)].
  destruct (Forall2_lookup_r _ _ _ _ _ H2 Hk) as (l & _ & f & Hf & Hr).
  apply retained_spec in Hr as (_ & _ & _ & [E|[E _]] & _); [|by left]. right. exists f. split; [|done].
  by eapply list_elem_of_lookup_2.
Qed.

Lemma normalize_type_idem t : normalize_integer_float_type (normalize_integer_float_type t) = normalize_integer_float_type t.
Proof.
  type_induction t. destruct (decide (k = kStruct)) as [->|Hns]; [|destruct (decide (k = kList)) as [->|Hnl]].
  - cbn [normalize_integer_float_type]. f_equal.
    set (norm := fun f => match f with MkField n (Some t) b => MkField n (Some (normalize_integer_float_type t)) b | MkField n None b => f end).
    fold norm. set (out := collapse_numeric_fields (map norm fs)).
    assert (map norm out = out) as ->; [|apply collapse_idem].
    rewrite <- (map_id out) at 2. apply map_ext_in. intros g Hg%list_elem_of_In.
    apply collapse_field in Hg. destruct g as [n [t|] b]; [|done]. cbn. do 2 f_equal. simpl in Hg.
    destruct Hg as [[= ->]|(f & Hf & E)]; [done|]. apply list_elem_of_In, in_map_iff in Hf as ([n' [t'|] b'] & <- & Hf); [|done].
    simpl in E. injection E as ->. rewrite Forall_forall in IHfs. apply list_elem_of_In in Hf. by apply (IHfs _ Hf t').
  - destruct v as [t|]; [|done]. cbn. by rewrite (IHv t eq_refl).
  - by destruct k.
Qed.

(** C27: numeric families are settled by one pass.  After integer and float
    siblings are collapsed a family with a float field has no other numeric
    field, and normalizing the result again changes nothing at any level. *)
Theorem numeric_families_settled fs t :
  (forall i j a b, collapse_numeric_fields fs !! i = Some a -> collapse_numeric_fields fs !! j = Some b ->
     family_base_name a = family_base_name b -> is_scalar_float_type a = true -> is_scalar_numeric_type b = true ->
     i = j) /\
  normalize_integer_float_type (normalize_integer_float_type t) = normalize_integer_float_type t.
Proof.
  split; [|apply normalize_type_idem]. intros i j a b Hi Hj Hg Ha Hb. by apply (collapse_single fs i j a b Hi Hj).
Qed.

(** ** Witnesses *)

Definition ex_registry : list LogicalField :=
  [field "id" (Scalar kInt64); field "address" (Scalar kUtf8);
   field "tags" (List (Struct [field "k" (Scalar kInt64)]))].

Definition ex_arrival : list LogicalField :=
  [field "id" (Scalar kFloat64); field "address" (Struct [field "zip" (Scalar kInt64)]);
   field "tags" (List (Struct [field "k" (Scalar kUtf8); field "w" (Scalar kBool)]))].

Ltac solve_observed :=
  repeat first
    [ apply observed_scalar; reflexivity | apply observed_struct | apply observed_list | apply Forall_nil_2
    | apply Forall_cons_2 | split; [reflexivity|intros ? [= <-]] ].

Lemma registry_merge_keeps_history_witness :
  wf_fields ex_registry /\ wf_fields ex_arrival /\
  grows ex_registry (merge_registry_fields ex_registry ex_arrival [] (str "default_key")).1.
Proof.
  assert (wf_fields ex_registry) by solve_wf. assert (wf_fields ex_arrival) by solve_wf.
  split_and!; [done|done|]. by apply (registry_merge_keeps_history ex_registry ex_arrival [] (str "default_key")).
Defined.

Lemma registry_drift_exact_witness :
  let '(out, drifts) := merge_registry_fields ex_registry ex_arrival [] (str "default_key") in
  drifts = [] <-> out = ex_registry.
Proof. apply (registry_drift_exact ex_registry ex_arrival [] (str "default_key")); solve_wf. Defined.

Lemma variant_name_roundtrip_witness :
  str "a" <> [] /\ 2 <= 17 <= INT_MAX /\
  parse_versioned_field_name (make_versioned_field_name (str "a") 17 (variant_semantic_type (List (Scalar kDate32))))
  = Some (MkVersioned (str "a") 17 (str "date_array")).
Proof.
  split; [discriminate|]. split; [split; vm_compute; discriminate|].
  apply (variant_name_roundtrip (str "a") 17 (List (Scalar kDate32))); [discriminate|split; vm_compute; discriminate].
Defined.


