(* ===== verification/BoundedGeneration.v ===== *)
(** * Fixed-capacity slot and generation namespaces

    Models [src/schema_sanitizer/core_impl/bounded_generation.py]: the pool that
    hands out ABA-resistant tokens rooted by owner identity, and the reusable
    token search.  Asynchronous exceptions are modelled at every attribute
    store, because the class is written to survive them. *)

From S2P Require Import Prelude.

Local Open Scope Z_scope.

Definition _MAX_TOKEN : Z := Z.shiftl 1 63 - 1.

(** [_FREE], [_ACTIVE], [_RETIRED], [_RETIRING] *)
Inductive slot_state : Type := FREE | ACTIVE | RETIRED | RETIRING.

#[export] Instance slot_state_eq_dec : EqDecision slot_state.
Proof. solve_decision. Defined.
#[export] Instance slot_state_inhabited : Inhabited slot_state := populate FREE.

(** A Python object: its identity, and the address [id(o)] returns, which is
    unique only among objects alive at the same time. *)
Record obj : Type := Obj { uid : Z; addr : Z }.

#[export] Instance obj_eq_dec : EqDecision obj.
Proof. solve_decision. Defined.
#[export] Instance obj_inhabited : Inhabited obj := populate (Obj 0 0).

Record BoundedGenerationSnapshot : Type := Snapshot {
  snap_capacity : Z;
  snap_active : Z;
  snap_available : Z;
  snap_retired : Z;
  snap_corrupted : bool
}.

(** [BoundedGenerationPool] with its slots *)
Record pool : Type := Pool {
  capacity : nat;
  slot_bits : Z;
  slot_mask : Z;
  max_generation : Z;
  count : nat;
  generations : list Z;
  states : list slot_state;
  owners : list (option obj);
  owner_slots : gmap Z nat;
  free_ring : list nat;
  free_head : nat;
  free_tail : nat;
  active : Z;
  retired : Z;
  corrupted : bool;
  derived_dirty : bool
}.

(** Attribute assignments *)
Definition set_count v (s : pool) : pool :=
  Pool (capacity s) (slot_bits s) (slot_mask s) (max_generation s) v (generations s) (states s)
    (owners s) (owner_slots s) (free_ring s) (free_head s) (free_tail s) (active s) (retired s)
    (corrupted s) (derived_dirty s).
Definition set_generations v (s : pool) : pool :=
  Pool (capacity s) (slot_bits s) (slot_mask s) (max_generation s) (count s) v (states s)
    (owners s) (owner_slots s) (free_ring s) (free_head s) (free_tail s) (active s) (retired s)
    (corrupted s) (derived_dirty s).
Definition set_states v (s : pool) : pool :=
  Pool (capacity s) (slot_bits s) (slot_mask s) (max_generation s) (count s) (generations s) v
    (owners s) (owner_slots s) (free_ring s) (free_head s) (free_tail s) (active s) (retired s)
    (corrupted s) (derived_dirty s).
Definition set_owners v (s : pool) : pool :=
  Pool (capacity s) (slot_bits s) (slot_mask s) (max_generation s) (count s) (generations s)
    (states s) v (owner_slots s) (free_ring s) (free_head s) (free_tail s) (active s) (retired s)
    (corrupted s) (derived_dirty s).
Definition set_owner_slots v (s : pool) : pool :=
  Pool (capacity s) (slot_bits s) (slot_mask s) (max_generation s) (count s) (generations s)
    (states s) (owners s) v (free_ring s) (free_head s) (free_tail s) (active s) (retired s)
    (corrupted s) (derived_dirty s).
Definition set_free_ring v (s : pool) : pool :=
  Pool (capacity s) (slot_bits s) (slot_mask s) (max_generation s) (count s) (generations s)
    (states s) (owners s) (owner_slots s) v (free_head s) (free_tail s) (active s) (retired s)
    (corrupted s) (derived_dirty s).
Definition set_free_head v (s : pool) : pool :=
  Pool (capacity s) (slot_bits s) (slot_mask s) (max_generation s) (count s) (generations s)
    (states s) (owners s) (owner_slots s) (free_ring s) v (free_tail s) (active s) (retired s)
    (corrupted s) (derived_dirty s).
Definition set_free_tail v (s : pool) : pool :=
  Pool (capacity s) (slot_bits s) (slot_mask s) (max_generation s) (count s) (generations s)
    (states s) (owners s) (owner_slots s) (free_ring s) (free_head s) v (active s) (retired s)
    (corrupted s) (derived_dirty s).
Definition set_active v (s : pool) : pool :=
  Pool (capacity s) (slot_bits s) (slot_mask s) (max_generation s) (count s) (generations s)
    (states s) (owners s) (owner_slots s) (free_ring s) (free_head s) (free_tail s) v (retired s)
    (corrupted s) (derived_dirty s).
Definition set_retired v (s : pool) : pool :=
  Pool (capacity s) (slot_bits s) (slot_mask s) (max_generation s) (count s) (generations s)
    (states s) (owners s) (owner_slots s) (free_ring s) (free_head s) (free_tail s) (active s) v
    (corrupted s) (derived_dirty s).
Definition set_corrupted v (s : pool) : pool :=
  Pool (capacity s) (slot_bits s) (slot_mask s) (max_generation s) (count s) (generations s)
    (states s) (owners s) (owner_slots s) (free_ring s) (free_head s) (free_tail s) (active s)
    (retired s) v (derived_dirty s).
Definition set_derived_dirty v (s : pool) : pool :=
  Pool (capacity s) (slot_bits s) (slot_mask s) (max_generation s) (count s) (generations s)
    (states s) (owners s) (owner_slots s) (free_ring s) (free_head s) (free_tail s) (active s)
    (retired s) (corrupted s) v.

(** [int.bit_length] of a non-negative integer *)
Definition bit_length (n : Z) : Z := if n <=? 0 then 0 else Z.log2 n + 1.

(** [__init__] *)
Definition init (cap : Z) : result pool :=
  if cap <=? 0 then Err ValueError
  else
    let bits := Z.max 1 (bit_length (cap - 1)) in
    let n := Z.to_nat cap in
    Ok (Pool n bits (Z.shiftl 1 bits - 1) (Z.shiftr _MAX_TOKEN bits) n
          (replicate n 0) (replicate n FREE) (replicate n None) ∅ (seq 0 n) 0 0 0 0 false false).

Definition _encode (s : pool) (slot : nat) (generation : Z) : Z :=
  Z.lor (Z.shiftl generation (slot_bits s)) (Z.of_nat slot).

(** [self._owners[slot] is owner] with the range check of the caller *)
Definition owns_slot (s : pool) (slot : nat) (owner : obj) : bool :=
  bool_decide ((slot < capacity s)%nat) && bool_decide (owners s !!! slot = Some owner).

Definition _prepare_free_pop (s : pool) : option (nat * nat * nat) :=
  if (count s =? 0)%nat then None
  else
    let slot := free_ring s !!! free_head s in
    let next_head := S (free_head s) in
    let next_head := if (next_head =? capacity s)%nat then 0%nat else next_head in
    Some (slot, next_head, Nat.pred (count s)).

Definition _commit_free_pop (next_head next_count : nat) : M pool unit :=
  store (set_free_head next_head) ≫= fun _ =>
  store (set_count next_count).

Definition _prepare_free_push (s : pool) : option (nat * nat * nat) :=
  if (capacity s <=? count s)%nat then None
  else
    let tail := free_tail s in
    let next_tail := S tail in
    let next_tail := if (next_tail =? capacity s)%nat then 0%nat else next_tail in
    Some (tail, next_tail, S (count s)).

Definition _commit_free_push (slot tail next_tail next_count : nat) : M pool unit :=
  store (fun s => set_free_ring (<[tail := slot]> (free_ring s)) s) ≫= fun _ =>
  store (set_free_tail next_tail) ≫= fun _ =>
  store (set_count next_count).

(** Local variables of the scan in [_rebuild_derived_from_owners] *)
Record scan : Type := Scan {
  sc_available : nat;
  sc_active : Z;
  sc_retired : Z;
  sc_states : list slot_state;
  sc_free_ring : list nat;
  sc_owner_slots : gmap Z nat
}.

(** One iteration of the scan *)
Definition rebuild_visit (s : pool) (acc : scan) (slot : nat) : scan :=
  let '(Scan available act ret sts ring slots) := acc in
  match owners s !!! slot with
  | Some owner =>
      Scan available (act + 1) ret (<[slot := ACTIVE]> sts) ring (<[addr owner := slot]> slots)
  | None =>
      if (max_generation s <=? generations s !!! slot)
         || bool_decide (states s !!! slot = RETIRED)
      then Scan available act (ret + 1) (<[slot := RETIRED]> sts) ring slots
      else Scan (S available) act ret (<[slot := FREE]> sts) (<[available := slot]> ring) slots
  end.

Definition rebuild_scan (s : pool) : scan :=
  let n := capacity s in
  foldl (rebuild_visit s) (Scan 0 0 0 (replicate n FREE) (replicate n 0%nat) ∅) (seq 0 n).

Definition _rebuild_derived_from_owners : M pool unit :=
  store (set_derived_dirty true) ≫= fun _ =>
  reads (fun s => (capacity s, rebuild_scan s)) ≫= fun '(n, sc) =>
  store (set_states (sc_states sc)) ≫= fun _ =>
  store (set_free_ring (sc_free_ring sc)) ≫= fun _ =>
  store (set_free_head 0%nat) ≫= fun _ =>
  store (set_free_tail (if (sc_available sc =? n)%nat then 0%nat else sc_available sc)) ≫= fun _ =>
  store (set_owner_slots (sc_owner_slots sc)) ≫= fun _ =>
  store (set_count (sc_available sc)) ≫= fun _ =>
  store (set_active (sc_active sc)) ≫= fun _ =>
  store (set_retired (sc_retired sc)) ≫= fun _ =>
  store (set_derived_dirty false).

Definition _ensure_derived_from_owners : M pool unit :=
  reads derived_dirty ≫= fun dirty =>
  whenM dirty _rebuild_derived_from_owners.

(** [-1] is [None]. *)
Definition _slot_for_owner (owner : obj) : M pool (option nat) :=
  _ensure_derived_from_owners ≫= fun _ =>
  reads (fun s => (s, owner_slots s !! addr owner)) ≫= fun '(s, hint) =>
  match hint with
  | None => ret None
  | Some slot =>
      if owns_slot s slot owner then ret (Some slot)
      else
        store (set_derived_dirty true) ≫= fun _ =>
        _rebuild_derived_from_owners ≫= fun _ =>
        reads (fun s => (s, owner_slots s !! addr owner)) ≫= fun '(s, hint) =>
        match hint with
        | Some slot => if owns_slot s slot owner then ret (Some slot) else ret None
        | None => ret None
        end
  end.

(** The guard that distrusts a prepared free slot *)
Definition pop_is_stale (s : pool) (slot : nat) : bool :=
  negb (bool_decide ((slot < capacity s)%nat))
  || bool_decide (owners s !!! slot <> None)
  || bool_decide (states s !!! slot <> FREE)
  || (max_generation s <=? generations s !!! slot).

(** The [except BaseException] handler of [acquire_for]; the local flag
    [committed_owner] is kept beside the pool. *)
Definition acquire_rollback (owner : obj) (slot : nat) (e : exn) : M (pool * bool) (option Z) :=
  reads (fun p => p.2 || bool_decide (owners p.1 !!! slot = Some owner)) ≫= fun rollback =>
  whenM rollback
    (suppress
      (reads (fun p => bool_decide (owners p.1 !!! slot = Some owner)) ≫= fun mine =>
       whenM mine
         (onS (store (fun s => set_owners (<[slot := None]> (owners s)) s))) ≫= fun _ =>
       reads (fun p => generations p.1 !!! slot <? max_generation p.1) ≫= fun fresh =>
       whenM fresh
         (onS (store (fun s => set_states (<[slot := FREE]> (states s)) s))) ≫= fun _ =>
       onS _rebuild_derived_from_owners)) ≫= fun _ =>
  raise e.

(** The publication block of [acquire_for], from [committed_owner = False] on *)
Definition acquire_publish (owner : obj) (slot next_head next_count : nat)
    (generation token : Z) : M pool (option Z) :=
  with_local false
    (try_except
      (onS (store (set_derived_dirty true)) ≫= fun _ =>
       onS (store (fun s => set_owners (<[slot := Some owner]> (owners s)) s)) ≫= fun _ =>
       store (fun p => (p.1, true)) ≫= fun _ =>
       onS (store (fun s => set_owner_slots (<[addr owner := slot]> (owner_slots s)) s)) ≫= fun _ =>
       onS (store (fun s => set_generations (<[slot := generation]> (generations s)) s)) ≫= fun _ =>
       onS (store (fun s => set_states (<[slot := ACTIVE]> (states s)) s)) ≫= fun _ =>
       onS (_commit_free_pop next_head next_count) ≫= fun _ =>
       onS (store (fun s => set_active (active s + 1) s)) ≫= fun _ =>
       onS (store (set_derived_dirty false)) ≫= fun _ =>
       tick ≫= fun _ => ret (Some token))
      (acquire_rollback owner slot)).

Definition acquire_prepared (owner : obj) (slot next_head next_count : nat) : M pool (option Z) :=
  reads (fun s => (generations s !!! slot + 1,
                   _encode s slot (generations s !!! slot + 1))) ≫= fun '(generation, token) =>
  acquire_publish owner slot next_head next_count generation token.

Definition acquire_for (owner : option obj) : M pool (option Z) :=
  match owner with
  | None => raise ValueError
  | Some owner =>
      reads corrupted ≫= fun bad =>
      if bad : bool then ret None
      else
        _ensure_derived_from_owners ≫= fun _ =>
        _slot_for_owner owner ≫= fun live =>
        match live with
        | Some _ => raise RuntimeError
        | None =>
            reads (fun s => (s, _prepare_free_pop s)) ≫= fun '(s, prepared) =>
            match prepared with
            | None => ret None
            | Some (slot, next_head, next_count) =>
                if pop_is_stale s slot then
                  store (set_derived_dirty true) ≫= fun _ =>
                  _rebuild_derived_from_owners ≫= fun _ =>
                  reads _prepare_free_pop ≫= fun prepared =>
                  match prepared with
                  | None => ret None
                  | Some (slot, next_head, next_count) =>
                      acquire_prepared owner slot next_head next_count
                  end
                else acquire_prepared owner slot next_head next_count
            end
        end
  end.

(** The [except BaseException] handler of [release_for], with its local flag
    [committed] *)
Definition release_recover (owner : obj) (slot : nat) (e : exn) : M (pool * bool) bool :=
  reads snd ≫= fun committed =>
  (if committed : bool then suppress (onS _rebuild_derived_from_owners)
   else
     suppress
       (reads (fun p => bool_decide (owners p.1 !!! slot = Some owner)) ≫= fun mine =>
        whenM mine (onS (store (fun s => set_states (<[slot := ACTIVE]> (states s)) s))))) ≫= fun _ =>
  raise e.

(** The retirement block of [release_for], from [committed = False] on. *)
Definition release_retire (owner : obj) (slot : nat) (prepared_push : option (nat * nat * nat))
    (retiring : bool) : M pool bool :=
  with_local false
    (try_except
      (onS (store (set_derived_dirty true)) ≫= fun _ =>
       onS (store (fun s => set_states (<[slot := RETIRING]> (states s)) s)) ≫= fun _ =>
       onS (store (fun s => set_owners (<[slot := None]> (owners s)) s)) ≫= fun _ =>
       store (fun p => (p.1, true)) ≫= fun _ =>
       onS (store (fun s => set_owner_slots (delete (addr owner) (owner_slots s)) s)) ≫= fun _ =>
       onS (store (fun s => set_active (active s - 1) s)) ≫= fun _ =>
       (if retiring then
          onS (store (fun s => set_states (<[slot := RETIRED]> (states s)) s)) ≫= fun _ =>
          onS (store (fun s => set_retired (retired s + 1) s))
        else
          match prepared_push with
          | None => raise AssertionError
          | Some (tail, next_tail, next_count) =>
              onS (_commit_free_push slot tail next_tail next_count) ≫= fun _ =>
              onS (store (fun s => set_states (<[slot := FREE]> (states s)) s))
          end) ≫= fun _ =>
       onS (store (set_derived_dirty false)) ≫= fun _ =>
       tick ≫= fun _ => ret true)
      (release_recover owner slot)).

(** [retiring] and [prepared_push] of [release_for] *)
Definition release_prepare (s : pool) (slot : nat) : bool * option (nat * nat * nat) :=
  let retiring := max_generation s <=? generations s !!! slot in
  (retiring, if retiring then None else _prepare_free_push s).

Definition release_for (owner : obj) : M pool bool :=
  _ensure_derived_from_owners ≫= fun _ =>
  _slot_for_owner owner ≫= fun found =>
  match found with
  | None => ret true
  | Some slot =>
      reads (fun s => release_prepare s slot) ≫= fun '(retiring, prepared_push) =>
      if negb retiring && bool_decide (prepared_push = None) then
        store (set_derived_dirty true) ≫= fun _ =>
        _rebuild_derived_from_owners ≫= fun _ =>
        _slot_for_owner owner ≫= fun found =>
        match found with
        | None => ret true
        | Some slot =>
            reads (fun s => release_prepare s slot) ≫= fun '(retiring, prepared_push) =>
            if negb retiring && bool_decide (prepared_push = None) then
              store (set_corrupted true) ≫= fun _ => ret false
            else release_retire owner slot prepared_push retiring
        end
      else release_retire owner slot prepared_push retiring
  end.

Definition token_for (owner : obj) : M pool (option Z) :=
  _slot_for_owner owner ≫= fun found =>
  match found with
  | None => ret None
  | Some slot => reads (fun s => Some (_encode s slot (generations s !!! slot)))
  end.

Definition owner_for (s : pool) (token : Z) : option obj :=
  if token <=? 0 then None
  else
    let slot := Z.land token (slot_mask s) in
    let generation := Z.shiftr token (slot_bits s) in
    if (Z.of_nat (capacity s) <=? slot)
       || negb (generations s !!! Z.to_nat slot =? generation)
    then None
    else owners s !!! Z.to_nat slot.

Definition owns_owner (owner : obj) (token : option Z) : M pool bool :=
  _slot_for_owner owner ≫= fun found =>
  match found with
  | None => ret false
  | Some slot =>
      match token with
      | None => ret true
      | Some t => reads (fun s => _encode s slot (generations s !!! slot) =? t)
      end
  end.

Definition exact_active_count (s : pool) : Z :=
  foldl (fun active owner => if owner is Some _ then active + 1 else active) 0 (owners s).

Definition snapshot : M pool BoundedGenerationSnapshot :=
  _ensure_derived_from_owners ≫= fun _ =>
  reads (fun s => Snapshot (Z.of_nat (capacity s)) (active s) (Z.of_nat (count s)) (retired s)
                    (corrupted s)).

(** The [while candidate in occupied] loop of [next_reusable_token]; the outer
    option is fuel exhaustion. *)
Fixpoint reusable_loop (fuel : nat) (start candidate : Z) (occupied : gset Z) : option (option Z) :=
  match fuel with
  | O => None
  | S fuel =>
      if bool_decide (candidate ∈ occupied) then
        let candidate := candidate + 1 in
        let candidate := if _MAX_TOKEN <? candidate then 1 else candidate in
        if candidate =? start then Some None
        else reusable_loop fuel start candidate occupied
      else Some (Some candidate)
  end.

Definition reusable_start (current : Z) : Z :=
  let current := if (current <? 0) || (_MAX_TOKEN <? current) then 0 else current in
  let candidate := current + 1 in
  if _MAX_TOKEN <? candidate then 1 else candidate.

(** Each iteration visits a different member of [occupied], so one unit of fuel
    more than its size is enough ([reusable_loop_total]). *)
Definition next_reusable_token (current : Z) (occupied : gset Z) : option Z :=
  let start := reusable_start current in
  default None (reusable_loop (S (size occupied)) start start occupied).

(** ** Invariants *)

(** What the authoritative owner and generation of a slot say of its state *)
Definition spec_state (s : pool) (i : nat) : slot_state :=
  match owners s !!! i with
  | Some _ => ACTIVE
  | None => if max_generation s <=? generations s !!! i then RETIRED else FREE
  end.

Definition live (s : pool) (i : nat) (o : obj) : Prop :=
  (i < capacity s)%nat /\ owners s !!! i = Some o.

(** The free slots in the order the ring gives them out *)
Definition free_view (s : pool) : list nat :=
  ring_view (free_ring s) (capacity s) (free_head s) (count s).

(** What holds in every state, also between two stores of an operation: the
    configuration, the shape of the arrays, the authority of owner slots. *)
Record authority_ok (s : pool) : Prop := {
  ok_capacity : (0 < capacity s)%nat;
  ok_bits : slot_bits s = Z.max 1 (bit_length (Z.of_nat (capacity s) - 1));
  ok_mask : slot_mask s = Z.shiftl 1 (slot_bits s) - 1;
  ok_max : max_generation s = Z.shiftr _MAX_TOKEN (slot_bits s);
  ok_generations : length (generations s) = capacity s;
  ok_states : length (states s) = capacity s;
  ok_owners : length (owners s) = capacity s;
  ok_ring : length (free_ring s) = capacity s;
  ok_range : forall i, (i < capacity s)%nat -> 0 <= generations s !!! i <= max_generation s;
  ok_one_slot : forall i j o, live s i o -> live s j o -> i = j;
  ok_addr : forall i j o o', live s i o -> live s j o' -> addr o = addr o' -> o = o';
  ok_retired : forall i, (i < capacity s)%nat -> states s !!! i = RETIRED ->
    max_generation s <= generations s !!! i
}.

(** The derived mirrors agree with the owner slots. *)
Record in_sync (s : pool) : Prop := {
  sync_states : forall i, (i < capacity s)%nat -> states s !!! i = spec_state s i;
  sync_slots : forall a i, owner_slots s !! a = Some i <-> exists o, live s i o /\ addr o = a;
  sync_ring : free_view s ≡ₚ slots (fun i => spec_state s i = FREE) (capacity s);
  sync_head : (free_head s < capacity s)%nat;
  sync_tail : free_tail s = ((free_head s + count s) mod capacity s)%nat;
  sync_active : active s = Z.of_nat (length (slots (fun i => spec_state s i = ACTIVE) (capacity s)));
  sync_retired : retired s = Z.of_nat (length (slots (fun i => spec_state s i = RETIRED) (capacity s)))
}.

(** The pool invariant: authority always, mirrors unless marked dirty *)
Definition pool_ok (s : pool) : Prop :=
  authority_ok s /\ (derived_dirty s = false -> in_sync s).

(** Configuration, owners, generations and quarantine flag are untouched. *)
Definition same_core (s s' : pool) : Prop :=
  capacity s' = capacity s /\ slot_bits s' = slot_bits s /\ slot_mask s' = slot_mask s /\
  max_generation s' = max_generation s /\ owners s' = owners s /\
  generations s' = generations s /\ corrupted s' = corrupted s.

(** Python guarantees that [id] separates live objects: no other rooted owner
    has the address of [o]. *)
Definition addr_fresh (s : pool) (o : obj) : Prop :=
  forall i o', live s i o' -> addr o' = addr o -> o' = o.

Lemma same_core_refl s : same_core s s.
Proof. by unfold same_core. Qed.

Lemma same_core_trans s1 s2 s3 : same_core s1 s2 -> same_core s2 s3 -> same_core s1 s3.
Proof. unfold same_core. intros; destruct_and!; split_and!; congruence. Qed.

Lemma same_core_live s s' i o : same_core s s' -> live s' i o <-> live s i o.
Proof. intros (? & _ & _ & _ & E & _). unfold live. by rewrite E, H. Qed.

Lemma same_core_spec_state s s' i : same_core s s' -> spec_state s' i = spec_state s i.
Proof. intros (? & _ & _ & Em & Eo & Eg & _). unfold spec_state. by rewrite Em, Eo, Eg. Qed.

#[export] Hint Resolve same_core_refl same_core_trans : sanitizer.

(** The mirrors do not matter for [authority_ok], up to lengths and the meaning
    of a retired state. *)
Lemma authority_core s s' :
  authority_ok s -> same_core s s' ->
  length (states s') = capacity s -> length (free_ring s') = capacity s ->
  (forall i, (i < capacity s)%nat -> states s' !!! i = RETIRED ->
     max_generation s <= generations s !!! i) ->
  authority_ok s'.
Proof.
  intros Hok Hc Hls Hlr Hret.
  assert (forall i o, live s' i o <-> live s i o) as Hl by (intros; by apply same_core_live).
  destruct Hc as (Ec & Eb & Em & Ex & Eo & Eg & _), Hok.
  split; rewrite ?Ec, ?Eb, ?Em, ?Ex, ?Eo, ?Eg in *; auto.
  - intros i j o. rewrite !Hl. eauto.
  - intros i j o o'. rewrite !Hl. eauto.
Qed.

(** ** The reconstruction scan *)

Section Scan.
Variable s : pool.
Hypothesis Hok : authority_ok s.

(** The local variables of the scan after the first [k] slots *)
Record scan_ok (k : nat) (sc : scan) : Prop := {
  sk_available : sc_available sc = length (slots (fun i => spec_state s i = FREE) k);
  sk_active : sc_active sc = Z.of_nat (length (slots (fun i => spec_state s i = ACTIVE) k));
  sk_retired : sc_retired sc = Z.of_nat (length (slots (fun i => spec_state s i = RETIRED) k));
  sk_len_states : length (sc_states sc) = capacity s;
  sk_states : forall i, (i < k)%nat -> sc_states sc !!! i = spec_state s i;
  sk_len_ring : length (sc_free_ring sc) = capacity s;
  sk_ring : take (sc_available sc) (sc_free_ring sc) = slots (fun i => spec_state s i = FREE) k;
  sk_slots : forall a i, sc_owner_slots sc !! a = Some i <->
    exists o, live s i o /\ addr o = a /\ (i < k)%nat
}.

Lemma spec_state_cases i :
  match owners s !!! i with
  | Some _ => spec_state s i = ACTIVE
  | None => spec_state s i = if max_generation s <=? generations s !!! i then RETIRED else FREE
  end.
Proof. unfold spec_state. by destruct (owners s !!! i). Qed.

Lemma states_insert_scan k (sts : list slot_state) v :
  (k < length sts)%nat -> v = spec_state s k ->
  (forall i, (i < k)%nat -> sts !!! i = spec_state s i) ->
  forall i, (i < S k)%nat -> <[k := v]> sts !!! i = spec_state s i.
Proof.
  intros Hk -> Hs i Hi. destruct (decide (i = k)) as [->|].
  - by apply list_lookup_total_insert_eq.
  - rewrite list_lookup_total_insert_ne by done. apply Hs. lia.
Qed.

Lemma scan_visit k sc :
  (k < capacity s)%nat -> scan_ok k sc -> scan_ok (S k) (rebuild_visit s sc k).
Proof.
  intros Hk Hsc. destruct sc as [av ac re sts ring sl], Hsc; simpl in *.
  pose proof (spec_state_cases k) as Hspec.
  unfold rebuild_visit. destruct (owners s !!! k) as [o|] eqn:Eo.
  - split; simpl; rewrite ?slots_S, ?Hspec; simpl; rewrite ?app_nil_r, ?length_app, ?length_insert; auto.
    + simpl. lia.
    + apply states_insert_scan; auto; lia.
    + intros a i. destruct (decide (a = addr o)) as [->|Ha].
      * rewrite lookup_insert_eq. split.
        -- intros [= <-]. exists o. unfold live. auto with lia.
        -- intros (o' & Hl & Hao & Hi). f_equal. symmetry.
           assert (o' = o) as -> by (eapply (ok_addr _ Hok); eauto; by split).
           eapply (ok_one_slot _ Hok); [exact Hl|]. by split.
      * rewrite lookup_insert_ne by done. rewrite sk_slots0.
        split; intros (o' & Hl & Hao & Hi); exists o'; split_and!; auto; try lia.
        destruct (decide (i = k)) as [->|]; [|lia].
        destruct Hl as [_ Hl]. congruence.
  - assert (forall a i, sl !! a = Some i <-> exists o, live s i o /\ addr o = a /\ (i < S k)%nat) as Hsl.
    { intros a i. rewrite sk_slots0. split; intros (o & Hl & Hao & Hi); exists o; split_and!; auto; try lia.
      destruct (decide (i = k)) as [->|]; [|lia]. destruct Hl as [_ Hl]. congruence. }
    replace (_ || _) with (max_generation s <=? generations s !!! k).
    2:{ case_bool_decide as Hr; [|by rewrite orb_false_r].
        apply (ok_retired _ Hok) in Hr; [|done]. rewrite orb_true_r. by apply Z.leb_le. }
    destruct (max_generation s <=? generations s !!! k).
    + split; simpl; rewrite ?slots_S, ?Hspec; simpl; rewrite ?app_nil_r, ?length_app, ?length_insert; auto.
      * simpl. lia.
      * apply states_insert_scan; auto; lia.
    + pose proof (length_slots_le (fun i => spec_state s i = FREE) k).
      split; simpl; rewrite ?slots_S, ?Hspec; simpl; rewrite ?app_nil_r, ?length_app, ?length_insert; auto.
      * simpl. lia.
      * apply states_insert_scan; auto; lia.
      * rewrite take_S_r with (x := k), take_insert_ge by (try apply list_lookup_insert_eq; lia).
        by rewrite sk_ring0.
Qed.

Lemma rebuild_scan_ok : scan_ok (capacity s) (rebuild_scan s).
Proof.
  unfold rebuild_scan.
  cut (forall k, (k <= capacity s)%nat ->
    scan_ok k (foldl (rebuild_visit s)
      (Scan 0 0 0 (replicate (capacity s) FREE) (replicate (capacity s) 0%nat) ∅) (seq 0 k))).
  { intros H. by apply H. }
  induction k as [|k IH]; intros Hk.
  - split; simpl; rewrite ?length_replicate; try done; [lia|].
    intros a i. rewrite lookup_empty. split; [done|]. intros (? & ? & ? & ?). lia.
  - rewrite seq_S, foldl_snoc. apply scan_visit; [lia|]. apply IH. lia.
Qed.
End Scan.

(** ** Operations preserve the invariant under any interruption *)

(** The slots of a synchronised pool after the mirrors of [sc] are installed *)
Lemma scan_in_sync s s' :
  authority_ok s -> same_core s s' ->
  states s' = sc_states (rebuild_scan s) -> free_ring s' = sc_free_ring (rebuild_scan s) ->
  owner_slots s' = sc_owner_slots (rebuild_scan s) ->
  free_head s' = 0%nat ->
  free_tail s' = (if (sc_available (rebuild_scan s) =? capacity s)%nat then 0%nat
                  else sc_available (rebuild_scan s)) ->
  count s' = sc_available (rebuild_scan s) ->
  active s' = sc_active (rebuild_scan s) -> retired s' = sc_retired (rebuild_scan s) ->
  in_sync s'.
Proof.
  intros Hok Hc Es Er Eo Eh Et En Ea Ee.
  destruct (rebuild_scan_ok s Hok) as [Hav Hac Hre _ Hst Hlr Hri Hsl].
  assert (capacity s' = capacity s) as Ec by apply Hc.
  pose proof (ok_capacity _ Hok) as Hcap.
  pose proof (length_slots_le (fun i => spec_state s i = FREE) (capacity s)) as Hle.
  assert (forall st, slots (fun i => spec_state s' i = st) (capacity s)
                   = slots (fun i => spec_state s i = st) (capacity s)) as Hsame.
  { intros st. apply slots_ext. intros i _. by rewrite (same_core_spec_state s s'). }
  split; rewrite ?Ec, ?Es, ?Er, ?Eo, ?Eh, ?Et, ?En, ?Ea, ?Ee, ?Hsame in *; auto.
  - intros i Hi. rewrite (same_core_spec_state s s') by done. auto.
  - intros a i. rewrite Hsl. split.
    + intros (o & Hl & Ha & _). exists o. by rewrite (same_core_live s s').
    + intros (o & Hl & Ha). rewrite (same_core_live s s') in Hl by done.
      exists o. split_and!; auto. apply Hl.
  - unfold free_view. rewrite Ec, Er, Eh, En, <- Hri.
    apply reflexive_eq. unfold ring_view. apply list_eq. intros i.
    rewrite list_lookup_fmap. destruct (decide (i < sc_available (rebuild_scan s))%nat) as [Hi|Hi].
    + rewrite lookup_seq_lt, lookup_take_lt by lia. simpl.
      rewrite Nat.mod_small by lia. symmetry. apply list_lookup_lookup_total_lt. lia.
    + rewrite lookup_seq_ge, lookup_take_ge by lia. done.
  - simpl. destruct (Nat.eqb_spec (sc_available (rebuild_scan s)) (capacity s)) as [->|].
    + by rewrite Nat.Div0.mod_same.
    + rewrite Nat.mod_small; lia.
Qed.

(** Every store of the reconstruction leaves a state that is dirty, and a
    completed reconstruction is in sync whatever the mirrors were before. *)
Lemma rebuild_authority n s :
  authority_ok s ->
  wp n _rebuild_derived_from_owners (fun r n' s' =>
    authority_ok s' /\ same_core s s' /\
    match r with
    | Ok _ => n' = n /\ derived_dirty s' = false /\ in_sync s'
    | Err e => e = AsyncInterrupt /\ n = S n' /\ (derived_dirty s' = true \/ s' = s)
    end) s.
Proof.
  intros Hok.
  destruct (rebuild_scan_ok s Hok) as [_ _ _ Hls Hst Hlr _ _].
  pose proof (ok_states _ Hok) as Hl1. pose proof (ok_ring _ Hok) as Hl2.
  assert (forall i, (i < capacity s)%nat -> sc_states (rebuild_scan s) !!! i = RETIRED ->
            max_generation s <= generations s !!! i) as Hret.
  { intros i Hi. rewrite Hst by done. unfold spec_state.
    destruct (owners s !!! i); [done|].
    destruct (Z.leb_spec (max_generation s) (generations s !!! i)); [lia|done]. }
  pose proof (ok_retired _ Hok) as Hret0.
  unfold _rebuild_derived_from_owners.
  wp_step. wp_step.
  2:{ split_and!; auto with sanitizer. }
  wp_step. wp_step. simpl.
  change (capacity (set_derived_dirty true s)) with (capacity s).
  change (rebuild_scan (set_derived_dirty true s)) with (rebuild_scan s).
  repeat (wp_step; wp_step;
    [|solve [split_and!; [eapply authority_core; eauto; done|done|done|done|by left]]]).
  wp_step.
  2:{ split_and!; [eapply authority_core; eauto; done|done|done|done|by left]. }
  split_and!; [|done|done|done|].
  - eapply authority_core; eauto; done.
  - by eapply scan_in_sync.
Qed.

Lemma rebuild_spec n s :
  pool_ok s ->
  wp n _rebuild_derived_from_owners (fun r n' s' =>
    pool_ok s' /\ same_core s s' /\
    match r with
    | Ok _ => n' = n /\ derived_dirty s' = false
    | Err e => e = AsyncInterrupt /\ n = S n'
    end) s.
Proof.
  intros Hok. eapply wp_mono; [apply rebuild_authority, Hok|].
  intros [a|e] n' s' _ (Ha & Hc & H).
  - destruct H as (-> & Hd & Hs). by split_and!.
  - destruct H as (-> & -> & [Hd| ->]); split_and!; auto. split; [done|]. congruence.
Qed.

(** A result of an operation that only maintains mirrors: the core is the same,
    and a normal return leaves the mirrors in sync. *)
Definition refreshed {A} (s : pool) (n : nat) (P : A -> pool -> Prop)
    (r : result A) (n' : nat) (s' : pool) : Prop :=
  pool_ok s' /\ same_core s s' /\
  match r with
  | Ok a => n' = n /\ derived_dirty s' = false /\ P a s'
  | Err e => e = AsyncInterrupt /\ (n' < n)%nat
  end.

Lemma refreshed_bind {A B} n s (m : M pool A) (f : A -> M pool B) P Q :
  wp n m (refreshed s n P) s ->
  (forall a s', pool_ok s' -> same_core s s' -> derived_dirty s' = false -> P a s' ->
     wp n (f a) Q s') ->
  (forall n' s', (n' < n)%nat -> pool_ok s' -> same_core s s' -> Q (Err AsyncInterrupt) n' s') ->
  wp n (m ≫= f) Q s.
Proof.
  intros Hm Hf Herr. wp_step. eapply wp_mono; [exact Hm|].
  intros [a|e] n' s' _ (Hok & Hc & H).
  - destruct H as (-> & Hd & HP). auto.
  - destruct H as [-> Hn]. auto.
Qed.

Lemma ensure_spec n s :
  pool_ok s -> wp n _ensure_derived_from_owners (refreshed s n (fun _ _ => True)) s.
Proof.
  intros Hok. unfold _ensure_derived_from_owners. wp_step. wp_step. wp_step.
  - eapply wp_mono; [by apply rebuild_spec|].
    intros [a|e] n' s' _ (? & ? & ? & ?); split_and!; auto with lia.
  - split_and!; auto with sanitizer.
Qed.

(** An in-sync index answers exactly where the owner lives. *)
Definition found_spec (owner : obj) (r : option nat) (s : pool) : Prop :=
  match r with
  | Some i => live s i owner
  | None => forall i, ~ live s i owner
  end.

Lemma owns_slot_live s i o : owns_slot s i o = true <-> live s i o.
Proof. unfold owns_slot, live. rewrite andb_true_iff, !bool_decide_eq_true. done. Qed.

(** If the hinted slot belongs to another object, the owner has no slot. *)
Lemma sync_not_live s slot o :
  authority_ok s -> in_sync s -> owner_slots s !! addr o = Some slot ->
  owns_slot s slot o = false -> forall i, ~ live s i o.
Proof.
  intros Hok Hs Hh Hno i Hl.
  assert (owner_slots s !! addr o = Some i) as Hi by (apply (sync_slots _ Hs); eauto).
  assert (i = slot) as -> by congruence.
  apply owns_slot_live in Hl. congruence.
Qed.

Lemma sync_none s o :
  in_sync s -> owner_slots s !! addr o = None -> forall i, ~ live s i o.
Proof.
  intros Hs Hh i Hl.
  assert (owner_slots s !! addr o = Some i) by (apply (sync_slots _ Hs); eauto). congruence.
Qed.

Lemma slot_for_owner_spec n s owner :
  pool_ok s -> wp n (_slot_for_owner owner) (refreshed s n (found_spec owner)) s.
Proof.
  intros Hok. unfold _slot_for_owner.
  eapply refreshed_bind; [by apply ensure_spec| |].
  2:{ intros; split_and!; auto. }
  intros _ s1 Hok1 Hc1 Hd1 _.
  pose proof (proj2 Hok1 Hd1) as Hs1. wp_step. wp_step.
  destruct (owner_slots s1 !! addr owner) as [slot|] eqn:Eh.
  2:{ wp_step. split_and!; auto. exact (sync_none _ _ Hs1 Eh). }
  destruct (owns_slot s1 slot owner) eqn:Eo.
  { wp_step. split_and!; auto. by apply owns_slot_live. }
  wp_step. wp_step.
  2:{ split_and!; auto with lia. }
  assert (pool_ok (set_derived_dirty true s1)) as Hok2.
  { split; [|done]. eapply authority_core; [apply Hok1|done|..]; apply Hok1. }
  wp_step. eapply wp_mono; [by apply rebuild_spec|].
  intros [a|e] n' s' _ (Hok' & Hc' & H).
  2:{ destruct H as [-> ->]. split_and!; eauto using same_core_trans with lia. }
  destruct H as (-> & Hd'). assert (same_core s s') as Hcs by (eapply same_core_trans; eauto).
  pose proof (proj2 Hok' Hd') as Hs'. wp_step. wp_step.
  destruct (owner_slots s' !! addr owner) as [slot'|] eqn:Eh'.
  2:{ wp_step. split_and!; auto. exact (sync_none _ _ Hs' Eh'). }
  destruct (owns_slot s' slot' owner) eqn:Eo'; wp_step; split_and!; auto.
  - by apply owns_slot_live.
  - exact (sync_not_live _ _ _ (proj1 Hok') Hs' Eh' Eo').
Qed.

(** ** Acquisition *)

(** The authority after [owner] got [slot]: one owner slot and its generation
    change, from a free slot. *)
Record granted (s : pool) (owner : obj) (slot : nat) (s' : pool) : Prop := {
  gr_slot : (slot < capacity s)%nat;
  gr_free : owners s !!! slot = None;
  gr_room : generations s !!! slot < max_generation s;
  gr_owners : owners s' = <[slot := Some owner]> (owners s);
  gr_gens : generations s' = <[slot := generations s !!! slot + 1]> (generations s);
  gr_config : capacity s' = capacity s /\ slot_bits s' = slot_bits s /\
    slot_mask s' = slot_mask s /\ max_generation s' = max_generation s /\ corrupted s' = corrupted s
}.

(** An interrupted acquisition: at most the chosen free slot changed, and with
    a single exception the owner slots are as before. *)
Record rolled_back (s : pool) (owner : obj) (n n' : nat) (s' : pool) : Prop := {
  rb_budget : (n' < n)%nat;
  rb_config : capacity s' = capacity s /\ slot_bits s' = slot_bits s /\
    slot_mask s' = slot_mask s /\ max_generation s' = max_generation s /\ corrupted s' = corrupted s;
  rb_slot : exists slot, (slot < capacity s)%nat /\ owners s !!! slot = None /\
    generations s !!! slot < max_generation s /\
    (owners s' = owners s \/ owners s' = <[slot := Some owner]> (owners s)) /\
    (generations s' = generations s \/
     generations s' = <[slot := generations s !!! slot + 1]> (generations s)) /\
    (n = S n' -> owners s' = owners s)
}.

(** *** Single stores keep the authority *)

Section Stores.
Variable s : pool.
Hypothesis Hok : authority_ok s.

Lemma authority_mirror s' :
  same_core s s' -> states s' = states s -> length (free_ring s') = length (free_ring s) ->
  authority_ok s'.
Proof.
  intros Hc Es El. eapply authority_core; eauto; rewrite ?Es, ?El; apply Hok.
Qed.

Lemma authority_set_states slot v :
  (v = RETIRED -> max_generation s <= generations s !!! slot) ->
  authority_ok (set_states (<[slot := v]> (states s)) s).
Proof.
  intros Hv. eapply authority_core; simpl; rewrite ?length_insert; try apply Hok; [done|].
  intros i Hi. rewrite list_lookup_total_insert. case_decide as Hd.
  - destruct Hd as [-> _]. auto.
  - by apply Hok.
Qed.

Lemma authority_set_generations slot g :
  (slot < capacity s)%nat -> generations s !!! slot <= g <= max_generation s ->
  authority_ok (set_generations (<[slot := g]> (generations s)) s).
Proof.
  intros Hslot Hg. pose proof (ok_range _ Hok) as Hr. pose proof (ok_retired _ Hok) as Hret.
  pose proof (ok_generations _ Hok) as Hl.
  destruct Hok. split; simpl; rewrite ?length_insert; auto.
  - intros i Hi. specialize (Hr i Hi). rewrite list_lookup_total_insert.
    case_decide as Hd; [destruct Hd; subst|]; lia.
  - intros i Hi Hst. specialize (Hret i Hi Hst). rewrite list_lookup_total_insert.
    case_decide as Hd; [destruct Hd; subst|]; lia.
Qed.

Lemma live_set_owner slot v i o :
  (slot < capacity s)%nat ->
  live (set_owners (<[slot := v]> (owners s)) s) i o
  <-> (i = slot /\ v = Some o) \/ (i <> slot /\ live s i o).
Proof.
  intros Hslot. unfold live. simpl. rewrite list_lookup_total_insert.
  rewrite (ok_owners _ Hok). case_decide as Hd.
  - destruct Hd as [-> _]. split; [tauto|]. intros [[_ ?]|[? _]]; done.
  - assert (i <> slot) by (intros ->; tauto).
    split; [auto|intros [[? _]|[_ ?]]; done].
Qed.

Lemma authority_set_owner slot owner :
  (slot < capacity s)%nat -> (forall i, ~ live s i owner) -> addr_fresh s owner ->
  authority_ok (set_owners (<[slot := Some owner]> (owners s)) s).
Proof.
  intros Hslot Hno Hfresh.
  pose proof (fun i o => live_set_owner slot (Some owner) i o Hslot) as Hl.
  pose proof (ok_one_slot _ Hok) as H1. pose proof (ok_addr _ Hok) as H2.
  destruct Hok. split; simpl; rewrite ?length_insert; auto.
  - intros i j o. rewrite !Hl.
    intros [[-> E1]|[? ?]] [[-> E2]|[? ?]]; simplify_eq; eauto; by exfalso; eapply Hno.
  - intros i j o o'. rewrite !Hl.
    intros [[-> E1]|[? ?]] [[-> E2]|[? ?]] E; simplify_eq; eauto.
    symmetry. eapply Hfresh; eauto.
Qed.

Lemma authority_clear_owner slot :
  (slot < capacity s)%nat -> authority_ok (set_owners (<[slot := None]> (owners s)) s).
Proof.
  intros Hslot.
  pose proof (fun i o => live_set_owner slot None i o Hslot) as Hl.
  pose proof (ok_one_slot _ Hok) as H1. pose proof (ok_addr _ Hok) as H2.
  destruct Hok. split; simpl; rewrite ?length_insert; auto.
  - intros i j o. rewrite !Hl. intros [[-> E1]|[? ?]] [[-> E2]|[? ?]]; try done; eauto.
  - intros i j o o'. rewrite !Hl. intros [[-> E1]|[? ?]] [[-> E2]|[? ?]] E; try done; eauto.
Qed.
End Stores.

(** The stores that only touch mirrors *)
Lemma authority_dirty b s : authority_ok s -> authority_ok (set_derived_dirty b s).
Proof. intros H. by apply (authority_mirror s H). Qed.
Lemma authority_owner_slots v s : authority_ok s -> authority_ok (set_owner_slots v s).
Proof. intros H. by apply (authority_mirror s H). Qed.
Lemma authority_free_head v s : authority_ok s -> authority_ok (set_free_head v s).
Proof. intros H. by apply (authority_mirror s H). Qed.
Lemma authority_free_tail v s : authority_ok s -> authority_ok (set_free_tail v s).
Proof. intros H. by apply (authority_mirror s H). Qed.
Lemma authority_count v s : authority_ok s -> authority_ok (set_count v s).
Proof. intros H. by apply (authority_mirror s H). Qed.
Lemma authority_active v s : authority_ok s -> authority_ok (set_active v s).
Proof. intros H. by apply (authority_mirror s H). Qed.
Lemma authority_retired v s : authority_ok s -> authority_ok (set_retired v s).
Proof. intros H. by apply (authority_mirror s H). Qed.
Lemma authority_free_ring i v s :
  authority_ok s -> authority_ok (set_free_ring (<[i := v]> (free_ring s)) s).
Proof. intros H. apply (authority_mirror s H); simpl; rewrite ?length_insert; done. Qed.
Lemma authority_corrupted v s : authority_ok s -> authority_ok (set_corrupted v s).
Proof. intros []. by split. Qed.

#[export] Hint Resolve authority_dirty authority_owner_slots authority_free_head authority_free_tail
  authority_count authority_active authority_retired authority_free_ring authority_corrupted : sanitizer.

Lemma pool_ok_dirty s : authority_ok s -> derived_dirty s = true -> pool_ok s.
Proof. intros ? E. split; [done|]. congruence. Qed.

(** *** The free ring hands out a free slot. *)
Lemma free_pop_slot s slot nh nc :
  in_sync s -> _prepare_free_pop s = Some (slot, nh, nc) ->
  free_view s = slot :: ring_view (free_ring s) (capacity s) nh nc /\
  nh = ring_next (capacity s) (free_head s) /\ nc = Nat.pred (count s) /\ (0 < count s)%nat /\
  (slot < capacity s)%nat /\ owners s !!! slot = None /\ generations s !!! slot < max_generation s.
Proof.
  intros Hs. unfold _prepare_free_pop. destruct (Nat.eqb_spec (count s) 0) as [|Hc]; [done|].
  intros [= <- <- <-].
  assert (free_view s = free_ring s !!! free_head s ::
    ring_view (free_ring s) (capacity s) (ring_next (capacity s) (free_head s)) (Nat.pred (count s))) as Hv.
  { apply ring_view_pop; [apply Hs|lia]. }
  assert (free_ring s !!! free_head s ∈ slots (fun i => spec_state s i = FREE) (capacity s)) as Hin.
  { rewrite <- (sync_ring _ Hs), Hv. by left. }
  apply elem_of_slots in Hin as [Hst Hlt]. unfold spec_state in Hst.
  split_and!; auto; [lia| |].
  - by destruct (owners s !!! (free_ring s !!! free_head s)).
  - destruct (owners s !!! (free_ring s !!! free_head s)); [done|].
    destruct (Z.leb_spec (max_generation s) (generations s !!! (free_ring s !!! free_head s))); [done|lia].
Qed.

(** The mirrors that the publication block writes are in sync again. *)
Lemma publish_in_sync s owner slot nh nc s' :
  authority_ok s -> in_sync s -> _prepare_free_pop s = Some (slot, nh, nc) ->
  addr_fresh s owner -> (forall i, ~ live s i owner) ->
  granted s owner slot s' ->
  owner_slots s' = <[addr owner := slot]> (owner_slots s) ->
  states s' = <[slot := ACTIVE]> (states s) ->
  free_ring s' = free_ring s -> free_head s' = nh -> free_tail s' = free_tail s ->
  count s' = nc -> active s' = active s + 1 -> retired s' = retired s ->
  in_sync s'.
Proof.
  intros Hok Hs Hpop Hfr Hno [Hlt Hnone Hroom Eo Eg (Ec & _ & _ & Em & _)] Esl Est Er Eh Et En Ea Ee.
  destruct (free_pop_slot _ _ _ _ Hs Hpop) as (Hv & -> & -> & Hcnt & _ & _ & _).
  assert (forall i, (i < capacity s)%nat ->
    spec_state s' i = if decide (i = slot) then ACTIVE else spec_state s i) as Hspec.
  { intros i Hi. unfold spec_state. rewrite Eo, Eg, Em, !list_lookup_total_insert.
    rewrite (ok_owners _ Hok), (ok_generations _ Hok).
    destruct (decide (i = slot)) as [->|Hne].
    - by rewrite decide_True.
    - by rewrite !decide_False by (intros [? _]; congruence). }
  assert (spec_state s slot = FREE) as Hfree.
  { unfold spec_state. rewrite Hnone. destruct (Z.leb_spec (max_generation s) (generations s !!! slot)); [lia|done]. }
  assert (forall i o, live s' i o <-> (i = slot /\ o = owner) \/ (i <> slot /\ live s i o)) as Hlive.
  { intros i o. unfold live. rewrite Eo, Ec, list_lookup_total_insert, (ok_owners _ Hok).
    case_decide as Hd.
    - destruct Hd as [-> _]. split; [intros [_ [= ->]]; auto|intros [[_ ->]|[? _]]; done].
    - assert (i <> slot) by (intros ->; tauto).
      split; [auto|intros [[? _]|[_ ?]]; done]. }
  pose proof (sync_head _ Hs) as Hh.
  split; rewrite ?Ec, ?Esl, ?Est, ?Er, ?Eh, ?Et, ?En, ?Ea, ?Ee.
  - intros i Hi. rewrite Hspec by done. rewrite list_lookup_total_insert, (ok_states _ Hok).
    destruct (decide (i = slot)) as [->|Hne].
    + by rewrite decide_True.
    + rewrite decide_False by (intros [? _]; congruence). by apply Hs.
  - intros a i. setoid_rewrite Hlive. destruct (decide (a = addr owner)) as [->|Ha].
    + rewrite lookup_insert_eq. split; [intros [= <-]; eauto|].
      intros (o & [[-> _]|[Hi Hl]] & E); [done|]. exfalso.
      assert (o = owner) as -> by (eapply Hfr; eauto). by eapply Hno.
    + rewrite lookup_insert_ne by done. rewrite (sync_slots _ Hs).
      split; intros (o & Hl & <-); exists o; split; auto.
      * right. split; [|done]. intros ->. destruct Hl as [_ Hl]. congruence.
      * destruct Hl as [[_ ->]|[_ ?]]; done.
  - unfold free_view. rewrite Ec, Er, Eh, En.
    apply (Permutation.Permutation_cons_inv (a := slot)). rewrite <- Hv, (sync_ring _ Hs).
    apply slots_add; auto.
    + rewrite Hspec by done. by rewrite decide_True.
    + intros j Hj Hne. rewrite Hspec by done. by rewrite decide_False.
  - by apply ring_next_lt.
  - rewrite (sync_tail _ Hs), ring_next_mod by done. rewrite Nat.Div0.add_mod_idemp_l. f_equal. lia.
  - rewrite (sync_active _ Hs).
    rewrite (length_slots_add (fun i => spec_state s i = ACTIVE) (fun i => spec_state s' i = ACTIVE) _ slot); auto.
    + lia.
    + rewrite Hspec by done. by rewrite decide_True.
    + rewrite Hfree. done.
    + intros j Hj Hne. rewrite Hspec by done. by rewrite decide_False.
  - rewrite (sync_retired _ Hs). do 2 f_equal. apply slots_ext. intros i Hi. rewrite Hspec by done.
    case_decide; [subst; rewrite Hfree; done|done].
Qed.

(** What an interrupted publication leaves *)
Definition interrupted (s : pool) (owner : obj) (n n' : nat) (s' : pool) : Prop :=
  authority_ok s' /\ rolled_back s owner n n' s' /\ (n = S n' -> pool_ok s').

(** A store of the publication block was interrupted: the handler takes over. *)
Ltac publish_interrupted Hroll Hmid :=
  solve [apply Hroll; [done|first [by apply Hmid; auto with sanitizer|split; auto with sanitizer]
    |by apply pool_ok_dirty; auto with sanitizer|done]].

Section Publish.
Variables (s : pool) (owner : obj) (slot nh nc : nat).
Hypothesis Hok : pool_ok s.
Hypothesis Hd : derived_dirty s = false.
Hypothesis Hfr : addr_fresh s owner.
Hypothesis Hno : forall i, ~ live s i owner.
Hypothesis Hpop : _prepare_free_pop s = Some (slot, nh, nc).

Let g := generations s !!! slot + 1.

(** The states in which the publication block can be interrupted *)
Record mid (s' : pool) : Prop := {
  mid_ok : authority_ok s';
  mid_config : capacity s' = capacity s /\ slot_bits s' = slot_bits s /\
    slot_mask s' = slot_mask s /\ max_generation s' = max_generation s /\ corrupted s' = corrupted s;
  mid_owners : owners s' = owners s \/ owners s' = <[slot := Some owner]> (owners s);
  mid_gens : generations s' = generations s \/ generations s' = <[slot := g]> (generations s)
}.

Lemma slot_facts : (slot < capacity s)%nat /\ owners s !!! slot = None /\
  generations s !!! slot < max_generation s.
Proof. by destruct (free_pop_slot _ _ _ _ (proj2 Hok Hd) Hpop) as (_ & _ & _ & _ & ? & ? & ?). Qed.

Lemma mid_owner_test s' :
  mid s' -> owners s' !!! slot = Some owner <-> owners s' = <[slot := Some owner]> (owners s).
Proof.
  intros [_ _ Ho _]. destruct slot_facts as (Hlt & Hnone & _).
  split; [destruct Ho as [-> | ->]; [congruence|done]|]. intros ->.
  apply list_lookup_total_insert_eq. by rewrite (ok_owners _ (proj1 Hok)).
Qed.

Lemma mid_rolled_back n n' s' :
  (n' < n)%nat -> mid s' -> (n = S n' -> owners s' = owners s) -> rolled_back s owner n n' s'.
Proof.
  intros Hn [_ Hc Ho Hg] Hone. split; [done|done|]. exists slot.
  destruct slot_facts as (? & ? & ?). split_and!; auto.
Qed.

(** Clearing the slot again restores the owner table. *)
Lemma cleared_owners : <[slot := None]> (<[slot := Some owner]> (owners s)) = owners s.
Proof.
  destruct slot_facts as (Hlt & Hnone & _). rewrite list_insert_insert_eq.
  apply list_insert_id. rewrite <- Hnone. apply list_lookup_lookup_total_lt.
  by rewrite (ok_owners _ (proj1 Hok)).
Qed.

Lemma mid_core s1 s2 : mid s1 -> same_core s1 s2 -> authority_ok s2 -> mid s2.
Proof.
  intros [_ Hc Ho Hg] (E1 & E2 & E3 & E4 & E5 & E6 & E7) Hok2.
  split; rewrite ?E1, ?E2, ?E3, ?E4, ?E5, ?E6, ?E7; auto.
Qed.

(** The rollback of the exception handler, whatever interrupts it in turn *)
Lemma rollback_spec n n' s' (flag : bool) :
  n = S n' -> mid s' -> pool_ok s' -> (flag = true -> owners s' !!! slot = Some owner) ->
  wp n' (acquire_rollback owner slot AsyncInterrupt)
    (fun r m p => r = Err AsyncInterrupt /\ interrupted s owner n m p.1) (s', flag).
Proof.
  intros Hn Hmid Hpok Hflag. unfold acquire_rollback.
  assert (forall m s2, (m < n')%nat -> mid s2 -> interrupted s owner n m s2) as Hagain.
  { intros m s2 Hm Hmid2. split_and!; [apply Hmid2|apply mid_rolled_back; auto; lia|lia]. }
  wp_step. wp_step. wp_step. wp_step.
  2:{ (* nothing was published *)
      wp_step. split; [done|]. apply orb_false_iff in H as [_ H%bool_decide_eq_false].
      split_and!; [apply Hmid| |done]. apply mid_rolled_back; auto; [lia|].
      intros _. destruct (mid_owners _ Hmid) as [?|E]; [done|].
      apply mid_owner_test in E; done. }
  assert (owners s' !!! slot = Some owner) as Hmine.
  { apply orb_true_iff in H as [H|H%bool_decide_eq_true]; auto. }
  wp_step. wp_step. wp_step. rewrite bool_decide_eq_true_2 by done.
  wp_step. wp_step; [|done]. wp_step. wp_step.
  2:{ wp_step. split; [done|]. apply Hagain; [lia|done]. }
  set (s2 := set_owners _ s').
  assert (owners s2 = owners s) as Eo.
  { apply mid_owner_test in Hmine; [|done]. simpl. rewrite Hmine. apply cleared_owners. }
  assert (mid s2) as Hmid2.
  { destruct Hmid. split; auto. apply authority_clear_owner; auto.
    destruct mid_config0 as [-> _]. apply slot_facts. }
  wp_step. wp_step. wp_step.
  assert (forall s3, mid s3 -> owners s3 = owners s ->
    wp n' (onS _rebuild_derived_from_owners)
      (fun (_ : result unit) m (p : pool * bool) =>
         wp m (@raise _ (option Z) AsyncInterrupt)
           (fun r m0 p0 => r = Err AsyncInterrupt /\ interrupted s owner n m0 p0.1) p)
      (s3, flag)) as Hrebuild.
  { intros s3 Hmid3 Eo3. wp_step. eapply wp_mono; [apply rebuild_authority, Hmid3|].
    intros [?|e] m s4 _ (Ha4 & Hc4 & H4); wp_step; split; try done.
    - destruct H4 as (-> & Hd4 & Hs4).
      assert (owners s4 = owners s) as Eo4 by (rewrite <- Eo3; apply Hc4).
      split_and!; [done| |by split]. apply mid_rolled_back; auto; [lia|]. by eapply mid_core.
    - destruct H4 as (-> & Hm & _). apply Hagain; [lia|]. by eapply mid_core. }
  wp_step.
  - wp_step. wp_step.
    + apply Hrebuild; [|done]. destruct Hmid2. split; auto.
      apply authority_set_states; auto. done.
    + wp_step. split; [done|]. apply Hagain; [lia|done].
  - by apply Hrebuild.
Qed.

Lemma publish_spec n :
  wp n (acquire_publish owner slot nh nc g (_encode s slot g))
    (fun r n' s' =>
      match r with
      | Ok t => n' = n /\ t = Some (_encode s slot g) /\ granted s owner slot s' /\
                pool_ok s' /\ derived_dirty s' = false
      | Err e => e = AsyncInterrupt /\ interrupted s owner n n' s'
      end) s.
Proof.
  destruct slot_facts as (Hlt & Hnone & Hroom). destruct Hok as [Ha Hsync].
  pose proof (Hsync Hd) as Hs.
  assert (forall n' s' (flag : bool), n = S n' -> mid s' -> pool_ok s' ->
    (flag = true -> owners s' !!! slot = Some owner) ->
    wp n' (acquire_rollback owner slot AsyncInterrupt)
      (fun r n' p => match r with
        | Ok t => n' = n /\ t = Some (_encode s slot g) /\ granted s owner slot p.1 /\
                  pool_ok p.1 /\ derived_dirty p.1 = false
        | Err e => e = AsyncInterrupt /\ interrupted s owner n n' p.1
        end) (s', flag)) as Hroll.
  { intros n' s' flag Hn Hmid Hp Hf. eapply wp_mono; [by apply (rollback_spec n)|].
    by intros r m p _ [-> ?]. }
  assert (<[slot := Some owner]> (owners s) !!! slot = Some owner) as Hset.
  { apply list_lookup_total_insert_eq. by rewrite (ok_owners _ Ha). }
  set (s1 := set_owners (<[slot := Some owner]> (owners s)) (set_derived_dirty true s)).
  assert (authority_ok s1) as Ha1.
  { apply (authority_set_owner (set_derived_dirty true s)); auto with sanitizer. }
  set (s2 := set_owner_slots (<[addr owner := slot]> (owner_slots s)) s1).
  set (s3 := set_generations (<[slot := g]> (generations s)) s2).
  assert (authority_ok s3) as Ha3.
  { apply (authority_set_generations s2); [by apply authority_owner_slots|done|].
    unfold g. simpl. lia. }
  set (s4 := set_states (<[slot := ACTIVE]> (states s)) s3).
  assert (authority_ok s4) as Ha4 by (by apply (authority_set_states s3)).
  assert (forall s', same_core s4 s' -> authority_ok s' -> mid s') as Hmid4.
  { intros s' (E1 & E2 & E3 & E4 & E5 & E6 & E7) Ha'.
    split; rewrite ?E1, ?E2, ?E3, ?E4, ?E5, ?E6, ?E7; auto. }
  unfold acquire_publish. wp_step. wp_step.
  wp_step. wp_step. wp_step.
  2:{ apply Hroll; [done| |by split|done]. split; auto. }
  do 5 (wp_step; lazymatch goal with |- wp _ (onS _) _ _ => wp_step | _ => idtac end; wp_step;
    [|publish_interrupted Hroll Hmid4]).
  wp_step. wp_step. unfold _commit_free_pop. wp_step. wp_step; [|publish_interrupted Hroll Hmid4].
  wp_step; [|publish_interrupted Hroll Hmid4].
  wp_step. wp_step. wp_step; [|publish_interrupted Hroll Hmid4].
  wp_step. wp_step. wp_step; [|publish_interrupted Hroll Hmid4].
  assert (in_sync (set_derived_dirty false
    (set_active (active s + 1) (set_count nc (set_free_head nh s4))))) as Hend.
  { eapply (publish_in_sync s owner slot nh nc); eauto; [|done..].
    split; auto. }
  assert (authority_ok (set_derived_dirty false
    (set_active (active s + 1) (set_count nc (set_free_head nh s4))))) as Haend.
  { by apply authority_dirty, authority_active, authority_count, authority_free_head. }
  wp_step. wp_step.
  - wp_step. split_and!; auto; done.
  - apply Hroll; [done|by apply Hmid4|by split|done].
Qed.
End Publish.

Lemma granted_core s s1 owner slot s' :
  same_core s s1 -> granted s1 owner slot s' -> granted s owner slot s'.
Proof.
  intros (E1 & E2 & E3 & E4 & E5 & E6 & E7) [].
  rewrite ?E1, ?E2, ?E3, ?E4, ?E5, ?E6, ?E7 in *. by split.
Qed.

Lemma interrupted_core s s1 owner n n' s' :
  same_core s s1 -> interrupted s1 owner n n' s' -> interrupted s owner n n' s'.
Proof.
  intros (E1 & E2 & E3 & E4 & E5 & E6 & E7) (Ha & [? Hc Hsl] & Hp).
  rewrite ?E1, ?E2, ?E3, ?E4, ?E5, ?E6, ?E7 in *. split_and!; auto. by split.
Qed.

(** What [acquire_for owner] does, for every outcome *)
Definition acquire_post (s : pool) (owner : obj) (n : nat)
    (r : result (option Z)) (n' : nat) (s' : pool) : Prop :=
  match r with
  | Ok (Some token) =>
      n' = n /\ pool_ok s' /\ derived_dirty s' = false /\ corrupted s = false /\
      (forall i, ~ live s i owner) /\
      exists slot, granted s owner slot s' /\ token = _encode s slot (generations s !!! slot + 1)
  | Ok None =>
      pool_ok s' /\ same_core s s' /\
      (corrupted s = true \/
       (forall i, ~ live s i owner) /\ forall i, (i < capacity s)%nat -> spec_state s i <> FREE)
  | Err RuntimeError =>
      pool_ok s' /\ same_core s s' /\ corrupted s = false /\ exists i, live s i owner
  | Err AsyncInterrupt =>
      (n' < n)%nat /\ ((pool_ok s' /\ same_core s s') \/ interrupted s owner n n' s')
  | Err _ => False
  end.

Lemma no_free_slot s :
  in_sync s -> _prepare_free_pop s = None -> forall i, (i < capacity s)%nat -> spec_state s i <> FREE.
Proof.
  intros Hs Hn i Hi. unfold _prepare_free_pop in Hn.
  destruct (Nat.eqb_spec (count s) 0) as [Hc|]; [|done].
  pose proof (sync_ring _ Hs) as Hp. unfold free_view in Hp. rewrite Hc in Hp. simpl in Hp.
  apply Permutation.Permutation_nil in Hp. rewrite slots_nil in Hp. by apply Hp.
Qed.

(** A slot that the ring of a synchronised pool offers passes the guard. *)
Lemma pop_not_stale s slot nh nc :
  in_sync s -> _prepare_free_pop s = Some (slot, nh, nc) -> pop_is_stale s slot = false.
Proof.
  intros Hs Hpop. destruct (free_pop_slot _ _ _ _ Hs Hpop) as (_ & _ & _ & _ & Hlt & Hnone & Hroom).
  unfold pop_is_stale. rewrite (bool_decide_eq_true_2 _ Hlt).
  rewrite (bool_decide_eq_false_2 (owners s !!! slot <> None)) by auto.
  rewrite (sync_states _ Hs) by done. unfold spec_state. rewrite Hnone.
  destruct (Z.leb_spec (max_generation s) (generations s !!! slot)); [lia|].
  by rewrite bool_decide_eq_false_2 by auto.
Qed.

Lemma acquire_spec n s owner :
  pool_ok s -> addr_fresh s owner -> wp n (acquire_for (Some owner)) (acquire_post s owner n) s.
Proof.
  intros Hok Hfr. unfold acquire_for. wp_step. wp_step.
  destruct (corrupted s) eqn:Ecor.
  { wp_step. split_and!; auto with sanitizer. }
  eapply refreshed_bind; [by apply ensure_spec| |].
  2:{ intros n' s' Hn ? ?. split; [done|]. by left. }
  intros _ s1 Hok1 Hc1 Hd1 _.
  eapply refreshed_bind; [by apply slot_for_owner_spec| |].
  2:{ intros n' s' Hn ? ?. split; [done|]. left. split; eauto using same_core_trans. }
  intros found s2 Hok2 Hc2 Hd2 Hfound.
  assert (same_core s s2) as Hc by (eapply same_core_trans; eauto). clear s1 Hok1 Hc1 Hd1 Hc2.
  destruct found as [i|]; simpl in Hfound.
  { wp_step. split_and!; auto. exists i. by apply (same_core_live s s2). }
  pose proof (proj2 Hok2 Hd2) as Hs2. wp_step. wp_step.
  destruct (_prepare_free_pop s2) as [[[slot nh] nc]|] eqn:Epop.
  2:{ wp_step. split_and!; auto. right. split.
      { intros i. rewrite <- (same_core_live s s2) by done. auto. }
      intros i Hi. rewrite <- (same_core_spec_state s s2) by done.
      eapply no_free_slot; eauto. destruct Hc as [-> _]. done. }
  rewrite (pop_not_stale _ _ _ _ Hs2 Epop). unfold acquire_prepared. wp_step. wp_step.
  assert (addr_fresh s2 owner) as Hfr2.
  { intros i o Hl. rewrite (same_core_live s s2) in Hl by done. eauto. }
  eapply wp_mono; [by apply (publish_spec s2 owner slot nh nc)|].
  intros [[tok|]|e] n' s' _ H.
  - destruct H as (-> & [= ->] & Hg & Hp & Hd). split_and!; auto.
    + intros i. rewrite <- (same_core_live s s2) by done. auto.
    + exists slot. split; [by eapply granted_core|].
      destruct Hc as (_ & Eb & _ & _ & _ & Eg & _). unfold _encode. by rewrite Eb, Eg.
  - by destruct H as (_ & ? & _).
  - destruct H as [-> Hi]. split; [apply Hi|]. right. by eapply interrupted_core.
Qed.

(** ** Release *)

(** The authority after [owner] gave [slot] back: only its owner cell changed. *)
Record cleared (s : pool) (owner : obj) (s' : pool) : Prop := {
  cl_slot : exists slot, live s slot owner /\ owners s' = <[slot := None]> (owners s);
  cl_gens : generations s' = generations s;
  cl_config : capacity s' = capacity s /\ slot_bits s' = slot_bits s /\
    slot_mask s' = slot_mask s /\ max_generation s' = max_generation s /\ corrupted s' = corrupted s
}.

Lemma cleared_core s s1 s2 owner s' :
  same_core s s1 -> same_core s2 s' -> cleared s1 owner s2 -> cleared s owner s'.
Proof.
  intros H1 (F1 & F2 & F3 & F4 & F5 & F6 & F7) [(slot & Hl & Eo) Eg Ec].
  rewrite (same_core_live s s1) in Hl by done.
  destruct H1 as (E1 & E2 & E3 & E4 & E5 & E6 & E7).
  split; rewrite ?F1, ?F2, ?F3, ?F4, ?F5, ?F6, ?F7; rewrite ?E1, ?E2, ?E3, ?E4, ?E5, ?E6, ?E7 in *; eauto.
Qed.

(** The mirrors that the retirement block writes are in sync again. *)
Lemma retire_in_sync s owner slot s' :
  authority_ok s -> in_sync s -> live s slot owner ->
  owners s' = <[slot := None]> (owners s) -> generations s' = generations s ->
  capacity s' = capacity s -> max_generation s' = max_generation s ->
  owner_slots s' = delete (addr owner) (owner_slots s) ->
  active s' = active s - 1 -> free_head s' = free_head s ->
  (if max_generation s <=? generations s !!! slot then
     states s' = <[slot := RETIRED]> (states s) /\ retired s' = retired s + 1 /\
     free_ring s' = free_ring s /\ count s' = count s /\ free_tail s' = free_tail s
   else
     states s' = <[slot := FREE]> (states s) /\ retired s' = retired s /\
     free_ring s' = <[free_tail s := slot]> (free_ring s) /\ count s' = S (count s) /\
     free_tail s' = ring_next (capacity s) (free_tail s) /\ (count s < capacity s)%nat) ->
  in_sync s'.
Proof.
  intros Hok Hs [Hlt Hmine] Eo Eg Ec Em Esl Ea Eh Hcase.
  set (v := if max_generation s <=? generations s !!! slot then RETIRED else FREE).
  assert (forall i, (i < capacity s)%nat ->
    spec_state s' i = if decide (i = slot) then v else spec_state s i) as Hspec.
  { intros i Hi. unfold spec_state. rewrite Eo, Eg, Em, list_lookup_total_insert, (ok_owners _ Hok).
    destruct (decide (i = slot)) as [->|Hne]; [by rewrite decide_True|].
    by rewrite decide_False by (intros [? _]; congruence). }
  assert (spec_state s slot = ACTIVE) as Hact by (unfold spec_state; by rewrite Hmine).
  assert (states s' = <[slot := v]> (states s)) as Est.
  { subst v. destruct (max_generation s <=? generations s !!! slot); apply Hcase. }
  assert (forall i o, live s' i o <-> i <> slot /\ live s i o) as Hlive.
  { intros i o. unfold live. rewrite Eo, Ec, list_lookup_total_insert, (ok_owners _ Hok).
    case_decide as Hd.
    - destruct Hd as [-> _]. split; [intros [_ ?]; done|intros [? _]; done].
    - assert (i <> slot) by (intros ->; tauto). tauto. }
  assert (forall st, st <> v -> st <> ACTIVE ->
    slots (fun i => spec_state s' i = st) (capacity s) = slots (fun i => spec_state s i = st) (capacity s)) as Hoth.
  { intros st Hv Ha. apply slots_ext. intros i Hi. rewrite Hspec by done.
    case_decide as Hd; [subst; rewrite Hact; split; congruence|done]. }
  assert (forall j, (j < capacity s)%nat -> j <> slot -> spec_state s j = v <-> spec_state s' j = v) as Hv.
  { intros j Hj Hne. rewrite Hspec by done. by rewrite decide_False. }
  assert (spec_state s' slot = v) as Hvs by (rewrite Hspec by done; by rewrite decide_True).
  assert (v <> ACTIVE) as Hva by (subst v; by destruct (_ <=? _)).
  pose proof (sync_head _ Hs) as Hh. pose proof (sync_tail _ Hs) as Ht.
  split; rewrite ?Ec, ?Esl, ?Ea, ?Eh.
  - intros i Hi. rewrite Hspec, Est, list_lookup_total_insert, (ok_states _ Hok) by done.
    destruct (decide (i = slot)) as [->|Hne]; [by rewrite decide_True|].
    rewrite decide_False by (intros [? _]; congruence). by apply Hs.
  - intros a i. setoid_rewrite Hlive. destruct (decide (a = addr owner)) as [->|Hd].
    + rewrite lookup_delete_eq. split; [done|]. intros (o & [Hne Hl] & E). exfalso.
      assert (o = owner) as -> by (apply (ok_addr _ Hok i slot); auto; by split).
      apply Hne, (ok_one_slot _ Hok i slot owner); auto. by split.
    + rewrite lookup_delete_ne by done. rewrite (sync_slots _ Hs).
      split; intros (o & Hl & <-); exists o; split; auto.
      * split; [|done]. intros ->. destruct Hl as [_ Hl]. congruence.
      * apply Hl.
  - unfold free_view. rewrite Ec, Eh. subst v. destruct (max_generation s <=? generations s !!! slot).
    + destruct Hcase as (_ & _ & -> & -> & _). rewrite Hoth by done. apply (sync_ring _ Hs).
    + destruct Hcase as (_ & _ & -> & -> & _ & Hcnt). rewrite Ht.
      rewrite ring_view_push by (auto; apply Hok). rewrite Permutation.Permutation_app_comm. simpl.
      rewrite (slots_add (fun i => spec_state s i = FREE) (fun i => spec_state s' i = FREE) _ slot); auto.
      * apply Permutation.perm_skip, (sync_ring _ Hs).
      * rewrite Hact. done.
  - done.
  - subst v. destruct (max_generation s <=? generations s !!! slot).
    + destruct Hcase as (_ & _ & _ & -> & ->). done.
    + destruct Hcase as (_ & _ & _ & -> & -> & Hcnt).
      assert (free_tail s < capacity s)%nat by (rewrite Ht; apply Nat.mod_upper_bound; lia).
      rewrite ring_next_mod, Ht, Nat.Div0.add_mod_idemp_l by done. f_equal. lia.
  - rewrite (sync_active _ Hs).
    rewrite (length_slots_add (fun i => spec_state s' i = ACTIVE) (fun i => spec_state s i = ACTIVE) _ slot); auto.
    + lia.
    + by rewrite Hvs.
    + intros j Hj Hne. rewrite Hspec by done. by rewrite decide_False.
  - subst v. destruct (max_generation s <=? generations s !!! slot).
    + destruct Hcase as (_ & -> & _). rewrite (sync_retired _ Hs).
      rewrite (length_slots_add (fun i => spec_state s i = RETIRED) (fun i => spec_state s' i = RETIRED) _ slot); auto.
      * lia.
      * by rewrite Hact.
    + destruct Hcase as (_ & -> & _). rewrite Hoth by done. apply Hs.
Qed.

(** What an interrupted release leaves: the owner is still in, or it is out. *)
Definition release_cut (s : pool) (owner : obj) (s' : pool) : Prop :=
  pool_ok s' /\ (same_core s s' \/ cleared s owner s').

Lemma release_cut_core s owner s1 s2 :
  release_cut s owner s1 -> same_core s1 s2 -> pool_ok s2 -> release_cut s owner s2.
Proof.
  intros [_ [Hc|Hc]] Hc2 Hp; (split; [done|]).
  - left. by eapply same_core_trans.
  - right. eapply cleared_core; [apply same_core_refl|exact Hc2|done].
Qed.

Section Retire.
Variables (s : pool) (owner : obj) (slot : nat).
Hypothesis Hok : pool_ok s.
Hypothesis Hd : derived_dirty s = false.
Hypothesis Hlive : live s slot owner.

(** Writing the [ACTIVE] mirror of an owned slot back is harmless. *)
Lemma restore_active s' :
  pool_ok s' -> live s' slot owner -> pool_ok (set_states (<[slot := ACTIVE]> (states s')) s').
Proof.
  intros [Ha Hs] [Hlt Hmine]. destruct (derived_dirty s') eqn:E.
  - apply pool_ok_dirty; [|done]. by apply authority_set_states.
  - assert (<[slot := ACTIVE]> (states s') = states s') as ->.
    { apply list_insert_id. rewrite (list_lookup_lookup_total_lt (states s') slot) by (by rewrite (ok_states _ Ha)).
      f_equal. rewrite (sync_states _ (Hs eq_refl)) by done. unfold spec_state. by rewrite Hmine. }
    replace (set_states (states s') s') with s' by (by destruct s'). split; [done|].
    intros _. by apply Hs.
Qed.

Lemma recover_spec n n' s' (flag : bool) :
  (n' < n)%nat -> release_cut s owner s' -> (flag = false -> live s' slot owner \/ owners s' !!! slot <> Some owner) ->
  wp n' (release_recover owner slot AsyncInterrupt)
    (fun r m p => r = Err AsyncInterrupt /\ (m < n)%nat /\ release_cut s owner p.1) (s', flag).
Proof.
  intros Hn Hcut Hflag. pose proof (proj1 Hcut) as Hp. unfold release_recover. wp_step. wp_step. wp_step. simpl.
  destruct flag; wp_step.
  - wp_step. eapply wp_mono; [by apply rebuild_spec|].
    intros r m s1 Hm (Hp1 & Hc1 & _). wp_step. do 2 (split; [done || lia|]). by eapply release_cut_core.
  - wp_step. wp_step. simpl.
    destruct (bool_decide (owners s' !!! slot = Some owner)) eqn:E; simpl.
    + apply bool_decide_eq_true in E. destruct (Hflag eq_refl) as [Hl|?]; [|done].
      wp_step. wp_step.
      * wp_step. do 2 (split; [done || lia|]). eapply release_cut_core; [done|done|by apply restore_active].
      * wp_step. do 2 (split; [done || lia|]). done.
    + wp_step. wp_step. do 2 (split; [done || lia|]). done.
Qed.

(** The states of the retirement block after the owner cell was cleared *)
Lemma retired_state s' :
  authority_ok s' -> capacity s' = capacity s /\ slot_bits s' = slot_bits s /\
    slot_mask s' = slot_mask s /\ max_generation s' = max_generation s /\ corrupted s' = corrupted s ->
  owners s' = <[slot := None]> (owners s) -> generations s' = generations s ->
  derived_dirty s' = true -> release_cut s owner s'.
Proof.
  intros Ha Hc Eo Eg E. split; [by apply pool_ok_dirty|]. right. split; eauto.
Qed.

(** A store of the retirement block was interrupted after the clearing. *)
Ltac retire_interrupted Hrec :=
  solve [apply Hrec; [done|apply retired_state; auto with sanitizer; done|auto]].

Lemma retire_spec n :
  let '(retiring, push) := release_prepare s slot in
  negb retiring && bool_decide (push = None) = false ->
  wp n (release_retire owner slot push retiring)
    (fun r n' s' =>
      match r with
      | Ok b => n' = n /\ b = true /\ cleared s owner s' /\ pool_ok s' /\ derived_dirty s' = false
      | Err e => e = AsyncInterrupt /\ (n' < n)%nat /\ release_cut s owner s'
      end) s.
Proof.
  destruct Hok as [Ha Hsync]. pose proof (Hsync Hd) as Hs. pose proof Hlive as [Hlt Hmine].
  unfold release_prepare. intros Hpush.
  assert (owners s !!! slot <> None) as Hsome by congruence.
  assert (<[slot := None]> (owners s) !!! slot <> Some owner) as Hgone.
  { by rewrite list_lookup_total_insert_eq by (by rewrite (ok_owners _ Ha)). }
  set (s1 := set_states (<[slot := RETIRING]> (states s)) (set_derived_dirty true s)).
  assert (authority_ok s1) as Ha1.
  { by apply (authority_set_states (set_derived_dirty true s)); auto with sanitizer. }
  set (s2 := set_owners (<[slot := None]> (owners s)) s1).
  assert (authority_ok s2) as Ha2 by (by apply (authority_clear_owner s1)).
  assert (forall n' s' (flag : bool), n = S n' -> release_cut s owner s' ->
    (flag = false -> live s' slot owner \/ owners s' !!! slot <> Some owner) ->
    wp n' (release_recover owner slot AsyncInterrupt)
      (fun r n' p => match r with
        | Ok b => n' = n /\ b = true /\ cleared s owner p.1 /\ pool_ok p.1 /\ derived_dirty p.1 = false
        | Err e => e = AsyncInterrupt /\ (n' < n)%nat /\ release_cut s owner p.1
        end) (s', flag)) as Hrec.
  { intros n' s' flag -> Hcut Hf. eapply wp_mono; [apply (recover_spec (S n')); auto; lia|].
    by intros r m p _ (-> & ? & ?). }
  set (s3 := set_active (active s - 1) (set_owner_slots (delete (addr owner) (owner_slots s)) s2)).
  assert (authority_ok s3) as Ha3 by (by apply authority_active, authority_owner_slots).
  unfold release_retire. wp_step. wp_step. wp_step. wp_step. wp_step.
  2:{ apply Hrec; [done|split; [done|by left]|auto]. }
  do 2 (wp_step; wp_step; wp_step;
    [|apply Hrec; [done|split; [by apply pool_ok_dirty; auto with sanitizer|by left]|auto]]).
  wp_step. wp_step; [|retire_interrupted Hrec].
  do 2 (wp_step; wp_step; wp_step; [|retire_interrupted Hrec]).
  wp_step. unfold _prepare_free_push in *.
  pose proof (fun s' => retire_in_sync s owner slot s' Ha Hs Hlive) as Hend.
  destruct (max_generation s <=? generations s !!! slot) eqn:Eret.
  - assert (authority_ok (set_states (<[slot := RETIRED]> (<[slot := RETIRING]> (states s))) s3)) as Ha4.
    { apply (authority_set_states s3); auto with sanitizer. by intros _; apply Z.leb_le. }
    wp_step. wp_step. wp_step; [|retire_interrupted Hrec].
    wp_step. wp_step; [|retire_interrupted Hrec].
    wp_step. wp_step. wp_step; [|retire_interrupted Hrec].
    set (s5 := set_derived_dirty false _).
    assert (pool_ok s5) as Hp5.
    { split; [by apply authority_dirty, authority_retired|]. intros _. apply Hend; try done.
      split_and!; try done. simpl. apply list_insert_insert_eq. }
    assert (cleared s owner s5) as Hcl5 by (split; eauto).
    wp_step. wp_step; [by wp_step|].
    apply Hrec; [done|by split; auto|done].
  - destruct (Nat.leb_spec (capacity s) (count s)) as [Hc|Hc]; [done|].
    unfold _commit_free_push.
    wp_step. wp_step. wp_step. wp_step; [|retire_interrupted Hrec].
    wp_step. wp_step; [|retire_interrupted Hrec].
    wp_step; [|retire_interrupted Hrec].
    wp_step. wp_step; [|retire_interrupted Hrec].
    match goal with |- context [set_states _ ?x] => set (s4 := x) end.
    assert (authority_ok s4) as Ha4 by (by apply authority_count, authority_free_tail, (authority_free_ring _ _ s3)).
    assert (authority_ok (set_states (<[slot := FREE]> (states s4)) s4)) as Ha5
      by (by apply authority_set_states).
    wp_step. wp_step. wp_step; [|retire_interrupted Hrec].
    set (s5 := set_derived_dirty false _).
    assert (pool_ok s5) as Hp5.
    { split; [by apply authority_dirty|]. intros _. apply Hend; try done.
      split_and!; try done. simpl. apply list_insert_insert_eq. }
    assert (cleared s owner s5) as Hcl5 by (split; eauto).
    wp_step. wp_step; [by wp_step|].
    apply Hrec; [done|by split; auto|done].
Qed.
End Retire.

(** What [release_for owner] does, for every outcome *)
Definition release_post (s : pool) (owner : obj) (n : nat)
    (r : result bool) (n' : nat) (s' : pool) : Prop :=
  match r with
  | Ok b =>
      b = true /\ n' = n /\ pool_ok s' /\ derived_dirty s' = false /\
      (((forall i, ~ live s i owner) /\ same_core s s') \/ cleared s owner s')
  | Err e => e = AsyncInterrupt /\ (n' < n)%nat /\ release_cut s owner s'
  end.

Lemma found_core s s' owner r : same_core s s' -> found_spec owner r s' -> found_spec owner r s.
Proof.
  intros Hc. destruct r as [i|]; simpl; [by rewrite (same_core_live s s')|].
  intros H i. rewrite <- (same_core_live s s') by done. auto.
Qed.

(** While an owner sits in a slot, the free ring has room for that slot. *)
Lemma live_ring_room s slot owner :
  in_sync s -> live s slot owner -> (count s < capacity s)%nat.
Proof.
  intros Hs [Hlt Hmine].
  pose proof (Permutation_length (sync_ring _ Hs)) as E. unfold free_view in E.
  rewrite length_ring_view in E. rewrite E.
  pose proof (length_slots_add (fun i => spec_state s i = FREE)
    (fun i => i = slot \/ spec_state s i = FREE) (capacity s) slot Hlt) as H.
  pose proof (length_slots_le (fun i => i = slot \/ spec_state s i = FREE) (capacity s)).
  rewrite H in *; [lia|by left| |].
  - unfold spec_state. by rewrite Hmine.
  - intros j _ Hj. split; [by right|]. by intros [?|?].
Qed.

Lemma release_spec n s owner :
  pool_ok s -> wp n (release_for owner) (release_post s owner n) s.
Proof.
  intros Hok. unfold release_for.
  eapply refreshed_bind; [by apply ensure_spec| |].
  2:{ intros n' s' Hn ? ?. do 2 (split; [done|]). split; [done|]. by left. }
  intros _ s1 Hok1 Hc1 Hd1 _.
  eapply refreshed_bind; [by apply slot_for_owner_spec| |].
  2:{ intros n' s' Hn ? ?. do 2 (split; [done|]). split; [done|]. left. by eapply same_core_trans. }
  intros found s2 Hok2 Hc2 Hd2 Hfound.
  assert (same_core s s2) as Hc by (eapply same_core_trans; eauto). clear s1 Hok1 Hc1 Hd1 Hc2.
  destruct found as [slot|].
  2:{ wp_step. pose proof (found_core s s2 owner None Hc Hfound). do 2 (split; [done|]).
      split; [done|]. split; [done|]. by left. }
  wp_step. wp_step.
  pose proof (live_ring_room _ _ _ (proj2 Hok2 Hd2) Hfound) as Hroom.
  assert (let '(retiring, push) := release_prepare s2 slot in
          negb retiring && bool_decide (push = None) = false) as Hpush.
  { unfold release_prepare, _prepare_free_push.
    destruct (max_generation s2 <=? generations s2 !!! slot); [done|].
    destruct (Nat.leb_spec (capacity s2) (count s2)); [lia|]. by apply bool_decide_eq_false_2. }
  pose proof (retire_spec s2 owner slot Hok2 Hd2 Hfound n) as Hret.
  destruct (release_prepare s2 slot) as [retiring push]. rewrite Hpush.
  eapply wp_mono; [by apply Hret|]. intros [b|e] n' s' _ H.
  - destruct H as (-> & -> & Hcl & Hp & Hd'). do 2 (split; [done|]). split; [done|]. split; [done|].
    right. eapply cleared_core; [exact Hc|apply same_core_refl|done].
  - destruct H as (-> & Hn & [Hp Hcut]). do 2 (split; [done|]). split; [done|].
    destruct Hcut as [?|?]; [left; by eapply same_core_trans|right].
    eapply cleared_core; [exact Hc|apply same_core_refl|done].
Qed.

(** ** The initial pool *)

Lemma capacity_bits cap : 0 < cap -> cap <= 2 ^ Z.max 1 (bit_length (cap - 1)).
Proof.
  intros Hc. unfold bit_length. destruct (Z.leb_spec (cap - 1) 0).
  - change (2 ^ Z.max 1 0) with 2. lia.
  - assert (0 <= Z.log2 (cap - 1)) by apply Z.log2_nonneg.
    rewrite Z.max_r by lia. pose proof (Z.log2_spec (cap - 1) ltac:(lia)) as [_ H'].
    replace (Z.succ (Z.log2 (cap - 1))) with (Z.log2 (cap - 1) + 1) in H' by lia. lia.
Qed.

(** No namespace of at most [2 ^ 62] slots starts out exhausted. *)
Lemma max_generation_pos cap :
  0 < cap <= 2 ^ 62 -> 1 <= Z.shiftr _MAX_TOKEN (Z.max 1 (bit_length (cap - 1))).
Proof.
  intros Hc. rewrite Z.shiftr_div_pow2 by lia.
  assert (Z.max 1 (bit_length (cap - 1)) <= 62) as Hb.
  { unfold bit_length. destruct (Z.leb_spec (cap - 1) 0); [lia|].
    assert (Z.log2 (cap - 1) < 62) by (apply Z.log2_lt_pow2; lia). lia. }
  assert (2 ^ Z.max 1 (bit_length (cap - 1)) <= 2 ^ 62) by (apply Z.pow_le_mono_r; lia).
  apply Z.div_le_lower_bound; [apply Z.pow_pos_nonneg; lia|].
  unfold _MAX_TOKEN. change (Z.shiftl 1 63 - 1) with (2 * 2 ^ 62 - 1). lia.
Qed.

Lemma init_ok cap s : init cap = Ok s -> cap <= 2 ^ 62 -> pool_ok s /\ derived_dirty s = false.
Proof.
  unfold init. destruct (Z.leb_spec cap 0); [done|]. intros [= <-] Hmax.
  pose proof (max_generation_pos cap ltac:(lia)) as Hpos.
  assert (forall (i : nat) o, (replicate (Z.to_nat cap) None : list (option obj)) !!! i <> Some o) as Hnone.
  { intros i o. rewrite list_lookup_total_alt.
    destruct (replicate (Z.to_nat cap) None !! i) as [x|] eqn:E; [|done].
    apply lookup_replicate in E as [-> _]. done. }
  set (s := Pool _ _ _ _ _ _ _ _ _ _ _ _ _ _ _ _).
  assert (forall i, (i < Z.to_nat cap)%nat -> spec_state s i = FREE) as Hspec.
  { intros i Hi. unfold spec_state. simpl. rewrite !lookup_total_replicate_2 by done.
    destruct (Z.leb_spec (Z.shiftr _MAX_TOKEN (Z.max 1 (bit_length (cap - 1)))) 0); [lia|done]. }
  assert (forall i o, ~ live s i o) as Hdead by (intros i o [_ E]; by eapply Hnone).
  split; [|done]. split.
  - split; simpl; rewrite ?length_replicate, ?length_seq; auto; try lia.
    + by rewrite Z2Nat.id by lia.
    + intros i Hi. rewrite lookup_total_replicate_2 by done. lia.
    + intros i j o Hl. by destruct (Hdead _ _ Hl).
    + intros i j o o' Hl. by destruct (Hdead _ _ Hl).
    + intros i Hi. by rewrite lookup_total_replicate_2 by done.
  - intros _. split; simpl.
    + intros i Hi. by rewrite lookup_total_replicate_2, Hspec by done.
    + intros a i. split; [by rewrite lookup_empty|]. intros (o & Hl & _). by destruct (Hdead _ _ Hl).
    + unfold free_view, ring_view. simpl. apply reflexive_eq. rewrite slots_all by auto.
      apply list_eq. intros i. rewrite list_lookup_fmap. destruct (decide (i < Z.to_nat cap)%nat).
      * rewrite lookup_seq_lt by done. simpl. f_equal. rewrite Nat.mod_small by done.
        by apply lookup_total_seq_lt.
      * by rewrite lookup_seq_ge by lia.
    + lia.
    + by rewrite Nat.Div0.mod_same.
    + rewrite (proj2 (slots_nil _ _)); [done|]. intros i Hi. by rewrite Hspec.
    + rewrite (proj2 (slots_nil _ _)); [done|]. intros i Hi. by rewrite Hspec.
Qed.

(** ** Tokens *)

Section Tokens.
Variable s : pool.
Hypothesis Hok : authority_ok s.

Lemma slot_bits_pos : 1 <= slot_bits s.
Proof. rewrite (ok_bits _ Hok). lia. Qed.

Lemma slot_fits slot : (slot < capacity s)%nat -> 0 <= Z.of_nat slot < 2 ^ slot_bits s.
Proof.
  intros Hlt. rewrite (ok_bits _ Hok).
  pose proof (capacity_bits (Z.of_nat (capacity s)) ltac:(lia)). lia.
Qed.

Lemma encode_arith slot g :
  (slot < capacity s)%nat -> _encode s slot g = g * 2 ^ slot_bits s + Z.of_nat slot.
Proof.
  intros Hlt. pose proof slot_bits_pos. pose proof (slot_fits slot Hlt) as Hfit.
  unfold _encode. rewrite <- Z.shiftl_mul_pow2, <- Z.add_lor_land by lia.
  replace (Z.land _ _) with 0; [lia|]. symmetry. apply Z.bits_inj'. intros n Hn.
  rewrite Z.land_spec, Z.bits_0. destruct (decide (n < slot_bits s)) as [?|?].
  - by rewrite Z.shiftl_spec_low.
  - rewrite <- (Z.mod_small (Z.of_nat slot) (2 ^ slot_bits s)) by done.
    rewrite Z.mod_pow2_bits_high by lia. apply andb_false_r.
Qed.

Lemma encode_slot slot g :
  (slot < capacity s)%nat -> Z.land (_encode s slot g) (slot_mask s) = Z.of_nat slot.
Proof.
  intros Hlt. pose proof slot_bits_pos. pose proof (slot_fits slot Hlt).
  rewrite (ok_mask _ Hok), Z.shiftl_1_l, Z.sub_1_r, <- Z.ones_equiv, Z.land_ones by lia.
  rewrite encode_arith, Z.add_comm, Z.mod_add by (auto; apply Z.pow_nonzero; lia). by apply Z.mod_small.
Qed.

Lemma encode_generation slot g :
  (slot < capacity s)%nat -> Z.shiftr (_encode s slot g) (slot_bits s) = g.
Proof.
  intros Hlt. pose proof slot_bits_pos. pose proof (slot_fits slot Hlt).
  rewrite Z.shiftr_div_pow2, encode_arith, Z.add_comm, Z.div_add by (auto; try apply Z.pow_nonzero; lia).
  by rewrite Z.div_small.
Qed.

Lemma encode_inj slot slot' g g' :
  (slot < capacity s)%nat -> (slot' < capacity s)%nat ->
  _encode s slot g = _encode s slot' g' -> slot = slot' /\ g = g'.
Proof.
  intros Hlt Hlt' E. pose proof (encode_slot slot g Hlt) as E1.
  pose proof (encode_generation slot g Hlt) as E2.
  rewrite E in E1, E2. rewrite encode_slot in E1 by done. rewrite encode_generation in E2 by done.
  split; [lia|done].
Qed.

Lemma encode_range slot g :
  (slot < capacity s)%nat -> 1 <= g <= max_generation s -> 0 < _encode s slot g <= _MAX_TOKEN.
Proof.
  intros Hlt Hg. pose proof slot_bits_pos. pose proof (slot_fits slot Hlt).
  rewrite encode_arith by done. rewrite (ok_max _ Hok), Z.shiftr_div_pow2 in Hg by lia.
  assert (slot_bits s <= 63).
  { destruct (decide (slot_bits s <= 63)) as [?|?]; [done|].
    assert (2 ^ 63 <= 2 ^ slot_bits s) by (apply Z.pow_le_mono_r; lia).
    rewrite Z.div_small in Hg by (unfold _MAX_TOKEN; split; [done|]; change (Z.shiftl 1 63) with (2 ^ 63); lia).
    lia. }
  assert (2 ^ slot_bits s * 2 ^ (63 - slot_bits s) = 2 ^ 63) as Hpq.
  { rewrite <- Z.pow_add_r by lia. f_equal. lia. }
  assert (_MAX_TOKEN = 2 ^ 63 - 1) as Emax by done. rewrite Emax in *.
  rewrite <- (Z.div_unique _ _ (2 ^ (63 - slot_bits s) - 1) (2 ^ slot_bits s - 1)) in Hg by lia. nia.
Qed.

Lemma owner_for_encode slot g :
  (slot < capacity s)%nat -> 0 < _encode s slot g ->
  owner_for s (_encode s slot g)
  = if generations s !!! slot =? g then owners s !!! slot else None.
Proof.
  intros Hlt Hpos. unfold owner_for.
  destruct (Z.leb_spec (_encode s slot g) 0); [lia|].
  rewrite encode_slot, encode_generation, Nat2Z.id by done.
  destruct (Z.leb_spec (Z.of_nat (capacity s)) (Z.of_nat slot)); [lia|]. simpl.
  by destruct (generations s !!! slot =? g).
Qed.
End Tokens.

(** ** Histories of a pool

    The operations a serialised caller can run.  Every operation may be cut by
    asynchronous exceptions: an acquisition by at most one (its recovery
    handler completes), the others by any number. *)
Inductive pool_step (s s' : pool) : Prop :=
| step_acquire owner k r k' :
    addr_fresh s owner -> (length k <= 1)%nat ->
    acquire_for (Some owner) k s = (r, k', s') -> pool_step s s'
| step_release owner k r k' : release_for owner k s = (r, k', s') -> pool_step s s'
| step_token_for owner k r k' : token_for owner k s = (r, k', s') -> pool_step s s'
| step_owns_owner owner token k r k' : owns_owner owner token k s = (r, k', s') -> pool_step s s'
| step_snapshot k r k' : snapshot k s = (r, k', s') -> pool_step s s'.

(** What any step does to the authority *)
Inductive core_step (s s' : pool) : Prop :=
| core_same : same_core s s' -> core_step s s'
| core_granted owner slot : granted s owner slot s' -> core_step s s'
| core_cleared owner : cleared s owner s' -> core_step s s'
| core_rolled_back owner : rolled_back s owner 1 0 s' -> core_step s s'.

Lemma token_for_spec n s owner :
  pool_ok s ->
  wp n (token_for owner) (refreshed s n (fun r _ => forall i, live s i owner ->
    r = Some (_encode s i (generations s !!! i)))) s.
Proof.
  intros Hok. unfold token_for. eapply refreshed_bind; [by apply slot_for_owner_spec| |].
  2:{ intros. by do 2 (split; [done|]). }
  intros found s1 Hok1 Hc1 Hd1 Hf%(found_core s s1); [|done]. destruct found as [slot|]; simpl in Hf.
  - wp_step. do 2 (split; [done|]). do 2 (split; [done|]). intros i Hl.
    assert (i = slot) as -> by (eapply (ok_one_slot _ (proj1 Hok)); eauto).
    destruct Hc1 as (_ & Eb & _ & _ & _ & Eg & _). unfold _encode. by rewrite Eb, Eg.
  - wp_step. do 2 (split; [done|]). do 2 (split; [done|]). intros i Hl. by destruct (Hf i).
Qed.

Lemma owns_owner_spec n s owner token :
  pool_ok s ->
  wp n (owns_owner owner token) (refreshed s n (fun r _ =>
    r = true <-> exists i, live s i owner /\ forall t, token = Some t -> t = _encode s i (generations s !!! i))) s.
Proof.
  intros Hok. unfold owns_owner. eapply refreshed_bind; [by apply slot_for_owner_spec| |].
  2:{ intros. by do 2 (split; [done|]). }
  intros found s1 Hok1 Hc1 Hd1 Hf%(found_core s s1); [|done]. destruct found as [slot|]; simpl in Hf.
  - assert (forall t, _encode s1 slot t = _encode s slot t /\ generations s1 = generations s) as He.
    { destruct Hc1 as (_ & Eb & _ & _ & _ & Eg & _). unfold _encode. by rewrite Eb, Eg. }
    destruct token as [t|]; wp_step; do 2 (split; [done|]); do 2 (split; [done|]).
    + rewrite Z.eqb_eq. destruct (He (generations s1 !!! slot)) as [-> ->]. split.
      * intros <-. exists slot. split; [done|]. by intros ? [= <-].
      * intros (i & Hl & Ht). rewrite (Ht t eq_refl).
        by rewrite (ok_one_slot _ (proj1 Hok) i slot owner).
    + split; [|done]. intros _. by exists slot.
  - wp_step. do 2 (split; [done|]). do 2 (split; [done|]). split; [done|].
    intros (i & Hl & _). by destruct (Hf i).
Qed.

Lemma snapshot_spec n s :
  pool_ok s ->
  wp n snapshot (refreshed s n (fun r s' => r = Snapshot (Z.of_nat (capacity s'))
    (active s') (Z.of_nat (count s')) (retired s') (corrupted s'))) s.
Proof.
  intros Hok. unfold snapshot. eapply refreshed_bind; [by apply ensure_spec| |].
  2:{ intros. by do 2 (split; [done|]). }
  intros _ s1 Hok1 Hc1 Hd1 _. wp_step. by do 2 (split; [done|]).
Qed.

Lemma refreshed_step {A} s (m : M pool A) P k r k' s' :
  (forall n, wp n m (refreshed s n P) s) -> m k s = (r, k', s') -> pool_ok s' /\ core_step s s'.
Proof.
  intros Hm E. destruct (wp_elim _ _ _ _ _ _ _ _ (Hm (length k)) (Nat.le_refl _) E) as (n' & _ & Hp & Hc & _).
  split; [done|]. by constructor.
Qed.

Lemma pool_step_ok s s' : pool_ok s -> pool_step s s' -> pool_ok s' /\ core_step s s'.
Proof.
  intros Hok [owner k r k' Hfr Hk E|owner k r k' E|owner k r k' E|owner token k r k' E|k r k' E].
  - destruct (wp_elim _ _ _ _ _ _ _ _ (acquire_spec 1 s owner Hok Hfr) Hk E) as (n' & Hn & Hpost).
    destruct r as [[tok|]|[]]; simpl in Hpost; try done.
    + destruct Hpost as (_ & Hp & _ & _ & _ & slot & Hg & _). split; [done|]. by eapply core_granted.
    + destruct Hpost as (Hp & Hc & _). split; [done|]. by constructor.
    + destruct Hpost as (Hlt & [[Hp Hc]|(Ha & Hr & Hp)]).
      * split; [done|]. by constructor.
      * assert (n' = 0%nat) as -> by lia. split; [by apply Hp|]. by eapply core_rolled_back.
    + destruct Hpost as (Hp & Hc & _). split; [done|]. by constructor.
  - destruct (wp_elim _ _ _ _ _ _ _ _ (release_spec (length k) s owner Hok) (Nat.le_refl _) E) as (n' & Hn & Hpost).
    destruct r as [b|e]; simpl in Hpost.
    + destruct Hpost as (_ & _ & Hp & _ & [[_ Hc]|Hc]); (split; [done|]); [by constructor|].
      by eapply core_cleared.
    + destruct Hpost as (_ & _ & Hp & [Hc|Hc]); (split; [done|]); [by constructor|].
      by eapply core_cleared.
  - eapply refreshed_step; [|exact E]. intros n. by apply token_for_spec.
  - eapply refreshed_step; [|exact E]. intros n. by apply owns_owner_spec.
  - eapply refreshed_step; [|exact E]. intros n. by apply snapshot_spec.
Qed.

Lemma history_ok s s' : pool_ok s -> rtc pool_step s s' -> pool_ok s' /\ rtc core_step s s'.
Proof.
  intros Hok H. induction H as [s|s s1 s' Hstep _ IH]; [split; [done|apply rtc_refl]|].
  destruct (pool_step_ok _ _ Hok Hstep) as [Hok1 Hc]. destruct (IH Hok1) as [? ?].
  split; [done|]. by eapply rtc_l.
Qed.

(** Slot [slot] is at generation [g] or beyond, and at [g] its owner cell is in [A]. *)
Definition token_bound (slot : nat) (g : Z) (A : option obj -> Prop) (s : pool) : Prop :=
  g <= generations s !!! slot /\ (generations s !!! slot = g -> A (owners s !!! slot)).

Definition same_config (s s' : pool) : Prop :=
  capacity s' = capacity s /\ slot_bits s' = slot_bits s /\ slot_mask s' = slot_mask s /\
  max_generation s' = max_generation s.

Lemma core_step_config s s' : core_step s s' -> same_config s s'.
Proof.
  intros [(? & ? & ? & ? & _)|? ? [? ? ? ? ? (? & ? & ? & ? & _)]|? [? ? (? & ? & ? & ? & _)]|? [? (? & ? & ? & ? & _) ?]];
    by split_and!.
Qed.

Lemma token_bound_step s s' slot g (A : option obj -> Prop) :
  authority_ok s -> (slot < capacity s)%nat -> A None -> core_step s s' ->
  token_bound slot g A s -> token_bound slot g A s'.
Proof.
  intros Hok Hlt HA Hstep [Hg Ho]. unfold token_bound.
  pose proof (ok_generations _ Hok) as Hlg. pose proof (ok_owners _ Hok) as Hlo.
  destruct Hstep as [(_ & _ & _ & _ & -> & -> & _)|owner sl Hgr|owner Hcl|owner Hrb]; [done|..].
  - destruct Hgr as [_ _ _ Eo Eg _]. rewrite Eo, Eg.
    destruct (decide (slot = sl)) as [<-|Hne].
    + rewrite list_lookup_total_insert_eq by lia. split; lia.
    + by rewrite !list_lookup_total_insert_ne by done.
  - destruct Hcl as [(sl & _ & Eo) Eg _]. rewrite Eo, Eg. split; [done|]. intros E.
    destruct (decide (slot = sl)) as [<-|Hne].
    + by rewrite list_lookup_total_insert_eq by lia.
    + rewrite list_lookup_total_insert_ne by done. auto.
  - destruct Hrb as [_ _ (sl & _ & _ & _ & _ & Hgens & Hown)]. rewrite (Hown eq_refl).
    destruct Hgens as [-> | ->]; [done|]. destruct (decide (slot = sl)) as [<-|Hne].
    + rewrite list_lookup_total_insert_eq by lia. split; lia.
    + by rewrite !list_lookup_total_insert_ne by done.
Qed.

Lemma history_bound s s' slot g (A : option obj -> Prop) :
  pool_ok s -> (slot < capacity s)%nat -> A None -> rtc pool_step s s' ->
  token_bound slot g A s -> token_bound slot g A s' /\ same_config s s'.
Proof.
  intros Hok Hlt HA H. revert Hok Hlt. induction H as [s|s s1 s' Hstep _ IH]; intros Hok Hlt Hb.
  - split; [done|]. by split_and!.
  - destruct (pool_step_ok _ _ Hok Hstep) as [Hok1 Hc].
    pose proof (core_step_config _ _ Hc) as (Ec & Eb & Em & Ex).
    destruct IH as [Hb' (Fc & Fb & Fm & Fx)]; auto; [congruence| |].
    + eapply token_bound_step; eauto. apply Hok.
    + split; [done|]. split_and!; congruence.
Qed.

(** A granted token resolves to its owner. *)
Lemma run_wp {S A} (m : M S A) s r s' Q :
  run m s = (r, s') -> wp 0 m (fun r n' s' => Q r n' s') s -> Q r 0%nat s'.
Proof.
  intros E H. specialize (H [] (Nat.le_refl _)). unfold run in E.
  destruct (m [] s) as [[r1 k1] s1]. simplify_eq. destruct H as (n' & _ & Hn & HQ).
  by replace n' with 0%nat in HQ by lia.
Qed.

Lemma granted_token s owner token s' :
  pool_ok s -> addr_fresh s owner -> run (acquire_for (Some owner)) s = (Ok (Some token), s') ->
  pool_ok s' /\ (forall i, ~ live s i owner) /\
  exists slot, granted s owner slot s' /\ token = _encode s' slot (generations s' !!! slot) /\
    generations s' !!! slot = generations s !!! slot + 1 /\ 0 < token <= _MAX_TOKEN.
Proof.
  intros Hok Hfr E. pose proof (run_wp _ _ _ _ _ E (acquire_spec 0 s owner Hok Hfr)) as H.
  destruct H as (_ & Hp & _ & _ & Hno & slot & Hg & ->). do 2 (split; [done|]). exists slot.
  pose proof Hg as [Hlt _ Hroom _ Eg (Ec & Eb & _ & Em & _)].
  assert (generations s' !!! slot = generations s !!! slot + 1) as Eg'.
  { rewrite Eg. apply list_lookup_total_insert_eq. by rewrite (ok_generations _ (proj1 Hok)). }
  pose proof (ok_range _ (proj1 Hok) slot Hlt).
  split_and!; auto.
  - unfold _encode. by rewrite Eg', Eb.
  - apply encode_range; [apply Hok|done|lia].
  - apply encode_range; [apply Hok|done|lia].
Qed.


(** ** Counters *)

Lemma exact_active_slots s :
  length (owners s) = capacity s ->
  exact_active_count s = Z.of_nat (length (slots (fun i => spec_state s i = ACTIVE) (capacity s))).
Proof.
  intros <-. unfold exact_active_count.
  assert (forall k, (k <= length (owners s))%nat ->
    foldl (fun active owner => if owner is Some _ then active + 1 else active) 0 (take k (owners s))
    = Z.of_nat (length (slots (fun i => spec_state s i = ACTIVE) k))) as H.
  { induction k as [|k IH]; intros Hk; [done|].
    destruct (lookup_lt_is_Some_2 (owners s) k ltac:(lia)) as [o Eo].
    rewrite (take_S_r _ _ _ Eo), foldl_snoc, IH, slots_S, length_app by lia.
    assert (spec_state s k = ACTIVE <-> is_Some o) as Hst.
    { unfold spec_state. rewrite (list_lookup_total_correct _ _ _ Eo). destruct o; [done|].
      destruct (max_generation s <=? generations s !!! k); split; try done; by intros []. }
    case_decide as Hd; destruct o; simpl; try lia; exfalso.
    - by destruct (proj1 Hst Hd).
    - apply Hd, Hst. done. }
  rewrite <- H by lia. by rewrite firstn_all.
Qed.

(** Every slot is active, free or retired. *)
Lemma slot_partition s n :
  (length (slots (fun i => spec_state s i = ACTIVE) n) + length (slots (fun i => spec_state s i = FREE) n)
   + length (slots (fun i => spec_state s i = RETIRED) n) = n)%nat.
Proof.
  induction n as [|n IH]; [done|]. rewrite !slots_S, !length_app. pose proof (spec_state_cases s n) as E.
  destruct (owners s !!! n); rewrite E; simpl; [lia|].
  destruct (max_generation s <=? generations s !!! n); simpl; lia.
Qed.

(** Whatever history of interrupted and completed operations a pool went
    through, an uninterrupted [snapshot] returns, reports the exact number of
    rooted owners, accounts for every slot of the fixed capacity exactly once,
    and leaves owners and generations as they were. *)
Theorem snapshot_exact cap s0 s :
  init cap = Ok s0 -> cap <= 2 ^ 62 -> rtc pool_step s0 s ->
  exists snap s', run snapshot s = (Ok snap, s') /\ same_core s s' /\ pool_ok s' /\
    snap_active snap = exact_active_count s /\ snap_capacity snap = cap /\
    snap_active snap + snap_available snap + snap_retired snap = cap.
Proof.
  intros Hinit Hcap Hs. destruct (init_ok _ _ Hinit Hcap) as [Hok0 _].
  destruct (history_ok _ _ Hok0 Hs) as [Hok _].
  destruct (history_bound s0 s 0 0 (fun _ => True)) as [_ (Ec & _)]; auto.
  { apply Hok0. } { split; [|done]. apply (ok_range _ (proj1 Hok0)), Hok0. }
  assert (Z.of_nat (capacity s0) = cap) as Ecap.
  { unfold init in Hinit. destruct (Z.leb_spec cap 0); simplify_eq. simpl. lia. }
  destruct (run snapshot s) as [r s'] eqn:E.
  destruct (run_wp _ _ _ _ _ E (snapshot_spec 0 s Hok)) as (Hok' & Hc & H).
  destruct r as [snap|e]; [|destruct H; lia]. destruct H as (_ & Hd & ->).
  exists (Snapshot (Z.of_nat (capacity s')) (active s') (Z.of_nat (count s')) (retired s') (corrupted s')), s'.
  pose proof (proj2 Hok' Hd) as Hsync. destruct (proj2 Hok' Hd) as [_ _ Hring _ _ Hact Hret].
  apply Permutation_length in Hring. unfold free_view in Hring. rewrite length_ring_view in Hring.
  pose proof (slot_partition s' (capacity s')) as Hpart.
  assert (capacity s' = capacity s) as Ec' by apply Hc.
  split_and!; auto; simpl.
  - rewrite Hact, <- exact_active_slots by apply Hok'. unfold exact_active_count. f_equal. apply Hc.
  - lia.
  - lia.
Qed.

(** [acquire_for] is total and its outcome is determined by the authority: a
    quarantined pool refuses, an owner that is already rooted is rejected with
    [RuntimeError], a pool without a free slot refuses, and otherwise the owner
    is rooted in a slot that was free, under the next generation of that slot,
    with every other slot as it was. *)
Theorem acquire_outcome s owner :
  pool_ok s -> addr_fresh s owner ->
  let '(r, s') := run (acquire_for (Some owner)) s in
  pool_ok s' /\
  (if corrupted s then r = Ok None /\ same_core s s'
   else if decide (Exists (fun o => o = Some owner) (owners s)) then r = Err RuntimeError /\ same_core s s'
   else if decide (Forall (fun i => spec_state s i <> FREE) (seq 0 (capacity s)))
   then r = Ok None /\ same_core s s'
   else exists slot, granted s owner slot s' /\ spec_state s slot = FREE /\
        r = Ok (Some (_encode s' slot (generations s' !!! slot)))).
Proof.
  intros Hok Hfr. destruct (run (acquire_for (Some owner)) s) as [r s'] eqn:E.
  pose proof (run_wp _ _ _ _ _ E (acquire_spec 0 s owner Hok Hfr)) as H.
  assert (Exists (fun o => o = Some owner) (owners s) <-> exists i, live s i owner) as Hex.
  { rewrite Exists_exists. unfold live. rewrite <- (ok_owners _ (proj1 Hok)). split.
    - intros (o & (i & Hi)%list_elem_of_lookup & ->). exists i.
      split; [by eapply lookup_lt_Some|by apply list_lookup_total_correct].
    - intros (i & Hi & Eo). exists (Some owner). split; [|done]. rewrite <- Eo.
      by apply list_elem_of_lookup_total_2. }
  assert (Forall (fun i => spec_state s i <> FREE) (seq 0 (capacity s))
          <-> forall i, (i < capacity s)%nat -> spec_state s i <> FREE) as Hall.
  { rewrite Forall_seq. split; intros Hf i; [intros; apply Hf; lia|intros []; apply Hf; lia]. }
  destruct r as [[tok|]|[]]; simpl in H; try done.
  - destruct H as (_ & Hp & _ & -> & Hno & slot & Hg & ->). split; [done|].
    rewrite decide_False by (rewrite Hex; intros [i Hl]; by apply (Hno i)).
    pose proof Hg as [Hlt Hnone Hroom _ Eg (_ & Eb & _)].
    assert (spec_state s slot = FREE) as Hfree.
    { unfold spec_state. rewrite Hnone. destruct (Z.leb_spec (max_generation s) (generations s !!! slot)); [lia|done]. }
    rewrite decide_False by (rewrite Hall; intros Hf; by apply (Hf slot)).
    exists slot. split_and!; auto. do 2 f_equal. unfold _encode. rewrite Eb, Eg.
    by rewrite list_lookup_total_insert_eq by (by rewrite (ok_generations _ (proj1 Hok))).
  - destruct H as (Hp & Hc & H). split; [done|]. destruct (corrupted s); [done|].
    destruct H as [?|[Hno Hf]]; [done|]. rewrite decide_False by (rewrite Hex; intros [i Hl]; by apply (Hno i)).
    by rewrite decide_True by (by apply Hall).
  - lia.
  - destruct H as (Hp & Hc & -> & Hl). split; [done|]. by rewrite decide_True by (by apply Hex).
Qed.

(** A release can be cut by any number of asynchronous exceptions, at any
    store: the pool stays consistent and the owner is either still rooted or
    completely out.  Retried without interruption it returns [True] and the
    owner has no slot, every other owner keeps its slot, and no generation
    moved, so every other token stays valid. *)
Theorem release_retry s owner k r k' s1 :
  pool_ok s -> release_for owner k s = (r, k', s1) ->
  pool_ok s1 /\
  exists s2, run (release_for owner) s1 = (Ok true, s2) /\ pool_ok s2 /\
    generations s2 = generations s /\
    (forall i, ~ live s2 i owner) /\
    (forall i o, o <> owner -> live s2 i o <-> live s i o).
Proof.
  intros Hok E.
  destruct (wp_elim _ _ _ _ _ _ _ _ (release_spec (length k) s owner Hok) (Nat.le_refl _) E)
    as (n' & _ & Hpost).
  assert (release_cut s owner s1) as [Hok1 Hcut].
  { destruct r as [b|e]; simpl in Hpost; [|apply Hpost].
    destruct Hpost as (_ & _ & Hp & _ & [[_ ?]|?]); (split; [done|]); auto. }
  split; [done|]. destruct (run (release_for owner) s1) as [r2 s2] eqn:E2.
  pose proof (run_wp _ _ _ _ _ E2 (release_spec 0 s1 owner Hok1)) as H2.
  destruct r2 as [b|e]; simpl in H2; [|lia]. destruct H2 as (-> & _ & Hok2 & _ & H2).
  exists s2.
  assert (forall a b, pool_ok a -> same_core a b \/ cleared a owner b ->
    generations b = generations a /\ (forall i o, o <> owner -> live b i o <-> live a i o)) as Hframe.
  { intros a b Ha [Hc|[(sl & Hl & Eo) Eg (Ec & _)]].
    - split; [apply Hc|]. intros. by apply same_core_live.
    - split; [done|]. intros i o Hne. unfold live. rewrite Ec, Eo.
      destruct (decide (i = sl)) as [->|]; [|by rewrite list_lookup_total_insert_ne].
      destruct Hl as [Hlt Hl]. rewrite list_lookup_total_insert_eq by (by rewrite (ok_owners _ (proj1 Ha))).
      rewrite Hl. split; intros [_ ?]; congruence. }
  destruct (Hframe _ _ Hok Hcut) as [Eg1 Hl1].
  destruct (Hframe s1 s2 Hok1 ltac:(tauto)) as [Eg2 Hl2].
  split_and!; [done|done|congruence| |].
  - intros i Hl. destruct H2 as [[Hno Hc]|[(sl & Hlsl & Eo) _ (Ec & _)]].
    + apply (Hno i). by rewrite <- (same_core_live s1 s2).
    + unfold live in Hl. rewrite Ec, Eo in Hl. destruct Hl as [Hlt Hl].
      destruct (decide (i = sl)) as [->|Hne].
      * by rewrite list_lookup_total_insert_eq in Hl by (by rewrite (ok_owners _ (proj1 Hok1))).
      * rewrite list_lookup_total_insert_ne in Hl by done. apply Hne.
        eapply (ok_one_slot _ (proj1 Hok1)); [|exact Hlsl]. by split.
  - intros i o Hne. rewrite Hl2, Hl1 by done. done.
Qed.

(** ** The reusable token search *)

(** The candidates the loop visits, in order: [start], ..., [_MAX_TOKEN], 1, ... *)
Definition next_candidate (c : Z) : Z := if _MAX_TOKEN <? c + 1 then 1 else c + 1.

(** The [k]-th candidate after [start] *)
Definition candidate (start : Z) (k : nat) : Z := (start - 1 + Z.of_nat k) mod _MAX_TOKEN + 1.

Lemma max_token_pos : 0 < _MAX_TOKEN.
Proof. done. Qed.

Lemma candidate_next start k : next_candidate (candidate start k) = candidate start (S k).
Proof.
  unfold next_candidate, candidate. pose proof max_token_pos.
  set (x := start - 1 + Z.of_nat k). replace (start - 1 + Z.of_nat (S k)) with (x + 1) by lia.
  pose proof (Z.mod_pos_bound x _MAX_TOKEN max_token_pos).
  rewrite <- (Z.add_mod_idemp_l x 1) by lia.
  destruct (Z.ltb_spec _MAX_TOKEN (x mod _MAX_TOKEN + 1 + 1)) as [Hlt|Hge].
  - replace (x mod _MAX_TOKEN + 1) with _MAX_TOKEN by lia. by rewrite Z.mod_same by lia.
  - rewrite (Z.mod_small (x mod _MAX_TOKEN + 1)) by lia. lia.
Qed.

Lemma candidate_range start k : 1 <= candidate start k <= _MAX_TOKEN.
Proof. unfold candidate. pose proof (Z.mod_pos_bound (start - 1 + Z.of_nat k) _MAX_TOKEN max_token_pos). lia. Qed.

Lemma candidate_inj start i j :
  (i <= j)%nat -> Z.of_nat (j - i) < _MAX_TOKEN -> candidate start i = candidate start j -> i = j.
Proof.
  unfold candidate. intros Hij Hd E. pose proof max_token_pos.
  assert ((start - 1 + Z.of_nat i) mod _MAX_TOKEN = (start - 1 + Z.of_nat j) mod _MAX_TOKEN) as E' by lia.
  pose proof (Z.div_mod (start - 1 + Z.of_nat i) _MAX_TOKEN ltac:(lia)) as Ei.
  pose proof (Z.div_mod (start - 1 + Z.of_nat j) _MAX_TOKEN ltac:(lia)) as Ej.
  rewrite E' in Ei. generalize dependent _MAX_TOKEN. intros m **.
  assert (m * ((start - 1 + Z.of_nat j) `div` m - (start - 1 + Z.of_nat i) `div` m) = Z.of_nat j - Z.of_nat i) by lia.
  assert ((start - 1 + Z.of_nat j) `div` m - (start - 1 + Z.of_nat i) `div` m = 0) by nia. nia.
Qed.

Lemma candidate_start start : 1 <= start <= _MAX_TOKEN -> candidate start 0 = start.
Proof. intros H. unfold candidate. rewrite Z.mod_small by lia. lia. Qed.

(** The occupied candidates before the [k]-th are distinct members. *)
Lemma candidates_bound start (occupied : gset Z) k :
  Z.of_nat k <= _MAX_TOKEN -> (forall i, (i < k)%nat -> candidate start i ∈ occupied) ->
  (k <= size occupied)%nat.
Proof.
  intros Hk Hin. set (l := candidate start <$> seq 0 k).
  assert (NoDup l) as Hnd.
  { apply NoDup_fmap_2_strong; [|apply NoDup_seq]. intros i j Hi Hj E.
    apply elem_of_seq in Hi, Hj. destruct (decide (i <= j)%nat).
    - apply (candidate_inj start); [done|lia|done].
    - symmetry. apply (candidate_inj start); [lia|lia|done]. }
  assert (length l = k) as El by (unfold l; by rewrite length_fmap, length_seq).
  rewrite <- El, <- (size_list_to_set (C := gset Z) l) by done. apply subseteq_size. intros x.
  rewrite elem_of_list_to_set. unfold l. rewrite list_elem_of_fmap. intros (i & -> & Hi%elem_of_seq). apply Hin. lia.
Qed.

(** What the loop returns from its [k]-th candidate on *)
Lemma reusable_loop_total start occupied fuel k :
  1 <= start <= _MAX_TOKEN -> Z.of_nat k < _MAX_TOKEN ->
  (forall i, (i < k)%nat -> candidate start i ∈ occupied) -> (S (size occupied) <= fuel + k)%nat ->
  match reusable_loop fuel start (candidate start k) occupied with
  | None => False
  | Some None => forall t, 1 <= t <= _MAX_TOKEN -> t ∈ occupied
  | Some (Some t) => exists j, t = candidate start j /\ (t ∉ occupied) /\
      forall i, (i < j)%nat -> candidate start i ∈ occupied
  end.
Proof.
  intros Hs. revert k. induction fuel as [|fuel IH]; intros k Hk Hin Hfuel; simpl.
  - pose proof (candidates_bound start occupied k ltac:(lia) Hin). lia.
  - case_bool_decide as Hocc; [|by exists k].
    assert (forall i, (i < S k)%nat -> candidate start i ∈ occupied) as Hin'.
    { intros i Hi. destruct (decide (i = k)) as [->|]; [done|]. apply Hin. lia. }
    fold (next_candidate (candidate start k)). rewrite candidate_next.
    destruct (Z.eqb_spec (candidate start (S k)) start) as [E|E].
    + intros t Ht. assert (Z.of_nat (S k) = _MAX_TOKEN) as Emax.
      { destruct (decide (Z.of_nat (S k) < _MAX_TOKEN)) as [Hlt|]; [|lia]. exfalso.
        rewrite <- (candidate_start start Hs) in E at 2.
        pose proof (candidate_inj start 0 (S k) ltac:(lia) ltac:(lia) (eq_sym E)). lia. }
      replace t with (candidate start (Z.to_nat ((t - start) mod _MAX_TOKEN))).
      * apply Hin'. pose proof (Z.mod_pos_bound (t - start) _MAX_TOKEN max_token_pos). lia.
      * unfold candidate. pose proof (Z.mod_pos_bound (t - start) _MAX_TOKEN max_token_pos).
        rewrite Z2Nat.id, Z.add_mod_idemp_r by lia.
        replace (start - 1 + (t - start)) with (t - 1) by lia. rewrite Z.mod_small; lia.
    + apply IH; [|done|lia].
      destruct (decide (Z.of_nat (S k) < _MAX_TOKEN)) as [Hlt|]; [done|]. exfalso. apply E.
      unfold candidate. replace (start - 1 + Z.of_nat (S k)) with (start - 1 + 1 * _MAX_TOKEN) by lia.
      rewrite Z.mod_add, Z.mod_small by lia. lia.
Qed.

(** The reusable token search terminates within one step per occupied token
    and returns the first token in the cyclic order after [current] that is not
    occupied, a positive 63-bit integer; it answers [None] only when every
    token of the namespace is occupied. *)
Theorem next_reusable_token_first current occupied :
  reusable_loop (S (size occupied)) (reusable_start current) (reusable_start current) occupied <> None /\
  match next_reusable_token current occupied with
  | None => forall t, 1 <= t <= _MAX_TOKEN -> t ∈ occupied
  | Some t => 1 <= t <= _MAX_TOKEN /\ (t ∉ occupied) /\
      exists j, t = candidate (reusable_start current) j /\
        forall i, (i < j)%nat -> candidate (reusable_start current) i ∈ occupied
  end.
Proof.
  assert (1 <= reusable_start current <= _MAX_TOKEN) as Hs.
  { unfold reusable_start. pose proof max_token_pos.
    destruct ((current <? 0) || (_MAX_TOKEN <? current)) eqn:E.
    - destruct (Z.ltb_spec _MAX_TOKEN (0 + 1)); lia.
    - apply orb_false_iff in E as [E1%Z.ltb_ge E2%Z.ltb_ge].
      destruct (Z.ltb_spec _MAX_TOKEN (current + 1)); lia. }
  pose proof (reusable_loop_total (reusable_start current) occupied (S (size occupied)) 0 Hs) as H.
  rewrite candidate_start in H by done. specialize (H max_token_pos ltac:(lia) ltac:(lia)).
  unfold next_reusable_token. destruct (reusable_loop _ _ _ _) as [[t|]|]; simpl; [|done|done].
  destruct H as (j & -> & Hno & Hin). split; [done|]. split_and!; [apply candidate_range..|done|].
  by exists j.
Qed.

(** ** Witnesses *)

Definition ex_a : obj := Obj 1 100.
Definition ex_b : obj := Obj 2 200.

(** A pool of one slot, after [ex_a] was admitted and released once *)
Definition ex_pool0 : pool := match init 1 with Ok s => s | Err _ => Pool 0 0 0 0 0 [] [] [] ∅ [] 0 0 0 0 false false end.
Definition ex_pool1 : pool := snd (run (acquire_for (Some ex_a)) ex_pool0).
Definition ex_pool2 : pool := snd (run (release_for ex_a) ex_pool1).

Lemma ex_no_owner s : (capacity s = 1)%nat -> owners s = [None] -> forall o, addr_fresh s o.
Proof. intros Ec Eo o i o' [Hi E]. rewrite Eo, Ec in *. by destruct i; [|lia]. Qed.

Lemma ex_pool0_ok : pool_ok ex_pool0.
Proof. by apply (init_ok 1). Qed.

Lemma ex_history : rtc pool_step ex_pool0 ex_pool2.
Proof.
  eapply rtc_l; [|eapply rtc_l; [|apply rtc_refl]].
  - eapply (step_acquire _ ex_pool1 ex_a []); [by apply ex_no_owner|simpl; lia|by vm_compute].
  - eapply (step_release _ _ ex_a []). by vm_compute.
Qed.


Lemma snapshot_exact_witness :
  exists snap s', run snapshot ex_pool2 = (Ok snap, s') /\ snap_active snap = 0 /\
    snap_active snap + snap_available snap + snap_retired snap = 1.
Proof.
  destruct (snapshot_exact 1 ex_pool0 ex_pool2) as (snap & s' & E & _ & _ & Ha & _ & Hsum).
  - reflexivity.
  - lia.
  - exact ex_history.
  - exists snap, s'. split_and!; [exact E|exact Ha|exact Hsum].
Defined.

Lemma acquire_outcome_witness :
  fst (run (acquire_for (Some ex_b)) ex_pool0) = Ok (Some 2) /\
  let '(r, s') := run (acquire_for (Some ex_b)) ex_pool0 in pool_ok s'.
Proof.
  split; [vm_compute; reflexivity|].
  pose proof (acquire_outcome ex_pool0 ex_b ex_pool0_ok (ex_no_owner ex_pool0 eq_refl eq_refl ex_b)) as H.
  destruct (run (acquire_for (Some ex_b)) ex_pool0) as [r s']. exact (proj1 H).
Defined.

Lemma ex_pool1_ok : pool_ok ex_pool1.
Proof.
  eapply (history_ok ex_pool0); [apply ex_pool0_ok|]. eapply rtc_l; [|apply rtc_refl].
  eapply (step_acquire _ ex_pool1 ex_a []); [by apply ex_no_owner|simpl; lia|by vm_compute].
Qed.

(** A release cut after its second store and again in its recovery *)
Lemma release_retry_witness :
  exists s1, release_for ex_a [2; 0]%nat ex_pool1 = (Err AsyncInterrupt, [], s1) /\
    owners s1 = [Some ex_a] /\
    exists s2, run (release_for ex_a) s1 = (Ok true, s2) /\ forall i, ~ live s2 i ex_a.
Proof.
  set (x := release_for ex_a [2; 0]%nat ex_pool1).
  destruct (release_retry ex_pool1 ex_a [2; 0]%nat (Err AsyncInterrupt) [] x.2 ex_pool1_ok) as (_ & s2 & E & _ & _ & H & _).
  - vm_compute. reflexivity.
  - exists x.2. split; [vm_compute; reflexivity|]. split; [vm_compute; reflexivity|].
    exists s2. split; [exact E|exact H].
Defined.

(** The exception handler of [acquire_for] does not survive a second
    asynchronous exception.  On a one-slot pool whose token 2 was issued to
    [ex_a] and released, an acquisition for [ex_b] that is cut before its
    generation store, and cut again in the handler, leaves [ex_b] rooted under
    the old generation: the stale token 2 now resolves to [ex_b]. *)
Theorem double_interruption_revives_token :
  fst (run (acquire_for (Some ex_a)) ex_pool0) = Ok (Some 2) /\
  owner_for ex_pool2 2 = None /\
  let '(r, _, s') := acquire_for (Some ex_b) [4; 0]%nat ex_pool2 in
  r = Err AsyncInterrupt /\ owner_for s' 2 = Some ex_b.
Proof. vm_compute. by split_and!. Qed.
