(* ===== verification/DiagnosticEpoch.v ===== *)
(** * The diagnostic seqlock epoch

    Models [src/schema_sanitizer/core_impl/diagnostic_epoch.py] and the reader
    loop of [core_impl/runtime_diagnostics.py]: writers advance a process-wide
    epoch, readers accept a capture only between two equal even epochs.  Every
    store is an interruption point, because the module promises never to raise. *)

From S2P Require Import Prelude.

Local Open Scope Z_scope.

Definition _MAX_EPOCH : Z := Z.shiftl 1 63 - 2.

(** The module globals, with the process id [os.getpid()] returns.  The lock is
    taken for each operation as a whole, so operations do not interleave. *)
Record diag : Type := Diag {
  getpid : Z;
  _PID : Z;
  _EPOCH : Z;
  _ACTIVE_WRITERS : Z
}.

Definition set_PID v (s : diag) : diag := Diag (getpid s) v (_EPOCH s) (_ACTIVE_WRITERS s).
Definition set_EPOCH v (s : diag) : diag := Diag (getpid s) (_PID s) v (_ACTIVE_WRITERS s).
Definition set_WRITERS v (s : diag) : diag := Diag (getpid s) (_PID s) (_EPOCH s) v.

(** [_LOCK = threading.Lock()] is the first point. *)
Definition _ensure_process : M diag unit :=
  reads (fun s => bool_decide (getpid s = _PID s)) ≫= fun same =>
  whenM (negb same)
    (tick ≫= fun _ =>
     store (fun s => set_PID (getpid s) s) ≫= fun _ =>
     store (set_EPOCH 0) ≫= fun _ =>
     store (set_WRITERS 0)).

(** [with _LOCK:] is a point, and so is each [return]. *)
Definition diagnostic_transition : M diag Z :=
  try_except
    (_ensure_process ≫= fun _ =>
     tick ≫= fun _ =>
     reads _EPOCH ≫= fun current =>
     (if current <=? _MAX_EPOCH - 2
      then try_except (store (set_EPOCH (current + 2))) (fun _ => store (set_EPOCH _MAX_EPOCH))
      else store (set_EPOCH _MAX_EPOCH)) ≫= fun _ =>
     tick ≫= fun _ => reads _EPOCH)
    (fun _ => tick ≫= fun _ => reads _EPOCH).

Definition diagnostic_write_begin : M diag Z :=
  try_except
    (_ensure_process ≫= fun _ =>
     tick ≫= fun _ =>
     reads (fun s => (_EPOCH s, _ACTIVE_WRITERS s)) ≫= fun '(current, writers) =>
     try_except
       (store (set_EPOCH (Z.min _MAX_EPOCH (current + (if writers =? 0 then 1 else 2)))) ≫= fun _ =>
        store (set_WRITERS (Z.min _MAX_EPOCH (writers + 1))))
       (fun _ => store (set_EPOCH _MAX_EPOCH)) ≫= fun _ =>
     tick ≫= fun _ => reads _EPOCH)
    (fun _ => tick ≫= fun _ => reads _EPOCH).

Definition diagnostic_write_end : M diag Z :=
  try_except
    (_ensure_process ≫= fun _ =>
     tick ≫= fun _ =>
     reads _ACTIVE_WRITERS ≫= fun writers =>
     if writers <=? 0 then tick ≫= fun _ => reads _EPOCH
     else
       let writers := writers - 1 in
       store (set_WRITERS writers) ≫= fun _ =>
       reads _EPOCH ≫= fun current =>
       try_except (store (set_EPOCH (Z.min _MAX_EPOCH (current + (if writers =? 0 then 1 else 2)))))
         (fun _ => store (set_EPOCH _MAX_EPOCH)) ≫= fun _ =>
       tick ≫= fun _ => reads _EPOCH)
    (fun _ => tick ≫= fun _ => reads _EPOCH).

Definition diagnostic_epoch : M diag Z :=
  try_except
    (_ensure_process ≫= fun _ =>
     tick ≫= fun _ =>
     tick ≫= fun _ => reads _EPOCH)
    (fun _ => tick ≫= fun _ => ret 0).

(** [with diagnostic_write(): body], with the [finally] of the generator *)
Definition diagnostic_write {A} (body : M diag A) : M diag A :=
  diagnostic_write_begin ≫= fun _ =>
  try_except (body ≫= fun a => diagnostic_write_end ≫= fun _ => ret a)
    (fun e => diagnostic_write_end ≫= fun _ => raise e).

(** ** The reader

    [concurrency_runtime_debug_snapshot] reads the epoch and captures in turns
    while other threads move on: [epoch_at] and [capture_at] are what it sees
    at its successive observation times.  The loop makes [attempts] more
    captures; the result is [consistent], the capture kept and the final epoch. *)
Section Reader.
Context {A : Type} `{EqDecision A} (epoch_at : nat -> Z) (capture_at : nat -> A).

Fixpoint capture_loop (attempts : nat) (time : nat) (first_epoch : Z) (first : A) : bool * A * Z :=
  match attempts with
  | O => (false, first, first_epoch)
  | S attempts =>
      let second := capture_at time in
      let final_epoch := epoch_at (S time) in
      if negb (Z.odd first_epoch) && (first_epoch =? final_epoch) && bool_decide (first = second)
      then (true, second, final_epoch)
      else capture_loop attempts (S (S time)) final_epoch second
  end.

Definition debug_capture : bool * A * Z := capture_loop 3 2 (epoch_at 0) (capture_at 1).
End Reader.

(** ** Never raises, never goes back *)

(** The epoch and the writers are in range, and the process is the one that
    initialized the module. *)
Record diag_ok (s : diag) : Prop := {
  ok_pid : getpid s = _PID s;
  ok_epoch : 0 <= _EPOCH s <= _MAX_EPOCH;
  ok_writers : 0 <= _ACTIVE_WRITERS s <= _MAX_EPOCH
}.

(** Symbolic execution of an operation with every interruption *)
Ltac diag_run :=
  repeat first
    [ wp_step
    | match goal with |- wp _ (if ?b then _ else _) _ _ => destruct b eqn:? end
    | match goal with |- wp _ (let _ := _ in _) _ _ => cbv zeta end ].

Lemma ensure_process_spec n s (Q : result unit -> nat -> diag -> Prop) :
  diag_ok s -> Q (Ok tt) n s -> wp n _ensure_process Q s.
Proof.
  intros [Hp _ _] HQ. unfold _ensure_process. wp_step. wp_step. rewrite bool_decide_eq_true_2 by done. simpl.
  by apply wp_ret.
Qed.

(** What an operation does with at most [n] interruptions: it returns when
    there is at most one, and the epoch stays in range and does not decrease. *)
Definition advances (m : M diag Z) : Prop :=
  forall n s, diag_ok s -> wp n m (fun r _ s' => ((n <= 1)%nat -> is_ok r = true) /\ diag_ok s' /\ _EPOCH s <= _EPOCH s') s.

Ltac diag_close :=
  repeat match goal with H : diag_ok _ |- _ => destruct H end;
  repeat match goal with H : (_ <=? _) = _ |- _ => rewrite ?Z.leb_le, ?Z.leb_gt in H end;
  repeat match goal with H : (_ =? _) = _ |- _ => rewrite ?Z.eqb_eq, ?Z.eqb_neq in H end;
  repeat split; simpl in *; intros; try done; try case_match; lia.

Lemma transition_advances : advances diagnostic_transition.
Proof.
  intros n s Hs. unfold diagnostic_transition. wp_step. wp_step. apply ensure_process_spec; [done|]. diag_run.
  all: diag_close.
Qed.

Lemma begin_advances : advances diagnostic_write_begin.
Proof.
  intros n s Hs. unfold diagnostic_write_begin. wp_step. wp_step. apply ensure_process_spec; [done|]. diag_run.
  all: diag_close.
Qed.

Lemma end_advances : advances diagnostic_write_end.
Proof.
  intros n s Hs. unfold diagnostic_write_end. wp_step. wp_step. apply ensure_process_spec; [done|]. diag_run.
  all: diag_close.
Qed.

Lemma epoch_advances : advances diagnostic_epoch.
Proof.
  intros n s Hs. unfold diagnostic_epoch. wp_step. wp_step. apply ensure_process_spec; [done|]. diag_run.
  all: diag_close.
Qed.

(** ** Uninterrupted operations *)

Inductive op : Type := Transition | Begin | End | Read.

Definition op_code (o : op) : M diag Z :=
  match o with
  | Transition => diagnostic_transition
  | Begin => diagnostic_write_begin
  | End => diagnostic_write_end
  | Read => diagnostic_epoch
  end.

(** The state after an uninterrupted operation *)
Definition after (s : diag) (o : op) : diag := (run (op_code o) s).2.

(** An operation that publishes *)
Definition publishes (s : diag) (o : op) : Prop :=
  match o with Transition | Begin => True | End => 0 < _ACTIVE_WRITERS s | Read => False end.

(** Below saturation the epoch is odd exactly while a writer is active. *)
Definition parity (s : diag) : Prop :=
  _EPOCH s < _MAX_EPOCH -> (Z.odd (_EPOCH s) = true <-> 0 < _ACTIVE_WRITERS s).

Ltac diag_exact :=
  unfold diagnostic_transition, diagnostic_write_begin, diagnostic_write_end, diagnostic_epoch;
  wp_step; wp_step; (apply ensure_process_spec; [done|]); diag_run; try no_budget.

(** The exact effect of each operation *)
Lemma after_spec s o :
  diag_ok s ->
  after s o =
    match o with
    | Transition => set_EPOCH (if _EPOCH s <=? _MAX_EPOCH - 2 then _EPOCH s + 2 else _MAX_EPOCH) s
    | Begin => set_WRITERS (Z.min _MAX_EPOCH (_ACTIVE_WRITERS s + 1))
                 (set_EPOCH (Z.min _MAX_EPOCH (_EPOCH s + if _ACTIVE_WRITERS s =? 0 then 1 else 2)) s)
    | End => if _ACTIVE_WRITERS s <=? 0 then s
             else set_EPOCH (Z.min _MAX_EPOCH (_EPOCH s + if _ACTIVE_WRITERS s - 1 =? 0 then 1 else 2))
                    (set_WRITERS (_ACTIVE_WRITERS s - 1) s)
    | Read => s
    end.
Proof.
  intros Hs. unfold after. destruct o; simpl op_code.
  all: apply (wp_run _ (fun _ s' => s' = _)); diag_exact.
  all: try done.
Qed.

Lemma after_ok s o : diag_ok s -> diag_ok (after s o) /\ _EPOCH s <= _EPOCH (after s o).
Proof.
  intros Hs. unfold after. apply (wp_run _ (fun _ s' => diag_ok s' /\ _EPOCH s <= _EPOCH s')).
  assert (advances (op_code o)) as Ha.
  { destruct o; [apply transition_advances|apply begin_advances|apply end_advances|apply epoch_advances]. }
  eapply wp_mono; [by apply (Ha 0%nat)|]. by intros r n' s' _ (_ & H2 & H3).
Qed.

Lemma after_parity s o : diag_ok s -> parity s -> parity (after s o).
Proof.
  intros Hs Hp. rewrite after_spec by done. destruct Hs as [_ He Hw]. unfold parity in *. destruct o; simpl.
  - case_match eqn:E; simpl; [|lia]. apply Z.leb_le in E. rewrite Z.odd_add. simpl. rewrite xorb_false_r. intros. apply Hp. lia.
  - intros Hlt. set (d := if _ACTIVE_WRITERS s =? 0 then 1 else 2) in *.
    assert (Z.min _MAX_EPOCH (_EPOCH s + d) = _EPOCH s + d) as E by lia. assert (1 <= d) by (unfold d; case_match; lia). rewrite E, Z.odd_add.
    assert (_EPOCH s < _MAX_EPOCH) by lia. unfold d.
    destruct (Z.eqb_spec (_ACTIVE_WRITERS s) 0) as [E0|E0]; simpl.
    + destruct (Z.odd (_EPOCH s)) eqn:Eo; simpl; [|split; [lia|done]].
      assert (0 < _ACTIVE_WRITERS s) by (apply Hp; [lia|done]). lia.
    + rewrite xorb_false_r. split; [lia|]. intros _. apply Hp; lia.
  - case_match eqn:E; simpl; [done|]. apply Z.leb_gt in E. intros Hlt.
    set (d := if _ACTIVE_WRITERS s - 1 =? 0 then 1 else 2) in *.
    assert (Z.min _MAX_EPOCH (_EPOCH s + d) = _EPOCH s + d) as Em by lia. assert (1 <= d) by (unfold d; case_match; lia).
    rewrite Em, Z.odd_add. assert (_EPOCH s < _MAX_EPOCH) by lia. unfold d.
    assert (Z.odd (_EPOCH s) = true) as -> by (apply Hp; lia).
    destruct (Z.eqb_spec (_ACTIVE_WRITERS s - 1) 0); simpl; split; done || lia.
  - done.
Qed.

(** Below saturation, publishing changes the epoch. *)
Lemma after_strict s o :
  diag_ok s -> _EPOCH (after s o) < _MAX_EPOCH -> publishes s o -> _EPOCH s < _EPOCH (after s o).
Proof.
  intros Hs. rewrite after_spec by done. destruct Hs as [_ He Hw]. destruct o; simpl; intros Hlt Hpub; [| | |done].
  - case_match; simpl in *; lia.
  - case_match; simpl in *; lia.
  - destruct (_ <=? 0) eqn:E; [apply Z.leb_le in E; lia|]. simpl in *. case_match; lia.
Qed.

Lemma after_silent s o : diag_ok s -> ~ publishes s o -> after s o = s.
Proof.
  intros Hs Hn. rewrite after_spec by done. destruct o; simpl in Hn; try tauto.
  rewrite (proj2 (Z.leb_le _ _)); [done|lia].
Qed.

Definition op_step (s s' : diag) : Prop := exists o, s' = after s o.

(** A history of operations of other threads *)
Definition history : diag -> diag -> Prop := rtc op_step.

Lemma diag_history_ok s s' : diag_ok s -> parity s -> history s s' -> diag_ok s' /\ parity s' /\ _EPOCH s <= _EPOCH s'.
Proof.
  intros Hs Hp H. revert Hs Hp. induction H as [|s s1 s2 [o ->] _ IH]; intros Hs Hp; [split_and!; done || lia|].
  destruct (after_ok s o Hs) as [H1 H2]. destruct (IH H1 (after_parity s o Hs Hp)) as (? & ? & ?). split_and!; [done|done|lia].
Qed.

(** Between two equal epochs below saturation nothing was published. *)
Lemma history_still s s' :
  diag_ok s -> parity s -> history s s' -> _EPOCH s' = _EPOCH s -> _EPOCH s < _MAX_EPOCH -> s' = s.
Proof.
  intros Hs Hp H. revert Hs Hp. induction H as [|s s1 s2 [o ->] Hr IH]; intros Hs Hp E Hlt; [done|].
  destruct (after_ok s o Hs) as [H1 H2]. pose proof (after_parity s o Hs Hp) as Hp1.
  destruct (diag_history_ok _ _ H1 Hp1 Hr) as (_ & _ & H3).
  assert (_EPOCH (after s o) = _EPOCH s) as E1 by lia.
  assert (after s o = s) as Es.
  { apply after_silent; [done|]. intros Hpub. pose proof (after_strict s o Hs ltac:(lia) Hpub). lia. }
  rewrite Es in *. by apply IH.
Qed.

(** Diagnostics never break a commit.  With at most one asynchronous
    exception, wherever it lands, every operation of the module returns, and
    whatever the number of exceptions the epoch stays in range and never goes
    back. *)
Theorem diagnostics_never_raise s o k :
  diag_ok s ->
  let '(r, _, s') := op_code o k s in
  ((length k <= 1)%nat -> is_ok r = true) /\ 0 <= _EPOCH s' <= _MAX_EPOCH /\ _EPOCH s <= _EPOCH s'.
Proof.
  intros Hs. assert (advances (op_code o)) as Ha.
  { destruct o; [apply transition_advances|apply begin_advances|apply end_advances|apply epoch_advances]. }
  specialize (Ha (length k) s Hs k (Nat.le_refl _)). destruct (op_code o k s) as [[r k'] s'].
  destruct Ha as (n' & _ & _ & H1 & [_ H2 _] & H3). done.
Qed.

Section Observed.
Context {A : Type} `{EqDecision A} (h : nat -> diag) (capture_at : nat -> A).
Context (Hok : diag_ok (h 0%nat)) (Hparity : parity (h 0%nat)) (Hsteps : forall t, history (h t) (h (S t))).

Lemma observed_history t d : history (h t) (h (t + d)%nat).
Proof.
  induction d as [|d IH]; [by rewrite Nat.add_0_r|]. rewrite Nat.add_succ_r. etrans; [exact IH|apply Hsteps].
Qed.

Lemma observed_ok t : diag_ok (h t) /\ parity (h t).
Proof. destruct (diag_history_ok _ _ Hok Hparity (observed_history 0 t)) as (? & ? & _). done. Qed.

Lemma observed_still t u d :
  (t <= u <= t + d)%nat -> _EPOCH (h (t + d)%nat) = _EPOCH (h t) -> _EPOCH (h t) < _MAX_EPOCH -> h u = h t.
Proof.
  intros Hu E Hlt. destruct (observed_ok t) as [Ho Hp]. pose proof (observed_history t (u - t)) as H1.
  replace (t + (u - t))%nat with u in H1 by lia. apply history_still; [done..| |done].
  destruct (diag_history_ok _ _ Ho Hp H1) as (Ho' & Hp' & ?).
  pose proof (observed_history u (t + d - u)) as H2. replace (u + (t + d - u))%nat with (t + d)%nat in H2 by lia.
  destruct (diag_history_ok _ _ Ho' Hp' H2) as (_ & _ & ?). lia.
Qed.

Lemma capture_loop_stable attempts time t0 first c final :
  (t0 <= time)%nat -> capture_loop (fun t => _EPOCH (h t)) capture_at attempts (S time) (_EPOCH (h t0)) first = (true, c, final) ->
  final < _MAX_EPOCH ->
  exists t, c = capture_at (S t) /\ final = _EPOCH (h t) /\
    h (S t) = h t /\ h (S (S t)) = h t /\ _ACTIVE_WRITERS (h t) = 0.
Proof.
  revert time t0 first. induction attempts as [|n IH]; intros time t0 first Ht; cbn [capture_loop]; [done|].
  destruct (negb _ && _ && _) eqn:E.
  - intros [= <- <-] Hlt. apply andb_true_iff in E as [[Ho%negb_true_iff He%Z.eqb_eq]%andb_true_iff _].
    assert (forall u, (t0 <= u <= S (S time))%nat -> h u = h t0) as Hst.
    { intros u Hu. apply (observed_still t0 u (S (S time) - t0)); [lia| |lia].
      replace (t0 + (S (S time) - t0))%nat with (S (S time)) by lia. lia. }
    exists time. rewrite !(Hst (S time)), !(Hst (S (S time))), !(Hst time) by lia. split_and!; [done..|].
    destruct (observed_ok t0) as [[_ _ Hw] Hp].
    assert (~ 0 < _ACTIVE_WRITERS (h t0)); [|lia]. intros Hpos. apply Hp in Hpos; [|lia]. congruence.
  - apply IH. lia.
Qed.
End Observed.

(** C30: an accepted capture is stable.  If the reader loop reports a consistent
    capture below saturation, the published state did not change from the
    observation before the capture it returns to the epoch read after it, and
    no writer was active. *)
Theorem accepted_capture_stable {A} `{EqDecision A} (h : nat -> diag) (capture_at : nat -> A) c final :
  diag_ok (h 0%nat) -> parity (h 0%nat) -> (forall t, history (h t) (h (S t))) ->
  debug_capture (fun t => _EPOCH (h t)) capture_at = (true, c, final) -> final < _MAX_EPOCH ->
  exists t, c = capture_at (S t) /\ final = _EPOCH (h t) /\
    h (S t) = h t /\ h (S (S t)) = h t /\ _ACTIVE_WRITERS (h t) = 0.
Proof.
  intros Hok Hp Hs. unfold debug_capture. apply (capture_loop_stable h capture_at Hok Hp Hs 3 1 0). lia.
Qed.

(** At saturation the seqlock no longer shows writers.  A writer that
    begins when the epoch is already the largest one leaves it there, and that
    value is even, so a reader accepts a capture taken while the writer works. *)
Theorem saturated_writer_invisible :
  exists s, diag_ok s /\ parity s /\ 0 < _ACTIVE_WRITERS (after s Begin) /\ Z.odd (_EPOCH (after s Begin)) = false /\
    debug_capture (fun _ => _EPOCH (after s Begin)) (fun _ => tt) = (true, tt, _MAX_EPOCH).
Proof.
  exists (Diag 1 1 _MAX_EPOCH 0). split_and!; [by split; vm_compute|by vm_compute|by vm_compute..].
Qed.

(** ** Witnesses *)

Definition ex_diag : diag := Diag 7 7 4 0.

Lemma ex_diag_ok : diag_ok ex_diag /\ parity ex_diag.
Proof. split; [by split; vm_compute|]. intros _. by split. Qed.

Lemma diagnostics_never_raise_witness :
  let '(r, _, s') := op_code Begin [1%nat] ex_diag in r = Ok _MAX_EPOCH /\ _EPOCH s' = _MAX_EPOCH.
Proof.
  pose proof (diagnostics_never_raise ex_diag Begin [1%nat] (proj1 ex_diag_ok)) as H.
  vm_compute in H |- *. destruct H as [_ _]. by split.
Defined.

Lemma accepted_capture_stable_witness :
  debug_capture (fun _ => _EPOCH ex_diag) (fun _ => tt) = (true, tt, 4) /\
  exists t : nat, _ACTIVE_WRITERS ((fun _ : nat => ex_diag) t) = 0.
Proof.
  split; [reflexivity|]. destruct (accepted_capture_stable (fun _ => ex_diag) (fun _ => tt) tt 4) as (t & _ & _ & _ & _ & H).
  - apply ex_diag_ok.
  - apply ex_diag_ok.
  - intros _. apply rtc_refl.
  - reflexivity.
  - reflexivity.
  - exists t. exact H.
Defined.
