(* ===== verification/AtomicEpoch.v ===== *)
(** * Saturating 64-bit epochs

    Models [src/schema_sanitizer/core_impl/atomic_epoch.py] and the native
    counter behind it, the [py_atomic_epoch_*] functions of
    [cpp/src/api/python_abi3/options/prepare.cc]: the sequential effect of each
    call, the interleaving of the compare-and-exchange loops of several threads,
    and the paired counter and marker commit under asynchronous exceptions. *)

From S2P Require Import Prelude.

Local Open Scope Z_scope.

Definition _MAX_U64 : Z := Z.shiftl 1 64 - 1.

(** ** Bytes *)

(** The loop [for shift in range(0, 64, 8)] *)
Definition le_bytes (value : Z) : list Z :=
  (fun i => Z.land (Z.shiftr value (8 * Z.of_nat i)) 255) <$> seq 0 8.

Definition le_decode (bs : list Z) : Z := foldr (fun b acc => b + 256 * acc) 0 bs.

(** [target[offset] = byte] on a [bytearray]: negative offsets count from the
    end. *)
Definition set_byte (target : list Z) (offset byte : Z) : result (list Z) :=
  let n := Z.of_nat (length target) in
  if (- n <=? offset) && (offset <? 0) then Ok (<[Z.to_nat (n + offset) := byte]> target)
  else if (0 <=? offset) && (offset <? n) then Ok (<[Z.to_nat offset := byte]> target)
  else Err IndexError.

(** ** The native counter *)

Module Native.
(** A capsule resolves to its counter; the state of the counter is its value. *)
Definition create : Z := 0.

Definition increment (value : Z) : bool * Z :=
  if value =? _MAX_U64 then (false, value) else (true, value + 1).

Definition decrement (value : Z) : bool * Z :=
  if value =? 0 then (false, value) else (true, value - 1).

Definition kPending : Z := 1.
Definition kRecorded : Z := 2.

(** The result, the counter and the markers; the commit is one native call. *)
Definition increment_marked (value : Z) (markers : list Z) (index : Z) : result (bool * Z * list Z) :=
  if (index <? 0) || (Z.of_nat (length markers) <=? index) then Err ValueError
  else
    let marker := markers !!! Z.to_nat index in
    if marker =? kRecorded then Ok (true, value, markers)
    else if negb (marker =? kPending) then Ok (false, value, markers)
    else Ok (true, if value =? _MAX_U64 then value else value + 1, <[Z.to_nat index := kRecorded]> markers).

Definition write_le (value : Z) (target : list Z) (offset : Z) : result (list Z) :=
  let size := Z.of_nat (length target) in
  if (offset <? 0) || (size <? offset) || (size - offset <? 8) then Err ValueError
  else Ok (foldl (fun t '(i, b) => <[(Z.to_nat offset + i)%nat := b]> t) target (imap pair (le_bytes value))).

(** [PyLong_AsUnsignedLongLong] fails outside the range. *)
Definition set_exact (value new : Z) : result Z :=
  if (new <? 0) || (_MAX_U64 <? new) then Err OverflowError else Ok new.

(** ** The compare-and-exchange loops of several threads *)

Inductive call : Type := Increment | Decrement.

(** Where a thread is: before its load, in the loop with the value it last
    saw, or returned *)
Inductive thread : Type :=
| Start (c : call)
| Loop (c : call) (current : Z)
| Done (c : call) (r : bool).

#[export] Instance thread_inhabited : Inhabited thread := populate (Start Increment).

Definition limit (c : call) : Z := match c with Increment => _MAX_U64 | Decrement => 0 end.
Definition next (c : call) (v : Z) : Z := match c with Increment => v + 1 | Decrement => v - 1 end.

(** One atomic step of one thread on the shared value.  The weak exchange may
    fail although the value is the expected one. *)
Inductive thread_step : Z * thread -> Z * thread -> Prop :=
| step_load v c : thread_step (v, Start c) (v, Loop c v)
| step_saturated v c : thread_step (v, Loop c (limit c)) (v, Done c false)
| step_exchange v c : v <> limit c -> thread_step (v, Loop c v) (next c v, Done c true)
| step_retry v c current : current <> limit c -> thread_step (v, Loop c current) (v, Loop c v).

Inductive step : Z * list thread -> Z * list thread -> Prop :=
| step_thread i v t v' t' ts :
    ts !! i = Some t -> thread_step (v, t) (v', t') -> step (v, ts) (v', <[i := t']> ts).
End Native.

(** ** The Python counter *)

(** [capsule] holds the native counter when the native calls are available;
    locks are numbered in the order of their creation.  [markers] are the
    commit markers of the callers. *)
Record epoch : Type := Epoch {
  capsule : option Z;
  value_ : Z;
  lock : nat;
  fork_locks : list nat;
  fork_lock_index : nat;
  next_lock : nat;
  markers : list Z
}.

Definition set_capsule v (s : epoch) : epoch :=
  Epoch v (value_ s) (lock s) (fork_locks s) (fork_lock_index s) (next_lock s) (markers s).
Definition set_value v (s : epoch) : epoch :=
  Epoch (capsule s) v (lock s) (fork_locks s) (fork_lock_index s) (next_lock s) (markers s).
Definition set_lock v (s : epoch) : epoch :=
  Epoch (capsule s) (value_ s) v (fork_locks s) (fork_lock_index s) (next_lock s) (markers s).
Definition set_fork_locks v n (s : epoch) : epoch :=
  Epoch (capsule s) (value_ s) (lock s) v (fork_lock_index s) n (markers s).
Definition set_fork_lock_index v (s : epoch) : epoch :=
  Epoch (capsule s) (value_ s) (lock s) (fork_locks s) v (next_lock s) (markers s).
Definition set_markers v (s : epoch) : epoch :=
  Epoch (capsule s) (value_ s) (lock s) (fork_locks s) (fork_lock_index s) (next_lock s) v.

(** [__init__] where the native calls are all there, or one is missing *)
Definition init (native : bool) (ms : list Z) : epoch :=
  Epoch (if native then Some Native.create else None) 0 0 [0; 1; 2]%nat 0 3 ms.

(** A native call on the capsule: signals are seen before and after it. *)
Definition native_call {A} (f : Z -> A * Z) (v : Z) : M epoch A :=
  tick ≫= fun _ =>
  modify (fun s => set_capsule (Some (f v).2) s) ≫= fun _ =>
  tick ≫= fun _ => ret (f v).1.

Definition increment : M epoch bool :=
  reads capsule ≫= fun c =>
  match c with
  | Some v => try_except (native_call Native.increment v) (fun _ => ret false)
  | None =>
      tick ≫= fun _ =>
      reads value_ ≫= fun v =>
      if _MAX_U64 <=? v then ret false
      else store (set_value (v + 1)) ≫= fun _ => tick ≫= fun _ => ret true
  end.

Definition decrement : M epoch bool :=
  reads capsule ≫= fun c =>
  match c with
  | Some v => try_except (native_call Native.decrement v) (fun _ => ret false)
  | None =>
      tick ≫= fun _ =>
      reads value_ ≫= fun v =>
      if v <=? 0 then ret false
      else store (set_value (v - 1)) ≫= fun _ => tick ≫= fun _ => ret true
  end.

(** [markers] is a [bytearray] and [index] an exact integer. *)
Definition increment_marked (index : Z) : M epoch bool :=
  reads (fun s => (index <? 0) || (Z.of_nat (length (markers s)) <=? index)) ≫= fun invalid =>
  if invalid : bool then raise ValueError
  else
    reads capsule ≫= fun c =>
    match c with
    | None => ret false
    | Some v =>
        suppress
          (tick ≫= fun _ =>
           reads (fun s => Native.increment_marked v (markers s) index) ≫= fun r =>
           match r with
           | Err e => raise e
           | Ok (_, v', ms) => modify (fun s => set_markers ms (set_capsule (Some v') s)) ≫= fun _ => tick
           end) ≫= fun _ =>
        tick ≫= fun _ =>
        reads (fun s => markers s !!! Z.to_nat index =? Native.kRecorded)
    end.

Definition value : M epoch Z := reads (fun s => match capsule s with Some v => v | None => value_ s end).

(** [target[offset] = ...; offset += 1] for the eight bytes; an interruption
    leaves the bytes written so far. *)
Fixpoint write_bytes (bs : list Z) (offset : Z) : M (list Z) unit :=
  match bs with
  | [] => ret tt
  | b :: bs =>
      tick ≫= fun _ =>
      reads (fun target => set_byte target offset b) ≫= fun r =>
      match r with
      | Err e => raise e
      | Ok target => modify (fun _ => target) ≫= fun _ => write_bytes bs (offset + 1)
      end
  end.

(** The state is the target buffer. *)
Definition write_into (s : epoch) (offset : Z) : M (list Z) unit :=
  match capsule s with
  | Some v =>
      reads (fun target => Native.write_le v target offset) ≫= fun r =>
      match r with Err e => raise e | Ok target => modify (fun _ => target) end
  | None => write_bytes (le_bytes (value_ s)) offset
  end.

Definition set_exact (new : Z) : M epoch bool :=
  if (new <? 0) || (_MAX_U64 <? new) then raise ValueError
  else
    reads capsule ≫= fun c =>
    match c with
    | Some v =>
        try_except
          (tick ≫= fun _ =>
           match Native.set_exact v new with
           | Err e => raise e
           | Ok v' => modify (set_capsule (Some v')) ≫= fun _ => tick ≫= fun _ => ret true
           end) (fun _ => ret false)
    | None => store (set_value new) ≫= fun _ => ret true
    end.

Definition reset_after_fork : M epoch bool :=
  reads (fun s => (S (fork_lock_index s), fork_locks s)) ≫= fun '(next_index, locks) =>
  match locks !! next_index with
  | None => ret false
  | Some l =>
      store (set_lock l) ≫= fun _ =>
      store (set_fork_lock_index next_index) ≫= fun _ =>
      set_exact 0
  end.

Definition replenish_fork_locks : M epoch unit :=
  store (fun s => set_fork_locks [lock s; next_lock s; S (next_lock s)] (S (S (next_lock s))) s) ≫= fun _ =>
  store (set_fork_lock_index 0).

(** ** Interleaved native calls *)

Module NativeFacts.
Import Native.

(** What a returned call contributed to the counter *)
Definition delta (t : thread) : Z :=
  match t with Done Increment true => 1 | Done Decrement true => -1 | _ => 0 end.

Definition total (ts : list thread) : Z := foldr (fun t acc => delta t + acc) 0 ts.

Definition seen_ok (t : thread) : Prop := match t with Loop _ c => 0 <= c <= _MAX_U64 | _ => True end.

Lemma total_insert ts i t t' : ts !! i = Some t -> total (<[i := t']> ts) = total ts - delta t + delta t'.
Proof.
  revert i. induction ts as [|x ts IH]; intros [|i]; simpl; [done|done| |]; intros H.
  - injection H as ->. unfold total. simpl. lia.
  - specialize (IH i H). unfold total in *. simpl. lia.
Qed.

Lemma next_range c v : 0 <= v <= _MAX_U64 -> v <> limit c -> 0 <= next c v <= _MAX_U64.
Proof. destruct c; simpl; lia. Qed.

Lemma step_inv v ts v' ts' :
  step (v, ts) (v', ts') -> 0 <= v <= _MAX_U64 -> Forall seen_ok ts ->
  v' - total ts' = v - total ts /\ 0 <= v' <= _MAX_U64 /\ Forall seen_ok ts'.
Proof.
  intros H Hv Hts. inversion H as [i ? t ? t' ? Hi Ht]; subst.
  rewrite (total_insert ts i t t' Hi).
  assert (seen_ok t) as Hs by (rewrite Forall_lookup in Hts; by apply (Hts i)).
  inversion Ht; subst; simpl.
  - split; [lia|]. split; [done|]. by apply Forall_insert.
  - split; [destruct c; lia|]. split; [done|]. by apply Forall_insert.
  - split; [destruct c; simpl; lia|]. split; [by apply next_range|]. by apply Forall_insert.
  - split; [lia|]. split; [done|]. by apply Forall_insert.
Qed.

Lemma steps_inv v ts v' ts' :
  rtc step (v, ts) (v', ts') -> 0 <= v <= _MAX_U64 -> Forall seen_ok ts ->
  v' - total ts' = v - total ts /\ 0 <= v' <= _MAX_U64 /\ Forall seen_ok ts'.
Proof.
  intros H. remember (v, ts) as a eqn:Ea. remember (v', ts') as b eqn:Eb. revert v ts Ea.
  induction H as [|a [v1 ts1] c Hs _ IH]; intros v ts -> Hv Hts; simplify_eq; [done|].
  destruct (step_inv _ _ _ _ Hs Hv Hts) as (E & Hv1 & Hts1). destruct (IH eq_refl v1 ts1 eq_refl Hv1 Hts1) as (E' & ? & ?).
  split; [lia|done].
Qed.

(** A thread that runs alone returns. *)
Lemma loop_solo v ts i c current :
  ts !! i = Some (Loop c current) -> exists v' ts' r, rtc step (v, ts) (v', ts') /\ ts' !! i = Some (Done c r).
Proof.
  intros Hi. assert (i < length ts)%nat as Hl by (by eapply lookup_lt_Some).
  assert (forall ts1 x, ts1 !! i = Some (Loop c x) -> x = v \/ x = limit c ->
    exists v' ts' r, rtc step (v, ts1) (v', ts') /\ ts' !! i = Some (Done c r)) as Hend.
  { intros ts1 x Hx Hd. assert (i < length ts1)%nat as Hl1 by (by eapply lookup_lt_Some).
    destruct (decide (x = limit c)) as [->|Hne].
    - exists v, (<[i := Done c false]> ts1), false. split; [|by apply list_lookup_insert_eq].
      apply rtc_once. by eapply step_thread, step_saturated.
    - destruct Hd as [->|]; [|done]. exists (next c v), (<[i := Done c true]> ts1), true.
      split; [|by apply list_lookup_insert_eq]. apply rtc_once. by eapply step_thread, step_exchange. }
  destruct (decide (current = limit c)) as [->|Hne]; [eapply Hend; [done|by right]|].
  destruct (Hend (<[i := Loop c v]> ts) v) as (v' & ts' & r & Hs & Hd); [by apply list_lookup_insert_eq|by left|].
  exists v', ts', r. split; [|done]. eapply rtc_l; [|exact Hs]. by eapply step_thread, step_retry.
Qed.
End NativeFacts.

(** C29: interleaved native calls are counted exactly.  However the threads are
    interleaved and however often the weak exchange fails, the counter is its
    initial value plus the increments minus the decrements that returned true,
    it never wraps, and a thread that runs alone returns. *)
Theorem native_counter_exact v ts v' ts' :
  0 <= v <= _MAX_U64 -> (forall t, t ∈ ts -> exists c, t = Native.Start c) ->
  rtc Native.step (v, ts) (v', ts') ->
  v' = v + NativeFacts.total ts' /\ 0 <= v' <= _MAX_U64 /\
  forall i t, ts' !! i = Some t ->
    exists v2 ts2 c r, rtc Native.step (v', ts') (v2, ts2) /\ ts2 !! i = Some (Native.Done c r).
Proof.
  intros Hv Hst Hsteps.
  assert (Forall NativeFacts.seen_ok ts) as Hok by (apply Forall_forall; intros t Ht; by destruct (Hst t Ht) as [c ->]).
  assert (NativeFacts.total ts = 0) as E0.
  { clear Hsteps Hok. induction ts as [|t ts IH]; [done|]. unfold NativeFacts.total in *. simpl. rewrite IH by (intros x Hx; apply Hst; by right).
    destruct (Hst t) as [c ->]; [by left|done]. }
  destruct (NativeFacts.steps_inv _ _ _ _ Hsteps Hv Hok) as (E & Hv' & _).
  split; [lia|]. split; [done|]. intros i [c|c cur|c r] Hi.
  - assert (i < length ts')%nat by (by eapply lookup_lt_Some).
    destruct (NativeFacts.loop_solo v' (<[i := Native.Loop c v']> ts') i c v') as (v2 & ts2 & r & Hs & Hd).
    { by apply list_lookup_insert_eq. }
    exists v2, ts2, c, r. split; [|done]. eapply rtc_l; [|exact Hs]. by eapply Native.step_thread, Native.step_load.
  - destruct (NativeFacts.loop_solo v' ts' i c cur Hi) as (v2 & ts2 & r & Hs & Hd). eauto 7.
  - exists v', ts', c, r. split; [apply rtc_refl|done].
Qed.

(** ** The counter as callers see it *)

Definition abs (s : epoch) : Z := match capsule s with Some v => v | None => value_ s end.

Definition epoch_ok (s : epoch) : Prop := 0 <= abs s <= _MAX_U64.

(** Put the abstract value where the mode keeps it. *)
Definition with_abs (v : Z) (s : epoch) : epoch :=
  match capsule s with Some _ => set_capsule (Some v) s | None => set_value v s end.

(** The operations of the counter as a saturating natural number *)
Inductive epoch_op : Type := Inc | Dec | SetExact (v : Z).

Definition epoch_code (o : epoch_op) : M epoch bool :=
  match o with Inc => increment | Dec => decrement | SetExact v => set_exact v end.

Definition epoch_spec (o : epoch_op) (v : Z) : result bool * Z :=
  match o with
  | Inc => (Ok (v <? _MAX_U64), Z.min _MAX_U64 (v + 1))
  | Dec => (Ok (0 <? v), Z.max 0 (v - 1))
  | SetExact n => if (0 <=? n) && (n <=? _MAX_U64) then (Ok true, n) else (Err ValueError, v)
  end.

Lemma with_abs_same s : with_abs (abs s) s = s.
Proof. unfold with_abs, abs. destruct s as [[c|] ? ? ? ? ? ?]; done. Qed.

(** Native and fallback counters are the same saturating counter.  An
    uninterrupted call returns and stores exactly what a saturating 64-bit
    number does, in both modes, and touches nothing else. *)
Theorem epoch_saturates s o :
  epoch_ok s ->
  run (epoch_code o) s = ((epoch_spec o (abs s)).1, with_abs (epoch_spec o (abs s)).2 s).
Proof.
  intros Hs. unfold epoch_ok, abs in Hs. apply run_eq. unfold with_abs, abs.
  destruct s as [[c|] v l fl fi nl ms]; cbn [capsule value_] in *; destruct o as [| |n]; cbn [epoch_code epoch_spec fst snd].
  - unfold increment. wp_step. wp_step. cbn [capsule]. unfold native_call, Native.increment. wp_steps.
    destruct (Z.eqb_spec c _MAX_U64), (Z.ltb_spec c _MAX_U64); try lia; split; [done| |done|]; unfold set_capsule; simpl; do 2 f_equal; lia.
  - unfold decrement. wp_step. wp_step. cbn [capsule]. unfold native_call, Native.decrement. wp_steps.
    destruct (Z.eqb_spec c 0), (Z.ltb_spec 0 c); try lia; split; [done| |done|]; unfold set_capsule; simpl; do 2 f_equal; lia.
  - unfold set_exact, Native.set_exact.
    destruct (Z.ltb_spec n 0), (Z.ltb_spec _MAX_U64 n), (Z.leb_spec 0 n), (Z.leb_spec n _MAX_U64); try lia; simpl; repeat first [wp_step | progress cbn [capsule]]; done.
  - unfold increment. wp_step. wp_step. cbn [capsule]. do 4 wp_step. cbn [value_].
    destruct (Z.leb_spec _MAX_U64 v), (Z.ltb_spec v _MAX_U64); try lia; wp_steps; split; [done| |done|]; unfold set_value; simpl; f_equal; lia.
  - unfold decrement. wp_step. wp_step. cbn [capsule]. do 4 wp_step. cbn [value_].
    destruct (Z.leb_spec v 0), (Z.ltb_spec 0 v); try lia; wp_steps; split; [done| |done|]; unfold set_value; simpl; f_equal; lia.
  - unfold set_exact.
    destruct (Z.ltb_spec n 0), (Z.ltb_spec _MAX_U64 n), (Z.leb_spec 0 n), (Z.leb_spec n _MAX_U64); try lia; simpl; repeat first [wp_step | progress cbn [capsule]]; done.
Qed.

(** ** The marked commit *)

(** The state after the commit of the marker at [index] *)
Definition recorded (index : Z) (v : Z) (s : epoch) : epoch :=
  set_markers (<[Z.to_nat index := Native.kRecorded]> (markers s)) (set_capsule (Some (Z.min _MAX_U64 (v + 1))) s).

Definition index_in (index : Z) (s : epoch) : Prop := 0 <= index < Z.of_nat (length (markers s)).

Lemma recorded_marker index v s : index_in index s -> markers (recorded index v s) !!! Z.to_nat index = Native.kRecorded.
Proof.
  intros Hi. unfold index_in in Hi. apply list_lookup_total_insert_eq. lia.
Qed.

Ltac marked_start Hi :=
  unfold increment_marked; wp_step; wp_step;
  (rewrite (proj2 (Z.ltb_ge _ _)) by (unfold index_in in Hi; simpl in *; rewrite ?length_insert; lia));
  (rewrite (proj2 (Z.leb_gt _ _)) by (unfold index_in in Hi; simpl in *; rewrite ?length_insert; lia)); cbn [orb].

(** One attempt from the pending marker, with any number of interruptions *)
Lemma marked_pending n index v s :
  index_in index s -> capsule s = Some v -> markers s !!! Z.to_nat index = Native.kPending -> 0 <= v <= _MAX_U64 ->
  wp n (increment_marked index) (fun r _ s' =>
    (s' = s \/ s' = recorded index v s) /\ (n = 0%nat -> r = Ok true /\ s' = recorded index v s)) s.
Proof.
  intros Hi Hc Hm Hv. marked_start Hi. wp_step. wp_step. rewrite Hc.
  assert (Native.increment_marked v (markers s) index
    = Ok (true, Z.min _MAX_U64 (v + 1), <[Z.to_nat index := Native.kRecorded]> (markers s))) as En.
  { unfold Native.increment_marked, index_in in *. rewrite (proj2 (Z.ltb_ge _ _)), (proj2 (Z.leb_gt _ _)) by lia. cbn [orb].
    rewrite Hm. simpl. destruct (Z.eqb_spec v _MAX_U64); repeat f_equal; lia. }
  set (final := tick ≫= fun _ => reads (fun s => markers s !!! Z.to_nat index =? Native.kRecorded)).
  assert (forall m, (n = 0%nat -> m = 0%nat) -> wp m final (fun r _ s' => (s' = s \/ s' = recorded index v s) /\
    (n = 0%nat -> r = Ok true /\ s' = recorded index v s)) (recorded index v s)) as Hrec.
  { intros m Hmn. unfold final. wp_steps; (split; [by right|]).
    - intros _. by rewrite recorded_marker.
    - intros ->. by specialize (Hmn eq_refl). }
  assert (forall m, n <> 0%nat -> wp m final (fun r _ s' => (s' = s \/ s' = recorded index v s) /\
    (n = 0%nat -> r = Ok true /\ s' = recorded index v s)) s) as Hnot.
  { intros m Hmn. unfold final. wp_steps; (split; [by left|done]). }
  wp_step. wp_step. wp_step. wp_step; [|by apply Hnot]. wp_step. wp_step. rewrite En. wp_step. wp_step. wp_step; by apply Hrec.
Qed.

Lemma marked_recorded n index v s :
  index_in index s -> capsule s = Some v -> markers s !!! Z.to_nat index = Native.kRecorded ->
  wp n (increment_marked index) (fun r _ s' => s' = s /\ (n = 0%nat -> r = Ok true)) s.
Proof.
  intros Hi Hc Hm. marked_start Hi. wp_step. wp_step. rewrite Hc.
  assert (Native.increment_marked v (markers s) index = Ok (true, v, markers s)) as En.
  { unfold Native.increment_marked, index_in in *. rewrite (proj2 (Z.ltb_ge _ _)), (proj2 (Z.leb_gt _ _)) by lia. cbn [orb].
    by rewrite Hm. }
  assert (set_markers (markers s) (set_capsule (Some v) s) = s) as Es by (destruct s; simpl in *; by rewrite Hc).
  assert (forall m, (n = 0%nat -> m = 0%nat) -> wp m (tick ≫= fun _ => reads (fun s => markers s !!! Z.to_nat index =? Native.kRecorded))
    (fun r _ s' => s' = s /\ (n = 0%nat -> r = Ok true)) s) as Hend.
  { intros m Hmn. wp_steps; (split; [done|]); [by rewrite Hm|]. intros ->. by specialize (Hmn eq_refl). }
  wp_step. wp_step. wp_step. wp_step; [|by apply Hend]. wp_step. wp_step. rewrite En. wp_step. wp_step. rewrite Es. wp_step; by apply Hend.
Qed.

(** Successive attempts of a caller, each with its own interruptions *)
Definition attempts (index : Z) (ks : list sched) (s : epoch) : epoch :=
  foldl (fun s k => (increment_marked index k s).2) s ks.

(** A marked commit counts once.  After any number of attempts to commit a
    pending marker, each cut by any asynchronous exceptions, either nothing has
    happened or the counter has advanced once and the marker is recorded; a
    retry then returns true in the recorded state. *)
Theorem marked_commit_once s index v ks :
  index_in index s -> capsule s = Some v -> 0 <= v <= _MAX_U64 -> markers s !!! Z.to_nat index = Native.kPending ->
  let s' := attempts index ks s in
  (s' = s \/ s' = recorded index v s) /\ run (increment_marked index) s' = (Ok true, recorded index v s).
Proof.
  intros Hi Hc Hv Hm. cbv zeta.
  assert (index_in index (recorded index v s)) as Hi' by (unfold index_in, recorded in *; simpl; by rewrite length_insert).
  assert (forall k, (increment_marked index k (recorded index v s)).2 = recorded index v s) as Hrec.
  { intros k. apply (wp_any _ (fun _ s' => s' = recorded index v s)). intros n.
    eapply wp_mono; [by apply (marked_recorded n index (Z.min _MAX_U64 (v + 1))); [| |by apply recorded_marker]|].
    by intros r n' s' _ [-> _]. }
  assert (attempts index ks s = s \/ attempts index ks s = recorded index v s) as Hs.
  { assert (forall ks, attempts index ks (recorded index v s) = recorded index v s) as Hall.
    { intros l. induction l as [|k l IH]; [done|]. unfold attempts in *. simpl. by rewrite Hrec. }
    induction ks as [|k ks IH]; [by left|]. unfold attempts in *. simpl.
    assert ((increment_marked index k s).2 = s \/ (increment_marked index k s).2 = recorded index v s) as [-> | ->].
    - apply (wp_any _ (fun _ s' => s' = s \/ s' = recorded index v s)). intros n.
      eapply wp_mono; [by apply (marked_pending n index v)|]. by intros r n' s' _ [? _].
    - done.
    - right. apply Hall. }
  split; [done|]. apply run_eq. destruct Hs as [-> | ->].
  - eapply wp_mono; [by apply (marked_pending 0 index v)|]. intros r n' s' _ [_ H]. by apply H.
  - eapply wp_mono; [by apply (marked_recorded 0 index (Z.min _MAX_U64 (v + 1))); [| |by apply recorded_marker]|].
    intros r n' s' _ [-> H]. split; [by apply H|done].
Qed.

(** ** Writing the counter *)

Lemma le_bytes_length v : length (le_bytes v) = 8%nat.
Proof. done. Qed.

(** The eight bytes carry the whole value. *)
Lemma le_decode_bytes v : 0 <= v <= _MAX_U64 -> le_decode (le_bytes v) = v.
Proof.
  intros Hv. unfold le_bytes, le_decode. simpl fmap. cbn [foldr seq].
  change 255 with (Z.ones 8). rewrite !Z.land_ones, !Z.shiftr_div_pow2 by lia.
  change (8 * Z.of_nat 0) with 0. change (8 * Z.of_nat 1) with 8. change (8 * Z.of_nat 2) with 16.
  change (8 * Z.of_nat 3) with 24. change (8 * Z.of_nat 4) with 32. change (8 * Z.of_nat 5) with 40.
  change (8 * Z.of_nat 6) with 48. change (8 * Z.of_nat 7) with 56.
  change _MAX_U64 with (2 ^ 64 - 1) in Hv.
  assert (forall k, 0 <= k -> v / 2 ^ k / 2 ^ 8 = v / 2 ^ (k + 8)) as Hd.
  { intros k Hk. rewrite Z.div_div by lia. by rewrite <- Z.pow_add_r by lia. }
  pose proof (Z.div_mod (v / 2 ^ 0) (2 ^ 8) ltac:(lia)) as E0. pose proof (Z.div_mod (v / 2 ^ 8) (2 ^ 8) ltac:(lia)) as E1.
  pose proof (Z.div_mod (v / 2 ^ 16) (2 ^ 8) ltac:(lia)) as E2. pose proof (Z.div_mod (v / 2 ^ 24) (2 ^ 8) ltac:(lia)) as E3.
  pose proof (Z.div_mod (v / 2 ^ 32) (2 ^ 8) ltac:(lia)) as E4. pose proof (Z.div_mod (v / 2 ^ 40) (2 ^ 8) ltac:(lia)) as E5.
  pose proof (Z.div_mod (v / 2 ^ 48) (2 ^ 8) ltac:(lia)) as E6. pose proof (Z.div_mod (v / 2 ^ 56) (2 ^ 8) ltac:(lia)) as E7.
  rewrite Hd in E0, E1, E2, E3, E4, E5, E6, E7 by lia.
  change (0 + 8) with 8 in E0. change (8 + 8) with 16 in E1. change (16 + 8) with 24 in E2. change (24 + 8) with 32 in E3.
  change (32 + 8) with 40 in E4. change (40 + 8) with 48 in E5. change (48 + 8) with 56 in E6. change (56 + 8) with 64 in E7.
  assert (v / 2 ^ 64 = 0) as E8 by (apply Z.div_small; lia). rewrite E8 in E7.
  change (2 ^ 0) with 1 in *. rewrite Z.div_1_r in *. lia.
Qed.

(** The bytes from [offset] on replaced by [bs] *)
Definition splice (target : list Z) (offset : nat) (bs : list Z) : list Z :=
  take offset target ++ bs ++ drop (offset + length bs) target.

Lemma splice_cons target offset b bs :
  (offset < length target)%nat ->
  splice (<[offset := b]> target) (S offset) bs = splice target offset (b :: bs).
Proof.
  intros Hl. unfold splice. rewrite (take_S_r _ _ b) by (by apply list_lookup_insert_eq).
  rewrite take_insert_ge by lia. rewrite drop_insert_lt by lia. rewrite <- app_assoc. simpl. by rewrite Nat.add_succ_r.
Qed.

Lemma splice_nil target offset : splice target offset [] = target.
Proof. unfold splice. simpl. by rewrite Nat.add_0_r, take_drop. Qed.

Lemma write_bytes_spec bs offset target :
  (offset + length bs <= length target)%nat ->
  run (write_bytes bs (Z.of_nat offset)) target = (Ok tt, splice target offset bs).
Proof.
  intros Hl. apply run_eq. revert offset target Hl. induction bs as [|b bs IH]; intros offset target Hl; cbn [write_bytes].
  - wp_steps. by rewrite splice_nil.
  - simpl in Hl. wp_steps.
    assert (set_byte target (Z.of_nat offset) b = Ok (<[offset := b]> target)) as ->.
    { unfold set_byte. destruct (Z.leb_spec (- Z.of_nat (length target)) (Z.of_nat offset)), (Z.ltb_spec (Z.of_nat offset) 0);
        try lia; simpl; destruct (Z.leb_spec 0 (Z.of_nat offset)), (Z.ltb_spec (Z.of_nat offset) (Z.of_nat (length target)));
        try lia; simpl; by rewrite Nat2Z.id. }
    wp_steps. replace (Z.of_nat offset + 1) with (Z.of_nat (S offset)) by lia.
    rewrite <- splice_cons by lia. apply IH. rewrite length_insert. lia.
Qed.

Lemma native_write_spec v offset target :
  (offset + 8 <= length target)%nat -> Native.write_le v target (Z.of_nat offset) = Ok (splice target offset (le_bytes v)).
Proof.
  intros Hl. unfold Native.write_le.
  destruct (Z.ltb_spec (Z.of_nat offset) 0), (Z.ltb_spec (Z.of_nat (length target)) (Z.of_nat offset)),
    (Z.ltb_spec (Z.of_nat (length target) - Z.of_nat offset) 8); try lia. cbn [orb]. f_equal. rewrite Nat2Z.id.
  assert (forall bs t k, (offset + k + length bs <= length t)%nat ->
    foldl (fun t '(i, b) => <[(offset + i)%nat := b]> t) t (imap (fun i b => ((i + k)%nat, b)) bs) = splice t (offset + k) bs) as Hf.
  { intros bs. induction bs as [|b bs IH]; intros t k Hk; simpl in *; [by rewrite splice_nil|].
    rewrite <- splice_cons by lia. specialize (IH (<[(offset + k)%nat := b]> t) (S k)).
    rewrite length_insert in IH. replace (offset + S k)%nat with (S (offset + k)) in IH by lia.
    rewrite <- IH by lia. f_equal. apply imap_ext. intros i x _. simpl. f_equal. lia. }
  specialize (Hf (le_bytes v) target 0%nat). rewrite Nat.add_0_r in Hf. rewrite <- Hf by (rewrite le_bytes_length; lia).
  f_equal.
Qed.

(** The counter is written exactly.  For a buffer with room for eight bytes
    at a non-negative offset, both modes store the counter as eight little
    endian bytes at the offset, which decode to it, and change no other byte. *)
Theorem write_into_exact s offset target :
  epoch_ok s -> (offset + 8 <= length target)%nat ->
  run (write_into s (Z.of_nat offset)) target = (Ok tt, splice target offset (le_bytes (abs s))) /\
  le_decode (le_bytes (abs s)) = abs s.
Proof.
  intros Hs Hl. split; [|by apply le_decode_bytes]. unfold write_into, abs. destruct (capsule s) as [c|].
  - apply run_eq. wp_steps. rewrite native_write_spec by done. by wp_steps.
  - by apply write_bytes_spec.
Qed.

(** ** Locks across forks *)

Definition locks_ok (s : epoch) : Prop :=
  fork_locks s !! fork_lock_index s = Some (lock s) /\ StronglySorted lt (fork_locks s) /\
  Forall (fun l => (l < next_lock s)%nat) (fork_locks s) /\ length (fork_locks s) = 3%nat.

Lemma sorted_next (l : list nat) i a b : StronglySorted lt l -> l !! i = Some a -> l !! S i = Some b -> (a < b)%nat.
Proof.
  intros Hs. revert i. induction Hs as [|x l Hs IH Hx]; intros [|i] Ha Hb; try done; simpl in *.
  - injection Ha as ->. rewrite Forall_forall in Hx. apply Hx. by eapply list_elem_of_lookup_2.
  - by apply (IH i).
Qed.

(** A child never takes an ancestor's lock.  A reset after a fork moves to
    a lock created later than the current one and clears the counter, or fails
    without a change when the prepared locks are used up; the second reset in
    a row succeeds and the third fails; replenishing keeps the current lock. *)
Theorem fork_locks_fresh s :
  locks_ok s -> epoch_ok s ->
  (let '(r, s') := run reset_after_fork s in
   locks_ok s' /\ ((r = Ok true /\ (lock s < lock s')%nat /\ abs s' = 0 /\ fork_lock_index s' = S (fork_lock_index s)) \/
                   (r = Ok false /\ s' = s /\ fork_lock_index s = 2%nat))) /\
  (let '(r, s') := run replenish_fork_locks s in
   r = Ok tt /\ locks_ok s' /\ lock s' = lock s /\ fork_lock_index s' = 0%nat /\ abs s' = abs s).
Proof.
  intros (Hl & Hs & Hn & H3) Hv. split.
  - destruct (fork_locks s !! S (fork_lock_index s)) as [l|] eqn:E.
    + assert (run reset_after_fork s = (Ok true, with_abs 0 (set_fork_lock_index (S (fork_lock_index s)) (set_lock l s)))) as ->.
      { apply run_eq. unfold reset_after_fork. wp_steps. rewrite E. wp_steps. unfold set_exact.
        change ((0 <? 0) || (_MAX_U64 <? 0)) with false. cbv iota. wp_steps.
        unfold with_abs. cbn [capsule set_fork_lock_index set_lock]. destruct (capsule s); [|wp_steps; done].
        change (Native.set_exact z 0) with (@Ok Z 0). wp_steps; done. }
      pose proof (sorted_next _ _ _ _ Hs Hl E). unfold with_abs, locks_ok, abs. simpl.
      destruct (capsule s) eqn:Ec; simpl; rewrite ?Ec; (split; [done|left; done]).
    + assert (run reset_after_fork s = (Ok false, s)) as ->.
      { apply run_eq. unfold reset_after_fork. wp_steps. rewrite E. by wp_steps. }
      split; [done|]. right. split_and!; [done|done|]. apply lookup_lt_Some in Hl. apply lookup_ge_None in E. lia.
  - assert (run replenish_fork_locks s = (Ok tt, set_fork_lock_index 0
      (set_fork_locks [lock s; next_lock s; S (next_lock s)] (S (S (next_lock s))) s))) as ->.
    { apply run_eq. unfold replenish_fork_locks. by wp_steps. }
    assert (lock s < next_lock s)%nat as Hlt.
    { rewrite Forall_lookup in Hn. by apply (Hn _ _ Hl). }
    split_and!; [done| |done|done|done]. unfold locks_ok. simpl. split_and!; [done| | |done].
    + repeat constructor; simpl; lia.
    + repeat constructor; simpl; lia.
Qed.

(** ** Witnesses *)

Lemma native_counter_exact_witness :
  rtc Native.step (0, [Native.Start Native.Increment]) (1, [Native.Done Native.Increment true]) /\
  1 = 0 + NativeFacts.total [Native.Done Native.Increment true].
Proof.
  assert (rtc Native.step (0, [Native.Start Native.Increment]) (1, [Native.Done Native.Increment true])) as Hs.
  { eapply rtc_l; [by apply (Native.step_thread 0 0 (Native.Start Native.Increment)), Native.step_load|].
    apply rtc_once. apply (Native.step_thread 0 0 (Native.Loop Native.Increment 0) 1 (Native.Done Native.Increment true)); [done|].
    by apply (Native.step_exchange 0 Native.Increment). }
  split; [exact Hs|]. apply (native_counter_exact 0 [Native.Start Native.Increment] 1 [Native.Done Native.Increment true]).
  - by split; vm_compute.
  - intros t ->%list_elem_of_singleton. by exists Native.Increment.
  - exact Hs.
Defined.

Lemma epoch_saturates_witness :
  epoch_ok (with_abs _MAX_U64 (init true [])) /\ (run increment (with_abs _MAX_U64 (init true []))).1 = Ok false.
Proof.
  assert (epoch_ok (with_abs _MAX_U64 (init true []))) as H by (by split; vm_compute).
  split; [exact H|]. pose proof (epoch_saturates (with_abs _MAX_U64 (init true [])) Inc H) as E.
  change (run (epoch_code Inc)) with (run increment) in E. rewrite E. reflexivity.
Defined.

Lemma marked_commit_once_witness :
  run (increment_marked 1) (attempts 1 [[2%nat]; [1%nat]] (init true [0; 1])) = (Ok true, recorded 1 0 (init true [0; 1])).
Proof.
  apply (marked_commit_once (init true [0; 1]) 1 0 [[2%nat]; [1%nat]]).
  - by split; vm_compute.
  - reflexivity.
  - by split; vm_compute.
  - reflexivity.
Defined.

Lemma write_into_exact_witness :
  run (write_into (with_abs 258 (init false [])) 1) (replicate 9 7) = (Ok tt, [7; 2; 1; 0; 0; 0; 0; 0; 0]).
Proof.
  destruct (write_into_exact (with_abs 258 (init false [])) 1 (replicate 9 7)) as [E _].
  - by split; vm_compute.
  - vm_compute. lia.
  - change (Z.of_nat 1) with 1 in E. rewrite E. reflexivity.
Defined.

Lemma fork_locks_fresh_witness : locks_ok (init false []) /\ (lock (init false []) < lock (run reset_after_fork (init false [])).2)%nat.
Proof.
  assert (locks_ok (init false [])) as H by (split_and!; [done|repeat constructor; simpl; lia|repeat constructor; simpl; lia|done]).
  split; [exact H|]. destruct (fork_locks_fresh (init false []) H) as [H1 _]; [by split; vm_compute|].
  destruct (run reset_after_fork (init false [])) as [r s'] eqn:E. destruct H1 as [_ [(_ & Hlt & _)|(_ & _ & Hi)]]; [exact Hlt|discriminate Hi].
Defined.
