(* ===== verification/TerminalOwnership.v ===== *)
(** * The terminal ownership ledger

    Models [src/schema_sanitizer/core_impl/terminal_ownership.py]: a fixed bank of
    slots that records which terminal owners still retain bytes.  The bank is
    the authority and the owner count a cache of it; every store is an
    interruption point, because a cut publication is what the cache check is
    there to detect. *)

From S2P Require Import Prelude.

Local Open Scope Z_scope.

Definition _MAX_TERMINAL_OWNERS : Z := 8192.
Definition _MAX_LABEL_CHARS : nat := 64.
Definition _TERMINAL_OWNER_RECORD_BYTES : Z := 128.
Definition _MAX_COUNTER : Z := Z.shiftl 1 63 - 1.

(** A Python string as its code points *)
Definition label : Type := list Z.

(** The order of Python strings *)
Fixpoint label_leb (a b : label) : bool :=
  match a, b with
  | [], _ => true
  | _, [] => false
  | x :: a, y :: b => if x =? y then label_leb a b else x <? y
  end.

(** The order of [(category, count)] pairs; categories are distinct. *)
Definition count_le (p q : label * Z) : Prop := label_leb p.1 q.1 = true.

#[export] Instance count_le_dec p q : Decision (count_le p q) := decide (label_leb p.1 q.1 = true).

(** An argument of the exact type the code asks for, or of another type *)
Inductive pyarg (A : Type) : Type := Exact (a : A) | OtherType.
Arguments Exact {A} a.
Arguments OtherType {A}.

Definition _bounded_label (v : pyarg label) : result label :=
  match v with
  | OtherType => Err TypeError
  | Exact s => Ok (if (length s <=? _MAX_LABEL_CHARS)%nat then s else take _MAX_LABEL_CHARS s)
  end.

(** ** State *)

Record _TerminalOwnerSlot : Type := Slot {
  active : bool;
  category : label;
  token : Z;
  retained_bytes : Z;
  since_ns : Z;
  slot_generation : Z
}.

#[export] Instance slot_inhabited : Inhabited _TerminalOwnerSlot := populate (Slot false [] 0 0 0 0).

Definition set_active v (s : _TerminalOwnerSlot) := Slot v (category s) (token s) (retained_bytes s) (since_ns s) (slot_generation s).
Definition set_category v (s : _TerminalOwnerSlot) := Slot (active s) v (token s) (retained_bytes s) (since_ns s) (slot_generation s).
Definition set_token v (s : _TerminalOwnerSlot) := Slot (active s) (category s) v (retained_bytes s) (since_ns s) (slot_generation s).
Definition set_retained v (s : _TerminalOwnerSlot) := Slot (active s) (category s) (token s) v (since_ns s) (slot_generation s).
Definition set_since v (s : _TerminalOwnerSlot) := Slot (active s) (category s) (token s) (retained_bytes s) v (slot_generation s).
Definition set_slot_generation v (s : _TerminalOwnerSlot) := Slot (active s) (category s) (token s) (retained_bytes s) (since_ns s) v.

(** [TerminalOwnershipLedger]; the lock is held for an operation as a whole. *)
Record ledger : Type := Ledger {
  capacity : nat;
  slots_ : list _TerminalOwnerSlot;
  pid : Z;
  owners : Z;
  generation : Z;
  generation_exhausted : bool;
  rejected : Z;
  rejected_latched : bool;
  corrupted : bool
}.

Definition set_slots v (s : ledger) := Ledger (capacity s) v (pid s) (owners s) (generation s) (generation_exhausted s) (rejected s) (rejected_latched s) (corrupted s).
Definition set_pid v (s : ledger) := Ledger (capacity s) (slots_ s) v (owners s) (generation s) (generation_exhausted s) (rejected s) (rejected_latched s) (corrupted s).
Definition set_owners v (s : ledger) := Ledger (capacity s) (slots_ s) (pid s) v (generation s) (generation_exhausted s) (rejected s) (rejected_latched s) (corrupted s).
Definition set_generation v (s : ledger) := Ledger (capacity s) (slots_ s) (pid s) (owners s) v (generation_exhausted s) (rejected s) (rejected_latched s) (corrupted s).
Definition set_exhausted v (s : ledger) := Ledger (capacity s) (slots_ s) (pid s) (owners s) (generation s) v (rejected s) (rejected_latched s) (corrupted s).
Definition set_rejected v (s : ledger) := Ledger (capacity s) (slots_ s) (pid s) (owners s) (generation s) (generation_exhausted s) v (rejected_latched s) (corrupted s).
Definition set_latched v (s : ledger) := Ledger (capacity s) (slots_ s) (pid s) (owners s) (generation s) (generation_exhausted s) (rejected s) v (corrupted s).
Definition set_corrupted v (s : ledger) := Ledger (capacity s) (slots_ s) (pid s) (owners s) (generation s) (generation_exhausted s) (rejected s) (rejected_latched s) v.

(** An attribute store on slot [i] *)
Definition store_slot (i : nat) (f : _TerminalOwnerSlot -> _TerminalOwnerSlot) : M ledger unit :=
  store (fun s => set_slots (alter f i (slots_ s)) s).

(** A [for] loop without [break] *)
Fixpoint for_each {S A} (l : list A) (f : A -> M S unit) : M S unit :=
  match l with [] => ret tt | x :: l => f x ≫= fun _ => for_each l f end.

(** [_TerminalOwnerSlot.clear] *)
Definition clear (i : nat) : M ledger unit :=
  store_slot i (set_active false) ≫= fun _ =>
  store_slot i (set_category []) ≫= fun _ =>
  store_slot i (set_token 0) ≫= fun _ =>
  store_slot i (set_retained 0) ≫= fun _ =>
  store_slot i (set_since 0) ≫= fun _ =>
  store_slot i (set_slot_generation 0).

(** ** Operations *)

Definition _reset (p : Z) : M ledger unit :=
  store (set_pid p) ≫= fun _ =>
  tick ≫= fun _ => (* [self._lock = Lock()] *)
  reads slots_ ≫= fun sl =>
  for_each (seq 0 (length sl)) clear ≫= fun _ =>
  store (set_owners 0) ≫= fun _ =>
  store (set_generation 0) ≫= fun _ =>
  store (set_exhausted false) ≫= fun _ =>
  store (set_rejected 0) ≫= fun _ =>
  store (set_latched false) ≫= fun _ =>
  store (set_corrupted false).

Definition init (cap : pyarg Z) (getpid : Z) : result ledger :=
  match cap with
  | OtherType => Err TypeError
  | Exact cap =>
      if (cap <=? 0) || (_MAX_TERMINAL_OWNERS <? cap) then Err ValueError
      else
        let n := Z.to_nat cap in
        let bank := Ledger n (replicate n (Slot false [] 0 0 0 0)) 0 0 0 false 0 false false in
        match run (_reset getpid) bank with
        | (Ok _, s) => Ok s
        | (Err e, _) => Err e
        end
  end.

Definition _ensure_process (getpid : Z) : M ledger unit :=
  reads pid ≫= fun p => whenM (negb (p =? getpid)) (_reset getpid).

Definition _prepare_generation_advance_locked : M ledger (option Z) :=
  reads (fun s => (generation s, generation_exhausted s)) ≫= fun '(g, exhausted) =>
  if exhausted : bool then ret None
  else if _MAX_COUNTER <=? g then
    store (set_exhausted true) ≫= fun _ =>
    store (set_latched true) ≫= fun _ => ret None
  else ret (Some (g + 1)).

(** The first slot that satisfies a test *)
Fixpoint find_slot (p : _TerminalOwnerSlot -> bool) (l : list _TerminalOwnerSlot) : option nat :=
  match l with
  | [] => None
  | x :: l => if p x then Some 0%nat else S <$> find_slot p l
  end.

Definition matches (c : label) (t : Z) (s : _TerminalOwnerSlot) : bool :=
  active s && (token s =? t) && bool_decide (category s = c).

Definition _find_slot_locked (c : label) (t : Z) (s : ledger) : option nat := find_slot (matches c t) (slots_ s).
Definition _find_free_slot_locked (s : ledger) : option nat := find_slot (fun x => negb (active x)) (slots_ s).

Definition _record_rejection_locked : M ledger unit :=
  store (set_latched true) ≫= fun _ =>
  reads rejected ≫= fun r =>
  whenM (r <? _MAX_COUNTER) (store (set_rejected (r + 1))).

Definition _active_slot_count_locked (s : ledger) : Z :=
  foldl (fun n x => if active x then n + 1 else n) 0 (slots_ s).

Definition _validate_owner_cache_locked : M ledger Z :=
  reads (fun s => (_active_slot_count_locked s, owners s)) ≫= fun '(authoritative, cached) =>
  whenM (negb (cached =? authoritative))
    (store (set_corrupted true) ≫= fun _ => _record_rejection_locked) ≫= fun _ =>
  ret authoritative.

(** [diagnostic_transition()] is telemetry that absorbs its own failures: here
    it is one more interruption point. *)
Definition diagnostic_transition {S} : M S unit := tick.

(** The update of a live record *)
Definition publish_existing (i : nat) (bytes : Z) : M ledger bool :=
  reads (fun s => retained_bytes (slots_ s !!! i)) ≫= fun old =>
  if bytes =? old then ret true
  else
    _prepare_generation_advance_locked ≫= fun next_generation =>
    match next_generation with
    | None => ret false
    | Some g =>
        store_slot i (set_retained bytes) ≫= fun _ =>
        store (set_generation g) ≫= fun _ =>
        store_slot i (set_slot_generation g) ≫= fun _ =>
        diagnostic_transition ≫= fun _ =>
        ret true
    end.

(** The publication of a new record in slot [i] *)
Definition publish_new (i : nat) (c : label) (t bytes now authoritative g : Z) : M ledger bool :=
  store_slot i (set_category c) ≫= fun _ =>
  store_slot i (set_token t) ≫= fun _ =>
  store_slot i (set_retained bytes) ≫= fun _ =>
  store_slot i (set_since now) ≫= fun _ =>
  store_slot i (set_slot_generation g) ≫= fun _ =>
  store_slot i (set_active true) ≫= fun _ =>
  store (set_owners (authoritative + 1)) ≫= fun _ =>
  store (set_generation g) ≫= fun _ =>
  diagnostic_transition ≫= fun _ =>
  ret true.

(** [publish] after the check of the owner cache *)
Definition publish_checked (c : label) (t bytes now authoritative : Z) : M ledger bool :=
  reads corrupted ≫= fun bad =>
  if bad : bool then diagnostic_transition ≫= fun _ => ret false
  else
    reads (_find_slot_locked c t) ≫= fun existing =>
    match existing with
    | Some i => publish_existing i bytes
    | None =>
        reads capacity ≫= fun cap =>
        if Z.of_nat cap <=? authoritative then
          _record_rejection_locked ≫= fun _ => diagnostic_transition ≫= fun _ => ret false
        else
          _prepare_generation_advance_locked ≫= fun next_generation =>
          match next_generation with
          | None => ret false
          | Some g =>
              reads _find_free_slot_locked ≫= fun free =>
              match free with
              | None =>
                  store (set_corrupted true) ≫= fun _ =>
                  _record_rejection_locked ≫= fun _ => diagnostic_transition ≫= fun _ => ret false
              | Some i => publish_new i c t bytes now authoritative g
              end
          end
    end.

(** [publish] after its argument checks, under the lock *)
Definition publish_locked (c : label) (t bytes now : Z) : M ledger bool :=
  _validate_owner_cache_locked ≫= fun authoritative => publish_checked c t bytes now authoritative.

Definition publish (getpid now : Z) (c : pyarg label) (t bytes : pyarg Z) : M ledger bool :=
  _ensure_process getpid ≫= fun _ =>
  liftR (_bounded_label c) ≫= fun c =>
  match t, bytes with
  | OtherType, _ => raise TypeError
  | _, OtherType => raise TypeError
  | Exact t, Exact bytes => if bytes <? 0 then raise ValueError else publish_locked c t bytes now
  end.

(** [slot.active = False; slot.clear()] *)
Definition vacate (i : nat) : M ledger unit :=
  store_slot i (set_active false) ≫= fun _ => clear i.

(** The end of both retirements, with the new owner count *)
Definition commit_retirement (count : Z) : M ledger unit :=
  store (set_owners count) ≫= fun _ =>
  _prepare_generation_advance_locked ≫= fun next_generation =>
  match next_generation with Some g => store (set_generation g) | None => ret tt end ≫= fun _ =>
  diagnostic_transition.

Definition retire_checked (c : label) (t authoritative : Z) : M ledger unit :=
  reads (_find_slot_locked c t) ≫= fun found =>
  match found with
  | None => ret tt
  | Some i => vacate i ≫= fun _ => commit_retirement (authoritative - 1)
  end.

Definition retire_locked (c : label) (t : Z) : M ledger unit :=
  _validate_owner_cache_locked ≫= fun authoritative => retire_checked c t authoritative.

Definition retire (getpid : Z) (c : pyarg label) (t : pyarg Z) : M ledger unit :=
  _ensure_process getpid ≫= fun _ =>
  liftR (_bounded_label c) ≫= fun c =>
  match t with OtherType => ret tt | Exact t => retire_locked c t end.

(** [slot.active and slot.category == category] *)
Definition in_category (c : label) (s : _TerminalOwnerSlot) : bool := active s && bool_decide (category s = c).

Definition retire_category_checked (c : label) (authoritative : Z) : M ledger unit :=
  reads (fun s => (Z.of_nat (length (filter (fun x => in_category c x = true) (slots_ s))), length (slots_ s))) ≫= fun '(retired, n) =>
  if retired =? 0 then ret tt
  else
    for_each (seq 0 n) (fun i =>
      reads (fun s => in_category c (slots_ s !!! i)) ≫= fun mine =>
      whenM mine (vacate i)) ≫= fun _ =>
    commit_retirement (authoritative - retired).

Definition retire_category_locked (c : label) : M ledger unit :=
  _validate_owner_cache_locked ≫= fun authoritative => retire_category_checked c authoritative.

Definition retire_category (getpid : Z) (c : pyarg label) : M ledger unit :=
  _ensure_process getpid ≫= fun _ =>
  liftR (_bounded_label c) ≫= fun c => retire_category_locked c.

Record TerminalOwnershipSnapshot : Type := OwnershipSnapshot {
  snap_owners : Z;
  snap_retained_bytes : Z;
  snap_metadata_bytes : Z;
  snap_capacity : Z;
  snap_rejected : Z;
  snap_oldest_since_ns : Z;
  snap_generation : Z;
  snap_generation_exhausted : bool;
  snap_categories : list (label * Z);
  snap_corrupted : bool
}.

Definition total_attributed_bytes (s : TerminalOwnershipSnapshot) : Z := snap_retained_bytes s + snap_metadata_bytes s.

(** One iteration of the loop of [snapshot] *)
Definition snapshot_visit (acc : gmap label Z * Z * Z * Z) (s : _TerminalOwnerSlot) : gmap label Z * Z * Z * Z :=
  let '(counts, retained, oldest, n) := acc in
  if active s then
    (<[category s := default 0 (counts !! category s) + 1]> counts, retained + retained_bytes s,
     if (oldest =? 0) || (since_ns s <? oldest) then since_ns s else oldest, n + 1)
  else acc.

(** [tuple(sorted(counts.items()))] *)
Definition sorted_items (counts : gmap label Z) : list (label * Z) := merge_sort count_le (map_to_list counts).

Definition snapshot_locked (s : ledger) : TerminalOwnershipSnapshot :=
  let '(counts, retained, oldest, n) := foldl snapshot_visit (∅, 0, 0, 0) (slots_ s) in
  OwnershipSnapshot n retained (n * _TERMINAL_OWNER_RECORD_BYTES) (Z.of_nat (capacity s))
    (if rejected_latched s then Z.max 1 (rejected s) else rejected s) oldest (generation s)
    (generation_exhausted s) (sorted_items counts) (corrupted s).

Definition snapshot (getpid : Z) : M ledger TerminalOwnershipSnapshot :=
  _ensure_process getpid ≫= fun _ => reads snapshot_locked.

Definition reset_after_fork (getpid : Z) : M ledger unit := _reset getpid.

(** ** The ledger as a map from owners to retained bytes *)

Definition entry (x : _TerminalOwnerSlot) : option ((label * Z) * Z) :=
  if active x then Some ((category x, token x), retained_bytes x) else None.

Definition entries (l : list _TerminalOwnerSlot) : list ((label * Z) * Z) := omap entry l.

Definition owned (s : ledger) : gmap (label * Z) Z := list_to_map (entries (slots_ s)).

(** The bank has its full length, and no owner has two records. *)
Definition bank_ok (s : ledger) : Prop :=
  length (slots_ s) = capacity s /\ NoDup (entries (slots_ s)).*1.

(** [s] with record [x] in slot [i] *)
Definition at_slot (i : nat) (x : _TerminalOwnerSlot) (s : ledger) : ledger := set_slots (<[i := x]> (slots_ s)) s.

Lemma at_slot_self i s : at_slot i (slots_ s !!! i) s = s.
Proof.
  unfold at_slot. destruct (decide (i < length (slots_ s))%nat) as [Hl|Hl].
  - rewrite list_insert_id; [by destruct s|]. by apply list_lookup_lookup_total_lt.
  - rewrite list_insert_ge by lia. by destruct s.
Qed.

Lemma wp_store_slot n i f x s (Q : result unit -> nat -> ledger -> Prop) :
  (i < length (slots_ s))%nat ->
  Q (Ok tt) n (at_slot i (f x) s) -> (forall n', n = S n' -> Q (Err AsyncInterrupt) n' (at_slot i x s)) ->
  wp n (store_slot i f) Q (at_slot i x s).
Proof.
  intros Hi HQ He. apply wp_store; [|done]. unfold at_slot, set_slots in *. simpl.
  assert (alter f i (<[i := x]> (slots_ s)) = <[i := f x]> (slots_ s)) as ->; [|done].
  apply list_eq. intros j. rewrite list_lookup_alter. destruct (decide (i = j)) as [<-|Hne].
  - by rewrite !list_lookup_insert_eq.
  - by rewrite !list_lookup_insert_ne.
Qed.

(** Replacing the record of a slot *)
Lemma entries_insert l i old new :
  l !! i = Some old ->
  entries (<[i := new]> l) ++ option_list (entry old) ≡ₚ entries l ++ option_list (entry new).
Proof.
  intros Hi. rewrite insert_take_drop by (by eapply lookup_lt_Some). rewrite <- (take_drop_middle l i old Hi) at 3.
  unfold entries. rewrite !omap_app. simpl.
  assert (forall (e : option ((label * Z) * Z)) r, match e with Some y => y :: r | None => r end = option_list e ++ r) as E by (by intros [?|]).
  rewrite !E. destruct (entry old), (entry new); simpl; rewrite ?app_nil_r; solve_Permutation.
Qed.

(** The map of entries after a slot was cleared, filled or rewritten *)
Lemma owned_dark s i x :
  bank_ok s -> active (slots_ s !!! i) = false -> active x = false ->
  bank_ok (at_slot i x s) /\ owned (at_slot i x s) = owned s.
Proof.
  intros [Hl Hnd] Ho Hx. destruct (decide (i < length (slots_ s))%nat) as [Hi|Hi].
  - assert (entries (<[i := x]> (slots_ s)) ≡ₚ entries (slots_ s)) as E.
    { pose proof (entries_insert (slots_ s) i (slots_ s !!! i) x) as H.
      unfold entry in H. rewrite Ho, Hx in H. simpl in H. rewrite !app_nil_r in H. by apply H, list_lookup_lookup_total_lt. }
    split; [split; simpl; [by rewrite length_insert|by rewrite E]|].
    unfold owned. simpl. apply list_to_map_proper; [by rewrite E|done].
  - unfold at_slot. rewrite list_insert_ge by lia. destruct s; done.
Qed.

Lemma owned_fill s i x :
  bank_ok s -> (i < length (slots_ s))%nat -> active (slots_ s !!! i) = false -> active x = true ->
  owned s !! (category x, token x) = None ->
  bank_ok (at_slot i x s) /\ owned (at_slot i x s) = <[(category x, token x) := retained_bytes x]> (owned s).
Proof.
  intros [Hl Hnd] Hi Ho Hx Hnew.
  assert (entries (<[i := x]> (slots_ s)) ≡ₚ ((category x, token x), retained_bytes x) :: entries (slots_ s)) as E.
  { pose proof (entries_insert (slots_ s) i (slots_ s !!! i) x) as H. unfold entry in H. rewrite Ho, Hx in H. simpl in H.
    rewrite app_nil_r in H. rewrite H by (by apply list_lookup_lookup_total_lt). by rewrite Permutation_app_comm. }
  assert (NoDup (((category x, token x), retained_bytes x) :: entries (slots_ s)).*1) as Hnd'.
  { simpl. apply NoDup_cons. split; [|done]. by apply not_elem_of_list_to_map in Hnew. }
  split; [split; simpl; [by rewrite length_insert|by rewrite E]|].
  unfold owned. simpl. rewrite <- list_to_map_cons. apply list_to_map_proper; [by rewrite E|done].
Qed.

Lemma owned_vacate s i x :
  bank_ok s -> (i < length (slots_ s))%nat -> active (slots_ s !!! i) = true -> active x = false ->
  bank_ok (at_slot i x s) /\
  owned (at_slot i x s) = delete (category (slots_ s !!! i), token (slots_ s !!! i)) (owned s) /\
  owned s !! (category (slots_ s !!! i), token (slots_ s !!! i)) = Some (retained_bytes (slots_ s !!! i)).
Proof.
  intros [Hl Hnd] Hi Ho Hx. set (o := slots_ s !!! i) in *.
  assert (((category o, token o), retained_bytes o) :: entries (<[i := x]> (slots_ s)) ≡ₚ entries (slots_ s)) as E.
  { pose proof (entries_insert (slots_ s) i o x) as H. unfold entry in H. rewrite Ho, Hx in H. simpl in H.
    rewrite app_nil_r in H. rewrite <- H by (by apply list_lookup_lookup_total_lt). by rewrite Permutation_app_comm. }
  pose proof Hnd as Hnd'. rewrite <- E in Hnd'. simpl in Hnd'. apply NoDup_cons in Hnd' as [Hni Hnd'].
  assert (owned s = <[(category o, token o) := retained_bytes o]> (owned (at_slot i x s))) as Eo.
  { unfold owned. simpl. rewrite <- list_to_map_cons. apply list_to_map_proper; [done|by rewrite E]. }
  split; [split; simpl; [by rewrite length_insert|done]|]. rewrite Eo, lookup_insert_eq. split; [|done].
  rewrite delete_insert_id; [done|]. by apply not_elem_of_list_to_map.
Qed.

(** What the two searches find *)
Lemma find_slot_Some p l i : find_slot p l = Some i -> (i < length l)%nat /\ p (l !!! i) = true.
Proof.
  revert i. induction l as [|x l IH]; intros i; simpl; [done|]. destruct (p x) eqn:E; [intros [= <-]; split; [lia|done]|].
  destruct (find_slot p l) as [j|]; [|done]. intros [= <-]. destruct (IH j eq_refl). split; [lia|done].
Qed.

Lemma find_slot_None p l : find_slot p l = None -> forall x, x ∈ l -> p x = false.
Proof.
  induction l as [|x l IH]; simpl; [intros _ x Hx; by apply not_elem_of_nil in Hx|].
  destruct (p x) eqn:E; [done|]. destruct (find_slot p l); [done|].
  intros _ y [->|Hy]%elem_of_cons; [done|]. by apply IH.
Qed.

Lemma slot_elem (l : list _TerminalOwnerSlot) i : (i < length l)%nat -> l !!! i ∈ l.
Proof. intros Hi. eapply list_elem_of_lookup_2. by apply list_lookup_lookup_total_lt. Qed.

Lemma owned_lookup s c t b :
  bank_ok s -> owned s !! (c, t) = Some b <->
  exists i, (i < length (slots_ s))%nat /\ matches c t (slots_ s !!! i) = true /\ retained_bytes (slots_ s !!! i) = b.
Proof.
  intros [_ Hnd]. unfold owned. rewrite <- elem_of_list_to_map by done. unfold entries. rewrite list_elem_of_omap. split.
  - intros (x & Hx & E). unfold entry in E. destruct (active x) eqn:Ea; [|done]. injection E as <- <- <-.
    apply list_elem_of_lookup in Hx as [i Hi]. exists i. rewrite (list_lookup_total_correct _ _ _ Hi).
    split; [by eapply lookup_lt_Some|]. unfold matches. by rewrite Ea, Z.eqb_refl, bool_decide_eq_true_2.
  - intros (i & Hi & Hm & <-). exists (slots_ s !!! i). split; [by apply slot_elem|].
    unfold matches in Hm. apply andb_true_iff in Hm as [[Ha Ht%Z.eqb_eq]%andb_true_iff Hc%bool_decide_eq_true].
    unfold entry. by rewrite Ha, Ht, Hc.
Qed.

Lemma find_key_Some s c t i :
  bank_ok s -> _find_slot_locked c t s = Some i ->
  (i < length (slots_ s))%nat /\ active (slots_ s !!! i) = true /\ category (slots_ s !!! i) = c /\ token (slots_ s !!! i) = t /\
  owned s !! (c, t) = Some (retained_bytes (slots_ s !!! i)).
Proof.
  intros Hok [Hi Hm]%find_slot_Some. pose proof Hm as Hm'. unfold matches in Hm'.
  apply andb_true_iff in Hm' as [[Ha Ht%Z.eqb_eq]%andb_true_iff Hc%bool_decide_eq_true].
  split_and!; [done..|]. apply owned_lookup; [done|]. by exists i.
Qed.

Lemma find_key_None s c t : bank_ok s -> _find_slot_locked c t s = None <-> owned s !! (c, t) = None.
Proof.
  intros Hok. split.
  - intros Hf. apply eq_None_not_Some. intros [b Hb]. apply owned_lookup in Hb as (i & Hi & Hm & _); [|done].
    pose proof (find_slot_None _ _ Hf (slots_ s !!! i)) as H. rewrite Hm in H. by specialize (H (slot_elem _ _ Hi)).
  - intros Ho. destruct (_find_slot_locked c t s) as [i|] eqn:E; [|done].
    destruct (find_key_Some s c t i Hok E) as (_ & _ & _ & _ & E'). congruence.
Qed.

(** ** Steps that leave the bank alone *)

Definition same_bank (s s' : ledger) : Prop := slots_ s' = slots_ s /\ capacity s' = capacity s.

Lemma same_bank_owned s s' : same_bank s s' -> owned s' = owned s.
Proof. intros [E _]. unfold owned. by rewrite E. Qed.

Lemma same_bank_ok s s' : same_bank s s' -> bank_ok s -> bank_ok s'.
Proof. intros [E1 E2] H. unfold bank_ok in *. by rewrite E1, E2. Qed.

Lemma same_bank_refl s : same_bank s s.
Proof. done. Qed.

Lemma same_bank_trans s1 s2 s3 : same_bank s1 s2 -> same_bank s2 s3 -> same_bank s1 s3.
Proof. intros [E1 E2] [E3 E4]. split; congruence. Qed.

#[export] Hint Resolve same_bank_refl : sanitizer.

(** The parts of the state that only a committed change touches *)
Definition same_meta (s s' : ledger) : Prop :=
  same_bank s s' /\ owners s' = owners s /\ generation s' = generation s /\ pid s' = pid s.

Lemma record_rejection_spec n s (Q : result unit -> nat -> ledger -> Prop) :
  (forall s', same_meta s s' -> corrupted s' = corrupted s -> generation_exhausted s' = generation_exhausted s -> Q (Ok tt) n s') ->
  (forall n' s', n = S n' -> same_bank s s' -> Q (Err AsyncInterrupt) n' s') ->
  wp n _record_rejection_locked Q s.
Proof.
  intros Hok Herr. unfold _record_rejection_locked. wp_steps; try (apply Hok; done); apply Herr; done.
Qed.

Lemma validate_spec n s (Q : result Z -> nat -> ledger -> Prop) :
  let count := _active_slot_count_locked s in
  (owners s = count -> Q (Ok count) n s) ->
  (forall s', owners s <> count -> same_meta s s' -> corrupted s' = true -> generation_exhausted s' = generation_exhausted s ->
     Q (Ok count) n s') ->
  (forall n' s', n = S n' -> same_bank s s' -> Q (Err AsyncInterrupt) n' s') ->
  wp n _validate_owner_cache_locked Q s.
Proof.
  intros count Heq Hne Herr. unfold _validate_owner_cache_locked. do 3 wp_step. apply wp_whenM; intros Hb.
  - apply negb_true_iff, Z.eqb_neq in Hb. do 2 wp_step; [|by apply Herr].
    apply record_rejection_spec; [|intros; by apply Herr]. intros s' Hs' Hc Hx. wp_steps. by apply Hne.
  - apply negb_false_iff, Z.eqb_eq in Hb. wp_steps. by apply Heq.
Qed.

Lemma prepare_spec n s (Q : result (option Z) -> nat -> ledger -> Prop) :
  (generation_exhausted s = false -> generation s < _MAX_COUNTER -> Q (Ok (Some (generation s + 1))) n s) ->
  (forall s', generation_exhausted s = true \/ _MAX_COUNTER <= generation s -> same_meta s s' -> corrupted s' = corrupted s ->
     Q (Ok None) n s') ->
  (forall n' s', n = S n' -> same_meta s s' -> corrupted s' = corrupted s -> Q (Err AsyncInterrupt) n' s') ->
  wp n _prepare_generation_advance_locked Q s.
Proof.
  intros Hok Hnone Herr. unfold _prepare_generation_advance_locked. wp_step. wp_step.
  destruct (generation_exhausted s); [wp_steps; apply Hnone; [by left|done|done]|].
  destruct (Z.leb_spec _MAX_COUNTER (generation s)); wp_steps.
  - apply Hnone; [by right|done|done].
  - by apply Herr.
  - by apply Herr.
  - by apply Hok.
Qed.

(** ** Publication with interruptions *)

Definition published (k : label * Z) (b : Z) (s : ledger) (r : result bool) (s' : ledger) : Prop :=
  bank_ok s' /\ (owned s' = owned s \/ owned s' = <[k := b]> (owned s)) /\
  (r = Ok true -> owned s' = <[k := b]> (owned s)) /\ (r = Ok false -> owned s' = owned s).

Lemma published_still k b s r s' :
  bank_ok s -> same_bank s s' -> r <> Ok true -> published k b s r s'.
Proof.
  intros Hok Hb Hr. split; [by eapply same_bank_ok|]. rewrite (same_bank_owned _ _ Hb). split; [by left|]. done.
Qed.

Lemma published_bank k b s s1 s2 r r' :
  published k b s r s1 -> same_bank s1 s2 -> (r' = Ok true -> owned s1 = <[k := b]> (owned s)) -> r' <> Ok false ->
  published k b s r' s2.
Proof.
  intros (H1 & H2 & H3 & H4) Hb Ht Hf. unfold published. rewrite (same_bank_owned _ _ Hb).
  split_and!; [by eapply same_bank_ok|done|done|done].
Qed.

Lemma owned_rewrite s i y :
  bank_ok s -> (i < length (slots_ s))%nat -> active (slots_ s !!! i) = true -> active y = true ->
  category y = category (slots_ s !!! i) -> token y = token (slots_ s !!! i) ->
  bank_ok (at_slot i y s) /\ owned (at_slot i y s) = <[(category y, token y) := retained_bytes y]> (owned s).
Proof.
  intros Hok Hi Ha Hy Hc Ht. set (d := Slot false [] 0 0 0 0).
  destruct (owned_vacate s i d Hok Hi Ha eq_refl) as (Hok' & Ev & _).
  assert (at_slot i y s = at_slot i y (at_slot i d s)) as ->.
  { unfold at_slot. simpl. by rewrite list_insert_insert_eq. }
  assert (slots_ (at_slot i d s) !!! i = d) as Ed by (by apply list_lookup_total_insert_eq).
  destruct (owned_fill (at_slot i d s) i y) as [H1 H2]; [done|simpl; by rewrite length_insert|by rewrite Ed|done| |].
  - rewrite Ev, Hc, Ht. by rewrite lookup_delete_eq.
  - split; [done|]. rewrite H2, Ev, Hc, Ht. by rewrite insert_delete_eq.
Qed.

Lemma wp_at_slot {A} n i (m : M ledger A) Q s : wp n m Q (at_slot i (slots_ s !!! i) s) -> wp n m Q s.
Proof. by rewrite at_slot_self. Qed.

(** A state that differs from [at_slot i y s] outside the bank only *)
Ltac use_slot H := eapply H; [split; reflexivity|done..].

(** A store on the record in hand *)
Ltac slot_store := apply wp_store_slot; [done| |first [discriminate|intros ? ->]].

Lemma publish_existing_spec n s i c t b :
  bank_ok s -> _find_slot_locked c t s = Some i ->
  wp n (publish_existing i b) (fun r _ s' => published (c, t) b s r s') s.
Proof.
  intros Hok Hf. destruct (find_key_Some s c t i Hok Hf) as (Hi & Ha & Hc & Ht & Ho).
  set (x := slots_ s !!! i) in *. unfold publish_existing. wp_step. wp_step. fold x.
  destruct (Z.eqb_spec b (retained_bytes x)) as [->|Hne].
  - wp_steps. split; [done|]. rewrite insert_id by done. auto.
  - wp_step. apply prepare_spec.
    + intros _ _.
      assert (forall y r s', same_bank (at_slot i y s) s' -> active y = true -> category y = c ->
        token y = t -> retained_bytes y = b -> r <> Ok false -> published (c, t) b s r s') as Hput.
      { intros y r s' Hs Hy Ec Et Eb Hr. destruct (owned_rewrite s i y) as [H1 H2]; [done..|by rewrite Ec, <- Hc|by rewrite Et, <- Ht|].
        unfold published. rewrite (same_bank_owned _ _ Hs), H2, Ec, Et, Eb. split; [by eapply same_bank_ok|]. split; [by right|done]. }
      apply (wp_at_slot n i). fold x.
      wp_step. slot_store; [|apply published_still; [done| |done]; unfold x; by rewrite at_slot_self].
      wp_step. wp_step; [|use_slot Hput].
      change (set_generation ?g (at_slot i ?y s)) with (at_slot i y (set_generation g s)).
      wp_step. slot_store; [|use_slot Hput].
      unfold diagnostic_transition. wp_steps; use_slot Hput.
    + intros s' _ [Hb _] _. wp_steps. by apply published_still.
    + intros n' s' _ [Hb _] _. by apply published_still.
Qed.

Lemma publish_new_spec n s i c t b now count g :
  bank_ok s -> owned s !! (c, t) = None -> (i < length (slots_ s))%nat -> active (slots_ s !!! i) = false ->
  wp n (publish_new i c t b now count g) (fun r _ s' => published (c, t) b s r s') s.
Proof.
  intros Hok Hnew Hi Ha. set (x := slots_ s !!! i) in *.
  assert (forall y r, active y = false -> r <> Ok true -> published (c, t) b s r (at_slot i y s)) as Hdark.
  { intros y r Hy Hr. destruct (owned_dark s i y Hok Ha Hy) as [H1 H2]. unfold published. rewrite H2. split; [done|]. split; [by left|done]. }
  assert (forall y r s', same_bank (at_slot i y s) s' -> active y = true -> category y = c ->
    token y = t -> retained_bytes y = b -> r <> Ok false -> published (c, t) b s r s') as Hlit.
  { intros y r s' Hs Hy Ec Et Eb Hr. destruct (owned_fill s i y) as [H1 H2]; [done..|by rewrite Ec, Et|].
    unfold published. rewrite (same_bank_owned _ _ Hs), H2, Ec, Et, Eb. split; [by eapply same_bank_ok|]. split; [by right|done]. }
  unfold publish_new. apply (wp_at_slot n i). fold x.
  do 5 (wp_step; slot_store; [|by apply Hdark]).
  wp_step. slot_store; [|by apply Hdark].
  unfold diagnostic_transition. wp_steps; use_slot Hlit.
Qed.

Lemma publish_checked_spec n s s1 c t b now count :
  bank_ok s -> same_bank s s1 -> wp n (publish_checked c t b now count) (fun r _ s' => published (c, t) b s r s') s1.
Proof.
  intros Hok Hb. pose proof (same_bank_ok _ _ Hb Hok) as Hok1.
  assert (forall r s', published (c, t) b s1 r s' -> published (c, t) b s r s') as Hback.
  { unfold published. by rewrite (same_bank_owned _ _ Hb). }
  assert (forall r s', same_bank s1 s' -> r <> Ok true -> published (c, t) b s r s') as Hstill.
  { intros r s' Hs Hr. by apply Hback, published_still. }
  unfold publish_checked. do 2 wp_step. destruct (corrupted s1); [unfold diagnostic_transition; wp_steps; by apply Hstill|].
  do 2 wp_step. destruct (_find_slot_locked c t s1) as [i|] eqn:Ef.
  { eapply wp_mono; [by apply (publish_existing_spec n s1 i c t b)|]. auto. }
  do 2 wp_step. destruct (_ <=? _).
  - wp_step. apply record_rejection_spec; [|intros; by apply Hstill].
    intros s' [Hs _] _ _. unfold diagnostic_transition. wp_steps; by apply Hstill.
  - wp_step. apply prepare_spec; [|intros s' _ [Hs _] _; wp_steps; by apply Hstill|intros n' s' _ [Hs _] _; by apply Hstill].
    intros _ _. do 2 wp_step. destruct (_find_free_slot_locked s1) as [i|] eqn:Efree.
    + apply find_slot_Some in Efree as [Hi Hf%negb_true_iff].
      eapply wp_mono; [apply (publish_new_spec n s1 i c t b now); [done|by apply find_key_None|done|done]|]. auto.
    + wp_step. wp_step; [|by apply Hstill]. wp_step. apply record_rejection_spec.
      * intros s' [Hs _] _ _. unfold diagnostic_transition. wp_steps; by apply Hstill.
      * intros n' s' _ Hs. by apply Hstill.
Qed.

Lemma publish_locked_spec n s c t b now :
  bank_ok s -> wp n (publish_locked c t b now) (fun r _ s' => published (c, t) b s r s') s.
Proof.
  intros Hok. unfold publish_locked. wp_step. apply validate_spec.
  - intros _. by apply publish_checked_spec.
  - intros s' _ [Hb _] _ _. by apply publish_checked_spec.
  - intros n' s' _ Hb. by apply published_still.
Qed.

(** ** Retirement with interruptions *)

(** The tail of both retirements touches no slot. *)
Lemma retire_tail_spec n s v (Q : result unit -> nat -> ledger -> Prop) :
  (forall r n' s', same_bank s s' -> (r = Ok tt -> owners s' = v) -> Q r n' s') ->
  wp n (commit_retirement v) Q s.
Proof.
  intros HQ. unfold commit_retirement, diagnostic_transition. wp_step. wp_step; [|by apply HQ]. wp_step. apply prepare_spec.
  - intros _ _. wp_steps; by apply HQ.
  - intros s' _ ([E1 E2] & E3 & _) _. simpl in *. wp_steps; apply HQ; (split; simpl; congruence) || done.
  - intros n' s' _ ([E1 E2] & E3 & _) _. simpl in *. apply HQ; [split; congruence|done].
Qed.

Lemma vacate_spec n s i (Q : result unit -> nat -> ledger -> Prop) :
  bank_ok s -> (i < length (slots_ s))%nat -> active (slots_ s !!! i) = true ->
  (forall s', bank_ok s' -> owned s' = delete (category (slots_ s !!! i), token (slots_ s !!! i)) (owned s) ->
     s' = at_slot i (Slot false [] 0 0 0 0) s -> Q (Ok tt) n s') ->
  (forall n' y, n = S n' -> bank_ok (at_slot i y s) -> owned (at_slot i y s) = owned s \/
     owned (at_slot i y s) = delete (category (slots_ s !!! i), token (slots_ s !!! i)) (owned s) -> Q (Err AsyncInterrupt) n' (at_slot i y s)) ->
  wp n (vacate i) Q s.
Proof.
  intros Hok Hi Ha HQ He. set (x := slots_ s !!! i) in *.
  assert (forall y n', active y = false -> n = S n' -> Q (Err AsyncInterrupt) n' (at_slot i y s)) as Hdark.
  { intros y n' Hy Hn. destruct (owned_vacate s i y Hok Hi Ha Hy) as (H1 & H2 & _). apply He; [done|done|by right]. }
  apply (wp_at_slot n i). fold x. unfold vacate, clear.
  wp_step. slot_store; [|apply He; [done|unfold x; by rewrite at_slot_self|left; unfold x; by rewrite at_slot_self]].
  do 5 (wp_step; slot_store; [|by apply Hdark]). slot_store; [|by apply Hdark].
  destruct (owned_vacate s i (Slot false [] 0 0 0 0) Hok Hi Ha eq_refl) as (H1 & H2 & _).
  apply (HQ (at_slot i (Slot false [] 0 0 0 0) s)); done.
Qed.

Definition retired (k : label * Z) (s : ledger) (r : result unit) (s' : ledger) : Prop :=
  bank_ok s' /\ (owned s' = owned s \/ owned s' = delete k (owned s)) /\ (r = Ok tt -> owned s' = delete k (owned s)).

Lemma retire_checked_spec n s s1 c t count :
  bank_ok s -> same_bank s s1 -> wp n (retire_checked c t count) (fun r _ s' => retired (c, t) s r s') s1.
Proof.
  intros Hok Hb. pose proof (same_bank_ok _ _ Hb Hok) as Hok1. unfold retired. rewrite <- (same_bank_owned _ _ Hb).
  unfold retire_checked. do 2 wp_step. destruct (_find_slot_locked c t s1) as [i|] eqn:Ef.
  - destruct (find_key_Some s1 c t i Hok1 Ef) as (Hi & Ha & <- & <- & Ho).
    wp_step. apply vacate_spec; [done..| |].
    + intros s2 Hok2 Eo _. apply retire_tail_spec. intros r n' s' Hs _.
      split; [by eapply same_bank_ok|]. rewrite (same_bank_owned _ _ Hs). auto.
    + intros n' y _ Hy Eo. by split.
  - wp_steps. apply find_key_None in Ef; [|done]. rewrite delete_id by done. auto.
Qed.

Lemma retire_locked_spec n s c t : bank_ok s -> wp n (retire_locked c t) (fun r _ s' => retired (c, t) s r s') s.
Proof.
  intros Hok. unfold retire_locked. wp_step. apply validate_spec.
  - intros _. by apply retire_checked_spec.
  - intros s' _ [Hb _] _ _. by apply retire_checked_spec.
  - intros n' s' _ Hb. split; [by eapply same_bank_ok|]. rewrite (same_bank_owned _ _ Hb). split; [by left|done].
Qed.

(** ** Retiring a category *)

Lemma wp_for_each {S} (I : nat -> S -> Prop) (E : S -> Prop) a m (f : nat -> M S unit) n s :
  (forall i n s, (a <= i < a + m)%nat -> I i s ->
     wp n (f i) (fun r n' s' => match r with Ok _ => n' = n /\ I (Datatypes.S i) s' | Err _ => (n' < n)%nat /\ E s' end) s) ->
  I a s ->
  wp n (for_each (seq a m) f)
    (fun r n' s' => match r with Ok _ => n' = n /\ I (a + m)%nat s' | Err _ => (n' < n)%nat /\ E s' end) s.
Proof.
  revert a n s. induction m as [|m IH]; intros a n s Hf Ha; cbn [for_each seq].
  - wp_steps. by rewrite Nat.add_0_r.
  - wp_step. eapply wp_mono; [by apply Hf; [lia|]|]. intros [[]|e] n' s' _ Hs; [|done]. destruct Hs as [-> Hs].
    rewrite Nat.add_succ_r, <- Nat.add_succ_l. apply IH; [|done]. intros i n'' s'' Hi. apply Hf. lia.
Qed.

(** [m'] is [m] with some owners of the category [c] removed. *)
Definition thinned (c : label) (m m' : gmap (label * Z) Z) : Prop :=
  forall k, m' !! k = m !! k \/ (k.1 = c /\ m' !! k = None).

Lemma thinned_delete c m m' t : thinned c m m' -> thinned c m (delete (c, t) m').
Proof.
  intros H k. destruct (decide (k = (c, t))) as [->|Hne].
  - right. by rewrite lookup_delete_eq.
  - rewrite lookup_delete_ne by done. apply H.
Qed.

(** After the slots below [i] were visited *)
Definition visited (c : label) (s : ledger) (i : nat) (s' : ledger) : Prop :=
  bank_ok s' /\ (capacity s' = capacity s /\ owners s' = owners s /\ generation s' = generation s /\ corrupted s' = corrupted s) /\
  thinned c (owned s) (owned s') /\
  forall j, (j < i)%nat -> (j < length (slots_ s'))%nat -> in_category c (slots_ s' !!! j) = false.

Lemma visited_all c s s' :
  visited c s (capacity s) s' -> owned s' = filter (fun kv => kv.1.1 <> c) (owned s).
Proof.
  intros (Hok & [Hcap _] & Hth & Hno). apply map_eq. intros [k t]. destruct (decide (k = c)) as [->|Hne].
  - transitivity (@None Z).
    + apply eq_None_not_Some. intros [b Hb]. apply owned_lookup in Hb as (i & Hi & Hm & _); [|done].
      pose proof (proj1 Hok) as Hl. assert (in_category c (slots_ s' !!! i) = false) as Hf by (apply Hno; [lia|done]).
      unfold matches in Hm. unfold in_category in Hf.
      apply andb_true_iff in Hm as [[Ha _]%andb_true_iff Hc]. by rewrite Ha, Hc in Hf.
    + symmetry. apply map_lookup_filter_None. right. intros b _. simpl. tauto.
  - destruct (Hth (k, t)) as [->|[? _]]; [|done]. destruct (owned s !! (k, t)) as [b|] eqn:E.
    + symmetry. by apply map_lookup_filter_Some.
    + symmetry. apply map_lookup_filter_None. by left.
Qed.

Definition category_retired (c : label) (s : ledger) (r : result unit) (s' : ledger) : Prop :=
  bank_ok s' /\ thinned c (owned s) (owned s') /\ (r = Ok tt -> owned s' = filter (fun kv => kv.1.1 <> c) (owned s)).

Lemma visit_spec c s i n s' :
  (i < capacity s)%nat -> visited c s i s' ->
  wp n (reads (fun s => in_category c (slots_ s !!! i)) ≫= fun mine => whenM mine (vacate i))
    (fun r n' s' => match r with
                    | Ok _ => n' = n /\ visited c s (S i) s'
                    | Err _ => (n' < n)%nat /\ bank_ok s' /\ thinned c (owned s) (owned s')
                    end) s'.
Proof.
  intros Hi (Hok & Hmeta & Hth & Hno). pose proof (proj1 Hok) as Hl. pose proof (proj1 Hmeta) as Hcap. do 2 wp_step. apply wp_whenM; intros Hc.
  - pose proof Hc as Hc'. unfold in_category in Hc'. apply andb_true_iff in Hc' as [Ha Ec%bool_decide_eq_true].
    apply vacate_spec; [done|lia|done| |].
    + intros s2 Hok2 Eo ->. split; [done|]. split; [done|]. split; [done|]. split; [rewrite Eo, Ec; by apply thinned_delete|].
      intros j Hj Hjl. simpl. destruct (decide (i = j)) as [<-|Hne].
      * rewrite list_lookup_total_insert_eq by lia. done.
      * rewrite list_lookup_total_insert_ne by done. apply Hno; [lia|]. simpl in Hjl. by rewrite length_insert in Hjl.
    + intros n' y -> Hy Eo. split; [lia|]. destruct Eo as [->|Eo]; [done|]. split; [done|]. rewrite Eo, Ec. by apply thinned_delete.
  - split; [done|]. split; [done|]. split; [done|]. split; [done|]. intros j Hj Hjl. destruct (decide (j = i)) as [->|]; [done|]. apply Hno; [lia|done].
Qed.

Lemma retire_category_checked_spec n s s1 c count :
  bank_ok s -> same_bank s s1 -> wp n (retire_category_checked c count) (fun r _ s' => category_retired c s r s') s1.
Proof.
  intros Hok Hb. pose proof (same_bank_ok _ _ Hb Hok) as Hok1. pose proof (proj1 Hok1) as Hl.
  unfold category_retired. rewrite <- (same_bank_owned _ _ Hb).
  assert (forall i, (forall j, (j < i)%nat -> (j < length (slots_ s1))%nat -> in_category c (slots_ s1 !!! j) = false) ->
    visited c s1 i s1) as Hv0.
  { intros i Hi. split; [done|]. split; [done|]. split; [by left|done]. }
  unfold retire_category_checked. do 2 wp_step.
  destruct (Z.eqb_spec (Z.of_nat (length (filter (fun x => in_category c x = true) (slots_ s1)))) 0) as [E0|_].
  - wp_steps. split; [done|]. split; [by left|]. intros _. apply visited_all, Hv0. intros j _ Hj.
    destruct (in_category c (slots_ s1 !!! j)) eqn:E; [|done].
    assert (slots_ s1 !!! j ∈ filter (fun x => in_category c x = true) (slots_ s1)) as Hin.
    { apply list_elem_of_filter. split; [done|by apply slot_elem]. }
    assert (length (filter (fun x => in_category c x = true) (slots_ s1)) = 0%nat) as E1%length_zero_iff_nil by lia.
    rewrite E1 in Hin. by apply not_elem_of_nil in Hin.
  - wp_step. eapply wp_mono.
    { apply (wp_for_each (visited c s1) (fun s' => bank_ok s' /\ thinned c (owned s1) (owned s')) 0 (length (slots_ s1))).
      - intros i n' s' Hi Hv. apply visit_spec; [lia|done].
      - apply Hv0. lia. }
    intros [[]|e] n' s' _ Hv; [|destruct Hv as (_ & H1 & H2); split; [done|]; split; [done|done]].
    destruct Hv as [-> Hv]. rewrite Nat.add_0_l, Hl in Hv. pose proof (visited_all _ _ _ Hv) as Ho. destruct Hv as (Hok' & _ & Hth & _).
    apply retire_tail_spec. intros r n'' s'' Hs _. split; [by eapply same_bank_ok|]. rewrite (same_bank_owned _ _ Hs). auto.
Qed.

Lemma retire_category_locked_spec n s c :
  bank_ok s -> wp n (retire_category_locked c) (fun r _ s' => category_retired c s r s') s.
Proof.
  intros Hok. unfold retire_category_locked. wp_step. apply validate_spec.
  - intros _. by apply retire_category_checked_spec.
  - intros s' _ [Hb _] _ _. by apply retire_category_checked_spec.
  - intros n' s' _ Hb. split; [by eapply same_bank_ok|]. rewrite (same_bank_owned _ _ Hb). split; [by left|done].
Qed.

(** ** Uninterrupted histories *)

Record sound (s : ledger) : Prop := {
  sd_bank : bank_ok s;
  sd_owners : owners s = Z.of_nat (size (owned s));
  sd_clean : corrupted s = false;
  sd_generation : generation s <= _MAX_COUNTER
}.

(** A generation is left *)
Definition can_advance (s : ledger) : bool := negb (generation_exhausted s) && (generation s <? _MAX_COUNTER).

Lemma active_count_entries s : _active_slot_count_locked s = Z.of_nat (length (entries (slots_ s))).
Proof.
  unfold _active_slot_count_locked. rewrite <- (Z.add_0_l (Z.of_nat _)). generalize 0.
  induction (slots_ s) as [|x l IH]; intros a; simpl; [lia|]. rewrite IH. unfold entries, entry. simpl.
  destruct (active x); simpl; fold entry; lia.
Qed.

Lemma active_count_size s : bank_ok s -> _active_slot_count_locked s = Z.of_nat (size (owned s)).
Proof.
  intros [_ Hnd]. rewrite active_count_entries. f_equal. unfold owned. by rewrite map_size_list_to_map.
Qed.

Lemma entries_full l : (forall x, x ∈ l -> active x = true) -> length (entries l) = length l.
Proof.
  induction l as [|x l IH]; intros H; [done|]. unfold entries, entry in *. simpl. rewrite (H x) by (by left). simpl.
  f_equal. apply IH. intros y Hy. apply H. by right.
Qed.

Lemma free_slot_exists s : bank_ok s -> (size (owned s) < capacity s)%nat -> is_Some (_find_free_slot_locked s).
Proof.
  intros Hok Hlt. destruct (_find_free_slot_locked s) as [i|] eqn:E; [by eexists|].
  pose proof (find_slot_None _ _ E) as Hall. pose proof (active_count_size s Hok) as Hc. rewrite active_count_entries in Hc.
  rewrite entries_full in Hc; [destruct Hok; lia|]. intros x Hx. by apply negb_false_iff, Hall.
Qed.

Lemma prepare_exact s (Q : result (option Z) -> nat -> ledger -> Prop) :
  (can_advance s = true -> Q (Ok (Some (generation s + 1))) 0%nat s) ->
  (forall s', can_advance s = false -> same_meta s s' -> corrupted s' = corrupted s -> Q (Ok None) 0%nat s') ->
  wp 0 _prepare_generation_advance_locked Q s.
Proof.
  intros Hyes Hno. apply prepare_spec.
  - intros E Hlt. apply Hyes. unfold can_advance. rewrite E. by apply Z.ltb_lt.
  - intros s' H Hs Hc. apply Hno; [|done|done]. unfold can_advance. destruct H as [->|H]; [done|].
    rewrite (proj2 (Z.ltb_ge _ _)) by lia. by rewrite andb_false_r.
  - done.
Qed.

Lemma sound_bank s s' :
  sound s -> same_bank s s' -> owners s' = owners s -> corrupted s' = corrupted s -> generation s' <= _MAX_COUNTER -> sound s'.
Proof.
  intros [H1 H2 H3 H4] Hb Ho Hc Hg. split; [by eapply same_bank_ok| |congruence|done].
  by rewrite Ho, H2, (same_bank_owned _ _ Hb).
Qed.

(** Whether a publication succeeds *)
Definition admits (s : ledger) (k : label * Z) (b : Z) : bool :=
  bool_decide (owned s !! k = Some b) ||
  (can_advance s && (bool_decide (is_Some (owned s !! k)) || (size (owned s) <? capacity s)%nat)).

Lemma validate_sound n s (Q : result Z -> nat -> ledger -> Prop) :
  sound s -> n = 0%nat -> Q (Ok (Z.of_nat (size (owned s)))) n s -> wp n _validate_owner_cache_locked Q s.
Proof.
  intros [H1 H2 _ _] -> HQ. pose proof (active_count_size s H1) as Hc. apply validate_spec.
  - intros _. by rewrite Hc.
  - intros s' Hne. congruence.
  - done.
Qed.

Lemma can_advance_lt s : can_advance s = true -> generation s < _MAX_COUNTER.
Proof. unfold can_advance. intros [_ H]%andb_true_iff. by apply Z.ltb_lt. Qed.

Lemma publish_existing_exact s i c t b :
  sound s -> _find_slot_locked c t s = Some i ->
  wp 0 (publish_existing i b) (fun r _ s' => r = Ok (admits s (c, t) b) /\ sound s') s.
Proof.
  intros Hs Hf. pose proof (sd_bank _ Hs) as Hok. destruct (find_key_Some s c t i Hok Hf) as (Hi & Ha & Hc & Ht & Ho).
  set (x := slots_ s !!! i) in *. unfold publish_existing. wp_step. wp_step. fold x. unfold admits. rewrite Ho.
  rewrite (bool_decide_eq_true_2 (is_Some _)) by eauto. cbn [orb]. rewrite andb_true_r.
  destruct (Z.eqb_spec b (retained_bytes x)) as [->|Hne]; [wp_steps; by rewrite bool_decide_eq_true_2|].
  rewrite (bool_decide_eq_false_2 (Some _ = _)) by congruence. cbn [orb]. wp_step. apply prepare_exact.
  - intros Hadv. rewrite Hadv. apply can_advance_lt in Hadv. apply (wp_at_slot 0 i). fold x.
    wp_step. slot_store. wp_step. wp_step.
    change (set_generation ?g (at_slot i ?y s)) with (at_slot i y (set_generation g s)).
    wp_step. slot_store. unfold diagnostic_transition. wp_steps. split; [done|].
    set (y := Slot (active x) (category x) (token x) b (since_ns x) (generation s + 1)).
    destruct (owned_rewrite s i y) as [H1 H2]; [done..|].
    change (sound (at_slot i y (set_generation (generation s + 1) s))). split; [done| |apply Hs|simpl; lia].
    change (owners s = Z.of_nat (size (owned (at_slot i y s)))).
    rewrite (sd_owners _ Hs), H2. f_equal. symmetry. apply map_size_insert_Some. simpl. rewrite Hc, Ht. by eexists.
  - intros s' Hadv (Hb & H1 & H2 & _) H3. rewrite Hadv. wp_steps. split; [done|].
    eapply sound_bank; [done..|]. rewrite H2. apply Hs.
Qed.

Lemma publish_checked_exact s c t b now :
  sound s ->
  wp 0 (publish_checked c t b now (Z.of_nat (size (owned s)))) (fun r _ s' => r = Ok (admits s (c, t) b) /\ sound s') s.
Proof.
  intros Hs. pose proof (sd_bank _ Hs) as Hok. unfold publish_checked. do 2 wp_step. rewrite (sd_clean _ Hs).
  do 2 wp_step. destruct (_find_slot_locked c t s) as [i|] eqn:Ef; [by apply publish_existing_exact|].
  pose proof (proj1 (find_key_None s c t Hok) Ef) as Ho. unfold admits. rewrite Ho.
  rewrite (bool_decide_eq_false_2 (None = _)), (bool_decide_eq_false_2 (is_Some _)) by (done || by intros [? ?]). cbn [orb].
  do 2 wp_step. destruct (Z.leb_spec (Z.of_nat (capacity s)) (Z.of_nat (size (owned s)))) as [Hle|Hlt].
  - rewrite (proj2 (Nat.ltb_ge _ _)) by lia. rewrite andb_false_r. wp_step. apply record_rejection_spec; [|done].
    intros s' (Hb & H1 & H2 & _) H3 _. unfold diagnostic_transition. wp_steps. split; [done|].
    eapply sound_bank; [done..|]. rewrite H2. apply Hs.
  - rewrite (proj2 (Nat.ltb_lt _ _)) by lia. rewrite andb_true_r. wp_step. apply prepare_exact.
    + intros Hadv. rewrite Hadv. apply can_advance_lt in Hadv. do 2 wp_step.
      destruct (free_slot_exists s Hok) as [i Ei]; [lia|]. rewrite Ei. apply find_slot_Some in Ei as [Hi Hf%negb_true_iff].
      unfold publish_new. apply (wp_at_slot 0 i). do 6 (wp_step; slot_store). unfold diagnostic_transition. wp_steps. split; [done|].
      set (y := Slot true c t b now (generation s + 1)). destruct (owned_fill s i y Hok Hi Hf eq_refl Ho) as [H1 H2].
      change (sound (at_slot i y (set_generation (generation s + 1) (set_owners (Z.of_nat (size (owned s)) + 1) s)))).
      split; [done| |apply Hs|simpl; lia].
      change (Z.of_nat (size (owned s)) + 1 = Z.of_nat (size (owned (at_slot i y s)))).
      rewrite H2, map_size_insert_None by done. lia.
    + intros s' Hadv (Hb & H1 & H2 & _) H3. rewrite Hadv. wp_steps. split; [done|].
      eapply sound_bank; [done..|]. rewrite H2. apply Hs.
Qed.

Lemma commit_retirement_exact n s v (Q : result unit -> nat -> ledger -> Prop) :
  n = 0%nat -> generation s <= _MAX_COUNTER ->
  (forall s', same_bank s s' -> owners s' = v -> corrupted s' = corrupted s -> generation s' <= _MAX_COUNTER -> Q (Ok tt) n s') ->
  wp n (commit_retirement v) Q s.
Proof.
  intros -> Hg HQ. unfold commit_retirement, diagnostic_transition. wp_step. wp_step. wp_step. apply prepare_exact.
  - intros Hadv%can_advance_lt. wp_steps. apply HQ; [done|done|done|simpl in *; lia].
  - intros s' _ ([E1 E2] & E3 & E4 & _) E5. simpl in *. wp_steps. apply HQ; [by split|done|done|lia].
Qed.

Lemma vacate_exact s i (Q : result unit -> nat -> ledger -> Prop) :
  bank_ok s -> (i < length (slots_ s))%nat -> active (slots_ s !!! i) = true ->
  (bank_ok (at_slot i (Slot false [] 0 0 0 0) s) ->
   owned (at_slot i (Slot false [] 0 0 0 0) s) = delete (category (slots_ s !!! i), token (slots_ s !!! i)) (owned s) ->
   Q (Ok tt) 0%nat (at_slot i (Slot false [] 0 0 0 0) s)) ->
  wp 0 (vacate i) Q s.
Proof. intros Hok Hi Ha HQ. apply vacate_spec; [done..| |done]. intros s' H1 H2 ->. by apply HQ. Qed.

Lemma retire_locked_exact s c t :
  sound s -> wp 0 (retire_locked c t) (fun r _ s' => r = Ok tt /\ sound s') s.
Proof.
  intros Hs. pose proof (sd_bank _ Hs) as Hok. unfold retire_locked. wp_step. apply validate_sound; [done..|].
  unfold retire_checked. do 2 wp_step. destruct (_find_slot_locked c t s) as [i|] eqn:Ef; [|by wp_steps].
  destruct (find_key_Some s c t i Hok Ef) as (Hi & Ha & Hc & Ht & Ho). wp_step.
  apply vacate_exact; [done..|]. rewrite Hc, Ht. intros H1 H2. apply commit_retirement_exact; [done|apply Hs|].
  intros s' Hb E1 E2 Hg. split; [done|]. split; [by eapply same_bank_ok| |by rewrite E2; apply Hs|done].
  rewrite E1, (same_bank_owned _ _ Hb), H2, map_size_delete_Some by (by eexists).
  assert (0 < size (owned s))%nat; [|lia]. destruct (size (owned s)) eqn:E; [|lia]. apply map_size_empty_inv in E.
  rewrite E in Ho. by rewrite lookup_empty in Ho.
Qed.

Lemma category_split c l :
  (length (filter (fun x => in_category c x = true) l) + length (filter (fun e => e.1.1 <> c) (entries l)) = length (entries l))%nat.
Proof.
  induction l as [|x l IH]; [done|]. unfold entries, entry in *. cbn [omap list_omap].
  destruct (active x) eqn:Ea.
  - cbn [length]. destruct (decide (category x = c)) as [E|E].
    + rewrite filter_cons_True by (unfold in_category; by rewrite Ea, bool_decide_eq_true_2).
      rewrite filter_cons_False by (simpl; tauto). simpl. lia.
    + rewrite filter_cons_False by (unfold in_category; by rewrite Ea, bool_decide_eq_false_2).
      rewrite filter_cons_True by done. simpl. lia.
  - rewrite filter_cons_False by (unfold in_category; by rewrite Ea). done.
Qed.

Lemma filter_map_size c (es : list ((label * Z) * Z)) :
  NoDup es.*1 ->
  size (filter (fun kv => kv.1.1 <> c) (list_to_map es : gmap (label * Z) Z)) = length (filter (fun e => e.1.1 <> c) es).
Proof.
  induction es as [|[k b] es IH]; intros Hnd; [done|]. apply NoDup_cons in Hnd as [Hni Hnd].
  apply not_elem_of_list_to_map in Hni. cbn [list_to_map foldr uncurry]. destruct (decide (k.1 = c)) as [E|E].
  - rewrite (filter_cons_False _ (k, b)) by (simpl; tauto). rewrite map_filter_insert_False by (simpl; tauto).
    rewrite delete_id by done. by apply IH.
  - rewrite (filter_cons_True _ (k, b)) by done. rewrite map_filter_insert_True by done.
    rewrite map_size_insert_None; [simpl; f_equal; by apply IH|]. apply map_lookup_filter_None. by left.
Qed.

Lemma category_size s c :
  bank_ok s ->
  Z.of_nat (size (filter (fun kv => kv.1.1 <> c) (owned s)))
  = Z.of_nat (size (owned s)) - Z.of_nat (length (filter (fun x => in_category c x = true) (slots_ s))).
Proof.
  intros Hok. pose proof (active_count_size s Hok) as E1. rewrite active_count_entries in E1.
  pose proof (category_split c (slots_ s)) as E2. unfold owned in *. rewrite filter_map_size by apply Hok. lia.
Qed.

Lemma retire_category_locked_exact s c :
  sound s -> wp 0 (retire_category_locked c) (fun r _ s' => r = Ok tt /\ sound s') s.
Proof.
  intros Hs. pose proof (sd_bank _ Hs) as Hok. pose proof (proj1 Hok) as Hl.
  unfold retire_category_locked. wp_step. apply validate_sound; [done..|].
  unfold retire_category_checked. do 2 wp_step. destruct (_ =? 0); [by wp_steps|]. wp_step. eapply wp_mono.
  { apply (wp_for_each (visited c s) (fun s' => bank_ok s' /\ thinned c (owned s) (owned s')) 0 (length (slots_ s))).
    - intros i n' s' Hi Hv. apply visit_spec; [lia|done].
    - split; [done|]. split; [done|]. split; [by left|]. lia. }
  intros [[]|e] n' s' _ Hv; [|destruct Hv; lia]. destruct Hv as [-> Hv]. rewrite Nat.add_0_l, Hl in Hv.
  pose proof (visited_all _ _ _ Hv) as Ho. destruct Hv as (Hok' & (_ & E1 & E2 & E3) & _).
  apply commit_retirement_exact; [done|rewrite E2; apply Hs|]. intros s2 Hb Eo Ec Hg. split; [done|].
  split; [by eapply same_bank_ok| |by rewrite Ec, E3; apply Hs|done].
  rewrite Eo, (same_bank_owned _ _ Hb), Ho. by rewrite category_size.
Qed.

(** ** Snapshots *)

Definition sum_bytes (es : list ((label * Z) * Z)) : Z := foldr (fun e acc => e.2 + acc) 0 es.

(** The number of live records of a category, as the dictionary holds it *)
Definition category_count (c : label) (es : list ((label * Z) * Z)) : option Z :=
  match length (filter (fun e => e.1.1 = c) es) with O => None | S n => Some (Z.of_nat (S n)) end.

Lemma sum_bytes_snoc es e : sum_bytes (es ++ [e]) = sum_bytes es + e.2.
Proof. induction es as [|e' es IH]; unfold sum_bytes in *; simpl in *; lia. Qed.

Lemma snapshot_fold l :
  exists counts oldest,
    foldl snapshot_visit (∅, 0, 0, 0) l = (counts, sum_bytes (entries l), oldest, Z.of_nat (length (entries l))) /\
    forall c, counts !! c = category_count c (entries l).
Proof.
  induction l as [|x l IH] using rev_ind; [by exists ∅, 0|]. destruct IH as (counts & oldest & E & Hc).
  rewrite foldl_snoc, E. unfold snapshot_visit. destruct (active x) eqn:Ea.
  - assert (entries (l ++ [x]) = entries l ++ [((category x, token x), retained_bytes x)]) as ->.
    { unfold entries. rewrite omap_app. simpl. unfold entry at 2. by rewrite Ea. }
    eexists _, _. split; [rewrite sum_bytes_snoc, length_app; do 2 f_equal; simpl; lia|].
    intros c. unfold category_count. rewrite filter_app, length_app. destruct (decide (category x = c)) as [<-|Hne].
    + rewrite lookup_insert_eq, Hc, filter_cons_True by done. unfold category_count. rewrite filter_nil. simpl length.
      destruct (length (filter _ (entries l))); simpl; [done|]. rewrite Nat.add_1_r. f_equal. lia.
    + rewrite lookup_insert_ne, Hc, filter_cons_False by done. unfold category_count. simpl. by rewrite Nat.add_0_r.
  - assert (entries (l ++ [x]) = entries l) as ->.
    { unfold entries. rewrite omap_app. simpl. unfold entry at 2. rewrite Ea. apply app_nil_r. }
    exists counts, oldest. by split.
Qed.

(** ** Reset *)

Definition blank : _TerminalOwnerSlot := Slot false [] 0 0 0 0.

(** The ledger of a process that published nothing *)
Definition fresh (n : nat) (p : Z) : ledger := Ledger n (replicate n blank) p 0 0 false 0 false false.

Lemma clear_exact n s i (Q : result unit -> nat -> ledger -> Prop) :
  (i < length (slots_ s))%nat -> n = 0%nat -> Q (Ok tt) n (at_slot i blank s) -> wp n (clear i) Q s.
Proof.
  intros Hi -> HQ. unfold clear. apply (wp_at_slot 0 i). do 5 (wp_step; slot_store). by slot_store.
Qed.

(** The slots below [i] are blank, and nothing else changed. *)
Definition cleared (s : ledger) (i : nat) (s' : ledger) : Prop :=
  exists l, s' = set_slots l s /\ length l = length (slots_ s) /\ forall j, (j < i)%nat -> (j < length l)%nat -> l !! j = Some blank.

Lemma clear_all_exact s :
  wp 0 (for_each (seq 0 (length (slots_ s))) clear)
    (fun r _ s' => r = Ok tt /\ s' = set_slots (replicate (length (slots_ s)) blank) s) s.
Proof.
  eapply wp_mono.
  { apply (wp_for_each (cleared s) (fun _ => True) 0 (length (slots_ s))).
    - intros i n' s' Hi (l & -> & Hl & Hb).
      assert (forall m, wp m (clear i) (fun r n'' s2 => match r with Ok _ => n'' = m /\ cleared s (S i) s2 | Err _ => (n'' < m)%nat /\ True end)
        (set_slots l s)) as H; [|apply H].
      intros m. unfold clear. apply (wp_at_slot m i).
      assert (i < length (slots_ (set_slots l s)))%nat as Hi' by (simpl; lia).
      do 5 (wp_step; slot_store; [|split; [lia|done]]). slot_store; [|split; [lia|done]]. split; [done|].
      exists (<[i := blank]> l). split; [by destruct s|]. split; [by rewrite length_insert|].
      intros j Hj Hjl. rewrite length_insert in Hjl. destruct (decide (i = j)) as [<-|Hne].
      + by rewrite list_lookup_insert_eq.
      + rewrite list_lookup_insert_ne by done. apply Hb; lia.
    - exists (slots_ s). split; [by destruct s|]. split; [done|]. lia. }
  intros [[]|e] n' s' Hn Hv; [|destruct Hv; lia]. destruct Hv as [_ (l & -> & Hl & Hb)]. split; [done|]. f_equal.
  apply list_eq. intros j. destruct (decide (j < length (slots_ s))%nat) as [Hj|Hj].
  - rewrite (lookup_replicate_2 _ _ _ Hj). apply Hb; lia.
  - rewrite !lookup_ge_None_2; [done|rewrite length_replicate; lia|lia].
Qed.

Lemma reset_exact s p : run (_reset p) s = (Ok tt, Ledger (capacity s) (replicate (length (slots_ s)) blank) p 0 0 false 0 false false).
Proof.
  apply run_eq. unfold _reset. do 6 wp_step. wp_step. eapply wp_mono; [apply clear_all_exact|].
  intros r n' s' Hn [-> ->]. assert (n' = 0%nat) as -> by lia. wp_steps. done.
Qed.

Lemma fresh_sound n p : sound (fresh n p) /\ owned (fresh n p) = ∅.
Proof.
  assert (entries (replicate n blank) = []) as E by (induction n; done).
  assert (owned (fresh n p) = ∅) as Eo by (unfold owned; simpl; by rewrite E).
  split; [|done]. split; simpl; [|by rewrite Eo|done|by vm_compute].
  split; simpl; [by rewrite length_replicate|]. rewrite E. constructor.
Qed.

(** ** Corruption is sticky *)

Definition keeps_quarantine {A} (m : M ledger A) : Prop :=
  forall n s, corrupted s = true -> wp n m (fun _ _ s' => corrupted s' = true) s.

Lemma quarantine_bind {A B} (m : M ledger A) (f : A -> M ledger B) :
  keeps_quarantine m -> (forall a, keeps_quarantine (f a)) -> keeps_quarantine (m ≫= f).
Proof.
  intros Hm Hf n s Hs. wp_step. eapply wp_mono; [by apply Hm|]. intros [a|e] n' s' _ H; [|done]. by apply Hf.
Qed.

Lemma quarantine_store f : (forall s, corrupted s = true -> corrupted (f s) = true) -> keeps_quarantine (store f).
Proof. intros Hf n s Hs. wp_steps; auto. Qed.

Lemma quarantine_reads {A} (f : ledger -> A) : keeps_quarantine (reads f).
Proof. intros n s Hs. by wp_steps. Qed.
Lemma quarantine_ret {A} (a : A) : keeps_quarantine (ret a).
Proof. intros n s Hs. by wp_steps. Qed.
Lemma quarantine_tick : keeps_quarantine tick.
Proof. intros n s Hs. by wp_steps. Qed.
Lemma quarantine_when b m : keeps_quarantine m -> keeps_quarantine (whenM b m).
Proof. intros Hm n s Hs. apply wp_whenM; [by intros _; apply Hm|done]. Qed.
Lemma quarantine_for_each {A} (l : list A) f : (forall x, keeps_quarantine (f x)) -> keeps_quarantine (for_each l f).
Proof. intros Hf. induction l as [|x l IH]; [apply quarantine_ret|]. apply quarantine_bind; [apply Hf|done]. Qed.

#[export] Hint Resolve quarantine_bind quarantine_store quarantine_reads quarantine_ret quarantine_tick quarantine_when
  quarantine_for_each : sanitizer.

Ltac quarantine :=
  repeat first
    [ apply quarantine_reads | apply quarantine_ret | apply quarantine_tick | apply quarantine_when
    | apply quarantine_store; by intros | apply quarantine_bind; [|intros ?]
    | apply quarantine_for_each; intros ?
    | match goal with
      | |- keeps_quarantine (let '(_, _) := ?p in _) => destruct p
      | |- keeps_quarantine (if ?b then _ else _) => destruct b
      | |- keeps_quarantine (match ?o with Some _ => _ | None => _ end) => destruct o
      end ].

Lemma publish_locked_quarantine c t b now : keeps_quarantine (publish_locked c t b now).
Proof.
  unfold publish_locked, publish_checked, publish_existing, publish_new, _validate_owner_cache_locked,
    _record_rejection_locked, _prepare_generation_advance_locked, store_slot, diagnostic_transition. quarantine.
Qed.
Lemma retire_locked_quarantine c t : keeps_quarantine (retire_locked c t).
Proof.
  unfold retire_locked, retire_checked, vacate, clear, commit_retirement, _validate_owner_cache_locked,
    _record_rejection_locked, _prepare_generation_advance_locked, store_slot, diagnostic_transition. quarantine.
Qed.
Lemma retire_category_quarantine c : keeps_quarantine (retire_category_locked c).
Proof.
  unfold retire_category_locked, retire_category_checked, vacate, clear, commit_retirement, _validate_owner_cache_locked,
    _record_rejection_locked, _prepare_generation_advance_locked, store_slot, diagnostic_transition. quarantine.
Qed.

(** ** The ledger of one process *)

Lemma ensure_process_same n s (Q : result unit -> nat -> ledger -> Prop) : Q (Ok tt) n s -> wp n (_ensure_process (pid s)) Q s.
Proof. intros HQ. unfold _ensure_process. do 2 wp_step. rewrite Z.eqb_refl. by apply wp_ret. Qed.

(** The label under which an owner is filed *)
Definition filed (c : label) : label := if (length c <=? _MAX_LABEL_CHARS)%nat then c else take _MAX_LABEL_CHARS c.

Lemma publish_start {n s} now c t b (Q : result bool -> nat -> ledger -> Prop) :
  0 <= b -> wp n (publish_locked (filed c) t b now) Q s -> wp n (publish (pid s) now (Exact c) (Exact t) (Exact b)) Q s.
Proof.
  intros Hb H. unfold publish. wp_step. apply ensure_process_same. wp_step. wp_step. simpl.
  rewrite (proj2 (Z.ltb_ge _ _)) by done. exact H.
Qed.

Lemma retire_start {n s} c t (Q : result unit -> nat -> ledger -> Prop) :
  wp n (retire_locked (filed c) t) Q s -> wp n (retire (pid s) (Exact c) (Exact t)) Q s.
Proof. intros H. unfold retire. wp_step. apply ensure_process_same. wp_step. wp_step. exact H. Qed.

Lemma retire_category_start {n s} c (Q : result unit -> nat -> ledger -> Prop) :
  wp n (retire_category_locked (filed c)) Q s -> wp n (retire_category (pid s) (Exact c)) Q s.
Proof. intros H. unfold retire_category. wp_step. apply ensure_process_same. wp_step. wp_step. exact H. Qed.

(** Terminal records commit at one store.  Whatever asynchronous exceptions
    cut an operation, no owner ever has two records, a publication has either
    recorded exactly its owner or changed nothing, and a retirement has removed
    only its owner or owners of its category; an operation that returns has
    done what it says. *)
Theorem terminal_commit_points s c t b now k :
  bank_ok s -> 0 <= b ->
  (let '(r, _, s') := publish (pid s) now (Exact c) (Exact t) (Exact b) k s in published (filed c, t) b s r s') /\
  (let '(r, _, s') := retire (pid s) (Exact c) (Exact t) k s in retired (filed c, t) s r s') /\
  (let '(r, _, s') := retire_category (pid s) (Exact c) k s in category_retired (filed c) s r s').
Proof.
  intros Hok Hb. split; [|split].
  - pose proof (wp_any _ (published (filed c, t) b s) s k (fun n => publish_start now c t b _ Hb (publish_locked_spec n s _ t b now Hok))) as H.
    by destruct (publish _ _ _ _ _ k s) as [[r k'] s'].
  - pose proof (wp_any _ (retired (filed c, t) s) s k (fun n => retire_start c t _ (retire_locked_spec n s _ t Hok))) as H.
    by destruct (retire _ _ _ k s) as [[r k'] s'].
  - pose proof (wp_any _ (category_retired (filed c) s) s k (fun n => retire_category_start c _ (retire_category_locked_spec n s _ Hok))) as H.
    by destruct (retire_category _ _ k s) as [[r k'] s'].
Qed.

Lemma sum_bytes_perm l l' : l ≡ₚ l' -> sum_bytes l = sum_bytes l'.
Proof. unfold sum_bytes. induction 1; simpl; lia. Qed.

Lemma sum_bytes_map s : bank_ok s -> sum_bytes (entries (slots_ s)) = map_fold (fun _ b acc => b + acc) 0 (owned s).
Proof.
  intros [_ Hnd]. rewrite map_fold_foldr, <- (sum_bytes_perm _ _ (map_to_list_to_map _ Hnd)). unfold owned, sum_bytes.
  induction (map_to_list (list_to_map (entries (slots_ s)) : gmap (label * Z) Z)) as [|[k b] l IH]; simpl; [done|]. by rewrite IH.
Qed.

Lemma category_count_size s c :
  bank_ok s ->
  category_count c (entries (slots_ s)) =
  match size (filter (fun kv => kv.1.1 = c) (owned s)) with O => None | S n => Some (Z.of_nat (S n)) end.
Proof.
  intros [_ Hnd]. unfold category_count, owned.
  assert (length (filter (fun e => e.1.1 = c) (entries (slots_ s)))
    = size (filter (fun kv => kv.1.1 = c) (list_to_map (entries (slots_ s)) : gmap (label * Z) Z))) as ->; [|done].
  revert Hnd. generalize (entries (slots_ s)) as es. induction es as [|[k b] es IH]; intros Hnd; [done|].
  apply NoDup_cons in Hnd as [Hni Hnd]. apply not_elem_of_list_to_map in Hni. cbn [list_to_map foldr uncurry].
  destruct (decide (k.1 = c)) as [E|E].
  - rewrite (filter_cons_True _ (k, b)) by done. rewrite map_filter_insert_True by done.
    rewrite map_size_insert_None; [simpl; f_equal; by apply IH|]. apply map_lookup_filter_None. by left.
  - rewrite (filter_cons_False _ (k, b)) by done. rewrite map_filter_insert_False by done.
    rewrite delete_id by done. by apply IH.
Qed.

(** C28: the ledger is a bounded map.  Without interruptions the operations
    return and act on the map from owners to retained bytes: a publication
    succeeds exactly for a known record or within capacity while generations
    last, retirements delete, and the ledger is never quarantined. *)
Theorem terminal_ledger_refines_map s c t b now :
  sound s -> 0 <= b ->
  (let '(r, s') := run (publish (pid s) now (Exact c) (Exact t) (Exact b)) s in
   let ok := admits s (filed c, t) b in
   r = Ok ok /\ sound s' /\ owned s' = if ok then <[(filed c, t) := b]> (owned s) else owned s) /\
  (let '(r, s') := run (retire (pid s) (Exact c) (Exact t)) s in
   r = Ok tt /\ sound s' /\ owned s' = delete (filed c, t) (owned s)) /\
  (let '(r, s') := run (retire_category (pid s) (Exact c)) s in
   r = Ok tt /\ sound s' /\ owned s' = filter (fun kv => kv.1.1 <> filed c) (owned s)).
Proof.
  intros Hs Hb. pose proof (sd_bank _ Hs) as Hok. split; [|split].
  - pose proof (wp_run _ (fun r s' => r = Ok (admits s (filed c, t) b) /\ sound s') s (publish_start now c t b _ Hb
      ltac:(unfold publish_locked; wp_step; apply validate_sound; [exact Hs|done|apply publish_checked_exact, Hs]))) as [E Hs'].
    pose proof (wp_run _ (published (filed c, t) b s) s (publish_start now c t b _ Hb (publish_locked_spec 0 s _ t b now Hok))) as (_ & _ & Hy & Hn).
    destruct (run _ s) as [r s']. simpl in *. split; [done|]. split; [done|]. destruct (admits s (filed c, t) b); auto.
  - pose proof (wp_run _ (fun r s' => r = Ok tt /\ sound s') s (retire_start c t _ (retire_locked_exact s _ t Hs))) as [E Hs'].
    pose proof (wp_run _ (retired (filed c, t) s) s (retire_start c t _ (retire_locked_spec 0 s _ t Hok))) as (_ & _ & Hy).
    destruct (run _ s) as [r s']. simpl in *. auto.
  - pose proof (wp_run _ (fun r s' => r = Ok tt /\ sound s') s (retire_category_start c _ (retire_category_locked_exact s _ Hs))) as [E Hs'].
    pose proof (wp_run _ (category_retired (filed c) s) s (retire_category_start c _ (retire_category_locked_spec 0 s _ Hok))) as (_ & _ & Hy).
    destruct (run _ s) as [r s']. simpl in *. auto.
Qed.

Lemma commit_retirement_total n s v : n = 0%nat -> wp n (commit_retirement v) (fun r _ _ => r = Ok tt) s.
Proof.
  intros ->. unfold commit_retirement, diagnostic_transition. do 3 wp_step. apply prepare_exact.
  - intros _. by wp_steps.
  - intros s' _ _ _. by wp_steps.
Qed.

Lemma retire_checked_total s c t count : bank_ok s -> wp 0 (retire_checked c t count) (fun r _ _ => r = Ok tt) s.
Proof.
  intros Hok. unfold retire_checked. do 2 wp_step. destruct (_find_slot_locked c t s) as [i|] eqn:Ef; [|by wp_steps].
  destruct (find_key_Some s c t i Hok Ef) as (Hi & Ha & _). wp_step.
  apply vacate_exact; [done..|]. intros _ _. by apply commit_retirement_total.
Qed.

Lemma retire_locked_total s c t : bank_ok s -> wp 0 (retire_locked c t) (fun r _ _ => r = Ok tt) s.
Proof.
  intros Hok. unfold retire_locked. wp_step. apply validate_spec; [intros _; by apply retire_checked_total| |done].
  intros s' _ [Hb _] _ _. apply retire_checked_total. by eapply same_bank_ok.
Qed.

Lemma publish_quarantined s c t b now :
  bank_ok s -> owners s <> Z.of_nat (size (owned s)) \/ corrupted s = true ->
  wp 0 (publish_locked c t b now) (fun r _ s' => r = Ok false /\ owned s' = owned s /\ corrupted s' = true) s.
Proof.
  intros Hok H. unfold publish_locked, publish_checked. wp_step. pose proof (active_count_size s Hok) as Hc.
  apply validate_spec; [| |done].
  - intros E. destruct H as [H|H]; [congruence|]. do 2 wp_step. rewrite H. unfold diagnostic_transition. by wp_steps.
  - intros s' _ [Hb _] Hq _. do 2 wp_step. rewrite Hq. unfold diagnostic_transition. wp_steps.
    split_and!; [done|by apply same_bank_owned|done].
Qed.

(** A diverged owner count quarantines publication.  When an interruption
    left the cached count different from the bank, the next publication
    returns false and records nothing, and from then on no operation of this
    process, interrupted or not, lifts the quarantine, while retirement still
    removes the exact record. *)
Theorem divergence_quarantines s c t b now :
  bank_ok s -> 0 <= b -> owners s <> Z.of_nat (size (owned s)) \/ corrupted s = true ->
  (let '(r, s') := run (publish (pid s) now (Exact c) (Exact t) (Exact b)) s in
   r = Ok false /\ owned s' = owned s /\ corrupted s' = true) /\
  (corrupted s = true -> forall k,
     corrupted (publish (pid s) now (Exact c) (Exact t) (Exact b) k s).2 = true /\
     corrupted (retire (pid s) (Exact c) (Exact t) k s).2 = true /\
     corrupted (retire_category (pid s) (Exact c) k s).2 = true) /\
  owned (run (retire (pid s) (Exact c) (Exact t)) s).2 = delete (filed c, t) (owned s).
Proof.
  intros Hok Hb Hd. split; [|split].
  - pose proof (wp_run _ (fun r s' => r = Ok false /\ owned s' = owned s /\ corrupted s' = true) s
      (publish_start now c t b _ Hb (publish_quarantined s (filed c) t b now Hok Hd))) as H.
    by destruct (run _ s) as [r s'].
  - intros Hq k. split; [|split].
    + apply (wp_any _ (fun _ s' => corrupted s' = true)). intros n. apply publish_start; [done|]. by apply publish_locked_quarantine.
    + apply (wp_any _ (fun _ s' => corrupted s' = true)). intros n. apply retire_start. by apply retire_locked_quarantine.
    + apply (wp_any _ (fun _ s' => corrupted s' = true)). intros n. apply retire_category_start. by apply retire_category_quarantine.
  - pose proof (wp_run _ (retired (filed c, t) s) s (retire_start c t _ (retire_locked_spec 0 s _ t Hok))) as (_ & _ & Hy).
    apply Hy. apply (wp_run _ (fun r _ => r = Ok tt)), retire_start, retire_locked_total, Hok.
Qed.

(** A snapshot is exact.  In any state of the bank, also after
    interruptions, a snapshot counts the live owners, the bytes they retain and
    the owners of each category, listing each category with a live owner once. *)
Theorem terminal_snapshot_exact s :
  bank_ok s ->
  let '(r, s') := run (snapshot (pid s)) s in
  s' = s /\
  match r with
  | Ok snap =>
      snap_owners snap = Z.of_nat (size (owned s)) /\
      snap_retained_bytes snap = map_fold (fun _ b acc => b + acc) 0 (owned s) /\
      total_attributed_bytes snap
        = map_fold (fun _ b acc => b + acc) 0 (owned s) + _TERMINAL_OWNER_RECORD_BYTES * Z.of_nat (size (owned s)) /\
      NoDup (snap_categories snap).*1 /\
      forall c n, (c, n) ∈ snap_categories snap <->
        0 < n /\ n = Z.of_nat (size (filter (fun kv => kv.1.1 = c) (owned s)))
  | Err _ => False
  end.
Proof.
  intros Hok. assert (run (snapshot (pid s)) s = (Ok (snapshot_locked s), s)) as ->.
  { apply run_eq. unfold snapshot. wp_step. apply ensure_process_same. by wp_steps. }
  split; [done|]. unfold snapshot_locked. destruct (snapshot_fold (slots_ s)) as (counts & oldest & -> & Hc).
  unfold total_attributed_bytes. simpl. rewrite <- sum_bytes_map, <- (active_count_size s Hok), active_count_entries by done.
  split_and!; [done|done|lia| |].
  - unfold sorted_items. rewrite merge_sort_Permutation. apply NoDup_fst_map_to_list.
  - intros c n. unfold sorted_items. rewrite merge_sort_Permutation, elem_of_map_to_list, Hc, category_count_size by done.
    destruct (size _) as [|m]; split; [done|lia|intros [= <-]; lia|intros [_ ->]; done].
Qed.

(** a ledger starts empty.  Construction accepts exactly the capacities in
    range, and a new ledger, or one reset in a child process, is sound and
    records nothing. *)
Theorem terminal_init_sound cap p s q :
  (init (Exact cap) p = if (0 <? cap) && (cap <=? _MAX_TERMINAL_OWNERS) then Ok (fresh (Z.to_nat cap) p) else Err ValueError) /\
  init OtherType p = Err TypeError /\
  (length (slots_ s) = capacity s ->
   run (reset_after_fork q) s = (Ok tt, fresh (capacity s) q) /\ sound (fresh (capacity s) q) /\ owned (fresh (capacity s) q) = ∅).
Proof.
  split; [|split; [done|]].
  - unfold init. destruct (Z.leb_spec cap 0), (Z.ltb_spec _MAX_TERMINAL_OWNERS cap), (Z.ltb_spec 0 cap), (Z.leb_spec cap _MAX_TERMINAL_OWNERS);
      try lia; cbn [orb andb]; try done. rewrite reset_exact. simpl. by rewrite length_replicate.
  - intros Hl. split; [|apply fresh_sound]. unfold reset_after_fork. by rewrite reset_exact, Hl.
Qed.


(** ** Witnesses *)

Definition ex_ledger : ledger := (run (publish 7 5 (Exact [97]) (Exact 1) (Exact 10)) (fresh 2 7)).2.

Lemma ex_ledger_bank : bank_ok ex_ledger.
Proof. split; [vm_compute; reflexivity|]. vm_compute. repeat constructor. apply not_elem_of_nil. Qed.

Lemma ex_ledger_sound : sound ex_ledger.
Proof. split; [apply ex_ledger_bank|vm_compute; reflexivity|vm_compute; reflexivity|vm_compute; discriminate]. Qed.

Lemma terminal_commit_points_witness :
  let '(r, _, s') := publish 7 6 (Exact [98]) (Exact 2) (Exact 20) [6%nat] ex_ledger in
  r = Err AsyncInterrupt /\ published ([98], 2) 20 ex_ledger r s' /\ owned s' = <[([98], 2) := 20]> (owned ex_ledger).
Proof.
  pose proof (terminal_commit_points ex_ledger [98] 2 20 6 [6%nat] ex_ledger_bank ltac:(lia)) as [H _].
  change (pid ex_ledger) with 7 in H.
  assert ((publish 7 6 (Exact [98]) (Exact 2) (Exact 20) [6%nat] ex_ledger).1.1 = Err AsyncInterrupt) as E1 by (vm_compute; reflexivity).
  assert (owned (publish 7 6 (Exact [98]) (Exact 2) (Exact 20) [6%nat] ex_ledger).2 = <[([98], 2) := 20]> (owned ex_ledger)) as E2
    by (vm_compute; reflexivity).
  destruct (publish 7 6 _ _ _ [6%nat] ex_ledger) as [[r k] s']. split; [exact E1|]. split; [exact H|exact E2].
Defined.

Lemma terminal_ledger_refines_map_witness :
  (run (publish (pid ex_ledger) 6 (Exact [98]) (Exact 2) (Exact 20)) ex_ledger).1 = Ok true.
Proof.
  pose proof (terminal_ledger_refines_map ex_ledger [98] 2 20 6 ex_ledger_sound ltac:(lia)) as [H _].
  destruct (run (publish _ _ _ _ _) ex_ledger) as [r s']. destruct H as [-> _]. vm_compute. reflexivity.
Defined.

Lemma divergence_quarantines_witness :
  let s := (publish 7 6 (Exact [98]) (Exact 2) (Exact 20) [6%nat] ex_ledger).2 in
  owners s <> Z.of_nat (size (owned s)) /\ (run (publish (pid s) 8 (Exact [99]) (Exact 3) (Exact 0)) s).1 = Ok false.
Proof.
  cbv zeta. set (s := (publish 7 6 (Exact [98]) (Exact 2) (Exact 20) [6%nat] ex_ledger).2).
  assert (owners s <> Z.of_nat (size (owned s))) as Hd by (vm_compute; discriminate).
  split; [exact Hd|]. destruct (divergence_quarantines s [99] 3 0 8) as [H _].
  - split; [vm_compute; reflexivity|]. vm_compute. repeat constructor; [|apply not_elem_of_nil].
    intros Hin%list_elem_of_singleton. discriminate.
  - lia.
  - by left.
  - destruct (run (publish (pid s) 8 _ _ _) s) as [r s']. destruct H as [-> _]. reflexivity.
Defined.

Lemma terminal_snapshot_exact_witness :
  match run (snapshot (pid ex_ledger)) ex_ledger with
  | (Ok snap, _) => snap_owners snap = 1 /\ snap_retained_bytes snap = 10
  | _ => False
  end.
Proof.
  pose proof (terminal_snapshot_exact ex_ledger ex_ledger_bank) as H.
  destruct (run (snapshot (pid ex_ledger)) ex_ledger) as [[snap|e] s']; [|by destruct H].
  destruct H as [_ (-> & -> & _)]. vm_compute. split; reflexivity.
Defined.
