(* ===== verification/StaticControlPlane.v ===== *)
(** * StaticControlPlane: the ledger of process-static control memory

    [core_impl/static_control_plane.py].  Components register a byte charge under
    a name before they allocate; the aggregate is a cache of the registrations
    that is checked on every use and frozen at shutdown.  Code runs in the monad
    of the prelude, so every statement about an operation that is proved for any
    budget holds for exceptions delivered between any two of its stores. *)

From Stdlib Require Import String.
From S2P Require Import Prelude.

#[local] Open Scope Z_scope.

Definition _MAX_STATIC_CONTROL_KINDS : nat := 256.

(** Module state.  [loaded] says whether the dynamic budget module is imported,
    [shadow] is the static part of what it has charged to the native pool, and
    [syncs] counts its calls.  Locks are numbered: [0] is the first lock, [1]
    and [2] are the bank. *)
Record plane : Type := mk_plane {
  entries : list (string * Z);
  total : Z;
  frozen : bool;
  corrupted : bool;
  loaded : bool;
  shadow : Z;
  syncs : nat;
  lock : nat;
  bank_index : nat;
  fresh_lock : option nat;
  quarantined : list nat;
}.

Definition set_entries l (s : plane) : plane :=
  mk_plane l (total s) (frozen s) (corrupted s) (loaded s) (shadow s) (syncs s) (lock s) (bank_index s) (fresh_lock s) (quarantined s).
Definition set_total t (s : plane) : plane :=
  mk_plane (entries s) t (frozen s) (corrupted s) (loaded s) (shadow s) (syncs s) (lock s) (bank_index s) (fresh_lock s) (quarantined s).
Definition set_frozen f (s : plane) : plane :=
  mk_plane (entries s) (total s) f (corrupted s) (loaded s) (shadow s) (syncs s) (lock s) (bank_index s) (fresh_lock s) (quarantined s).
Definition set_corrupted c (s : plane) : plane :=
  mk_plane (entries s) (total s) (frozen s) c (loaded s) (shadow s) (syncs s) (lock s) (bank_index s) (fresh_lock s) (quarantined s).
Definition set_shadow z (s : plane) : plane :=
  mk_plane (entries s) (total s) (frozen s) (corrupted s) (loaded s) z (syncs s) (lock s) (bank_index s) (fresh_lock s) (quarantined s).
Definition count_sync (s : plane) : plane :=
  mk_plane (entries s) (total s) (frozen s) (corrupted s) (loaded s) (shadow s) (S (syncs s)) (lock s) (bank_index s) (fresh_lock s) (quarantined s).
Definition set_fork l i f q (s : plane) : plane :=
  mk_plane (entries s) (total s) (frozen s) (corrupted s) (loaded s) (shadow s) (syncs s) l i f q.

(** A dict in insertion order. *)
Fixpoint dict_get (k : string) (l : list (string * Z)) : option Z :=
  match l with
  | [] => None
  | (k', v) :: l' => if decide (k = k') then Some v else dict_get k l'
  end.

Fixpoint dict_pop (k : string) (l : list (string * Z)) : list (string * Z) :=
  match l with
  | [] => []
  | (k', v) :: l' => if decide (k = k') then l' else (k', v) :: dict_pop k l'
  end.

Definition _authoritative_total (l : list (string * Z)) : Z := foldl (fun t e => t + e.2) 0 l.

Definition init (is_loaded : bool) : plane := mk_plane [] 0 false false is_loaded 0 0 0 0 None [].

Section Plane.
(** Whether the [n]-th call into the dynamic budget raises. *)
Context (sync_raises : nat -> bool).

(** ** Operations *)

Definition _validate_total_locked : M plane Z :=
  authoritative ← reads (fun s => _authoritative_total (entries s));
  t ← reads total;
  whenM (negb (t =? authoritative)) (store (set_corrupted true));;
  ret authoritative.

(** [_synchronize_control_plane_native_shadow_under_admission_lock]: reads the
    static total and charges it, or raises. *)
Definition sync_locked : M plane unit :=
  authoritative ← _validate_total_locked;
  n ← reads syncs;
  modify count_sync;;
  if sync_raises n then raise RuntimeError else store (set_shadow authoritative).

Definition _sync_dynamic_shadow_noexcept : M plane unit :=
  is_loaded ← reads loaded;
  whenM is_loaded (suppress sync_locked).

Definition publish (kind : string) (amount : Z) : M plane bool :=
  authoritative ← _validate_total_locked;
  is_corrupted ← reads corrupted;
  if is_corrupted : bool then raise RuntimeError
  else
    existing ← reads (fun s => dict_get kind (entries s));
    match existing with
    | Some e => if e =? amount then ret false else raise RuntimeError
    | None =>
      is_frozen ← reads frozen;
      if is_frozen : bool then raise RuntimeError
      else
        count ← reads (fun s => length (entries s));
        if (_MAX_STATIC_CONTROL_KINDS <=? count)%nat then raise RuntimeError
        else
          store (fun s => set_entries (entries s ++ [(kind, amount)]) s);;
          store (set_total (authoritative + amount));;
          tick;;
          ret true
    end.

(** The rollback of [reserve_static_control_plane] when the charge is refused. *)
Definition unpublish (kind : string) (amount : Z) : M plane unit :=
  authoritative ← _validate_total_locked;
  existing ← reads (fun s => dict_get kind (entries s));
  whenM (bool_decide (existing = Some amount)) (
    store (fun s => set_entries (dict_pop kind (entries s)) s);;
    store (set_total (authoritative - amount)));;
  suppress sync_locked.

Definition reserve_static_control_plane (kind : string) (amount : Z) : M plane bool :=
  if bool_decide (kind = EmptyString) || (amount <? 0) then raise ValueError
  else
    is_loaded ← reads loaded;
    if negb is_loaded then
      created ← publish kind amount;
      _sync_dynamic_shadow_noexcept;;
      tick;;
      ret created
    else
      created ← publish kind amount;
      if negb created then ret false
      else
        try_except sync_locked (fun e => unpublish kind amount;; raise e);;
        tick;;
        ret true.

Definition retire (kind : string) (amount : Z) : M plane bool :=
  authoritative ← _validate_total_locked;
  is_frozen ← reads frozen;
  existing ← reads (fun s => dict_get kind (entries s));
  if is_frozen || negb (bool_decide (existing = Some amount)) then ret false
  else if authoritative <? amount then ret false
  else
    store (fun s => set_entries (dict_pop kind (entries s)) s);;
    store (set_total (authoritative - amount));;
    tick;;
    ret true.

Definition rollback_static_control_plane (kind : string) (amount : Z) : M plane bool :=
  is_loaded ← reads loaded;
  retired ← retire kind amount;
  if negb is_loaded then _sync_dynamic_shadow_noexcept;; tick;; ret retired
  else whenM retired (suppress sync_locked);; tick;; ret retired.

Definition register_static_control_plane (kind : string) (amount : Z) : M plane unit :=
  reserve_static_control_plane kind amount;; ret tt.

Definition static_control_plane_bytes : M plane Z := _validate_total_locked.

Definition static_control_plane_entries : M plane (list (string * Z)) := reads entries.

Definition freeze_static_control_plane : M plane Z :=
  authoritative ← _validate_total_locked;
  store (set_frozen true);;
  tick;;
  ret authoritative.

Definition _reset_static_control_plane_for_tests : M plane unit :=
  authoritative ← reads (fun s => _authoritative_total (entries s));
  store (set_total authoritative);;
  store (set_frozen false);;
  store (set_corrupted false).

(** ** Locks across forks *)

Definition bank (i : nat) : nat := S i.

Definition _prepare_for_fork : M plane unit :=
  store (fun s => set_fork (lock s) (bank_index s) (Some (bank (bank_index s))) (quarantined s) s).

Definition _clear_fork : M plane unit :=
  store (fun s => set_fork (lock s) (bank_index s) None (quarantined s) s).

Definition _reset_after_fork : M plane unit :=
  prepared ← reads fresh_lock;
  match prepared with
  | None => ret tt
  | Some l =>
    store (fun s => set_fork (lock s) (bank_index s) (fresh_lock s) (lock s :: quarantined s) s);;
    store (fun s => set_fork l (bank_index s) (fresh_lock s) (quarantined s) s);;
    store (fun s => set_fork (lock s) (bank_index s) None (quarantined s) s);;
    store (fun s => set_fork (lock s) (1 - bank_index s)%nat (fresh_lock s) (quarantined s) s)
  end.

(** ** Specification *)

Definition exact (s : plane) : Prop := total s = _authoritative_total (entries s).

(** Admission is closed: corruption is latched, or the next check latches it. *)
Definition closed (s : plane) : Prop := corrupted s = true \/ ~ exact s.

(** The ledger is well formed: named kinds, each once, with charges that are not
    negative, within the capacity. *)
Record plane_ok (s : plane) : Prop := {
  pk_kinds : NoDup (entries s).*1;
  pk_named : EmptyString ∉ (entries s).*1;
  pk_amounts : Forall (fun e => 0 <= e.2) (entries s);
  pk_capacity : (length (entries s) <= _MAX_STATIC_CONTROL_KINDS)%nat;
}.

(** The same registrations; only the latch, the shadow and the locks may move. *)
Record same_ledger (s s' : plane) : Prop := {
  sl_entries : entries s' = entries s;
  sl_total : total s' = total s;
  sl_frozen : frozen s' = frozen s;
  sl_loaded : loaded s' = loaded s;
  sl_closed : closed s' <-> closed s;
}.

#[local] Instance same_ledger_refl : Reflexive same_ledger.
Proof. intros s; by split. Qed.

#[local] Instance same_ledger_trans : Transitive same_ledger.
Proof. intros s1 s2 s3 [] []; split; try congruence; tauto. Qed.

Lemma authoritative_app l k : _authoritative_total (l ++ k) = _authoritative_total l + _authoritative_total k.
Proof.
  unfold _authoritative_total; rewrite foldl_app.
  assert (forall z k, foldl (fun t e => t + (e : string * Z).2) z k = z + foldl (fun t e => t + e.2) 0 k) as H.
  { intros z k0; revert z; induction k0 as [|e k0 IH]; intros z; cbn [foldl]; [lia|]; rewrite IH, (IH (0 + e.2)); lia. }
  apply H.
Qed.

Lemma authoritative_cons e l : _authoritative_total (e :: l) = e.2 + _authoritative_total l.
Proof. rewrite (authoritative_app [e] l : _authoritative_total (e :: l) = _); unfold _authoritative_total at 1; simpl; lia. Qed.

Lemma static_validate_spec n (Q : result Z -> nat -> plane -> Prop) s :
  (forall s', same_ledger s s' -> shadow s' = shadow s -> syncs s' = syncs s ->
     (corrupted s' = false <-> ~ closed s) -> Q (Ok (_authoritative_total (entries s))) n s') ->
  (forall n', n = S n' -> Q (Err AsyncInterrupt) n' s) ->
  wp n _validate_total_locked Q s.
Proof.
  intros Hok Herr; unfold _validate_total_locked; wp_steps.
  - apply Hok; try done; [split; try done; unfold closed, exact; simpl|]; unfold closed, exact in *; simpl.
    + apply negb_true_iff, Z.eqb_neq in H; tauto.
    + apply negb_true_iff, Z.eqb_neq in H; split; [done|]; intros E; exfalso; tauto.
  - by apply Herr.
  - apply Hok; try done; unfold closed, exact; apply negb_false_iff, Z.eqb_eq in H.
    destruct (corrupted s); split; try done; [intros E; exfalso; tauto|intros _ [?|?]; done].
Qed.

Lemma sync_locked_spec n s :
  wp n sync_locked (fun r _ s' => same_ledger s s' /\ (r = Ok tt -> shadow s' = _authoritative_total (entries s))) s.
Proof.
  unfold sync_locked; wp_steps; apply static_validate_spec; [|by intros].
  intros s1 H1 _ _ _; wp_steps; destruct (sync_raises _); wp_steps; (split; [|done]); etrans; try exact H1; by split.
Qed.

Definition admissible (kind : string) (s : plane) : Prop :=
  ~ closed s /\ dict_get kind (entries s) = None /\ frozen s = false
  /\ (length (entries s) < _MAX_STATIC_CONTROL_KINDS)%nat.

Definition carried (s s' : plane) : Prop := frozen s' = frozen s /\ loaded s' = loaded s.

(** What one operation can leave behind, interrupted or not. *)
Inductive ledger_step (s s' : plane) : Prop :=
| step_same : same_ledger s s' -> ledger_step s s'
| step_added kind amount : admissible kind s -> kind <> EmptyString -> 0 <= amount -> carried s s' ->
    entries s' = entries s ++ [(kind, amount)] -> ledger_step s s'
| step_removed kind : frozen s = false -> carried s s' -> (closed s -> closed s') ->
    entries s' = dict_pop kind (entries s) -> ledger_step s s'.

Lemma dict_get_None k l : dict_get k l = None <-> k ∉ l.*1.
Proof.
  induction l as [|[k' v] l IH]; simpl; [split; [intros _; apply not_elem_of_nil|done]|].
  case_decide; subst; rewrite not_elem_of_cons; [split; [done|tauto]|rewrite IH; tauto].
Qed.

Lemma dict_pop_fresh k l : dict_get k l = None -> dict_pop k l = l.
Proof. induction l as [|[k' v] l IH]; simpl; [done|]; case_decide; [done|]; intros; by rewrite IH. Qed.

Lemma dict_pop_last k v l : dict_get k l = None -> dict_pop k (l ++ [(k, v)]) = l.
Proof.
  induction l as [|[k' v'] l IH]; simpl; [by rewrite decide_True|]; case_decide; [done|]; intros; by rewrite IH.
Qed.

Lemma dict_pop_sublist k l : dict_pop k l `sublist_of` l.
Proof. induction l as [|[k' v] l IH]; simpl; [done|]; case_decide; [by apply sublist_cons|by apply sublist_skip]. Qed.

Lemma dict_pop_total k v l : dict_get k l = Some v -> _authoritative_total (dict_pop k l) = _authoritative_total l - v.
Proof.
  induction l as [|[k' v'] l IH]; simpl; [done|]; case_decide; intros E.
  - injection E as ->; rewrite authoritative_cons; simpl; lia.
  - rewrite !authoritative_cons, IH by done; simpl; lia.
Qed.

Lemma static_publish_spec n kind amount s :
  kind <> EmptyString -> 0 <= amount ->
  wp n (publish kind amount) (fun r n' s' =>
    match r with
    | Ok true => admissible kind s /\ carried s s' /\ entries s' = entries s ++ [(kind, amount)]
                 /\ exact s' /\ corrupted s' = false
    | Ok false => same_ledger s s' /\ dict_get kind (entries s) = Some amount /\ ~ closed s
    | Err _ => ledger_step s s' /\ (n' = n -> same_ledger s s')
    end) s.
Proof.
  intros Hk Ha; unfold publish; wp_steps; apply static_validate_spec; [|intros n' ->; split; [by apply step_same|done]].
  intros s1 H1 _ _ Hc; wp_steps; destruct (corrupted s1) eqn:Hcor; wp_steps; [split; [by apply step_same|done]|].
  assert (Hopen : ~ closed s) by tauto; pose proof H1 as [He1 Ht1 Hf1 Hl1 Hcl1]; rewrite He1.
  destruct (dict_get kind (entries s)) as [e|] eqn:Hget.
  { destruct (Z.eqb_spec e amount); wp_steps; subst; [done|split; [by apply step_same|done]]. }
  wp_steps; destruct (frozen s1) eqn:Hfz; wp_steps; [split; [by apply step_same|done]|].
  rewrite He1; destruct (Nat.leb_spec _MAX_STATIC_CONTROL_KINDS (length (entries s))); wp_steps; [split; [by apply step_same|done]|..].
  all: assert (Hadm : admissible kind s) by (split_and!; try done; congruence).
  - split; [done|split; [by split; simpl; congruence|split; [by simpl; rewrite He1|split; [|done]]]].
    unfold exact; simpl; rewrite He1, authoritative_app; unfold _authoritative_total at 3; simpl; lia.
  - split; [|lia]; apply (step_added _ _ kind amount); try done; [split; simpl; congruence|simpl; by rewrite He1].
  - split; [|lia]; apply (step_added _ _ kind amount); try done; [split; simpl; congruence|simpl; by rewrite He1].
  - split; [by apply step_same|done].
Qed.

Lemma same_ledger_carried s s' : same_ledger s s' -> carried s s'.
Proof. by intros []. Qed.

Lemma carried_trans s1 s2 s3 : carried s1 s2 -> carried s2 s3 -> carried s1 s3.
Proof. intros [] []; split; congruence. Qed.

Lemma exact_open s s' : ~ closed s -> entries s' = entries s -> exact s' -> corrupted s' = false -> carried s s' -> same_ledger s s'.
Proof.
  intros Ho He Hx Hc []; split; try done; unfold closed, exact in *.
  - rewrite He in Hx; destruct (decide (total s = _authoritative_total (entries s))); [congruence|tauto].
  - split; [intros [?|?]; [congruence|done]|tauto].
Qed.

Lemma unpublish_spec n kind amount s s1 :
  admissible kind s -> kind <> EmptyString -> 0 <= amount ->
  carried s s1 -> entries s1 = entries s ++ [(kind, amount)] -> exact s1 -> corrupted s1 = false ->
  wp n (unpublish kind amount) (fun r n' s' => ledger_step s s' /\ (n' = n -> same_ledger s s')) s1.
Proof.
  intros Hadm Hk Ha Hc1 He1 Hx1 Hcor1; assert (Ho1 : ~ closed s1) by (intros [?|?]; [congruence|done]).
  assert (Hadded : forall s', carried s1 s' -> entries s' = entries s1 -> ledger_step s s').
  { intros s' Hc He; apply (step_added _ _ kind amount); try done; [by eapply carried_trans|congruence]. }
  pose proof Hadm as (Ho & Hfresh & Hfz & _).
  unfold unpublish; wp_steps; apply static_validate_spec; [|intros n' ->; split; [by apply Hadded|lia]].
  intros s2 H2 _ _ Hcor2; pose proof H2 as [He2 Ht2 Hf2 Hl2 Hcl2]; wp_step; wp_step; wp_step. rewrite He2, He1.
  assert (Hget : dict_get kind (entries s ++ [(kind, amount)]) = Some amount).
  { clear -Hfresh; induction (entries s) as [|[k v] l IH]; simpl in *; [by rewrite decide_True|]; case_decide; [done|auto]. }
  rewrite Hget, bool_decide_true by done; wp_steps; [|..|done].
  - set (s3 := set_total _ _).
    assert (H3 : same_ledger s s3).
    { apply exact_open; try done; simpl; [by rewrite He2, He1, dict_pop_last| |tauto|].
      - unfold exact; simpl; rewrite He2, He1, (dict_pop_total _ amount) by done; done.
      - eapply carried_trans; [exact Hc1|]; by apply same_ledger_carried in H2. }
    eapply wp_mono; [apply sync_locked_spec|]; intros r n' s' _ [Hs' _].
    split; [apply step_same|intros _]; by etrans.
  - split; [|lia]; apply (step_removed _ _ kind); try done; simpl; [|by rewrite He2, He1, dict_pop_last, dict_pop_fresh].
    eapply carried_trans; [exact Hc1|]; by apply same_ledger_carried in H2.
  - split; [|lia]; apply Hadded; [by apply same_ledger_carried|done].
Qed.

(** The outcome of a reservation. *)
Definition reserved (kind : string) (amount : Z) (s : plane) (n : nat) (r : result bool) (n' : nat) (s' : plane) : Prop :=
  ledger_step s s'
  /\ (r = Ok true -> admissible kind s /\ entries s' = entries s ++ [(kind, amount)] /\ exact s' /\ ~ closed s'
                     /\ (loaded s = true -> shadow s' = _authoritative_total (entries s')))
  /\ (r = Ok false -> same_ledger s s' /\ dict_get kind (entries s) = Some amount /\ ~ closed s)
  /\ (is_ok r = false -> n' = n -> same_ledger s s').

(** From a published entry to the outcome, when the dynamic budget is loaded. *)
Lemma charge_spec n n1 kind amount s s1 :
  admissible kind s -> kind <> EmptyString -> 0 <= amount -> (n1 <= n)%nat ->
  carried s s1 -> entries s1 = entries s ++ [(kind, amount)] -> exact s1 -> corrupted s1 = false ->
  wp n1 (try_except sync_locked (fun e => unpublish kind amount;; raise e);; tick;; ret true)
     (reserved kind amount s n) s1.
Proof.
  intros Hadm Hk Ha Hn1 Hc1 He1 Hx1 Hcor1; assert (Ho1 : ~ closed s1) by (intros [?|?]; [congruence|done]).
  wp_steps; eapply wp_mono; [apply sync_locked_spec|]; intros r n2 s2 Hn2 [H2 Hsh2].
  pose proof H2 as [He2 Ht2 _ _ Hcl2].
  assert (Hc2 : carried s s2) by (eapply carried_trans; [done|by apply same_ledger_carried]).
  assert (He2' : entries s2 = entries s ++ [(kind, amount)]) by congruence.
  assert (Hx2 : exact s2) by (unfold exact in *; congruence).
  assert (Hstep : ledger_step s s2) by (by apply (step_added _ _ kind amount)).
  destruct r as [[]|e]; wp_steps.
  - split; [done|split; [|split; done]].
    intros _; split_and!; try done; [tauto|]; intros _; rewrite Hsh2 by done; congruence.
  - split; [done|split; [done|split; [done|lia]]].
  - eapply wp_mono; [apply (unpublish_spec n2 kind amount s s2); try done|].
    + destruct (corrupted s2) eqn:E; [|done]; exfalso; apply Ho1, Hcl2; by left.
    + intros r n3 s3 Hn3 [H3 H3']; destruct r; wp_steps; split; try done; split; try done; split; try done;
        intros _ ->; apply H3'; lia.
Qed.

Lemma reserve_spec n kind amount s :
  wp n (reserve_static_control_plane kind amount) (reserved kind amount s n) s.
Proof.
  unfold reserve_static_control_plane; destruct (bool_decide _ || _) eqn:Harg; wp_steps.
  { split; [by apply step_same|done]. }
  apply orb_false_iff in Harg as [Hk%bool_decide_eq_false Ha%Z.ltb_ge].
  assert (Herr : forall e n1 s1, (n1 <= n)%nat -> ledger_step s s1 /\ (n1 = n -> same_ledger s s1) ->
    reserved kind amount s n (Err e) n1 s1) by (intros e n1 s1 _ [? ?]; split; done).
  destruct (loaded s) eqn:Hl; cbn [negb]; wp_steps.
  - eapply wp_mono; [by apply static_publish_spec|]; intros [[]|e] n1 s1 Hn1 H1; cbn [negb]; [..|by apply Herr].
    + destruct H1 as (Hadm & Hc1 & He1 & Hx1 & Hcor1); by apply charge_spec.
    + destruct H1 as (H1 & Hg & Ho); wp_steps; split; [by apply step_same|done].
  - eapply wp_mono; [by apply static_publish_spec|]; intros [[]|e] n1 s1 Hn1 H1; [..|by apply Herr].
    + destruct H1 as (Hadm & Hc1 & He1 & Hx1 & Hcor1); unfold _sync_dynamic_shadow_noexcept.
      assert (Ho1 : ~ closed s1) by (intros [?|?]; [congruence|done]).
      assert (Hstep : ledger_step s s1) by (by apply (step_added _ _ kind amount)).
      assert (Hl1 : loaded s1 = false) by (destruct Hc1; congruence); wp_steps; [congruence|..].
      * split; [done|split; [|done]]; intros _; split_and!; try done; congruence.
      * split; [done|split; [done|split; [done|lia]]].
    + destruct H1 as (H1 & Hg & Ho); unfold _sync_dynamic_shadow_noexcept; wp_steps.
      * rewrite (sl_loaded _ _ H1), Hl in H; done.
      * split; [by apply step_same|done].
      * apply Herr; [lia|split; [by apply step_same|lia]].
Qed.

Lemma step_same_r s s1 s2 : ledger_step s s1 -> same_ledger s1 s2 -> ledger_step s s2.
Proof.
  intros [H|k a Ha Hk Hp Hc He|k Hf Hc Hcl He] H2; pose proof (same_ledger_carried _ _ H2) as Hc2.
  - apply step_same; by etrans.
  - apply (step_added _ _ k a); try done; [by eapply carried_trans|by rewrite (sl_entries _ _ H2)].
  - apply (step_removed _ _ k); try done; [by eapply carried_trans|rewrite (sl_closed _ _ H2); done|by rewrite (sl_entries _ _ H2)].
Qed.

Lemma static_retire_spec n kind amount s :
  wp n (retire kind amount) (fun r n' s' => ledger_step s s' /\
    (r = Ok true -> frozen s = false /\ dict_get kind (entries s) = Some amount
                    /\ entries s' = dict_pop kind (entries s) /\ exact s')) s.
Proof.
  unfold retire; wp_steps; apply static_validate_spec; [|intros; split; [by apply step_same|done]].
  intros s1 H1 _ _ Hc1; pose proof H1 as [He1 Ht1 Hf1 Hl1 Hcl1]; wp_steps; rewrite He1.
  destruct (frozen s1 || _) eqn:E; [wp_steps; split; [by apply step_same|done]|].
  apply orb_false_iff in E as [Hfz Hget%negb_false_iff%bool_decide_eq_true].
  destruct (_ <? amount); [wp_steps; split; [by apply step_same|done]|].
  assert (Hrem : forall s', carried s1 s' -> corrupted s' = corrupted s1 -> entries s' = dict_pop kind (entries s) -> ledger_step s s').
  { intros s' Hc Hcor He; apply (step_removed _ _ kind); try done; [congruence| |].
    - eapply carried_trans; [by apply same_ledger_carried|done].
    - intros Hcl; left; rewrite Hcor; destruct (corrupted s1); [done|]; by destruct (proj1 Hc1 eq_refl). }
  assert (Hpop : dict_pop kind (entries s1) = dict_pop kind (entries s)) by (by rewrite He1).
  wp_steps.
  - split; [by apply Hrem|]; intros _; split_and!; try done; [congruence|].
    unfold exact; simpl; rewrite Hpop, (dict_pop_total _ amount) by done; done.
  - split; [by apply Hrem|done].
  - split; [by apply Hrem|done].
  - split; [by apply step_same|done].
Qed.

Lemma sync_noexcept_spec n s : wp n _sync_dynamic_shadow_noexcept (fun r _ s' => same_ledger s s') s.
Proof.
  unfold _sync_dynamic_shadow_noexcept; wp_steps; [|done].
  eapply wp_mono; [apply sync_locked_spec|]; by intros r n' s' _ [? _].
Qed.

Lemma static_rollback_spec n kind amount s :
  wp n (rollback_static_control_plane kind amount) (fun r n' s' => ledger_step s s' /\
    (r = Ok true -> frozen s = false /\ dict_get kind (entries s) = Some amount
                    /\ entries s' = dict_pop kind (entries s) /\ exact s')) s.
Proof.
  unfold rollback_static_control_plane; wp_steps; eapply wp_mono; [apply static_retire_spec|].
  intros [b|e] n1 s1 Hn1 [H1 H1']; [|done].
  assert (Hend : forall n2 s2, same_ledger s1 s2 -> wp n2 (tick;; ret b) (fun r n' s' => ledger_step s s' /\
    (r = Ok true -> frozen s = false /\ dict_get kind (entries s) = Some amount
                    /\ entries s' = dict_pop kind (entries s) /\ exact s')) s2).
  { intros n2 s2 H2; pose proof (step_same_r _ _ _ H1 H2) as Hs; wp_steps; split; try done.
    intros Hb; destruct (H1' Hb) as (? & ? & ? & ?), H2; split_and!; try done; [congruence|unfold exact in *; congruence]. }
  destruct (loaded s); cbn [negb]; wp_step.
  - apply wp_whenM; intros _; [|by apply Hend].
    apply wp_suppress; eapply wp_mono; [apply sync_locked_spec|]; intros r n2 s2 _ [H2 _]; by apply Hend.
  - eapply wp_mono; [apply sync_noexcept_spec|]; intros [[]|e] n2 s2 _ H2; [by apply Hend|].
    split; [by eapply step_same_r|done].
Qed.

(** ** Histories *)

Inductive plane_op : Type :=
| Reserve (kind : string) (amount : Z)
| Rollback (kind : string) (amount : Z)
| Bytes
| Freeze
| PrepareFork
| ClearFork
| ResetFork.

Definition discard {A} (m : M plane A) : M plane unit := m;; ret tt.

Definition plane_code (o : plane_op) : M plane unit :=
  match o with
  | Reserve kind amount => register_static_control_plane kind amount
  | Rollback kind amount => discard (rollback_static_control_plane kind amount)
  | Bytes => discard static_control_plane_bytes
  | Freeze => discard freeze_static_control_plane
  | PrepareFork => _prepare_for_fork
  | ClearFork => _clear_fork
  | ResetFork => _reset_after_fork
  end.

(** Operations one after the other, each under its own schedule of asynchronous
    exceptions, which its caller survives. *)
Fixpoint history (ops : list (plane_op * sched)) (s : plane) : plane :=
  match ops with
  | [] => s
  | (o, k) :: ops' => history ops' (snd (plane_code o k s))
  end.

(** What holds between two states of a history. *)
Record progress (s s' : plane) : Prop := {
  pr_ok : plane_ok s -> plane_ok s';
  pr_frozen : frozen s = true -> frozen s' = true /\ entries s' = entries s;
  pr_closed : closed s -> closed s' /\ entries s' `sublist_of` entries s;
}.

#[local] Instance progress_refl : Reflexive progress.
Proof. intros s; by split. Qed.

#[local] Instance progress_trans : Transitive progress.
Proof.
  intros s1 s2 s3 [A1 B1 C1] [A2 B2 C2]; split; [auto|intros H..].
  - destruct (B1 H) as [H2 E2]; destruct (B2 H2); split; [done|congruence].
  - destruct (C1 H) as [H2 E2]; destruct (C2 H2); split; [done|by etrans].
Qed.

Lemma plane_ok_entries s s' : plane_ok s -> entries s' `sublist_of` entries s -> plane_ok s'.
Proof.
  intros [H1 H2 H3 H4] Hs; pose proof (fmap_sublist fst _ _ Hs) as Hk; split.
  - by eapply sublist_NoDup.
  - intros Hin; apply H2; by eapply elem_of_sublist.
  - rewrite Forall_forall in H3 |- *; intros e He; apply H3; by eapply elem_of_sublist.
  - apply sublist_length in Hs; lia.
Qed.

Lemma step_progress s s' : ledger_step s s' -> progress s s'.
Proof.
  intros [H|k a Ha Hk Hp [Hf Hl] He|k Hfz [Hf Hl] Hcl He].
  - destruct H as [He Ht Hf Hl Hcl]; split; [|split; congruence|].
    + intros Hok; apply (plane_ok_entries s); [done|by rewrite He].
    + intros Hc; split; [tauto|by rewrite He].
  - destruct Ha as (Ho & Hfresh & Hfz & Hcap); split; [|congruence|done]; intros [H1 H2 H3 H4].
    apply dict_get_None in Hfresh; split; rewrite He, ?fmap_app; simpl.
    + apply NoDup_app; split_and!; [done|intros x Hx ->%list_elem_of_singleton; done|apply NoDup_singleton].
    + rewrite elem_of_app, list_elem_of_singleton; intros [?|?]; [done|by subst].
    + apply Forall_app; by repeat constructor.
    + rewrite length_app; simpl; lia.
  - split; [|congruence|intros Hc; split; [auto|rewrite He; apply dict_pop_sublist]].
    intros Hok; apply (plane_ok_entries s); [done|rewrite He; apply dict_pop_sublist].
Qed.

Lemma freeze_spec n s : wp n freeze_static_control_plane (fun r _ s' => progress s s') s.
Proof.
  unfold freeze_static_control_plane; wp_steps; apply static_validate_spec; [|done].
  intros s1 H1 _ _ _; pose proof (step_progress _ _ (step_same _ _ H1)) as Hp.
  assert (progress s (set_frozen true s1)) as Hf.
  { etrans; [exact Hp|]; split; simpl; try done; intros []; by split. }
  wp_steps; done.
Qed.

Lemma plane_code_spec n o s : wp n (plane_code o) (fun r _ s' => progress s s') s.
Proof.
  assert (Hlocks : forall s l i f q, progress s (set_fork l i f q s)) by (intros; apply step_progress, step_same; by split).
  destruct o; simpl; unfold register_static_control_plane, discard; wp_steps.
  - eapply wp_mono; [apply reserve_spec|]; intros [b|e] n' s' _ [H _]; wp_steps; by apply step_progress.
  - eapply wp_mono; [apply static_rollback_spec|]; intros [b|e] n' s' _ [H _]; wp_steps; by apply step_progress.
  - apply static_validate_spec; [|done]; intros; wp_steps; by apply step_progress, step_same.
  - eapply wp_mono; [apply freeze_spec|]; intros [b|e] n' s' _ H; wp_steps; done.
  - unfold _prepare_for_fork; wp_steps; [apply Hlocks|done].
  - unfold _clear_fork; wp_steps; [apply Hlocks|done].
  - assert (Hnext : forall s1 l i f q, progress s s1 -> progress s (set_fork l i f q s1)) by (intros; etrans; [done|apply Hlocks]).
    unfold _reset_after_fork; wp_steps; destruct (fresh_lock s); wp_steps; repeat first [reflexivity|apply Hnext].
Qed.

Lemma history_progress ops s : progress s (history ops s).
Proof.
  revert s; induction ops as [|[o k] ops IH]; intros s; [done|]; simpl; etrans; [|apply IH].
  apply (wp_any (plane_code o) (fun _ s' => progress s s')); intros n; apply plane_code_spec.
Qed.

(** C22: The ledger of static charges stays well formed whatever is called and
    wherever the calls are interrupted: kinds are named and registered once,
    charges are not negative and the capacity holds.  After a freeze the
    registrations never change, and once the cached total disagrees with them
    nothing is registered again. *)
Theorem plane_history_wf is_loaded before after :
  let s := history before (init is_loaded) in
  let s' := history after s in
  plane_ok s' /\ (frozen s = true -> frozen s' = true /\ entries s' = entries s)
  /\ (closed s -> closed s' /\ entries s' `sublist_of` entries s).
Proof.
  intros s s'; pose proof (history_progress after s) as [_ Hf Hc].
  assert (plane_ok s') as Hok; [|done].
  do 2 apply history_progress; split; simpl; [constructor|apply not_elem_of_nil|constructor|lia].
Qed.

End Plane.

Module Example.

(** A loaded budget that refuses the second charge. *)
Definition refuses_second (n : nat) : bool := (n =? 1)%nat.

Definition one_kind : plane := snd (run (reserve_static_control_plane refuses_second "pool" 64) (init true)).

(** A refused charge leaves the first kind alone; an interrupt between the entry and
    the total closes the ledger. *)
Example refused_and_interrupted :
  let refused := run (reserve_static_control_plane refuses_second "ring" 32) one_kind in
  let interrupted := reserve_static_control_plane refuses_second "ring" 32 [1%nat] one_kind in
  (fst refused, entries (snd refused), total (snd refused)) = (Err RuntimeError, [("pool"%string, 64)], 64)
  /\ (fst (fst interrupted), entries (snd interrupted), total (snd interrupted))
     = (Err AsyncInterrupt, [("pool"%string, 64); ("ring"%string, 32)], 64)
  /\ fst (run (reserve_static_control_plane refuses_second "more" 1) (snd interrupted)) = Err RuntimeError.
Proof. vm_compute; split_and!; reflexivity. Qed.
End Example.
