(* ===== verification/ForkSafety.v ===== *)
(** * ForkSafety: poisoning and quarantine in forked children

    [core_impl/fork_safety.py].  A child of a fork is poisoned for good; handlers
    root the object graphs it inherited in arrays that were allocated before the
    fork, one slab per generation, because the child must not grow containers.
    Two generations have their own slab and their own replacement lock; deeper
    ones are collapsed into the second. *)

From Stdlib Require Import String.
From S2P Require Import Prelude.

Definition _MAX_FORK_CAPSULE_ENTRIES : nat := 64.
Definition _MAX_FORK_QUARANTINE_GENERATIONS : nat := 2.
Definition _MAX_INLINE_OWNERS : nat := 8.

Section Safety.
Context {O : Type}.

(** Module state; locks are numbered: [0] is the first one, [1] and [2] the bank. *)
Record safety : Type := mk_safety {
  initial_pid : Z;
  pid : Z;
  forked_child : bool;
  fork_generation : nat;
  lock : nat;
  bank_index : nat;
  prepared_lock : option nat;
  labels : list (option string);
  owners : list (option O);
  capsule_counts : list nat;
  capsule_count : nat;
  rejected : nat;
  overflowed : bool;
}.

Definition _CHILD_LOCK_BANK : list nat := [1; 2].

Definition start (p : Z) : safety :=
  mk_safety p p false 0 0 0 None
    (replicate (_MAX_FORK_CAPSULE_ENTRIES * _MAX_FORK_QUARANTINE_GENERATIONS) None)
    (replicate (_MAX_FORK_CAPSULE_ENTRIES * _MAX_FORK_QUARANTINE_GENERATIONS * _MAX_INLINE_OWNERS) None)
    [0; 0] 0 0 false.

Definition set_child child generation l bank prepared (s : safety) : safety :=
  mk_safety (initial_pid s) (pid s) child generation l bank prepared (labels s) (owners s) (capsule_counts s)
            (capsule_count s) (rejected s) (overflowed s).

Definition set_capsules ls os counts count (s : safety) : safety :=
  mk_safety (initial_pid s) (pid s) (forked_child s) (fork_generation s) (lock s) (bank_index s) (prepared_lock s)
            ls os counts count (rejected s) (overflowed s).

Definition set_rejected r o (s : safety) : safety :=
  mk_safety (initial_pid s) (pid s) (forked_child s) (fork_generation s) (lock s) (bank_index s) (prepared_lock s)
            (labels s) (owners s) (capsule_counts s) (capsule_count s) r o.

Definition set_pid p (s : safety) : safety :=
  mk_safety (initial_pid s) p (forked_child s) (fork_generation s) (lock s) (bank_index s) (prepared_lock s)
            (labels s) (owners s) (capsule_counts s) (capsule_count s) (rejected s) (overflowed s).

(** ** Fork callbacks *)

Definition _prepare_fork_child_state (s : safety) : safety :=
  let prepared := if 1 <? fork_generation s then None else _CHILD_LOCK_BANK !! bank_index s in
  set_child (forked_child s) (fork_generation s) (lock s) (bank_index s) prepared s.

Definition _clear_parent_fork_preparation (s : safety) : safety :=
  set_child (forked_child s) (fork_generation s) (lock s) (bank_index s) None s.

Definition _mark_forked_child (s : safety) : safety :=
  let generation := if fork_generation s =? 0 then 1 else 2 in
  match prepared_lock s with
  | Some l => set_child true generation l (1 - bank_index s) None s
  | None => set_child true generation (lock s) (bank_index s) None s
  end.

Definition fork_quarantine_generation (s : safety) : nat := fork_generation s.

Definition runtime_fork_poisoned (s : safety) : bool := forked_child s || negb (Z.eqb (pid s) (initial_pid s)).

Definition ensure_runtime_fork_safe (s : safety) : result unit :=
  if runtime_fork_poisoned s then Err RuntimeError else Ok tt.

(** ** Quarantine *)

(** [_FORK_LABELS[generation_base + offset] == label] for some offset. *)
Fixpoint has_label (label : string) (ls : list (option string)) (base : nat) (offsets : list nat) : bool :=
  match offsets with
  | [] => false
  | offset :: offsets' =>
    if bool_decide (ls !! (base + offset) = Some (Some label)) then true else has_label label ls base offsets'
  end.

(** The eight stores of the owners, in order. *)
Definition store_first (n base : nat) (given : list (option O)) (os : list (option O)) : list (option O) :=
  foldl (fun os i => <[base + i := default None (given !! i)]> os) os (seq 0 n).

Definition store_owners : nat -> list (option O) -> list (option O) -> list (option O) := store_first _MAX_INLINE_OWNERS.

(** The stores that add a capsule to the slab of a generation. *)
Definition root_capsule (generation_index : nat) (label : string) (given : list (option O)) (s : safety) : safety :=
  let generation_count := capsule_counts s !!! generation_index in
  let index := generation_index * _MAX_FORK_CAPSULE_ENTRIES + generation_count in
  let base := index * _MAX_INLINE_OWNERS in
  set_capsules (<[index := Some label]> (labels s)) (store_owners base given (owners s))
               (<[generation_index := S generation_count]> (capsule_counts s)) (S (capsule_count s)) s.

Definition quarantine_inherited_state (label : string) (given : list (option O)) (s : safety) : bool * safety :=
  let generation := fork_generation s in
  if (generation <? 1) || (_MAX_FORK_QUARANTINE_GENERATIONS <? generation) then (false, s)
  else if bool_decide (label = EmptyString) then (false, s)
  else
    let generation_index := generation - 1 in
    let generation_count := capsule_counts s !!! generation_index in
    let generation_base := generation_index * _MAX_FORK_CAPSULE_ENTRIES in
    if has_label label (labels s) generation_base (seq 0 generation_count) then (true, s)
    else if _MAX_FORK_CAPSULE_ENTRIES <=? generation_count then
      (false, set_rejected (S (rejected s)) true s)
    else (true, root_capsule generation_index label given s).

(** [fork_inherited_capsule_snapshot]: entries, capacity, rejected, generation. *)
Definition fork_inherited_capsule_snapshot (s : safety) : nat * nat * nat * nat :=
  let rejected_ := if overflowed s then Nat.max 1 (rejected s) else rejected s in
  (capsule_count s, _MAX_FORK_CAPSULE_ENTRIES * _MAX_FORK_QUARANTINE_GENERATIONS, rejected_, fork_generation s).

(** ** Invariant *)

(** The label and the owners at one position of the slabs. *)
Definition capsule_at (s : safety) (i : nat) : option (string * list (option O)) :=
  match labels s !! i with
  | Some (Some label) => Some (label, take _MAX_INLINE_OWNERS (drop (i * _MAX_INLINE_OWNERS) (owners s)))
  | _ => None
  end.

Definition slab_count (s : safety) (g : nat) : nat := capsule_counts s !!! g.

Record safety_ok (s : safety) : Prop := {
  so_generation : fork_generation s <= 2;
  so_child : forked_child s = true <-> 0 < fork_generation s;
  so_lock : lock s = fork_generation s /\ bank_index s = fork_generation s mod 2;
  so_labels : length (labels s) = 128;
  so_owners : length (owners s) = 1024;
  so_counts : length (capsule_counts s) = 2;
  so_slabs : forall g, g < 2 -> slab_count s g <= _MAX_FORK_CAPSULE_ENTRIES;
  so_used : forall g i, g < 2 -> i < _MAX_FORK_CAPSULE_ENTRIES ->
    (capsule_at s (g * _MAX_FORK_CAPSULE_ENTRIES + i) <> None <-> i < slab_count s g);
  so_total : capsule_count s = slab_count s 0 + slab_count s 1;
}.

(** What is rooted stays rooted. *)
Definition keeps (s s' : safety) : Prop :=
  forall i c, capsule_at s i = Some c -> capsule_at s' i = Some c.

#[export] Instance keeps_refl : Reflexive keeps.
Proof. by intros s i c. Qed.

#[export] Instance keeps_trans : Transitive keeps.
Proof. intros s1 s2 s3 H1 H2 i c E; by apply H2, H1. Qed.

(** The owners as the capsule records them. *)
Definition capsule_owners (given : list (option O)) : list (option O) :=
  (fun i => default None (given !! i)) <$> seq 0 _MAX_INLINE_OWNERS.

Lemma length_store_first n base given os : length (store_first n base given os) = length os.
Proof. unfold store_first; revert os; induction (seq 0 n) as [|i l IH]; intros os; simpl; [done|]; by rewrite IH, length_insert. Qed.

Lemma store_first_lookup n base given os j :
  base + n <= length os ->
  store_first n base given os !! j
  = if decide (base <= j < base + n) then Some (default None (given !! (j - base))) else os !! j.
Proof.
  induction n as [|n IH]; intros Hlen; [by rewrite decide_False by lia|].
  pose proof (length_store_first n base given os) as Hl.
  unfold store_first in *; rewrite seq_S, foldl_app; simpl.
  destruct (decide (j = base + n)) as [->|Hj].
  - rewrite list_lookup_insert_eq by lia; rewrite decide_True by lia; do 3 f_equal; lia.
  - rewrite list_lookup_insert_ne, IH by lia; do 2 case_decide; try lia; done.
Qed.

Lemma store_owners_own base given os : base + 8 <= length os ->
  take _MAX_INLINE_OWNERS (drop base (store_owners base given os)) = capsule_owners given.
Proof.
  intros Hlen; apply list_eq; intros j; unfold capsule_owners; rewrite list_lookup_fmap.
  destruct (decide (j < 8)) as [Hj|Hj].
  - rewrite lookup_take_lt, lookup_drop, lookup_seq_lt by done; unfold store_owners; rewrite store_first_lookup by done.
    unfold _MAX_INLINE_OWNERS; rewrite decide_True by lia; simpl; do 3 f_equal; lia.
  - rewrite lookup_take_ge by (unfold _MAX_INLINE_OWNERS; lia).
    rewrite lookup_seq_ge by (unfold _MAX_INLINE_OWNERS; lia); done.
Qed.

Lemma store_owners_other base given os i : base + 8 <= length os -> i + 8 <= base \/ base + 8 <= i ->
  take _MAX_INLINE_OWNERS (drop i (store_owners base given os)) = take _MAX_INLINE_OWNERS (drop i os).
Proof.
  intros Hlen Hi; apply list_eq; intros j; destruct (decide (j < 8)) as [Hj|Hj].
  - rewrite !lookup_take_lt, !lookup_drop by done; unfold store_owners; rewrite store_first_lookup by done.
    unfold _MAX_INLINE_OWNERS; by rewrite decide_False by lia.
  - rewrite !lookup_take_ge by (unfold _MAX_INLINE_OWNERS; lia); done.
Qed.

Lemma capsule_at_store s i j label given counts count :
  safety_ok s -> i < 128 ->
  capsule_at (set_capsules (<[i := Some label]> (labels s)) (store_owners (i * _MAX_INLINE_OWNERS) given (owners s)) counts count s) j
  = if decide (j = i) then Some (label, capsule_owners given) else capsule_at s j.
Proof.
  intros H Hi; pose proof (so_labels _ H) as Hl; pose proof (so_owners _ H) as Ho; unfold capsule_at; cbn [labels owners set_capsules].
  assert (i * _MAX_INLINE_OWNERS + 8 <= length (owners s)) by (rewrite Ho; unfold _MAX_INLINE_OWNERS; lia).
  case_decide as Hj; [subst; rewrite list_lookup_insert_eq by lia; by rewrite store_owners_own|].
  rewrite list_lookup_insert_ne by done; rewrite store_owners_other; [done..|unfold _MAX_INLINE_OWNERS; lia].
Qed.

Lemma has_label_spec label (s : safety) base n :
  has_label label (labels s) base (seq 0 n) = true <-> exists i, i < n /\ labels s !! (base + i) = Some (Some label).
Proof.
  assert (forall l, has_label label (labels s) base l = true <-> exists i, i ∈ l /\ labels s !! (base + i) = Some (Some label)) as ->.
  { induction l as [|i l IH]; simpl; [split; [done|intros (i & Hi & _); by apply elem_of_nil in Hi]|].
    case_bool_decide; [split; [exists i; split; [left|done]|done]|]; rewrite IH; split; intros (k & Hk & E); exists k.
    - split; [by right|done].
    - apply elem_of_cons in Hk as [->|Hk]; [done|]; done. }
  split; intros (i & Hi & E); exists i; split; try done; [apply elem_of_seq in Hi; lia|apply elem_of_seq; lia].
Qed.

(** Where [label] is rooted, in the slab of generation [g]. *)
Definition rooted_in (g : nat) (label : string) (s : safety) : Prop :=
  exists i os, i < _MAX_FORK_CAPSULE_ENTRIES /\ capsule_at s (g * _MAX_FORK_CAPSULE_ENTRIES + i) = Some (label, os).

Lemma has_label_rooted s label g : safety_ok s -> g < 2 ->
  has_label label (labels s) (g * _MAX_FORK_CAPSULE_ENTRIES) (seq 0 (slab_count s g)) = true <-> rooted_in g label s.
Proof.
  intros H Hg; rewrite has_label_spec; pose proof (so_slabs _ H g Hg); unfold rooted_in, capsule_at; split.
  - intros (i & Hi & E); exists i; rewrite E; eexists; split; [lia|done].
  - intros (i & os & Hi & E); exists i; assert (i < slab_count s g) as Hu.
    { apply (so_used _ H g i); [done..|]; unfold capsule_at; by rewrite E. }
    split; [done|]; by destruct (labels s !! _) as [[l|]|]; simplify_eq.
Qed.

Lemma root_capsule_at s g label given j :
  safety_ok s -> g < 2 -> slab_count s g < _MAX_FORK_CAPSULE_ENTRIES ->
  capsule_at (root_capsule g label given s) j
  = if decide (j = g * _MAX_FORK_CAPSULE_ENTRIES + slab_count s g) then Some (label, capsule_owners given) else capsule_at s j.
Proof. intros H Hg Hc; apply capsule_at_store; [done|]; unfold slab_count, _MAX_FORK_CAPSULE_ENTRIES in *; lia. Qed.

Lemma root_capsule_free s g : safety_ok s -> g < 2 -> slab_count s g < _MAX_FORK_CAPSULE_ENTRIES ->
  capsule_at s (g * _MAX_FORK_CAPSULE_ENTRIES + slab_count s g) = None.
Proof.
  intros H Hg Hc; destruct (capsule_at s _) eqn:E; [|done].
  assert (slab_count s g < slab_count s g); [|lia]; apply (so_used _ H g); [done..|]; by rewrite E.
Qed.

Lemma root_capsule_count s g label given k : safety_ok s -> g < 2 ->
  slab_count (root_capsule g label given s) k = if decide (k = g) then S (slab_count s g) else slab_count s k.
Proof.
  intros H Hg; pose proof (so_counts _ H); unfold slab_count; simpl.
  case_decide; [subst; by rewrite list_lookup_total_insert_eq by lia|by rewrite list_lookup_total_insert_ne].
Qed.

Lemma root_capsule_ok s g label given :
  safety_ok s -> g < 2 -> slab_count s g < _MAX_FORK_CAPSULE_ENTRIES -> safety_ok (root_capsule g label given s).
Proof.
  intros H Hg Hc; pose proof (root_capsule_count s g label given) as Hn; pose proof H as []; split; try done.
  - simpl; by rewrite length_insert.
  - simpl; unfold store_owners; by rewrite length_store_first.
  - simpl; by rewrite length_insert.
  - intros k Hk; rewrite Hn by done; case_decide; [lia|auto].
  - intros k i Hk Hi; rewrite root_capsule_at, Hn by done; unfold _MAX_FORK_CAPSULE_ENTRIES in *.
    do 2 case_decide; try lia; [split; [lia|done]|subst; rewrite so_used0 by done; lia|by apply so_used0].
  - simpl capsule_count; rewrite !Hn, so_total0 by done; destruct g as [|[|]]; simpl; lia.
Qed.

Lemma quarantine_spec s label given r s' :
  safety_ok s -> quarantine_inherited_state label given s = (r, s') ->
  safety_ok s' /\ keeps s s' /\ fork_generation s' = fork_generation s
  /\ (r = true -> 0 < fork_generation s /\ rooted_in (fork_generation s - 1) label s')
  /\ (r = false -> fork_generation s = 0 \/ label = EmptyString \/ slab_count s (fork_generation s - 1) = _MAX_FORK_CAPSULE_ENTRIES).
Proof.
  intros H; unfold quarantine_inherited_state; pose proof (so_generation _ H) as Hg.
  destruct (Nat.ltb_spec (fork_generation s) 1); cbn [orb]; [intros [= <- <-]; split_and!; try done; intros _; left; lia|].
  destruct (Nat.ltb_spec _MAX_FORK_QUARANTINE_GENERATIONS (fork_generation s)); [unfold _MAX_FORK_QUARANTINE_GENERATIONS in *; lia|].
  case_bool_decide; [intros [= <- <-]; split_and!; try done; intros _; by right; left|].
  set (g := fork_generation s - 1) in *; assert (Hg2 : g < 2) by lia; change (capsule_counts s !!! g) with (slab_count s g).
  pose proof (so_slabs _ H g Hg2) as Hslab.
  destruct (has_label _ _ _ _) eqn:Hh; [intros [= <- <-]; apply has_label_rooted in Hh; [|done..]; split_and!; try done; by intros _|].
  destruct (Nat.leb_spec _MAX_FORK_CAPSULE_ENTRIES (slab_count s g)); intros [= <- <-].
  { split_and!; try done; [by destruct H; split|by intros ? ?|intros _; right; right; lia]. }
  split_and!; try done; [by apply root_capsule_ok|..].
  - intros j c E; rewrite root_capsule_at by done; case_decide; [|done].
    subst; by rewrite root_capsule_free in E by done.
  - intros _; split; [done|]; exists (slab_count s g), (capsule_owners given); split; [done|].
    rewrite root_capsule_at by done; by rewrite decide_True.
Qed.

(** ** Lines of descent *)

(** What the child of a fork, with its process id, and the parent are left with. *)
Definition child_of (p : Z) (s : safety) : safety := _mark_forked_child (set_pid p (_prepare_fork_child_state s)).
Definition parent_of (s : safety) : safety := _clear_parent_fork_preparation (_prepare_fork_child_state s).

Inductive event : Type :=
| Forked (p : Z)
| Quarantine (label : string) (given : list (option O)).

Definition happens (e : event) (s : safety) : safety :=
  match e with
  | Forked p => child_of p s
  | Quarantine label given => snd (quarantine_inherited_state label given s)
  end.

(** The state of a process after the forks and quarantines of its line of descent. *)
Fixpoint descend (events : list event) (s : safety) : safety :=
  match events with
  | [] => s
  | e :: events' => descend events' (happens e s)
  end.

Lemma child_of_ok p s : safety_ok s ->
  safety_ok (child_of p s) /\ keeps s (child_of p s) /\ forked_child (child_of p s) = true
  /\ fork_generation (child_of p s) = Nat.min 2 (S (fork_generation s)).
Proof.
  intros []; destruct so_lock0 as [Hl Hb]; unfold child_of, _mark_forked_child, _prepare_fork_child_state; simpl.
  assert (fork_generation s = 0 \/ fork_generation s = 1 \/ fork_generation s = 2) as [E|[E|E]] by lia;
    rewrite E in *; rewrite Hb; simpl; (split; [|split; [by intros ? ?|done]]); split; simpl; try done; lia.
Qed.

Lemma happens_ok e s : safety_ok s -> safety_ok (happens e s) /\ keeps s (happens e s)
  /\ (0 < fork_generation s -> 0 < fork_generation (happens e s)).
Proof.
  intros H; destruct e as [p|label given]; simpl.
  - destruct (child_of_ok p s H) as (? & ? & _ & ->); split_and!; try done; lia.
  - destruct (quarantine_inherited_state label given s) as [r s'] eqn:E.
    destruct (quarantine_spec s label given r s' H E) as (? & ? & Hg & _); simpl; split_and!; try done; lia.
Qed.

Lemma descend_ok events s : safety_ok s -> safety_ok (descend events s) /\ keeps s (descend events s)
  /\ (0 < fork_generation s -> 0 < fork_generation (descend events s)).
Proof.
  revert s; induction events as [|e events IH]; intros s H; [done|]; simpl.
  destruct (happens_ok e s H) as (H1 & K1 & G1), (IH _ H1) as (H2 & K2 & G2).
  split; [done|split; [by etrans|auto]].
Qed.

Lemma start_ok p : safety_ok (start p).
Proof.
  split; try done; simpl; try lia.
  - intros [|[|g]] Hg; [apply Nat.le_0_l..|lia].
  - intros g i Hg Hi; split.
    + intros H; destruct H; unfold capsule_at, start; cbn [labels]; destruct (replicate _ None !! _) as [[l|]|] eqn:E; try done.
      by apply lookup_replicate in E as [? _].
    + destruct g as [|[|]]; unfold slab_count; simpl; lia.
Qed.

(** C24: Along every line of forks and quarantines the slabs stay within their
    arrays and their generations apart, an object graph that was rooted stays
    rooted, a request is refused only by a process that was never forked, for an
    empty label or with a full slab, and every forked process refuses to run. *)
Theorem quarantine_roots_kept p before after label given :
  let s := descend before (start p) in
  let s' := descend after s in
  safety_ok s' /\ keeps s s' /\ (forked_child s = true -> ensure_runtime_fork_safe s' = Err RuntimeError)
  /\ if fst (quarantine_inherited_state label given s')
     then rooted_in (fork_generation s' - 1) label (snd (quarantine_inherited_state label given s'))
     else fork_generation s' = 0 \/ label = EmptyString \/ slab_count s' (fork_generation s' - 1) = _MAX_FORK_CAPSULE_ENTRIES.
Proof.
  intros s s'; destruct (descend_ok before (start p) (start_ok p)) as (H & _ & _).
  destruct (descend_ok after s H) as (H' & K & G); split; [done|split; [done|split]].
  - intros Hc; unfold ensure_runtime_fork_safe, runtime_fork_poisoned.
    assert (forked_child s' = true) as -> by (apply (so_child _ H'), G, (so_child _ H), Hc); done.
  - destruct (quarantine_inherited_state label given s') as [r s2] eqn:E.
    destruct (quarantine_spec s' label given r s2 H' E) as (_ & _ & _ & Ht & Hf); destruct r; simpl; [by apply Ht|by apply Hf].
Qed.
End Safety.
Arguments safety : clear implicits.
