(* ===== verification/ForkManager.v ===== *)
(** * ForkManager: the at-fork registry and its dispatcher

    [core_impl/fork_manager.py] over [ForkSafety].  Modules register handlers at
    import; one dispatcher prepares them before a fork, runs their clean-up in the
    parent and the prepared ones in the child.  Callbacks are arbitrary and may
    raise; the last part runs the lock bank of [StaticControlPlane] as one of the
    handlers. *)

From Stdlib Require Import String.
From S2P Require Import Prelude ForkSafety StaticControlPlane.

Definition _MAX_FORK_HANDLERS : nat := 256.

Inductive fork_mode : Type :=
| prepared_swap
| child_safe
| quarantine_only.

#[export] Instance fork_mode_eq_dec : EqDecision fork_mode.
Proof. solve_decision. Defined.

Definition mode_of_string (s : string) : option fork_mode :=
  if bool_decide (s = "prepared_swap"%string) then Some prepared_swap
  else if bool_decide (s = "child_safe"%string) then Some child_safe
  else if bool_decide (s = "quarantine_only"%string) then Some quarantine_only
  else None.

Section Manager.
(** Callbacks, and the contract that [_fork_callback_contract] reads off one. *)
Context {C K : Type} `{EqDecision K} (_fork_callback_contract : C -> K).

Record handler : Type := mk_handler {
  name : string;
  before : option C;
  after_in_parent : option C;
  after_in_child : option C;
  contract_generation : Z;
  child_safe_without_prepare : bool;
  mode : fork_mode;
}.

(** The arguments of a registration. *)
Record registration : Type := mk_registration {
  reg_name : string;
  reg_before : option C;
  reg_parent : option C;
  reg_child : option C;
  reg_generation : Z;
  reg_child_safe : bool;
  reg_mode : option string;
}.

(** [_HANDLERS] and [_COUNT]. *)
Record registry : Type := mk_registry {
  handlers : list (option handler);
  count : nat;
}.

Definition empty_registry : registry := mk_registry (replicate _MAX_FORK_HANDLERS None) 0.

(** ** Registration *)

Definition is_some {A} (o : option A) : bool := match o with Some _ => true | None => false end.

(** The checks before the lock is taken. *)
Definition new_handler (a : registration) : result handler :=
  if bool_decide (reg_name a = EmptyString) then Err ValueError
  else if Z.leb (reg_generation a) 0 then Err ValueError
  else
    let mode_ := match reg_mode a with
                 | Some text => mode_of_string text
                 | None => Some (if is_some (reg_before a) then prepared_swap
                                 else if reg_child_safe a then child_safe else quarantine_only)
                 end in
    match mode_ with
    | None => Err ValueError
    | Some m =>
      let any_callback := is_some (reg_before a) || is_some (reg_parent a) || is_some (reg_child a) in
      if negb any_callback && negb (bool_decide (m = quarantine_only)) then Err ValueError
      else if bool_decide (m = prepared_swap) && negb (is_some (reg_before a)) then Err ValueError
      else if bool_decide (m = child_safe) && negb (reg_child_safe a) then Err ValueError
      else if bool_decide (m = quarantine_only) && is_some (reg_child a) then Err ValueError
      else if bool_decide (m = quarantine_only) && (is_some (reg_before a) || is_some (reg_parent a)) then Err ValueError
      else Ok (mk_handler (reg_name a) (reg_before a) (reg_parent a) (reg_child a) (reg_generation a) (reg_child_safe a) m)
    end.

Definition contract_of (h : handler) : Z * bool * fork_mode * option K * option K * option K :=
  (contract_generation h, child_safe_without_prepare h, mode h, _fork_callback_contract <$> before h,
   _fork_callback_contract <$> after_in_parent h, _fork_callback_contract <$> after_in_child h).

(** The loop over the registered handlers: the index of the first one of the name. *)
Fixpoint find_handler (n : string) (hs : list (option handler)) (indices : list nat) : option (nat * handler) :=
  match indices with
  | [] => None
  | index :: indices' =>
    match hs !! index with
    | Some (Some old) => if bool_decide (name old = n) then Some (index, old) else find_handler n hs indices'
    | _ => find_handler n hs indices'
    end
  end.

Definition register_fork_handler (a : registration) (r : registry) : result unit * registry :=
  match new_handler a with
  | Err e => (Err e, r)
  | Ok new =>
    match find_handler (reg_name a) (handlers r) (seq 0 (count r)) with
    | Some (index, old) =>
      if bool_decide (contract_of old = contract_of new)
      then (Ok tt, mk_registry (<[index := Some new]> (handlers r)) (count r))
      else (Err RuntimeError, r)
    | None =>
      if _MAX_FORK_HANDLERS <=? count r then (Err RuntimeError, r)
      else (Ok tt, mk_registry (<[count r := Some new]> (handlers r)) (S (count r)))
    end
  end.

Definition fork_handler_contracts (r : registry) : list (string * fork_mode * Z) :=
  (fun h => (name h, mode h, contract_generation h)) <$> omap id (take (count r) (handlers r)).

(** ** Dispatch *)

(** What a callback does to the rest of the process: it may raise, and it may
    register handlers. *)
Context {W : Type} (exec : C -> W -> result unit * W * list registration).

Definition core : Type := registry * W.

Definition call (cb : C) (c : core) : result unit * core :=
  match exec cb (snd c) with
  | (r, w, regs) => (r, (foldl (fun reg a => snd (register_fork_handler a reg)) (fst c) regs, w))
  end.

(** The frozen generation: [_FORK_GENERATION], [_FORK_PREPARED], [_FORK_GENERATION_COUNT],
    [_FORK_GENERATION_ACTIVE]. *)
Record frozen_generation : Type := mk_frozen {
  slots_ : list (option handler);
  prepared : list bool;
  generation_count : nat;
  active : bool;
}.

Definition no_generation : frozen_generation :=
  mk_frozen (replicate _MAX_FORK_HANDLERS None) (replicate _MAX_FORK_HANDLERS false) 0 false.

Definition set_slot i h p (f : frozen_generation) : frozen_generation :=
  mk_frozen (<[i := h]> (slots_ f)) (<[i := p]> (prepared f)) (generation_count f) (active f).
Definition set_prepared i p (f : frozen_generation) : frozen_generation :=
  mk_frozen (slots_ f) (<[i := p]> (prepared f)) (generation_count f) (active f).
Definition set_extent n a (f : frozen_generation) : frozen_generation :=
  mk_frozen (slots_ f) (prepared f) n a.

(** One turn of the second loop of [_before]. *)
Definition prepare_slot (index : nat) (s : frozen_generation * core) : frozen_generation * core :=
  let '(f, c) := s in
  match slots_ f !!! index with
  | None => (f, c)
  | Some h =>
    match before h with
    | None => if bool_decide (mode h = child_safe) && child_safe_without_prepare h
              then (set_prepared index true f, c) else (f, c)
    | Some cb => match call cb c with
                 | (Err _, c') => (set_prepared index false f, c')
                 | (Ok _, c') => (set_prepared index true f, c')
                 end
    end
  end.

Definition _before (quarantine_generation : nat) (s : frozen_generation * core) : frozen_generation * core :=
  let '(f, c) := s in
  if 1 <? quarantine_generation then (set_extent 0 true f, c)
  else
    let n := count (fst c) in
    let f := foldl (fun f i => set_slot i (handlers (fst c) !!! i) false f) f (seq 0 n) in
    foldl (fun s i => prepare_slot i s) (set_extent n true f, c) (seq 0 n).

(** One turn of the loop of [_parent]. *)
Definition parent_slot (index : nat) (s : frozen_generation * core) : frozen_generation * core :=
  let '(f, c) := s in
  match slots_ f !!! index with
  | None => (f, c)
  | Some h =>
    let c := match after_in_parent h with Some cb => snd (call cb c) | None => c end in
    (set_slot index None false f, c)
  end.

Definition extent (f : frozen_generation) : nat := if active f then generation_count f else 0.

Definition _parent (s : frozen_generation * core) : frozen_generation * core :=
  let '(f, c) := foldl (fun s i => parent_slot i s) s (rev (seq 0 (extent (fst s)))) in
  (set_extent 0 false f, c).

(** One turn of the loop of [_child]. *)
Definition child_slot (index : nat) (s : frozen_generation * core) : frozen_generation * core :=
  let '(f, c) := s in
  let is_prepared : bool := prepared f !!! index in
  let f' := set_slot index None false f in
  match slots_ f !!! index with
  | Some h =>
    if is_prepared : bool then
      match after_in_child h with
      | Some cb => (f', snd (call cb c))
      | None => (f', c)
      end
    else (f', c)
  | None => (f', c)
  end.

Definition _child (s : frozen_generation * core) : frozen_generation * core :=
  let '(f, c) := foldl (fun s i => child_slot i s) s (seq 0 (extent (fst s))) in
  (set_extent 0 false f, c).

(** ** The registry is well formed *)

Definition handler_ok (h : handler) : Prop :=
  name h <> EmptyString /\ (0 < contract_generation h)%Z
  /\ match mode h with
     | prepared_swap => before h <> None
     | child_safe => child_safe_without_prepare h = true /\ (before h <> None \/ after_in_parent h <> None \/ after_in_child h <> None)
     | quarantine_only => before h = None /\ after_in_parent h = None /\ after_in_child h = None
     end.

(** The registered handlers in order. *)
Definition live (r : registry) : list handler := omap id (take (count r) (handlers r)).

Record registry_ok (r : registry) : Prop := {
  ro_length : length (handlers r) = _MAX_FORK_HANDLERS;
  ro_count : count r <= _MAX_FORK_HANDLERS;
  ro_live : take (count r) (handlers r) = Some <$> live r;
  ro_handlers : Forall handler_ok (live r);
  ro_names : NoDup (name <$> live r);
}.

Lemma is_some_true {A} (o : option A) : is_some o = true <-> o <> None.
Proof. by destruct o. Qed.

Lemma new_handler_ok a h : new_handler a = Ok h -> handler_ok h /\ name h = reg_name a.
Proof.
  unfold new_handler; case_bool_decide; [done|]; destruct (Z.leb_spec (reg_generation a) 0); [done|].
  destruct (match reg_mode a with Some _ => _ | None => _ end) as [m|]; [|done].
  unfold handler_ok; destruct m, (reg_before a), (reg_parent a), (reg_child a), (reg_child_safe a); simpl; try done;
    intros [= <-]; simpl; split_and!; try done; auto.
Qed.

Lemma omap_id_Some {A} (l : list A) : omap id (Some <$> l) = l.
Proof. induction l as [|x l IH]; [done|]; change (x :: omap id (Some <$> l) = x :: l); by rewrite IH. Qed.

Lemma length_live r : registry_ok r -> length (live r) = count r.
Proof. intros []; rewrite <- (length_fmap Some), <- ro_live0, length_take; lia. Qed.

Lemma live_lookup r i : registry_ok r -> i < count r -> handlers r !! i = Some <$> live r !! i.
Proof.
  intros H Hi; rewrite <- list_lookup_fmap, <- (ro_live _ H); by rewrite lookup_take_lt.
Qed.

Lemma find_handler_spec r n : registry_ok r ->
  match find_handler n (handlers r) (seq 0 (count r)) with
  | Some (i, old) => live r !! i = Some old /\ name old = n
  | None => n ∉ name <$> live r
  end.
Proof.
  intros H.
  assert (Hloop : forall k m, m + k = count r -> (forall h, h ∈ take m (live r) -> name h <> n) ->
    match find_handler n (handlers r) (seq m k) with
    | Some (i, old) => live r !! i = Some old /\ name old = n
    | None => n ∉ name <$> live r
    end).
  { induction k as [|k IH]; intros m Hm Hbefore; simpl.
    - rewrite list_elem_of_fmap; intros (h & -> & Hh); apply (Hbefore h); [|done].
      by rewrite take_ge by (rewrite length_live by done; lia).
    - rewrite live_lookup by (done || lia).
      destruct (lookup_lt_is_Some_2 (live r) m) as [old Ho]; [rewrite length_live by done; lia|].
      rewrite Ho; simpl; case_bool_decide; [done|]; apply IH; [lia|].
      intros h; rewrite (take_S_r _ _ old) by done; rewrite elem_of_app, list_elem_of_singleton; intros [Hh| ->]; auto. }
  apply (Hloop (count r) 0); [lia|]; simpl; intros h Hh; by apply elem_of_nil in Hh.
Qed.

Lemma live_replace r i new : registry_ok r -> i < count r ->
  let r' := mk_registry (<[i := Some new]> (handlers r)) (count r) in
  live r' = <[i := new]> (live r) /\ take (count r') (handlers r') = Some <$> <[i := new]> (live r).
Proof.
  intros H Hi r'; assert (E : take (count r') (handlers r') = Some <$> <[i := new]> (live r)).
  { simpl; by rewrite take_insert_lt, (ro_live _ H), list_fmap_insert. }
  split; [|done]; unfold live at 1; by rewrite E, omap_id_Some.
Qed.

Lemma live_append r new : registry_ok r -> count r < _MAX_FORK_HANDLERS ->
  let r' := mk_registry (<[count r := Some new]> (handlers r)) (S (count r)) in
  live r' = live r ++ [new] /\ take (count r') (handlers r') = Some <$> (live r ++ [new]).
Proof.
  intros H Hc r'; assert (E : take (count r') (handlers r') = Some <$> (live r ++ [new])).
  { simpl; rewrite (take_S_r _ _ (Some new)) by (apply list_lookup_insert_eq; rewrite (ro_length _ H); lia).
    rewrite take_insert_ge by lia; by rewrite (ro_live _ H), fmap_app. }
  split; [|done]; unfold live at 1; by rewrite E, omap_id_Some.
Qed.

(** What a registration keeps: every handler stays where it is, under its name
    and with its contract. *)
Definition retains (r r' : registry) : Prop :=
  forall i h, live r !! i = Some h -> exists h', live r' !! i = Some h' /\ name h' = name h /\ contract_of h' = contract_of h.

#[local] Instance retains_refl : Reflexive retains.
Proof. intros r i h E; by exists h. Qed.

#[local] Instance retains_trans : Transitive retains.
Proof.
  intros r1 r2 r3 H1 H2 i h E; destruct (H1 i h E) as (h1 & E1 & ? & ?), (H2 i h1 E1) as (h2 & ? & ? & ?).
  exists h2; split_and!; congruence.
Qed.

Lemma register_spec a r : registry_ok r ->
  let '(res, r') := register_fork_handler a r in
  registry_ok r' /\ retains r r'
  /\ match res with
     | Ok _ => exists h, new_handler a = Ok h /\ h ∈ live r'
     | Err _ => r' = r
     end.
Proof.
  intros H; unfold register_fork_handler; destruct (new_handler a) as [new|e] eqn:En; [|done].
  destruct (new_handler_ok a new En) as [Hnew Hname]; pose proof (find_handler_spec r (reg_name a) H) as Hf.
  destruct (find_handler _ _ _) as [[i old]|].
  - destruct Hf as [Hold Hn]; case_bool_decide as Hcon; [|done].
    assert (Hi : i < count r) by (rewrite <- (length_live r H); by eapply lookup_lt_Some).
    destruct (live_replace r i new H Hi) as [El Et]; split; [|split].
    + destruct H; split; simpl; rewrite ?El; try done; [by rewrite length_insert|by apply Forall_insert|].
      rewrite list_fmap_insert, list_insert_id; [done|]; rewrite list_lookup_fmap, Hold; simpl; congruence.
    + intros j h E; rewrite El; destruct (decide (i = j)) as [->|Hj]; [|exists h; by rewrite list_lookup_insert_ne].
      exists new; rewrite list_lookup_insert_eq by (by eapply lookup_lt_Some); assert (h = old) as -> by congruence; split_and!; [done|by rewrite Hname|done].
    + exists new; split; [done|]; rewrite El; apply list_elem_of_insert; rewrite length_live; done.
  - destruct (Nat.leb_spec _MAX_FORK_HANDLERS (count r)); [done|].
    destruct (live_append r new H) as [El Et]; [done|]; split; [|split].
    + destruct H; split; simpl; rewrite ?El; try done; [by rewrite length_insert|by apply Forall_app; split; [|constructor]|].
      rewrite fmap_app; apply NoDup_app; split_and!; [done| |apply NoDup_singleton].
      intros x Hx; simpl; rewrite list_elem_of_singleton; congruence.
    + intros j h E; exists h; rewrite El; by rewrite lookup_app_l_Some with (x := h).
    + exists new; split; [done|]; rewrite El; apply elem_of_app; right; by apply list_elem_of_singleton.
Qed.

(** C23: Whatever is registered, in any order and number, the registry stays well
    formed: names are unique and not empty, every mode has the callbacks it
    needs, the capacity holds; and a handler keeps its place, name and contract. *)
Theorem registry_wf (earlier later : list registration) :
  let registered := foldl (fun r a => snd (register_fork_handler a r)) in
  let r := registered empty_registry earlier in
  registry_ok (registered r later) /\ retains r (registered r later).
Proof.
  assert (forall l r, registry_ok r -> registry_ok (foldl (fun r a => snd (register_fork_handler a r)) r l)
    /\ retains r (foldl (fun r a => snd (register_fork_handler a r)) r l)) as Hl.
  { induction l as [|a l IH]; intros r H; [done|]; simpl; pose proof (register_spec a r H) as Hs.
    destruct (register_fork_handler a r) as [res r1]; destruct Hs as (H1 & K1 & _), (IH r1 H1); split; [done|by etrans]. }
  intros registered r; apply Hl, Hl; split; try done; [unfold _MAX_FORK_HANDLERS; simpl; lia|by apply NoDup_nil].
Qed.

(** ** What a fork runs *)

Definition prepare_one (h : handler) (c : core) : bool * core :=
  match before h with
  | None => (bool_decide (mode h = child_safe) && child_safe_without_prepare h, c)
  | Some cb => let '(r, c') := call cb c in (is_ok r, c')
  end.

(** The preparations in registration order, with their success. *)
Fixpoint prepare_all (hs : list handler) (c : core) : list bool * core :=
  match hs with
  | [] => ([], c)
  | h :: hs' => let '(b, c1) := prepare_one h c in
                let '(bs, c2) := prepare_all hs' c1 in (b :: bs, c2)
  end.

Definition run_opt (cb : option C) (c : core) : core :=
  match cb with Some cb => snd (call cb c) | None => c end.

(** The child callbacks of the prepared handlers, in registration order. *)
Definition child_all (hbs : list (handler * bool)) (c : core) : core :=
  foldl (fun c hb => if hb.2 : bool then run_opt (after_in_child hb.1) c else c) c hbs.

(** The parent callbacks of all handlers, in reverse order. *)
Definition parent_all (hs : list handler) (c : core) : core :=
  foldl (fun c h => run_opt (after_in_parent h) c) c (rev hs).

(** The arrays hold [hs] with the flags [bs], from [start] on. *)
Definition holds (f : frozen_generation) (start : nat) (hs : list handler) (bs : list bool) : Prop :=
  length (slots_ f) = _MAX_FORK_HANDLERS /\ length (prepared f) = _MAX_FORK_HANDLERS
  /\ length bs = length hs /\ start + length hs <= _MAX_FORK_HANDLERS
  /\ forall i h b, hs !! i = Some h -> bs !! i = Some b ->
       slots_ f !!! (start + i) = Some h /\ prepared f !!! (start + i) = b.

Definition same_extent (f f' : frozen_generation) : Prop :=
  generation_count f' = generation_count f /\ active f' = active f.

Lemma length_prepare_all hs c : length (prepare_all hs c).1 = length hs.
Proof.
  revert c; induction hs as [|h hs IH]; intros c; [done|]; simpl.
  destruct (prepare_one h c) as [b c1]; specialize (IH c1); destruct (prepare_all hs c1); simpl in *; lia.
Qed.

Lemma holds_cons f start h hs b bs : holds f start (h :: hs) (b :: bs) ->
  slots_ f !!! start = Some h /\ prepared f !!! start = b /\ holds f (S start) hs bs.
Proof.
  intros (Hl & Hp & Hlen & Hs & Hall); destruct (Hall 0 h b eq_refl eq_refl) as [H1 H2]; rewrite Nat.add_0_r in *.
  split; [done|split; [done|]]; unfold holds; cbn [length] in *; do 2 (split; [done|]); do 2 (split; [lia|]); intros i h' b' E1 E2.
  replace (S start + i) with (start + S i) by lia; by apply Hall.
Qed.

Lemma prepare_slot_spec f c start h : slots_ f !!! start = Some h -> prepared f !!! start = false ->
  start < length (prepared f) ->
  exists f', prepare_slot start (f, c) = (f', (prepare_one h c).2) /\ slots_ f' = slots_ f /\ same_extent f f'
    /\ length (prepared f') = length (prepared f) /\ prepared f' !!! start = (prepare_one h c).1
    /\ forall j, j <> start -> prepared f' !!! j = prepared f !!! j.
Proof.
  intros Hs Hp Hlen; unfold prepare_slot, prepare_one; rewrite Hs.
  assert (Hset : forall b, slots_ (set_prepared start b f) = slots_ f /\ same_extent f (set_prepared start b f)
    /\ length (prepared (set_prepared start b f)) = length (prepared f) /\ prepared (set_prepared start b f) !!! start = b
    /\ forall j, j <> start -> prepared (set_prepared start b f) !!! j = prepared f !!! j).
  { intros b; split_and!; try done; simpl; [by rewrite length_insert|by rewrite list_lookup_total_insert_eq|].
    intros j Hj; by rewrite list_lookup_total_insert_ne. }
  destruct (before h) as [cb|].
  - destruct (call cb c) as [[[]|e] c1]; simpl; eexists; split; [done|apply Hset|done|apply Hset].
  - destruct (_ && _); simpl; [eexists; split; [done|apply Hset]|by exists f].
Qed.

Lemma prepare_loop hs start f c : holds f start hs (replicate (length hs) false) ->
  exists f', foldl (fun s i => prepare_slot i s) (f, c) (seq start (length hs)) = (f', (prepare_all hs c).2)
    /\ holds f' start hs (prepare_all hs c).1 /\ same_extent f f' /\ slots_ f' = slots_ f
    /\ forall j, j < start -> prepared f' !!! j = prepared f !!! j.
Proof.
  revert start f c; induction hs as [|h hs IH]; intros start f c Hf; [by exists f|].
  cbn [length replicate] in Hf; apply holds_cons in Hf as (Hs & Hp & Hf'); pose proof Hf' as (Hl1 & Hl2 & _ & Hstart & Hall).
  destruct (prepare_slot_spec f c start h Hs Hp) as (f1 & E1 & Hs1 & Hx1 & Hlen1 & Hp1 & Ho1); [lia|].
  destruct (IH (S start) f1 (prepare_one h c).2) as (f2 & E2 & (Hm1 & Hm2 & Hm3 & Hm4 & Hm5) & Hx2 & Hs2 & Ho2).
  { do 2 (split; [congruence|]); split; [by rewrite length_replicate|split; [lia|]]; intros i h' b' E E'.
    rewrite Hs1, Ho1 by lia; by apply Hall. }
  exists f2; cbn [seq length foldl prepare_all]; rewrite E1, E2.
  destruct (prepare_one h c) as [b c1] eqn:Eh; cbn [fst snd] in *; destruct (prepare_all hs c1) as [bs c2] eqn:Ea; cbn [fst snd] in *.
  split; [done|split; [|split; [|split; [congruence|]]]].
  - do 2 (split; [congruence|]); do 2 (split; [simpl; lia|]); intros [|i] h' b' E E'; simpl in E, E'; simplify_eq.
    + rewrite Nat.add_0_r, Hs2, Hs1, Ho2 by lia; done.
    + replace (start + S i) with (S start + i) by lia; by apply Hm5.
  - destruct Hx1, Hx2; split; congruence.
  - intros j Hj; rewrite Ho2, Ho1 by lia; done.
Qed.

Definition array_ok (f : frozen_generation) : Prop :=
  length (slots_ f) = _MAX_FORK_HANDLERS /\ length (prepared f) = _MAX_FORK_HANDLERS.

Lemma freeze_loop (get : nat -> option handler) n f : array_ok f -> n <= _MAX_FORK_HANDLERS ->
  let f' := foldl (fun f i => set_slot i (get i) false f) f (seq 0 n) in
  array_ok f' /\ forall i, i < n -> slots_ f' !!! i = get i /\ prepared f' !!! i = false.
Proof.
  intros Hf; induction n as [|n IH]; intros Hn; [split; [done|lia]|].
  cbv zeta in *; rewrite seq_S, foldl_app; cbn [foldl plus]; destruct IH as [[H1 H2] H3]; [lia|].
  set (f1 := foldl _ f (seq 0 n)) in *; split; [split; simpl; by rewrite length_insert|].
  intros i Hi; cbn [slots_ prepared set_slot]; destruct (decide (i = n)) as [->|Hne].
  - by rewrite !list_lookup_total_insert_eq by lia.
  - rewrite !list_lookup_total_insert_ne by done; apply H3; lia.
Qed.

Lemma holds_live r f : registry_ok r -> array_ok f ->
  holds (set_extent (count r) true (foldl (fun f i => set_slot i (handlers r !!! i) false f) f (seq 0 (count r))))
        0 (live r) (replicate (length (live r)) false).
Proof.
  intros Hr Hf; pose proof (ro_count _ Hr) as Hc.
  destruct (freeze_loop (fun i => handlers r !!! i) (count r) f Hf Hc) as [[H1 H2] H3].
  do 2 (split; [done|]); split; [by rewrite length_replicate|split; [rewrite length_live by done; lia|]].
  intros i h b E Eb; assert (i < count r) as Hi by (rewrite <- length_live by done; by eapply lookup_lt_Some).
  destruct (H3 i Hi) as [Es Ep]; apply lookup_replicate in Eb as [-> _].
  cbn [slots_ prepared set_extent plus]; rewrite Es, Ep; split; [|done].
  apply list_lookup_total_correct; by rewrite live_lookup, E.
Qed.

Lemma child_loop hs bs start f c : holds f start hs bs ->
  exists f', foldl (fun s i => child_slot i s) (f, c) (seq start (length hs)) = (f', child_all (zip hs bs) c) /\ array_ok f'.
Proof.
  revert bs start f c; induction hs as [|h hs IH]; intros bs start f c Hf.
  { exists f; destruct Hf as (? & ? & _); by destruct bs. }
  destruct bs as [|b bs]; [by destruct Hf as (_ & _ & ? & _)|].
  apply holds_cons in Hf as (Hs & Hp & Hf'); cbn [length seq foldl zip].
  set (f1 := set_slot start None false f).
  assert (child_slot start (f, c) = (f1, if b then run_opt (after_in_child h) c else c)) as ->.
  { unfold child_slot; rewrite Hs, Hp; by destruct b, (after_in_child h). }
  apply (IH bs (S start) f1); destruct Hf' as (H1 & H2 & H3 & H4 & H5).
  split; [simpl; by rewrite length_insert|split; [simpl; by rewrite length_insert|split; [done|split; [done|]]]].
  intros i h' b' E E'; cbn [slots_ prepared set_slot f1]; rewrite !list_lookup_total_insert_ne by lia; by apply H5.
Qed.

Lemma parent_loop hs bs f c : holds f 0 hs bs ->
  exists f', foldl (fun s i => parent_slot i s) (f, c) (rev (seq 0 (length hs))) = (f', parent_all hs c) /\ array_ok f'.
Proof.
  revert bs f c; induction hs as [|h hs IH] using rev_ind; intros bs f c Hf.
  { exists f; by destruct Hf as (? & ? & _). }
  destruct Hf as (H1 & H2 & H3 & H4 & H5); rewrite length_app in *; cbn [length] in *.
  rewrite Nat.add_1_r, seq_S, rev_app_distr; cbn [rev app foldl plus]; set (n := length hs) in *.
  destruct (lookup_lt_is_Some_2 bs n) as [b Hb]; [lia|].
  destruct (H5 n h b) as [Hs Hp]; [by apply list_lookup_middle|done|].
  assert (parent_slot n (f, c) = (set_slot n None false f, run_opt (after_in_parent h) c)) as ->.
  { unfold parent_slot; cbn [plus] in Hs; rewrite Hs; by destruct (after_in_parent h). }
  unfold parent_all; rewrite rev_app_distr; cbn [rev app foldl].
  apply (IH (take n bs)); split; [simpl; by rewrite length_insert|split; [simpl; by rewrite length_insert|]].
  split; [rewrite length_take; lia|split; [lia|]]; intros i h' b' E E'.
  assert (i < n) by (by eapply lookup_lt_Some); cbn [slots_ prepared set_slot plus].
  rewrite !list_lookup_total_insert_ne by lia; apply (H5 i); [by apply lookup_app_l_Some|].
  by rewrite lookup_take_lt in E'.
Qed.

Definition dispatched (g : nat) (f : frozen_generation) (c : core) : Prop :=
  let hs := live (fst c) in
  let '(flags, c1) := prepare_all hs c in
  let child := _child (_before g (f, c)) in
  let parent := _parent (_before g (f, c)) in
  array_ok (fst child) /\ array_ok (fst parent) /\ extent (fst child) = 0 /\ extent (fst parent) = 0
  /\ snd child = (if g <=? 1 then child_all (zip hs flags) c1 else c)
  /\ snd parent = (if g <=? 1 then parent_all hs c1 else c).

Lemma dispatch_spec g f c : registry_ok (fst c) -> array_ok f -> dispatched g f c.
Proof.
  intros Hr Hf; unfold dispatched; set (hs := live (fst c)).
  destruct (prepare_all hs c) as [flags c1] eqn:Ep; unfold _before, _child, _parent.
  destruct (Nat.ltb_spec 1 g), (Nat.leb_spec g 1); try lia; [done|].
  destruct (prepare_loop hs 0 _ c (holds_live _ f Hr Hf)) as (f1 & E & Hh & [Hx1 Hx2] & _ & _).
  unfold hs in *; rewrite length_live in E by done; rewrite E, Ep in *; cbn [fst snd] in *.
  assert (extent f1 = length (live (fst c))) as -> by (unfold extent; rewrite Hx1, Hx2; simpl; by rewrite length_live).
  destruct (child_loop _ _ _ _ c1 Hh) as (f2 & -> & H2), (parent_loop _ _ _ c1 Hh) as (f3 & -> & H3).
  done.
Qed.

(** C20: A fork runs exactly what the registry says.  The preparations run once
    each in registration order; in the child exactly the handlers whose
    preparation succeeded, or that need none, run their callback, in the same order;
    in the parent all of them run theirs in reverse; callbacks that raise stop
    nothing, and handlers that a callback registers wait for the next fork.
    In a child of the second generation nothing runs on either side. *)
Theorem fork_dispatch_exact g f c :
  registry_ok (fst c) -> array_ok f ->
  let hs := live (fst c) in
  let '(flags, c1) := prepare_all hs c in
  let child := _child (_before g (f, c)) in
  let parent := _parent (_before g (f, c)) in
  array_ok (fst child) /\ array_ok (fst parent) /\ extent (fst child) = 0 /\ extent (fst parent) = 0
  /\ snd child = (if g <=? 1 then child_all (zip hs flags) c1 else c)
  /\ snd parent = (if g <=? 1 then parent_all hs c1 else c).
Proof.
  intros Hr Hf; by apply (dispatch_spec g f c).
Qed.

(** How a registration changes the list of handlers. *)
Lemma register_live a r : registry_ok r ->
  let r' := snd (register_fork_handler a r) in
  live r' = live r
  \/ exists new, new_handler a = Ok new
     /\ (live r' = live r ++ [new]
         \/ exists j old, live r !! j = Some old /\ name old = reg_name a /\ live r' = <[j := new]> (live r)).
Proof.
  intros H; unfold register_fork_handler; destruct (new_handler a) as [new|e]; [|by left].
  pose proof (find_handler_spec r (reg_name a) H) as Hf; destruct (find_handler _ _ _) as [[j old]|].
  - destruct Hf as [Hold Ho]; case_bool_decide; [|by left]; right; exists new; split; [done|right]; exists j, old; cbn [snd].
    destruct (live_replace r j new H) as [-> _]; [rewrite <- length_live by done; by eapply lookup_lt_Some|done].
  - destruct (Nat.leb_spec _MAX_FORK_HANDLERS (count r)); [by left|]; right; exists new; split; [done|left]; cbn [snd].
    by destruct (live_append r new H) as [-> _].
Qed.

Lemma prepare_all_app hs1 hs2 c : prepare_all (hs1 ++ hs2) c
  = ((prepare_all hs1 c).1 ++ (prepare_all hs2 (prepare_all hs1 c).2).1, (prepare_all hs2 (prepare_all hs1 c).2).2).
Proof.
  revert c; induction hs1 as [|h hs1 IH]; intros c; simpl; [by destruct (prepare_all hs2 c)|].
  destruct (prepare_one h c) as [b c1]; rewrite IH; by destruct (prepare_all hs1 c1).
Qed.
End Manager.

(** ** The lock bank of the static control plane across forks *)

(** The callbacks of the control plane, and those of all other modules. *)
Inductive role (D : Type) : Type :=
| PlanePrepare
| PlaneClear
| PlaneReset
| OtherRole (d : D).
Arguments PlanePrepare {D}.
Arguments PlaneClear {D}.
Arguments PlaneReset {D}.
Arguments OtherRole {D}.

Section Descent.
Context {D X O K : Type} `{EqDecision K} (contract : role D -> K).
Context (other : D -> plane * X -> result unit * (plane * X) * list (@registration (role D))).

Definition plane_exec (cb : role D) (w : plane * X) : result unit * (plane * X) * list (@registration (role D)) :=
  let on_plane m := let '(r, p) := run m (fst w) in (r, (p, snd w), []) in
  match cb with
  | PlanePrepare => on_plane _prepare_for_fork
  | PlaneClear => on_plane _clear_fork
  | PlaneReset => on_plane _reset_after_fork
  | OtherRole d => other d w
  end.

(** [register_fork_handler("static-control-plane", ...)] *)
Definition plane_handler : @handler (role D) :=
  mk_handler "static-control-plane" (Some PlanePrepare) (Some PlaneClear) (Some PlaneReset) 1 false prepared_swap.

Definition locks (p : plane) : nat * nat * option nat * list nat :=
  (StaticControlPlane.lock p, StaticControlPlane.bank_index p, fresh_lock p, quarantined p).

Definition other_cb (cb : option (role D)) : Prop :=
  match cb with Some (OtherRole _) | None => True | _ => False end.

(** The other modules leave the control plane's locks and its handler alone. *)
Hypothesis other_locks : forall d w r w' regs, other d w = (r, w', regs) -> locks (fst w') = locks (fst w).
Hypothesis other_regs : forall d w r w' regs a, other d w = (r, w', regs) -> a ∈ regs ->
  reg_name a <> "static-control-plane"%string
  /\ other_cb (reg_before a) /\ other_cb (reg_parent a) /\ other_cb (reg_child a).

Definition process : Type := safety O * @frozen_generation (role D) * core (C := role D) (W := plane * X).

(** A fork, seen by the child: the dispatcher prepares before the bootstrap, and
    the bootstrap marks the child before the dispatcher runs. *)
Definition fork_child (pid : Z) (p : process) : process :=
  let '(s, f, c) := p in
  let '(f, c) := _before contract plane_exec (fork_quarantine_generation s) (f, c) in
  let s := _mark_forked_child (set_pid pid (_prepare_fork_child_state s)) in
  let '(f, c) := _child contract plane_exec (f, c) in
  (s, f, c).

Definition plane_in (c : core (C := role D) (W := plane * X)) : plane := fst (snd c).

Definition other_handler (h : @handler (role D)) : Prop :=
  name h <> name plane_handler /\ other_cb (before h) /\ other_cb (after_in_parent h) /\ other_cb (after_in_child h).

(** The registry holds the plane's handler at [i] and handlers of other modules. *)
Record plane_registered (i : nat) (c : core (C := role D) (W := plane * X)) : Prop := {
  pr_registry : registry_ok (fst c);
  pr_handler : live (fst c) !! i = Some plane_handler;
  pr_others : forall j h, j <> i -> live (fst c) !! j = Some h -> other_handler h;
}.

Lemma new_handler_callbacks (a : @registration (role D)) h : new_handler a = Ok h ->
  before h = reg_before a /\ after_in_parent h = reg_parent a /\ after_in_child h = reg_child a /\ name h = reg_name a.
Proof.
  unfold new_handler; case_bool_decide; [done|]; destruct (Z.leb _ _); [done|].
  destruct (match reg_mode a with Some _ => _ | None => _ end) as [m|]; [|done].
  repeat (destruct (_ && _); [done|]); by intros [= <-].
Qed.

Lemma register_other i a r w :
  plane_registered i (r, w) -> reg_name a <> "static-control-plane"%string ->
  other_cb (reg_before a) -> other_cb (reg_parent a) -> other_cb (reg_child a) ->
  plane_registered i (snd (register_fork_handler contract a r), w).
Proof.
  intros [H1 H2 H3] Hn Hb Hp Hc; simpl in *; pose proof (register_spec contract a r H1) as Hs.
  pose proof (register_live contract a r H1) as Hl; destruct (register_fork_handler contract a r) as [res r']; simpl in *.
  assert (Hnew : forall new, new_handler a = Ok new -> other_handler new).
  { intros new E; unfold other_handler; destruct (new_handler_callbacks a new E) as (-> & -> & -> & Hname); split_and!; try done; by rewrite Hname. }
  split; simpl; [apply Hs|..]; destruct Hl as [->|(new & En & [->|(j & old & Ho & Hon & ->)])]; try done.
  - by apply lookup_app_l_Some.
  - rewrite list_lookup_insert_ne; [done|]; intros ->; rewrite H2 in Ho; injection Ho as <-; simpl in *; congruence.
  - intros k h Hk; rewrite lookup_app_Some; intros [?|[_ E]]; [by apply (H3 k)|].
    apply list_lookup_singleton_Some in E as [_ <-]; by apply Hnew.
  - intros k h Hk; destruct (decide (j = k)) as [->|Hne]; [|rewrite list_lookup_insert_ne by done; by apply H3].
    rewrite list_lookup_insert_eq by (by eapply lookup_lt_Some); intros [= <-]; by apply Hnew.
Qed.

(** Callbacks of other modules change neither the plane's locks nor its handler. *)
Definition undisturbed (i : nat) (c c' : core (C := role D) (W := plane * X)) : Prop :=
  plane_registered i c' /\ locks (plane_in c') = locks (plane_in c).

Lemma call_other i cb c : other_cb (Some cb) -> plane_registered i c ->
  undisturbed i c (call contract plane_exec cb c).2.
Proof.
  destruct cb as [| | |d]; try done; intros _ H; unfold call; simpl; destruct (other d (snd c)) as [[r w'] regs] eqn:E.
  split; [|exact (other_locks _ _ _ _ _ E)]; simpl.
  pose proof (fun a => other_regs _ _ _ _ _ a E) as Hregs; clear E; destruct c as [reg w]; simpl in *.
  assert (plane_registered i (reg, w')) as H' by (by destruct H; split); clear H; revert reg H'.
  induction regs as [|a regs IH]; intros reg H; simpl; [done|]; apply IH.
  - intros b Hb; apply Hregs; by right.
  - destruct (Hregs a) as (? & ? & ? & ?); [by left|]; by apply register_other.
Qed.

Lemma undisturbed_trans i c1 c2 c3 : undisturbed i c1 c2 -> undisturbed i c2 c3 -> undisturbed i c1 c3.
Proof. intros [] []; split; [done|congruence]. Qed.

Lemma prepare_others i hs c : Forall other_handler hs -> plane_registered i c ->
  undisturbed i c (prepare_all contract plane_exec hs c).2.
Proof.
  intros Hhs; revert c; induction Hhs as [|h hs (Hn & Hb & _) _ IH]; intros c H; [done|]; simpl.
  destruct (prepare_one contract plane_exec h c) as [b c1] eqn:E.
  assert (undisturbed i c c1) as H1.
  { unfold prepare_one in E; destruct (before h) as [cb|]; [|by simplify_eq].
    pose proof (call_other i cb c Hb H) as Hc; destruct (call contract plane_exec cb c); by simplify_eq. }
  pose proof (IH c1 (proj1 H1)) as H2; destruct (prepare_all contract plane_exec hs c1); by eapply undisturbed_trans.
Qed.

Lemma child_others i hbs c : Forall (fun hb => other_handler (fst hb)) hbs -> plane_registered i c ->
  undisturbed i c (child_all contract plane_exec hbs c).
Proof.
  intros Hhs; revert c; induction Hhs as [|[h b] hbs (Hn & _ & _ & Hc) _ IH]; intros c H; [done|]; simpl in *.
  assert (undisturbed i c (if b then run_opt contract plane_exec (after_in_child h) c else c)) as H1.
  { destruct b; [|done]; unfold run_opt; destruct (after_in_child h) as [cb|]; [by apply call_other|done]. }
  eapply undisturbed_trans; [exact H1|apply IH, H1].
Qed.

Lemma others_split i c : plane_registered i c ->
  exists l1 l2, live (fst c) = l1 ++ plane_handler :: l2 /\ Forall other_handler l1 /\ Forall other_handler l2.
Proof.
  intros [_ H2 H3]; destruct (list_elem_of_split_length _ _ _ H2) as (l1 & l2 & E & Hi).
  exists l1, l2; split; [done|]; rewrite E in H3; split; apply Forall_lookup; intros k h Hk.
  - apply (H3 k); [apply lookup_lt_Some in Hk; lia|by apply lookup_app_l_Some].
  - apply (H3 (length l1 + S k)); [lia|]; rewrite lookup_app_r by lia.
    by replace (length l1 + S k - length l1) with (S k) by lia.
Qed.

(** The plane's own preparation, in the middle of the others. *)
Lemma prepare_plane i c : plane_registered i c ->
  exists c', prepare_one contract plane_exec plane_handler c = (true, c') /\ plane_registered i c'
  /\ locks (plane_in c') = (let '(l, b, _, q) := locks (plane_in c) in (l, b, Some (bank b), q)).
Proof. intros H; eexists; split; [done|split; [by destruct H; split|done]]. Qed.

Lemma reset_plane i c l b n q : plane_registered i c -> locks (plane_in c) = (l, b, Some n, q) ->
  let c' := run_opt contract plane_exec (after_in_child plane_handler) c in
  plane_registered i c' /\ locks (plane_in c') = (n, 1 - b, None, l :: q).
Proof.
  intros H E; destruct c as [r [pl x]]; unfold locks, plane_in in E; cbn [fst snd] in E; injection E as <- <- E3 <-.
  unfold run_opt, call; simpl; unfold _reset_after_fork; cbv [run bind mbind M_bind reads]; rewrite E3; simpl.
  split; [by destruct H; split|done].
Qed.

(** One managed fork: the plane swaps to the lock its bank had ready. *)
Lemma managed_fork i f c l b fr q : plane_registered i c -> array_ok f -> locks (plane_in c) = (l, b, fr, q) ->
  forall g, let '(f', c') := _child contract plane_exec (_before contract plane_exec g (f, c)) in
  plane_registered i c' /\ array_ok f'
  /\ locks (plane_in c') = if g <=? 1 then (bank b, 1 - b, None, l :: q) else (l, b, fr, q).
Proof.
  intros H Hf Hl g; pose proof (dispatch_spec contract plane_exec g f c (pr_registry _ _ H) Hf) as Hd; unfold dispatched in Hd.
  destruct (others_split i c H) as (l1 & l2 & El & Ho1 & Ho2); rewrite El, prepare_all_app in Hd.
  set (p1 := prepare_all contract plane_exec l1 c) in *; pose proof (prepare_others i l1 c Ho1 H) as [H1 L1]; fold p1 in H1, L1.
  destruct (prepare_plane i p1.2 H1) as (c2 & E2 & H2 & L2); cbn [prepare_all] in Hd; rewrite E2 in Hd.
  pose proof (prepare_others i l2 c2 Ho2 H2) as [H3 L3].
  destruct (prepare_all contract plane_exec l2 c2) as [bs2 c3] eqn:E3; cbn [fst snd] in Hd, H3, L3.
  destruct (_child contract plane_exec _) as [f' c'] eqn:Ec; destruct Hd as (Hf' & _ & _ & _ & Hc' & _); cbn [fst snd] in Hf', Hc'.
  destruct (g <=? 1); [|by subst].
  rewrite zip_with_app in Hc' by (symmetry; apply length_prepare_all); cbn [zip_with] in Hc'.
  unfold child_all in Hc'; rewrite foldl_app in Hc'; cbn [foldl fst snd] in Hc'.
  assert (Hz : forall hs bs, Forall other_handler hs -> Forall (fun hb : handler * bool => other_handler (fst hb)) (zip hs bs)).
  { intros hs bs Hhs; revert bs; induction Hhs; intros [|? ?]; constructor; auto. }
  set (c4 := foldl _ c3 _) in Hc'.
  assert (undisturbed i c3 c4) as [H4 L4] by (by apply child_others; [apply Hz|]).
  destruct (reset_plane i c4 l b (bank b) q H4) as [H5 L5].
  { rewrite L4, L3, L2, L1, Hl; done. }
  set (c5 := run_opt _ _ _ c4) in *.
  assert (undisturbed i c5 c') as [H6 L6] by (subst c'; by apply child_others; [apply Hz|]).
  split; [done|split; [done|congruence]].
Qed.

(** The state after [n] forks down a line: two swaps, then nothing moves. *)
Record descended (i n : nat) (p : process) : Prop := {
  de_safety : safety_ok (fst (fst p));
  de_generation : fork_generation (fst (fst p)) = Nat.min n 2;
  de_arrays : array_ok (snd (fst p));
  de_registered : plane_registered i (snd p);
  de_lock : StaticControlPlane.lock (plane_in (snd p)) = Nat.min n 2;
  de_bank : StaticControlPlane.bank_index (plane_in (snd p)) = Nat.min n 2 mod 2;
  de_quarantined : quarantined (plane_in (snd p)) = rev (seq 0 (Nat.min n 2));
}.

Lemma fork_child_descended i n pid p : descended i n p -> descended i (S n) (fork_child pid p).
Proof.
  destruct p as [[s f] c]; intros [Hs Hg Hf Hc Hl Hb Hq]; cbn [fst snd] in *; unfold fork_child.
  destruct (child_of_ok pid s Hs) as (Hs' & _ & _ & Hg'); unfold child_of in Hs', Hg'.
  assert (locks (plane_in c) = (Nat.min n 2, Nat.min n 2 mod 2, fresh_lock (plane_in c), rev (seq 0 (Nat.min n 2)))) as HL.
  { unfold locks; by rewrite Hl, Hb, Hq. }
  pose proof (managed_fork i f c _ _ _ _ Hc Hf HL (fork_quarantine_generation s)) as Hm.
  destruct (_before _ _ _ (f, c)) as [f1 c1]; destruct (_child _ _ (f1, c1)) as [f2 c2]; destruct Hm as (H1 & H2 & H3).
  unfold fork_quarantine_generation in H3; rewrite Hg in H3, Hg'; unfold locks in H3.
  assert (n = 0 \/ n = 1 \/ 2 <= n) as [->|[->|Hn]] by lia; [| |replace (Nat.min n 2) with 2 in * by lia];
    simpl in H3; injection H3 as E1 E2 _ E4; split; cbn [fst snd]; try done; rewrite ?Hg'; try lia;
    replace (Nat.min (S n) 2) with 2 by lia; done.
Qed.

(** A process after a line of nested forks. *)
Definition descendant (pids : list Z) (p : process) : process := foldl (fun p pid => fork_child pid p) p pids.

Lemma descendant_descended i n pids p : descended i n p -> descended i (n + length pids) (descendant pids p).
Proof.
  revert n p; induction pids as [|pid pids IH]; intros n p H; simpl; [by rewrite Nat.add_0_r|].
  rewrite <- Nat.add_succ_comm; by apply IH, fork_child_descended.
Qed.

(** C19: No process of a line of nested forks works with a lock that its line has
    quarantined, although the bank has two locks only: the first two
    generations swap to the first and the second lock of the bank, all later
    ones leave the state alone, and every process but the first refuses to run.
    This holds whatever the handlers of the other modules do to their own state. *)
Theorem nested_forks_take_fresh_locks i c pid pids :
  plane_registered i c -> locks (plane_in c) = (0, 0, None, []) ->
  let p := descendant pids (start pid, no_generation, c) in
  (StaticControlPlane.lock (plane_in (snd p)) ∉ quarantined (plane_in (snd p)))
  /\ StaticControlPlane.lock (plane_in (snd p)) = Nat.min (length pids) 2
  /\ ForkSafety.lock (fst (fst p)) = Nat.min (length pids) 2
  /\ (ensure_runtime_fork_safe (fst (fst p)) = Ok tt <-> pids = []).
Proof.
  intros Hc Hl p; assert (descended i 0 (start pid, no_generation, c)) as H0.
  { unfold locks in Hl; split; try done; simpl; [apply start_ok|congruence..]. }
  destruct (descendant_descended i 0 pids _ H0) as [Hs Hg _ _ Hlock _ Hq]; fold p in Hs, Hg, Hlock, Hq; rewrite Nat.add_0_l in *.
  split; [|split; [done|split; [destruct (so_lock _ Hs); congruence|]]].
  - rewrite Hlock, Hq, list_elem_of_In, <- in_rev, in_seq; lia.
  - destruct pids as [|pid' pids]; [split; [done|]; intros _; unfold ensure_runtime_fork_safe, runtime_fork_poisoned; simpl; by rewrite Z.eqb_refl|].
    split; [|done]; unfold ensure_runtime_fork_safe, runtime_fork_poisoned.
    assert (forked_child (fst (fst p)) = true) as -> by (apply (so_child _ Hs); rewrite Hg; simpl; lia); done.
Qed.
End Descent.

Module Example.

(** One other module, whose callbacks raise. *)
Definition failing (d : unit) (w : plane * unit) : result unit * (plane * unit) * list (@registration (role unit)) :=
  (Err ValueError, w, []).

Definition failing_args : @registration (role unit) :=
  mk_registration "memory" (Some (OtherRole ())) (Some (OtherRole ())) (Some (OtherRole ())) 1 false None.
Definition plane_args : @registration (role unit) :=
  mk_registration "static-control-plane" (Some PlanePrepare) (Some PlaneClear) (Some PlaneReset) 1 false None.

Definition tag (cb : role unit) : nat :=
  match cb with PlanePrepare => 0 | PlaneClear => 1 | PlaneReset => 2 | OtherRole _ => 3 end.

Definition two_handlers : registry (C := role unit) :=
  foldl (fun r a => snd (register_fork_handler tag a r)) empty_registry [failing_args; plane_args].

Lemma two_handlers_registered w : plane_registered (X := unit) 1 (two_handlers, w).
Proof.
  split; [split|..]; try done.
  - simpl; unfold _MAX_FORK_HANDLERS; lia.
  - repeat constructor; simpl; done.
  - apply NoDup_ListNoDup; repeat constructor; vm_compute; intuition discriminate.
  - intros [|[|j]] h Hj E; [|done|by destruct j]; vm_compute in E; injection E as <-; done.
Qed.

Lemma nested_forks_take_fresh_locks_witness :
  StaticControlPlane.lock (plane_in (snd (descendant tag failing [2%Z; 3%Z; 4%Z] (start (O := unit) 1, no_generation, (two_handlers, (init true, ())))))) = 2.
Proof.
  destruct (nested_forks_take_fresh_locks (O := unit) tag failing) with (i := 1) (c := (two_handlers, (init true, ()))) (pid := 1%Z) (pids := [2%Z; 3%Z; 4%Z])
    as (_ & E & _).
  - intros d w r w' regs [= _ <- _]; done.
  - intros d w r w' regs a [= _ _ <-] Ha; by apply elem_of_nil in Ha.
  - apply two_handlers_registered.
  - reflexivity.
  - exact E.
Defined.

Lemma fork_dispatch_exact_witness :
  exists f', _child tag (plane_exec failing) (_before tag (plane_exec failing) 0 (no_generation, (two_handlers, (init true, ()))))
    = (f', child_all tag (plane_exec failing) (zip (live two_handlers) [false; true])
             (two_handlers, (snd (run _prepare_for_fork (init true)), ()))).
Proof.
  pose proof (fork_dispatch_exact tag (plane_exec failing) 0 no_generation (two_handlers, (init true, ()))) as H.
  destruct (two_handlers_registered (init true, ())) as [Hr _ _]; specialize (H Hr (conj eq_refl eq_refl)).
  destruct (_child _ _ _) as [f' c'] eqn:E; exists f'; f_equal.
  destruct H as (_ & _ & _ & _ & Hc & _); exact Hc.
Defined.
End Example.
