(* ===== verification/ControlPlane.v ===== *)
(** * ControlPlane: the budget of control-plane objects

    [core_impl/control_plane_budget.py] in one process.  Live tickets are the
    authority, the counters a cache that is rebuilt from them, tokens are
    recycled through a ring, and a shadow of the governed bytes is charged to the
    native pool.  Code runs in the monad of the prelude; stores of local
    variables are not interruption points.  The fork methods are not modelled. *)

From Stdlib Require Import String.
From S2P Require Import Prelude.

#[local] Open Scope Z_scope.

Definition _DEFAULT_CAPACITY_BYTES : Z := 256 * 1024 * 1024.
Definition _MAX_CAPACITY_BYTES : Z := 512 * 1024 * 1024.
Definition _MIN_TICKET_BYTES : Z := 256.
Definition _MAX_TICKET_TOKEN : Z := Z.shiftl 1 63 - 1.

(** [_ControlPlaneCapability]; capabilities are objects, named by their index. *)
Record capability : Type := mk_cap {
  cap_pid : Z;
  cap_token : Z;
  cap_released : bool;
  cap_retire : bool;
}.

(** [_ControlPlaneOwnerEntry] without its weak reference. *)
Record owner_entry : Type := mk_entry { entry_cap : nat; entry_amount : Z }.

(** [ControlPlaneTicket]: what the caller holds. *)
Record ticket : Type := mk_ticket {
  ticket_amount : Z;
  ticket_kind : string;
  ticket_pid : Z;
  ticket_token : Z;
  ticket_cap : nat;
}.

(** [_ProcessControlPlaneBudget].  [native_bytes] is what its private ledger has
    charged to the native pool, [native_calls] counts the calls into it. *)
Record cp_state : Type := mk_cp {
  pid : Z;
  capacity : Z;
  reserved : Z;
  peak : Z;
  active : Z;
  rejected : Z;
  over_release : Z;
  sequence : Z;
  free_tokens : list Z;
  free_head : nat;
  free_tail : nat;
  free_count : nat;
  owners : list (Z * owner_entry);
  counters_dirty : bool;
  corrupted : bool;
  shadow_capsule : bool;
  shadow_bytes : Z;
  shadow_dirty : bool;
  native_bytes : Z;
  native_calls : nat;
  capabilities : list capability;
}.

Definition set_capacity v (s : cp_state) : cp_state :=
  mk_cp (pid s) v (reserved s) (peak s) (active s) (rejected s) (over_release s) (sequence s) (free_tokens s) (free_head s) (free_tail s)
    (free_count s) (owners s) (counters_dirty s) (corrupted s) (shadow_capsule s) (shadow_bytes s) (shadow_dirty s) (native_bytes s) (native_calls s) (capabilities s).
Definition set_reserved v (s : cp_state) : cp_state :=
  mk_cp (pid s) (capacity s) v (peak s) (active s) (rejected s) (over_release s) (sequence s) (free_tokens s) (free_head s) (free_tail s)
    (free_count s) (owners s) (counters_dirty s) (corrupted s) (shadow_capsule s) (shadow_bytes s) (shadow_dirty s) (native_bytes s) (native_calls s) (capabilities s).
Definition set_peak v (s : cp_state) : cp_state :=
  mk_cp (pid s) (capacity s) (reserved s) v (active s) (rejected s) (over_release s) (sequence s) (free_tokens s) (free_head s) (free_tail s)
    (free_count s) (owners s) (counters_dirty s) (corrupted s) (shadow_capsule s) (shadow_bytes s) (shadow_dirty s) (native_bytes s) (native_calls s) (capabilities s).
Definition set_active v (s : cp_state) : cp_state :=
  mk_cp (pid s) (capacity s) (reserved s) (peak s) v (rejected s) (over_release s) (sequence s) (free_tokens s) (free_head s) (free_tail s)
    (free_count s) (owners s) (counters_dirty s) (corrupted s) (shadow_capsule s) (shadow_bytes s) (shadow_dirty s) (native_bytes s) (native_calls s) (capabilities s).
Definition set_rejected v (s : cp_state) : cp_state :=
  mk_cp (pid s) (capacity s) (reserved s) (peak s) (active s) v (over_release s) (sequence s) (free_tokens s) (free_head s) (free_tail s)
    (free_count s) (owners s) (counters_dirty s) (corrupted s) (shadow_capsule s) (shadow_bytes s) (shadow_dirty s) (native_bytes s) (native_calls s) (capabilities s).
Definition set_over v (s : cp_state) : cp_state :=
  mk_cp (pid s) (capacity s) (reserved s) (peak s) (active s) (rejected s) v (sequence s) (free_tokens s) (free_head s) (free_tail s)
    (free_count s) (owners s) (counters_dirty s) (corrupted s) (shadow_capsule s) (shadow_bytes s) (shadow_dirty s) (native_bytes s) (native_calls s) (capabilities s).
Definition set_sequence v (s : cp_state) : cp_state :=
  mk_cp (pid s) (capacity s) (reserved s) (peak s) (active s) (rejected s) (over_release s) v (free_tokens s) (free_head s) (free_tail s)
    (free_count s) (owners s) (counters_dirty s) (corrupted s) (shadow_capsule s) (shadow_bytes s) (shadow_dirty s) (native_bytes s) (native_calls s) (capabilities s).
Definition set_tokens v (s : cp_state) : cp_state :=
  mk_cp (pid s) (capacity s) (reserved s) (peak s) (active s) (rejected s) (over_release s) (sequence s) v (free_head s) (free_tail s)
    (free_count s) (owners s) (counters_dirty s) (corrupted s) (shadow_capsule s) (shadow_bytes s) (shadow_dirty s) (native_bytes s) (native_calls s) (capabilities s).
Definition set_head v (s : cp_state) : cp_state :=
  mk_cp (pid s) (capacity s) (reserved s) (peak s) (active s) (rejected s) (over_release s) (sequence s) (free_tokens s) v (free_tail s)
    (free_count s) (owners s) (counters_dirty s) (corrupted s) (shadow_capsule s) (shadow_bytes s) (shadow_dirty s) (native_bytes s) (native_calls s) (capabilities s).
Definition set_tail v (s : cp_state) : cp_state :=
  mk_cp (pid s) (capacity s) (reserved s) (peak s) (active s) (rejected s) (over_release s) (sequence s) (free_tokens s) (free_head s) v
    (free_count s) (owners s) (counters_dirty s) (corrupted s) (shadow_capsule s) (shadow_bytes s) (shadow_dirty s) (native_bytes s) (native_calls s) (capabilities s).
Definition set_count v (s : cp_state) : cp_state :=
  mk_cp (pid s) (capacity s) (reserved s) (peak s) (active s) (rejected s) (over_release s) (sequence s) (free_tokens s) (free_head s) (free_tail s)
    v (owners s) (counters_dirty s) (corrupted s) (shadow_capsule s) (shadow_bytes s) (shadow_dirty s) (native_bytes s) (native_calls s) (capabilities s).
Definition set_owners v (s : cp_state) : cp_state :=
  mk_cp (pid s) (capacity s) (reserved s) (peak s) (active s) (rejected s) (over_release s) (sequence s) (free_tokens s) (free_head s) (free_tail s)
    (free_count s) v (counters_dirty s) (corrupted s) (shadow_capsule s) (shadow_bytes s) (shadow_dirty s) (native_bytes s) (native_calls s) (capabilities s).
Definition set_dirty v (s : cp_state) : cp_state :=
  mk_cp (pid s) (capacity s) (reserved s) (peak s) (active s) (rejected s) (over_release s) (sequence s) (free_tokens s) (free_head s) (free_tail s)
    (free_count s) (owners s) v (corrupted s) (shadow_capsule s) (shadow_bytes s) (shadow_dirty s) (native_bytes s) (native_calls s) (capabilities s).
Definition set_corrupted v (s : cp_state) : cp_state :=
  mk_cp (pid s) (capacity s) (reserved s) (peak s) (active s) (rejected s) (over_release s) (sequence s) (free_tokens s) (free_head s) (free_tail s)
    (free_count s) (owners s) (counters_dirty s) v (shadow_capsule s) (shadow_bytes s) (shadow_dirty s) (native_bytes s) (native_calls s) (capabilities s).
Definition set_capsule v (s : cp_state) : cp_state :=
  mk_cp (pid s) (capacity s) (reserved s) (peak s) (active s) (rejected s) (over_release s) (sequence s) (free_tokens s) (free_head s) (free_tail s)
    (free_count s) (owners s) (counters_dirty s) (corrupted s) v (shadow_bytes s) (shadow_dirty s) (native_bytes s) (native_calls s) (capabilities s).
Definition set_shadow v (s : cp_state) : cp_state :=
  mk_cp (pid s) (capacity s) (reserved s) (peak s) (active s) (rejected s) (over_release s) (sequence s) (free_tokens s) (free_head s) (free_tail s)
    (free_count s) (owners s) (counters_dirty s) (corrupted s) (shadow_capsule s) v (shadow_dirty s) (native_bytes s) (native_calls s) (capabilities s).
Definition set_shadow_dirty v (s : cp_state) : cp_state :=
  mk_cp (pid s) (capacity s) (reserved s) (peak s) (active s) (rejected s) (over_release s) (sequence s) (free_tokens s) (free_head s) (free_tail s)
    (free_count s) (owners s) (counters_dirty s) (corrupted s) (shadow_capsule s) (shadow_bytes s) v (native_bytes s) (native_calls s) (capabilities s).
Definition set_native v (s : cp_state) : cp_state :=
  mk_cp (pid s) (capacity s) (reserved s) (peak s) (active s) (rejected s) (over_release s) (sequence s) (free_tokens s) (free_head s) (free_tail s)
    (free_count s) (owners s) (counters_dirty s) (corrupted s) (shadow_capsule s) (shadow_bytes s) (shadow_dirty s) v (native_calls s) (capabilities s).
Definition set_calls v (s : cp_state) : cp_state :=
  mk_cp (pid s) (capacity s) (reserved s) (peak s) (active s) (rejected s) (over_release s) (sequence s) (free_tokens s) (free_head s) (free_tail s)
    (free_count s) (owners s) (counters_dirty s) (corrupted s) (shadow_capsule s) (shadow_bytes s) (shadow_dirty s) (native_bytes s) v (capabilities s).
Definition set_caps v (s : cp_state) : cp_state :=
  mk_cp (pid s) (capacity s) (reserved s) (peak s) (active s) (rejected s) (over_release s) (sequence s) (free_tokens s) (free_head s) (free_tail s)
    (free_count s) (owners s) (counters_dirty s) (corrupted s) (shadow_capsule s) (shadow_bytes s) (shadow_dirty s) (native_bytes s) (native_calls s) v.

(** ** Dicts keyed by token, in insertion order *)

Fixpoint owner_get (token : Z) (l : list (Z * owner_entry)) : option owner_entry :=
  match l with
  | [] => None
  | (t, e) :: l' => if t =? token then Some e else owner_get token l'
  end.

Fixpoint owner_set (token : Z) (e : owner_entry) (l : list (Z * owner_entry)) : list (Z * owner_entry) :=
  match l with
  | [] => [(token, e)]
  | (t, e') :: l' => if t =? token then (t, e) :: l' else (t, e') :: owner_set token e l'
  end.

Fixpoint owner_pop (token : Z) (l : list (Z * owner_entry)) : list (Z * owner_entry) :=
  match l with
  | [] => []
  | (t, e) :: l' => if t =? token then l' else (t, e) :: owner_pop token l'
  end.

Fixpoint first_owner (p : owner_entry -> bool) (l : list (Z * owner_entry)) : option (Z * owner_entry) :=
  match l with
  | [] => None
  | (t, e) :: l' => if p e then Some (t, e) else first_owner p l'
  end.

Section Budget.
(** [_MAX_ACTIVE_TICKETS], the static baseline, the native pool's answers (does the
    [n]-th call raise) and the resident snapshot (reserved, capacity). *)
Context (_MAX_ACTIVE_TICKETS : nat) (static_baseline : Z) (native_raises : nat -> bool) (resident : Z * Z).

Definition __init__ (p : Z) : cp_state :=
  mk_cp p _DEFAULT_CAPACITY_BYTES 0 0 0 0 0 0 (replicate _MAX_ACTIVE_TICKETS 0) 0 0 0 [] false false false 0 false 0 0 [].

(** ** Counters *)

Definition cap_at (s : cp_state) (c : nat) : option capability := capabilities s !! c.

(** The check of one owner in the reconciliation. *)
Definition valid_owner (s : cp_state) (e : owner_entry) : bool :=
  match cap_at s (entry_cap e) with
  | Some c => (cap_pid c =? pid s) && (0 <? cap_token c) && (0 <=? entry_amount e)
  | None => false
  end.

Fixpoint count_owners (l : list (Z * owner_entry)) (sums : Z * Z) : M cp_state (Z * Z) :=
  match l with
  | [] => ret sums
  | (_, e) :: l' =>
    tick;;
    valid ← reads (fun s => valid_owner s e);
    if valid : bool then count_owners l' (fst sums + entry_amount e, snd sums + 1)
    else store (set_corrupted true);; count_owners l' sums
  end.

Definition _reconcile_counters_locked : M cp_state bool :=
  l ← reads owners;
  sums ← try_except (sums ← count_owners l (0, 0); ret (Some sums))
                    (fun _ => store (set_dirty true);; store (set_corrupted true);; ret None);
  match sums with
  | None => ret false
  | Some (r, a) =>
    drifted ← reads (fun s => negb (reserved s =? r) || negb (active s =? a));
    whenM drifted (store (set_dirty true));;
    store (set_reserved r);;
    store (set_active a);;
    store (set_dirty false);;
    bad ← reads corrupted;
    ret (negb bad)
  end.

(** ** The native shadow *)

Definition native_call : M cp_state unit :=
  n ← reads native_calls;
  modify (set_calls (S n));;
  if native_raises n then raise RuntimeError else ret tt.

Definition prewarm_native_shadow : M cp_state bool :=
  ready ← reads shadow_capsule;
  if ready : bool then ret true
  else
    native_call;;
    store (set_capsule true);;
    store (set_shadow 0);;
    store (set_shadow_dirty false);;
    ret true.

Definition _sync_native_shadow_locked (target : Z) : M cp_state bool :=
  prewarm_native_shadow;;
  stale ← reads shadow_dirty;
  whenM stale (
    native_call;;
    actual ← reads native_bytes;
    store (set_shadow actual);;
    store (set_shadow_dirty false));;
  current ← reads shadow_bytes;
  (if current <? target then
     native_call;;
     modify (fun s => set_native (native_bytes s + (target - current)) s);;
     store (set_shadow target)
   else if target <? current then
     native_call;;
     modify (fun s => set_native (native_bytes s - (current - target)) s);;
     store (set_shadow target)
   else ret tt);;
  ret true.

Definition _release_native_shadow_locked (amount : Z) : M cp_state unit :=
  ready ← reads shadow_capsule;
  if (amount <=? 0) || negb ready then ret tt
  else
    try_except (
      native_call;;
      modify (fun s => set_native (native_bytes s - amount) s);;
      try_except (shadow ← reads shadow_bytes; store (set_shadow (Z.max 0 (shadow - amount))))
                 (fun _ => store (set_shadow_dirty true)))
      (fun _ => store (set_shadow_dirty true)).

(** ** Admission *)

Definition set_capability (c : nat) (f : capability -> capability) (s : cp_state) : cp_state :=
  set_caps (alter f c (capabilities s)) s.

Definition with_token t (c : capability) : capability := mk_cap (cap_pid c) t (cap_released c) (cap_retire c).
Definition with_released b (c : capability) : capability := mk_cap (cap_pid c) (cap_token c) b (cap_retire c).
Definition with_retire b (c : capability) : capability := mk_cap (cap_pid c) (cap_token c) (cap_released c) b.

Definition count_rejection : M cp_state unit := n ← reads rejected; store (set_rejected (n + 1)).

Definition count_over_release : M cp_state unit := suppress (n ← reads over_release; store (set_over (n + 1))).

Definition ring_succ (i : nat) : nat := ring_next _MAX_ACTIVE_TICKETS i.
Definition ring_pred (i : nat) : nat := if (0 <? i)%nat then (i - 1)%nat else (_MAX_ACTIVE_TICKETS - 1)%nat.

Record plan : Type := mk_plan {
  next_reserved : Z;
  next_active : Z;
  next_peak : Z;
  reuse_token : bool;
  token : Z;
  next_free_head : nat;
  next_free_count : nat;
}.

(** The local variables of an admission. *)
Definition plan_of (amount : Z) (s : cp_state) : plan :=
  let next_reserved := reserved s + amount in
  let reuse_token := (0 <? free_count s)%nat in
  mk_plan next_reserved (active s + 1) (Z.max (peak s) next_reserved) reuse_token
    (if reuse_token then free_tokens s !!! free_head s else sequence s + 1)
    (if reuse_token then ring_succ (free_head s) else free_head s)
    (if reuse_token then (free_count s - 1)%nat else free_count s).

(** [is entry]: the owner map holds this capability's entry under the token. *)
Definition holds_entry (t : Z) (e : owner_entry) (s : cp_state) : bool :=
  match owner_get t (owners s) with Some e' => (entry_cap e' =? entry_cap e)%nat | None => false end.

(** The [try] block: namespace, then owner.  The locals say how far it came. *)
Record progress : Type := mk_progress { namespace_committed : bool; shadow_grew : bool }.

Definition set_local (f : progress -> progress) : M (cp_state * progress) unit := modify (fun p => (fst p, f (snd p))).

Definition commit_owner (p : plan) (e : owner_entry) (governed : Z) : M (cp_state * progress) unit :=
  onS (_sync_native_shadow_locked governed);;
  set_local (fun l => mk_progress (namespace_committed l) true);;
  (if reuse_token p then
     onS (store (set_head (next_free_head p)));;
     onS (store (set_count (next_free_count p)))
   else onS (store (set_sequence (token p))));;
  set_local (fun l => mk_progress true (shadow_grew l));;
  onS (store (fun s => set_owners (owner_set (token p) e (owners s)) s));;
  committed ← reads (fun p' => holds_entry (token p) e (fst p'));
  if committed : bool then ret tt else raise RuntimeError.

(** The [except BaseException] block. *)
Definition abort_owner (p : plan) (e : owner_entry) (current_governed : Z) : M (cp_state * progress) unit :=
  committed ← reads (fun p' => holds_entry (token p) e (fst p'));
  if committed : bool then
    onS (store (set_capability (entry_cap e) (with_retire true)));;
    onS (store (set_reserved (next_reserved p)));;
    onS (store (set_peak (next_peak p)));;
    onS (store (set_active (next_active p)))
  else
    l ← reads snd;
    whenM (namespace_committed l) (
      if reuse_token p then
        head ← reads (fun p' => free_head (fst p'));
        onS (store (set_head (ring_pred head)));;
        count ← reads (fun p' => free_count (fst p'));
        onS (store (set_count (S count)))
      else
        current ← reads (fun p' => sequence (fst p'));
        whenM (current =? token p) (onS (store (set_sequence (token p - 1)))));;
    whenM (shadow_grew l) (
      try_except (onS (_sync_native_shadow_locked current_governed);; ret tt)
                 (fun _ => onS (store (set_shadow_dirty true))));;
    onS (store (set_capability (entry_cap e) (with_token 0))).

(** [reserve] once the shadow carries the governed bytes: the limits, then the
    commit of namespace and owner. *)
Definition admit_ticket (kind : string) (amount : Z) (cap : nat) (room current_governed : Z) : M cp_state ticket :=
  p ← reads (plan_of amount);
  last ← reads sequence;
  free ← reads free_count;
  let next_governed_control := static_baseline + next_reserved p in
  if (room <? next_governed_control) || (Z.of_nat _MAX_ACTIVE_TICKETS <? next_active p)
     || ((free =? 0)%nat && (_MAX_TICKET_TOKEN <=? last))
  then count_rejection;; raise (ResourceError "process_control_plane_bytes" room next_governed_control)
  else if snd resident <? fst resident + amount
  then count_rejection;; raise (ResourceError "process_governed_memory_bytes" (snd resident) (fst resident + amount))
  else
    let e := mk_entry cap amount in
    store (set_capability cap (with_token (token p)));;
    with_local (mk_progress false false)
      (try_except (commit_owner p e next_governed_control)
                  (fun x => abort_owner p e current_governed;; raise x));;
    store (set_reserved (next_reserved p));;
    store (set_peak (next_peak p));;
    store (set_active (next_active p));;
    owner ← reads pid;
    ret (mk_ticket amount kind owner (token p) cap).

Definition reserve (kind : string) (amount : Z) : M cp_state ticket :=
  if amount <? _MIN_TICKET_BYTES then raise ValueError
  else
    prewarm_native_shadow;;
    cap ← reads (fun s => length (capabilities s));
    modify (fun s => set_caps (capabilities s ++ [mk_cap (pid s) 0 false false]) s);;
    _reconcile_counters_locked;;
    bad ← reads corrupted;
    room ← reads capacity;
    held ← reads reserved;
    if bad : bool then
      suppress count_rejection;;
      raise (ResourceError "process_control_plane_corruption_quarantine" room (held + amount))
    else
      _sync_native_shadow_locked (static_baseline + held);;
      admit_ticket kind amount cap room (static_baseline + held).

(** ** Release *)

Definition mark_released (c : nat) : M cp_state unit :=
  store (set_capability c (with_released true));;
  store (set_capability c (with_retire false)).

(** The part of [_release_capability] after the owner was authenticated. *)
Definition retire_owner (c : nat) (t : Z) (e : owner_entry) : M cp_state bool :=
  _reconcile_counters_locked;;
  short ← reads (fun s => (reserved s <? entry_amount e) || (active s <=? 0));
  whenM short (store (set_dirty true);; _reconcile_counters_locked;; ret tt);;
  short ← reads (fun s => (reserved s <? entry_amount e) || (active s <=? 0));
  if short : bool then count_over_release;; ret false
  else
    can_recycle ← reads (fun s => (free_count s <? _MAX_ACTIVE_TICKETS)%nat);
    recycle_tail ← reads free_tail;
    recycle_count ← reads free_count;
    removed ← try_except
      (removed ← reads (fun s => owner_get t (owners s));
       store (fun s => set_owners (owner_pop t (owners s)) s);;
       ret removed)
      (fun x => kept ← reads (fun s => owner_get t (owners s));
                match kept with Some _ => raise x | None => ret (Some e) end);
    match removed with
    | None => mark_released c;; _reconcile_counters_locked;; ret true
    | Some e' =>
      if negb (entry_cap e' =? entry_cap e)%nat then store (set_corrupted true);; ret false
      else
        _release_native_shadow_locked (entry_amount e);;
        (if can_recycle : bool then
           store (fun s => set_tokens (<[recycle_tail := t]> (free_tokens s)) s);;
           store (set_tail (ring_succ recycle_tail));;
           store (set_count (S recycle_count))
         else suppress (n ← reads over_release; store (set_over (Z.min _MAX_TICKET_TOKEN (n + 1)))));;
        mark_released c;;
        store (set_dirty true);;
        _reconcile_counters_locked;;
        ret true
    end.

Definition _release_capability (c : nat) (t : Z) : M cp_state bool :=
  known ← reads (fun s => cap_at s c);
  owner ← reads pid;
  match known with
  | None => raise AssertionError
  | Some k =>
    if cap_released k then ret true
    else if negb (cap_pid k =? owner) then ret true
    else
      found ← reads (fun s => owner_get t (owners s));
      match found with
      | None =>
        if cap_token k =? t then mark_released c;; _reconcile_counters_locked;; ret true
        else count_over_release;; ret false
      | Some e =>
        if negb (entry_cap e =? c)%nat || negb (cap_token k =? t) then count_over_release;; ret false
        else retire_owner c t e
      end
  end.

Definition release (tk : option ticket) : M cp_state bool :=
  match tk with
  | None => ret true
  | Some tk =>
    owner ← reads pid;
    if negb (ticket_pid tk =? owner) then ret true
    else
      released ← _release_capability (ticket_cap tk) (ticket_token tk);
      whenM released (mark_released (ticket_cap tk));;
      ret released
  end.

Definition request_retirement (tk : option ticket) : M cp_state bool :=
  match tk with
  | None => ret false
  | Some tk =>
    known ← reads (fun s => cap_at s (ticket_cap tk));
    owner ← reads pid;
    match known with
    | None => ret false
    | Some k =>
      if cap_released k then ret true
      else if negb (ticket_pid tk =? owner) then ret true
      else
        found ← reads (fun s => owner_get (ticket_token tk) (owners s));
        match found with
        | None => ret false
        | Some e =>
          if negb (entry_cap e =? ticket_cap tk)%nat then ret false
          else store (set_capability (ticket_cap tk) (with_retire true));; ret true
        end
    end
  end.

Definition requested (s : cp_state) (e : owner_entry) : bool :=
  match cap_at s (entry_cap e) with Some k => cap_retire k | None => false end.

(** The loop of [drain_requested_retirements] with [limit] turns left. *)
Fixpoint drain_loop (limit : nat) (progressed : Z) : M cp_state Z :=
  match limit with
  | O => ret progressed
  | S limit' =>
    _reconcile_counters_locked;;
    candidate ← reads (fun s => first_owner (requested s) (owners s));
    match candidate with
    | None => ret progressed
    | Some (t, e) =>
      released ← _release_capability (entry_cap e) t;
      if released : bool then drain_loop limit' (progressed + 1) else ret progressed
    end
  end.

Definition drain_requested_retirements (limit : Z) : M cp_state Z := drain_loop (Z.to_nat (Z.max 0 limit)) 0.

(** [__del__] of a ticket. *)
Definition abandon (tk : ticket) : M cp_state unit :=
  known ← reads (fun s => cap_at s (ticket_cap tk));
  owner ← reads pid;
  match known with
  | Some k =>
    whenM (negb (cap_released k) && (cap_pid k =? owner) && (0 <? cap_token k))
      (store (set_capability (ticket_cap tk) (with_retire true)))
  | None => ret tt
  end.

Definition configure (capacity_bytes : Z) : M cp_state unit :=
  if (capacity_bytes <=? 0) || (_MAX_CAPACITY_BYTES <? capacity_bytes) then raise ValueError
  else
    _reconcile_counters_locked;;
    bad ← reads corrupted;
    if bad : bool then raise RuntimeError
    else
      held ← reads reserved;
      if capacity_bytes <? held + static_baseline then raise RuntimeError
      else store (set_capacity capacity_bytes).

(** [ControlPlaneBudgetSnapshot] *)
Record cp_snapshot : Type := mk_snapshot {
  capacity_bytes : Z;
  reserved_bytes : Z;
  peak_reserved_bytes : Z;
  active_tickets : Z;
  rejected_tickets : Z;
  over_release_count : Z;
  static_baseline_bytes : Z;
  reconciliation_pending : bool;
}.

Definition governed_bytes (v : cp_snapshot) : Z := static_baseline_bytes v + reserved_bytes v.

Definition snapshot : M cp_state cp_snapshot :=
  _reconcile_counters_locked;;
  reads (fun s => mk_snapshot (capacity s) (reserved s) (peak s) (active s) (rejected s) (over_release s) static_baseline
                              (counters_dirty s || corrupted s)).

(** [snapshot_with_shadow]: the shadow is reported when it is known to be fresh. *)
Definition snapshot_with_shadow : M cp_state (cp_snapshot * bool * Z) :=
  snap ← snapshot;
  fresh ← reads (fun s => shadow_capsule s && negb (shadow_dirty s));
  bytes ← reads shadow_bytes;
  ret (snap, fresh, if fresh : bool then bytes else 0).

Definition ensure_native_shadow_under_admission_lock : M cp_state (bool * Z) :=
  _reconcile_counters_locked;;
  held ← reads reserved;
  fresh ← _sync_native_shadow_locked (static_baseline + held);
  bytes ← reads shadow_bytes;
  ret (fresh, if fresh : bool then bytes else 0).

Definition synchronize_control_plane_native_shadow : M cp_state (bool * Z) :=
  prewarm_native_shadow;;
  ensure_native_shadow_under_admission_lock.

(** [release_control_plane], [defer_control_plane_release] *)
Definition release_control_plane (tk : option ticket) : M cp_state bool :=
  released ← release tk;
  (if negb released then request_retirement tk else ret true);;
  ret released.

Definition defer_control_plane_release (tk : option ticket) : M cp_state bool :=
  match tk with
  | None => ret true
  | Some _ => released ← release_control_plane tk;
              if released : bool then ret true else request_retirement tk
  end.

(** ** Invariant *)

Hypothesis active_pos : (0 < _MAX_ACTIVE_TICKETS)%nat.
Hypothesis active_bound : Z.of_nat _MAX_ACTIVE_TICKETS < _MAX_TICKET_TOKEN.
Hypothesis baseline_nonneg : 0 <= static_baseline.

Definition total (l : list (Z * owner_entry)) : Z := foldr (fun o z => entry_amount (snd o) + z) 0 l.

Definition free_view (s : cp_state) : list Z := ring_view (free_tokens s) _MAX_ACTIVE_TICKETS (free_head s) (free_count s).

(** The owner's capability is live in this process and carries the owner's token. *)
Definition owner_ok (s : cp_state) (o : Z * owner_entry) : Prop :=
  exists k, cap_at s (entry_cap (snd o)) = Some k /\ cap_pid k = pid s /\ cap_token k = fst o /\ cap_released k = false
            /\ 0 <= entry_amount (snd o).

(** The free ring and the live tickets share the tokens handed out so far. *)
Record names_ok (s : cp_state) : Prop := {
  nm_ring : length (free_tokens s) = _MAX_ACTIVE_TICKETS;
  nm_head : (free_head s < _MAX_ACTIVE_TICKETS)%nat;
  nm_tail : free_tail s = ((free_head s + free_count s) mod _MAX_ACTIVE_TICKETS)%nat;
  nm_tokens : free_view s ++ (owners s).*1 ≡ₚ seqZ 1 (sequence s);
  nm_sequence : 0 <= sequence s <= Z.of_nat _MAX_ACTIVE_TICKETS;
}.

(** The shadow agrees with the native pool, or is known to be stale. *)
Definition shadow_ok (s : cp_state) : Prop :=
  if shadow_capsule s then shadow_dirty s = false -> shadow_bytes s = native_bytes s
  else native_bytes s = 0 /\ owners s = [].

Record cp_ok (s : cp_state) : Prop := {
  ck_corrupted : corrupted s = false;
  ck_dirty : counters_dirty s = false;
  ck_owners : Forall (owner_ok s) (owners s);
  ck_names : names_ok s;
  ck_reserved : reserved s = total (owners s);
  ck_active : active s = Z.of_nat (length (owners s));
  ck_peak : reserved s <= peak s;
  ck_capacity : owners s <> [] -> static_baseline + reserved s <= capacity s;
  ck_shadow : shadow_ok s;
  ck_charged : owners s <> [] -> static_baseline + reserved s <= native_bytes s;
}.

(** The counters rebuilt from the owners. *)
Definition settled (s : cp_state) : cp_state :=
  set_dirty false (set_active (Z.of_nat (length (owners s))) (set_reserved (total (owners s)) s)).

Lemma owner_ok_valid s o : names_ok s -> owner_ok s o -> o ∈ owners s -> valid_owner s (snd o) = true.
Proof.
  intros Hn (k & E & Hp & Ht & _ & Ha) Hin; unfold valid_owner; rewrite E.
  assert (0 < fst o).
  { assert (fst o ∈ seqZ 1 (sequence s)) as Hs%elem_of_seqZ; [|lia].
    rewrite <- (nm_tokens _ Hn); apply elem_of_app; right; by apply list_elem_of_fmap_2. }
  rewrite Hp, Ht, Z.eqb_refl; simpl; apply andb_true_iff; split; [by apply Z.ltb_lt|by apply Z.leb_le].
Qed.

Lemma count_owners_spec (Q : result (Z * Z) -> nat -> cp_state -> Prop) l r a s :
  (forall o, o ∈ l -> valid_owner s (snd o) = true) ->
  Q (Ok (r + total l, a + Z.of_nat (length l))) 0%nat s -> wp 0 (count_owners l (r, a)) Q s.
Proof.
  revert r a; induction l as [|[t e] l IH]; intros r a Hl HQ; cbn [count_owners].
  { wp_steps; cbn [total foldr length] in HQ; by rewrite !Z.add_0_r in HQ. }
  pose proof (Hl (t, e) ltac:(left)) as Hv; cbn [snd] in Hv; wp_steps; rewrite Hv; apply IH; [intros o Ho; apply Hl; by right|].
  cbn [fst snd]; cbn [total foldr length snd] in HQ; fold (total l) in HQ.
  by replace (r + entry_amount e + total l) with (r + (entry_amount e + total l)) by lia;
    replace (a + 1 + Z.of_nat (length l)) with (a + Z.of_nat (S (length l))) by lia.
Qed.

Lemma reconcile_spec (Q : result bool -> nat -> cp_state -> Prop) s :
  corrupted s = false -> (forall o, o ∈ owners s -> valid_owner s (snd o) = true) ->
  Q (Ok true) 0%nat (settled s) -> wp 0 _reconcile_counters_locked Q s.
Proof.
  intros Hc Hv HQ; unfold _reconcile_counters_locked; wp_steps; apply count_owners_spec; [done|]; wp_steps.
  all: replace (negb _) with true by (simpl; by rewrite Hc); exact HQ.
Qed.

Lemma settled_id s : cp_ok s -> settled s = s.
Proof.
  intros [? Hd ? ? Hr Ha ? ? ? ?]; unfold settled; rewrite <- Ha, <- Hr; destruct s; simpl in *; by rewrite Hd.
Qed.

Lemma reconcile_ok (Q : result bool -> nat -> cp_state -> Prop) s :
  cp_ok s -> Q (Ok true) 0%nat s -> wp 0 _reconcile_counters_locked Q s.
Proof.
  intros H HQ; apply reconcile_spec; [apply H| |by rewrite settled_id].
  intros o Ho; apply owner_ok_valid; [apply H| |done]; pose proof (ck_owners _ H) as Hf; rewrite Forall_forall in Hf; auto.
Qed.

(** ** The native shadow *)

(** Only the shadow and the native side differ. *)
Definition shadowed (c : bool) (b : Z) (d : bool) (n : Z) (k : nat) (s : cp_state) : cp_state :=
  set_calls k (set_native n (set_shadow_dirty d (set_shadow b (set_capsule c s)))).

Definition shadow_only (s s' : cp_state) : Prop := exists c b d n k, s' = shadowed c b d n k s.

#[local] Instance shadow_only_refl : Reflexive shadow_only.
Proof. intros []; by do 5 eexists. Qed.

#[local] Instance shadow_only_trans : Transitive shadow_only.
Proof. intros s1 s2 s3 (c & b & d & n & k & ->) (c' & b' & d' & n' & k' & ->); by exists c', b', d', n', k'. Qed.

(** An error that stems from a call the native side refused. *)
Definition native_fault (e : exn) : Prop := e = RuntimeError /\ exists n, native_raises n = true.

(** What a call into the native side can leave behind. *)
Definition native_step (s : cp_state) {A} (r : result A) (s' : cp_state) (done_ : Prop) : Prop :=
  shadow_only s s' /\ shadow_ok s' /\ match r with Ok _ => done_ | Err e => native_fault e /\ native_bytes s' = native_bytes s end.

Lemma native_call_spec s :
  wp 0 native_call (fun r _ s' => s' = set_calls (S (native_calls s)) s /\ (r = Ok tt \/ r = Err RuntimeError /\ native_fault RuntimeError)) s.
Proof. unfold native_call; wp_steps; destruct (native_raises _) eqn:E; wp_steps; split; [done|by right; split; [|split; [|eexists]]|done|by left]. Qed.

Lemma prewarm_spec s : shadow_ok s ->
  wp 0 prewarm_native_shadow (fun r _ s' => native_step s r s' (shadow_capsule s' = true /\ native_bytes s' = native_bytes s)) s.
Proof.
  intros H; unfold prewarm_native_shadow; wp_steps; destruct (shadow_capsule s) eqn:Hc; wp_steps.
  { split; [done|split; done]. }
  eapply wp0_mono; [apply native_call_spec|]; intros r s' [-> Hr].
  unfold shadow_ok in H; rewrite Hc in H; destruct H as [Hn Ho].
  destruct Hr as [->|[-> Hfault]]; wp_steps.
  - split; [by exists true, 0, false, (native_bytes s), (S (native_calls s)); destruct s|split; [by intros _; simpl|done]].
  - split; [by exists (shadow_capsule s), (shadow_bytes s), (shadow_dirty s), (native_bytes s), (S (native_calls s)); destruct s|].
    split; [|done]; unfold shadow_ok; simpl; by rewrite Hc.
Qed.

Lemma called_step s (k : nat) : shadow_ok s -> shadow_only s (set_calls k s) /\ shadow_ok (set_calls k s).
Proof. intros H; split; [by exists (shadow_capsule s), (shadow_bytes s), (shadow_dirty s), (native_bytes s), k; destruct s|done]. Qed.

(** The call that refreshes a stale shadow. *)
Lemma refresh_spec s : shadow_ok s -> shadow_capsule s = true ->
  wp 0 (whenM (shadow_dirty s) (native_call;; actual ← reads native_bytes; store (set_shadow actual);; store (set_shadow_dirty false)))
     (fun r _ s' => native_step s r s' (shadow_capsule s' = true /\ shadow_dirty s' = false /\ native_bytes s' = native_bytes s)) s.
Proof.
  intros H Hc; apply wp_whenM; intros Hd; wp_steps; [|by split].
  eapply wp0_mono; [apply native_call_spec|]; intros r s' [-> [->|[-> Hfault]]]; wp_steps.
  - split; [by exists true, (native_bytes s), false, (native_bytes s), (S (native_calls s)); destruct s; simpl in *; subst|].
    split; [unfold shadow_ok; simpl; by rewrite Hc|done].
  - destruct (called_step s (S (native_calls s)) H); by split.
Qed.

(** The call that moves the native bytes by [m]. *)
Lemma move_spec s (f : Z -> Z) target :
  shadow_ok s -> shadow_capsule s = true -> shadow_dirty s = false -> f (native_bytes s) = target ->
  wp 0 (native_call;; modify (fun s => set_native (f (native_bytes s)) s);; store (set_shadow target))
     (fun r _ s' => native_step s r s' (shadow_capsule s' = true /\ shadow_dirty s' = false /\ native_bytes s' = target)) s.
Proof.
  intros H Hc Hd Hf; wp_steps; eapply wp0_mono; [apply native_call_spec|]; intros r s' [-> [->|[-> Hfault]]]; wp_steps.
  - split; [by exists true, target, false, target, (S (native_calls s)); destruct s; simpl in *; subst|].
    split; [unfold shadow_ok; simpl; by rewrite Hc|done].
  - destruct (called_step s (S (native_calls s)) H); by split.
Qed.

(** The shadow moves to its target, or the native side raised and kept its bytes. *)
Lemma sync_spec target s : shadow_ok s ->
  wp 0 (_sync_native_shadow_locked target) (fun r _ s' =>
    native_step s r s' (shadow_capsule s' = true /\ (shadow_dirty s' = false /\ r = Ok true) /\ native_bytes s' = target)) s.
Proof.
  intros H; unfold _sync_native_shadow_locked; wp_step; eapply wp0_mono; [by apply prewarm_spec|].
  intros r s1 (Ho1 & Hs1 & H1); destruct r as [b|e]; [|done]; destruct H1 as [Hc1 Hn1]; wp_step; wp_step.
  wp_step; eapply wp0_mono; [by apply refresh_spec|]; intros r s2 (Ho2 & Hs2 & H2); destruct r as [[]|e].
  2: { destruct H2; split; [by etrans|split; [done|split; [done|congruence]]]. }
  destruct H2 as (Hc2 & Hd2 & Hn2); assert (Hsb : shadow_bytes s2 = native_bytes s2) by (unfold shadow_ok in Hs2; rewrite Hc2 in Hs2; auto).
  assert (Hend : forall (r : result unit) s', native_step s2 r s' (shadow_capsule s' = true /\ shadow_dirty s' = false /\ native_bytes s' = target) ->
    match r with
    | Ok _ => wp 0 (ret true) (fun r _ s' => native_step s r s' (shadow_capsule s' = true /\ (shadow_dirty s' = false /\ r = Ok true) /\ native_bytes s' = target)) s'
    | Err e => native_step s (Err e : result bool) s' (shadow_capsule s' = true /\ (shadow_dirty s' = false /\ (Err e : result bool) = Ok true) /\ native_bytes s' = target)
    end).
  { intros r s' (Ho & Hs & Hr); assert (shadow_only s s') by (etrans; [exact Ho1|by etrans]).
    destruct r as [[]|e]; [wp_steps; destruct Hr as (? & ? & ?); by split|]; destruct Hr; split; [done|split; [done|split; [done|congruence]]]. }
  wp_step; wp_step; wp_step; destruct (Z.ltb_spec (shadow_bytes s2) target); [|destruct (Z.ltb_spec target (shadow_bytes s2))].
  - eapply wp0_mono; [apply (move_spec s2 (fun z => z + (target - shadow_bytes s2)) target); [done..|lia]|exact Hend].
  - eapply wp0_mono; [apply (move_spec s2 (fun z => z - (shadow_bytes s2 - target)) target); [done..|lia]|exact Hend].
  - wp_steps; split; [by etrans|split; [done|split; [done|split; [done|lia]]]].
Qed.

(** Releasing a charge never raises; when the native side fails the bytes stay
    charged and the shadow is marked stale. *)
Lemma release_shadow_spec amount s : shadow_ok s -> 0 <= amount -> (shadow_capsule s = true -> amount <= native_bytes s) ->
  wp 0 (_release_native_shadow_locked amount) (fun r _ s' =>
    r = Ok tt /\ shadow_only s s' /\ (shadow_capsule s = true -> shadow_ok s')
    /\ (native_bytes s' = native_bytes s - amount \/ native_bytes s' = native_bytes s)) s.
Proof.
  intros H Ha Hle; unfold _release_native_shadow_locked; wp_steps.
  destruct (Z.leb_spec amount 0), (shadow_capsule s) eqn:Hc; simpl; wp_steps; try (split_and!; try done; by right).
  eapply wp0_mono; [apply native_call_spec|]; intros r s' [-> [->|[-> Hfault]]]; wp_steps.
  - split_and!; [done| |intros _; unfold shadow_ok in *; simpl; rewrite Hc in *; intros Hd; rewrite H by done; specialize (Hle eq_refl); lia|by left].
    exists true, (Z.max 0 (shadow_bytes s - amount)), (shadow_dirty s), (native_bytes s - amount), (S (native_calls s)); by destruct s; simpl in *; subst.
  - split_and!; [done| |intros _; unfold shadow_ok; simpl; by rewrite Hc|by right].
    exists true, (shadow_bytes s), true, (native_bytes s), (S (native_calls s)); by destruct s; simpl in *; subst.
Qed.

(** ** Owner maps and names *)

Lemma owner_get_None t l : owner_get t l = None <-> t ∉ l.*1.
Proof.
  induction l as [|[t' e] l IH]; simpl; [split; [intros _; apply not_elem_of_nil|done]|].
  rewrite not_elem_of_cons; destruct (Z.eqb_spec t' t); [split; [done|]; intros [? _]; congruence|rewrite IH; split; [|tauto]]; intros ?; split; [congruence|done].
Qed.

Lemma owner_get_Some t e l : owner_get t l = Some e -> (t, e) ∈ l.
Proof.
  induction l as [|[t' e'] l IH]; simpl; [done|]; destruct (Z.eqb_spec t' t); [intros [= ->]; subst; left|right; auto].
Qed.

Lemma owner_set_fresh t e l : t ∉ l.*1 -> owner_set t e l = l ++ [(t, e)].
Proof.
  induction l as [|[t' e'] l IH]; simpl; [done|]; rewrite not_elem_of_cons; intros [Hne Hl].
  destruct (Z.eqb_spec t' t); [congruence|]; by rewrite IH.
Qed.

Lemma owner_get_app_fresh t e l : t ∉ l.*1 -> owner_get t (l ++ [(t, e)]) = Some e.
Proof.
  induction l as [|[t' e'] l IH]; simpl; [by rewrite Z.eqb_refl|]; rewrite not_elem_of_cons; intros [Hne Hl].
  destruct (Z.eqb_spec t' t); [congruence|auto].
Qed.

Lemma total_app l k : total (l ++ k) = total l + total k.
Proof. induction l as [|o l IH]; simpl; [done|]; unfold total in *; simpl; lia. Qed.

(** Taking an owner out of the map. *)
Lemma owner_pop_perm t e l : owner_get t l = Some e -> l ≡ₚ (t, e) :: owner_pop t l.
Proof.
  induction l as [|[t' e'] l IH]; simpl; [done|]; destruct (Z.eqb_spec t' t); [by intros [= ->]; subst|].
  intros E; rewrite (IH E) at 1; apply perm_swap.
Qed.

Lemma total_perm l k : l ≡ₚ k -> total l = total k.
Proof. induction 1; unfold total in *; simpl; lia. Qed.

Lemma total_pop t e l : owner_get t l = Some e -> total l = entry_amount e + total (owner_pop t l).
Proof. intros E; by rewrite (total_perm _ _ (owner_pop_perm t e l E)). Qed.

Lemma length_pop t e l : owner_get t l = Some e -> length l = S (length (owner_pop t l)).
Proof. intros E; by rewrite (owner_pop_perm t e l E) at 1. Qed.

(** The state after the namespace commit of an admission. *)
Definition named (p : plan) (s : cp_state) : cp_state :=
  if reuse_token p then set_count (next_free_count p) (set_head (next_free_head p) s) else set_sequence (token p) s.

Lemma names_length s : names_ok s -> Z.of_nat (free_count s) + Z.of_nat (length (owners s)) = sequence s.
Proof.
  intros H; pose proof (Permutation_length (nm_tokens _ H)) as E.
  rewrite length_app, length_fmap, length_seqZ in E; unfold free_view in E; rewrite length_ring_view in E.
  pose proof (nm_sequence _ H); lia.
Qed.

Lemma names_NoDup s : names_ok s -> NoDup (free_view s ++ (owners s).*1).
Proof. intros H; rewrite (nm_tokens _ H); apply NoDup_seqZ. Qed.

Lemma token_fresh amount s : names_ok s -> token (plan_of amount s) ∉ (owners s).*1.
Proof.
  intros H Hin; pose proof (names_NoDup s H) as Hnd; unfold plan_of in Hin; simpl in Hin.
  destruct (Nat.ltb_spec 0 (free_count s)).
  - unfold free_view in Hnd; rewrite ring_view_pop in Hnd by (apply H || done); simpl in Hnd.
    apply NoDup_cons_1_1 in Hnd; apply Hnd, elem_of_app; by right.
  - assert (sequence s + 1 ∈ seqZ 1 (sequence s)) as Hs%elem_of_seqZ; [|lia].
    rewrite <- (nm_tokens _ H); apply elem_of_app; by right.
Qed.

Lemma names_admit amount e s : names_ok s -> Z.of_nat (length (owners s)) + 1 <= Z.of_nat _MAX_ACTIVE_TICKETS ->
  let p := plan_of amount s in
  names_ok (set_owners (owners s ++ [(token p, e)]) (named p s)).
Proof.
  intros H Hmax p; pose proof (names_length s H) as Hlen; pose proof H as [Hr Hh Ht Hp Hs].
  unfold p, named, plan_of; simpl; destruct (Nat.ltb_spec 0 (free_count s)) as [Hc|Hc]; simpl.
  - split; simpl; try done; [by apply ring_next_lt| |].
    + rewrite Ht; unfold ring_succ; rewrite ring_next_mod by done; rewrite Nat.Div0.add_mod_idemp_l; f_equal; lia.
    + unfold free_view in *; cbn [free_tokens free_head free_count set_owners set_count set_head]; rewrite fmap_app; simpl.
      rewrite ring_view_pop in Hp by done; rewrite <- Hp; replace (free_count s - 1)%nat with (Nat.pred (free_count s)) by lia.
      unfold ring_succ; rewrite (assoc_L app), <- Permutation_cons_append; done.
  - split; simpl; try done; [|lia]; unfold free_view in *; cbn [free_tokens free_head free_count set_owners set_sequence].
    rewrite fmap_app, (assoc_L app), Hp; simpl; rewrite (seqZ_app 1 (sequence s) 1) by lia; simpl.
    replace (1 + sequence s) with (sequence s + 1) by lia; done.
Qed.

(** ** Admission *)

Lemma cp_ok_shadow s s' : cp_ok s -> shadow_only s s' -> shadow_ok s' ->
  (owners s <> [] -> static_baseline + reserved s <= native_bytes s') -> cp_ok s'.
Proof. intros [] (c & b & d & n & k & ->) Hs Hn; split; try done. by destruct ck_names0; split. Qed.

Lemma names_ok_caps s l : names_ok s -> names_ok (set_caps l s).
Proof. intros []; by split. Qed.

(** Capabilities may change as long as the owners keep theirs. *)
Lemma cp_ok_caps s l : cp_ok s -> (forall o, o ∈ owners s -> l !! entry_cap (snd o) = cap_at s (entry_cap (snd o))) ->
  cp_ok (set_caps l s).
Proof.
  intros [] Hl; split; try done; [|by apply names_ok_caps].
  rewrite Forall_forall in ck_owners0 |- *; intros o Ho; destruct (ck_owners0 o Ho) as (k & E & Hk); exists k.
  split; [|done]; unfold cap_at in *; simpl; rewrite (Hl o Ho); exact E.
Qed.

Lemma owner_cap_lt s o : cp_ok s -> o ∈ owners s -> (entry_cap (snd o) < length (capabilities s))%nat.
Proof.
  intros H Ho; pose proof (ck_owners _ H) as Hf; rewrite Forall_forall in Hf; destruct (Hf o Ho) as (k & E & _).
  by eapply lookup_lt_Some.
Qed.

(** The state once an admission is complete, from the state [s] with a charged shadow. *)
Definition admitted (p : plan) (e : owner_entry) (s : cp_state) : cp_state :=
  set_active (next_active p) (set_peak (next_peak p) (set_reserved (next_reserved p)
    (set_owners (owner_set (token p) e (owners s)) (named p s)))).

Lemma admitted_owners s s' c amount t :
  cp_ok s -> (forall o, o ∈ owners s -> entry_cap (snd o) <> c) -> 0 <= amount ->
  cap_at s c = Some (mk_cap (pid s) 0 false false) ->
  pid s' = pid s -> capabilities s' = alter (with_token t) c (capabilities s) ->
  Forall (owner_ok s') (owners s ++ [(t, mk_entry c amount)]).
Proof.
  intros H Hc Ha Hcap Hp E; apply Forall_app; split; [|constructor; [|done]].
  - pose proof (ck_owners _ H) as Hf; rewrite Forall_forall in Hf |- *; intros o Ho; destruct (Hf o Ho) as (k & Ek & Hk).
    exists k; rewrite Hp; split; [|done]; unfold cap_at; rewrite E, list_lookup_alter_ne; [exact Ek|]; intros Hcc; by apply (Hc o Ho).
  - exists (mk_cap (pid s) t false false); rewrite Hp; split; [|done]; unfold cap_at in *; simpl.
    by rewrite E, list_lookup_alter_eq, Hcap.
Qed.

Lemma admitted_ok s s1 amount c :
  cp_ok s -> (forall o, o ∈ owners s -> entry_cap (snd o) <> c) -> 0 <= amount ->
  cap_at s c = Some (mk_cap (pid s) 0 false false) ->
  let p := plan_of amount s in
  static_baseline + next_reserved p <= capacity s -> next_active p <= Z.of_nat _MAX_ACTIVE_TICKETS ->
  shadow_only (set_capability c (with_token (token p)) s) s1 -> shadow_ok s1 -> shadow_capsule s1 = true ->
  native_bytes s1 = static_baseline + next_reserved p ->
  cp_ok (admitted p (mk_entry c amount) s1) /\ owners (admitted p (mk_entry c amount) s1) = owners s ++ [(token p, mk_entry c amount)].
Proof.
  intros H Hc Ha Hcap p Hroom Hact (cc & b & d & n & k & ->) Hs Hcc Hn.
  pose proof (token_fresh amount s (ck_names _ H)) as Hfresh; fold p in Hfresh.
  pose proof (names_admit amount (mk_entry c amount) s (ck_names _ H)) as Hnames; fold p in Hnames.
  set (s1 := shadowed _ _ _ _ _ _) in *; assert (Eo : owner_set (token p) (mk_entry c amount) (owners s1) = owners s ++ [(token p, mk_entry c amount)]).
  { by apply owner_set_fresh. }
  assert (Ep : next_active p = active s + 1 /\ next_reserved p = reserved s + amount) by done.
  split; [|unfold admitted, named; by destruct (reuse_token p)].
  pose proof H as [Hcr Hd Hf Hnm Hr Hac Hpk Hcp Hsh Hch].
  assert (Hnm' : names_ok (admitted p (mk_entry c amount) s1)).
  { unfold admitted, named in *; rewrite Eo; destruct Hnames as []; [lia|]; destruct (reuse_token p); by split. }
  assert (Eow : owners (admitted p (mk_entry c amount) s1) = owners s ++ [(token p, mk_entry c amount)]).
  { unfold admitted, named; by destruct (reuse_token p). }
  set (s1' := admitted p (mk_entry c amount) s1) in *; split; try done; rewrite ?Eow.
  - unfold s1', admitted, named; by destruct (reuse_token p).
  - unfold s1', admitted, named; by destruct (reuse_token p).
  - apply (admitted_owners s s1' c amount); try done; unfold s1', admitted, named; by destruct (reuse_token p).
  - unfold s1', admitted; cbn [reserved set_active set_peak set_reserved]; rewrite total_app; unfold total at 2; simpl; lia.
  - unfold s1', admitted; cbn [active set_active]; rewrite length_app; simpl; lia.
  - unfold s1', admitted; simpl; destruct (reuse_token p); simpl; lia.
  - intros _; unfold s1', admitted, named; destruct (reuse_token p); simpl; lia.
  - unfold shadow_ok in *; unfold s1', admitted, named; destruct (reuse_token p); simpl in *; by rewrite Hcc in *.
  - intros _; unfold s1', admitted, named; destruct (reuse_token p); simpl in *; lia.
Qed.

Lemma shadow_only_owners s s' : shadow_only s s' -> owners s' = owners s /\ pid s' = pid s /\ capabilities s' = capabilities s
  /\ capacity s' = capacity s /\ reserved s' = reserved s.
Proof. by intros (c & b & d & n & k & ->). Qed.

(** The [try] statement of an admission, run without interruption. *)
Lemma commit_spec s p e governed current :
  shadow_ok s -> token p ∉ (owners s).*1 ->
  wp 0 (with_local (mk_progress false false)
          (try_except (commit_owner p e governed) (fun x => abort_owner p e current;; raise x)))
    (fun r _ s' => exists s1, shadow_only s s1 /\ shadow_ok s1 /\
       match r with
       | Ok _ => shadow_capsule s1 = true /\ native_bytes s1 = governed
                 /\ s' = set_owners (owner_set (token p) e (owners s1)) (named p s1)
       | Err x => native_fault x /\ native_bytes s1 = native_bytes s /\ s' = set_capability (entry_cap e) (with_token 0) s1
       end) s.
Proof.
  intros Hs Hf; wp_step; wp_step; unfold commit_owner; wp_step; apply wp_onS.
  eapply wp0_mono; [by apply sync_spec|]; intros r s1 (Ho & Hs1 & Hr); pose proof (shadow_only_owners _ _ Ho) as (Eo & _).
  destruct r as [b|x].
  - destruct Hr as (Hc & _ & Hn); unfold set_local; wp_step; wp_step; cbn [fst snd]; wp_step; unfold named.
    destruct (reuse_token p); repeat (wp_step; cbn [fst snd]).
    all: assert (Hh : forall s', owners s' = owner_set (token p) e (owners s1) -> holds_entry (token p) e s' = true) by
      (intros s' E; unfold holds_entry; rewrite E, owner_set_fresh, owner_get_app_fresh, Nat.eqb_refl by (by rewrite Eo); done).
    all: rewrite Hh by done; wp_steps; exists s1; done.
  - destruct Hr as [Hx Hn]; unfold abort_owner; wp_step; wp_step; wp_step; cbn [fst snd].
    assert (holds_entry (token p) e s1 = false) as ->.
    { unfold holds_entry; by rewrite (proj2 (owner_get_None (token p) (owners s1))) by (by rewrite Eo). }
    wp_steps; try done; cbn [fst snd]; exists s1; done.
Qed.

Definition fresh_cap (s : cp_state) : capability := mk_cap (pid s) 0 false false.

(** The outcome of an admission: the owners grow by the ticket's entry, or not. *)
Definition reserved_as (kind : string) (amount : Z) (s : cp_state) (r : result ticket) (s' : cp_state) : Prop :=
  cp_ok s' /\ pid s' = pid s /\ capacity s' = capacity s /\
  (forall i, (i < length (capabilities s))%nat -> capabilities s' !! i = capabilities s !! i) /\
  match r with
  | Ok tk => exists t, tk = mk_ticket amount kind (pid s) t (length (capabilities s)) /\ (t ∉ (owners s).*1)
               /\ cap_at s' (length (capabilities s)) = Some (mk_cap (pid s) t false false)
               /\ owners s' = owners s ++ [(t, mk_entry (length (capabilities s)) amount)]
               /\ _MIN_TICKET_BYTES <= amount /\ static_baseline + total (owners s') <= capacity s
               /\ (length (owners s') <= _MAX_ACTIVE_TICKETS)%nat /\ fst resident + amount <= snd resident
  | Err e => owners s' = owners s /\
      (e = ValueError /\ amount < _MIN_TICKET_BYTES
       \/ native_fault e
       \/ (exists n, e = ResourceError "process_control_plane_bytes" (capacity s) n)
          /\ (capacity s < static_baseline + total (owners s) + amount \/ length (owners s) = _MAX_ACTIVE_TICKETS)
       \/ (exists n, e = ResourceError "process_governed_memory_bytes" (snd resident) n) /\ snd resident < fst resident + amount)
  end.

(** A charge above the governed bytes keeps the invariant. *)
Lemma native_step_ok s {A} (r : result A) s' D : cp_ok s -> native_step s r s' D ->
  (D -> owners s <> [] -> static_baseline + reserved s <= native_bytes s') -> cp_ok s'.
Proof.
  intros H (Ho & Hs & Hr) HD; apply (cp_ok_shadow s); try done; intros Hne; destruct r; [auto|].
  destruct Hr as [_ ->]; by apply H.
Qed.

Lemma cp_ok_new_cap s : cp_ok s -> cp_ok (set_caps (capabilities s ++ [fresh_cap s]) s).
Proof.
  intros H; apply cp_ok_caps; [done|]; intros o Ho; unfold cap_at; apply lookup_app_l; by apply owner_cap_lt.
Qed.

Lemma reject_spec s (Q : result unit -> nat -> cp_state -> Prop) :
  Q (Ok tt) 0%nat (set_rejected (rejected s + 1) s) -> wp 0 count_rejection Q s.
Proof. intros H; unfold count_rejection; by wp_steps. Qed.

Lemma cp_ok_rejected s n : cp_ok s -> cp_ok (set_rejected n s).
Proof. intros []; split; try done. by destruct ck_names0; split. Qed.

Lemma admit_spec kind amount c s current :
  cp_ok s -> (forall o, o ∈ owners s -> entry_cap (snd o) <> c) -> cap_at s c = Some (fresh_cap s) -> _MIN_TICKET_BYTES <= amount ->
  wp 0 (admit_ticket kind amount c (capacity s) current) (fun r _ s' =>
    cp_ok s' /\ pid s' = pid s /\ capacity s' = capacity s /\ (forall i, i <> c -> capabilities s' !! i = capabilities s !! i) /\
    match r with
    | Ok tk => exists t, tk = mk_ticket amount kind (pid s) t c /\ (t ∉ (owners s).*1)
                 /\ cap_at s' c = Some (mk_cap (pid s) t false false)
                 /\ owners s' = owners s ++ [(t, mk_entry c amount)]
                 /\ static_baseline + total (owners s') <= capacity s
                 /\ (length (owners s') <= _MAX_ACTIVE_TICKETS)%nat /\ fst resident + amount <= snd resident
    | Err e => owners s' = owners s /\
        (native_fault e
         \/ (exists n, e = ResourceError "process_control_plane_bytes" (capacity s) n)
            /\ (capacity s < static_baseline + total (owners s) + amount \/ length (owners s) = _MAX_ACTIVE_TICKETS)
         \/ (exists n, e = ResourceError "process_governed_memory_bytes" (snd resident) n) /\ snd resident < fst resident + amount)
    end) s.
Proof.
  intros H Hc Hcap Hmin; unfold admit_ticket; do 6 wp_step; pose proof (names_length s (ck_names _ H)) as Hlen.
  pose proof (nm_sequence _ (ck_names _ H)) as Hseq; pose proof (ck_reserved _ H) as Hr; pose proof (ck_active _ H) as Ha.
  destruct (_ || _) eqn:Hlim.
  { wp_step; apply reject_spec; wp_step; split; [by apply cp_ok_rejected|do 3 (split; [done|])]; split; [done|]; right; left.
    split; [by eexists|]; apply orb_true_iff in Hlim as [Hlim|[_ ?%Z.leb_le]%andb_true_iff]; [|lia].
    apply orb_true_iff in Hlim as [?%Z.ltb_lt|Hact%Z.ltb_lt]; simpl in *; [left; lia|right; lia]. }
  apply orb_false_iff in Hlim as [[Hroom%Z.ltb_ge Hact%Z.ltb_ge]%orb_false_iff _].
  destruct (Z.ltb_spec (snd resident) (fst resident + amount)).
  { wp_step; apply reject_spec; wp_step; split; [by apply cp_ok_rejected|do 3 (split; [done|])]; split; [done|]; right; right.
    split; [by eexists|done]. }
  set (p := plan_of amount s) in *; wp_step; wp_step; wp_step; set (s1 := set_capability c _ s); assert (Hok1 : cp_ok s1).
  { apply cp_ok_caps; [done|]; intros o Ho; unfold cap_at; apply list_lookup_alter_ne; intros Hcc; by apply (Hc o Ho). }
  eapply wp0_mono; [apply commit_spec; [apply Hok1|exact (token_fresh amount s (ck_names _ H))]|].
  intros r s' (s2 & Ho2 & Hs2 & Hr2); destruct r as [[]|e].
  - destruct Hr2 as (Hcc & Hn & ->); wp_steps; change (set_active _ _) with (admitted p (mk_entry c amount) s2).
    destruct (admitted_ok s s2 amount c H Hc) as [Hok Eo]; try done; [unfold _MIN_TICKET_BYTES in Hmin; lia|]; fold p in Hok, Eo.
    pose proof (shadow_only_owners _ _ Ho2) as (_ & Ep & Ec & Ecap & _).
    assert (F : pid (admitted p (mk_entry c amount) s2) = pid s2 /\ capacity (admitted p (mk_entry c amount) s2) = capacity s2
                /\ capabilities (admitted p (mk_entry c amount) s2) = capabilities s2).
    { unfold admitted, named; by destruct (reuse_token p). }
    destruct F as (Fp & Fc & Fk); rewrite Fp, Fc, Fk, Ec; split; [done|split; [done|split; [done|split]]].
    { intros i Hi; unfold s1, set_capability; simpl; by rewrite list_lookup_alter_ne. }
    exists (token p); split; [f_equal; exact Ep|]; unfold cap_at; rewrite Eo, Fk, Ec.
    split; [exact (token_fresh amount s (ck_names _ H))|split; [|split; [done|]]].
    { unfold s1, set_capability; simpl; rewrite list_lookup_alter_eq; unfold cap_at in Hcap; by rewrite Hcap. }
     rewrite total_app, length_app; unfold total at 2; simpl in *; split_and!; try done; lia.
  - destruct Hr2 as (Hx & Hn & ->); pose proof (shadow_only_owners _ _ Ho2) as (Eo & Ep & Ec & Ecap & _).
    assert (Hok2 : cp_ok s2) by (apply (cp_ok_shadow s1); try done; rewrite Hn; apply Hok1).
    split; [|split; [done|split; [done|split; [|split; [done|by left]]]]]; [apply cp_ok_caps; [done|]|].
    2: { intros i Hi; simpl; rewrite list_lookup_alter_ne, Ec by done; simpl; by rewrite list_lookup_alter_ne by done. }
    intros o Ho; unfold cap_at; apply list_lookup_alter_ne; intros Hcc; apply (Hc o); [by rewrite Eo in Ho|done].
Qed.

Lemma budget_reserve_spec kind amount s : cp_ok s -> wp 0 (reserve kind amount) (fun r _ s' => reserved_as kind amount s r s') s.
Proof.
  intros H; unfold reserve; destruct (Z.ltb_spec amount _MIN_TICKET_BYTES) as [Hmin|Hmin]; wp_step.
  { do 4 (split; [done|]); split; [done|by left]. }
  eapply wp0_mono; [apply prewarm_spec, H|]; intros r s1 H1.
  assert (Hok1 : cp_ok s1) by (eapply native_step_ok; [exact H|exact H1|]; intros [_ ->]; apply H).
  destruct H1 as (Ho1 & _ & Hr1); pose proof (shadow_only_owners _ _ Ho1) as (Eo & Ep & Ec & Ecap & Er).
  destruct r as [b|e]; [|destruct Hr1; do 3 (split; [done|]); split; [by intros i _; rewrite Ec|]; split; [done|by right; left]].
  wp_step; wp_step; wp_step; wp_step; set (s2 := set_caps _ _); assert (Hok2 : cp_ok s2) by (by apply cp_ok_new_cap).
  wp_step; apply reconcile_ok; [done|]; wp_step; wp_step; wp_step; wp_step; wp_step; wp_step; rewrite (ck_corrupted _ Hok2).
  wp_step; eapply wp0_mono; [apply sync_spec, Hok2|]; intros r s3 H3.
  assert (Hok3 : cp_ok s3) by (eapply native_step_ok; [exact Hok2|exact H3|]; intros (_ & _ & ->); done).
  destruct H3 as (Ho3 & _ & Hr3); pose proof (shadow_only_owners _ _ Ho3) as (Eo3 & Ep3 & Ec3 & Ecap3 & Er3).
  assert (E : owners s3 = owners s /\ pid s3 = pid s /\ capacity s3 = capacity s) by (simpl in *; split_and!; congruence).
  assert (EK : forall i, (i < length (capabilities s))%nat -> capabilities s3 !! i = capabilities s !! i).
  { intros i Hi; rewrite Ec3, <- Ec; simpl; apply lookup_app_l; by rewrite Ec. }
  destruct E as (EO & EP & EC); destruct r as [b'|e]; [|destruct Hr3; do 4 (split; [done|]); split; [done|by right; left]].
  rewrite <- Ecap3; eapply wp0_mono; [apply admit_spec; [done| | |done]|].
  - intros o Ho Hc; pose proof (owner_cap_lt s1 o Hok1) as Hlt; rewrite Eo3 in Ho; specialize (Hlt Ho); lia.
  - unfold cap_at; rewrite Ec3; unfold fresh_cap; rewrite Ep3; simpl; by rewrite lookup_app_r, Nat.sub_diag by lia.
  - intros r s' (Hok & Hp & Hcp & Hk & Hr); split; [done|split; [congruence|split; [congruence|split]]].
    { intros i Hi; rewrite Hk by (rewrite Ec; lia); auto. }
    rewrite EO, EP, EC, Ec in *; destruct r as [tk|e]; [|destruct Hr as [? Hr]; split; [done|by right]].
    destruct Hr as (t & Ht & Hrest); exists t; split; [done|]; tauto.
Qed.

(** ** Release *)

(** An owner leaves with its token, and the capability is spent. *)
Definition retired (c : nat) (t : Z) (s : cp_state) : cp_state :=
  set_capability c (with_retire false) (set_capability c (with_released true)
    (set_count (S (free_count s)) (set_tail (ring_succ (free_tail s))
      (set_tokens (<[free_tail s := t]> (free_tokens s)) (set_owners (owner_pop t (owners s)) s))))).

Lemma names_retire s c t e : names_ok s -> owner_get t (owners s) = Some e -> names_ok (retired c t s).
Proof.
  intros H E; pose proof (names_length s H) as Hlen; pose proof (length_pop _ _ _ E) as Hl; pose proof H as [Hr Hh Ht Hp Hs].
  assert (Hc : (free_count s < _MAX_ACTIVE_TICKETS)%nat) by lia.
  assert (Ev : free_view (retired c t s) = free_view s ++ [t]).
  { unfold free_view; rewrite <- (ring_view_push (free_tokens s)) by done; by rewrite <- Ht. }
  split; [simpl; by rewrite length_insert|done| |rewrite Ev|done].
  - simpl; unfold ring_succ; rewrite Ht, ring_next_mod by (apply Nat.mod_upper_bound; lia); rewrite Nat.Div0.add_mod_idemp_l; f_equal; lia.
  - rewrite <- (assoc_L app), <- Hp; apply Permutation_app_head; change ([t] ++ (owners (retired c t s)).*1) with (((t, e) :: owner_pop t (owners s)).*1).
    by rewrite <- (owner_pop_perm t e _ E).
Qed.

Lemma owner_pop_elem t l o : NoDup l.*1 -> o ∈ owner_pop t l -> o ∈ l /\ fst o <> t.
Proof.
  induction l as [|[t' e'] l IH]; simpl; [by intros _ ?%elem_of_nil|]; rewrite NoDup_cons; intros [Hn Hl].
  destruct (Z.eqb_spec t' t) as [->|Hne]; [intros Ho; split; [by right|]; intros <-; by apply Hn, list_elem_of_fmap_2|].
  intros [->|Ho]%elem_of_cons; [split; [left|done]|]; destruct (IH Hl Ho); split; [by right|done].
Qed.

Lemma tokens_NoDup s : names_ok s -> NoDup (owners s).*1.
Proof. intros H; pose proof (names_NoDup s H) as Hnd; by apply NoDup_app in Hnd as (_ & _ & ?). Qed.

(** The capability an owner carries, and the owner a capability names. *)
Lemma owner_cap s t e : cp_ok s -> owner_get t (owners s) = Some e ->
  exists k, cap_at s (entry_cap e) = Some k /\ cap_pid k = pid s /\ cap_token k = t /\ cap_released k = false /\ 0 <= entry_amount e.
Proof. intros H E; pose proof (ck_owners _ H) as Hf; rewrite Forall_forall in Hf; exact (Hf _ (owner_get_Some _ _ _ E)). Qed.

Lemma other_cap s t e o : cp_ok s -> owner_get t (owners s) = Some e -> o ∈ owner_pop t (owners s) -> entry_cap (snd o) <> entry_cap e.
Proof.
  intros H E Ho; apply owner_pop_elem in Ho as [Ho Hne]; [|apply tokens_NoDup, H].
  destruct (owner_cap s t e H E) as (k & Ek & _ & Hk & _); pose proof (ck_owners _ H) as Hf; rewrite Forall_forall in Hf.
  destruct (Hf o Ho) as (k' & Ek' & _ & Hk' & _); intros Ec; rewrite Ec in Ek'; congruence.
Qed.

Lemma retired_owners s t e : cp_ok s -> owner_get t (owners s) = Some e ->
  Forall (owner_ok (retired (entry_cap e) t s)) (owner_pop t (owners s)).
Proof.
  intros H E; pose proof (ck_owners _ H) as Hf; rewrite Forall_forall in Hf |- *; intros o Ho.
  pose proof (other_cap s t e o H E Ho) as Hne; apply owner_pop_elem in Ho as [Ho _]; [|apply tokens_NoDup, H].
  destruct (Hf o Ho) as (k & Ek & Hk); exists k; split; [|done].
  unfold cap_at, retired, set_capability in *; simpl; by rewrite !list_lookup_alter_ne.
Qed.

Lemma owner_ok_ext s s' o : pid s' = pid s -> capabilities s' = capabilities s -> owner_ok s o -> owner_ok s' o.
Proof. unfold owner_ok, cap_at; by intros -> ->. Qed.

Lemma names_ok_shadow s s' : names_ok s -> shadow_only s s' -> names_ok s'.
Proof. by intros [] (c & b & d & n & k & ->). Qed.

(** A retired owner leaves a state that reconciles to a well-formed one. *)
Lemma retired_ok s t e s1 : cp_ok s -> owner_get t (owners s) = Some e ->
  shadow_only (retired (entry_cap e) t s) s1 -> shadow_ok s1 -> native_bytes s - entry_amount e <= native_bytes s1 ->
  cp_ok (settled s1) /\ forall o, o ∈ owners s1 -> valid_owner s1 (snd o) = true.
Proof.
  intros H E Ho Hs Hn; pose proof (names_retire s (entry_cap e) t e (ck_names _ H) E) as Hnm.
  pose proof (retired_owners s t e H E) as Hf; assert (names_ok s1) as Hnm1 by (by eapply names_ok_shadow).
  pose proof (total_pop _ _ _ E) as Ht; pose proof (length_pop _ _ _ E) as Hl; pose proof (owner_cap s t e H E) as (_ & _ & _ & _ & _ & Ha).
  assert (Hne : owners s <> []) by (intros E0; by rewrite E0 in E).
  pose proof (shadow_only_owners _ _ Ho) as (Eo & Ep1 & Ec1 & Fcap & _); change (owners (retired _ _ _)) with (owner_pop t (owners s)) in Eo.
  change (capacity (retired _ _ _)) with (capacity s) in Fcap.
  assert (Hf1 : Forall (owner_ok s1) (owners s1)).
  { rewrite Eo; eapply Forall_impl; [exact Hf|]; intros o; by apply owner_ok_ext. }
  split.
  - destruct H as [Hc Hd _ _ Hr Hac Hpk Hcp _ Hch]; specialize (Hcp Hne); specialize (Hch Hne).
    assert (F : corrupted s1 = corrupted s /\ peak s1 = peak s) by (by destruct Ho as (c & b & d & n & k & ->)).
    destruct F as (Fc & Fp); split; cbn [corrupted counters_dirty owners reserved active peak capacity native_bytes settled set_dirty set_active set_reserved].
    + by rewrite Fc.
    + done.
    + eapply Forall_impl; [exact Hf1|]; intros o; by apply owner_ok_ext.
    + by destruct Hnm1; split.
    + done.
    + done.
    + rewrite Eo; lia.
    + rewrite Eo; lia.
    + exact Hs.
    + rewrite Eo; lia.
  - intros o Ho'; apply owner_ok_valid; [done| |done]; rewrite Forall_forall in Hf1; auto.
Qed.

(** The state after a release: the token's owner is gone, its capability spent. *)
Definition spent (c : nat) (l : list capability) : list capability := alter (with_retire false) c (alter (with_released true) c l).

Definition left_as (c : nat) (t : Z) (s s' : cp_state) : Prop :=
  cp_ok s' /\ pid s' = pid s /\ capacity s' = capacity s /\ owners s' = owner_pop t (owners s) /\ capabilities s' = spent c (capabilities s).

Lemma retire_owner_spec s t e : cp_ok s -> owner_get t (owners s) = Some e ->
  wp 0 (retire_owner (entry_cap e) t e) (fun r _ s' => r = Ok true /\ left_as (entry_cap e) t s s') s.
Proof.
  intros H E; assert (Hne : owners s <> []) by (intros E0; by rewrite E0 in E).
  pose proof (total_pop _ _ _ E) as Ht; pose proof (length_pop _ _ _ E) as Hl; pose proof (owner_cap s t e H E) as (_ & _ & _ & _ & _ & Ha).
  assert (Hpos : 0 <= total (owner_pop t (owners s))).
  { pose proof (retired_owners s t e H E) as Hf; clear -Hf; induction Hf as [|o l Ho _ IH]; [done|].
    destruct Ho as (_ & _ & _ & _ & _ & Ho); unfold total in *; simpl; lia. }
  assert (Hcap : shadow_capsule s = true).
  { pose proof (ck_shadow _ H) as Hs; unfold shadow_ok in Hs; destruct (shadow_capsule s); [done|by destruct Hs]. }
  pose proof (ck_reserved _ H) as Hr; pose proof (ck_active _ H) as Hac; pose proof (ck_charged _ H Hne) as Hch; pose proof (names_length s (ck_names _ H)) as Hlen.
  pose proof (nm_sequence _ (ck_names _ H)) as Hseq.
  assert (Hshort : (reserved s <? entry_amount e) || (active s <=? 0) = false) by (apply orb_false_iff; split; [apply Z.ltb_ge|apply Z.leb_gt]; lia).
  unfold retire_owner; wp_step; apply reconcile_ok; [done|]; wp_step; wp_step; wp_step; apply wp_whenM; intros Hb; [congruence|]; clear Hb.
  wp_step; wp_step; rewrite Hshort; do 7 wp_step. rewrite (proj2 (Nat.ltb_lt _ _)) by lia; do 6 wp_step; rewrite E; cbn [negb]; rewrite Nat.eqb_refl; cbn [negb].
  wp_step; eapply wp0_mono; [apply release_shadow_spec; [|done|]|].
  - pose proof (ck_shadow _ H) as Hs; unfold shadow_ok in *; by rewrite Hcap in Hs; simpl; rewrite Hcap.
  - intros _; simpl; lia.
  - intros r s2 (-> & Ho2 & Hs2 & Hn2); specialize (Hs2 Hcap); unfold mark_released; do 12 wp_step.
    set (s3 := set_capability _ _ _).
    assert (Ho3 : shadow_only (retired (entry_cap e) t s) s3) by (destruct Ho2 as (c & b & d & n & k & ->); by exists c, b, d, n, k).
    destruct (retired_ok s t e s3 H E Ho3) as [Hok Hv]; [exact Hs2|simpl in *; lia|].
    pose proof (shadow_only_owners _ _ Ho3) as (Eo & Ep & Ec & Ecap & _); wp_step; apply reconcile_spec; [|done|wp_step].
    + assert (corrupted s3 = corrupted s) as Ecr by (by destruct Ho2 as (c & b & d & n & k & ->)).
      exact (eq_trans Ecr (ck_corrupted _ H)).
    + split; [done|split; [exact Hok|split; [exact Ep|split; [exact Ecap|split; [exact Eo|exact Ec]]]]].
Qed.

Lemma owner_pop_absent t l : owner_get t l = None -> owner_pop t l = l.
Proof. induction l as [|[t' e] l IH]; simpl; [done|]; destruct (t' =? t); [done|]; by intros ->%IH. Qed.

Lemma cp_ok_over s n : cp_ok s -> cp_ok (set_over n s).
Proof. intros []; split; try done. by destruct ck_names0; split. Qed.

Lemma cap_owner s c k o : cp_ok s -> cap_at s c = Some k -> o ∈ owners s -> entry_cap (snd o) = c -> fst o = cap_token k.
Proof.
  intros H Ek Ho Hc; pose proof (ck_owners _ H) as Hf; rewrite Forall_forall in Hf; destruct (Hf o Ho) as (k' & Ek' & _ & Hk' & _).
  rewrite Hc in Ek'; congruence.
Qed.

(** What [_release_capability] answers and leaves. *)
Definition released_as (c : nat) (k : capability) (t : Z) (s : cp_state) (r : result bool) (s' : cp_state) : Prop :=
  if cap_released k || negb (cap_pid k =? pid s) then r = Ok true /\ s' = s
  else if match owner_get t (owners s) with Some e => (entry_cap e =? c)%nat | None => cap_token k =? t end
  then r = Ok true /\ left_as c t s s'
  else r = Ok false /\ s' = set_over (over_release s + 1) s.

Lemma release_capability_spec c k t s : cp_ok s -> cap_at s c = Some k ->
  wp 0 (_release_capability c t) (fun r _ s' => released_as c k t s r s') s.
Proof.
  intros H Ek; unfold _release_capability, released_as; wp_step; wp_step; wp_step; wp_step; rewrite Ek.
  destruct (cap_released k) eqn:Hrel; [by wp_step|]; destruct (Z.eqb_spec (cap_pid k) (pid s)) as [Hpid|]; [|by cbn [negb]; wp_step].
  cbn [negb orb]; wp_step; wp_step; destruct (owner_get t (owners s)) as [e|] eqn:E.
  - destruct (owner_cap s t e H E) as (k' & Ek' & _ & Hk' & _); destruct (Nat.eqb_spec (entry_cap e) c) as [<-|Hne].
    + assert (k' = k) as -> by congruence; rewrite Hk', Z.eqb_refl; cbn [negb orb]; by apply retire_owner_spec.
    + cbn [negb orb]; unfold count_over_release; by wp_steps.
  - destruct (Z.eqb_spec (cap_token k) t) as [Ht|]; [|unfold count_over_release; by wp_steps].
    unfold mark_released; do 4 wp_step; set (s1 := set_capability _ _ _).
    assert (Hok : cp_ok s1).
    { apply (cp_ok_caps s); [done|]; intros o Ho.
      assert (Hne : entry_cap (snd o) <> c).
      { intros Hc; pose proof (cap_owner s c k o H Ek Ho Hc) as Hto; apply (proj1 (owner_get_None t (owners s)) E).
        rewrite <- Ht, <- Hto; by apply list_elem_of_fmap_2. }
      unfold cap_at; simpl; by rewrite !list_lookup_alter_ne. }
    wp_step; apply reconcile_ok; [done|]; wp_step; split; [done|]; split; [done|split; [done|split; [done|split; [by rewrite owner_pop_absent|done]]]].
Qed.

(** ** The ledger as a book of tickets *)

(** What became of an issued ticket. *)
Inductive status : Type := Live | Requested | Spent.

Definition book : Type := list (ticket * status).

Definition open_entry (x : ticket * status) : bool := match snd x with Spent => false | _ => true end.
Definition asked (x : ticket * status) : bool := match snd x with Requested => true | _ => false end.

Definition entry_of (x : ticket * status) : Z * owner_entry := (ticket_token (fst x), mk_entry (ticket_cap (fst x)) (ticket_amount (fst x))).

Definition cap_of (p : Z) (x : ticket * status) : capability := mk_cap p (ticket_token (fst x)) (negb (open_entry x)) (asked x).

Definition open_owners (b : book) : list (Z * owner_entry) := entry_of <$> List.filter open_entry b.

(** The bytes and the number of the open tickets. *)
Definition held (b : book) : Z := foldr (fun x z => (if open_entry x then ticket_amount (fst x) else 0) + z) 0 b.
Definition open_count (b : book) : nat := length (List.filter open_entry b).

Record book_ok (b : book) (s : cp_state) : Prop := {
  bk_ok : cp_ok s;
  bk_owners : owners s = open_owners b;
  bk_caps : Forall (fun x => cap_at s (ticket_cap (fst x)) = Some (cap_of (pid s) x)) b;
  bk_pid : Forall (fun x => ticket_pid (fst x) = pid s) b;
  bk_NoDup : NoDup ((fun x => ticket_cap (fst x)) <$> b);
}.

Lemma open_owners_app b b' : open_owners (b ++ b') = open_owners b ++ open_owners b'.
Proof. unfold open_owners; by rewrite List.filter_app, fmap_app. Qed.

Lemma open_owners_cons x b : open_owners (x :: b) = (if open_entry x then [entry_of x] else []) ++ open_owners b.
Proof. unfold open_owners; simpl; by destruct (open_entry x). Qed.

Lemma total_open b : total (open_owners b) = held b.
Proof.
  induction b as [|x b IH]; [done|]; rewrite open_owners_cons, total_app, IH; simpl.
  by destruct (open_entry x); unfold total; simpl; lia.
Qed.

Lemma length_open b : length (open_owners b) = open_count b.
Proof. unfold open_owners, open_count; by rewrite length_fmap. Qed.

Lemma owner_pop_mid t e l l' : t ∉ l.*1 -> owner_pop t (l ++ (t, e) :: l') = l ++ l'.
Proof.
  induction l as [|[t' e'] l IH]; simpl; [by rewrite Z.eqb_refl|]; rewrite not_elem_of_cons; intros [Hne Hl].
  destruct (Z.eqb_spec t' t); [congruence|]; by rewrite IH.
Qed.

Lemma owner_get_mid t e l l' : t ∉ l.*1 -> owner_get t (l ++ (t, e) :: l') = Some e.
Proof.
  induction l as [|[t' e'] l IH]; simpl; [by rewrite Z.eqb_refl|]; rewrite not_elem_of_cons; intros [Hne Hl].
  destruct (Z.eqb_spec t' t); [congruence|auto].
Qed.

(** An open ticket in the middle of the book is found, and removed, under its token. *)
Lemma open_mid b1 x b2 s : book_ok (b1 ++ x :: b2) s -> open_entry x = true ->
  owner_get (ticket_token (fst x)) (owners s) = Some (mk_entry (ticket_cap (fst x)) (ticket_amount (fst x)))
  /\ owner_pop (ticket_token (fst x)) (owners s) = open_owners b1 ++ open_owners b2.
Proof.
  intros [Hok Ho _ _ _] Hx; pose proof (tokens_NoDup s (ck_names _ Hok)) as Hnd; rewrite Ho, open_owners_app, open_owners_cons, Hx in *.
  assert (Hf : ticket_token (fst x) ∉ (open_owners b1).*1).
  { rewrite fmap_app in Hnd; apply NoDup_app in Hnd as (_ & Hd & _); intros Hin; apply (Hd _ Hin); simpl; left. }
  simpl; unfold entry_of at 1; by split; [apply owner_get_mid|unfold entry_of; apply owner_pop_mid].
Qed.

(** One ticket changes its status. *)
Lemma book_update b1 x b2 st s s' (g : capability -> capability) :
  book_ok (b1 ++ x :: b2) s -> cp_ok s' -> pid s' = pid s ->
  capabilities s' = alter g (ticket_cap (fst x)) (capabilities s) -> g (cap_of (pid s) x) = cap_of (pid s) (fst x, st) ->
  owners s' = open_owners (b1 ++ (fst x, st) :: b2) -> book_ok (b1 ++ (fst x, st) :: b2) s'.
Proof.
  intros [_ _ Hc Hp Hn] Hok Ep Ec Hg Eo; split; [done|done| | |by rewrite fmap_app in *].
  - apply Forall_app in Hc as [H1 [Hx H2]%Forall_cons]; rewrite fmap_app in Hn; apply NoDup_app in Hn as (_ & Hd & [Hn _]%NoDup_cons).
    assert (Hk : forall y, cap_at s (ticket_cap (fst y)) = Some (cap_of (pid s) y) -> ticket_cap (fst y) <> ticket_cap (fst x) ->
                 cap_at s' (ticket_cap (fst y)) = Some (cap_of (pid s') y)).
    { intros y Hy Hne; unfold cap_at in *; rewrite Ec, Ep, list_lookup_alter_ne; [done|congruence]. }
    apply Forall_app; split; [|constructor].
    + rewrite Forall_forall in H1 |- *; intros y Hy; apply Hk; [auto|]; intros E; apply (Hd (ticket_cap (fst y))); [apply list_elem_of_fmap; by exists y|rewrite E; left].
    + unfold cap_at in *; simpl; rewrite Ec, Ep, list_lookup_alter_eq, Hx; simpl; by rewrite Hg.
    + rewrite Forall_forall in H2 |- *; intros y Hy; apply Hk; [auto|]; intros E; apply Hn; rewrite <- E; apply list_elem_of_fmap; by exists y.
  - rewrite Ep; apply Forall_app in Hp as [H1 [Hx H2]%Forall_cons]; apply Forall_app; split; [done|by constructor].
Qed.

Lemma book_cap b1 x b2 s : book_ok (b1 ++ x :: b2) s ->
  cap_at s (ticket_cap (fst x)) = Some (cap_of (pid s) x) /\ ticket_pid (fst x) = pid s.
Proof. intros [_ _ Hc Hp _]; apply Forall_app in Hc as [_ [? _]%Forall_cons]; by apply Forall_app in Hp as [_ [? _]%Forall_cons]. Qed.

Lemma alter_fixed {A} (f : A -> A) i (l : list A) x : l !! i = Some x -> f x = x -> alter f i l = l.
Proof. revert i; induction l as [|y l IH]; intros [|i] Hl Hf; simpl in *; [done|done|by injection Hl as ->; rewrite Hf|].
  f_equal; by apply IH.
Qed.

Lemma set_caps_id s l : l = capabilities s -> set_caps l s = s.
Proof. intros ->; by destruct s. Qed.

(** Marking a spent capability again changes nothing. *)
Lemma mark_spent b1 tk b2 s (Q : result unit -> nat -> cp_state -> Prop) : book_ok (b1 ++ (tk, Spent) :: b2) s ->
  Q (Ok tt) 0%nat s -> wp 0 (mark_released (ticket_cap tk)) Q s.
Proof.
  intros Hb HQ; destruct (book_cap _ _ _ _ Hb) as [Hc _]; unfold mark_released, set_capability; wp_step; wp_step; wp_step.
  by rewrite (set_caps_id s) by (by eapply alter_fixed); rewrite (set_caps_id s) by (by eapply alter_fixed).
Qed.

Lemma open_owners_spent b1 tk b2 : open_owners (b1 ++ (tk, Spent) :: b2) = open_owners b1 ++ open_owners b2.
Proof. by rewrite open_owners_app, open_owners_cons. Qed.

Lemma left_book b1 x b2 s s' : book_ok (b1 ++ x :: b2) s -> open_entry x = true ->
  left_as (ticket_cap (fst x)) (ticket_token (fst x)) s s' -> book_ok (b1 ++ (fst x, Spent) :: b2) s'.
Proof.
  intros Hb Hx (Hok & Ep & _ & Eo & Ec); destruct (open_mid _ _ _ _ Hb Hx) as [_ Epop].
  apply (book_update b1 x b2 Spent s s' (with_retire false ∘ with_released true)); try done.
  - rewrite Ec; unfold spent; by rewrite list_alter_alter_eq.
  - by rewrite Eo, Epop, open_owners_spent.
Qed.

Lemma release_capability_book b1 x b2 s : book_ok (b1 ++ x :: b2) s ->
  wp 0 (_release_capability (ticket_cap (fst x)) (ticket_token (fst x)))
    (fun r _ s' => r = Ok true /\ capacity s' = capacity s /\ book_ok (b1 ++ (fst x, Spent) :: b2) s') s.
Proof.
  intros Hb; destruct (book_cap _ _ _ _ Hb) as [Hc Hp]; eapply wp0_mono; [by apply release_capability_spec, Hc; apply Hb|].
  intros r s' Hr; unfold released_as in Hr; cbn [cap_released cap_pid cap_of] in Hr; rewrite Z.eqb_refl in Hr; cbn [negb] in Hr.
  destruct (open_entry x) eqn:Hx; cbn [negb orb] in Hr.
  - destruct (open_mid _ _ _ _ Hb Hx) as [Eg _]; rewrite Eg in Hr; cbn [entry_cap] in Hr; rewrite Nat.eqb_refl in Hr; destruct Hr as [-> Hl].
    split; [done|split; [apply Hl|by eapply left_book]].
  - destruct Hr as [-> ->]; split; [done|split; [done|]]; by destruct x as [tk []].
Qed.

Lemma release_book b1 x b2 s : book_ok (b1 ++ x :: b2) s ->
  wp 0 (release (Some (fst x))) (fun r _ s' => r = Ok true /\ capacity s' = capacity s /\ book_ok (b1 ++ (fst x, Spent) :: b2) s') s.
Proof.
  intros Hb; destruct (book_cap _ _ _ _ Hb) as [_ Hp]; unfold release; wp_step; wp_step; rewrite Hp, Z.eqb_refl; cbn [negb].
  wp_step; eapply wp0_mono; [by apply release_capability_book|]; intros r s' (-> & Hcap & Hb'); wp_step; cbn [whenM].
  eapply mark_spent; [exact Hb'|]; by wp_step.
Qed.

Definition ask (st : status) : status := match st with Spent => Spent | _ => Requested end.

Lemma ask_book b1 x b2 s : book_ok (b1 ++ x :: b2) s -> open_entry x = true ->
  book_ok (b1 ++ (fst x, ask (snd x)) :: b2) (set_capability (ticket_cap (fst x)) (with_retire true) s).
Proof.
  intros Hb Hx; pose proof Hb as [Hok Ho _ _ _]; destruct (book_cap _ _ _ _ Hb) as [Hc _].
  apply (book_update b1 x b2 (ask (snd x)) s _ (with_retire true)); try done.
  - destruct Hok as [? ? Hf ? ? ? ? ? ? ?]; split; try done; [|by apply names_ok_caps].
    rewrite Forall_forall in Hf |- *; intros o Hin; destruct (Hf o Hin) as (k & Ek & Hk); unfold owner_ok, cap_at, set_capability in *; simpl.
    destruct (decide (entry_cap (snd o) = ticket_cap (fst x))) as [E|]; [|by exists k; rewrite list_lookup_alter_ne].
    rewrite E in *; rewrite list_lookup_alter_eq, Ek; by exists (with_retire true k).
  - by destruct x as [tk []].
  - simpl; rewrite Ho, !open_owners_app, !open_owners_cons; by destruct x as [tk []].
Qed.

Lemma request_book b1 x b2 s : book_ok (b1 ++ x :: b2) s ->
  wp 0 (request_retirement (Some (fst x)))
    (fun r _ s' => r = Ok true /\ capacity s' = capacity s /\ book_ok (b1 ++ (fst x, ask (snd x)) :: b2) s') s.
Proof.
  intros Hb; destruct (book_cap _ _ _ _ Hb) as [Hc Hp]; unfold request_retirement; do 4 wp_step; rewrite Hc; cbn [cap_released cap_of].
  destruct (open_entry x) eqn:Hx; cbn [negb].
  - rewrite Hp, Z.eqb_refl; cbn [negb]; wp_step; wp_step; destruct (open_mid _ _ _ _ Hb Hx) as [-> _]; cbn [entry_cap]; rewrite Nat.eqb_refl; cbn [negb].
    do 3 wp_step; split; [done|split; [done|by apply ask_book]].
  - wp_step; by destruct x as [tk []].
Qed.

Lemma abandon_book b1 x b2 s : book_ok (b1 ++ x :: b2) s ->
  wp 0 (abandon (fst x)) (fun r _ s' => r = Ok tt /\ capacity s' = capacity s /\ book_ok (b1 ++ (fst x, ask (snd x)) :: b2) s') s.
Proof.
  intros Hb; destruct (book_cap _ _ _ _ Hb) as [Hc Hp]; unfold abandon; do 4 wp_step; rewrite Hc; cbn [cap_released cap_of cap_pid cap_token].
  rewrite Z.eqb_refl; destruct (open_entry x) eqn:Hx; cbn [negb andb]; [|by destruct x as [tk []]; wp_steps].
  destruct (open_mid _ _ _ _ Hb Hx) as [Eg _]; assert (Hpos : 0 < ticket_token (fst x)).
  { assert (ticket_token (fst x) ∈ seqZ 1 (sequence s)) as Hs%elem_of_seqZ; [|lia].
    rewrite <- (nm_tokens _ (ck_names _ (bk_ok _ _ Hb))); apply elem_of_app; right; apply list_elem_of_fmap; eexists; split; [|exact (owner_get_Some _ _ _ Eg)]; done. }
  rewrite (proj2 (Z.ltb_lt _ _) Hpos); cbn [whenM]; wp_step; split; [done|split; [done|by apply ask_book]].
Qed.

(** A drain spends the first [n] tickets whose retirement was requested. *)
Fixpoint drain_book (n : nat) (b : book) : book :=
  match b with
  | [] => []
  | x :: b' =>
    if asked x then match n with O => b | S n' => (fst x, Spent) :: drain_book n' b' end
    else x :: drain_book n b'
  end.

Definition asked_count (b : book) : nat := length (List.filter asked b).

(** The first request in the book, if there is one. *)
Lemma book_split b : List.filter asked b = [] \/ exists b1 x b2, b = b1 ++ x :: b2 /\ List.filter asked b1 = [] /\ asked x = true.
Proof.
  induction b as [|x b IH]; [by left|]; simpl; destruct (asked x) eqn:Hx; [right; by exists [], x, b|].
  destruct IH as [?|(b1 & y & b2 & -> & H1 & Hy)]; [by left|right]; exists (x :: b1), y, b2; simpl; by rewrite Hx.
Qed.

Lemma drain_book_app n b b' : List.filter asked b = [] -> drain_book n (b ++ b') = b ++ drain_book n b'.
Proof. induction b as [|x b IH]; simpl; [done|]; destruct (asked x); [done|]; intros ?; f_equal; auto. Qed.

Lemma drain_book_none n b : List.filter asked b = [] -> drain_book n b = b.
Proof. intros H; pose proof (drain_book_app n b [] H) as E; by rewrite !app_nil_r in E. Qed.

(** The owners the drain looks at are the open tickets in issue order. *)
Lemma first_requested b s : Forall (fun x => cap_at s (ticket_cap (fst x)) = Some (cap_of (pid s) x)) b ->
  first_owner (requested s) (open_owners b) = match List.filter asked b with [] => None | x :: _ => Some (entry_of x) end.
Proof.
  induction 1 as [|x b Hx _ IH]; [done|]; rewrite open_owners_cons; simpl; destruct x as [tk st]; simpl in Hx.
  destruct st; simpl; [|unfold requested at 1; simpl; by rewrite Hx|done]; unfold requested at 1; simpl; by rewrite Hx.
Qed.

Lemma drain_spec n acc b s : book_ok b s ->
  wp 0 (drain_loop n acc) (fun r _ s' => r = Ok (acc + Z.of_nat (Nat.min n (asked_count b))) /\ capacity s' = capacity s /\ book_ok (drain_book n b) s') s.
Proof.
  revert acc b s; induction n as [|n IH]; intros acc b s Hb; cbn [drain_loop].
  { wp_step; split; [f_equal; simpl; lia|split; [done|]]; destruct (book_split b) as [E|(b1 & x & b2 & -> & H1 & Hx)]; [by rewrite drain_book_none|].
    rewrite drain_book_app by done; simpl; by rewrite Hx. }
  wp_step; apply reconcile_ok; [apply Hb|]; wp_step; wp_step; rewrite (bk_owners _ _ Hb), (first_requested b s) by apply Hb.
  unfold asked_count; destruct (book_split b) as [E|(b1 & x & b2 & -> & H1 & Hx)].
  { rewrite E; wp_step; rewrite drain_book_none by done; split; [f_equal; simpl; lia|done]. }
  rewrite List.filter_app, H1; simpl; rewrite Hx; cbn [entry_of]; wp_step.
  eapply wp0_mono; [by apply release_capability_book|]; intros r s' (-> & Ecap & Hb').
  eapply wp0_mono; [by apply IH|]; intros r s'' (-> & Ecap' & Hb''); split; [|split; [congruence|]].
  - f_equal; unfold asked_count; rewrite List.filter_app, H1; simpl; lia.
  - rewrite drain_book_app in Hb'' |- * by done; simpl in *; by rewrite Hx.
Qed.

(** ** Requests *)

(** A caller holds the tickets it was given, in issue order; a ticket it never
    got is [None]. *)
Inductive cp_request : Type :=
  | Reserve (kind : string) (amount : Z)
  | Release (i : nat)
  | Defer (i : nat)
  | Retire (i : nat)
  | Abandon (i : nat)
  | Drain (limit : Z)
  | Configure (capacity_bytes : Z)
  | Observe
  | Synchronize.

Inductive answer : Type :=
  | Issued (tk : ticket)
  | Answered (b : bool)
  | Drained (n : Z)
  | Done
  | Observed (v : cp_snapshot) (fresh : bool) (bytes : Z)
  | Synchronized (fresh : bool) (bytes : Z).

Definition perform (q : cp_request) : M (cp_state * list ticket) answer :=
  match q with
  | Reserve kind amount => tk ← onS (reserve kind amount); modify (fun p => (fst p, snd p ++ [tk]));; ret (Issued tk)
  | Release i => tk ← reads (fun p => snd p !! i); b ← onS (release_control_plane tk); ret (Answered b)
  | Defer i => tk ← reads (fun p => snd p !! i); b ← onS (defer_control_plane_release tk); ret (Answered b)
  | Retire i => tk ← reads (fun p => snd p !! i); b ← onS (request_retirement tk); ret (Answered b)
  | Abandon i => tk ← reads (fun p => snd p !! i); onS (match tk with Some tk => abandon tk | None => ret tt end);; ret Done
  | Drain limit => n ← onS (drain_requested_retirements limit); ret (Drained n)
  | Configure v => onS (configure v);; ret Done
  | Observe => v ← onS snapshot_with_shadow; ret (Observed (fst (fst v)) (snd (fst v)) (snd v))
  | Synchronize => v ← onS synchronize_control_plane_native_shadow; ret (Synchronized (fst v) (snd v))
  end.

(** Requests one after the other, each in a [try] of its own. *)
Fixpoint serve (qs : list cp_request) (p : cp_state * list ticket) : list (result answer) * (cp_state * list ticket) :=
  match qs with
  | [] => ([], p)
  | q :: qs' => let (r, p1) := run (perform q) p in let (rs, p2) := serve qs' p1 in (r :: rs, p2)
  end.

(** The status of the [i]-th ticket changes, when there is one. *)
Definition restate (f : status -> status) (i : nat) (b : book) : book := alter (fun x => (fst x, f (snd x))) i b.

(** What a request may answer, and what it does to the book and the capacity. *)
Definition book_step (q : cp_request) (b : book) (cap : Z) (r : result answer) (b' : book) (cap' : Z) : Prop :=
  match q with
  | Reserve kind amount => cap' = cap /\
    match r with
    | Ok (Issued tk) => b' = b ++ [(tk, Live)] /\ ticket_amount tk = amount /\ ticket_kind tk = kind
        /\ (forall x, x ∈ b -> open_entry x = true -> ticket_token (fst x) <> ticket_token tk)
        /\ _MIN_TICKET_BYTES <= amount /\ static_baseline + held b' <= cap /\ (open_count b' <= _MAX_ACTIVE_TICKETS)%nat
        /\ fst resident + amount <= snd resident
    | Ok _ => False
    | Err e => b' = b /\
        (e = ValueError /\ amount < _MIN_TICKET_BYTES
         \/ native_fault e
         \/ (exists n, e = ResourceError "process_control_plane_bytes" cap n)
            /\ (cap < static_baseline + held b + amount \/ open_count b = _MAX_ACTIVE_TICKETS)
         \/ (exists n, e = ResourceError "process_governed_memory_bytes" (snd resident) n) /\ snd resident < fst resident + amount)
    end
  | Release i | Defer i => cap' = cap /\ r = Ok (Answered true) /\ b' = restate (fun _ => Spent) i b
  | Retire i => cap' = cap /\ r = Ok (Answered (bool_decide (i < length b)%nat)) /\ b' = restate ask i b
  | Abandon i => cap' = cap /\ r = Ok Done /\ b' = restate ask i b
  | Drain limit => cap' = cap /\ r = Ok (Drained (Z.of_nat (Nat.min (Z.to_nat limit) (asked_count b)))) /\ b' = drain_book (Z.to_nat limit) b
  | Configure v => b' = b /\
      (if (0 <? v) && (v <=? _MAX_CAPACITY_BYTES)
       then if held b + static_baseline <=? v then r = Ok Done /\ cap' = v else r = Err RuntimeError /\ cap' = cap
       else r = Err ValueError /\ cap' = cap)
  | Observe => b' = b /\ cap' = cap /\ exists v fresh bytes, r = Ok (Observed v fresh bytes)
      /\ capacity_bytes v = cap /\ reserved_bytes v = held b /\ active_tickets v = Z.of_nat (open_count b)
      /\ reserved_bytes v <= peak_reserved_bytes v /\ static_baseline_bytes v = static_baseline /\ reconciliation_pending v = false
      /\ (fresh = true -> (0 < open_count b)%nat -> governed_bytes v <= bytes)
  | Synchronize => b' = b /\ cap' = cap /\ (r = Ok (Synchronized true (static_baseline + held b)) \/ exists e, r = Err e /\ native_fault e)
  end.

Inductive book_trace : book -> Z -> list cp_request -> list (result answer) -> book -> Z -> Prop :=
  | trace_nil b cap : book_trace b cap [] [] b cap
  | trace_cons b cap q r b1 cap1 qs rs b2 cap2 :
      book_step q b cap r b1 cap1 -> book_trace b1 cap1 qs rs b2 cap2 -> book_trace b cap (q :: qs) (r :: rs) b2 cap2.

(** The budget and the tickets a caller holds, seen as a book. *)
Definition keeps (b : book) (cap : Z) (p : cp_state * list ticket) : Prop :=
  book_ok b (fst p) /\ snd p = fst <$> b /\ capacity (fst p) = cap.

Lemma restate_mid f b i x : b !! i = Some x -> exists b1 b2, b = b1 ++ x :: b2 /\ restate f i b = b1 ++ (fst x, f (snd x)) :: b2.
Proof.
  intros (b1 & b2 & -> & ->)%list_elem_of_split_length; exists b1, b2; split; [done|].
  unfold restate; rewrite <- (Nat.add_0_r (length b1)); exact (alter_app_r _ b1 (x :: b2) 0).
Qed.

Lemma restate_none f b i : b !! i = None -> restate f i b = b.
Proof.
  unfold restate; revert i; induction b as [|x b IH]; intros [|i] E; simpl in *; [done|done|done|]; f_equal; by apply IH.
Qed.

Lemma fst_mid (b1 : book) x st b2 : (b1 ++ (fst x, st) :: b2).*1 = (b1 ++ x :: b2).*1.
Proof. by rewrite !fmap_app. Qed.

Lemma caps_lt b s x : book_ok b s -> x ∈ b -> (ticket_cap (fst x) < length (capabilities s))%nat.
Proof. intros [_ _ Hc _ _] Hx; rewrite Forall_forall in Hc; specialize (Hc x Hx); by eapply lookup_lt_Some. Qed.

(** An admission appends the ticket to the book. *)
Lemma reserve_book kind amount b s : book_ok b s ->
  wp 0 (reserve kind amount) (fun r _ s' => capacity s' = capacity s /\
    exists b', book_step (Reserve kind amount) b (capacity s) (match r with Ok tk => Ok (Issued tk) | Err e => Err e end) b' (capacity s)
               /\ book_ok b' s' /\ b'.*1 = b.*1 ++ match r with Ok tk => [tk] | Err _ => [] end) s.
Proof.
  intros Hb; pose proof Hb as [Hok Ho Hc Hp Hn]; eapply wp0_mono; [by apply budget_reserve_spec|]; intros r s' (Hok' & Ep & Ecap & Ek & Hr); split; [done|].
  assert (Hc' : Forall (fun x => cap_at s' (ticket_cap (fst x)) = Some (cap_of (pid s') x)) b).
  { rewrite Forall_forall in Hc |- *; intros x Hx; unfold cap_at in *; rewrite Ep, Ek by (by eapply caps_lt); auto. }
  rewrite <- Ep in Hp; destruct r as [tk|e].
  - destruct Hr as (t & -> & Ht & Hk & Eo & Hmin & Hcap & Hcount & Hres); rewrite Ho in Eo.
    assert (Eo' : owners s' = open_owners (b ++ [(mk_ticket amount kind (pid s) t (length (capabilities s)), Live)])) by (by rewrite open_owners_app).
    rewrite Eo', total_open, ?length_open in *; exists (b ++ [(mk_ticket amount kind (pid s) t (length (capabilities s)), Live)]); split; [split; [done|]|split].
    + split_and!; try done; intros x Hx Hox Heq; apply Ht; rewrite Ho; apply list_elem_of_fmap; exists (entry_of x); split; [done|].
      apply list_elem_of_fmap_2, list_elem_of_In, filter_In; split; [by apply list_elem_of_In|done].
    + split; [done|done|apply Forall_app; split; [done|constructor; [|done]]|apply Forall_app; split; [done|by constructor]|].
      * cbn [fst ticket_cap]; rewrite Hk, Ep; done.
      * rewrite fmap_app; apply NoDup_app; split; [done|split; [|apply NoDup_singleton]]; intros c (x & -> & Hx)%list_elem_of_fmap [E|[]%elem_of_nil]%elem_of_cons.
        pose proof (caps_lt b s x Hb Hx); simpl in E; lia.
    + by rewrite fmap_app.
  - destruct Hr as [Eo Hr]; exists b; rewrite Ho in *; rewrite total_open, length_open in Hr; split; [done|split; [|by rewrite app_nil_r]]; by split.
Qed.

Lemma cp_ok_capacity s v : cp_ok s -> static_baseline + reserved s <= v -> cp_ok (set_capacity v s).
Proof. intros [] Hv; split; try done. by destruct ck_names0; split. Qed.

Lemma configure_book v b s : book_ok b s ->
  wp 0 (configure v) (fun r _ s' =>
    book_step (Configure v) b (capacity s) (match r with Ok _ => Ok Done | Err e => Err e end) b (capacity s') /\ book_ok b s') s.
Proof.
  intros Hb; pose proof Hb as [Hok Ho Hc Hp Hn]; unfold configure, book_step; destruct (Z.leb_spec v 0), (Z.ltb_spec _MAX_CAPACITY_BYTES v); cbn [orb].
  1-3: wp_step; split; [|done]; split; [done|].
  1-3: destruct (Z.ltb_spec 0 v), (Z.leb_spec v _MAX_CAPACITY_BYTES); simpl; try lia; done.
  wp_step; apply reconcile_ok; [done|]; do 2 wp_step; rewrite (ck_corrupted _ Hok); do 2 wp_step.
  rewrite (proj2 (Z.ltb_lt 0 v)), (proj2 (Z.leb_le v _MAX_CAPACITY_BYTES)) by done; cbn [andb].
  rewrite (ck_reserved _ Hok), Ho, total_open; destruct (Z.ltb_spec v (held b + static_baseline)), (Z.leb_spec (held b + static_baseline) v); try lia; wp_step; [done|].
  split; [done|]; split; [apply cp_ok_capacity; [done|]; rewrite (ck_reserved _ Hok), Ho, total_open; lia|done..].
Qed.

Lemma observe_book b s : book_ok b s ->
  wp 0 snapshot_with_shadow (fun r _ s' => s' = s /\ exists v fresh bytes, r = Ok (v, fresh, bytes)
    /\ book_step Observe b (capacity s) (Ok (Observed v fresh bytes)) b (capacity s)) s.
Proof.
  intros Hb; pose proof Hb as [Hok Ho _ _ _]; unfold snapshot_with_shadow, snapshot; wp_step; wp_step; apply reconcile_ok; [done|]; do 6 wp_step.
  split; [done|]; do 3 eexists; split; [done|]; split; [done|split; [done|]]; do 3 eexists; split; [done|]; simpl.
  rewrite (ck_reserved _ Hok), (ck_active _ Hok), (ck_dirty _ Hok), (ck_corrupted _ Hok), Ho, total_open, length_open; split_and!; try done.
  - rewrite <- total_open, <- Ho, <- (ck_reserved _ Hok); apply Hok.
  - intros [Hcap Hd%negb_true_iff]%andb_true_iff Hpos; rewrite Hcap, Hd; simpl; unfold governed_bytes; simpl; pose proof (ck_shadow _ Hok) as Hs.
    unfold shadow_ok in Hs; rewrite Hcap in Hs; rewrite Hs by done; rewrite <- total_open, <- Ho, <- (ck_reserved _ Hok); apply (ck_charged _ Hok).
    intros E; rewrite <- length_open, <- Ho, E in Hpos; simpl in Hpos; lia.
Qed.

Lemma book_native b s s' : book_ok b s -> shadow_only s s' -> cp_ok s' -> book_ok b s'.
Proof.
  intros [Hok Ho Hc Hp Hn] Hsh Hok'; pose proof (shadow_only_owners _ _ Hsh) as (Eo & Ep & Ec & _).
  split; [done|by rewrite Eo|unfold cap_at in *; by rewrite Ec, Ep|by rewrite Ep|done].
Qed.

Lemma synchronize_book b s : book_ok b s ->
  wp 0 synchronize_control_plane_native_shadow (fun r _ s' => capacity s' = capacity s /\ book_ok b s' /\
    book_step Synchronize b (capacity s) (match r with Ok v => Ok (Synchronized (fst v) (snd v)) | Err e => Err e end) b (capacity s)) s.
Proof.
  intros Hb; pose proof Hb as [Hok _ _ _ _]; unfold synchronize_control_plane_native_shadow; wp_step; eapply wp0_mono; [apply prewarm_spec, Hok|]; intros r s1 H1.
  assert (Hok1 : cp_ok s1) by (eapply native_step_ok; [exact Hok|exact H1|]; intros [_ ->]; apply Hok).
  destruct H1 as (Ho1 & _ & Hr1); pose proof (book_native b s s1 Hb Ho1 Hok1) as Hb1; pose proof (shadow_only_owners _ _ Ho1) as (_ & _ & _ & Ecap1 & _).
  destruct r as [b0|e]; [|split; [done|split; [done|split; [done|split; [done|right; by exists e; destruct Hr1]]]]].
  unfold ensure_native_shadow_under_admission_lock; wp_step; apply reconcile_ok; [done|]; do 3 wp_step; eapply wp0_mono; [apply sync_spec, Hok1|]; intros r s2 H2.
  assert (Hok2 : cp_ok s2) by (eapply native_step_ok; [exact Hok1|exact H2|]; intros (_ & _ & ->); done).
  destruct H2 as (Ho2 & Hs2 & Hr2); pose proof (book_native b s1 s2 Hb1 Ho2 Hok2) as Hb2; pose proof (shadow_only_owners _ _ Ho2) as (_ & _ & _ & Ecap2 & _).
  assert (Ecap : capacity s2 = capacity s) by congruence.
  destruct r as [b2|e]; [|split; [done|split; [done|split; [done|split; [done|right; by exists e; destruct Hr2]]]]].
  destruct Hr2 as (Hcap & [Hd [= ->]] & Hnat); do 3 wp_step; split; [done|split; [done|split; [done|split; [done|left]]]]; simpl.
  unfold shadow_ok in Hs2; rewrite Hcap in Hs2; by rewrite (Hs2 Hd), Hnat, (ck_reserved _ Hok1), (bk_owners _ _ Hb1), total_open.
Qed.

Lemma release_cp_book b1 x b2 s : book_ok (b1 ++ x :: b2) s ->
  wp 0 (release_control_plane (Some (fst x))) (fun r _ s' => r = Ok true /\ capacity s' = capacity s /\ book_ok (b1 ++ (fst x, Spent) :: b2) s') s.
Proof.
  intros Hb; unfold release_control_plane; wp_step; eapply wp0_mono; [by apply release_book|]; intros r s' (-> & Hc & Hb').
  cbn [negb]; by do 3 wp_step.
Qed.

Lemma defer_book b1 x b2 s : book_ok (b1 ++ x :: b2) s ->
  wp 0 (defer_control_plane_release (Some (fst x))) (fun r _ s' => r = Ok true /\ capacity s' = capacity s /\ book_ok (b1 ++ (fst x, Spent) :: b2) s') s.
Proof.
  intros Hb; unfold defer_control_plane_release; wp_step; eapply wp0_mono; [by apply release_cp_book|]; intros r s' (-> & Hc & Hb').
  by wp_step.
Qed.

(** A request about one ticket, from its effect on a book with that ticket in the middle. *)
Lemma ticket_spec {A} (m : option ticket -> M cp_state A) (g : A -> answer) (f : status -> status) (hit miss : A) (i : nat) b cap p :
  keeps b cap p ->
  (forall b1 x b2 s, book_ok (b1 ++ x :: b2) s ->
     wp 0 (m (Some (fst x))) (fun r _ s' => r = Ok hit /\ capacity s' = capacity s /\ book_ok (b1 ++ (fst x, f (snd x)) :: b2) s') s) ->
  (forall s, wp 0 (m None) (fun r _ s' => r = Ok miss /\ s' = s) s) ->
  wp 0 (tk ← reads (fun p => snd p !! i); v ← onS (m tk); ret (g v)) (fun r _ p' =>
    r = Ok (g (if bool_decide (i < length b)%nat then hit else miss)) /\ keeps (restate f i b) cap p') p.
Proof.
  intros (Hb & Ht & Hcap) Hhit Hmiss; destruct p as [s tks]; cbn [fst snd] in *; wp_step; wp_step; cbn [snd]; wp_step; wp_step.
  assert (Etk : tks !! i = fst <$> b !! i) by (rewrite Ht; apply list_lookup_fmap); rewrite Etk.
  destruct (b !! i) as [x|] eqn:E; cbn [fmap option_fmap option_map].
  - rewrite bool_decide_eq_true_2 by (by eapply lookup_lt_Some); destruct (restate_mid f b i x E) as (b1 & b2 & -> & ->).
    eapply wp0_mono; [by apply Hhit|]; intros r s' (-> & Hc & Hb'); wp_step; split; [done|]; split; [done|split; [by rewrite fst_mid|simpl; congruence]].
  - rewrite bool_decide_eq_false_2 by (apply Nat.le_ngt; by apply lookup_ge_None); rewrite (restate_none f b i E).
    eapply wp0_mono; [apply Hmiss|]; intros r s' [-> ->]; by wp_step.
Qed.

Lemma fst_drain n b : (drain_book n b).*1 = b.*1.
Proof. revert n; induction b as [|x b IH]; intros n; simpl; [done|]; destruct (asked x), n; simpl; by rewrite ?IH. Qed.

(** Every request does to the book what [book_step] says. *)
Lemma perform_spec q b cap p : keeps b cap p ->
  wp 0 (perform q) (fun r _ p' => exists b' cap', book_step q b cap r b' cap' /\ keeps b' cap' p') p.
Proof.
  intros Hk; pose proof Hk as (Hb & Ht & <-); destruct p as [s tks]; cbn [fst snd] in *; destruct q; cbn [perform].
  - wp_step; wp_step; eapply wp0_mono; [by apply reserve_book|]; intros r s' (Ecap & b' & Hs & Hb' & Hf).
    destruct r as [tk|e]; [wp_step; wp_step; wp_step|]; exists b', (capacity s).
    + split; [done|split; [done|split; [by rewrite Hf; simpl; rewrite Ht|done]]].
    + rewrite app_nil_r in Hf; split; [done|split; [done|split; [by rewrite Hf|done]]].
  - eapply wp0_mono; [eapply (ticket_spec release_control_plane _ (fun _ => Spent) true true); [done|by apply release_cp_book|intros s0; unfold defer_control_plane_release, release_control_plane, release, request_retirement; by repeat (wp_step; cbn [negb])]|].
    intros r p' [-> Hk']; eexists _, _; split; [|exact Hk']; split; [done|]; by destruct (bool_decide _).
  - eapply wp0_mono; [eapply (ticket_spec defer_control_plane_release _ (fun _ => Spent) true true); [done|by apply defer_book|intros s0; unfold defer_control_plane_release, release_control_plane, release, request_retirement; by repeat (wp_step; cbn [negb])]|].
    intros r p' [-> Hk']; eexists _, _; split; [|exact Hk']; split; [done|]; by destruct (bool_decide _).
  - eapply wp0_mono; [eapply (ticket_spec request_retirement _ ask true false); [done|by apply request_book|intros s0; unfold defer_control_plane_release, release_control_plane, release, request_retirement; by repeat (wp_step; cbn [negb])]|].
    intros r p' [-> Hk']; eexists _, _; split; [|exact Hk']; split; [done|]; by destruct (bool_decide _).
  - eapply wp0_mono; [eapply (ticket_spec (fun tk => match tk with Some tk => abandon tk | None => ret tt end) (fun _ => Done) ask tt tt);
      [done|by apply abandon_book|intros s0; by wp_steps]|].
    intros r p' [-> Hk']; eexists _, _; split; [|exact Hk']; done.
  - unfold drain_requested_retirements; replace (Z.to_nat (Z.max 0 limit)) with (Z.to_nat limit) by lia.
    wp_step; wp_step; eapply wp0_mono; [by apply drain_spec|]; intros r s' (-> & Ecap & Hb'); wp_step.
    exists (drain_book (Z.to_nat limit) b), (capacity s); split; [done|split; [done|split; [by rewrite fst_drain|done]]].
  - wp_step; wp_step; eapply wp0_mono; [by apply (configure_book _ b)|]; intros r s' [Hs Hb']; destruct r; [wp_step|]; by exists b, (capacity s').
  - wp_step; wp_step; eapply wp0_mono; [by apply observe_book|]; intros r s' [-> (v & fresh & bytes & -> & Hs)]; wp_step; by exists b, (capacity s).
  - wp_step; wp_step; eapply wp0_mono; [by apply synchronize_book|]; intros r s' (Ecap & Hb' & Hs); destruct r; [wp_step|]; by exists b, (capacity s).
Qed.

Lemma keeps_init p : keeps [] _DEFAULT_CAPACITY_BYTES (__init__ p, []).
Proof.
  split; [|done]; split; [|done|apply Forall_nil_2|apply Forall_nil_2|apply NoDup_nil_2]; split; try done.
  split; simpl; [by rewrite length_replicate|lia|by rewrite Nat.Div0.mod_0_l|done|lia].
Qed.

Lemma serve_spec qs b cap p : keeps b cap p ->
  exists b' cap', book_trace b cap qs (fst (serve qs p)) b' cap' /\ keeps b' cap' (snd (serve qs p)).
Proof.
  revert b cap p; induction qs as [|q qs IH]; intros b cap p Hk; cbn [serve]; [exists b, cap; split; [constructor|done]|].
  pose proof (wp_run (perform q) _ p (perform_spec q b cap p Hk)) as (b1 & cap1 & Hs & Hk1).
  destruct (run (perform q) p) as [r p1]; cbn [fst snd] in *; destruct (IH b1 cap1 p1 Hk1) as (b2 & cap2 & Ht & Hk2).
  destruct (serve qs p1) as [rs p2]; cbn [fst snd] in *; exists b2, cap2; split; [by econstructor|done].
Qed.

(** C17: whatever requests a process makes of its control-plane budget, and
    whichever calls the native pool refuses, the budget answers as a book of the
    issued tickets says: an admission adds a ticket under a token no open ticket
    has, within the byte capacity, the ticket limit and the resident limit, and is
    refused only for one of those reasons or a refused native call; a ticket gives
    its bytes back exactly once however often it is released; a drain retires the
    first requested tickets; the snapshot counts the open ones, and a fresh shadow
    covers their governed bytes. *)
Theorem budget_refines_book p qs :
  exists b cap, book_trace [] _DEFAULT_CAPACITY_BYTES qs (fst (serve qs (__init__ p, []))) b cap
                /\ keeps b cap (snd (serve qs (__init__ p, []))).
Proof. apply serve_spec, keeps_init. Qed.
End Budget.

(** ** Two tickets at a time *)

Module BudgetExample.
Definition no_refusal (n : nat) : bool := false.

Definition limits : Z * Z := (0, 1000000).

(** One request under a schedule. *)
Definition ask_for (k : sched) (q : cp_request) (p : cp_state * list ticket) : result answer * (cp_state * list ticket) :=
  match perform 2 4096 no_refusal limits q k p with (r, _, p') => (r, p') end.

Definition opening : cp_state * list ticket := (__init__ 2 7, []).

Definition requests : list cp_request :=
  [Reserve "a" 256; Reserve "b" 256; Reserve "c" 256; Release 0; Abandon 1; Drain 8; Release 0; Reserve "c" 300; Observe]%string.

Definition used : cp_state * list ticket :=
  snd (serve 2 4096 no_refusal limits
         [Reserve "a" 256; Reserve "b" 256; Release 0; Release 1; Reserve "c" 256; Reserve "d" 512; Release 2]%string (__init__ 2 7, [])).
End BudgetExample.

Lemma budget_refines_book_witness :
  exists b cap, book_trace 2 4096 BudgetExample.no_refusal BudgetExample.limits [] _DEFAULT_CAPACITY_BYTES BudgetExample.requests
                  (fst (serve 2 4096 BudgetExample.no_refusal BudgetExample.limits BudgetExample.requests BudgetExample.opening)) b cap
                /\ keeps 2 4096 b cap (snd (serve 2 4096 BudgetExample.no_refusal BudgetExample.limits BudgetExample.requests BudgetExample.opening)).
Proof. apply (budget_refines_book 2 4096 BudgetExample.no_refusal BudgetExample.limits); [lia|done|lia]. Defined.

