(* ===== verification/TemporaryStorage.v ===== *)
(** * TemporaryStorage: the storage permits of one operation

    [core_impl/temporary_storage.py].  A pool admits byte leases up to a limit, keeps an
    entry per lease, and resizes and releases leases in critical sections between
    which it calls the process governor and the control plane without holding its
    lock.  The sections are computations on the pool; a step relation interleaves
    those of any number of threads.  What the governor, the control plane and the
    finalizer escrow answer is an argument; the tickets of the escrow and the
    orphans that a failed rollback leaves to it are not modelled. *)

From Stdlib Require Import String.
From S2P Require Import Prelude BoundedGeneration CoordinationJournal StorageGovernor.

#[local] Open Scope Z_scope.

(** ** Leases *)

(** The fields of [_StorageLeaseEntry] for a resize in progress. *)
Record resize_state : Type := mk_resize {
  inflight : bool;
  reconcile : bool;
  target_bytes : Z;
  target_key : Z;
  target_path : option nat;
  pending_delta : Z;
  pending_growth : Z;
  replacement : option nat;
}.

(** [_StorageLeaseEntry].  Entries are objects, named by their index; the replay
    capability that is made with an entry has the same name, and its flag is the
    last field. *)
Record entry : Type := mk_entry {
  owner_id : nat;
  entry_bytes : Z;
  filesystem_key : Z;
  filesystem_path : nat;
  entry_inodes : Z;
  process_capability : nat;
  control_ticket : option nat;
  resizing : resize_state;
  release_inflight : bool;
  process_released : bool;
  local_released : bool;
  replay_released : bool;
}.

Record pool : Type := mk_pool {
  limit_bytes : Z;
  reserved_bytes : Z;
  pending_reserved_bytes : Z;
  pending_active_leases : Z;
  resize_inflight : Z;
  pending_resize_growth : Z;
  peak_reserved_bytes : Z;
  active_leases : Z;
  closed : bool;
  close_complete : bool;
  close_outstanding_bytes : Z;
  close_active_leases : Z;
  over_release_count : Z;
  over_release_bytes : Z;
  lease_sequence : Z;
  leases : list (Z * nat);
  entries : list entry;
  unknown_lease_releases : Z;
  protocol_violations : Z;
}.

(** [TemporaryStoragePermitPool.__init__], with the spool bytes of the memory budget. *)
Definition new_pool (limit : Z) : pool := mk_pool limit 0 0 0 0 0 0 0 false false 0 0 0 0 0 [] [] 0 0.

Definition no_resize : resize_state := mk_resize false false 0 (-1) None 0 0 None.

Definition set_reserved v (p : pool) : pool :=
  mk_pool (limit_bytes p) v (pending_reserved_bytes p) (pending_active_leases p) (resize_inflight p) (pending_resize_growth p) (peak_reserved_bytes p) (active_leases p) (closed p)
    (close_complete p) (close_outstanding_bytes p) (close_active_leases p) (over_release_count p) (over_release_bytes p) (lease_sequence p) (leases p) (entries p) (unknown_lease_releases p) (protocol_violations p).
Definition set_pending v (p : pool) : pool :=
  mk_pool (limit_bytes p) (reserved_bytes p) v (pending_active_leases p) (resize_inflight p) (pending_resize_growth p) (peak_reserved_bytes p) (active_leases p) (closed p)
    (close_complete p) (close_outstanding_bytes p) (close_active_leases p) (over_release_count p) (over_release_bytes p) (lease_sequence p) (leases p) (entries p) (unknown_lease_releases p) (protocol_violations p).
Definition set_pending_leases v (p : pool) : pool :=
  mk_pool (limit_bytes p) (reserved_bytes p) (pending_reserved_bytes p) v (resize_inflight p) (pending_resize_growth p) (peak_reserved_bytes p) (active_leases p) (closed p)
    (close_complete p) (close_outstanding_bytes p) (close_active_leases p) (over_release_count p) (over_release_bytes p) (lease_sequence p) (leases p) (entries p) (unknown_lease_releases p) (protocol_violations p).
Definition set_resizing v (p : pool) : pool :=
  mk_pool (limit_bytes p) (reserved_bytes p) (pending_reserved_bytes p) (pending_active_leases p) v (pending_resize_growth p) (peak_reserved_bytes p) (active_leases p) (closed p)
    (close_complete p) (close_outstanding_bytes p) (close_active_leases p) (over_release_count p) (over_release_bytes p) (lease_sequence p) (leases p) (entries p) (unknown_lease_releases p) (protocol_violations p).
Definition set_growth v (p : pool) : pool :=
  mk_pool (limit_bytes p) (reserved_bytes p) (pending_reserved_bytes p) (pending_active_leases p) (resize_inflight p) v (peak_reserved_bytes p) (active_leases p) (closed p)
    (close_complete p) (close_outstanding_bytes p) (close_active_leases p) (over_release_count p) (over_release_bytes p) (lease_sequence p) (leases p) (entries p) (unknown_lease_releases p) (protocol_violations p).
Definition set_peak v (p : pool) : pool :=
  mk_pool (limit_bytes p) (reserved_bytes p) (pending_reserved_bytes p) (pending_active_leases p) (resize_inflight p) (pending_resize_growth p) v (active_leases p) (closed p)
    (close_complete p) (close_outstanding_bytes p) (close_active_leases p) (over_release_count p) (over_release_bytes p) (lease_sequence p) (leases p) (entries p) (unknown_lease_releases p) (protocol_violations p).
Definition set_active v (p : pool) : pool :=
  mk_pool (limit_bytes p) (reserved_bytes p) (pending_reserved_bytes p) (pending_active_leases p) (resize_inflight p) (pending_resize_growth p) (peak_reserved_bytes p) v (closed p)
    (close_complete p) (close_outstanding_bytes p) (close_active_leases p) (over_release_count p) (over_release_bytes p) (lease_sequence p) (leases p) (entries p) (unknown_lease_releases p) (protocol_violations p).
Definition set_closed (p : pool) : pool :=
  mk_pool (limit_bytes p) (reserved_bytes p) (pending_reserved_bytes p) (pending_active_leases p) (resize_inflight p) (pending_resize_growth p) (peak_reserved_bytes p) (active_leases p) true
    (close_complete p) (close_outstanding_bytes p) (close_active_leases p) (over_release_count p) (over_release_bytes p) (lease_sequence p) (leases p) (entries p) (unknown_lease_releases p) (protocol_violations p).
Definition set_outstanding complete bytes live (p : pool) : pool :=
  mk_pool (limit_bytes p) (reserved_bytes p) (pending_reserved_bytes p) (pending_active_leases p) (resize_inflight p) (pending_resize_growth p) (peak_reserved_bytes p) (active_leases p) (closed p)
    complete bytes live (over_release_count p) (over_release_bytes p) (lease_sequence p) (leases p) (entries p) (unknown_lease_releases p) (protocol_violations p).
Definition set_over count bytes (p : pool) : pool :=
  mk_pool (limit_bytes p) (reserved_bytes p) (pending_reserved_bytes p) (pending_active_leases p) (resize_inflight p) (pending_resize_growth p) (peak_reserved_bytes p) (active_leases p) (closed p)
    (close_complete p) (close_outstanding_bytes p) (close_active_leases p) count bytes (lease_sequence p) (leases p) (entries p) (unknown_lease_releases p) (protocol_violations p).
Definition set_sequence v (p : pool) : pool :=
  mk_pool (limit_bytes p) (reserved_bytes p) (pending_reserved_bytes p) (pending_active_leases p) (resize_inflight p) (pending_resize_growth p) (peak_reserved_bytes p) (active_leases p) (closed p)
    (close_complete p) (close_outstanding_bytes p) (close_active_leases p) (over_release_count p) (over_release_bytes p) v (leases p) (entries p) (unknown_lease_releases p) (protocol_violations p).
Definition set_leases v (p : pool) : pool :=
  mk_pool (limit_bytes p) (reserved_bytes p) (pending_reserved_bytes p) (pending_active_leases p) (resize_inflight p) (pending_resize_growth p) (peak_reserved_bytes p) (active_leases p) (closed p)
    (close_complete p) (close_outstanding_bytes p) (close_active_leases p) (over_release_count p) (over_release_bytes p) (lease_sequence p) v (entries p) (unknown_lease_releases p) (protocol_violations p).
Definition set_entries v (p : pool) : pool :=
  mk_pool (limit_bytes p) (reserved_bytes p) (pending_reserved_bytes p) (pending_active_leases p) (resize_inflight p) (pending_resize_growth p) (peak_reserved_bytes p) (active_leases p) (closed p)
    (close_complete p) (close_outstanding_bytes p) (close_active_leases p) (over_release_count p) (over_release_bytes p) (lease_sequence p) (leases p) v (unknown_lease_releases p) (protocol_violations p).
Definition note_unknown (p : pool) : pool :=
  mk_pool (limit_bytes p) (reserved_bytes p) (pending_reserved_bytes p) (pending_active_leases p) (resize_inflight p) (pending_resize_growth p) (peak_reserved_bytes p) (active_leases p) (closed p)
    (close_complete p) (close_outstanding_bytes p) (close_active_leases p) (over_release_count p) (over_release_bytes p) (lease_sequence p) (leases p) (entries p) (unknown_lease_releases p + 1) (protocol_violations p).
Definition violate (p : pool) : pool :=
  mk_pool (limit_bytes p) (reserved_bytes p) (pending_reserved_bytes p) (pending_active_leases p) (resize_inflight p) (pending_resize_growth p) (peak_reserved_bytes p) (active_leases p) (closed p)
    (close_complete p) (close_outstanding_bytes p) (close_active_leases p) (over_release_count p) (over_release_bytes p) (lease_sequence p) (leases p) (entries p) (unknown_lease_releases p) (protocol_violations p + 1).

Definition with_bytes v (e : entry) : entry :=
  mk_entry (owner_id e) v (filesystem_key e) (filesystem_path e) (entry_inodes e) (process_capability e) (control_ticket e) (resizing e) (release_inflight e) (process_released e) (local_released e) (replay_released e).
Definition with_key v (e : entry) : entry :=
  mk_entry (owner_id e) (entry_bytes e) v (filesystem_path e) (entry_inodes e) (process_capability e) (control_ticket e) (resizing e) (release_inflight e) (process_released e) (local_released e) (replay_released e).
Definition with_path v (e : entry) : entry :=
  mk_entry (owner_id e) (entry_bytes e) (filesystem_key e) v (entry_inodes e) (process_capability e) (control_ticket e) (resizing e) (release_inflight e) (process_released e) (local_released e) (replay_released e).
Definition with_capability v (e : entry) : entry :=
  mk_entry (owner_id e) (entry_bytes e) (filesystem_key e) (filesystem_path e) (entry_inodes e) v (control_ticket e) (resizing e) (release_inflight e) (process_released e) (local_released e) (replay_released e).
Definition with_ticket v (e : entry) : entry :=
  mk_entry (owner_id e) (entry_bytes e) (filesystem_key e) (filesystem_path e) (entry_inodes e) (process_capability e) v (resizing e) (release_inflight e) (process_released e) (local_released e) (replay_released e).
Definition with_release_inflight v (e : entry) : entry :=
  mk_entry (owner_id e) (entry_bytes e) (filesystem_key e) (filesystem_path e) (entry_inodes e) (process_capability e) (control_ticket e) (resizing e) v (process_released e) (local_released e) (replay_released e).
Definition with_process_released (e : entry) : entry :=
  mk_entry (owner_id e) (entry_bytes e) (filesystem_key e) (filesystem_path e) (entry_inodes e) (process_capability e) (control_ticket e) (resizing e) (release_inflight e) true (local_released e) (replay_released e).
Definition with_local_released (e : entry) : entry :=
  mk_entry (owner_id e) (entry_bytes e) (filesystem_key e) (filesystem_path e) (entry_inodes e) (process_capability e) (control_ticket e) (resizing e) (release_inflight e) (process_released e) true (replay_released e).
Definition with_replay_released (e : entry) : entry :=
  mk_entry (owner_id e) (entry_bytes e) (filesystem_key e) (filesystem_path e) (entry_inodes e) (process_capability e) (control_ticket e) (resizing e) (release_inflight e) (process_released e) (local_released e) true.
Definition on_resize (f : resize_state -> resize_state) (e : entry) : entry :=
  mk_entry (owner_id e) (entry_bytes e) (filesystem_key e) (filesystem_path e) (entry_inodes e) (process_capability e) (control_ticket e) (f (resizing e)) (release_inflight e) (process_released e) (local_released e) (replay_released e).

Definition with_inflight v (r : resize_state) : resize_state :=
  mk_resize v (reconcile r) (target_bytes r) (target_key r) (target_path r) (pending_delta r) (pending_growth r) (replacement r).
Definition with_reconcile v (r : resize_state) : resize_state :=
  mk_resize (inflight r) v (target_bytes r) (target_key r) (target_path r) (pending_delta r) (pending_growth r) (replacement r).
Definition with_target v (r : resize_state) : resize_state :=
  mk_resize (inflight r) (reconcile r) v (target_key r) (target_path r) (pending_delta r) (pending_growth r) (replacement r).
Definition with_target_key v (r : resize_state) : resize_state :=
  mk_resize (inflight r) (reconcile r) (target_bytes r) v (target_path r) (pending_delta r) (pending_growth r) (replacement r).
Definition with_target_path v (r : resize_state) : resize_state :=
  mk_resize (inflight r) (reconcile r) (target_bytes r) (target_key r) v (pending_delta r) (pending_growth r) (replacement r).
Definition with_delta v (r : resize_state) : resize_state :=
  mk_resize (inflight r) (reconcile r) (target_bytes r) (target_key r) (target_path r) v (pending_growth r) (replacement r).
Definition with_growth v (r : resize_state) : resize_state :=
  mk_resize (inflight r) (reconcile r) (target_bytes r) (target_key r) (target_path r) (pending_delta r) v (replacement r).
Definition with_new_capability v (r : resize_state) : resize_state :=
  mk_resize (inflight r) (reconcile r) (target_bytes r) (target_key r) (target_path r) (pending_delta r) (pending_growth r) v.

Definition blank_entry : entry := mk_entry 0 0 (-1) 0 0 0 None no_resize false false false false.

Definition entry_at (e : nat) (p : pool) : entry := default blank_entry (entries p !! e).

Definition on_entry (e : nat) (f : entry -> entry) (p : pool) : pool := set_entries (alter f e (entries p)) p.

(** ** Helpers that hold the pool's lock *)

Definition _finish_resize_inflight_locked : M pool unit :=
  n ← reads resize_inflight;
  if n <=? 0 then store violate else store (set_resizing (n - 1)).

Definition _consume_pending_resize_growth_locked (amount : Z) : M pool bool :=
  n ← reads pending_resize_growth;
  if (amount <? 0) || (n <? amount) then store violate;; ret false else store (set_growth (n - amount));; ret true.

Definition _finish_pending_admission_locked (requested : Z) : M pool unit :=
  leases ← reads pending_active_leases;
  no_lease ← (if leases <=? 0 then ret true else store (set_pending_leases (leases - 1));; ret false);
  bytes ← reads pending_reserved_bytes;
  no_bytes ← (if (requested <? 0) || (bytes <? requested) then ret true else store (set_pending (bytes - requested));; ret false);
  whenM (no_lease || no_bytes) (store violate).

Definition _finish_active_lease_locked (amount : Z) : M pool unit :=
  live ← reads active_leases;
  no_lease ← (if live <=? 0 then ret true else store (set_active (live - 1));; ret false);
  bytes ← reads reserved_bytes;
  no_bytes ← (if (amount <? 0) || (bytes <? amount) then ret true else store (set_reserved (bytes - amount));; ret false);
  whenM (no_lease || no_bytes) (store violate).

(** The identifier of the new lease, and its entry. *)
Definition _publish_lease_locked (owner : nat) (bytes key : Z) (path : nat) (inodes : Z) (capability ticket : nat) : M pool (Z * nat) :=
  last ← reads lease_sequence;
  occupied ← reads (fun p => list_to_set (leases p).*1);
  match next_reusable_token last occupied with
  | None => raise RuntimeError
  | Some id =>
    e ← reads (fun p => length (entries p));
    modify (fun p => set_entries (entries p ++ [mk_entry owner bytes key path inodes capability (Some ticket) no_resize false false false false]) p);;
    store (fun p => set_leases (leases p ++ [(id, e)]) p);;
    store (set_sequence id);;
    ret (id, e)
  end.

Definition _lease_entry_authority_locked (id : Z) (owner capability : nat) : M pool nat :=
  found ← reads (fun p => match zget id (leases p) with
                          | Some e => if (owner_id (entry_at e p) =? owner)%nat && (capability =? e)%nat then Some e else None
                          | None => None
                          end);
  match found with
  | Some e => ret e
  | None => store note_unknown;; raise RuntimeError
  end.

Definition _lease_reserved_bytes (id : Z) (owner capability : nat) : M pool Z :=
  e ← _lease_entry_authority_locked id owner capability;
  reads (fun p => entry_bytes (entry_at e p)).

(** ** Admission *)

Definition _validate_one_artifact (size_bytes : Z) : M pool unit :=
  limit ← reads limit_bytes;
  if size_bytes <=? limit then ret tt else raise (ResourceError "temporary_storage_bytes" limit size_bytes).

Definition _normalize_size (size_bytes : Z) : result Z := if size_bytes <? 0 then Err ValueError else Ok size_bytes.

Definition _normalize_artifact_count (artifact_count : Z) : result Z := if artifact_count <? 0 then Err ValueError else Ok artifact_count.

(** The first critical section of [try_acquire]: whether the request is admitted. *)
Definition begin_admission (requested : Z) : M pool bool :=
  closed ← reads closed;
  if closed : bool then raise RuntimeError
  else
    exhausted ← reads (fun p => limit_bytes p <? reserved_bytes p + pending_reserved_bytes p + requested);
    if exhausted : bool then ret false
    else
      pending ← reads pending_reserved_bytes;
      leases ← reads pending_active_leases;
      store (set_pending (pending + requested));;
      store (set_pending_leases (leases + 1));;
      ret true.

(** The second critical section: the lease is published. *)
Definition publish (owner : nat) (requested key : Z) (path : nat) (inodes : Z) (capability ticket : nat) : M pool (Z * nat) :=
  p ← reads (fun p => p);
  if (pending_reserved_bytes p <? requested) || (pending_active_leases p <=? 0) then store violate;; raise RuntimeError
  else
    let next_reserved := reserved_bytes p + requested in
    publication ← _publish_lease_locked owner requested key path inodes capability ticket;
    store (set_pending (pending_reserved_bytes p - requested));;
    store (set_pending_leases (pending_active_leases p - 1));;
    store (set_reserved next_reserved);;
    store (set_peak (Z.max (peak_reserved_bytes p) next_reserved));;
    store (set_active (active_leases p + 1));;
    ret publication.

(** What [try_acquire] is answered: by the check for cancellation, about the file
    system of the path, by the finalizer escrow, by the governor with a capability
    and its device, and by the control plane. *)
Record answers : Type := mk_answers {
  not_cancelled : result unit;
  filesystem : result (Z * nat);
  escrow_slot : result bool;
  reserved_capability : result (nat * Z);
  control_plane : result nat;
}.

Definition _MAX_TEMP_STORAGE_FINALIZER_OWNERS : Z := 16384.

(** The lease is the object [owner]; the result is its identifier and its entry. *)
Definition try_acquire (a : answers) (owner : nat) (size_bytes artifact_count : Z) : M pool (option (Z * nat)) :=
  liftR (not_cancelled a);;
  requested ← liftR (_normalize_size size_bytes);
  inodes ← liftR (_normalize_artifact_count artifact_count);
  _validate_one_artifact requested;;
  place ← liftR (filesystem a);
  slot ← liftR (escrow_slot a);
  if negb slot then raise (ResourceError "temporary_storage_finalizer_owners" _MAX_TEMP_STORAGE_FINALIZER_OWNERS (_MAX_TEMP_STORAGE_FINALIZER_OWNERS + 1))
  else
    admitted ← begin_admission requested;
    if negb admitted then ret None
    else
      capability ← try_except (liftR (reserved_capability a)) (fun e => _finish_pending_admission_locked requested;; raise e);
      lease ← try_except (ticket ← liftR (control_plane a);
                          publish owner requested (snd capability) (snd place) inodes (fst capability) ticket)
                         (fun e => _finish_pending_admission_locked requested;; raise e);
      ret (Some lease).

Definition acquire (a : answers) (owner : nat) (size_bytes artifact_count : Z) : M pool (Z * nat) :=
  lease ← try_acquire a owner size_bytes artifact_count;
  match lease with
  | Some lease => ret lease
  | None => p ← reads (fun p => p); raise (ResourceError "temporary_storage_bytes" (limit_bytes p) (reserved_bytes p + Z.max 0 size_bytes))
  end.

(** ** Resizing *)

Definition clear_target (e : nat) : M pool unit :=
  store (on_entry e (on_resize (with_target 0)));;
  store (on_entry e (on_resize (with_target_key (-1))));;
  store (on_entry e (on_resize (with_target_path None)));;
  store (on_entry e (on_resize (with_delta 0)));;
  store (on_entry e (on_resize (with_growth 0))).

Definition _finish_pending_resize_locked (e : nat) : M pool unit :=
  pending ← reads (fun p => reconcile (resizing (entry_at e p)));
  whenM pending (
    new ← reads (fun p => replacement (resizing (entry_at e p)));
    match new with
    | Some c => store (on_entry e (with_capability c));; store (on_entry e (on_resize (with_new_capability None)))
    | None => ret tt
    end;;
    p ← reads (fun p => p);
    let r := resizing (entry_at e p) in
    match target_path r with
    | None => raise RuntimeError
    | Some path =>
      let next_reserved := reserved_bytes p + pending_delta r in
      if (next_reserved <? 0) || (limit_bytes p <? next_reserved) then raise RuntimeError
      else if (pending_growth r <? 0) || (pending_resize_growth p <? pending_growth r) then store violate;; raise RuntimeError
      else
        store (set_reserved next_reserved);;
        store (set_peak (Z.max (peak_reserved_bytes p) next_reserved));;
        store (set_growth (pending_resize_growth p - pending_growth r));;
        store (on_entry e (with_bytes (target_bytes r)));;
        store (fun p => on_entry e (with_key (target_key (resizing (entry_at e p)))) p);;
        store (on_entry e (with_path path));;
        store (on_entry e (on_resize (with_reconcile false)));;
        clear_target e
    end).

(** The first critical section of [_resize_lease]: the entry. *)
Definition begin_resize (id : Z) (owner capability : nat) (requested key : Z) (path : nat) : M pool nat :=
  closed ← reads closed;
  if closed : bool then raise RuntimeError
  else
    e ← _lease_entry_authority_locked id owner capability;
    _finish_pending_resize_locked e;;
    busy ← reads (fun p => inflight (resizing (entry_at e p)));
    if busy : bool then raise RuntimeError
    else
      p ← reads (fun p => p);
      let growth := requested - entry_bytes (entry_at e p) in
      let growth_charge := Z.max 0 growth in
      let admission_total := reserved_bytes p + pending_reserved_bytes p + pending_resize_growth p + growth_charge in
      if limit_bytes p <? admission_total then raise (ResourceError "temporary_storage_bytes" (limit_bytes p) admission_total)
      else
        store (on_entry e (on_resize (with_target requested)));;
        store (on_entry e (on_resize (with_target_key key)));;
        store (on_entry e (on_resize (with_target_path (Some path))));;
        store (on_entry e (on_resize (with_delta growth)));;
        store (on_entry e (on_resize (with_growth growth_charge)));;
        store (on_entry e (on_resize (with_inflight true)));;
        store (set_resizing (resize_inflight p + 1));;
        store (set_growth (pending_resize_growth p + growth_charge));;
        ret e.

(** The section that undoes a resize the governor has refused. *)
Definition undo_resize (id : Z) (owner capability e : nat) : M pool unit :=
  current ← _lease_entry_authority_locked id owner capability;
  mine ← reads (fun p => (current =? e)%nat && inflight (resizing (entry_at e p)));
  whenM mine (
    store (on_entry e (on_resize (with_inflight false)));;
    _finish_resize_inflight_locked;;
    growth ← reads (fun p => pending_growth (resizing (entry_at e p)));
    _consume_pending_resize_growth_locked growth;;
    clear_target e).

(** The entry is no longer the lease's: its new capability is handed back for release. *)
Definition lose_resize {A} (e : nat) (error : exn) : M pool A :=
  store (on_entry e (on_resize (with_new_capability None)));;
  store (on_entry e (on_resize (with_reconcile false)));;
  busy ← reads (fun p => inflight (resizing (entry_at e p)));
  whenM busy (store (on_entry e (on_resize (with_inflight false)));; _finish_resize_inflight_locked);;
  growth ← reads (fun p => pending_growth (resizing (entry_at e p)));
  _consume_pending_resize_growth_locked growth;;
  clear_target e;;
  raise error.

(** The governor's capability is rooted in the entry, then the last section commits it. *)
Definition commit_resize (id : Z) (owner capability e new : nat) : M pool (Z * nat) :=
  store (on_entry e (on_resize (with_new_capability (Some new))));;
  store (on_entry e (on_resize (with_reconcile true)));;
  found ← try_except (x ← _lease_entry_authority_locked id owner capability; ret (Ok x)) (fun error => ret (Err error));
  busy ← reads (fun p => inflight (resizing (entry_at e p)));
  match found with
  | Ok current =>
    if (current =? e)%nat && busy then
      store (on_entry e (on_resize (with_inflight false)));;
      _finish_resize_inflight_locked;;
      _finish_pending_resize_locked e;;
      reads (fun p => (filesystem_key (entry_at e p), filesystem_path (entry_at e p)))
    else lose_resize e RuntimeError
  | Err error => lose_resize e error
  end.

(** [_resize_lease]: the new size and the place of the lease. *)
Definition _resize_lease (cancelled : result unit) (place : result (Z * nat)) (outcome : result nat) (id : Z) (owner capability : nat) (size_bytes : Z) : M pool (Z * (Z * nat)) :=
  liftR cancelled;;
  requested ← liftR (_normalize_size size_bytes);
  _validate_one_artifact requested;;
  target ← liftR place;
  e ← begin_resize id owner capability requested (fst target) (snd target);
  new ← try_except (liftR outcome) (fun error => undo_resize id owner capability e;; raise error);
  at_last ← commit_resize id owner capability e new;
  ret (requested, at_last).

(** ** Release *)

(** The first critical section of [_release_lease_authority], once no resize and no
    other release of the lease is under way: the entry and the capability that is
    still to be released, or nothing if the release had been completed before. *)
Definition claim_release (id : Z) (owner capability : nat) : M pool (option (nat * option nat)) :=
  found ← reads (fun p => zget id (leases p));
  spent ← reads (fun p => replay_released (entry_at capability p));
  match found with
  | None => if spent : bool then ret None else store note_unknown;; raise RuntimeError
  | Some e =>
    mine ← reads (fun p => (owner_id (entry_at e p) =? owner)%nat && (capability =? e)%nat);
    if negb mine then store note_unknown;; raise RuntimeError
    else if spent : bool then store (fun p => set_leases (zpop id (leases p)) p);; ret None
    else
      _finish_pending_resize_locked e;;
      p ← reads (fun p => p);
      if negb (process_released (entry_at e p)) then
        store (on_entry e (with_release_inflight true));;
        ret (Some (e, Some (process_capability (entry_at e p))))
      else ret (Some (e, None))
  end.

Definition release_refused (id : Z) (owner capability e : nat) : M pool unit :=
  current ← _lease_entry_authority_locked id owner capability;
  whenM (current =? e)%nat (store (on_entry e (with_release_inflight false))).

Definition release_accepted (id : Z) (owner capability e : nat) : M pool unit :=
  current ← _lease_entry_authority_locked id owner capability;
  if negb (current =? e)%nat then raise RuntimeError
  else store (on_entry e with_process_released);; store (on_entry e (with_release_inflight false)).

(** The local release: the control ticket that is still to be retired. *)
Definition release_locally (id : Z) (owner capability e : nat) : M pool (option nat) :=
  current ← _lease_entry_authority_locked id owner capability;
  if negb (current =? e)%nat then raise RuntimeError
  else
    p ← reads (fun p => p);
    whenM (negb (local_released (entry_at e p))) (
      let amount := entry_bytes (entry_at e p) in
      let excess := Z.max 0 (amount - reserved_bytes p) in
      let missing_lease := active_leases p <=? 0 in
      store (set_over (over_release_count p + if negb (excess =? 0) || missing_lease then 1 else 0) (over_release_bytes p));;
      store (fun q => set_over (over_release_count q) (over_release_bytes p + excess) q);;
      _finish_active_lease_locked amount;;
      store (on_entry e with_local_released));;
    reads (fun p => control_ticket (entry_at e p)).

Definition ticket_retired (id : Z) (owner capability e ticket : nat) : M pool unit :=
  current ← _lease_entry_authority_locked id owner capability;
  mine ← reads (fun p => (current =? e)%nat && bool_decide (control_ticket (entry_at e p) = Some ticket));
  whenM mine (store (on_entry e (with_ticket None))).

Definition forget (id : Z) (owner capability e : nat) : M pool unit :=
  current ← _lease_entry_authority_locked id owner capability;
  whole ← reads (fun p => (current =? e)%nat && local_released (entry_at e p) && bool_decide (control_ticket (entry_at e p) = None));
  whenM whole (
    store (on_entry e with_replay_released);;
    store (fun p => set_leases (zpop id (leases p)) p)).

(** [_release_lease_authority]: [outcome] is the governor's, with whether the capability
    is active after it, and [retired] the control plane's. *)
Definition _release_lease_authority (outcome : result bool) (still_active : bool) (retired : result bool) (id : Z) (owner capability : nat) : M pool unit :=
  claim ← claim_release id owner capability;
  match claim with
  | None => ret tt
  | Some (e, unreleased) =>
    whenM (bool_decide (is_Some unreleased)) (
      try_except (released ← liftR outcome; if negb released && still_active then raise RuntimeError else ret tt)
        (fun error => release_refused id owner capability e;; raise error);;
      release_accepted id owner capability e);;
    ticket ← release_locally id owner capability e;
    match ticket with
    | Some t =>
      done ← liftR retired;
      if negb done then raise RuntimeError else ticket_retired id owner capability e t
    | None => ret tt
    end;;
    forget id owner capability e
  end.

(** ** Closing and diagnostics *)

(** The attempt of [close] after which it waits no longer. *)
Definition close : M pool unit :=
  store set_closed;;
  p ← reads (fun p => p);
  if negb (pending_active_leases p =? 0) || negb (resize_inflight p =? 0) then raise RuntimeError
  else if negb (protocol_violations p =? 0) then raise RuntimeError
  else if close_complete p then ret tt
  else
    store (set_outstanding (close_complete p) (reserved_bytes p) (close_active_leases p));;
    store (fun q => set_outstanding (close_complete q) (close_outstanding_bytes q) (active_leases p) q);;
    store (fun q => set_outstanding true (close_outstanding_bytes q) (close_active_leases q) q).

Definition snapshot (p : pool) : Z * Z * Z * Z := (limit_bytes p, reserved_bytes p, peak_reserved_bytes p, active_leases p).

Definition diagnostics (p : pool) : Z * Z * Z * Z := (close_outstanding_bytes p, close_active_leases p, over_release_count p, over_release_bytes p).

(** ** The ledger of the pool *)

Definition held_bytes (en : entry) : Z := if local_released en then 0 else entry_bytes en.
Definition held_lease (en : entry) : Z := if local_released en then 0 else 1.
Definition held_growth (en : entry) : Z := pending_growth (resizing en).
Definition held_inflight (en : entry) : Z := if inflight (resizing en) then 1 else 0.

Definition total_of (w : entry -> Z) (l : list (Z * nat)) (objs : list entry) : Z := foldr (fun x z => w (default blank_entry (objs !! snd x)) + z) 0 l.

Definition total (w : entry -> Z) (p : pool) : Z := total_of w (leases p) (entries p).

(** A resize that has been admitted. *)
Record planned (en : entry) : Prop := {
  pl_path : is_Some (target_path (resizing en));
  pl_target : 0 <= target_bytes (resizing en);
  pl_delta : pending_delta (resizing en) = target_bytes (resizing en) - entry_bytes en;
  pl_growth : pending_growth (resizing en) = Z.max 0 (pending_delta (resizing en));
}.

Record entry_ok (en : entry) : Prop := {
  eo_bytes : 0 <= entry_bytes en;
  eo_growth : 0 <= pending_growth (resizing en);
  eo_replay : replay_released en = false;
  eo_local : local_released en = true -> process_released en = true;
  eo_idle : inflight (resizing en) = false -> reconcile (resizing en) = false -> pending_growth (resizing en) = 0;
  eo_inflight : inflight (resizing en) = true -> planned en /\ reconcile (resizing en) = false;
  eo_reconcile : reconcile (resizing en) = true -> planned en /\ process_released en = false;
}.

(** The books of the pool, with [P] bytes and [A] leases waiting for publication. *)
Record ledger (P A : Z) (p : pool) : Prop := {
  lg_ids : NoDup (leases p).*1;
  lg_names : NoDup (leases p).*2;
  lg_entries : forall id e, (id, e) ∈ leases p -> exists en, entries p !! e = Some en /\ entry_ok en;
  lg_reserved : reserved_bytes p = total held_bytes p;
  lg_active : active_leases p = total held_lease p;
  lg_growth : pending_resize_growth p = total held_growth p;
  lg_inflight : resize_inflight p = total held_inflight p;
  lg_pending : pending_reserved_bytes p = P;
  lg_admissions : pending_active_leases p = A;
  lg_sum : reserved_bytes p + pending_reserved_bytes p + pending_resize_growth p <= 2 * limit_bytes p;
  lg_bound : pending_resize_growth p <= limit_bytes p;
  lg_peak : reserved_bytes p <= peak_reserved_bytes p <= 2 * limit_bytes p;
  lg_violations : protocol_violations p = 0;
  lg_over : over_release_count p = 0 /\ over_release_bytes p = 0;
}.

Lemma total_of_ext w l objs objs' : (forall x, x ∈ l -> objs' !! snd x = objs !! snd x) -> total_of w l objs' = total_of w l objs.
Proof. induction l as [|x l IH]; intros Hx; [done|]. unfold total_of in *. cbn [foldr]. rewrite IH, (Hx x); [done|by left|]. intros y Hy. apply Hx. by right. Qed.

Lemma total_of_app w l k objs : total_of w (l ++ k) objs = total_of w l objs + total_of w k objs.
Proof. induction l as [|x l IH]; [done|]. unfold total_of in *. cbn [app foldr]. rewrite IH. lia. Qed.

(** One entry changes. *)
Definition changed (e : nat) (en : entry) (objs objs' : list entry) : Prop := objs' !! e = Some en /\ forall e', e' <> e -> objs' !! e' = objs !! e'.

Lemma changed_refl e en objs : objs !! e = Some en -> changed e en objs objs.
Proof. by split. Qed.

Lemma changed_alter e en objs objs' f : changed e en objs objs' -> changed e (f en) objs (alter f e objs').
Proof. intros [H1 H2]. split; [by rewrite list_lookup_alter_eq, H1|]. intros e' Hne. rewrite list_lookup_alter_ne by done. by apply H2. Qed.

Lemma changed_trans e en en' objs objs' objs'' : changed e en objs objs' -> changed e en' objs' objs'' -> changed e en' objs objs''.
Proof. intros [_ H2] [H1 H3]. split; [done|]. intros e' Hne. by rewrite H3, H2. Qed.

Lemma total_changed w l objs objs' id e en en' : NoDup l.*2 -> (id, e) ∈ l -> objs !! e = Some en -> changed e en' objs objs' ->
  total_of w l objs' = total_of w l objs - w en + w en'.
Proof.
  intros Hn Hin He [He' Ho]. apply list_elem_of_split in Hin as (l1 & l2 & ->). rewrite (cons_middle (id, e) l1 l2), !total_of_app. rewrite fmap_app, fmap_cons in Hn. cbn [snd] in Hn.
  apply NoDup_app in Hn as (_ & H1 & [H2 _]%NoDup_cons).
  rewrite (total_of_ext w l1 objs objs'), (total_of_ext w l2 objs objs').
  - unfold total_of at 2 5. cbn [foldr snd]. rewrite He, He'. cbn [default]. simpl. lia.
  - intros x Hx. apply Ho. intros E. apply H2. rewrite <- E. by apply list_elem_of_fmap_2.
  - intros x Hx. apply Ho. intros E. apply (H1 (snd x)); [by apply list_elem_of_fmap_2|]. rewrite E. left.
Qed.

Lemma total_nonneg w p P A : ledger P A p -> (forall en, entry_ok en -> 0 <= w en) -> 0 <= total w p.
Proof.
  intros Hl Hw. pose proof (lg_entries _ _ _ Hl) as He. unfold total. revert He. generalize (leases p) as l. induction l as [|[id e] l IH]; intros He; [done|].
  unfold total_of in *. cbn [foldr snd]. destruct (He id e ltac:(left)) as (en & -> & Hok). cbn. specialize (Hw en Hok). assert (0 <= foldr (fun x z => w (default blank_entry (entries p !! snd x)) + z) 0 l) by (apply IH; intros id' e' Hin; apply (He id' e'); by right). lia.
Qed.

Lemma held_parts_nonneg en : entry_ok en -> 0 <= held_bytes en /\ 0 <= held_lease en /\ 0 <= held_growth en /\ 0 <= held_inflight en.
Proof. intros [Hb Hg _ _ _ _ _]. unfold held_bytes, held_lease, held_growth, held_inflight. destruct (local_released en), (inflight _); lia. Qed.

(** One entry counts for no more than all of them. *)
Lemma total_covers w p P A id e en : ledger P A p -> (forall en, entry_ok en -> 0 <= w en) -> (id, e) ∈ leases p -> entries p !! e = Some en -> w en <= total w p.
Proof.
  intros Hl Hw Hin He. pose proof (lg_entries _ _ _ Hl) as Hall. unfold total. revert Hin Hall. generalize (leases p) as l. induction l as [|[id' e'] l IH]; intros Hin Hall; [by apply elem_of_nil in Hin|].
  unfold total_of in *. cbn [foldr snd]. destruct (Hall id' e' ltac:(left)) as (en' & He' & Hok'). rewrite He'. cbn.
  assert (Hrest : forall id0 e0, (id0, e0) ∈ l -> exists en0, entries p !! e0 = Some en0 /\ entry_ok en0) by (intros id0 e0 H0; apply (Hall id0 e0); by right).
  apply elem_of_cons in Hin as [[= -> ->]|Hin].
  - rewrite He in He'. injection He' as <-. enough (0 <= foldr (fun x z => w (default blank_entry (entries p !! snd x)) + z) 0 l) by lia.
    clear -Hrest Hw. induction l as [|[i x] l IH]; [done|]. cbn [foldr snd]. destruct (Hrest i x ltac:(left)) as (en & -> & Hok). cbn. specialize (Hw en Hok). assert (0 <= foldr (fun x z => w (default blank_entry (entries p !! snd x)) + z) 0 l) by (apply IH; intros; apply (Hrest id0 e0); by right). lia.
  - specialize (IH Hin Hrest). specialize (Hw en' Hok'). lia.
Qed.

(** Projections through the setters. *)
Ltac pools := cbn [limit_bytes reserved_bytes pending_reserved_bytes pending_active_leases resize_inflight pending_resize_growth peak_reserved_bytes active_leases closed
  close_complete close_outstanding_bytes close_active_leases over_release_count over_release_bytes lease_sequence leases entries unknown_lease_releases protocol_violations
  set_reserved set_pending set_pending_leases set_resizing set_growth set_peak set_active set_closed set_outstanding set_over set_sequence set_leases set_entries note_unknown violate on_entry].

(** The books after one entry and the counters have changed together. *)
Lemma ledger_change P A P' A' p p' id e en en' : ledger P A p -> (id, e) ∈ leases p -> entries p !! e = Some en -> entry_ok en' ->
  changed e en' (entries p) (entries p') -> leases p' = leases p -> limit_bytes p' = limit_bytes p ->
  reserved_bytes p' = reserved_bytes p - held_bytes en + held_bytes en' -> active_leases p' = active_leases p - held_lease en + held_lease en' ->
  pending_resize_growth p' = pending_resize_growth p - held_growth en + held_growth en' -> resize_inflight p' = resize_inflight p - held_inflight en + held_inflight en' ->
  pending_reserved_bytes p' = P' -> pending_active_leases p' = A' ->
  reserved_bytes p' + pending_reserved_bytes p' + pending_resize_growth p' <= 2 * limit_bytes p -> pending_resize_growth p' <= limit_bytes p ->
  reserved_bytes p' <= peak_reserved_bytes p' <= 2 * limit_bytes p -> protocol_violations p' = protocol_violations p ->
  over_release_count p' = over_release_count p -> over_release_bytes p' = over_release_bytes p -> ledger P' A' p'.
Proof.
  intros Hl Hin He Hok' Hch El Elim Er Ea Eg Ei HP HA Hsum Hbound Hpeak Ev Eoc Eob. pose proof Hl as [Hids Hnames Hent Hr Ha Hg Hi _ _ _ _ _ Hv [Ho1 Ho2]].
  assert (Ht : forall w, total w p' = total w p - w en + w en') by (intros w; unfold total; rewrite El; by eapply total_changed).
  split; rewrite ?El, ?Elim; try done; rewrite ?Ht; try lia.
  intros id' e' Hin'. destruct (decide (e' = e)) as [->|Hne]; [exists en'; split; [apply Hch|done]|]. destruct (Hent id' e' Hin') as (en0 & H0 & Hok0). exists en0. split; [|done]. destruct Hch as [_ Hch]. by rewrite Hch.
Qed.

(** The counters of admissions change. *)
Lemma ledger_counters P A P' A' p p' : ledger P A p -> leases p' = leases p -> entries p' = entries p -> limit_bytes p' = limit_bytes p ->
  reserved_bytes p' = reserved_bytes p -> active_leases p' = active_leases p -> pending_resize_growth p' = pending_resize_growth p -> resize_inflight p' = resize_inflight p ->
  pending_reserved_bytes p' = P' -> pending_active_leases p' = A' -> reserved_bytes p + P' + pending_resize_growth p <= 2 * limit_bytes p ->
  peak_reserved_bytes p' = peak_reserved_bytes p -> protocol_violations p' = protocol_violations p ->
  over_release_count p' = over_release_count p -> over_release_bytes p' = over_release_bytes p -> ledger P' A' p'.
Proof.
  intros [Hids Hnames Hent Hr Ha Hg Hi _ _ _ Hb Hpk Hv [Ho1 Ho2]] El Ee Elim Er Ea Eg Ei HP HA Hsum Ep Ev Eoc Eob.
  assert (Ht : forall w, total w p' = total w p) by (intros w; unfold total; by rewrite El, Ee). split; rewrite ?El, ?Ee, ?Elim; try done; rewrite ?Ht; try lia.
Qed.

Lemma authority_exact id owner capability p (Q : result nat -> nat -> pool -> Prop) :
  (forall e, zget id (leases p) = Some e -> owner_id (entry_at e p) = owner -> capability = e -> Q (Ok e) 0%nat p) -> (forall e, Q (Err e) 0%nat (note_unknown p)) ->
  wp 0 (_lease_entry_authority_locked id owner capability) Q p.
Proof.
  intros HQ Herr. unfold _lease_entry_authority_locked. wp_step. wp_step. destruct (zget id (leases p)) as [e|] eqn:Hz.
  - destruct (_ && _) eqn:Hm; [|wp_step; apply wp_store; [by wp_step|lia]]. apply andb_prop in Hm as [->%Nat.eqb_eq%symmetry ->%Nat.eqb_eq]. wp_step. by apply HQ.
  - wp_step. apply wp_store; [by wp_step|lia].
Qed.

Lemma unknown_ledger P A p : ledger P A p -> ledger P A (note_unknown p).
Proof. intros Hl. pose proof Hl as [_ _ _ _ _ _ _ HP HA Hs _ _ _ _]. eapply ledger_counters; [exact Hl|..]; pools; done || lia. Qed.

Lemma admit_exact P A p requested (Q : result bool -> nat -> pool -> Prop) : ledger P A p -> 0 <= requested ->
  (forall e, Q (Err e) 0%nat p) -> Q (Ok false) 0%nat p ->
  (forall p', ledger (P + requested) (A + 1) p' -> leases p' = leases p -> entries p' = entries p -> Q (Ok true) 0%nat p') -> wp 0 (begin_admission requested) Q p.
Proof.
  intros Hl Hreq Herr Hno Hyes. unfold begin_admission. wp_step. wp_step. destruct (closed p); [by wp_step|]. wp_step. wp_step. destruct (_ <? _) eqn:Hlim; [by wp_step|]. apply Z.ltb_ge in Hlim.
  wp_step. wp_step. wp_step. wp_step. wp_step. wp_step. wp_step. wp_step. wp_step. apply Hyes; [|done|done]. pose proof Hl as [_ _ _ _ _ _ _ HP HA _ Hb _ _ _].
  eapply ledger_counters; [exact Hl|..]; pools; done || lia.
Qed.

Lemma withdraw_exact P A p requested (Q : result unit -> nat -> pool -> Prop) : ledger P A p -> 0 <= requested <= P -> 0 < A ->
  (forall p', ledger (P - requested) (A - 1) p' -> leases p' = leases p -> entries p' = entries p -> Q (Ok tt) 0%nat p') -> wp 0 (_finish_pending_admission_locked requested) Q p.
Proof.
  intros Hl Hreq HA0 HQ. pose proof Hl as [_ _ _ _ _ _ _ HP HA Hs _ _ _ _]. unfold _finish_pending_admission_locked. wp_step. wp_step. wp_step. rewrite HA, (proj2 (Z.leb_gt _ _)) by lia.
  wp_step. apply wp_store; [|lia]. wp_step. wp_step. wp_step. pools. wp_step. rewrite HP, !(proj2 (Z.ltb_ge _ _)) by lia. cbn [orb]. wp_step. apply wp_store; [|lia]. wp_step. cbn [orb whenM]. wp_step.
  apply HQ; [|done|done]. eapply ledger_counters; [exact Hl|..]; pools; done || lia.
Qed.

Lemma ledger_publish P A p p' id e en requested : ledger P A p -> e = length (entries p) -> id ∉ (leases p).*1 -> entry_ok en -> held_bytes en = requested -> held_lease en = 1 ->
  held_growth en = 0 -> held_inflight en = 0 -> leases p' = leases p ++ [(id, e)] -> entries p' = entries p ++ [en] -> limit_bytes p' = limit_bytes p ->
  reserved_bytes p' = reserved_bytes p + requested -> active_leases p' = active_leases p + 1 -> pending_resize_growth p' = pending_resize_growth p -> resize_inflight p' = resize_inflight p ->
  pending_reserved_bytes p' = P - requested -> pending_active_leases p' = A - 1 -> peak_reserved_bytes p' = Z.max (peak_reserved_bytes p) (reserved_bytes p + requested) ->
  0 <= requested <= P -> protocol_violations p' = protocol_violations p -> over_release_count p' = over_release_count p -> over_release_bytes p' = over_release_bytes p ->
  ledger (P - requested) (A - 1) p'.
Proof.
  intros Hl -> Hid Hok Hb Hle Hgr Hif El Ee Elim Er Ea Eg Ei EP EA Ep Hreq Ev Eoc Eob. pose proof Hl as [Hids Hnames Hent Hr Ha Hg Hi HP HA Hsum Hbound Hpk Hv [Ho1 Ho2]].
  assert (Hold : forall id' e', (id', e') ∈ leases p -> (e' < length (entries p))%nat) by (intros id' e' Hin; destruct (Hent id' e' Hin) as (x & Hx & _); by apply lookup_lt_Some in Hx).
  assert (Ht : forall w, total w p' = total w p + w en).
  { intros w. unfold total. rewrite El, Ee, total_of_app. f_equal.
    - apply total_of_ext. intros [id' e'] Hin. cbn [snd]. apply lookup_app_l. by apply (Hold id').
    - unfold total_of. cbn [foldr snd]. rewrite lookup_app_r, Nat.sub_diag by done. cbn. lia. }
  pose proof (total_nonneg held_growth p P A Hl ltac:(intros x Hx; by apply held_parts_nonneg)) as Hg0. rewrite <- Hg in Hg0.
  split; rewrite ?El, ?Ee, ?Elim, ?Ht; try done; try lia.
  - rewrite fmap_app. apply NoDup_app. split; [done|split; [|apply NoDup_singleton]]. by intros x Hx ->%list_elem_of_singleton.
  - rewrite fmap_app. apply NoDup_app. split; [done|split; [|apply NoDup_singleton]]. intros x ([id' e'] & E & Hin)%list_elem_of_fmap Hx%list_elem_of_singleton. simpl in E, Hx. apply Hold in Hin. lia.
  - intros id' e' [Hin|[= -> ->]%list_elem_of_singleton]%elem_of_app.
    + destruct (Hent id' e' Hin) as (x & Hx & Hokx). exists x. split; [by apply lookup_app_l_Some|done].
    + exists en. split; [|done]. by rewrite lookup_app_r, Nat.sub_diag.
Qed.

Lemma publish_exact P A p owner requested key path inodes c t (Q : result (Z * nat) -> nat -> pool -> Prop) : ledger P A p -> 0 <= requested <= P -> 0 < A -> (forall e, Q (Err e) 0%nat p) ->
  (forall id p', ledger (P - requested) (A - 1) p' -> leases p' = leases p ++ [(id, length (entries p))] ->
    (exists en, entries p' = entries p ++ [en] /\ inflight (resizing en) = false) -> Q (Ok (id, length (entries p))) 0%nat p') ->
  wp 0 (publish owner requested key path inodes c t) Q p.
Proof.
  intros Hl Hreq HA0 Herr HQ. pose proof Hl as [_ _ _ _ _ _ _ HP HA _ _ _ _ _]. unfold publish. wp_step. wp_step. rewrite HP, HA, (proj2 (Z.ltb_ge _ _)), (proj2 (Z.leb_gt _ _)) by lia. cbn [orb].
  wp_step. unfold _publish_lease_locked. wp_step. wp_step. wp_step. wp_step. pose proof (proj2 (next_reusable_token_first (lease_sequence p) (list_to_set (leases p).*1))) as Hfree.
  destruct (next_reusable_token _ _) as [id|]; [|by wp_step]. destruct Hfree as (_ & Hfree & _). rewrite elem_of_list_to_set in Hfree.
  wp_step. wp_step. wp_step. wp_step. wp_step. apply wp_store; [|lia]. wp_step. apply wp_store; [|lia]. wp_step. pools. do 5 (wp_step; apply wp_store; [|lia]). wp_step.
  apply HQ; [|done|by eexists]. eapply (ledger_publish P A p _ id (length (entries p)) _ requested Hl); pools; try done. all: try reflexivity; try lia.
  split; cbn; try done; lia.
Qed.

(** An entry outside the resize fields. *)
Definition same_lease (en en' : entry) : Prop :=
  owner_id en' = owner_id en /\ release_inflight en' = release_inflight en /\ process_released en' = process_released en /\ local_released en' = local_released en
  /\ replay_released en' = replay_released en /\ control_ticket en' = control_ticket en.

Lemma same_lease_trans en en1 en2 : same_lease en en1 -> same_lease en1 en2 -> same_lease en en2.
Proof. intros (? & ? & ? & ? & ? & ?) (? & ? & ? & ? & ? & ?). repeat split; congruence. Qed.

Lemma entry_at_eq e p en : entries p !! e = Some en -> entry_at e p = en.
Proof. intros E. unfold entry_at. by rewrite E. Qed.

Lemma entry_at_alter e p en f : entries p !! e = Some en -> entry_at e (on_entry e f p) = f en.
Proof. intros E. unfold entry_at. pools. by rewrite list_lookup_alter_eq, E. Qed.

Ltac alters := repeat first [apply changed_alter|by apply changed_refl].

(** A section that works on one entry and leaves the books balanced. *)
Record section_done (P A : Z) (e : nat) (p p' : pool) (en' : entry) : Prop := {
  sd_ledger : ledger P A p';
  sd_changed : changed e en' (entries p) (entries p');
  sd_leases : leases p' = leases p;
}.

Lemma section_done_trans P A P' A' e p p1 p2 en1 en2 : section_done P A e p p1 en1 -> section_done P' A' e p1 p2 en2 -> section_done P' A' e p p2 en2.
Proof. intros [_ Hc El] [Hl Hc' El']. split; [done|by eapply changed_trans|congruence]. Qed.

(** A change of an entry that no counter sees. *)
Lemma note_exact P A p id e en f : ledger P A p -> (id, e) ∈ leases p -> entries p !! e = Some en -> entry_ok (f en) ->
  held_bytes (f en) = held_bytes en -> held_lease (f en) = held_lease en -> held_growth (f en) = held_growth en -> held_inflight (f en) = held_inflight en ->
  section_done P A e p (on_entry e f p) (f en).
Proof.
  intros Hl Hin He Hok H1 H2 H3 H4. pose proof Hl as [_ _ _ _ _ _ _ HP HA Hsum Hbound Hpk _ _].
  assert (Hc : changed e (f en) (entries p) (entries (on_entry e f p))) by (pools; by apply changed_alter, changed_refl).
  split; [|done|done]. eapply (ledger_change P A P A p _ id e en (f en) Hl); pools; done || lia.
Qed.

(** The fields the books look at. *)
Definition same_books (en en' : entry) : Prop :=
  entry_bytes en' = entry_bytes en /\ replay_released en' = replay_released en /\ process_released en' = process_released en /\ local_released en' = local_released en
  /\ inflight (resizing en') = inflight (resizing en) /\ reconcile (resizing en') = reconcile (resizing en) /\ target_bytes (resizing en') = target_bytes (resizing en)
  /\ target_path (resizing en') = target_path (resizing en) /\ pending_delta (resizing en') = pending_delta (resizing en) /\ pending_growth (resizing en') = pending_growth (resizing en).

Lemma planned_like en en' : same_books en en' -> planned en -> planned en'.
Proof. intros (E1 & E0 & E2 & E3 & E4 & E5 & E6 & E7 & E8 & E9) []. split; rewrite ?E1, ?E6, ?E7, ?E8, ?E9; done. Qed.

Lemma entry_ok_like en en' : same_books en en' -> entry_ok en -> entry_ok en'.
Proof.
  intros Hs [H1 H2 H0 H3 H4 H5 H6]. pose proof (planned_like en en' Hs) as Hp. destruct Hs as (E1 & E0 & E2 & E3 & E4 & E5 & E6 & E7 & E8 & E9).
  split; rewrite ?E1, ?E0, ?E2, ?E3, ?E4, ?E5, ?E9; try done; intros Hx; [destruct (H5 Hx)|destruct (H6 Hx)]; auto.
Qed.

Lemma note_like P A p id e en f : ledger P A p -> (id, e) ∈ leases p -> entries p !! e = Some en -> same_books en (f en) -> section_done P A e p (on_entry e f p) (f en).
Proof.
  intros Hl Hin He Hs. destruct (lg_entries _ _ _ Hl id e Hin) as (en0 & He0 & Hok). rewrite He in He0. injection He0 as <-. pose proof Hs as (E1 & E0 & E2 & E3 & E4 & E5 & E6 & E7 & E8 & E9).
  eapply note_exact; [done..|by eapply entry_ok_like| | | |]; unfold held_bytes, held_lease, held_growth, held_inflight; by rewrite ?E1, ?E3, ?E4, ?E9.
Qed.

(** The commit of a resize that has been planned. *)
Definition resized (path : nat) (en : entry) : entry :=
  on_resize (with_growth 0) (on_resize (with_delta 0) (on_resize (with_target_path None) (on_resize (with_target_key (-1)) (on_resize (with_target 0)
    (on_resize (with_reconcile false) (with_path path (with_key (target_key (resizing en)) (with_bytes (target_bytes (resizing en)) en)))))))).

Lemma finish_planned P A p id e en path (Q : result unit -> nat -> pool -> Prop) : ledger P A p -> (id, e) ∈ leases p -> entries p !! e = Some en -> planned en ->
  target_path (resizing en) = Some path -> local_released en = false -> inflight (resizing en) = false ->
  0 <= reserved_bytes p + pending_delta (resizing en) <= limit_bytes p ->
  (forall p', section_done P A e p p' (resized path en) -> Q (Ok tt) 0%nat p') ->
  wp 0 (let r := resizing (entry_at e p) in
        let next_reserved := reserved_bytes p + pending_delta r in
        store (set_reserved next_reserved);;
        store (set_peak (Z.max (peak_reserved_bytes p) next_reserved));;
        store (set_growth (pending_resize_growth p - pending_growth r));;
        store (on_entry e (with_bytes (target_bytes r)));;
        store (fun p => on_entry e (with_key (target_key (resizing (entry_at e p)))) p);;
        store (on_entry e (with_path path));;
        store (on_entry e (on_resize (with_reconcile false)));;
        clear_target e) Q p.
Proof.
  intros Hl Hin He [_ Htgt Hdelta Hgrowth] Hpath Hnl Hnf Hrange HQ. cbv zeta. rewrite (entry_at_eq e p en He). unfold clear_target.
  do 4 (wp_step; apply wp_store; [|lia]). wp_step. apply wp_store; [|lia]. rewrite (entry_at_alter e _ en) by done. cbn [resizing with_bytes target_key]. do 2 (wp_step; apply wp_store; [|lia]).
  do 4 (wp_step; apply wp_store; [|lia]). apply wp_store; [|lia]. apply (HQ _). pose proof Hl as [_ _ _ Hr _ Hg _ HP HA Hsum Hbound Hpk _ _].
  destruct (lg_entries _ _ _ Hl id e Hin) as (en0 & He0 & Hok0). rewrite He in He0. injection He0 as <-.
  assert (Hok : entry_ok (resized path en)) by (split; cbn; try done; try lia; try (intros; congruence); apply Hok0).
  assert (Hb : held_bytes (resized path en) = target_bytes (resizing en) /\ held_bytes en = entry_bytes en) by (unfold held_bytes, resized; cbn; by rewrite Hnl).
  assert (Hle : held_lease (resized path en) = held_lease en) by (unfold held_lease, resized; cbn; done).
  assert (Hgr : held_growth (resized path en) = 0) by done.
  assert (Hif : held_inflight (resized path en) = held_inflight en) by done.
  split; [|pools; unfold resized; by alters|done]. eapply (ledger_change P A P A p _ id e en (resized path en) Hl); pools; try done; try (unfold held_growth in *; lia).
  unfold resized. by alters.
Qed.

(** The size of an entry once the resize that waits for reconciliation is committed. *)
Definition settled_bytes (en : entry) : Z := if reconcile (resizing en) then target_bytes (resizing en) else entry_bytes en.

Lemma finish_resize_exact P A p id e en (Q : result unit -> nat -> pool -> Prop) : ledger P A p -> (id, e) ∈ leases p -> entries p !! e = Some en ->
  (forall err p' en', section_done P A e p p' en' -> same_lease en en' -> inflight (resizing en') = inflight (resizing en) ->
    ~ (0 <= reserved_bytes p + pending_delta (resizing en) <= limit_bytes p) -> Q (Err err) 0%nat p') ->
  (forall p' en', section_done P A e p p' en' -> same_lease en en' -> inflight (resizing en') = inflight (resizing en) -> reconcile (resizing en') = false ->
    entry_bytes en' = settled_bytes en -> Q (Ok tt) 0%nat p') ->
  wp 0 (_finish_pending_resize_locked e) Q p.
Proof.
  intros Hl Hin He Herr HQ. destruct (lg_entries _ _ _ Hl id e Hin) as (en0 & He0 & Hok). rewrite He in He0. injection He0 as <-.
  unfold _finish_pending_resize_locked. wp_step. wp_step. rewrite (entry_at_eq e p en He). destruct (reconcile (resizing en)) eqn:Hrec; cbn [whenM].
  2: { wp_step. eapply HQ; [split; [exact Hl|by apply changed_refl|done]|by repeat split|done|done|]. unfold settled_bytes. by rewrite Hrec. }
  destruct (eo_reconcile _ Hok Hrec) as [Hpl Hnr]. assert (Hnf : inflight (resizing en) = false) by (destruct (inflight _) eqn:Hf; [destruct (eo_inflight _ Hok Hf); congruence|done]).
  assert (Hnl : local_released en = false) by (destruct (local_released en) eqn:E; [pose proof (eo_local _ Hok E); congruence|done]).
  wp_step. wp_step. rewrite (entry_at_eq e p en He). wp_step.
  assert (Hrest : forall p1 en1, section_done P A e p p1 en1 -> same_lease en en1 -> planned en1 -> inflight (resizing en1) = false -> target_bytes (resizing en1) = target_bytes (resizing en) ->
    pending_delta (resizing en1) = pending_delta (resizing en) -> reserved_bytes p1 = reserved_bytes p -> limit_bytes p1 = limit_bytes p -> wp 0 (
      p2 ← reads (fun p => p);
      let r := resizing (entry_at e p2) in
      match target_path r with
      | None => raise RuntimeError
      | Some path =>
        let next_reserved := reserved_bytes p2 + pending_delta r in
        if (next_reserved <? 0) || (limit_bytes p2 <? next_reserved) then raise RuntimeError
        else if (pending_growth r <? 0) || (pending_resize_growth p2 <? pending_growth r) then store violate;; raise RuntimeError
        else
          store (set_reserved next_reserved);;
          store (set_peak (Z.max (peak_reserved_bytes p2) next_reserved));;
          store (set_growth (pending_resize_growth p2 - pending_growth r));;
          store (on_entry e (with_bytes (target_bytes r)));;
          store (fun p => on_entry e (with_key (target_key (resizing (entry_at e p)))) p);;
          store (on_entry e (with_path path));;
          store (on_entry e (on_resize (with_reconcile false)));;
          clear_target e
      end) Q p1).
  { intros p1 en1 Hs1 Hsame Hpl1 Hnf1 Htb Hde Hre Hli. pose proof Hs1 as [Hl1 [He1 _] El1]. pose proof Hpl1 as [[path Hpath] Htgt Hdelta Hgrowth]. rewrite <- El1 in Hin.
    wp_step. wp_step. cbv zeta. rewrite (entry_at_eq e p1 en1 He1), Hpath. destruct (_ || _) eqn:Hlim.
    { wp_step. eapply Herr; [exact Hs1|done|congruence|]. rewrite <- Hde, <- Hre, <- Hli. apply orb_true_iff in Hlim as [?%Z.ltb_lt|?%Z.ltb_lt]; lia. }
    apply orb_false_iff in Hlim as [H1%Z.ltb_ge H2%Z.ltb_ge].
    pose proof (total_covers held_growth p1 P A id e en1 Hl1 ltac:(intros x Hx; by apply held_parts_nonneg) Hin He1) as Hcov. rewrite <- (lg_growth _ _ _ Hl1) in Hcov. unfold held_growth in Hcov.
    rewrite !(proj2 (Z.ltb_ge _ _)) by lia. cbn [orb]. pose proof (finish_planned P A p1 id e en1 path Q Hl1 Hin He1 Hpl1 Hpath) as Hf. rewrite (entry_at_eq e p1 en1 He1) in Hf. apply Hf; [|done|lia|].
    - destruct Hsame as (_ & _ & _ & -> & _). done.
    - intros p' Hs'. eapply HQ; [by eapply section_done_trans|by destruct Hsame as (? & ? & ? & ? & ? & ?); repeat split|cbn; congruence|done|]. unfold settled_bytes. rewrite Hrec, <- Htb. done. }
  destruct (replacement (resizing en)) as [c|] eqn:Hrep.
  - wp_step. apply wp_store; [|lia]. apply wp_store; [|lia].
    pose proof (note_like P A p id e en (with_capability c) Hl Hin He ltac:(by repeat split)) as Hs1. pose proof Hs1 as [Hl1 [He1 _] El1].
    rewrite <- El1 in Hin. pose proof (note_like P A _ id e _ (on_resize (with_new_capability None)) Hl1 Hin He1 ltac:(by repeat split)) as Hs2.
    eapply Hrest; [by eapply section_done_trans|by repeat split| |done..]; by apply (planned_like en).
  - wp_step. eapply Hrest; [split; [exact Hl|by apply changed_refl|done]|by repeat split|done..].
Qed.

Lemma entry_of P A p id e : ledger P A p -> zget id (leases p) = Some e -> exists en, entries p !! e = Some en /\ entry_ok en /\ (id, e) ∈ leases p.
Proof. intros Hl Hz. apply zget_elem in Hz as Hin. destruct (lg_entries _ _ _ Hl id e Hin) as (en & He & Hok). by exists en. Qed.

Definition began (requested key : Z) (path : nat) (en : entry) : entry :=
  on_resize (with_inflight true) (on_resize (with_growth (Z.max 0 (requested - entry_bytes en))) (on_resize (with_delta (requested - entry_bytes en))
    (on_resize (with_target_path (Some path)) (on_resize (with_target_key key) (on_resize (with_target requested) en))))).

(** What a resize of the entry to [requested] bytes would bring the pool to. *)
Definition resize_total (requested : Z) (en : entry) (p : pool) : Z := reserved_bytes p + pending_reserved_bytes p + pending_resize_growth p + Z.max 0 (requested - entry_bytes en).

(** The last steps of the section, on an entry with no resize. *)
Lemma plan_exact P A p id e en requested key path (Q : result nat -> nat -> pool -> Prop) : ledger P A p -> 0 <= P -> 0 <= requested -> (id, e) ∈ leases p -> entries p !! e = Some en ->
  inflight (resizing en) = false -> reconcile (resizing en) = false ->
  (limit_bytes p < resize_total requested en p -> Q (Err (ResourceError "temporary_storage_bytes" (limit_bytes p) (resize_total requested en p))) 0%nat p) ->
  (resize_total requested en p <= limit_bytes p -> forall p', section_done P A e p p' (began requested key path en) -> reserved_bytes p' = reserved_bytes p -> limit_bytes p' = limit_bytes p -> Q (Ok e) 0%nat p') ->
  wp 0 (p ← reads (fun p => p);
        let growth := requested - entry_bytes (entry_at e p) in
        let growth_charge := Z.max 0 growth in
        let admission_total := reserved_bytes p + pending_reserved_bytes p + pending_resize_growth p + growth_charge in
        if limit_bytes p <? admission_total then raise (ResourceError "temporary_storage_bytes" (limit_bytes p) admission_total)
        else
          store (on_entry e (on_resize (with_target requested)));;
          store (on_entry e (on_resize (with_target_key key)));;
          store (on_entry e (on_resize (with_target_path (Some path))));;
          store (on_entry e (on_resize (with_delta growth)));;
          store (on_entry e (on_resize (with_growth growth_charge)));;
          store (on_entry e (on_resize (with_inflight true)));;
          store (set_resizing (resize_inflight p + 1));;
          store (set_growth (pending_resize_growth p + growth_charge));;
          ret e) Q p.
Proof.
  intros Hl HP0 Hreq Hin He Hb Hrec Herr HQ. wp_step. wp_step. cbv zeta. rewrite (entry_at_eq e p en He). fold (resize_total requested en p). destruct (_ <? _) eqn:Hlim; [apply Z.ltb_lt in Hlim; wp_step; by apply Herr|]. apply Z.ltb_ge in Hlim.
  do 8 (wp_step; apply wp_store; [|lia]). wp_step. pose proof Hl as [_ _ _ Hr _ Hg _ HP HA Hsum Hbound Hpk _ _]. destruct (lg_entries _ _ _ Hl id e Hin) as (en0 & He0 & Hok1). rewrite He in He0. injection He0 as <-.
  pose proof (eo_idle _ Hok1 Hb Hrec) as Hg0. pose proof (total_nonneg held_bytes p P A Hl ltac:(intros x Hx; by apply held_parts_nonneg)) as Hr0. rewrite <- Hr in Hr0.
  assert (Hok2 : entry_ok (began requested key path en)).
  { destruct Hok1 as [H1 H2 H0 H3 _ _ _]. unfold began. split; cbn; try done; try lia. intros; congruence. }
  apply HQ; [done| |done|done]. split; [|unfold began; pools; by alters|done].
  pose proof (total_nonneg held_growth p P A Hl ltac:(intros x Hx; by apply held_parts_nonneg)) as Hgt. rewrite <- Hg in Hgt. unfold resize_total in Hlim.
  eapply (ledger_change P A P A p _ id e en _ Hl Hin He Hok2); pools; unfold held_growth, held_inflight, began in *; cbn in *; rewrite ?Hb, ?Hg0; try done; try lia; try (unfold held_bytes, held_lease; cbn; lia). by alters.
Qed.

Lemma begin_resize_exact P A p id owner capability requested key path (Q : result nat -> nat -> pool -> Prop) : ledger P A p -> 0 <= P -> 0 <= requested ->
  (forall err, Q (Err err) 0%nat p) -> (forall err, Q (Err err) 0%nat (note_unknown p)) ->
  (forall err e en p' en', capability = e -> entries p !! e = Some en -> section_done P A e p p' en' -> same_lease en en' -> inflight (resizing en') = inflight (resizing en) -> Q (Err err) 0%nat p') ->
  (forall e en p' en', zget id (leases p) = Some e -> entries p !! e = Some en -> owner_id en = owner -> capability = e -> section_done P A e p p' en' -> same_lease en en' ->
    inflight (resizing en) = false -> inflight (resizing en') = true -> target_bytes (resizing en') = requested -> entry_bytes en' = settled_bytes en -> Q (Ok e) 0%nat p') ->
  wp 0 (begin_resize id owner capability requested key path) Q p.
Proof.
  intros Hl HP0 Hreq Herr Hunk Hmid HQ. unfold begin_resize. wp_step. wp_step. destruct (closed p); [by wp_step|]. wp_step. apply authority_exact; [|done]. intros e Hz Hown Hcap.
  destruct (entry_of P A p id e Hl Hz) as (en & He & Hok & Hin). rewrite (entry_at_eq e p en He) in Hown. wp_step.
  apply (finish_resize_exact P A p id e en); [done|done|done|intros err p' en' Hs Hsame Hif _; by eapply Hmid|]. intros p1 en1 Hs1 Hsame1 Hif1 Hrec1 Heb1. pose proof Hs1 as [Hl1 [He1 _] El1]. rewrite <- El1 in Hin.
  wp_step. wp_step. rewrite (entry_at_eq e p1 en1 He1). destruct (inflight (resizing en1)) eqn:Hb; [wp_step; eapply Hmid; [exact Hcap|exact He|exact Hs1|done|congruence]|].
  apply (plan_exact P A p1 id e en1); [done|done|done|done|done|done|done|intros _; eapply Hmid; [exact Hcap|exact He|exact Hs1|done|congruence]|]. intros _ p' Hs _ _.
  eapply (HQ e en p' (began requested key path en1)); [done..|by eapply section_done_trans|by eapply same_lease_trans; [exact Hsame1|repeat split]|congruence|done|done|done].
Qed.

(** The caller's entry answers to its names. *)
Lemma authority_mine id owner e en p (Q : result nat -> nat -> pool -> Prop) : zget id (leases p) = Some e -> entries p !! e = Some en -> owner_id en = owner -> Q (Ok e) 0%nat p ->
  wp 0 (_lease_entry_authority_locked id owner e) Q p.
Proof. intros Hz He Ho HQ. unfold _lease_entry_authority_locked. wp_step. wp_step. rewrite Hz, (entry_at_eq e p en He), Ho, !Nat.eqb_refl. cbn [andb]. by wp_step. Qed.

Definition undone (en : entry) : entry :=
  on_resize (with_growth 0) (on_resize (with_delta 0) (on_resize (with_target_path None) (on_resize (with_target_key (-1)) (on_resize (with_target 0) (on_resize (with_inflight false) en))))).

Lemma undo_exact P A p id owner e en (Q : result unit -> nat -> pool -> Prop) : ledger P A p -> zget id (leases p) = Some e -> entries p !! e = Some en -> owner_id en = owner -> inflight (resizing en) = true ->
  (forall p' , section_done P A e p p' (undone en) -> Q (Ok tt) 0%nat p') -> wp 0 (undo_resize id owner e e) Q p.
Proof.
  intros Hl Hz He Ho Hf HQ. destruct (entry_of P A p id e Hl Hz) as (en0 & He0 & Hok & Hin). rewrite He in He0. injection He0 as <-. unfold undo_resize. wp_step. eapply authority_mine; [done..|].
  wp_step. wp_step. rewrite Nat.eqb_refl, (entry_at_eq e p en He), Hf. cbn [andb whenM]. wp_step. apply wp_store; [|lia]. wp_step. unfold _finish_resize_inflight_locked. wp_step. wp_step. pools.
  pose proof (total_covers held_inflight p P A id e en Hl ltac:(intros x Hx; by apply held_parts_nonneg) Hin He) as Hc1. pose proof (total_covers held_growth p P A id e en Hl ltac:(intros x Hx; by apply held_parts_nonneg) Hin He) as Hc2.
  pose proof Hl as [_ _ _ Hr _ Hg Hi HP HA Hsum Hbound Hpk _ _]. rewrite <- Hi in Hc1. rewrite <- Hg in Hc2. unfold held_inflight in Hc1. rewrite Hf in Hc1. unfold held_growth in Hc2. pose proof (eo_growth _ Hok) as Hg0.
  rewrite (proj2 (Z.leb_gt _ _)) by lia. apply wp_store; [|lia]. wp_step. wp_step. assert (Hen : forall z, entry_at e (set_resizing z (on_entry e (on_resize (with_inflight false)) p)) = on_resize (with_inflight false) en) by (intros z; by apply entry_at_alter).
  rewrite Hen. cbn [on_resize resizing with_inflight pending_growth]. wp_step. unfold _consume_pending_resize_growth_locked. wp_step. wp_step. pools. rewrite !(proj2 (Z.ltb_ge _ _)) by lia. cbn [orb].
  wp_step. apply wp_store; [|lia]. wp_step. unfold clear_target. do 4 (wp_step; apply wp_store; [|lia]). apply wp_store; [|lia]. apply HQ.
  assert (Hok' : entry_ok (undone en)) by (destruct Hok as [H1 H2 H0 H3 _ Hp _]; split; cbn; try done; intros Hx; destruct (Hp Hf); congruence).
  split; [|unfold undone; pools; by alters|done]. eapply (ledger_change P A P A p _ id e en (undone en) Hl Hin He Hok'); pools; unfold held_growth, held_inflight, held_bytes, held_lease, undone in *; cbn in *; rewrite ?Hf; try done; try lia.
  by alters.
Qed.

Definition recorded (new : nat) (en : entry) : entry := on_resize (with_inflight false) (on_resize (with_reconcile true) (on_resize (with_new_capability (Some new)) en)).

Lemma commit_resize_exact P A p id owner e en new (Q : result (Z * nat) -> nat -> pool -> Prop) : ledger P A p -> zget id (leases p) = Some e -> entries p !! e = Some en -> owner_id en = owner ->
  inflight (resizing en) = true -> process_released en = false ->
  (forall r p' en', section_done P A e p p' en' -> same_lease en en' -> inflight (resizing en') = false ->
    (forall v, r = Ok v -> reconcile (resizing en') = false /\ entry_bytes en' = target_bytes (resizing en)) ->
    (forall x, r = Err x -> ~ (0 <= reserved_bytes p + pending_delta (resizing en) <= limit_bytes p)) -> Q r 0%nat p') -> wp 0 (commit_resize id owner e e new) Q p.
Proof.
  intros Hl Hz He Ho Hf Hnr HQ. destruct (entry_of P A p id e Hl Hz) as (en0 & He0 & Hok & Hin). rewrite He in He0. injection He0 as <-. unfold commit_resize. do 2 (wp_step; apply wp_store; [|lia]).
  set (p1 := on_entry e (on_resize (with_reconcile true)) (on_entry e (on_resize (with_new_capability (Some new))) p)).
  assert (He1 : entries p1 !! e = Some (on_resize (with_reconcile true) (on_resize (with_new_capability (Some new)) en))) by (unfold p1; pools; by rewrite !list_lookup_alter_eq, He).
  wp_step. wp_step. wp_step. eapply authority_mine; [done|exact He1|done|]. wp_step. wp_step. wp_step. rewrite (entry_at_eq _ _ _ He1), Nat.eqb_refl. cbn [on_resize resizing with_reconcile with_new_capability inflight]. rewrite Hf. cbn [andb].
  pose proof (total_covers held_inflight p P A id e en Hl ltac:(intros x Hx; by apply held_parts_nonneg) Hin He) as Hc1. pose proof Hl as [_ _ _ Hr _ Hg Hi HP HA Hsum Hbound Hpk _ _]. rewrite <- Hi in Hc1. unfold held_inflight in Hc1. rewrite Hf in Hc1.
  wp_step. apply wp_store; [|lia]. wp_step. unfold _finish_resize_inflight_locked. wp_step. wp_step. pools. unfold p1 at 1 2. pools. rewrite (proj2 (Z.leb_gt _ _)) by lia. apply wp_store; [|lia]. wp_step.
  destruct (eo_inflight _ Hok Hf) as [Hpl Hrec].
  assert (Hok' : entry_ok (recorded new en)) by (destruct Hok as [H1 H2 H0 H3 _ _ _]; split; cbn; try done; intros _; split; [by destruct Hpl|done]).
  assert (Hs1 : section_done P A e p (set_resizing (resize_inflight p - 1) (on_entry e (on_resize (with_inflight false)) p1)) (recorded new en)).
  { split; [|unfold recorded, p1; pools; by alters|done]. eapply (ledger_change P A P A p _ id e en (recorded new en) Hl Hin He Hok'); unfold p1; pools; unfold held_growth, held_inflight, held_bytes, held_lease, recorded in *; cbn in *; rewrite ?Hf; try done; try lia. by alters. }
  pose proof Hs1 as [Hl1 [He1' _] El1]. rewrite <- El1 in Hin.
  eapply (finish_resize_exact P A _ id e _ _ Hl1 Hin He1').
  - intros err p' en' Hs Hsame Hif Hrange. eapply HQ; [by eapply section_done_trans|by destruct Hsame as (? & ? & ? & ? & ? & ?); repeat split|by rewrite Hif|done|done].
  - intros p' en' Hs Hsame Hif Hr1 Hb1. wp_step. eapply HQ; [by eapply section_done_trans|by destruct Hsame as (? & ? & ? & ? & ? & ?); repeat split|by rewrite Hif|done|done].
Qed.

Lemma claim_exact P A p id owner capability (Q : result (option (nat * option nat)) -> nat -> pool -> Prop) : ledger P A p ->
  Q (Ok None) 0%nat p -> (forall err, Q (Err err) 0%nat (note_unknown p)) ->
  (forall err e en p' en', capability = e -> entries p !! e = Some en -> section_done P A e p p' en' -> same_lease en en' -> inflight (resizing en') = inflight (resizing en) -> Q (Err err) 0%nat p') ->
  (forall e en u p' en', zget id (leases p) = Some e -> entries p !! e = Some en -> owner_id en = owner -> capability = e -> section_done P A e p p' en' -> owner_id en' = owner_id en ->
    process_released en' = process_released en -> inflight (resizing en') = inflight (resizing en) -> reconcile (resizing en') = false -> (u = None -> process_released en = true) ->
    Q (Ok (Some (e, u))) 0%nat p') ->
  wp 0 (claim_release id owner capability) Q p.
Proof.
  intros Hl Hnone Hunk Herr HQ. unfold claim_release. wp_step. wp_step. wp_step. wp_step. destruct (zget id (leases p)) as [e|] eqn:Hz.
  2: { destruct (replay_released _); [by wp_step|]. wp_step. apply wp_store; [by wp_step|lia]. }
  destruct (entry_of P A p id e Hl Hz) as (en & He & Hok & Hin). wp_step. wp_step. rewrite (entry_at_eq e p en He). destruct (_ && _) eqn:Hm; cbn [negb]; [|wp_step; apply wp_store; [by wp_step|lia]].
  apply andb_prop in Hm as [Ho%Nat.eqb_eq ->%Nat.eqb_eq]. rewrite (entry_at_eq e p en He), (eo_replay _ Hok). wp_step.
  eapply (finish_resize_exact P A _ id e _ _ Hl Hin He); [intros; by eapply Herr|]. intros p1 en1 Hs1 Hsame Hif Hrec Heb. pose proof Hs1 as [Hl1 [He1 _] El1]. wp_step. wp_step. rewrite (entry_at_eq e p1 en1 He1).
  destruct (process_released en1) eqn:Hpr; cbn [negb].
  - wp_step. destruct Hsame as (? & ? & ? & ? & ? & ?). eapply HQ; [done|done|done|done|exact Hs1|done|congruence|done|done|intros; congruence].
  - wp_step. apply wp_store; [|lia]. wp_step. rewrite <- El1 in Hin. pose proof (note_like P A p1 id e en1 (with_release_inflight true) Hl1 Hin He1 ltac:(by repeat split)) as Hs2.
    destruct Hsame as (? & ? & ? & ? & ? & ?). eapply HQ; [done|done|done|done|by eapply section_done_trans|done|cbn; congruence|done|done|done].
Qed.

(** ** The sections of a release *)

Section Release.
Context (P A : Z) (p : pool) (id : Z) (owner e : nat) (en : entry).
Hypothesis Hl : ledger P A p.
Hypothesis Hz : zget id (leases p) = Some e.
Hypothesis He : entries p !! e = Some en.
Hypothesis Ho : owner_id en = owner.

Lemma mine_ok : entry_ok en /\ (id, e) ∈ leases p.
Proof. destruct (entry_of P A p id e Hl Hz) as (en0 & He0 & Hok & Hin). rewrite He in He0. by injection He0 as <-. Qed.

Lemma refused_exact (Q : result unit -> nat -> pool -> Prop) :
  (forall p', section_done P A e p p' (with_release_inflight false en) -> Q (Ok tt) 0%nat p') -> wp 0 (release_refused id owner e e) Q p.
Proof.
  intros HQ. destruct mine_ok as [Hok Hin]. unfold release_refused. wp_step. eapply authority_mine; [done..|]. rewrite Nat.eqb_refl. cbn [whenM]. apply wp_store; [|lia]. apply HQ.
  apply (note_like P A p id e en (with_release_inflight false)); done.
Qed.

Lemma accepted_exact (Q : result unit -> nat -> pool -> Prop) : reconcile (resizing en) = false ->
  (forall p', section_done P A e p p' (with_release_inflight false (with_process_released en)) -> Q (Ok tt) 0%nat p') -> wp 0 (release_accepted id owner e e) Q p.
Proof.
  intros Hrec HQ. destruct mine_ok as [Hok Hin]. unfold release_accepted. wp_step. eapply authority_mine; [done..|]. rewrite Nat.eqb_refl. cbn [negb]. wp_step. apply wp_store; [|lia]. apply wp_store; [|lia]. apply HQ.
  assert (Hs1 : section_done P A e p (on_entry e with_process_released p) (with_process_released en)).
  { apply (note_exact P A p id e en with_process_released); try done. destruct Hok as [H1 H2 H0 H3 H4 H5 H6]. split; cbn; try done; intros Hx; [destruct (H5 Hx) as [[] ?]; by repeat split|congruence]. }
  pose proof Hs1 as [Hl1 [He1 _] El1]. eapply section_done_trans; [exact Hs1|]. eapply (note_like P A _ id e _ (with_release_inflight false)); [exact Hl1|by rewrite El1|exact He1|by repeat split].
Qed.

Lemma ticket_exact t (Q : result unit -> nat -> pool -> Prop) :
  (forall p' en', section_done P A e p p' en' -> en' = en /\ control_ticket en <> Some t \/ en' = with_ticket None en -> Q (Ok tt) 0%nat p') -> wp 0 (ticket_retired id owner e e t) Q p.
Proof.
  intros HQ. destruct mine_ok as [Hok Hin]. unfold ticket_retired. wp_step. eapply authority_mine; [done..|]. wp_step. wp_step. rewrite Nat.eqb_refl, (entry_at_eq e p en He). cbn [andb]. case_bool_decide; cbn [whenM].
  - apply wp_store; [|lia]. eapply HQ; [|by right]. apply (note_like P A p id e en (with_ticket None)); done.
  - wp_step. eapply HQ; [|by left]. split; [done|by apply changed_refl|done].
Qed.

Lemma locally_exact (Q : result (option nat) -> nat -> pool -> Prop) : process_released en = true -> inflight (resizing en) = false -> reconcile (resizing en) = false ->
  (forall p' en', section_done P A e p p' en' -> en' = en /\ local_released en = true \/ en' = with_local_released en -> Q (Ok (control_ticket en)) 0%nat p') -> wp 0 (release_locally id owner e e) Q p.
Proof.
  intros Hpr Hif Hrec HQ. destruct mine_ok as [Hok Hin]. unfold release_locally. wp_step. eapply authority_mine; [done..|]. rewrite Nat.eqb_refl. cbn [negb]. wp_step. wp_step. rewrite (entry_at_eq e p en He).
  wp_step. destruct (local_released en) eqn:Hlo; cbn [negb whenM].
  { wp_step. wp_step. rewrite (entry_at_eq e p en He). eapply HQ; [|by left]. split; [done|by apply changed_refl|done]. }
  cbv zeta. pose proof (total_covers held_bytes p P A id e en Hl ltac:(intros x Hx; by apply held_parts_nonneg) Hin He) as Hc1. pose proof (total_covers held_lease p P A id e en Hl ltac:(intros x Hx; by apply held_parts_nonneg) Hin He) as Hc2.
  pose proof Hl as [_ _ _ Hr Hac Hg Hi HP HA Hsum Hbound Hpk _ [Ho1 Ho2]]. rewrite <- Hr in Hc1. rewrite <- Hac in Hc2. unfold held_bytes in Hc1. unfold held_lease in Hc2. rewrite Hlo in Hc1, Hc2. pose proof (eo_bytes _ Hok) as Hb0.
  rewrite (Z.max_l 0) by lia. rewrite (proj2 (Z.leb_gt (active_leases p) 0)) by lia. cbn [negb orb Z.eqb]. do 2 (wp_step; apply wp_store; [|lia]). wp_step. unfold _finish_active_lease_locked. wp_step. wp_step. pools.
  rewrite (proj2 (Z.leb_gt (active_leases p) 0)) by lia. wp_step. wp_step. apply wp_store; [|lia]. wp_step. wp_step. wp_step. pools. rewrite !(proj2 (Z.ltb_ge _ _)) by lia. cbn [orb]. wp_step. wp_step. apply wp_store; [|lia]. wp_step.
  cbn [orb whenM]. wp_step. apply wp_store; [|lia]. wp_step. rewrite (entry_at_alter e _ en) by done. cbn [with_local_released control_ticket]. eapply HQ; [|by right].
  assert (Hok' : entry_ok (with_local_released en)) by (destruct Hok as [H1 H2 H0 H3 H4 H5 H6]; split; cbn; try done; intros Hx; congruence).
  split; [|pools; by alters|done]. eapply (ledger_change P A P A p _ id e en (with_local_released en) Hl Hin He Hok'); pools; unfold held_growth, held_inflight, held_bytes, held_lease in *; cbn in *; rewrite ?Hlo; try done; try lia.
  by alters.
Qed.

Lemma ledger_pop p' : leases p' = zpop id (leases p) -> (forall e', e' <> e -> entries p' !! e' = entries p !! e') -> held_bytes en = 0 -> held_lease en = 0 -> held_growth en = 0 -> held_inflight en = 0 ->
  limit_bytes p' = limit_bytes p -> reserved_bytes p' = reserved_bytes p -> active_leases p' = active_leases p -> pending_resize_growth p' = pending_resize_growth p -> resize_inflight p' = resize_inflight p ->
  pending_reserved_bytes p' = pending_reserved_bytes p -> pending_active_leases p' = pending_active_leases p -> peak_reserved_bytes p' = peak_reserved_bytes p -> protocol_violations p' = protocol_violations p ->
  over_release_count p' = over_release_count p -> over_release_bytes p' = over_release_bytes p -> ledger P A p'.
Proof.
  intros El Ho' Hb Hle Hg Hf E1 E2 E3 E4 E5 E6 E7 E8 E9 E10 E11. destruct mine_ok as [Hok Hin]. pose proof Hl as [Hids Hnames Hent Hr Ha Hgr Hi HP HA Hsum Hbound Hpk Hv [Hv1 Hv2]].
  destruct (zpop_split id e (leases p) Hids Hin) as (l1 & l2 & Es & Ep). rewrite Ep in El. rewrite Es, fmap_app, fmap_cons in Hids. rewrite Es, fmap_app, fmap_cons in Hnames. cbn [fst snd] in Hids, Hnames. apply NoDup_app in Hids as (I1 & I2 & [I3 I4]%NoDup_cons).
  apply NoDup_app in Hnames as (N1 & N2 & [N3 N4]%NoDup_cons).
  assert (Hother : forall x, x ∈ leases p' -> x ∈ leases p /\ snd x <> e).
  { intros x Hx. rewrite El in Hx. apply elem_of_app in Hx as [Hx|Hx]; (split; [rewrite Es; set_solver|intros E]); apply (list_elem_of_fmap_2 snd) in Hx; rewrite E in Hx; [apply (N2 _ Hx); left|done]. }
  assert (Ht : forall w, w en = 0 -> total w p' = total w p).
  { intros w Hw. unfold total. rewrite (total_of_ext w (leases p') (entries p) (entries p')) by (intros x Hx; apply Ho', (Hother x Hx)). rewrite El, Es, (cons_middle (id, e) l1 l2), !total_of_app.
    unfold total_of at 4. cbn [foldr snd]. rewrite He. simpl. lia. }
  split; rewrite ?E1, ?Ht; try done; try lia.
  - rewrite El, fmap_app. apply NoDup_app. split; [done|split; [|done]]. intros x H1 H2. apply (I2 x H1). by right.
  - rewrite El, fmap_app. apply NoDup_app. split; [done|split; [|done]]. intros x H1 H2. apply (N2 x H1). by right.
  - intros id' e' H'. destruct (Hother (id', e') H') as [Hin' Hne]. destruct (Hent id' e' Hin') as (x & Hx & Hokx). exists x. by rewrite Ho'.
Qed.

Lemma forget_exact (Q : result unit -> nat -> pool -> Prop) : inflight (resizing en) = false -> reconcile (resizing en) = false ->
  Q (Ok tt) 0%nat p ->
  (forall p', ledger P A p' -> leases p' = zpop id (leases p) -> (forall e', e' <> e -> entries p' !! e' = entries p !! e') -> Q (Ok tt) 0%nat p') -> wp 0 (forget id owner e e) Q p.
Proof.
  intros Hif Hrec Hsame HQ. destruct mine_ok as [Hok Hin]. unfold forget. wp_step. eapply authority_mine; [done..|]. wp_step. wp_step. rewrite Nat.eqb_refl, (entry_at_eq e p en He). cbn [andb].
  destruct (local_released en) eqn:Hlo; cbn [andb whenM]; [|by wp_step]. case_bool_decide; cbn [whenM]; [|by wp_step]. wp_step. apply wp_store; [|lia]. apply wp_store; [|lia].
  assert (Hother : forall e', e' <> e -> alter with_replay_released e (entries p) !! e' = entries p !! e') by (intros e' Hne; by rewrite list_lookup_alter_ne).
  apply HQ; [|done|done]. eapply ledger_pop; pools; try done; unfold held_bytes, held_lease, held_growth, held_inflight; rewrite ?Hlo, ?Hif; try done. by apply (eo_idle _ Hok).
Qed.
End Release.

Lemma close_exact P A p (Q : result unit -> nat -> pool -> Prop) : ledger P A p ->
  (forall r p', ledger P A p' -> leases p' = leases p -> entries p' = entries p -> closed p' = true ->
    (r = Ok tt -> A = 0 /\ resize_inflight p' = 0 /\ close_complete p' = true /\ (close_complete p = false -> close_outstanding_bytes p' = reserved_bytes p /\ close_active_leases p' = active_leases p)) -> Q r 0%nat p') ->
  wp 0 close Q p.
Proof.
  intros Hl HQ. pose proof Hl as [_ _ _ Hr Hac Hg Hi HP HA Hsum Hbound Hpk Hv _]. unfold close. wp_step. apply wp_store; [|lia]. wp_step. wp_step. pools.
  assert (Hbase : ledger P A (set_closed p)) by (eapply ledger_counters; [exact Hl|..]; pools; done || lia).
  destruct (negb (pending_active_leases p =? 0) || negb (resize_inflight p =? 0)) eqn:Hw; [wp_step; by apply HQ|]. apply orb_false_iff in Hw as [H1%negb_false_iff%Z.eqb_eq H2%negb_false_iff%Z.eqb_eq].
  rewrite Hv. cbn [Z.eqb negb]. destruct (close_complete p) eqn:Hcc; [wp_step; apply HQ; try done; intros _; pools; split; [lia|done]|].
  do 2 (wp_step; apply wp_store; [|lia]). apply wp_store; [|lia]. apply HQ; [|done..|]; [eapply ledger_counters; [exact Hl|..]; pools; done || lia|]. intros _. pools. split; [lia|done].
Qed.

(** ** Interleavings *)

(** How far a release has come: the governor has been asked, it has let go, the
    control ticket is to be retired, nothing is left but the entry. *)
Inductive phase : Type :=
| Asked
| Settled
| Retiring (ticket : nat)
| Whole.

(** What a thread is doing between two critical sections. *)
Inductive job : Type :=
| Reserving (requested : Z)
| Resizing (id : Z) (owner e : nat)
| Releasing (id : Z) (owner e : nat) (at_phase : phase).

(** The entry of a job.  The lock of a lease keeps its resizes and releases apart. *)
Definition works_on (j : job) : option nat :=
  match j with
  | Reserving _ => None
  | Resizing _ _ e | Releasing _ _ e _ => Some e
  end.

Definition reserving (j : job) : option Z := match j with Reserving requested => Some requested | _ => None end.

Definition system : Type := pool * list job.

(** One critical section of one thread.  Two things are taken from outside the pool.  A
    resize or a release of an entry begins only while no other job works on it: a lease
    calls both under its own lock, and its finalizer runs when nothing else refers
    to it.  And the governor has committed a resize only if the capability had not
    been released: [resize_capability] refuses one that is no longer active. *)

Inductive step : system -> system -> Prop :=
| step_admit p l requested r p' : 0 <= requested -> run (begin_admission requested) p = (r, p') ->
    step (p, l) (p', match r with Ok true => Reserving requested :: l | _ => l end)
| step_withdraw p l rest requested r p' : l ≡ₚ Reserving requested :: rest -> run (_finish_pending_admission_locked requested) p = (r, p') -> step (p, l) (p', rest)
| step_publish p l rest owner requested key path inodes c t r p' : l ≡ₚ Reserving requested :: rest -> run (publish owner requested key path inodes c t) p = (r, p') ->
    step (p, l) (p', match r with Ok _ => rest | Err _ => l end)
| step_begin p l id owner capability requested key path r p' : 0 <= requested -> capability ∉ omap works_on l -> run (begin_resize id owner capability requested key path) p = (r, p') ->
    step (p, l) (p', match r with Ok e => Resizing id owner e :: l | Err _ => l end)
| step_undo p l rest id owner e r p' : l ≡ₚ Resizing id owner e :: rest -> run (undo_resize id owner e e) p = (r, p') -> step (p, l) (p', rest)
| step_commit p l rest id owner e new r p' : l ≡ₚ Resizing id owner e :: rest -> process_released (entry_at e p) = false -> run (commit_resize id owner e e new) p = (r, p') -> step (p, l) (p', rest)
| step_claim p l id owner capability r p' : capability ∉ omap works_on l -> run (claim_release id owner capability) p = (r, p') ->
    step (p, l) (p', match r with
                     | Ok (Some (e, Some _)) => Releasing id owner e Asked :: l
                     | Ok (Some (e, None)) => Releasing id owner e Settled :: l
                     | _ => l
                     end)
| step_refused p l rest id owner e r p' : l ≡ₚ Releasing id owner e Asked :: rest -> run (release_refused id owner e e) p = (r, p') -> step (p, l) (p', rest)
| step_accepted p l rest id owner e r p' : l ≡ₚ Releasing id owner e Asked :: rest -> run (release_accepted id owner e e) p = (r, p') ->
    step (p, l) (p', match r with Ok _ => Releasing id owner e Settled :: rest | Err _ => rest end)
| step_locally p l rest id owner e r p' : l ≡ₚ Releasing id owner e Settled :: rest -> run (release_locally id owner e e) p = (r, p') ->
    step (p, l) (p', match r with Ok (Some t) => Releasing id owner e (Retiring t) :: rest | Ok None => Releasing id owner e Whole :: rest | Err _ => rest end)
| step_kept p l rest id owner e t : l ≡ₚ Releasing id owner e (Retiring t) :: rest -> step (p, l) (p, rest)
| step_ticket p l rest id owner e t r p' : l ≡ₚ Releasing id owner e (Retiring t) :: rest -> run (ticket_retired id owner e e t) p = (r, p') ->
    step (p, l) (p', match r with Ok _ => Releasing id owner e Whole :: rest | Err _ => rest end)
| step_forget p l rest id owner e r p' : l ≡ₚ Releasing id owner e Whole :: rest -> run (forget id owner e e) p = (r, p') -> step (p, l) (p', rest)
| step_close p l r p' : run close p = (r, p') -> step (p, l) (p', l).

Definition zsum (l : list Z) : Z := foldr Z.add 0 l.

Definition waiting_bytes (l : list job) : Z := zsum (omap reserving l).
Definition waiting_leases (l : list job) : Z := Z.of_nat (length (omap reserving l)).

Definition job_ok (p : pool) (j : job) : Prop :=
  match j with
  | Reserving requested => 0 <= requested
  | Resizing id owner e => exists en, zget id (leases p) = Some e /\ entries p !! e = Some en /\ owner_id en = owner /\ inflight (resizing en) = true
  | Releasing id owner e at_phase => exists en, zget id (leases p) = Some e /\ entries p !! e = Some en /\ owner_id en = owner /\ inflight (resizing en) = false
      /\ reconcile (resizing en) = false /\ (at_phase <> Asked -> process_released en = true)
  end.

(** The books are balanced, each job has its entry to itself, and each resize under
    way has its job. *)
Record balanced (p : pool) (l : list job) : Prop := {
  ba_ledger : ledger (waiting_bytes l) (waiting_leases l) p;
  ba_jobs : forall j, j ∈ l -> job_ok p j;
  ba_alone : NoDup (omap works_on l);
  ba_covered : forall id e en, zget id (leases p) = Some e -> entries p !! e = Some en -> inflight (resizing en) = true -> e ∈ omap works_on l;
}.

#[export] Instance zsum_Permutation : Proper ((≡ₚ) ==> (=)) zsum.
Proof. unfold zsum. induction 1; cbn [foldr]; lia. Qed.

Lemma balanced_Permutation p l l' : l ≡ₚ l' -> balanced p l -> balanced p l'.
Proof.
  intros Hp [H1 H2 H3 H4]. assert (Hw : omap works_on l ≡ₚ omap works_on l') by by rewrite Hp. assert (Hr : omap reserving l ≡ₚ omap reserving l') by by rewrite Hp. split.
  - unfold waiting_bytes, waiting_leases in *. by rewrite <- Hr.
  - intros j Hj. apply H2. by rewrite Hp.
  - by rewrite <- Hw.
  - intros id e en Hz He Hf. rewrite <- Hw. by eapply H4.
Qed.

(** Every entry but one is as it was. *)
Definition frame (e : nat) (p p' : pool) : Prop :=
  forall id e', e' <> e -> (zget id (leases p') = Some e' <-> zget id (leases p) = Some e') /\ (zget id (leases p) = Some e' -> entries p' !! e' = entries p !! e').

Lemma frame_job e p p' j : frame e p p' -> works_on j <> Some e -> job_ok p j -> job_ok p' j.
Proof.
  intros Hf Hne. destruct j as [requested|id owner e'|id owner e' ph]; [done|..]; intros (en & Hz & He & Hrest); exists en; destruct (Hf id e') as [Hiff Hsame]; try (intros ->; apply Hne; done);
    (split; [by apply Hiff|split; [by rewrite Hsame|done]]).
Qed.

(** The jobs [rest] have nothing to do with the entry [e], and those of the other entries are among them. *)
Record elsewhere (e : nat) (p : pool) (rest : list job) : Prop := {
  el_jobs : forall j, j ∈ rest -> job_ok p j;
  el_alone : NoDup (omap works_on rest);
  el_free : e ∉ omap works_on rest;
  el_covered : forall id e' en, zget id (leases p) = Some e' -> entries p !! e' = Some en -> inflight (resizing en) = true -> e' <> e -> e' ∈ omap works_on rest;
}.

Lemma elsewhere_free e p l : balanced p l -> e ∉ omap works_on l -> elsewhere e p l.
Proof. intros [H1 H2 H3 H4] Hfree. split; [done..|]. intros. by eapply H4. Qed.

Lemma elsewhere_rest e p l j rest : balanced p l -> l ≡ₚ j :: rest -> works_on j = Some e ->
  elsewhere e p rest /\ job_ok p j /\ ledger (waiting_bytes rest) (waiting_leases rest) p.
Proof.
  intros Hb Hp Hw. apply (balanced_Permutation _ _ _ Hp) in Hb. assert (Hres : reserving j = None) by (by destruct j). destruct Hb as [H1 H2 H3 H4]. cbn [omap list_omap] in H3, H4.
  unfold waiting_bytes, waiting_leases in H1. cbn [omap list_omap] in H1. rewrite Hres in H1. rewrite Hw in H3, H4. apply NoDup_cons in H3 as [H3 H3']. split; [|split; [apply H2; left|done]]. split; [|done|done|].
  - intros j' Hj. apply H2. by right.
  - intros id e' en Hz He Hif Hne. specialize (H4 id e' en Hz He Hif). by apply elem_of_cons in H4 as [->|H4].
Qed.

(** A section for the job [new] on the entry [e]. *)
Lemma balanced_section e p p' rest new : elsewhere e p rest -> frame e p p' -> ledger (waiting_bytes rest) (waiting_leases rest) p' ->
  (forall j, new = Some j -> works_on j = Some e /\ job_ok p' j) ->
  (forall id en, zget id (leases p') = Some e -> entries p' !! e = Some en -> inflight (resizing en) = true -> is_Some new) ->
  balanced p' (match new with Some j => j :: rest | None => rest end).
Proof.
  intros [Hjobs Hnd Hfree Hcov] Hf Hl Hnew Hown.
  assert (Hrest : forall j, j ∈ rest -> job_ok p' j).
  { intros j Hj. eapply frame_job; [done| |by apply Hjobs]. intros E. apply Hfree. apply list_elem_of_omap. by exists j. }
  assert (Hcov' : forall id e' en, zget id (leases p') = Some e' -> entries p' !! e' = Some en -> inflight (resizing en) = true -> e' <> e -> e' ∈ omap works_on rest).
  { intros id e' en Hz He Hif Hne. destruct (Hf id e' Hne) as [Hiff Hsame]. apply Hiff in Hz as Hz0. rewrite Hsame in He by done. by eapply Hcov. }
  destruct new as [j|].
  - destruct (Hnew j eq_refl) as [Hw Hok]. assert (Hres : reserving j = None) by (by destruct j). split.
    + unfold waiting_bytes, waiting_leases. cbn [omap list_omap]. by rewrite Hres.
    + intros j' [->|Hj]%elem_of_cons; [done|by apply Hrest].
    + cbn [omap list_omap]. rewrite Hw. by constructor.
    + intros id e' en Hz He Hif. cbn [omap list_omap]. rewrite Hw. destruct (decide (e' = e)) as [->|Hne]; [left|right; by eapply Hcov'].
  - split; [done|done|done|]. intros id e' en Hz He Hif. destruct (decide (e' = e)) as [->|Hne]; [|by eapply Hcov']. by destruct (Hown id en Hz He Hif).
Qed.

Lemma frame_section P A e p p' en' : section_done P A e p p' en' -> frame e p p'.
Proof. intros [_ [_ Ho] El] id e' Hne. rewrite El. split; [done|]. intros _. by apply Ho. Qed.

Lemma balanced_after e p p' rest new en' : elsewhere e p rest -> section_done (waiting_bytes rest) (waiting_leases rest) e p p' en' ->
  (forall j, new = Some j -> works_on j = Some e /\ job_ok p' j) -> (inflight (resizing en') = true -> is_Some new) ->
  balanced p' (match new with Some j => j :: rest | None => rest end).
Proof.
  intros He Hs Hnew Hown. apply (balanced_section e p p'); [done|by eapply frame_section|apply Hs|done|]. intros id en _ Hen Hif. apply Hown. destruct Hs as [_ [E _] _]. congruence.
Qed.

Lemma balanced_counters p p' l l' : balanced p l -> leases p' = leases p -> entries p' = entries p -> omap works_on l' = omap works_on l -> (forall j, j ∈ l' -> j ∈ l \/ exists requested, 0 <= requested /\ j = Reserving requested) ->
  ledger (waiting_bytes l') (waiting_leases l') p' -> balanced p' l'.
Proof.
  intros [H1 H2 H3 H4] El Ee Ew Hj Hl. split; [done| |by rewrite Ew|].
  - intros j [Hin|(requested & Hr & ->)]%Hj; [|done]. specialize (H2 j Hin). destruct j; cbn [job_ok] in *; by rewrite ?El, ?Ee.
  - intros id e en. rewrite El, Ee, Ew. apply H4.
Qed.

Lemma waiting_nonneg l : (forall j, j ∈ l -> match j with Reserving requested => 0 <= requested | _ => True end) -> 0 <= waiting_bytes l.
Proof.
  unfold waiting_bytes. induction l as [|j l IH]; intros Hj; [done|]. assert (H0 : 0 <= zsum (omap reserving l)) by (apply IH; intros j' Hin; apply Hj; by right). specialize (Hj j ltac:(left)).
  cbn [omap list_omap]. destruct j; cbn [reserving zsum foldr]; [unfold zsum in *; cbn [foldr]; lia|done|done].
Qed.

Lemma balanced_nonneg p l : balanced p l -> 0 <= waiting_bytes l.
Proof. intros Hb. apply waiting_nonneg. intros j Hj. apply (ba_jobs _ _ Hb) in Hj. by destruct j. Qed.

Lemma run_inv {X} (m : M pool X) p r p' (R : result X -> pool -> Prop) : run m p = (r, p') -> wp 0 m (fun r _ p' => R r p') p -> R r p'.
Proof. intros E H. apply wp_run in H. by rewrite E in H. Qed.

Lemma admission_kept p l rest requested : balanced p l -> l ≡ₚ Reserving requested :: rest ->
  0 <= requested <= waiting_bytes l /\ 0 < waiting_leases l /\ waiting_bytes rest = waiting_bytes l - requested /\ waiting_leases rest = waiting_leases l - 1 /\ omap works_on rest ≡ₚ omap works_on l
  /\ (forall j, j ∈ rest -> j ∈ l).
Proof.
  intros Hb Hp. assert (Hr : omap reserving l ≡ₚ requested :: omap reserving rest) by by rewrite Hp. pose proof (balanced_Permutation _ _ _ Hp Hb) as Hb'.
  assert (Hnn : 0 <= waiting_bytes rest) by (apply waiting_nonneg; intros j Hj; pose proof (ba_jobs _ _ Hb' j ltac:(by right)) as Hok; by destruct j). pose proof (ba_jobs _ _ Hb' (Reserving requested) ltac:(left)) as Hreq. cbn [job_ok] in Hreq.
  assert (E1 : waiting_bytes l = requested + waiting_bytes rest) by (unfold waiting_bytes; by rewrite Hr). assert (E2 : waiting_leases l = 1 + waiting_leases rest) by (unfold waiting_leases; rewrite Hr; cbn [length]; lia).
  assert (0 <= waiting_leases rest) by (unfold waiting_leases; lia). split; [lia|]. split; [lia|]. split; [lia|]. split; [lia|]. split; [by rewrite Hp|]. intros j Hj. rewrite Hp. by right.
Qed.

Lemma step_admission_kept p l requested r p' : balanced p l -> 0 <= requested -> run (begin_admission requested) p = (r, p') -> balanced p' (match r with Ok true => Reserving requested :: l | _ => l end).
Proof.
  intros Hb Hr E. apply (run_inv _ _ _ _ (fun r p' => balanced p' (match r with Ok true => Reserving requested :: l | _ => l end)) E).
  eapply admit_exact; [apply Hb|done|done|done|]. intros p1 Hl El Ee. apply (balanced_counters p p1 l); [done|done|done|done| |].
  - intros j [->|Hj]%elem_of_cons; [right; by exists requested|by left].
  - unfold waiting_bytes, waiting_leases in *. cbn [omap list_omap reserving zsum foldr length]. replace (requested + _) with (zsum (omap reserving l) + requested) by (unfold zsum; lia).
    replace (Z.of_nat (S _)) with (Z.of_nat (length (omap reserving l)) + 1) by lia. done.
Qed.

Lemma balanced_drop p p' l rest requested : balanced p l -> l ≡ₚ Reserving requested :: rest -> leases p' = leases p -> entries p' = entries p ->
  ledger (waiting_bytes l - requested) (waiting_leases l - 1) p' -> balanced p' rest.
Proof.
  intros Hb Hp El Ee Hl. destruct (admission_kept _ _ _ _ Hb Hp) as (_ & _ & E1 & E2 & Ew & Hin). rewrite <- E1, <- E2 in Hl. destruct Hb as [H1 H2 H3 H4]. split; [done| |by rewrite Ew|].
  - intros j Hj%Hin. specialize (H2 j Hj). destruct j; cbn [job_ok] in *; by rewrite ?El, ?Ee.
  - intros id e en. rewrite El, Ee, Ew. apply H4.
Qed.

Lemma step_withdraw_kept p l rest requested r p' : balanced p l -> l ≡ₚ Reserving requested :: rest -> run (_finish_pending_admission_locked requested) p = (r, p') -> balanced p' rest.
Proof.
  intros Hb Hp E. destruct (admission_kept _ _ _ _ Hb Hp) as (Hr & Hw & _). apply (run_inv _ _ _ _ (fun _ p' => balanced p' rest) E).
  eapply withdraw_exact; [apply Hb|done|done|]. intros p1 Hl El Ee. by eapply balanced_drop.
Qed.

Lemma step_publish_kept p l rest owner requested key path inodes c t r p' : balanced p l -> l ≡ₚ Reserving requested :: rest -> run (publish owner requested key path inodes c t) p = (r, p') ->
  balanced p' (match r with Ok _ => rest | Err _ => l end).
Proof.
  intros Hb Hp E. destruct (admission_kept _ _ _ _ Hb Hp) as (Hr & Hw & E1 & E2 & Ew & Hin). apply (run_inv _ _ _ _ (fun r p' => balanced p' (match r with Ok _ => rest | Err _ => l end)) E).
  eapply publish_exact; [apply Hb|done|done|done|]. intros id p1 Hl El (en & Ee & Hif). rewrite <- E1, <- E2 in Hl. pose proof Hb as [H1 H2 H3 H4].
  assert (Hold : forall id' e', zget id' (leases p) = Some e' -> (e' < length (entries p))%nat) by (intros id' e' Hz%zget_elem; destruct (lg_entries _ _ _ H1 id' e' Hz) as (x & Hx & _); by apply lookup_lt_Some in Hx).
  apply (balanced_section (length (entries p)) p p1 rest None); [|..|done|].
  - split; [by intros j Hj%Hin; apply H2|by rewrite Ew| |intros; rewrite Ew; by eapply H4]. rewrite Ew. intros (j & Hj & Hwj)%list_elem_of_omap. specialize (H2 j Hj).
    destruct j as [|id' owner' e'|id' owner' e' ph]; [done|..]; injection Hwj as ->; destruct H2 as (x & Hz & _); apply Hold in Hz; lia.
  - intros id' e' Hne. rewrite El, zget_app. split.
    + destruct (zget id' (leases p)) as [x|] eqn:Hz; [done|]. destruct (_ =? _); split; intros H; congruence.
    + intros Hz%Hold. rewrite Ee. by apply lookup_app_l.
  - done.
  - intros id' en' _ Hen' Hif'. rewrite Ee, lookup_app_r, Nat.sub_diag in Hen' by done. injection Hen' as <-. congruence.
Qed.

Lemma step_close_kept p l r p' : balanced p l -> run close p = (r, p') -> balanced p' l.
Proof. intros Hb E. apply (run_inv _ _ _ _ (fun _ p' => balanced p' l) E). eapply close_exact; [apply Hb|]. intros r1 p1 Hl El Ee _ _. apply (balanced_counters p p1 l); auto. Qed.

Lemma NoDup_names (l : list (Z * nat)) id id' e : NoDup l.*2 -> (id, e) ∈ l -> (id', e) ∈ l -> id = id'.
Proof.
  intros Hn (i & Hi)%list_elem_of_lookup (j & Hj)%list_elem_of_lookup. assert (i = j) as -> by (eapply (NoDup_lookup l.*2); [done|by rewrite list_lookup_fmap, Hi|by rewrite list_lookup_fmap, Hj]). congruence.
Qed.

Lemma unknown_balanced p l : balanced p l -> balanced (note_unknown p) l.
Proof. intros Hb. apply (balanced_counters p _ l); auto. apply unknown_ledger, Hb. Qed.

(** A section that failed half-way. *)
Lemma touched_balanced p l e en p' en' : balanced p l -> e ∉ omap works_on l -> entries p !! e = Some en -> section_done (waiting_bytes l) (waiting_leases l) e p p' en' ->
  inflight (resizing en') = inflight (resizing en) -> balanced p' l.
Proof.
  intros Hb Hfree He Hs Hif. apply (balanced_section e p p' l None); [by apply elsewhere_free|by eapply frame_section|apply Hs|done|]. intros id en1 Hz He1 Hif1. exfalso. apply Hfree.
  pose proof Hs as [_ [E _] El]. rewrite El in Hz. apply (ba_covered _ _ Hb id e en); [done|done|congruence].
Qed.

Lemma step_begin_kept p l id owner capability requested key path r p' : balanced p l -> 0 <= requested -> capability ∉ omap works_on l -> run (begin_resize id owner capability requested key path) p = (r, p') ->
  balanced p' (match r with Ok e => Resizing id owner e :: l | Err _ => l end).
Proof.
  intros Hb Hr Hfree E. apply (run_inv _ _ _ _ (fun r p' => balanced p' (match r with Ok e => Resizing id owner e :: l | Err _ => l end)) E).
  eapply begin_resize_exact; [apply Hb|by eapply balanced_nonneg|done|done|by intros; apply unknown_balanced| |].
  - intros err e en p1 en1 -> He Hs _ Hif. by eapply touched_balanced.
  - intros e en p1 en1 Hz He Ho -> Hs (Eo & _) _ Hif _ _. apply (balanced_after e p p1 l (Some (Resizing id owner e)) en1); [by apply elsewhere_free|done| |by eexists].
    intros j [= <-]. split; [done|]. exists en1. destruct Hs as [_ [E1 _] El]. rewrite El. split; [done|split; [done|split; [congruence|done]]].
Qed.

Lemma step_undo_kept p l rest id owner e r p' : balanced p l -> l ≡ₚ Resizing id owner e :: rest -> run (undo_resize id owner e e) p = (r, p') -> balanced p' rest.
Proof.
  intros Hb Hp E. destruct (elsewhere_rest e p l _ rest Hb Hp eq_refl) as (Hel & (en & Hz & He & Ho & Hif) & Hl). apply (run_inv _ _ _ _ (fun _ p' => balanced p' rest) E).
  eapply undo_exact; [done..|]. intros p1 Hs. by apply (balanced_after e p p1 rest None (undone en)).
Qed.

Lemma step_commit_kept p l rest id owner e new r p' : balanced p l -> l ≡ₚ Resizing id owner e :: rest -> process_released (entry_at e p) = false -> run (commit_resize id owner e e new) p = (r, p') -> balanced p' rest.
Proof.
  intros Hb Hp Hpr E. destruct (elsewhere_rest e p l _ rest Hb Hp eq_refl) as (Hel & (en & Hz & He & Ho & Hif) & Hl). rewrite (entry_at_eq e p en He) in Hpr. apply (run_inv _ _ _ _ (fun _ p' => balanced p' rest) E).
  eapply commit_resize_exact; [done..|]. intros r1 p1 en1 Hs _ Hif1 _ _. apply (balanced_after e p p1 rest None en1); [done|done|done|congruence].
Qed.

(** A section of a release leaves the release, with the new phase, or is its last one. *)
Lemma releasing_after id owner e p p' rest en' ph : elsewhere e p rest -> zget id (leases p) = Some e -> section_done (waiting_bytes rest) (waiting_leases rest) e p p' en' -> owner_id en' = owner ->
  inflight (resizing en') = false -> reconcile (resizing en') = false -> (ph <> Asked -> process_released en' = true) -> balanced p' (Releasing id owner e ph :: rest).
Proof.
  intros Hel Hz Hs Ho Hif Hrec Hph. apply (balanced_after e p p' rest (Some (Releasing id owner e ph)) en'); [done|done| |congruence]. intros j [= <-]. split; [done|].
  destruct Hs as [_ [E _] El]. exists en'. by rewrite El.
Qed.

Lemma step_claim_kept p l id owner capability r p' : balanced p l -> capability ∉ omap works_on l -> run (claim_release id owner capability) p = (r, p') ->
  balanced p' (match r with Ok (Some (e, Some _)) => Releasing id owner e Asked :: l | Ok (Some (e, None)) => Releasing id owner e Settled :: l | _ => l end).
Proof.
  intros Hb Hfree E. apply (run_inv _ _ _ _ (fun r p' => balanced p' (match r with Ok (Some (e, Some _)) => Releasing id owner e Asked :: l | Ok (Some (e, None)) => Releasing id owner e Settled :: l | _ => l end)) E).
  eapply claim_exact; [apply Hb|done|by intros; apply unknown_balanced| |].
  - intros err e en p1 en1 -> He Hs _ Hif. by eapply touched_balanced.
  - intros e en u p1 en1 Hz He Ho -> Hs Eo Epr Eif Hrec Hu. assert (Hno : inflight (resizing en) = false) by (destruct (inflight _) eqn:Hif; [exfalso; by apply Hfree, (ba_covered _ _ Hb id e en)|done]).
    destruct u as [c|]; (eapply releasing_after; [by apply elsewhere_free|done|exact Hs|congruence|congruence|done|]); [done|]. intros _. rewrite Epr. by apply Hu.
Qed.

Lemma step_refused_kept p l rest id owner e r p' : balanced p l -> l ≡ₚ Releasing id owner e Asked :: rest -> run (release_refused id owner e e) p = (r, p') -> balanced p' rest.
Proof.
  intros Hb Hp E. destruct (elsewhere_rest e p l _ rest Hb Hp eq_refl) as (Hel & (en & Hz & He & Ho & Hif & Hrec & Hph) & Hl). apply (run_inv _ _ _ _ (fun _ p' => balanced p' rest) E).
  eapply refused_exact; [done..|]. intros p1 Hs. apply (balanced_after e p p1 rest None _ Hel Hs); [done|]. cbn. congruence.
Qed.

Lemma step_accepted_kept p l rest id owner e r p' : balanced p l -> l ≡ₚ Releasing id owner e Asked :: rest -> run (release_accepted id owner e e) p = (r, p') ->
  balanced p' (match r with Ok _ => Releasing id owner e Settled :: rest | Err _ => rest end).
Proof.
  intros Hb Hp E. destruct (elsewhere_rest e p l _ rest Hb Hp eq_refl) as (Hel & (en & Hz & He & Ho & Hif & Hrec & Hph) & Hl).
  apply (run_inv _ _ _ _ (fun r p' => balanced p' (match r with Ok _ => Releasing id owner e Settled :: rest | Err _ => rest end)) E). eapply accepted_exact; [done..|]. intros p1 Hs. by eapply releasing_after.
Qed.

Lemma step_locally_kept p l rest id owner e r p' : balanced p l -> l ≡ₚ Releasing id owner e Settled :: rest -> run (release_locally id owner e e) p = (r, p') ->
  balanced p' (match r with Ok (Some t) => Releasing id owner e (Retiring t) :: rest | Ok None => Releasing id owner e Whole :: rest | Err _ => rest end).
Proof.
  intros Hb Hp E. destruct (elsewhere_rest e p l _ rest Hb Hp eq_refl) as (Hel & (en & Hz & He & Ho & Hif & Hrec & Hph) & Hl). specialize (Hph ltac:(done)).
  apply (run_inv _ _ _ _ (fun r p' => balanced p' (match r with Ok (Some t) => Releasing id owner e (Retiring t) :: rest | Ok None => Releasing id owner e Whole :: rest | Err _ => rest end)) E).
  eapply locally_exact; [done..|]. intros p1 en1 Hs Hen. assert (owner_id en1 = owner /\ inflight (resizing en1) = false /\ reconcile (resizing en1) = false /\ process_released en1 = true) as (? & ? & ? & ?) by (by destruct Hen as [[-> _]| ->]).
  destruct (control_ticket en); by eapply releasing_after.
Qed.

Lemma step_ticket_kept p l rest id owner e t r p' : balanced p l -> l ≡ₚ Releasing id owner e (Retiring t) :: rest -> run (ticket_retired id owner e e t) p = (r, p') ->
  balanced p' (match r with Ok _ => Releasing id owner e Whole :: rest | Err _ => rest end).
Proof.
  intros Hb Hp E. destruct (elsewhere_rest e p l _ rest Hb Hp eq_refl) as (Hel & (en & Hz & He & Ho & Hif & Hrec & Hph) & Hl). specialize (Hph ltac:(done)).
  apply (run_inv _ _ _ _ (fun r p' => balanced p' (match r with Ok _ => Releasing id owner e Whole :: rest | Err _ => rest end)) E).
  eapply ticket_exact; [done..|]. intros p1 en1 Hs Hen. eapply releasing_after; [done|done|exact Hs|by destruct Hen as [[-> _]| ->]..|]. intros _. by destruct Hen as [[-> _]| ->].
Qed.

Lemma step_forget_kept p l rest id owner e r p' : balanced p l -> l ≡ₚ Releasing id owner e Whole :: rest -> run (forget id owner e e) p = (r, p') -> balanced p' rest.
Proof.
  intros Hb Hp E. destruct (elsewhere_rest e p l _ rest Hb Hp eq_refl) as (Hel & (en & Hz & He & Ho & Hif & Hrec & Hph) & Hl). apply (run_inv _ _ _ _ (fun _ p' => balanced p' rest) E).
  eapply forget_exact; [done..| |].
  - apply (balanced_after e p p rest None en Hel); [|done|congruence]. split; [done|by apply changed_refl|done].
  - intros p1 Hl1 El Ho1. apply (balanced_section e p p1 rest None Hel); [|done|done|].
    + intros id' e' Hne. rewrite El, zget_zpop. split; [|intros _; by apply Ho1]. destruct (Z.eqb_spec id' id) as [->|]; [|done]. split; intros H; congruence.
    + intros id' en1 Hz1 _ _. exfalso. rewrite El, zget_zpop in Hz1. destruct (Z.eqb_spec id' id) as [->|Hne]; [done|]. apply Hne. apply zget_elem in Hz1, Hz.
      by apply (NoDup_names (leases p) id' id e (lg_names _ _ _ Hl)).
Qed.

Lemma step_kept_kept p l rest id owner e t : balanced p l -> l ≡ₚ Releasing id owner e (Retiring t) :: rest -> balanced p rest.
Proof.
  intros Hb Hp. destruct (elsewhere_rest e p l _ rest Hb Hp eq_refl) as (Hel & (en & Hz & He & Ho & Hif & _) & Hl). apply (balanced_after e p p rest None en Hel); [|done|congruence].
  split; [done|by apply changed_refl|done].
Qed.

Lemma step_balanced s s' : balanced (fst s) (snd s) -> step s s' -> balanced (fst s') (snd s').
Proof.
  intros Hb Hst. destruct Hst; cbn [fst snd] in *; eauto using step_admission_kept, step_withdraw_kept, step_publish_kept, step_begin_kept, step_undo_kept, step_commit_kept, step_claim_kept,
    step_refused_kept, step_accepted_kept, step_locally_kept, step_kept_kept, step_ticket_kept, step_forget_kept, step_close_kept.
Qed.

Lemma new_balanced limit : 0 <= limit -> balanced (new_pool limit) [].
Proof. intros H. split; [split; cbn; try done; try lia; try constructor; intros id e H0; by apply elem_of_nil in H0|intros j H0; by apply elem_of_nil in H0|constructor|done]. Qed.

Lemma reachable_balanced limit p l : 0 <= limit -> rtc step (new_pool limit, []) (p, l) -> balanced p l.
Proof.
  intros Hl Hs. change (balanced (fst (p, l)) (snd (p, l))). assert (H0 : balanced (fst (new_pool limit, @nil job)) (snd (new_pool limit, @nil job))) by by apply new_balanced.
  induction Hs; [done|]. apply IHHs. by eapply step_balanced.
Qed.

Definition resizes_on (j : job) : option nat := match j with Resizing _ _ e => Some e | _ => None end.

Definition resizes (l : list job) : Z := Z.of_nat (length (omap resizes_on l)).

(** The entries with a resize under way. *)
Definition under_way (l : list (Z * nat)) (objs : list entry) : list nat := filter (fun e => inflight (resizing (default blank_entry (objs !! e))) = true) l.*2.

Lemma under_way_length l objs : total_of held_inflight l objs = Z.of_nat (length (under_way l objs)).
Proof.
  induction l as [|[id e] l IH]; [done|]. unfold total_of, under_way in *. cbn [foldr snd fmap list_fmap]. rewrite IH, filter_cons. unfold held_inflight at 1.
  destruct (decide _) as [E|E]; [rewrite E; cbn [length]; lia|]. apply not_true_is_false in E. rewrite E. lia.
Qed.

Lemma resizes_on_sublist l : omap resizes_on l `sublist_of` omap works_on l.
Proof. induction l as [|j l IH]; [done|]. destruct j; cbn [omap list_omap resizes_on works_on]; [done|by apply sublist_skip|by apply sublist_cons]. Qed.

Lemma NoDup_ids (l : list (Z * nat)) id e e' : NoDup l.*1 -> (id, e) ∈ l -> (id, e') ∈ l -> e = e'.
Proof.
  intros Hn (i & Hi)%list_elem_of_lookup (j & Hj)%list_elem_of_lookup. assert (i = j) as -> by (eapply (NoDup_lookup l.*1); [done|by rewrite list_lookup_fmap, Hi|by rewrite list_lookup_fmap, Hj]). congruence.
Qed.

(** The resizes under way are those of the jobs. *)
Lemma resizes_counted p l : balanced p l -> resize_inflight p = resizes l.
Proof.
  intros [Hl Hj Hn Hc]. rewrite (lg_inflight _ _ _ Hl). unfold total, resizes. rewrite under_way_length. f_equal. apply Permutation_length, NoDup_Permutation.
  - apply NoDup_filter, Hl.
  - eapply sublist_NoDup; [done|apply resizes_on_sublist].
  - intros e. unfold under_way. rewrite list_elem_of_filter, list_elem_of_omap. split.
    + intros [Hif ([id e'] & -> & Hin)%list_elem_of_fmap]. cbn [snd] in *. destruct (lg_entries _ _ _ Hl id e' Hin) as (en & He & _). rewrite He in Hif. cbn in Hif.
      destruct (zget id (leases p)) as [e0|] eqn:Hz; [|apply zget_None in Hz; exfalso; apply Hz; by apply (list_elem_of_fmap_2 fst) in Hin].
      assert (e0 = e') as -> by (apply zget_elem in Hz; by eapply (NoDup_ids (leases p) id); [apply Hl|..]).
      pose proof (Hc id e' en Hz He Hif) as (j & Hjl & Hw)%list_elem_of_omap. exists j. split; [done|]. specialize (Hj j Hjl). destruct j as [|i o x|i o x ph]; [done|done|]. injection Hw as ->.
      destruct Hj as (en' & _ & He' & _ & Hif' & _). congruence.
    + intros (j & Hjl & Hw). specialize (Hj j Hjl). destruct j as [|i o x|]; [done| |done]. injection Hw as ->. destruct Hj as (en & Hz & He & _ & Hif). rewrite He. split; [done|].
      apply zget_elem in Hz. by apply (list_elem_of_fmap_2 snd) in Hz.
Qed.

Lemma section_total P A P' A' w p p' id e en en' : ledger P A p -> (id, e) ∈ leases p -> entries p !! e = Some en -> section_done P' A' e p p' en' -> total w p' = total w p - w en + w en'.
Proof. intros Hl Hin He [_ Hc El]. unfold total. rewrite El. eapply total_changed; [apply Hl|done..]. Qed.

(** No section touches the limit. *)
Definition fixed {A} (m : M pool A) : Prop := forall p, always m (fun _ p' => limit_bytes p' = limit_bytes p) p.

Lemma fixed_bind {A B} (m : M pool A) (f : A -> M pool B) : fixed m -> (forall x, fixed (f x)) -> fixed (x ← m; f x).
Proof. intros Hm Hf p. al_step. eapply al_mono; [apply Hm|]. intros [x|err] p1 E; [|done]. eapply al_mono; [apply Hf|]. cbn beta. intros; congruence. Qed.

Lemma fixed_try {A} (m : M pool A) f : fixed m -> (forall x, fixed (f x)) -> fixed (try_except m f).
Proof. intros Hm Hf p. al_step. eapply al_mono; [apply Hm|]. intros [x|err] p1 E; [done|]. eapply al_mono; [apply Hf|]. cbn beta. intros; congruence. Qed.

Lemma fixed_when b (m : M pool unit) : fixed m -> fixed (whenM b m).
Proof. intros Hm p. destruct b; cbn [whenM]; [apply Hm|]. by al_step. Qed.

Lemma fixed_store f : (forall p, limit_bytes (f p) = limit_bytes p) -> fixed (store f).
Proof. intros Hf p. al_step; first [apply Hf|done]. Qed.

Lemma fixed_modify f : (forall p, limit_bytes (f p) = limit_bytes p) -> fixed (modify f).
Proof. intros Hf p. al_step. apply Hf. Qed.

Lemma fixed_reads {A} (f : pool -> A) : fixed (reads f).
Proof. intros p. by al_step. Qed.

Lemma fixed_ret {A} (x : A) : fixed (ret x).
Proof. intros p. by al_step. Qed.

Lemma fixed_raise {A} err : fixed (@raise _ A err).
Proof. intros p. by al_step. Qed.

Ltac keep_limit := repeat first [simple apply fixed_store; done|apply fixed_bind; [|intros ?]|apply fixed_try; [|intros ?]|apply fixed_when|apply fixed_modify; done|apply fixed_reads|apply fixed_ret|apply fixed_raise
  |match goal with |- fixed (match ?x with _ => _ end) => destruct x end|progress cbv zeta].

Lemma fixed_run {A} (m : M pool A) p r p' : fixed m -> run m p = (r, p') -> limit_bytes p' = limit_bytes p.
Proof. intros Hm E. specialize (Hm p []). unfold run in E. destruct (m [] p) as [[r1 k1] p1]. by injection E as <- <-. Qed.

Lemma fixed_authority id owner capability : fixed (_lease_entry_authority_locked id owner capability).
Proof. unfold _lease_entry_authority_locked. keep_limit. Qed.

Lemma fixed_finish e : fixed (_finish_pending_resize_locked e).
Proof. unfold _finish_pending_resize_locked, clear_target. keep_limit. Qed.

Lemma step_limit s s' : step s s' -> limit_bytes (fst s') = limit_bytes (fst s).
Proof.
  assert (Hfw : fixed _finish_resize_inflight_locked) by (unfold _finish_resize_inflight_locked; keep_limit).
  assert (Hcg : forall n, fixed (_consume_pending_resize_growth_locked n)) by (intros n; unfold _consume_pending_resize_growth_locked; keep_limit).
  assert (Hal : forall n, fixed (_finish_active_lease_locked n)) by (intros n; unfold _finish_active_lease_locked; keep_limit).
  intros Hst. destruct Hst; cbn [fst]; try done; (eapply fixed_run; [|eassumption]);
    unfold begin_admission, _finish_pending_admission_locked, publish, _publish_lease_locked, begin_resize, undo_resize, commit_resize, lose_resize, clear_target, claim_release, release_refused, release_accepted, release_locally,
      ticket_retired, forget, close; repeat first [apply fixed_authority|apply fixed_finish|apply Hfw|apply Hcg|apply Hal|progress keep_limit].
Qed.

Lemma reachable_limit limit p l : rtc step (new_pool limit, []) (p, l) -> limit_bytes p = limit.
Proof.
  intros Hs. change (limit_bytes (fst (p, l)) = limit). assert (H0 : limit_bytes (fst (new_pool limit, @nil job)) = limit) by done. induction Hs as [|s s' s'' Hst _ IH]; [done|]. apply IH. by rewrite (step_limit _ _ Hst).
Qed.

(** ** Theorems *)

(** C11: the counters of a pool are exact in every state that any threads reach, whatever the control plane answers, and whatever the governor does but resize a released capability: the reserved bytes and the active
    leases are those of the entries not yet released locally, the growth that is held back is that of the resizes not yet committed, and the pending bytes, leases and
    resizes are those of the threads between two sections; no protocol violation and no release of more than was reserved is ever recorded. *)
Theorem pool_ledger_exact limit p l : 0 <= limit -> rtc step (new_pool limit, []) (p, l) ->
  reserved_bytes p = total held_bytes p /\ active_leases p = total held_lease p /\ pending_resize_growth p = total held_growth p
  /\ pending_reserved_bytes p = waiting_bytes l /\ pending_active_leases p = waiting_leases l /\ resize_inflight p = resizes l
  /\ protocol_violations p = 0 /\ over_release_count p = 0 /\ over_release_bytes p = 0.
Proof.
  intros Hl Hs. pose proof (reachable_balanced limit p l Hl Hs) as Hb. pose proof (ba_ledger _ _ Hb) as [_ _ _ H1 H2 H3 _ H4 H5 _ _ _ H6 [H7 H8]].
  split; [done|]. split; [done|]. split; [done|]. split; [done|]. split; [done|]. split; [by apply resizes_counted|done].
Qed.

(** A pool never holds more than twice its limit, with the bytes that wait for publication and the growth that is held back. *)
Lemma pool_bounded limit p l : 0 <= limit -> rtc step (new_pool limit, []) (p, l) ->
  0 <= reserved_bytes p /\ reserved_bytes p + pending_reserved_bytes p + pending_resize_growth p <= 2 * limit /\ reserved_bytes p <= peak_reserved_bytes p <= 2 * limit.
Proof.
  intros Hl Hs. pose proof (reachable_balanced limit p l Hl Hs) as Hb. pose proof (ba_ledger _ _ Hb) as Hle. rewrite <- (reachable_limit limit p l Hs). pose proof Hle as [_ _ _ Hr _ _ _ _ _ Hsum _ Hpk _ _].
  pose proof (total_nonneg held_bytes p _ _ Hle ltac:(intros x Hx; by apply held_parts_nonneg)) as H0. rewrite <- Hr in H0. done.
Qed.

(** The attempt to close succeeds exactly when no thread has an admission or a resize under way, and the first one that does records what is then outstanding. *)
Theorem close_waits_for_jobs limit p l : 0 <= limit -> rtc step (new_pool limit, []) (p, l) ->
  (fst (run close p) = Ok tt <-> omap reserving l = [] /\ omap resizes_on l = [])
  /\ closed (snd (run close p)) = true
  /\ (close_complete p = false -> fst (run close p) = Ok tt -> close_outstanding_bytes (snd (run close p)) = total held_bytes p /\ close_active_leases (snd (run close p)) = total held_lease p).
Proof.
  intros Hl Hs. pose proof (reachable_balanced limit p l Hl Hs) as Hb. pose proof (resizes_counted p l Hb) as Hres. pose proof (ba_ledger _ _ Hb) as Hle. pose proof Hle as [_ _ _ Hr Ha _ _ _ HA _ _ _ Hv _].
  apply (wp_run close (fun r p' => (r = Ok tt <-> omap reserving l = [] /\ omap resizes_on l = []) /\ closed p' = true /\ (close_complete p = false -> r = Ok tt -> close_outstanding_bytes p' = total held_bytes p /\ close_active_leases p' = total held_lease p))).
  assert (Hq : pending_active_leases p = 0 /\ resize_inflight p = 0 <-> omap reserving l = [] /\ omap resizes_on l = []).
  { rewrite HA, Hres. unfold waiting_leases, resizes. rewrite <- !length_zero_iff_nil. lia. }
  unfold close. wp_step. apply wp_store; [|lia]. wp_step. wp_step. pools. destruct (negb (pending_active_leases p =? 0) || negb (resize_inflight p =? 0)) eqn:Hw.
  { wp_step. split; [|split; [done|done]]. split; [done|]. intros [E1 E2]%Hq. rewrite E1, E2 in Hw. done. }
  apply orb_false_iff in Hw as [H1%negb_false_iff%Z.eqb_eq H2%negb_false_iff%Z.eqb_eq]. rewrite Hv. cbn [Z.eqb negb]. rewrite <- Hr, <- Ha. destruct (close_complete p).
  - wp_step. split; [split; [intros _; by apply Hq|done]|done].
  - do 2 (wp_step; apply wp_store; [|lia]). apply wp_store; [|lia]. pools. split; [split; [intros _; by apply Hq|done]|done].
Qed.

Lemma finish_idle e en p (Q : result unit -> nat -> pool -> Prop) : entries p !! e = Some en -> reconcile (resizing en) = false -> Q (Ok tt) 0%nat p -> wp 0 (_finish_pending_resize_locked e) Q p.
Proof. intros He Hrec HQ. unfold _finish_pending_resize_locked. wp_step. wp_step. rewrite (entry_at_eq e p en He), Hrec. cbn [whenM]. by wp_step. Qed.

(** A lease with no resize and no release under way. *)
Record idle (p : pool) (l : list job) (id : Z) (owner e : nat) (en : entry) : Prop := {
  id_balanced : balanced p l;
  id_free : e ∉ omap works_on l;
  id_found : zget id (leases p) = Some e;
  id_entry : entries p !! e = Some en;
  id_owner : owner_id en = owner;
  id_settled : reconcile (resizing en) = false;
}.

Lemma idle_inflight p l id owner e en : idle p l id owner e en -> inflight (resizing en) = false /\ (id, e) ∈ leases p /\ entry_ok en.
Proof.
  intros [Hb Hfree Hz He _ _]. split; [|]. { destruct (inflight _) eqn:Hif; [exfalso; by apply Hfree, (ba_covered _ _ Hb id e en)|done]. }
  destruct (entry_of _ _ p id e (ba_ledger _ _ Hb) Hz) as (en0 & He0 & Hok & Hin). rewrite He in He0. by injection He0 as <-.
Qed.

(** What a finished section leaves of the counters. *)
Lemma idle_after p l id owner e en p' en' : idle p l id owner e en -> section_done (waiting_bytes l) (waiting_leases l) e p p' en' -> inflight (resizing en') = false ->
  balanced p' l /\ leases p' = leases p /\ reserved_bytes p' = reserved_bytes p - held_bytes en + held_bytes en' /\ active_leases p' = active_leases p - held_lease en + held_lease en'
  /\ (reconcile (resizing en') = false -> pending_resize_growth p' = pending_resize_growth p) /\ entries p' !! e = Some en'.
Proof.
  intros Hi Hs Hif. pose proof (idle_inflight _ _ _ _ _ _ Hi) as (Hif0 & Hin & Hok). destruct Hi as [Hb Hfree Hz He Ho Hrec]. pose proof (ba_ledger _ _ Hb) as Hl. pose proof Hs as [Hl' [He' _] El].
  pose proof (fun w => section_total _ _ _ _ w p p' id e en en' Hl Hin He Hs) as Ht.
  split; [apply (balanced_after e p p' l None en'); [by apply elsewhere_free|done|done|congruence]|]. split; [done|].
  rewrite (lg_reserved _ _ _ Hl'), (lg_active _ _ _ Hl'), (lg_growth _ _ _ Hl'), (lg_reserved _ _ _ Hl), (lg_active _ _ _ Hl), (lg_growth _ _ _ Hl), !Ht. split; [done|]. split; [done|]. split; [|done].
  intros Hrec'. rewrite <- El in Hin. destruct (lg_entries _ _ _ Hl' id e Hin) as (en1 & He1 & Hok1). rewrite He' in He1. injection He1 as <-. unfold held_growth. rewrite (eo_idle _ Hok Hif0 Hrec), (eo_idle _ Hok1 Hif Hrec'). lia.
Qed.

Lemma resize_exact p l id owner e en size place outcome (Q : result (Z * (Z * nat)) -> nat -> pool -> Prop) : idle p l id owner e en -> closed p = false -> process_released en = false -> 0 <= size <= limit_bytes p ->
  (limit_bytes p < resize_total size en p -> Q (Err (ResourceError "temporary_storage_bytes" (limit_bytes p) (resize_total size en p))) 0%nat p) ->
  (forall err p' en', outcome = Err err -> resize_total size en p <= limit_bytes p -> section_done (waiting_bytes l) (waiting_leases l) e p p' en' -> inflight (resizing en') = false -> reconcile (resizing en') = false -> entry_bytes en' = entry_bytes en -> local_released en' = local_released en ->
    Q (Err err) 0%nat p') ->
  (forall new v p' en', outcome = Ok new -> resize_total size en p <= limit_bytes p -> section_done (waiting_bytes l) (waiting_leases l) e p p' en' -> inflight (resizing en') = false -> reconcile (resizing en') = false ->
    entry_bytes en' = size -> local_released en' = local_released en -> Q (Ok (size, v)) 0%nat p') ->
  wp 0 (_resize_lease (Ok tt) (Ok place) outcome id owner e size) Q p.
Proof.
  intros Hi Hcl Hpr Hsize Hover Hrefused HQ. pose proof (idle_inflight _ _ _ _ _ _ Hi) as (Hif & Hin & Hok). pose proof Hi as [Hb Hfree Hz He Ho Hrec]. pose proof (ba_ledger _ _ Hb) as Hl.
  assert (Hlo : local_released en = false) by (destruct (local_released en) eqn:E; [pose proof (eo_local _ Hok E); congruence|done]).
  unfold _resize_lease. wp_step. wp_step. wp_step. wp_step. unfold _normalize_size. rewrite (proj2 (Z.ltb_ge _ _)) by lia. wp_step. unfold _validate_one_artifact. wp_step. wp_step. rewrite (proj2 (Z.leb_le _ _)) by lia.
  wp_step. wp_step. wp_step. wp_step. unfold begin_resize. wp_step. wp_step. rewrite Hcl. wp_step. eapply authority_mine; [done..|]. wp_step. eapply finish_idle; [done..|]. wp_step. wp_step. rewrite (entry_at_eq e p en He), Hif.
  apply (plan_exact (waiting_bytes l) (waiting_leases l) p id e en); [done|by eapply balanced_nonneg|lia|done..|]. intros Hfit p1 Hs1 Er El. pose proof Hs1 as [Hl1 [He1 _] Els].
  wp_step. wp_step. wp_step. destruct outcome as [new|err].
  - wp_step. eapply (commit_resize_exact _ _ p1 id owner e _ new _ Hl1); [by rewrite Els|done|done|done|done|]. intros r p2 en2 Hs2 (_ & _ & _ & Elo & _) Hif2 Hok2 Hbad. cbn in Elo. destruct r as [v|err].
    + wp_step. destruct (Hok2 v eq_refl) as [Hrec2 Hb2]. cbn in Hb2. eapply HQ; [done|done|by eapply section_done_trans|done..].
    + exfalso. apply (Hbad err eq_refl). cbn. rewrite Er, El. pose proof (total_covers held_bytes p _ _ id e en Hl ltac:(intros x Hx; by apply held_parts_nonneg) Hin He) as Hc. rewrite <- (lg_reserved _ _ _ Hl) in Hc.
      pose proof (total_nonneg held_growth p _ _ Hl ltac:(intros x Hx; by apply held_parts_nonneg)) as Hg. rewrite <- (lg_growth _ _ _ Hl) in Hg. pose proof (balanced_nonneg p l Hb) as Hw. rewrite <- (lg_pending _ _ _ Hl) in Hw.
      unfold held_bytes in Hc. rewrite Hlo in Hc. unfold resize_total in Hfit. lia.
  - wp_step. eapply (undo_exact _ _ p1 id owner e _ _ Hl1); [by rewrite Els|done|done|done|]. intros p2 Hs2. wp_step. eapply Hrefused; [done|done|by eapply section_done_trans|done|by cbn|done|done].
Qed.


(** The entry goes. *)
Record gone (P A : Z) (id : Z) (e : nat) (p p' : pool) (en : entry) : Prop := {
  go_ledger : ledger P A p';
  go_leases : leases p' = zpop id (leases p);
  go_others : forall e', e' <> e -> entries p' !! e' = entries p !! e';
  go_reserved : reserved_bytes p' = reserved_bytes p - held_bytes en;
  go_active : active_leases p' = active_leases p - held_lease en;
  go_replay : replay_released (entry_at e p') = true;
}.

Lemma gone_after P A id e p p1 p' en en1 : ledger P A p -> (id, e) ∈ leases p -> entries p !! e = Some en -> section_done P A e p p1 en1 -> gone P A id e p1 p' en1 -> gone P A id e p p' en.
Proof.
  intros Hl Hin He Hs [H1 H2 H3 H4 H5 H6]. pose proof (fun w => section_total _ _ _ _ w p p1 id e en en1 Hl Hin He Hs) as Ht. pose proof Hs as [Hl1 [_ Ho] El]. split; [done|congruence| | |..|done].
  - intros e' Hne. by rewrite H3, Ho.
  - rewrite H4, (lg_reserved _ _ _ Hl1), (lg_reserved _ _ _ Hl), Ht. lia.
  - rewrite H5, (lg_active _ _ _ Hl1), (lg_active _ _ _ Hl), Ht. lia.
Qed.

Lemma forget_gone P A p id owner e en (Q : result unit -> nat -> pool -> Prop) : ledger P A p -> zget id (leases p) = Some e -> entries p !! e = Some en -> owner_id en = owner ->
  inflight (resizing en) = false -> reconcile (resizing en) = false -> local_released en = true -> control_ticket en = None -> (forall p', gone P A id e p p' en -> Q (Ok tt) 0%nat p') -> wp 0 (forget id owner e e) Q p.
Proof.
  intros Hl Hz He Ho Hif Hrec Hlo Hct HQ. destruct (mine_ok P A p id e en Hl Hz He) as [Hok Hin]. unfold forget. wp_step. eapply authority_mine; [done..|]. wp_step. wp_step. rewrite Nat.eqb_refl, (entry_at_eq e p en He), Hlo, Hct.
  cbn [andb]. rewrite bool_decide_true by done. cbn [whenM]. wp_step. apply wp_store; [|lia]. apply wp_store; [|lia].
  assert (Hother : forall e', e' <> e -> alter with_replay_released e (entries p) !! e' = entries p !! e') by (intros e' Hne; by rewrite list_lookup_alter_ne).
  apply HQ. split; pools; [|done|done|unfold held_bytes; rewrite Hlo; lia|unfold held_lease; rewrite Hlo; lia|].
  - eapply ledger_pop; pools; try done; unfold held_bytes, held_lease, held_growth, held_inflight; rewrite ?Hlo, ?Hif; try done. by apply (eo_idle _ Hok).
  - unfold entry_at. pools. by rewrite list_lookup_alter_eq, He.
Qed.

(** What follows the governor's release. *)
Lemma tail_exact P A p id owner e en (Q : result unit -> nat -> pool -> Prop) : ledger P A p -> zget id (leases p) = Some e -> entries p !! e = Some en -> owner_id en = owner ->
  process_released en = true -> inflight (resizing en) = false -> reconcile (resizing en) = false -> (forall p', gone P A id e p p' en -> Q (Ok tt) 0%nat p') ->
  wp 0 (ticket ← release_locally id owner e e;
        match ticket with
        | Some t =>
          done ← liftR (Ok true);
          if negb done then raise RuntimeError else ticket_retired id owner e e t
        | None => ret tt
        end;;
        forget id owner e e) Q p.
Proof.
  intros Hl Hz He Ho Hpr Hif Hrec HQ. destruct (mine_ok P A p id e en Hl Hz He) as [Hok Hin]. wp_step. eapply (locally_exact P A p id owner e en Hl Hz He Ho); [done..|]. intros p1 en1 Hs1 Hen1. pose proof Hs1 as [Hl1 [He1 _] El1].
  assert (owner_id en1 = owner /\ inflight (resizing en1) = false /\ reconcile (resizing en1) = false /\ local_released en1 = true /\ control_ticket en1 = control_ticket en) as (Ho1 & Hif1 & Hrec1 & Hlo1 & Hct1) by (by destruct Hen1 as [[-> ?]| ->]).
  wp_step. rewrite <- El1 in Hz. destruct (control_ticket en) as [t|].
  - wp_step. wp_step. cbn [negb]. eapply (ticket_exact P A p1 id owner e en1 Hl1 Hz He1 Ho1). intros p2 en2 Hs2 [[_ Hno]| ->]; [congruence|]. pose proof Hs2 as [Hl2 [He2 _] El2]. rewrite <- El2 in Hz.
    eapply (forget_gone P A p2 id owner e _ _ Hl2 Hz He2); [done..|]. intros p3 Hg. apply HQ. eapply gone_after; [done|done|done|by eapply section_done_trans|done].
  - wp_step. eapply (forget_gone P A p1 id owner e _ _ Hl1 Hz He1); [done..|]. intros p3 Hg. apply HQ. by eapply gone_after.
Qed.

(** The governor lets the capability go, or has done so before. *)
Definition granted (outcome : result bool) (still_active : bool) (en : entry) : bool :=
  process_released en || match outcome with Ok released => released || negb still_active | Err _ => false end.

Lemma release_authority_exact p l id owner e en outcome still_active (Q : result unit -> nat -> pool -> Prop) : idle p l id owner e en ->
  (forall p', granted outcome still_active en = true -> gone (waiting_bytes l) (waiting_leases l) id e p p' en -> Q (Ok tt) 0%nat p') ->
  (forall err p' en', granted outcome still_active en = false -> section_done (waiting_bytes l) (waiting_leases l) e p p' en' -> same_books en en' -> Q (Err err) 0%nat p') ->
  wp 0 (_release_lease_authority outcome still_active (Ok true) id owner e) Q p.
Proof.
  intros Hi HQ Hrefused. pose proof (idle_inflight _ _ _ _ _ _ Hi) as (Hif & Hin & Hok). destruct Hi as [Hb Hfree Hz He Ho Hrec]. pose proof (ba_ledger _ _ Hb) as Hl. unfold granted in *.
  unfold _release_lease_authority. wp_step. unfold claim_release. wp_step. wp_step. wp_step. wp_step. rewrite Hz. wp_step. wp_step. rewrite (entry_at_eq e p en He), Ho, !Nat.eqb_refl, (eo_replay _ Hok). cbn [andb negb]. wp_step.
  eapply finish_idle; [done..|]. wp_step. wp_step. rewrite (entry_at_eq e p en He). destruct (process_released en) eqn:Hpr; cbn [negb].
  { wp_step. wp_step. cbn [whenM bool_decide]. rewrite bool_decide_false by (by intros []). cbn [whenM]. wp_step. eapply tail_exact; [done..|]. intros p' Hg. by apply HQ. }
  wp_step. apply wp_store; [|lia]. wp_step. wp_step. rewrite bool_decide_true by (by eexists). cbn [whenM]. wp_step. wp_step.
  pose proof (note_like _ _ p id e en (with_release_inflight true) Hl Hin He ltac:(by repeat split)) as Hs1. pose proof Hs1 as [Hl1 [He1 _] El1]. cbn [orb] in *.
  assert (Hno : forall err p2, match outcome with Ok released => released || negb still_active | Err _ => false end = false ->
    section_done (waiting_bytes l) (waiting_leases l) e (on_entry e (with_release_inflight true) p) p2 (with_release_inflight false (with_release_inflight true en)) -> Q (Err err) 0%nat p2).
  { intros err p2 Hg Hs2. eapply Hrefused; [done|by eapply section_done_trans|by repeat split]. }
  destruct outcome as [released|err]; cbn [orb] in *; wp_step.
  - wp_step. destruct (negb released && still_active) eqn:Hd.
    + wp_step. wp_step. eapply (refused_exact _ _ _ id owner e _ Hl1); [by rewrite El1|done|done|]. intros p2 Hs2. wp_step. apply Hno; [|done]. by destruct released, still_active.
    + wp_step. eapply (accepted_exact _ _ _ id owner e _ Hl1); [by rewrite El1|done..|]. intros p2 Hs2. pose proof Hs2 as [Hl2 [He2 _] El2].
      eapply (tail_exact _ _ p2 id owner e _ _ Hl2); [by rewrite El2, El1|done..|]. intros p' Hg. apply HQ; [by destruct released, still_active|]. eapply gone_after; [done|done|done|by eapply section_done_trans|done].
  - wp_step. wp_step. eapply (refused_exact _ _ _ id owner e _ Hl1); [by rewrite El1|done|done|]. intros p2 Hs2. wp_step. by apply Hno.
Qed.


(** ** A pool of 100 bytes *)

Module PoolExample.

Definition p1 : pool := snd (run (begin_admission 0) (new_pool 100)).
Definition p2 : pool := snd (run (publish 7 0 1 2 1 11 21) p1).
Definition p3 : pool := snd (run (begin_resize 1 7 0 100 1 2) p2).
Definition p4 : pool := snd (run (begin_admission 100) p3).
Definition p5 : pool := snd (run (commit_resize 1 7 0 0 12) p4).
Definition p6 : pool := snd (run (publish 8 100 1 2 1 13 22) p5).

Lemma reach_p2 : rtc step (new_pool 100, []) (p2, []).
Proof.
  eapply rtc_l; [eapply (step_admit _ _ 0 (Ok true) p1); [lia|by vm_compute]|]. eapply rtc_l; [|apply rtc_refl]. eapply (step_publish p1 _ [] 7 0 1 2 1 11 21 (Ok (1, 0%nat)) p2); [reflexivity|by vm_compute].
Qed.

Lemma reach_p4 : rtc step (new_pool 100, []) (p4, [Reserving 100; Resizing 1 7 0]).
Proof.
  etransitivity; [apply reach_p2|]. eapply rtc_l; [eapply (step_begin p2 [] 1 7 0 100 1 2 (Ok 0%nat) p3); [lia|apply not_elem_of_nil|by vm_compute]|].
  eapply rtc_l; [|apply rtc_refl]. eapply (step_admit p3 _ 100 (Ok true) p4); [lia|by vm_compute].
Qed.

(** C16: a pool never reserves more than twice its limit, and that much it can.  In every state that threads reach, the reserved bytes, those that wait for publication and
    the growth that is held back are at most twice the limit together.  An acquisition is admitted without regard to the growth that a resize under way has been
    promised; both then complete, and a pool with a limit of 100 bytes has reserved 200. *)
Theorem pool_overcommits :
  (forall limit p l, 0 <= limit -> rtc step (new_pool limit, []) (p, l) ->
     0 <= reserved_bytes p /\ reserved_bytes p + pending_reserved_bytes p + pending_resize_growth p <= 2 * limit /\ reserved_bytes p <= peak_reserved_bytes p <= 2 * limit)
  /\ rtc step (new_pool 100, []) (p6, []) /\ limit_bytes p6 = 100 /\ reserved_bytes p6 = 200.
Proof.
  split; [exact pool_bounded|]. split; [|by vm_compute]. etransitivity; [apply reach_p4|].
  eapply rtc_l; [eapply (step_commit p4 _ [Reserving 100] 1 7 0 12 (fst (run (commit_resize 1 7 0 0 12) p4)) p5); [by apply Permutation_swap|by vm_compute|by vm_compute]|].
  eapply rtc_l; [|apply rtc_refl]. eapply (step_publish p5 _ [] 8 100 1 2 1 13 22 (Ok (2, 1%nat)) p6); [reflexivity|by vm_compute].
Qed.

Lemma pool_ledger_exact_witness : reserved_bytes p4 = total held_bytes p4 /\ pending_reserved_bytes p4 = 100 /\ resize_inflight p4 = 1 /\ pending_resize_growth p4 = 100.
Proof.
  pose proof (pool_ledger_exact 100 p4 _ ltac:(lia) reach_p4) as G. destruct G as (G1 & _ & _ & G2 & _ & G3 & _). rewrite G2, G3. split; [exact G1|]. split; [reflexivity|]. split; reflexivity.
Defined.



End PoolExample.
