(* ===== verification/StreamingStorage.v ===== *)
(** * StreamingStorage: leases of temporary storage and the streams that grow them

    [TemporaryStorageLease] and [StreamingStorageReservation] of
    [core_impl/temporary_storage.py].  A lease keeps its size beside the pool's entry
    and resizes it; any number of streams share one lease and grow it in blocks before
    they write.  What the pool is told while it resizes is an argument of each call.
    The finalizer tickets of a lease, and with them its release, and its use in
    a forked child are not modelled. *)

From Stdlib Require Import String.
From S2P Require Import Prelude BoundedGeneration CoordinationJournal StorageGovernor TemporaryStorage.

#[local] Open Scope Z_scope.

(** ** Leases *)

(** [lease_id] is 0 for a lease without an entry in its pool. *)
Record lease : Type := mk_lease {
  lease_bytes : Z;
  lease_key : Z;
  lease_path : nat;
  lease_inodes : Z;
  lease_released : bool;
  lease_id : Z;
  lease_owner : nat;
  lease_capability : nat;
}.

Definition set_bytes v (x : lease) : lease := mk_lease v (lease_key x) (lease_path x) (lease_inodes x) (lease_released x) (lease_id x) (lease_owner x) (lease_capability x).
Definition set_key v (x : lease) : lease := mk_lease (lease_bytes x) v (lease_path x) (lease_inodes x) (lease_released x) (lease_id x) (lease_owner x) (lease_capability x).
Definition set_path v (x : lease) : lease := mk_lease (lease_bytes x) (lease_key x) v (lease_inodes x) (lease_released x) (lease_id x) (lease_owner x) (lease_capability x).
Definition set_identity id capability (x : lease) : lease := mk_lease (lease_bytes x) (lease_key x) (lease_path x) (lease_inodes x) (lease_released x) id (lease_owner x) capability.
Definition set_released v (x : lease) : lease := mk_lease (lease_bytes x) (lease_key x) (lease_path x) (lease_inodes x) v (lease_id x) (lease_owner x) (lease_capability x).

Definition new_lease (owner : nat) (reserved_bytes filesystem_key : Z) (filesystem_path : nat) (inode_count : Z) : lease :=
  mk_lease reserved_bytes filesystem_key filesystem_path (Z.max 0 inode_count) true 0 owner 0.

Definition _activate (filesystem_key id : Z) (capability : nat) (x : lease) : lease :=
  set_released false (set_identity id capability (set_key filesystem_key x)).

(** What a resize is told: by the check for cancellation, about the file system of
    the path, and by the governor. *)
Record verdict : Type := mk_verdict {
  on_cancelled : result unit;
  on_filesystem : nat -> result (Z * nat);
  on_resize_capability : result nat;
}.

Definition with_pool {A} (m : M pool A) : M (pool * lease) A := zoom fst (fun p s => (p, snd s)) m.

Definition on_lease (f : lease -> lease) (s : pool * lease) : pool * lease := (fst s, f (snd s)).

Definition reserved (x : lease) : M pool Z :=
  if lease_released x then ret 0
  else if lease_id x =? 0 then ret (lease_bytes x)
  else _lease_reserved_bytes (lease_id x) (lease_owner x) (lease_capability x).

Definition resize (v : verdict) (size_bytes : Z) (path : option nat) : M (pool * lease) unit :=
  x ← reads snd;
  if lease_released x then raise RuntimeError
  else if lease_id x =? 0 then raise RuntimeError
  else
    let effective_path := default (lease_path x) path in
    resized ← with_pool (_resize_lease (on_cancelled v) (on_filesystem v effective_path) (on_resize_capability v) (lease_id x) (lease_owner x) (lease_capability x) size_bytes);
    store (on_lease (set_bytes (fst resized)));;
    store (on_lease (set_key (fst (snd resized))));;
    store (on_lease (set_path (snd (snd resized)))).

Definition adjust (v : verdict) (delta_bytes : Z) (path : option nat) : M (pool * lease) Z :=
  x ← reads snd;
  if lease_released x then raise RuntimeError
  else if lease_id x =? 0 then raise RuntimeError
  else
    let requested_size := lease_bytes x + delta_bytes in
    if requested_size <? 0 then raise ValueError
    else
      let effective_path := default (lease_path x) path in
      resized ← with_pool (_resize_lease (on_cancelled v) (on_filesystem v effective_path) (on_resize_capability v) (lease_id x) (lease_owner x) (lease_capability x) requested_size);
      store (on_lease (set_bytes (fst resized)));;
      store (on_lease (set_key (fst (snd resized))));;
      store (on_lease (set_path (snd (snd resized))));;
      ret (fst resized).

(** ** Streams *)

(** [has_lease] is whether the stream was given a lease. *)
Record stream : Type := mk_stream {
  has_lease : bool;
  credit : Z;
  extra : Z;
  written : Z;
  stream_path : nat;
  quantum : Z;
}.

Definition set_credit v (s : stream) : stream := mk_stream (has_lease s) v (extra s) (written s) (stream_path s) (quantum s).
Definition set_extra v (s : stream) : stream := mk_stream (has_lease s) (credit s) v (written s) (stream_path s) (quantum s).
Definition set_written v (s : stream) : stream := mk_stream (has_lease s) (credit s) (extra s) v (stream_path s) (quantum s).

(** [pool_limit] is the limit of the lease's pool, if there is a lease. *)
Definition new_stream (pool_limit : option Z) (initial_credit_bytes : Z) (path : nat) (quantum_bytes : Z) : stream :=
  let configured_quantum := Z.max (64 * 1024) quantum_bytes in
  let quantum := match pool_limit with
                 | Some limit => if 0 <? limit then Z.max 1 (Z.min configured_quantum limit) else configured_quantum
                 | None => configured_quantum
                 end in
  mk_stream (bool_decide (is_Some pool_limit)) (Z.max 0 initial_credit_bytes) 0 0 path quantum.

Definition desk : Type := (pool * lease) * stream.

Definition on_stream (f : stream -> stream) (s : desk) : desk := (fst s, f (snd s)).

Definition before_write (v : verdict) (not_cancelled : result unit) (chunk_bytes : Z) : M desk unit :=
  let amount := Z.max 0 chunk_bytes in
  if amount =? 0 then ret tt
  else
    liftR not_cancelled;;
    s ← reads snd;
    let desired := written s + amount in
    let covered := credit s + extra s in
    whenM (has_lease s && (covered <? desired)) (
      let shortage := desired - covered in
      let growth := (shortage + quantum s - 1) / quantum s * quantum s in
      onS (adjust v growth (Some (stream_path s)));;
      store (on_stream (fun s => set_extra (extra s + growth) s)));;
    store (on_stream (set_written desired)).

Definition reset_after_truncate (v : verdict) : M desk unit :=
  s ← reads snd;
  whenM (has_lease s && negb (extra s =? 0)) (onS (adjust v (- extra s) (Some (stream_path s)));; ret tt);;
  store (on_stream (set_extra 0));;
  store (on_stream (set_written 0)).

(** [size_on_disk] is the answer of [stat] to a caller that does not name the size. *)
Definition finalize (v : verdict) (size_on_disk : result Z) (actual_size_bytes : option Z) : M desk unit :=
  actual ← (match actual_size_bytes with None => liftR size_on_disk | Some n => ret (Z.max 0 n) end);
  s ← reads snd;
  let reserved := credit s + extra s in
  whenM (has_lease s && negb (actual =? reserved)) (onS (adjust v (actual - reserved) (Some (stream_path s)));; ret tt);;
  store (on_stream (set_credit actual));;
  store (on_stream (set_extra 0));;
  store (on_stream (set_written actual)).

(** ** Theorems *)

Lemma uncut_sections id owner capability e requested key path new :
  uncut (begin_resize id owner capability requested key path) /\ uncut (undo_resize id owner capability e) /\ uncut (commit_resize id owner capability e new).
Proof.
  unfold begin_resize, undo_resize, commit_resize, lose_resize, _finish_pending_resize_locked, _finish_resize_inflight_locked, _consume_pending_resize_growth_locked, _lease_entry_authority_locked, clear_target.
  split; [|split]; stay_uncut.
Qed.

(** A resize that succeeds has the size it was asked for. *)
Lemma resize_size cancelled place outcome id owner capability size p : wp 0 (_resize_lease cancelled place outcome id owner capability size) (fun r _ _ => forall n v, r = Ok (n, v) -> n = size) p.
Proof.
  pose proof uncut_sections as Hq. unfold _resize_lease. wp_step. wp_step. destruct cancelled; [|done]. wp_step. wp_step. unfold _normalize_size. destruct (size <? 0); [done|]. wp_step. unfold _validate_one_artifact. wp_step. wp_step.
  destruct (size <=? limit_bytes p); wp_step; [|done]. wp_step. wp_step. destruct place as [place|]; [|done]. wp_step. apply uncut_wp; [by apply Hq|]. intros [e|err] p1; [|done]. wp_step. wp_step. wp_step.
  destruct outcome as [new|err]; [|wp_step; apply uncut_wp; [by apply Hq|]; intros [u|err'] p2; [by wp_step|done]]. wp_step. apply uncut_wp; [by apply Hq|]. intros [at_last|err] p2; [|done]. wp_step. by intros n v [= <- _].
Qed.

Lemma adjust_exact v delta path p x (Q : result Z -> nat -> pool * lease -> Prop) : (forall err p', Q (Err err) 0%nat (p', x)) ->
  (forall p' key at_path, Q (Ok (lease_bytes x + delta)) 0%nat (p', set_path at_path (set_key key (set_bytes (lease_bytes x + delta) x)))) -> wp 0 (adjust v delta path) Q (p, x).
Proof.
  intros Herr HQ. unfold adjust. wp_step. wp_step. cbn [snd]. destruct (lease_released x); [by wp_step|]. destruct (_ =? _); [by wp_step|]. destruct (_ <? _); [by wp_step|]. cbv zeta. wp_step. apply wp_zoom. cbn [fst snd].
  eapply wp0_mono; [apply resize_size|]. intros [[n [key at_path]]|err] p' Hr; [|apply Herr]. rewrite (Hr n (key, at_path) eq_refl). cbn [fst snd]. do 3 (wp_step; apply wp_store; [|lia]). wp_step. apply HQ.
Qed.

(** ** Any number of streams on one lease *)

Definition covered (s : stream) : Z := credit s + extra s.

(** What a stream promises. *)
Record stream_ok (s : stream) : Prop := {
  so_credit : 0 <= credit s;
  so_extra : 0 <= extra s;
  so_quantum : 0 < quantum s;
  so_written : 0 <= written s;
  so_within : has_lease s = true -> written s <= covered s;
}.

Lemma new_stream_ok pool_limit initial path q : stream_ok (new_stream pool_limit initial path q).
Proof. unfold new_stream. split; cbn [credit extra quantum written has_lease covered]; unfold covered; cbn [credit extra]; try lia. destruct pool_limit as [limit|]; [destruct (0 <? limit)|]; lia. Qed.

(** The calls of a stream. *)
Inductive call : Type :=
| Write (not_cancelled : result unit) (chunk_bytes : Z)
| Truncate
| Finalize (size_on_disk : result Z) (actual_size_bytes : option Z).

Definition call_of (v : verdict) (c : call) : M desk unit :=
  match c with
  | Write not_cancelled chunk_bytes => before_write v not_cancelled chunk_bytes
  | Truncate => reset_after_truncate v
  | Finalize size_on_disk actual_size_bytes => finalize v size_on_disk actual_size_bytes
  end.

(** The least multiple of the quantum that covers the shortage. *)
Lemma block_bounds shortage q : 0 < q -> 0 < shortage -> shortage <= (shortage + q - 1) / q * q < shortage + q.
Proof. intros Hq Hs. pose proof (Z.div_mod (shortage + q - 1) q ltac:(lia)). pose proof (Z.mod_pos_bound (shortage + q - 1) q Hq). nia. Qed.

(** The effect of a call on the lease and on its stream. *)
Record settled_call (x x' : lease) (s s' : stream) : Prop := {
  sc_ok : stream_ok s';
  sc_lease : has_lease s' = has_lease s;
  sc_bytes : lease_bytes x' - lease_bytes x = if has_lease s then covered s' - covered s else 0;
}.

Lemma write_settled v nc chunk p x s : stream_ok s -> wp 0 (before_write v nc chunk) (fun r _ d => settled_call x (snd (fst d)) s (snd d)
  /\ (r = Ok tt -> written (snd d) = written s + Z.max 0 chunk) /\ (forall err, r = Err err -> snd (fst d) = x /\ snd d = s) /\ (has_lease s = true -> covered (snd d) = covered s \/ covered (snd d) < written (snd d) + quantum s)) ((p, x), s).
Proof.
  intros [H1 H2 H3 H4 H5]. assert (Hsame : settled_call x x s s) by (split; [done|done|destruct (has_lease s); lia]). unfold before_write. cbv zeta. destruct (Z.eqb_spec (Z.max 0 chunk) 0) as [E|E].
  { wp_step. cbn [fst snd]. split; [done|]. split; [intros _; lia|]. split; [done|]. by left. }
  wp_step. wp_step. destruct nc as [[]|err]; cbn [fst snd]; [|split; [done|split; [done|split; [done|by left]]]]. wp_step. wp_step. cbn [fst snd]. wp_step. destruct (has_lease s) eqn:Hls; cbn [andb].
  - fold (covered s). destruct (covered s <? written s + Z.max 0 chunk) eqn:Hc; cbn [whenM].
    + apply Z.ltb_lt in Hc. set (shortage := written s + Z.max 0 chunk - covered s). pose proof (block_bounds shortage (quantum s) H3 ltac:(unfold shortage; lia)) as Hbl. set (growth := (shortage + quantum s - 1) / quantum s * quantum s) in *.
      wp_step. apply wp_onS. apply adjust_exact; [intros err p'; cbn [fst snd]; split; [done|split; [done|split; [done|by left]]]|]. intros p' key at_path. do 2 (apply wp_store; [|lia]). cbn [fst snd on_stream set_extra set_written written set_path set_key set_bytes lease_bytes].
      unfold covered in *. cbn [credit extra]. split; [split; cbn; unfold covered; cbn; try done; try lia|]. { split; cbn; unfold covered, shortage in *; cbn; try done; try lia. } { rewrite Hls. lia. }
      split; [done|]. split; [done|]. intros _. right. cbn. unfold shortage in *. lia.
    + apply Z.ltb_ge in Hc. wp_step. apply wp_store; [|lia]. cbn [fst snd on_stream set_written written]. split; [split; cbn; unfold covered in *; cbn; try done; try lia|]. { split; cbn; unfold covered in *; cbn; try done; try lia. } { rewrite Hls. lia. }
      split; [done|]. split; [done|]. by left.
  - cbn [whenM]. wp_step. apply wp_store; [|lia]. cbn [fst snd on_stream set_written written]. split; [split; cbn; try done; try lia|split; [done|split; [done|done]]]. { split; cbn; try done; try lia. intros; congruence. } { rewrite Hls. lia. }
Qed.

Lemma truncate_settled v p x s : stream_ok s -> wp 0 (reset_after_truncate v) (fun r _ d => settled_call x (snd (fst d)) s (snd d)
  /\ (r = Ok tt -> written (snd d) = 0 /\ covered (snd d) = credit s) /\ (forall err, r = Err err -> snd (fst d) = x /\ snd d = s)) ((p, x), s).
Proof.
  intros [H1 H2 H3 H4 H5]. assert (Hsame : settled_call x x s s) by (split; [done|done|destruct (has_lease s); lia]).
  assert (Hend : forall x', lease_bytes x' - lease_bytes x = (if has_lease s then - extra s else 0) -> settled_call x x' s (set_written 0 (set_extra 0 s)) /\ covered (set_written 0 (set_extra 0 s)) = credit s).
  { intros x' Hx'. unfold covered. cbn. split; [|lia]. split; [split; unfold covered; cbn; try done; lia|done|]. rewrite Hx'. unfold covered. cbn. destruct (has_lease s); lia. }
  unfold reset_after_truncate. wp_step. wp_step. cbn [snd]. wp_step. destruct (has_lease s && negb (extra s =? 0)) eqn:Hc; cbn [whenM].
  - apply andb_prop in Hc as [Hls _]. wp_step. apply wp_onS. apply adjust_exact; [intros err p'; by cbn [fst snd]|]. intros p' key at_path. wp_step. wp_step. apply wp_store; [|lia]. apply wp_store; [|lia]. cbn [fst snd on_stream].
    destruct (Hend (set_path at_path (set_key key (set_bytes (lease_bytes x + - extra s) x)))) as [Hs Hc]; [rewrite Hls; cbn; lia|]. done.
  - wp_step. wp_step. apply wp_store; [|lia]. apply wp_store; [|lia]. cbn [fst snd on_stream]. destruct (Hend x) as [Hs Hcov]; [|done]. apply andb_false_iff in Hc as [->|Hx%negb_false_iff%Z.eqb_eq]; [lia|]. rewrite Hx. destruct (has_lease s); lia.
Qed.

(** [stat] never answers a negative size. *)
Definition size_ok (size_on_disk : result Z) : Prop := forall n, size_on_disk = Ok n -> 0 <= n.

Lemma finalize_settled v size_on_disk actual_size_bytes p x s : stream_ok s -> size_ok size_on_disk -> wp 0 (finalize v size_on_disk actual_size_bytes) (fun r _ d => settled_call x (snd (fst d)) s (snd d)
  /\ (r = Ok tt -> covered (snd d) = written (snd d) /\ (forall n, actual_size_bytes = Some n -> written (snd d) = Z.max 0 n)) /\ (forall err, r = Err err -> snd (fst d) = x /\ snd d = s)) ((p, x), s).
Proof.
  intros [H1 H2 H3 H4 H5] Hdisk. assert (Hsame : settled_call x x s s) by (split; [done|done|destruct (has_lease s); lia]).
  assert (Hmain : forall actual, 0 <= actual -> (forall n, actual_size_bytes = Some n -> actual = Z.max 0 n) -> wp 0 (
    s ← reads snd;
    let reserved := credit s + extra s in
    whenM (has_lease s && negb (actual =? reserved)) (onS (adjust v (actual - reserved) (Some (stream_path s)));; ret tt);;
    store (on_stream (set_credit actual));;
    store (on_stream (set_extra 0));;
    store (on_stream (set_written actual))) (fun r _ d => settled_call x (snd (fst d)) s (snd d)
      /\ (r = Ok tt -> covered (snd d) = written (snd d) /\ (forall n, actual_size_bytes = Some n -> written (snd d) = Z.max 0 n)) /\ (forall err, r = Err err -> snd (fst d) = x /\ snd d = s)) ((p, x), s)).
  { intros actual Ha Hn. assert (Hend : forall x', lease_bytes x' - lease_bytes x = (if has_lease s then actual - (credit s + extra s) else 0) -> settled_call x x' s (set_written actual (set_extra 0 (set_credit actual s)))).
    { intros x' Hx'. split; [split; unfold covered; cbn; try done; lia|done|]. rewrite Hx'. unfold covered. cbn. destruct (has_lease s); lia. }
    wp_step. wp_step. cbn [snd]. cbv zeta. wp_step. destruct (has_lease s && negb (actual =? credit s + extra s)) eqn:Hc; cbn [whenM].
    - apply andb_prop in Hc as [Hls _]. wp_step. apply wp_onS. apply adjust_exact; [intros err p'; by cbn [fst snd]|]. intros p' key at_path. wp_step. do 2 (wp_step; apply wp_store; [|lia]). apply wp_store; [|lia]. cbn [fst snd on_stream].
      split; [apply Hend; rewrite Hls; cbn; lia|]. split; [|done]. intros _. unfold covered. cbn. split; [lia|done].
    - wp_step. do 2 (wp_step; apply wp_store; [|lia]). apply wp_store; [|lia]. cbn [fst snd on_stream]. split; [|split; [|done]; intros _; unfold covered; cbn; split; [lia|done]].
      apply Hend. apply andb_false_iff in Hc as [->|Hx%negb_false_iff%Z.eqb_eq]; [lia|]. rewrite Hx. destruct (has_lease s); lia. }
  unfold finalize. wp_step. destruct actual_size_bytes as [n|]; wp_step.
  - apply Hmain; [lia|]. by intros n' [= ->].
  - destruct size_on_disk as [n|err]; [|done]. apply Hmain; [by apply Hdisk|done].
Qed.

Definition call_ok (c : call) : Prop := match c with Finalize size_on_disk _ => size_ok size_on_disk | _ => True end.

Lemma call_settled v c p x s : stream_ok s -> call_ok c -> wp 0 (call_of v c) (fun _ _ d => settled_call x (snd (fst d)) s (snd d)) ((p, x), s).
Proof.
  intros Hs Hc. destruct c as [nc chunk| |size actual]; cbn [call_of].
  - eapply wp0_mono; [by apply write_settled|]. by intros r d [H _].
  - eapply wp0_mono; [by apply truncate_settled|]. by intros r d [H _].
  - eapply wp0_mono; [by apply finalize_settled|]. by intros r d [H _].
Qed.

(** A call of the stream [i], with the answers it gets and the pool as the other
    threads have left it. *)
Record event : Type := mk_event {
  ev_stream : nat;
  ev_verdict : verdict;
  ev_pool : pool;
  ev_call : call;
}.

Definition happen (st : lease * list stream) (ev : event) : lease * list stream :=
  match snd st !! ev_stream ev with
  | None => st
  | Some s => let d := snd (run (call_of (ev_verdict ev) (ev_call ev)) ((ev_pool ev, fst st), s)) in (snd (fst d), <[ev_stream ev := snd d]> (snd st))
  end.

(** The bytes of the lease that the streams have taken. *)
Definition taken (ss : list stream) : Z := zsum (map (fun s => if has_lease s then covered s else 0) ss).

Lemma zsum_app l k : zsum (l ++ k) = zsum l + zsum k.
Proof. unfold zsum. induction l as [|x l IH]; cbn [app foldr]; lia. Qed.

Lemma taken_insert ss i s s' : ss !! i = Some s -> taken (<[i:=s']> ss) = taken ss - (if has_lease s then covered s else 0) + (if has_lease s' then covered s' else 0).
Proof.
  intros Hi. rewrite <- (take_drop_middle ss i s Hi) at 2. rewrite insert_take_drop by (by eapply lookup_lt_Some). unfold taken. rewrite !map_app, !zsum_app. unfold zsum. cbn [map foldr]. lia.
Qed.

Lemma happen_exact st ev : Forall stream_ok (snd st) -> call_ok (ev_call ev) ->
  Forall stream_ok (snd (happen st ev)) /\ lease_bytes (fst (happen st ev)) - taken (snd (happen st ev)) = lease_bytes (fst st) - taken (snd st).
Proof.
  intros Hok Hc. unfold happen. destruct (snd st !! ev_stream ev) as [s|] eqn:Hi; [|done]. pose proof (proj1 (Forall_lookup _ _) Hok _ _ Hi) as Hs.
  cbv zeta. match goal with |- context [<[_ := snd ?d0]> _] => assert (Hd : settled_call (fst st) (snd (fst d0)) s (snd d0)); [|generalize dependent d0] end.
  { by apply (wp_run _ (fun _ d => settled_call (fst st) (snd (fst d)) s (snd d))), call_settled. }
  intros d [H1 H2 H3]. cbn [fst snd].
  split; [by apply Forall_insert|]. rewrite (taken_insert _ _ s) by done. rewrite H2. destruct (has_lease s); lia.
Qed.

(** A stream as it was made. *)
Record spec : Type := mk_spec {
  sp_limit : option Z;
  sp_credit : Z;
  sp_path : nat;
  sp_quantum : Z;
}.

Definition opened (sp : spec) : stream := new_stream (sp_limit sp) (sp_credit sp) (sp_path sp) (sp_quantum sp).

(** C15: any number of streams share a lease, and the pool does what it likes between their calls.  After any sequence of writes, truncations and finalizations, whichever of
    them fail, the lease has changed by exactly what the streams have taken beyond their credit, and no stream with a lease has written more than it has covered. *)
Theorem streams_share_exact x specs events : Forall (fun ev => call_ok (ev_call ev)) events ->
  let st := fold_left happen events (x, map opened specs) in
  lease_bytes (fst st) = lease_bytes x + (taken (snd st) - taken (map opened specs)) /\ Forall (fun s => has_lease s = true -> written s <= covered s) (snd st).
Proof.
  intros Hev. cbv zeta. assert (H0 : Forall stream_ok (snd (x, map opened specs))) by (apply Forall_map, Forall_true; intros sp; apply new_stream_ok).
  assert (Hgen : forall evs st, Forall (fun ev => call_ok (ev_call ev)) evs -> Forall stream_ok (snd st) ->
    Forall stream_ok (snd (fold_left happen evs st)) /\ lease_bytes (fst (fold_left happen evs st)) - taken (snd (fold_left happen evs st)) = lease_bytes (fst st) - taken (snd st)).
  { induction evs as [|ev evs IH]; intros st He Hs; [done|]. apply Forall_cons in He as [He1 He2]. destruct (happen_exact st ev Hs He1) as [Hs' E]. cbn [fold_left]. destruct (IH (happen st ev) He2 Hs') as [IH1 IH2]. split; [done|lia]. }
  destruct (Hgen events (x, map opened specs) Hev H0) as [Hs E]. cbn [fst snd] in E. split; [lia|]. eapply Forall_impl; [exact Hs|]. by intros s [_ _ _ _ H].
Qed.

(** The streams that calls lead to. *)
Definition made (s : stream) : Prop :=
  exists x specs events, Forall (fun ev => call_ok (ev_call ev)) events /\ s ∈ snd (fold_left happen events (x, map opened specs)).

Lemma made_ok s : made s -> stream_ok s.
Proof.
  intros (x & specs & events & Hev & Hin). assert (Hgen : forall st, Forall stream_ok (snd st) -> Forall stream_ok (snd (fold_left happen events st))).
  { clear -Hev. induction Hev as [|ev evs He _ IH]; intros st Hs; [done|]. cbn [fold_left]. apply IH. by apply happen_exact. }
  assert (H0 : Forall stream_ok (snd (x, map opened specs))) by (apply Forall_map, Forall_true; intros sp; apply new_stream_ok).
  apply (proj1 (Forall_forall _ _) (Hgen _ H0) s Hin).
Qed.

(** A write that succeeds puts exactly the chunk behind the stream and leaves less than a quantum covered beyond it if the lease had to grow; a finalization covers
    exactly the size it is given, and a truncation returns to the credit.  A call that fails leaves the lease and the stream as they were. *)
Theorem stream_calls_exact v c p x s : made s -> call_ok c ->
  let '(r, d) := run (call_of v c) ((p, x), s) in
  match r with
  | Err _ => snd (fst d) = x /\ snd d = s
  | Ok _ =>
    match c with
    | Write _ chunk => written (snd d) = written s + Z.max 0 chunk /\ (has_lease s = true -> covered (snd d) = covered s \/ covered (snd d) < written (snd d) + quantum s)
    | Truncate => written (snd d) = 0 /\ covered (snd d) = credit s
    | Finalize _ actual => covered (snd d) = written (snd d) /\ (forall n, actual = Some n -> written (snd d) = Z.max 0 n)
    end
  end.
Proof.
  intros Hs%made_ok Hc. destruct (run _ _) as [r d] eqn:E. destruct c as [nc chunk| |size actual]; cbn [call_of] in E.
  - pose proof (wp_run _ (fun r d => _) _ (write_settled v nc chunk p x s Hs)) as H. rewrite E in H. destruct H as (_ & H1 & H2 & H3). cbn [fst snd] in *. destruct r as [[]|err]; [split; [by apply H1|done]|by apply (H2 err)].
  - pose proof (wp_run _ (fun r d => _) _ (truncate_settled v p x s Hs)) as H. rewrite E in H. destruct H as (_ & H1 & H2). cbn [fst snd] in *. destruct r as [[]|err]; [by apply H1|by apply (H2 err)].
  - pose proof (wp_run _ (fun r d => _) _ (finalize_settled v size actual p x s Hs Hc)) as H. rewrite E in H. destruct H as (_ & H1 & H2). cbn [fst snd] in *. destruct r as [[]|err]; [by apply H1|by apply (H2 err)].
Qed.

(** A resize of an idle lease, whatever it is told. *)
Lemma resize_any cancelled place outcome size p l id owner e en : idle p l id owner e en -> process_released en = false ->
  wp 0 (_resize_lease cancelled place outcome id owner e size) (fun r _ p' => leases p' = leases p /\ active_leases p' = active_leases p
    /\ let after := match r with Ok _ => size | Err _ => entry_bytes en end in (forall n v, r = Ok (n, v) -> n = size) /\ entry_bytes (entry_at e p') = after /\ reserved_bytes p' = reserved_bytes p + (after - entry_bytes en)) p.
Proof.
  intros Hi Hpr. pose proof (idle_inflight _ _ _ _ _ _ Hi) as (Hif & Hin & Hok). assert (He : entry_at e p = en) by (apply entry_at_eq, Hi).
  assert (Hlo : local_released en = false) by (destruct (local_released en) eqn:E; [pose proof (eo_local _ Hok E); congruence|done]).
  assert (Hstay : forall err : exn, leases p = leases p /\ active_leases p = active_leases p /\ (forall n v, @Err (Z * (Z * nat)) err = Ok (n, v) -> n = size) /\ entry_bytes (entry_at e p) = entry_bytes en /\ reserved_bytes p = reserved_bytes p + (entry_bytes en - entry_bytes en)).
  { intros err. rewrite He. split; [done|]. split; [done|]. split; [done|]. split; [done|lia]. }
  assert (Hafter : forall p' en', section_done (waiting_bytes l) (waiting_leases l) e p p' en' -> inflight (resizing en') = false -> local_released en' = local_released en ->
    leases p' = leases p /\ active_leases p' = active_leases p /\ entry_bytes (entry_at e p') = entry_bytes en' /\ reserved_bytes p' = reserved_bytes p + (entry_bytes en' - entry_bytes en)).
  { intros p' en' Hs Hif' Elo. destruct (idle_after _ _ _ _ _ _ _ _ Hi Hs Hif') as (_ & -> & -> & -> & _ & He'). rewrite (entry_at_eq e p' en' He'). unfold held_bytes, held_lease. rewrite Elo, Hlo. split; [done|]. split; [lia|]. split; [done|lia]. }
  destruct cancelled as [[]|err]; [|unfold _resize_lease; wp_step; wp_step; apply Hstay].
  destruct (decide (0 <= size <= limit_bytes p)) as [Hsize|Hsize].
  2: { unfold _resize_lease. wp_step. wp_step. wp_step. wp_step. unfold _normalize_size. destruct (Z.ltb_spec size 0); [apply Hstay|]. wp_step. unfold _validate_one_artifact. wp_step. wp_step. rewrite (proj2 (Z.leb_gt _ _)) by lia. wp_step. apply Hstay. }
  destruct place as [place|err].
  2: { unfold _resize_lease. wp_step. wp_step. wp_step. wp_step. unfold _normalize_size. rewrite (proj2 (Z.ltb_ge _ _)) by lia. wp_step. unfold _validate_one_artifact. wp_step. wp_step. rewrite (proj2 (Z.leb_le _ _)) by lia. wp_step. wp_step. wp_step. apply Hstay. }
  destruct (closed p) eqn:Hcl.
  { unfold _resize_lease. wp_step. wp_step. wp_step. wp_step. unfold _normalize_size. rewrite (proj2 (Z.ltb_ge _ _)) by lia. wp_step. unfold _validate_one_artifact. wp_step. wp_step. rewrite (proj2 (Z.leb_le _ _)) by lia. wp_step. wp_step. wp_step.
    wp_step. unfold begin_resize. wp_step. wp_step. rewrite Hcl. wp_step. apply Hstay. }
  eapply resize_exact; [exact Hi|done|done|done|intros _; apply Hstay| |].
  - intros err p' en' _ _ Hs Hif' _ Heb Elo. destruct (Hafter p' en' Hs Hif' Elo) as (? & ? & ? & ?). rewrite Heb in *. done.
  - intros new v p' en' _ _ Hs Hif' _ Heb Elo. destruct (Hafter p' en' Hs Hif' Elo) as (? & ? & ? & ?). rewrite Heb in *. split; [done|]. split; [done|]. split; [by intros n w [= <- _]|done].
Qed.


(** ** A stream on the example pool *)

Module StreamExample.

Definition told : verdict := mk_verdict (Ok tt) (fun path => Ok (1, path)) (Ok 12%nat).

(** The lease of the example pool's entry. *)
Definition one : lease := _activate 1 1 0 (new_lease 7 0 1 2 1).

Definition specs : list spec := [mk_spec (Some 100) 0 2 4096; mk_spec None 10 3 4096].

Definition events : list event :=
  [mk_event 0 told PoolExample.p2 (Write (Ok tt) 30); mk_event 1 told PoolExample.p2 (Write (Ok tt) 5); mk_event 0 told PoolExample.p2 (Finalize (Ok 0) (Some 30))].

Lemma events_ok : Forall (fun ev => call_ok (ev_call ev)) events.
Proof. unfold events. repeat constructor. intros n [= <-]. lia. Qed.

Lemma streams_share_exact_witness : let st := fold_left happen events (one, map opened specs) in lease_bytes (fst st) = 30 /\ Forall (fun s => has_lease s = true -> written s <= covered s) (snd st).
Proof.
  pose proof (streams_share_exact one specs events events_ok) as G. cbv zeta in G |- *. destruct G as [G1 G2]. split; [|exact G2]. rewrite G1. vm_compute. reflexivity.
Defined.


End StreamExample.
